(* ===== verification/_CoqProject ===== *)
-Q . S2P
Prelude.v
GoStrings.v
GoRuntime.v
GoNet.v
Pool.v
Json.v
Model.v
Metrics.v
Metadata.v
Expect.v
Unstructured.v
IngressRoute.v
Kubernetes.v
Gitops.v
Reachability.v
Swagger.v
TelemetryModel.v
TelemetryClient.v
Overlay.v
Collector.v
Auth.v
Config.v
Api.v
Typing.v
System.v
Served.v
