(* ===== verification/Prelude.v ===== *)
(** * ssu-catalog: a verification of the catalog service

    The service scans a Kubernetes cluster, attributes every workload to its
    GitOps source, probes the Services for API documents, overlays the
    dependencies telemetry observed, and serves the result; a second worker probes
    the exposed hosts.  This library models its Go code under [src/] (an entry of
    the table names the file and the code it follows) and proves what each part
    promises and what their composition promises.

    ** Layers

    - [Prelude]: scope, tactics, hint databases, lists, results, indexes, buckets.
    - [GoStrings], [GoNet], [Json]: the functions of [strings], [strconv], [net]
      and [encoding/json] the program calls, executable.  [GoRuntime] is the class
      of what Go leaves open: the order of a map range and of [sort.Slice].
    - [Pool]: an error group with a limit as a transition system, with [pool_run]
      (a finished run is a fold in some order), progress and completion.
    - [Model]: [internal/model/catalog.go], one record per struct.
    - [Metrics] ([internal/metrics/metrics.go]): the client library as a class with
      laws, and the registration of the metric set in a monad that panics.

    ** Components

    - [Metadata] ([internal/metadata/metadata.go]), [Expect]
      ([internal/reachability/expect.go]): annotations and status expectations.
    - [Unstructured], [IngressRoute] ([internal/kubernetes/ingressroute.go]):
      custom resources behind a class with laws and a tree instance; the scanners
      for Traefik's match expressions.
    - [Kubernetes] ([internal/kubernetes/client.go]): conversions, the namespace
      filter, [ListResources] and its error group under [SetLimit].
    - [Gitops] ([internal/gitops/resolver.go]): the indexes and the resolution of
      Argo CD and Flux attributions.
    - [Reachability] ([internal/reachability/prober.go], [store.go]) and [Swagger]
      ([internal/swagger/prober.go]): targets, one probe, a run under a limit.
    - [TelemetryModel] ([internal/telemetry/model.go]), [TelemetryClient]
      ([internal/telemetry/client.go]) and [Overlay]
      ([internal/telemetry/servicegraph.go]): identities, an instant query, and the
      six passes over an explicit state.
    - [Collector] ([internal/collector/collector.go]): the cycle, composing the
      scan, the resolver, the OpenAPI probes and the overlay.  [memory] is what its
      components keep between cycles: the probe counters and the overlay's caches.
    - [Auth] ([internal/auth/oidc.go]), [Config] ([internal/config/config.go]).
    - [Api] ([internal/api]): handlers over a snapshot and a store, routes and
      middleware; the verdict overlay also over a store of shared slices.
    - [System] ([cmd/main.go]): start, and the goroutines as the executable
      transition system [exec] over the catalog pointer, the store, the metrics,
      the collector's memory, the verifier, the context, the requests in flight and
      [main]'s own progress.
    - [Typing] and [Served] hold no code: the types of a collected catalog, pass by
      pass, and the theorems about what the running service serves and counts.

    A definition has the name of the Go function or type it follows where Rocq
    allows it; a loop body of its own is a definition ending in [_step] or named
    after what it adds.  State a Go method mutates is passed and returned.  Code
    outside the repository is a parameter: client-go and the API server's
    listings, the HTTP responses, DNS, the decoding of JSON into structs, OIDC
    discovery, [envconfig] and gin's request accessors.  What answers differently as
    time passes is a function of time: a cycle brings its own listings, probe
    responses and round of telemetry queries, and the n-th DNS lookup of an Overlayer
    has its own answer, which its caches then keep for good.  Integers are [Z]; where the width decides
    (durations), the wrap-around is written out.  A nil and an empty slice are one
    value, except where the code tells them apart.

    ** What the theorems show

    - The scan is independent of its schedule up to order, is the error group's
      under its concurrency bound, and keeps to the configured namespaces (the
      GitOps resources excepted, which are listed cluster-wide).
    - Applications are exactly the workloads and the unselected Services, with
      the ingress facts of each key; statistics and policy edges are as specified.
    - The overlay only adds: edges are deduplicated, name known applications and
      known types; a failed query degrades to no samples; a name is looked up once,
      and what the caches hold decides the rest, phantom databases included.
    - Resolution of telemetry identities and GitOps attributions is sound, and
      complete where the source means it to be.
    - Probe targets are the exposed hosts that are not opted out, one a Service and
      host, governed by the route of the shortest prefix; runs are independent of
      their schedule, end in a bounded number of steps and record what each response
      means.
    - The configuration is the environment with each missing setting at its
      default, or the first requirement that fails.
    - Parsers read back what their grammars print and stay in bounds; a query's
      form reads back as the query.
    - The metric set: sixteen metrics of distinct names, each with the cluster's
      label, registered or none returned; [Publish] sets the five gauges it means
      and touches nothing else.
    - The service: the catalog served is one cycle's, verdicts are one probe's,
      statistics agree with the lists, requests pass exactly when authorised, the
      shared snapshot is never written by a request, a failed cycle loses nothing,
      one good cycle is published whole and makes the service ready, cancellation
      ends both workers, the process ends when the requests in flight are answered,
      without waiting for the workers, and accepts none once its server closes; and
      exactly which interval settings panic.
    - Across components ([Served]): nothing out of scope is ever served, neither
      applications nor namespaces, edges or verdicts; every response is typed and
      names the configured cluster; a verdict is served only under a host its Service exposes
      and is a probe's of such a host; the counters are coherent and never
      decrease; an outage of the telemetry backend costs a cycle its observations
      and nothing else.

    Theorems over every [GoRuntime] hold for every execution; some compare two.
    Each theorem with a hypothesis has a witness at a concrete input.

    ** Fuel

    [trim_runes] takes the length of the string, [itoa_digits] the number of bits
    of the number, [find_calls] and [find_ticks] one more than the length of the
    text, [scan_value] two units a byte and two more: each step consumes a byte,
    a digit or half a unit's byte.  [find_calls_fuel], [find_ticks_fuel],
    [object_keys_enough] and [itoa_digits_parse] show that more would change
    nothing.  Every other recursion is structural.

    ** Not modelled

    The bootstrap library (logging and the HTTP server; [System] keeps whether it is
    shut down), the durations the two histograms observe (their number is kept), JSON
    rendering of responses and the timeouts inside the HTTP clients: input and
    output, or third party.  A request arrives in one step of [System] and is
    answered in another, in which its middleware and its handler read one state: the
    code reads the verifier, the catalog and the store's pointer (once a [Lookup])
    one after the other; [Api] shows what a response is when the store changes in
    between.  A scrape of the metrics between two gauges of one
    [Publish] is not a step of [System], nor is the end of the context inside a
    cycle: such a cycle is one whose scan, probes or queries fail. *)

(** ** Prelude

    Shared notation, tactics and lemmas. *)

From stdpp Require Export gmap strings list sorting fin_maps.
From Stdlib Require Import String.
From Stdlib Require Export ZArith Lia.

(** ** Scope, hint database and tactics *)

Declare Scope go_scope.
Delimit Scope go_scope with go.
Open Scope go_scope.

Create HintDb go.
Create Rewrite HintDb go.

(** Destructs the scrutinee of the first [match] or [if] of the goal and
    clears the impossible branches. *)
Ltac split_match :=
  match goal with
  | |- context [match ?x with _ => _ end] =>
      lazymatch x with
      | context [match _ with _ => _ end] => fail
      | _ => let E := fresh "E" in destruct x eqn:E
      end
  end.

Ltac split_match_in H :=
  match type of H with
  | context [match ?x with _ => _ end] =>
      lazymatch x with
      | context [match _ with _ => _ end] => fail
      | _ => let E := fresh "E" in destruct x eqn:E
      end
  end.

(** Turns boolean tests of hypotheses and goal into propositions. *)
Ltac breflect :=
  repeat match goal with
  | H : (_ && _)%bool = true |- _ => apply andb_true_iff in H as [? ?]
  | H : (_ || _)%bool = false |- _ => apply orb_false_iff in H as [? ?]
  | H : negb _ = true |- _ => apply negb_true_iff in H
  | H : negb _ = false |- _ => apply negb_false_iff in H
  | H : String.eqb _ _ = true |- _ => apply String.eqb_eq in H
  | H : String.eqb _ _ = false |- _ => apply String.eqb_neq in H
  | H : Z.eqb _ _ = true |- _ => apply Z.eqb_eq in H
  | H : Z.eqb _ _ = false |- _ => apply Z.eqb_neq in H
  | H : Z.leb _ _ = true |- _ => apply Z.leb_le in H
  | H : Z.leb _ _ = false |- _ => apply Z.leb_gt in H
  | H : Z.ltb _ _ = true |- _ => apply Z.ltb_lt in H
  | H : Z.ltb _ _ = false |- _ => apply Z.ltb_ge in H
  | H : Nat.eqb _ _ = true |- _ => apply Nat.eqb_eq in H
  | H : Nat.eqb _ _ = false |- _ => apply Nat.eqb_neq in H
  | H : Nat.ltb _ _ = true |- _ => apply Nat.ltb_lt in H
  | H : Nat.ltb _ _ = false |- _ => apply Nat.ltb_ge in H
  | H : bool_decide _ = true |- _ => apply bool_decide_eq_true in H
  | H : bool_decide _ = false |- _ => apply bool_decide_eq_false in H
  end.

(** ** Go maps

    A [map[string]string] is [None] when it is nil and [Some m] otherwise;
    indexing a nil map or a missing key gives the zero value. *)

Abbreviation smap := (option (gmap string string)).

Definition mget (m : smap) (k : string) : string :=
  match m with
  | None => EmptyString
  | Some g => default EmptyString (g !! k)
  end.
Notation "m ⟦ k ⟧" := (mget m k) (at level 1, k at level 200) : go_scope.

Definition mlen (m : smap) : nat :=
  match m with None => 0 | Some g => size g end.

(** Indexing a [map[string][]T]: the nil slice when the key is missing. *)
Definition mslice {V} (m : gmap string (list V)) (k : string) : list V :=
  default [] (m !! k).

Definition sset (l : list string) : gset string := list_to_set l.

Lemma mget_None k : mget None k = EmptyString.
Proof. reflexivity. Qed.

Lemma mget_Some (g : gmap string string) k v :
  g !! k = Some v → mget (Some g) k = v.
Proof. intros H. simpl. by rewrite H. Qed.

Lemma mget_missing (g : gmap string string) k :
  g !! k = None → mget (Some g) k = EmptyString.
Proof. intros H. simpl. by rewrite H. Qed.

Lemma mget_nonempty m k :
  mget m k ≠ EmptyString → ∃ g, m = Some g ∧ g !! k = Some (mget m k).
Proof.
  destruct m as [g|]; simpl; [|done].
  destruct (g !! k) eqn:E; simpl; [eauto|done].
Qed.

Lemma mslice_insert_eq {V} (m : gmap string (list V)) k l :
  mslice (<[k := l]> m) k = l.
Proof. unfold mslice. by rewrite lookup_insert_eq. Qed.

Lemma mslice_insert_ne {V} (m : gmap string (list V)) k k' l :
  k ≠ k' → mslice (<[k := l]> m) k' = mslice m k'.
Proof. intros H. unfold mslice. by rewrite lookup_insert_ne. Qed.

#[export] Hint Rewrite @mslice_insert_eq : go.
#[export] Hint Rewrite @mslice_insert_ne using congruence : go.

(** ** Append unless present

    The shape of the program's four "append unless an equal element is already
    there" loops: [dup] is the test of one element against the new one. *)

Section append_unless.
Context {A : Type} (dup : A → bool).

Definition append_unless (l : list A) (v : A) : list A :=
  if existsb dup l then l else l ++ [v].

Lemma append_unless_prefix l v : l `prefix_of` append_unless l v.
Proof. unfold append_unless. case_match; [done|]. by eexists. Qed.

Lemma append_unless_elem_of l v x :
  x ∈ append_unless l v → x ∈ l ∨ x = v.
Proof.
  unfold append_unless. case_match; [by left|].
  rewrite elem_of_app, list_elem_of_singleton. done.
Qed.

Lemma append_unless_dup l v : existsb dup l = true → append_unless l v = l.
Proof. unfold append_unless. by intros ->. Qed.

Lemma append_unless_new l v :
  existsb dup l = false → append_unless l v = l ++ [v].
Proof. unfold append_unless. by intros ->. Qed.

End append_unless.

Lemma existsb_elem_of {A} (p : A → bool) (l : list A) :
  existsb p l = true ↔ ∃ x, x ∈ l ∧ p x = true.
Proof.
  rewrite existsb_exists. split; intros (x & ? & ?); exists x;
    by rewrite ?list_elem_of_In in *.
Qed.

Lemma existsb_not_elem_of {A} (p : A → bool) (l : list A) :
  existsb p l = false ↔ ∀ x, x ∈ l → p x = false.
Proof.
  split.
  - intros H x Hx. destruct (p x) eqn:E; [|done].
    rewrite <- H. symmetry. apply existsb_elem_of. eauto.
  - intros H. destruct (existsb p l) eqn:E; [|done].
    apply existsb_elem_of in E as (x & Hx & ?). naive_solver.
Qed.

Lemma forallb_elem_of {A} (p : A → bool) (l : list A) :
  forallb p l = true ↔ ∀ x, x ∈ l → p x = true.
Proof. rewrite forallb_forall. by setoid_rewrite list_elem_of_In. Qed.

Lemma existsb_eqb_elem_of (l : list string) v :
  existsb (λ x, String.eqb x v) l = true ↔ v ∈ l.
Proof.
  rewrite existsb_elem_of. split.
  - intros (x & Hx & <-%String.eqb_eq). done.
  - intros H. exists v. by rewrite String.eqb_refl.
Qed.

(** Deduplication by a projection keeps the projections distinct. *)
Lemma append_unless_NoDup {A K} (f : A → K) (dup : A → bool) (l : list A) (v : A) :
  (∀ x, dup x = true ↔ f x = f v) →
  NoDup (f <$> l) → NoDup (f <$> append_unless dup l v).
Proof.
  intros Hdup Hl. unfold append_unless.
  destruct (existsb dup l) eqn:E; [done|].
  rewrite fmap_app. apply NoDup_app. split_and!; [done| |apply NoDup_singleton].
  intros k (x & -> & Hx)%list_elem_of_fmap Hk. simpl in Hk.
  rewrite list_elem_of_singleton in Hk.
  rewrite existsb_not_elem_of in E. specialize (E x Hx).
  apply (Hdup x) in Hk. congruence.
Qed.

(** The projection of the new element is always represented afterwards. *)
Lemma append_unless_covers {A K} (f : A → K) (dup : A → bool) (l : list A) (v : A) :
  (∀ x, dup x = true ↔ f x = f v) →
  ∃ x, x ∈ append_unless dup l v ∧ f x = f v.
Proof.
  intros Hdup. unfold append_unless. destruct (existsb dup l) eqn:E.
  - apply existsb_elem_of in E as (x & ? & ?%Hdup). eauto.
  - exists v. rewrite elem_of_app, list_elem_of_singleton. auto.
Qed.

Definition append_unique (l : list string) (v : string) : list string :=
  append_unless (λ existing, String.eqb existing v) l v.

Lemma append_unique_spec l v x : x ∈ append_unique l v ↔ x ∈ l ∨ x = v.
Proof.
  split; [apply append_unless_elem_of|].
  unfold append_unique, append_unless.
  destruct (existsb _ l) eqn:E; rewrite ?elem_of_app, ?list_elem_of_singleton.
  - rewrite existsb_eqb_elem_of in E. by intros [? | ->].
  - done.
Qed.

Lemma append_unique_NoDup l v : NoDup l → NoDup (append_unique l v).
Proof.
  intros H. pose proof (append_unless_NoDup (λ x : string, x) (λ e, String.eqb e v) l v) as L.
  rewrite !list_fmap_id in L. apply L; [intros x; apply String.eqb_eq|done].
Qed.

Lemma append_unique_idemp l v :
  append_unique (append_unique l v) v = append_unique l v.
Proof.
  apply append_unless_dup. apply existsb_eqb_elem_of, append_unique_spec. by right.
Qed.

Lemma append_unique_fresh l v : v ∉ l → append_unique l v = l ++ [v].
Proof.
  intros H. apply append_unless_new. destruct (existsb _ l) eqn:E; [|done].
  by apply existsb_eqb_elem_of in E.
Qed.

Lemma append_unique_present l v : v ∈ l → append_unique l v = l.
Proof. intros H. apply append_unless_dup. by apply existsb_eqb_elem_of. Qed.

#[export] Hint Resolve append_unique_NoDup append_unless_prefix : go.
#[export] Hint Rewrite append_unique_spec append_unique_idemp : go.

(** Inserting a list of distinct elements one by one is appending it. *)
Lemma append_unique_all l l' :
  NoDup (l ++ l') → foldl append_unique l l' = l ++ l'.
Proof.
  revert l. induction l' as [|v l' IH]; intros l Hl; simpl.
  - by rewrite app_nil_r.
  - rewrite append_unique_fresh.
    + rewrite IH; rewrite <- app_assoc; done.
    + apply NoDup_app in Hl as (_ & Hd & _). intros Hv.
      apply (Hd v Hv). by left.
Qed.

(** ** Sorted lists without ties are unique *)

Lemma sorted_no_ties_unique {A} (R : relation A) `{!Transitive R} (l1 l2 : list A) :
  (∀ x y, x ∈ l1 → y ∈ l1 → R x y → R y x → x = y) →
  Sorted R l1 → Sorted R l2 → l1 ≡ₚ l2 → l1 = l2.
Proof.
  intros Hties H1 H2 Hp.
  apply (StronglySorted_unique_strong R); [|by apply Sorted_StronglySorted..|done].
  intros x y Hx Hy. apply Hties; [done|]. by rewrite Hp.
Qed.

(** ** Loops that collect

    A loop whose body appends at most one element per iteration is [omap]; one
    that appends a slice per iteration is [bind]. *)

Lemma foldl_collect {A B} (step : list B → A → list B) (f : A → option B) acc l :
  (∀ acc x, step acc x = acc ++ option_list (f x)) →
  foldl step acc l = acc ++ omap f l.
Proof.
  intros Hstep. revert acc. induction l as [|x l IH]; intros acc; simpl.
  - by rewrite app_nil_r.
  - rewrite IH, Hstep, <- app_assoc. by destruct (f x).
Qed.

Lemma foldl_collect_list {A B} (step : list B → A → list B) (f : A → list B) acc l :
  (∀ acc x, step acc x = acc ++ f x) →
  foldl step acc l = acc ++ (l ≫= f).
Proof.
  intros Hstep. revert acc. induction l as [|x l IH]; intros acc; simpl.
  - by rewrite app_nil_r.
  - by rewrite IH, Hstep, <- app_assoc.
Qed.

Lemma foldl_ext {A B} (f g : B → A → B) b l : (∀ b x, f b x = g b x) → foldl f b l = foldl g b l.
Proof. intros H. revert b. induction l as [|x l IH]; intros b; simpl; [done|]. by rewrite H, IH. Qed.

Lemma foldl_map {A B C} (f : B → C → B) (g : A → C) b l :
  foldl f b (g <$> l) = foldl (λ b x, f b (g x)) b l.
Proof. revert b. induction l as [|x l IH]; intros b; [done|]. apply IH. Qed.

(** A loop that skips some elements and appends an image of the others. *)
Lemma foldl_filter {A B} (P : A → Prop) `{!∀ x, Decision (P x)} (step : list B → A → list B) (f : A → B) acc l :
  (∀ acc x, step acc x = if decide (P x) then acc ++ [f x] else acc) →
  foldl step acc l = acc ++ (f <$> filter P l).
Proof.
  intros Hs. revert acc. induction l as [|x l IH]; intros acc; [by rewrite app_nil_r|].
  cbn [foldl]. rewrite IH, Hs, filter_cons. destruct (decide (P x)); [|done].
  by rewrite <- app_assoc.
Qed.

(** An invariant of a loop body is an invariant of the loop. *)
Lemma foldl_inv {A B} (P : B → Prop) (step : B → A → B) b l :
  P b → (∀ b x, x ∈ l → P b → P (step b x)) → P (foldl step b l).
Proof.
  revert b. induction l as [|x l IH]; intros b Hb Hs; simpl; [done|].
  apply IH; [apply Hs; [left|done]|]. intros b' y Hy. apply Hs. by right.
Qed.

Lemma filter_always {A} (P : A → Prop) `{!∀ x, Decision (P x)} (l : list A) : (∀ x, P x) → filter P l = l.
Proof.
  intros HP. induction l as [|x l IH]; [done|]. by rewrite filter_cons, decide_True, IH.
Qed.

Lemma Forall_filter {A} (P Q : A → Prop) `{!∀ x, Decision (Q x)} (l : list A) :
  Forall P l → Forall P (filter Q l).
Proof. rewrite !Forall_forall. intros HP x [_ Hx]%list_elem_of_filter. by apply HP. Qed.

Lemma alter_middle {A} (f : A → A) (pre post : list A) x :
  alter f (Datatypes.length pre) (pre ++ x :: post) = pre ++ f x :: post.
Proof. by rewrite <- (Nat.add_0_r (Datatypes.length pre)), alter_app_r. Qed.

Lemma some_default {A} (d : A) (o : option A) : is_Some o → o = Some (default d o).
Proof. by intros [x ->]. Qed.

(** *** Counting *)

Definition count {A} (p : A → bool) (l : list A) : Z := Z.of_nat (Datatypes.length (filter (λ x, p x = true) l)).

Lemma count_app {A} (p : A → bool) l1 l2 : count p (l1 ++ l2) = (count p l1 + count p l2)%Z.
Proof. unfold count. rewrite filter_app, length_app. lia. Qed.

Lemma count_negb {A} (p : A → bool) l : (count p l + count (λ x, negb (p x)) l)%Z = Z.of_nat (Datatypes.length l).
Proof.
  unfold count. induction l as [|x l IH]; [done|]. rewrite !filter_cons. destruct (p x) eqn:E; simpl in *; lia.
Qed.

Lemma count_fmap {A} (p : A → bool) (f : A → A) l : (∀ x, p (f x) = p x) → count p (f <$> l) = count p l.
Proof.
  intros H. unfold count. f_equal. induction l as [|x l IH]; [done|].
  rewrite fmap_cons. destruct (p x) eqn:E.
  - rewrite !filter_cons_True by (rewrite ?H; done). simpl. by rewrite IH.
  - by rewrite !filter_cons_False by (rewrite ?H, E; done).
Qed.

Lemma omap_perm {A B} (f : A → option B) l1 l2 : l1 ≡ₚ l2 → omap f l1 ≡ₚ omap f l2.
Proof. by intros ->. Qed.

Lemma Sorted_weaken {A} (R S : relation A) l :
  (∀ x y, R x y → S x y) → Sorted R l → Sorted S l.
Proof.
  intros H. induction 1 as [|x l Hl IH Hhd]; constructor; [done|].
  destruct Hhd; constructor. by apply H.
Qed.

Lemma NoDup_fmap_omap {A B K} (f : A → option B) (key : B → K) (l : list A) :
  NoDup l →
  (∀ x y b c, x ∈ l → y ∈ l → f x = Some b → f y = Some c → key b = key c → x = y) →
  NoDup (key <$> omap f l).
Proof.
  induction l as [|x l IH]; intros Hnd Hinj; simpl; [constructor|].
  apply NoDup_cons in Hnd as [Hx Hnd].
  assert (NoDup (key <$> omap f l)) as Hl.
  { apply IH; [done|]. intros y z b c Hy Hz. apply Hinj; by right. }
  destruct (f x) as [b|] eqn:E; [|done]. simpl. apply NoDup_cons. split; [|done].
  intros (c & Hk & (y & Hy & E')%list_elem_of_omap)%list_elem_of_fmap.
  apply Hx. rewrite (Hinj x y b c); [done|left|by right|done..].
Qed.

Lemma NoDup_imap_pair {A} (l : list A) : NoDup (imap pair l).
Proof.
  apply NoDup_alt. intros i j [n x] Hi Hj. rewrite list_lookup_imap in Hi, Hj.
  destruct (l !! i), (l !! j); naive_solver.
Qed.

(** Numbered nested loops that append. *)
Lemma elem_of_mjoin_imap {A B} (f : nat → A → list B) (l : list A) y :
  y ∈ mjoin (imap f l) ↔ ∃ i x, l !! i = Some x ∧ y ∈ f i x.
Proof.
  rewrite list_elem_of_join. split.
  - intros (ys & Hy & (i & x & -> & Hx)%elem_of_lookup_imap). eauto.
  - intros (i & x & Hx & Hy). exists (f i x). split; [done|]. apply elem_of_lookup_imap. eauto.
Qed.

Lemma NoDup_mjoin_imap {A B} (f : nat → A → list B) (l : list A) :
  (∀ i x, l !! i = Some x → NoDup (f i x)) →
  (∀ i j x x' y, y ∈ f i x → y ∈ f j x' → i = j) →
  NoDup (mjoin (imap f l)).
Proof.
  revert f. induction l as [|x l IH]; intros f Hnd Hdisj; simpl; [constructor|].
  apply NoDup_app. split_and!.
  - by apply (Hnd 0).
  - intros y Hy (i & x' & _ & Hy')%elem_of_mjoin_imap.
    by pose proof (Hdisj 0 (S i) x x' y Hy Hy').
  - apply IH.
    + intros i x' Hx'. by apply (Hnd (S i)).
    + intros i j x1 x2 y H1 H2. by injection (Hdisj (S i) (S j) x1 x2 y H1 H2).
Qed.

(** ** The first element of least length

    A loop that keeps the best candidate so far and replaces it by a strictly
    shorter one. *)

Section first_min.
Context {A : Type} (len : A → nat).

Definition first_min (l : list A) (x : A) : Prop :=
  ∃ pre post, l = pre ++ x :: post ∧
    (∀ y, y ∈ pre → len x < len y) ∧ (∀ y, y ∈ post → len x ≤ len y).

Definition min_step (best : option A) (x : A) : option A :=
  match best with
  | Some b => if Nat.ltb (len x) (len b) then Some x else Some b
  | None => Some x
  end.

Lemma foldl_min_step l :
  match foldl min_step None l with
  | Some x => first_min l x
  | None => l = []
  end.
Proof.
  induction l as [|y l IH] using rev_ind; [done|]. rewrite foldl_app. simpl.
  destruct (foldl min_step None l) as [x|]; simpl.
  - destruct IH as (pre & post & -> & Hpre & Hpost).
    destruct (Nat.ltb_spec (len y) (len x)) as [Hlt|Hge].
    + exists (pre ++ x :: post), []. split_and!; [done| |by intros ? ?%elem_of_nil].
      intros z. rewrite elem_of_app, elem_of_cons. intros [Hz|[->|Hz]]; [|done|].
      * specialize (Hpre z Hz). lia.
      * specialize (Hpost z Hz). lia.
    + exists pre, (post ++ [y]). rewrite <- app_assoc. split_and!; [done..|].
      intros z. rewrite elem_of_app, list_elem_of_singleton. intros [Hz| ->]; [by apply Hpost|done].
  - subst l. exists [], []. split_and!; [done|by intros ? ?%elem_of_nil..].
Qed.

Lemma first_min_unique l x y : first_min l x → first_min l y → x = y.
Proof.
  intros (p1 & q1 & E1 & Hp1 & Hq1) (p2 & q2 & E2 & Hp2 & Hq2).
  rewrite E1 in E2. apply app_eq_app in E2 as (k & [[-> E]|[-> E]]); destruct k as [|z k];
    try (by injection E); injection E as <- ->; exfalso.
  - pose proof (Hp1 y ltac:(set_solver)). pose proof (Hq2 x ltac:(set_solver)). lia.
  - pose proof (Hp2 x ltac:(set_solver)). pose proof (Hq1 y ltac:(set_solver)). lia.
Qed.

(** The loop started from its first element. *)
Lemma foldl_min_first b l :
  first_min (b :: l) (foldl (λ best x, if Nat.ltb (len x) (len best) then x else best) b l).
Proof.
  pose proof (foldl_min_step (b :: l)) as H. simpl in H.
  assert (∀ l b, foldl min_step (Some b) l =
    Some (foldl (λ best x, if Nat.ltb (len x) (len best) then x else best) b l)) as E.
  { clear. intros l. induction l as [|x l IH]; intros b; [done|]. simpl. by destruct (Nat.ltb _ _). }
  by rewrite E in H.
Qed.
End first_min.

(** ** Errors

    A Go function's [(T, error)] result. *)

Inductive result (A : Type) : Type :=
  | Ok (a : A)
  | Err (msg : string).
Arguments Ok {A} a.
Arguments Err {A} msg.

Definition rbind {A B} (r : result A) (k : A → result B) : result B :=
  match r with Ok a => k a | Err e => Err e end.

(** [if err != nil { return nil, fmt.Errorf(msg + ": %w", err) }] *)
Definition rwrap {A} (msg : string) (r : result A) : result A :=
  match r with Ok a => Ok a | Err e => Err (msg +:+ ": " +:+ e) end.

Notation "x ←? r ; k" := (rbind r (λ x, k))
  (at level 100, r at next level, k at level 200, right associativity) : go_scope.

Definition is_ok {A} (r : result A) : bool := match r with Ok _ => true | Err _ => false end.

Lemma rbind_Ok {A B} (r : result A) (k : A → result B) b :
  rbind r k = Ok b ↔ ∃ a, r = Ok a ∧ k a = Ok b.
Proof. destruct r; simpl; naive_solver. Qed.

Lemma rwrap_Ok {A} msg (r : result A) a : rwrap msg r = Ok a ↔ r = Ok a.
Proof. destruct r; simpl; naive_solver. Qed.

#[export] Hint Rewrite @rbind_Ok @rwrap_Ok : go.

(** ** Indexing a list by key

    [idx[key(x)] = value(x)] in a loop over a slice: a later element of the same
    key replaces an earlier one. *)

Section index_by.
Context {A V : Type} (sel : A → option (string * V)).

Definition index_step_by (m : gmap string V) (x : A) : gmap string V :=
  match sel x with Some (k, v) => <[k := v]> m | None => m end.

Definition index_by (l : list A) : gmap string V := foldl index_step_by ∅ l.

(** All elements of a key give the same value. *)
Definition index_functional (l : list A) : Prop :=
  ∀ x y k v w, x ∈ l → y ∈ l → sel x = Some (k, v) → sel y = Some (k, w) → v = w.

Lemma index_by_snoc l x : index_by (l ++ [x]) = index_step_by (index_by l) x.
Proof. unfold index_by. by rewrite foldl_app. Qed.

Lemma index_by_sound l k v : index_by l !! k = Some v → ∃ x, x ∈ l ∧ sel x = Some (k, v).
Proof.
  induction l as [|x l IH] using rev_ind; [done|].
  rewrite index_by_snoc. unfold index_step_by.
  assert (∀ y, y ∈ l → y ∈ l ++ [x]) as Hl by (intros; rewrite elem_of_app; by left).
  destruct (sel x) as [[k' v']|] eqn:E; [|intros (y & ? & ?)%IH; eauto].
  destruct (decide (k' = k)) as [->|Hne].
  - rewrite lookup_insert_eq. intros [= ->]. exists x. split; [|done].
    rewrite elem_of_app, list_elem_of_singleton. by right.
  - rewrite lookup_insert_ne by done. intros (y & ? & ?)%IH; eauto.
Qed.

Lemma index_by_covers l x k v : x ∈ l → sel x = Some (k, v) → is_Some (index_by l !! k).
Proof.
  intros Hx E. induction l as [|y l IH] using rev_ind; [by apply elem_of_nil in Hx|].
  rewrite index_by_snoc. unfold index_step_by.
  apply elem_of_app in Hx as [Hx| ->%list_elem_of_singleton].
  - destruct (sel y) as [[k' v']|]; [|by apply IH].
    destruct (decide (k' = k)) as [->|]; [rewrite lookup_insert_eq; eauto|].
    rewrite lookup_insert_ne by done. by apply IH.
  - rewrite E, lookup_insert_eq. eauto.
Qed.

Lemma index_by_lookup l x k v :
  x ∈ l → sel x = Some (k, v) → (∀ y w, y ∈ l → sel y = Some (k, w) → w = v) →
  index_by l !! k = Some v.
Proof.
  intros Hx E Hu. destruct (index_by_covers l x k v Hx E) as [w Hw]. rewrite Hw.
  apply index_by_sound in Hw as (y & Hy & Ey). f_equal. by eapply Hu.
Qed.

Lemma index_by_missing l k : (∀ x v, x ∈ l → sel x ≠ Some (k, v)) → index_by l !! k = None.
Proof.
  intros H. destruct (index_by l !! k) eqn:E; [|done].
  apply index_by_sound in E as (x & Hx & Ex). by destruct (H x v Hx).
Qed.

Lemma index_by_perm l1 l2 :
  l1 ≡ₚ l2 → index_functional l1 → index_by l1 = index_by l2.
Proof.
  intros Hp Hf. apply map_eq. intros k.
  destruct (index_by l1 !! k) as [v|] eqn:E1.
  - apply index_by_sound in E1 as (x & Hx & Ex). symmetry.
    apply (index_by_lookup l2 x); [by rewrite <- Hp|done|].
    intros y w Hy Ey. rewrite <- Hp in Hy. by apply (Hf y x k w v).
  - symmetry. apply index_by_missing. intros x v Hx Ex. rewrite <- Hp in Hx.
    destruct (index_by_covers l1 x k v Hx Ex). congruence.
Qed.
End index_by.

(** ** Indexing a list by key, collecting

    [idx[key] = add(idx[key], v)] in a loop: every key collects its values. *)

Section bucket.
Context {A V : Type} (add : list V → A → list V).

Definition bucket_step (m : gmap string (list V)) (e : string * A) : gmap string (list V) :=
  <[e.1 := add (mslice m e.1) e.2]> m.

(** The values of one key, in order. *)
Definition bucket_events (k : string) (es : list (string * A)) : list A :=
  omap (λ e, if decide (e.1 = k) then Some e.2 else None) es.

Lemma bucket_events_app k es es' :
  bucket_events k (es ++ es') = bucket_events k es ++ bucket_events k es'.
Proof. apply omap_app. Qed.

Lemma bucket_lookup es m k :
  mslice (foldl bucket_step m es) k = foldl add (mslice m k) (bucket_events k es).
Proof.
  revert m. induction es as [|[k' v] es IH]; intros m; [done|]. simpl. rewrite IH.
  unfold bucket_step. simpl. destruct (decide (k' = k)) as [->|Hne].
  - by rewrite mslice_insert_eq.
  - by rewrite mslice_insert_ne.
Qed.

Lemma bucket_events_tagged k k' vs :
  bucket_events k (pair k' <$> vs) = if decide (k' = k) then vs else [].
Proof.
  induction vs as [|v vs IH]; [by destruct (decide (k' = k))|].
  rewrite fmap_cons. unfold bucket_events in *. destruct (decide (k' = k)) as [->|Hne].
  - cbn [omap list_omap fst]. rewrite decide_True by done. by f_equal.
  - cbn [omap list_omap fst]. by rewrite decide_False.
Qed.

(** The events of a loop over a map whose keys are renamed by [g]. *)
Definition tagged (g : string → string) (l : list (string * list A)) : list (string * A) :=
  l ≫= λ e, pair (g e.1) <$> e.2.

Lemma bucket_events_none g l k :
  (∀ e, e ∈ l → g e.1 ≠ k) → bucket_events k (tagged g l) = [].
Proof.
  induction l as [|e l IH]; intros H; [done|].
  unfold tagged in *. rewrite bind_cons, bucket_events_app, bucket_events_tagged, IH by (intros; apply H; by right).
  rewrite decide_False; [done|]. apply H. left.
Qed.

Lemma bucket_events_one g l x vs :
  (∀ y, g y = g x → y = x) → NoDup l.*1 → (x, vs) ∈ l → bucket_events (g x) (tagged g l) = vs.
Proof.
  intros Hg. induction l as [|[y ws] l IH]; [by intros _ ?%elem_of_nil|].
  rewrite fmap_cons, NoDup_cons. intros [Hy Hl] Hin.
  unfold tagged in *. rewrite bind_cons, bucket_events_app, bucket_events_tagged.
  apply elem_of_cons in Hin as [[= -> ->]|Hin].
  - rewrite decide_True by done. rewrite (bucket_events_none g l); [by rewrite app_nil_r|].
    intros [z zs] Hz E. apply Hg in E. simpl in E. subst z. apply Hy.
    apply list_elem_of_fmap. by exists (y, zs).
  - rewrite decide_False; [by apply IH|]. cbn [fst]. intros ->%Hg. apply Hy.
    apply list_elem_of_fmap. by exists (x, vs).
Qed.
End bucket.
Arguments bucket_step {A V} add m e.

(** Nested loops that add. *)
Lemma foldl_tagged {A B} (f : B → string * A → B) (g : string → string) (l : list (string * list A)) b :
  foldl (λ b e, foldl (λ b v, f b (g e.1, v)) b e.2) b l = foldl f b (tagged g l).
Proof.
  revert b. induction l as [|[k vs] l IH]; intros b; [done|].
  unfold tagged in *. rewrite bind_cons, foldl_app, <- IH. simpl. f_equal. clear. revert b. induction vs as [|v vs IH]; intros b; [done|]. apply IH.
Qed.
