(* ===== verification/GoStrings.v ===== *)
(** * Go strings

    The functions of the packages [strings] and [strconv] the program calls.  A
    Go string is a sequence of bytes, as [string] is.  Case mapping beyond ASCII
    needs the Unicode tables and is left to the class [GoUnicode]; everything
    else is executable and exact. *)

From S2P Require Export Prelude.
From Stdlib Require Import Ascii String.

Implicit Types s t : string.

(** ** Bytes *)

Definition byte_code (c : ascii) : Z := Z.of_N (N_of_ascii c).

Definition code_byte (z : Z) : ascii := ascii_of_N (Z.to_N z).

Definition byte_in (lo hi : Z) (c : ascii) : bool :=
  ((lo <=? byte_code c) && (byte_code c <=? hi))%Z.

Definition is_digit : ascii → bool := byte_in 48 57.

(** Printable ASCII other than the blank. *)
Definition is_graphic : ascii → bool := byte_in 33 126.

Fixpoint string_all (p : ascii → bool) (s : string) : bool :=
  match s with
  | EmptyString => true
  | String c s' => p c && string_all p s'
  end.

Definition graphic (s : string) : bool := string_all is_graphic s.

Fixpoint string_map (f : ascii → ascii) (s : string) : string :=
  match s with
  | EmptyString => EmptyString
  | String c s' => String (f c) (string_map f s')
  end.

(** [s[n:]] for [n] at most the length. *)
Fixpoint string_drop (n : nat) (s : string) : string :=
  match n, s with
  | S n', String _ s' => string_drop n' s'
  | _, _ => s
  end.

(** ** Prefixes, suffixes, substrings *)

Fixpoint HasPrefix (s prefix : string) {struct prefix} : bool :=
  match prefix, s with
  | EmptyString, _ => true
  | String a p', String b s' => Ascii.eqb a b && HasPrefix s' p'
  | String _ _, EmptyString => false
  end.

Definition TrimPrefix (s prefix : string) : string :=
  if HasPrefix s prefix then string_drop (String.length prefix) s else s.

Fixpoint HasSuffix (s suffix : string) : bool :=
  String.eqb s suffix ||
  match s with EmptyString => false | String _ s' => HasSuffix s' suffix end.

Fixpoint TrimSuffix (s suffix : string) : string :=
  if String.eqb s suffix then EmptyString
  else match s with
       | EmptyString => EmptyString
       | String c s' => String c (TrimSuffix s' suffix)
       end.

Fixpoint Contains (s sub : string) : bool :=
  HasPrefix s sub ||
  match s with EmptyString => false | String _ s' => Contains s' sub end.

(** Splits [s] around the first occurrence of [sep]: [strings.Cut], and the
    program's [i := strings.Index(s, sep); i != -1] with [s[:i]] and
    [s[i+len(sep):]]. *)
Fixpoint Cut (s sep : string) : option (string * string) :=
  if HasPrefix s sep then Some (EmptyString, string_drop (String.length sep) s)
  else match s with
       | EmptyString => None
       | String c s' =>
           match Cut s' sep with
           | Some (l, r) => Some (String c l, r)
           | None => None
           end
       end.

(** Splits [s] around the last occurrence of [sep], as [strings.LastIndex]
    followed by the two slices does. *)
Fixpoint CutLast (s sep : string) : option (string * string) :=
  match s with
  | EmptyString =>
      if String.eqb sep EmptyString then Some (EmptyString, EmptyString) else None
  | String c s' =>
      match CutLast s' sep with
      | Some (l, r) => Some (String c l, r)
      | None =>
          if HasPrefix s sep
          then Some (EmptyString, string_drop (String.length sep) s) else None
      end
  end.

(** [strings.Split(s, sep)] for a one-byte separator. *)
Fixpoint Split (s : string) (sep : ascii) : list string :=
  match s with
  | EmptyString => [EmptyString]
  | String c s' =>
      if Ascii.eqb c sep then EmptyString :: Split s' sep
      else match Split s' sep with
           | h :: rest => String c h :: rest
           | [] => [String c EmptyString]
           end
  end.

Fixpoint Join (l : list string) (sep : string) : string :=
  match l with
  | [] => EmptyString
  | [x] => x
  | x :: l' => x +:+ sep +:+ Join l' sep
  end.

Fixpoint Count (s : string) (c : ascii) : nat :=
  match s with
  | EmptyString => 0
  | String a s' => (if Ascii.eqb a c then 1 else 0) + Count s' c
  end.

(** ** Trimming *)

Fixpoint TrimLeft (s : string) (c : ascii) : string :=
  match s with
  | EmptyString => EmptyString
  | String a s' => if Ascii.eqb a c then TrimLeft s' c else s
  end.

Fixpoint TrimRight (s : string) (c : ascii) : string :=
  match s with
  | EmptyString => EmptyString
  | String a s' =>
      match TrimRight s' c with
      | EmptyString => if Ascii.eqb a c then EmptyString else String a EmptyString
      | r => String a r
      end
  end.

(** [strings.Trim] with a one-byte cutset. *)
Definition Trim (s : string) (c : ascii) : string := TrimRight (TrimLeft s c) c.

Definition bytes (l : list Z) : string :=
  foldr (λ z s, String (code_byte z) s) EmptyString l.

(** The UTF-8 encodings of the code points [unicode.IsSpace] accepts. *)
Definition space_runes : list string :=
  bytes <$>
    ([ [9]; [10]; [11]; [12]; [13]; [32]; [194; 133]; [194; 160]; [225; 154; 128];
       [226; 128; 128]; [226; 128; 129]; [226; 128; 130]; [226; 128; 131];
       [226; 128; 132]; [226; 128; 133]; [226; 128; 134]; [226; 128; 135];
       [226; 128; 136]; [226; 128; 137]; [226; 128; 138]; [226; 128; 168];
       [226; 128; 169]; [226; 128; 175]; [226; 129; 159]; [227; 128; 128] ]%Z).

(** Drops leading occurrences of [runes]; each one is nonempty, so the length
    of the string bounds their number. *)
Fixpoint trim_runes (runes : list string) (fuel : nat) (s : string) : string :=
  match fuel with
  | 0 => s
  | S n =>
      match List.find (HasPrefix s) runes with
      | Some r => trim_runes runes n (string_drop (String.length r) s)
      | None => s
      end
  end.

Definition trim_left_space (s : string) : string :=
  trim_runes space_runes (String.length s) s.

Definition trim_right_space (s : string) : string :=
  String.rev (trim_runes (String.rev <$> space_runes) (String.length s) (String.rev s)).

Definition TrimSpace (s : string) : string := trim_right_space (trim_left_space s).

(** ** Case *)

Definition lower_byte (c : ascii) : ascii :=
  if byte_in 65 90 c then code_byte (byte_code c + 32) else c.

Definition upper_byte (c : ascii) : ascii :=
  if byte_in 97 122 c then code_byte (byte_code c - 32) else c.

Definition is_ascii_string (s : string) : bool := string_all (byte_in 0 127) s.

(** The Unicode tables: case mapping and quoting of strings that hold a byte
    outside ASCII. *)
Class GoUnicode := {
  wide_lower : string → string;
  wide_upper : string → string;
  wide_quote : string → string;
}.

Section case.
Context {U : GoUnicode}.

Definition ToLower (s : string) : string :=
  if is_ascii_string s then string_map lower_byte s else wide_lower s.

Definition ToUpper (s : string) : string :=
  if is_ascii_string s then string_map upper_byte s else wide_upper s.
End case.

(** [strings.EqualFold(s, t)] for a [t] of ASCII letters other than [k] and
    [s], whose simple-folding orbits hold no code point outside ASCII. *)
Definition EqualFold (s t : string) : bool :=
  String.eqb (string_map lower_byte s) (string_map lower_byte t).

(** ** Quoting *)

Definition hex_digit (z : Z) : ascii := code_byte (if (z <? 10)%Z then 48 + z else 87 + z).

Definition backslash (s : string) : string := String "\" s.

Definition quote_byte (c : ascii) : string :=
  let z := byte_code c in
  if (z =? 34)%Z || (z =? 92)%Z then backslash (String c EmptyString)
  else if (z =? 7)%Z then backslash "a" else if (z =? 8)%Z then backslash "b"
  else if (z =? 12)%Z then backslash "f" else if (z =? 10)%Z then backslash "n"
  else if (z =? 13)%Z then backslash "r" else if (z =? 9)%Z then backslash "t"
  else if (z =? 11)%Z then backslash "v"
  else if ((32 <=? z) && (z <=? 126))%Z then String c EmptyString
  else backslash (String "x" (String (hex_digit (z / 16)) (String (hex_digit (z mod 16)) EmptyString))).

Fixpoint quote_bytes (s : string) : string :=
  match s with
  | EmptyString => EmptyString
  | String c s' => (quote_byte c +:+ quote_bytes s')
  end.

Definition double_quote : string := String (code_byte 34) EmptyString.

(** [fmt]'s [%q], that is [strconv.Quote]. *)
Definition Quote {U : GoUnicode} (s : string) : string :=
  if is_ascii_string s then double_quote +:+ quote_bytes s +:+ double_quote else wide_quote s.

(** ** Numbers *)

Definition digit_value (c : ascii) : Z := byte_code c - 48.

Definition hex_value (c : ascii) : option Z :=
  if is_digit c then Some (byte_code c - 48)%Z
  else if byte_in 97 102 c then Some (byte_code c - 87)%Z
  else if byte_in 65 70 c then Some (byte_code c - 55)%Z
  else None.

Fixpoint parse_digits (acc : Z) (s : string) : option Z :=
  match s with
  | EmptyString => Some acc
  | String c s' =>
      if is_digit c then parse_digits (acc * 10 + digit_value c) s' else None
  end.

Definition int_range (z : Z) : bool :=
  ((- 2 ^ 63 <=? z) && (z <=? 2 ^ 63 - 1))%Z.

(** [strconv.Atoi] on a 64-bit platform; [None] stands for its error. *)
Definition Atoi (s : string) : option Z :=
  let '(sign, body) :=
    match s with
    | String c s' =>
        if Ascii.eqb c "-" then ((-1)%Z, s')
        else if Ascii.eqb c "+" then (1%Z, s') else (1%Z, s)
    | EmptyString => (1%Z, s)
    end in
  match body with
  | EmptyString => None
  | _ =>
      match parse_digits 0 body with
      | Some v => if int_range (sign * v) then Some (sign * v)%Z else None
      | None => None
      end
  end.

Fixpoint itoa_digits (fuel : nat) (z : Z) (acc : string) : string :=
  match fuel with
  | 0 => acc
  | S n =>
      let acc' := String (code_byte (48 + z mod 10)) acc in
      if (z <? 10)%Z then acc' else itoa_digits n (z / 10) acc'
  end.

(** Decimal rendering, as [%d] and [strconv.Itoa] do it. *)
Definition Itoa (z : Z) : string :=
  if (z <? 0)%Z
  then String "-" (itoa_digits (S (Z.to_nat (Z.log2 (- z)))) (- z) EmptyString)
  else itoa_digits (S (Z.to_nat (Z.log2 z))) z EmptyString.

(** Whether a string is not the empty one. *)
Definition nonempty (s : string) : bool := negb (String.eqb s EmptyString).

Arguments Split s sep%_char.
Arguments Count s c%_char.
Arguments TrimLeft s c%_char.
Arguments TrimRight s c%_char.
Arguments Trim s c%_char.

(** No byte of [s] is [c]. *)
Definition lacks (c : ascii) (s : string) : bool :=
  string_all (λ a, negb (Ascii.eqb a c)) s.
Arguments lacks c%_char s.

(** ** Concatenation *)

Lemma str_app_cons c s t : String c s +:+ t = String c (s +:+ t).
Proof. done. Qed.

Lemma str_app_nil_r s : s +:+ EmptyString = s.
Proof. induction s; [done|]. rewrite str_app_cons. by f_equal. Qed.

Lemma str_app_nil_l s : EmptyString +:+ s = s.
Proof. done. Qed.

Lemma str_app_assoc s1 s2 s3 : (s1 +:+ s2) +:+ s3 = s1 +:+ s2 +:+ s3.
Proof. induction s1; [done|]. rewrite !str_app_cons. by f_equal. Qed.

Lemma str_length_app s t : String.length (s +:+ t) = String.length s + String.length t.
Proof. induction s; [done|]. rewrite str_app_cons. simpl. by rewrite IHs. Qed.

Lemma str_app_inv_r s t u : s +:+ u = t +:+ u → s = t.
Proof.
  revert t. induction s as [|a s IH]; intros [|b t] E; [done| | |].
  - apply (f_equal String.length) in E. rewrite !str_length_app in E. simpl in E. lia.
  - apply (f_equal String.length) in E. rewrite !str_length_app in E. simpl in E. lia.
  - rewrite !str_app_cons in E. injection E as <- E. f_equal. by apply IH.
Qed.

Lemma str_app_inv_l s t u : u +:+ s = u +:+ t → s = t.
Proof. induction u; [done|]. rewrite !str_app_cons. intros [= E]. by apply IHu. Qed.

#[export] Hint Rewrite str_app_nil_r str_app_nil_l str_app_cons str_app_assoc str_length_app : go.

Lemma string_all_app p s t : string_all p (s +:+ t) = string_all p s && string_all p t.
Proof. induction s; [done|]. rewrite str_app_cons. simpl. rewrite IHs. by rewrite andb_assoc. Qed.

Lemma string_all_impl (p q : ascii → bool) s :
  (∀ c, p c = true → q c = true) → string_all p s = true → string_all q s = true.
Proof.
  intros Hpq. induction s as [|c s IH]; simpl; [done|].
  intros [? ?]%andb_true_iff. rewrite Hpq, IH; done.
Qed.

Lemma lacks_app c s t : lacks c (s +:+ t) = lacks c s && lacks c t.
Proof. apply string_all_app. Qed.

Lemma lacks_cons c a s : lacks c (String a s) = negb (Ascii.eqb a c) && lacks c s.
Proof. done. Qed.

#[export] Hint Rewrite string_all_app lacks_app : go.

(** ** Prefixes and suffixes *)

Lemma HasPrefix_iff s p : HasPrefix s p = true ↔ ∃ r, s = p +:+ r.
Proof.
  revert s. induction p as [|a p IH]; intros s; simpl.
  - split; [intros _; by exists s|done].
  - destruct s as [|b s]; simpl.
    + split; [done|]. intros [r Hr]. by rewrite str_app_cons in Hr.
    + rewrite andb_true_iff, IH. split.
      * intros [->%Ascii.eqb_eq [r ->]]. by exists r.
      * intros [r Hr]. rewrite str_app_cons in Hr. injection Hr as -> ->.
        rewrite Ascii.eqb_refl. eauto.
Qed.

Lemma HasPrefix_app p r : HasPrefix (p +:+ r) p = true.
Proof. apply HasPrefix_iff. eauto. Qed.

Lemma HasPrefix_refl p : HasPrefix p p = true.
Proof. apply HasPrefix_iff. exists EmptyString. by rewrite str_app_nil_r. Qed.

Lemma string_drop_app p r : string_drop (String.length p) (p +:+ r) = r.
Proof. induction p; [by destruct r|]. rewrite str_app_cons. done. Qed.

Lemma TrimPrefix_app p r : TrimPrefix (p +:+ r) p = r.
Proof. unfold TrimPrefix. by rewrite HasPrefix_app, string_drop_app. Qed.

Lemma TrimPrefix_spec s p :
  (∃ r, s = p +:+ r ∧ TrimPrefix s p = r) ∨ (HasPrefix s p = false ∧ TrimPrefix s p = s).
Proof.
  destruct (HasPrefix s p) eqn:E.
  - left. apply HasPrefix_iff in E as [r ->]. exists r. by rewrite TrimPrefix_app.
  - right. split; [done|]. unfold TrimPrefix. by rewrite E.
Qed.

Lemma app_same_length_nil s t u : s +:+ t = u → String.length u = String.length t → s = EmptyString.
Proof.
  intros <-. rewrite str_length_app. destruct s; simpl; [done|lia].
Qed.

Lemma HasSuffix_iff s p : HasSuffix s p = true ↔ ∃ r, s = r +:+ p.
Proof.
  induction s as [|c s IH]; cbn [HasSuffix]; rewrite orb_true_iff, String.eqb_eq.
  - split.
    + intros [<-|]; [|done]. by exists EmptyString.
    + intros [r Hr]. left. destruct r; [done|]. by rewrite str_app_cons in Hr.
  - rewrite IH. split.
    + intros [<-|[r ->]]; [by exists EmptyString|]. by exists (String c r).
    + intros [[|a r] Hr]; [by left|]. rewrite str_app_cons in Hr.
      injection Hr as -> ->. right. eauto.
Qed.

Lemma TrimSuffix_app s p : TrimSuffix (s +:+ p) p = s.
Proof.
  induction s as [|c s IH].
  - rewrite str_app_nil_l. destruct p; cbn [TrimSuffix]; by rewrite String.eqb_refl.
  - rewrite str_app_cons. cbn [TrimSuffix].
    destruct (String.eqb_spec (String c (s +:+ p)) p) as [E|_].
    + exfalso. apply (f_equal String.length) in E. simpl in E.
      rewrite str_length_app in E. lia.
    + by f_equal.
Qed.

(** ** Cutting *)

Lemma Cut_Some s sep l r : Cut s sep = Some (l, r) → s = l +:+ sep +:+ r.
Proof.
  revert l r. induction s as [|c s IH]; simpl; intros l r.
  - destruct (HasPrefix _ _) eqn:E; [|done]. intros [= <- <-].
    apply HasPrefix_iff in E as [u E]. by destruct sep.
  - destruct (HasPrefix _ _) eqn:E.
    + intros [= <- <-]. apply HasPrefix_iff in E as [u E]. by rewrite E, string_drop_app.
    + destruct (Cut s sep) as [[l' r']|] eqn:E'; [|done]. intros [= <- <-].
      rewrite (IH l' r'); done.
Qed.

Lemma Cut_byte s c r :
  lacks c s = true → Cut (s +:+ String c r) (String c EmptyString) = Some (s, r).
Proof.
  induction s as [|a s IH].
  - intros _. rewrite str_app_nil_l. simpl. by rewrite Ascii.eqb_refl.
  - rewrite lacks_cons, str_app_cons. intros [Ha Hs]%andb_true_iff. simpl.
    rewrite IH by done. rewrite Ascii.eqb_sym. apply negb_true_iff in Ha. by rewrite Ha.
Qed.

Lemma Cut_lacks s c : lacks c s = true → Cut s (String c EmptyString) = None.
Proof.
  induction s as [|a s IH]; [done|]. rewrite lacks_cons. intros [Ha Hs]%andb_true_iff.
  simpl. rewrite IH by done. rewrite Ascii.eqb_sym. apply negb_true_iff in Ha. by rewrite Ha.
Qed.

Lemma CutLast_Some s sep l r : CutLast s sep = Some (l, r) → s = l +:+ sep +:+ r.
Proof.
  revert l r. induction s as [|c s IH]; simpl; intros l r.
  - destruct (String.eqb_spec sep EmptyString) as [->|]; [|done]. by intros [= <- <-].
  - destruct (CutLast s sep) as [[l' r']|] eqn:E'.
    + intros [= <- <-]. rewrite (IH l' r'); done.
    + destruct (HasPrefix _ _) eqn:E; [|done]. intros [= <- <-].
      apply HasPrefix_iff in E as [u E]. by rewrite E, string_drop_app.
Qed.

Lemma CutLast_lacks s c : lacks c s = true → CutLast s (String c EmptyString) = None.
Proof.
  induction s as [|a s IH]; [done|]. rewrite lacks_cons. intros [Ha Hs]%andb_true_iff.
  simpl. rewrite IH by done. rewrite Ascii.eqb_sym. apply negb_true_iff in Ha. by rewrite Ha.
Qed.

Lemma CutLast_byte s c r :
  lacks c r = true → CutLast (s +:+ String c r) (String c EmptyString) = Some (s, r).
Proof.
  intros Hr. induction s as [|a s IH].
  - rewrite str_app_nil_l. simpl. by rewrite CutLast_lacks, Ascii.eqb_refl.
  - rewrite str_app_cons. simpl. by rewrite IH.
Qed.

Lemma sep_inj c a b x y :
  lacks c a = true → lacks c b = true → a +:+ String c x = b +:+ String c y → a = b ∧ x = y.
Proof.
  intros Ha Hb E. pose proof (Cut_byte a c x Ha) as H1. pose proof (Cut_byte b c y Hb) as H2.
  rewrite E, H2 in H1. by injection H1 as -> ->.
Qed.

Lemma Contains_byte s c : Contains s (String c EmptyString) = negb (lacks c s).
Proof.
  induction s as [|a s IH]; [done|]. rewrite lacks_cons. simpl. rewrite IH, (Ascii.eqb_sym c a).
  by destruct (Ascii.eqb a c), (lacks c s).
Qed.

Lemma Count_cons a s c : Count (String a s) c = (if Ascii.eqb a c then 1 else 0) + Count s c.
Proof. reflexivity. Qed.

Lemma Count_app s t c : Count (s +:+ t) c = Count s c + Count t c.
Proof. induction s as [|a s IH]; [done|]. rewrite str_app_cons. simpl. rewrite IH. lia. Qed.

Lemma Count_lacks s c : lacks c s = true → Count s c = 0.
Proof.
  induction s as [|a s IH]; [done|]. rewrite lacks_cons. intros [Ha Hs]%andb_true_iff. simpl.
  apply negb_true_iff in Ha. rewrite Ha. by apply IH.
Qed.

Lemma lacks_no_prefix s c : lacks c s = true → HasPrefix s (String c EmptyString) = false.
Proof.
  intros H. destruct (HasPrefix _ _) eqn:E; [|done]. apply HasPrefix_iff in E as [r ->].
  rewrite str_app_cons, lacks_cons, Ascii.eqb_refl in H. done.
Qed.

Lemma Count_zero_lacks s c : Count s c = 0 → lacks c s = true.
Proof.
  induction s as [|a s IH]; [done|]. rewrite Count_cons, lacks_cons.
  destruct (Ascii.eqb a c); simpl; [lia|]. exact IH.
Qed.

(** A separator that occurs once on one side occurs once on the other. *)
Lemma sep_once_inj c a b x y :
  lacks c b = true → lacks c y = true → a +:+ String c x = b +:+ String c y → a = b ∧ x = y.
Proof.
  intros Hb Hy E. apply (sep_inj c); [|done..]. apply Count_zero_lacks.
  apply (f_equal (λ s, Count s c)) in E.
  rewrite !Count_app, !Count_cons, Ascii.eqb_refl, (Count_lacks b c Hb), (Count_lacks y c Hy) in E. lia.
Qed.

Lemma TrimSuffix_none s p : HasSuffix s p = false → TrimSuffix s p = s.
Proof.
  induction s as [|a s IH]; cbn [HasSuffix TrimSuffix].
  - intros [-> _]%orb_false_iff. done.
  - intros [-> H]%orb_false_iff. by rewrite (IH H).
Qed.

Lemma TrimSuffix_miss s p c : Count s c < Count p c → TrimSuffix s p = s.
Proof.
  intros H. apply TrimSuffix_none. destruct (HasSuffix s p) eqn:E; [|done].
  apply HasSuffix_iff in E as [r ->]. rewrite Count_app in H. lia.
Qed.

(** ** Splitting and joining *)

Lemma Split_nonempty s c : Split s c ≠ [].
Proof. destruct s as [|a s]; simpl; [done|]. destruct (Ascii.eqb a c); [done|]. by destruct (Split s c). Qed.

Lemma Split_lacks s c : lacks c s = true → Split s c = [s].
Proof.
  induction s as [|a s IH]; [done|]. rewrite lacks_cons. intros [Ha Hs]%andb_true_iff.
  simpl. apply negb_true_iff in Ha. by rewrite Ha, IH.
Qed.

Lemma Split_app s c r :
  lacks c s = true → Split (s +:+ String c r) c = s :: Split r c.
Proof.
  induction s as [|a s IH].
  - intros _. rewrite str_app_nil_l. simpl. by rewrite Ascii.eqb_refl.
  - rewrite lacks_cons, str_app_cons. intros [Ha Hs]%andb_true_iff. simpl.
    apply negb_true_iff in Ha. by rewrite Ha, IH.
Qed.

Lemma Split_Join l c :
  l ≠ [] → Forall (λ s, lacks c s = true) l → Split (Join l (String c EmptyString)) c = l.
Proof.
  induction l as [|s l IH]; [done|]. intros _ Hl. apply Forall_cons in Hl as [Hs Hl].
  destruct l as [|s' l]; simpl.
  - by apply Split_lacks.
  - rewrite str_app_cons, str_app_nil_l. rewrite Split_app by done. f_equal. by apply IH.
Qed.

(** ** Trimming *)

Lemma trim_runes_id runes fuel s :
  (∀ r, r ∈ runes → HasPrefix s r = false) → trim_runes runes fuel s = s.
Proof.
  intros H. destruct fuel as [|fuel]; [done|]. simpl.
  destruct (List.find (HasPrefix s) runes) as [r|] eqn:E; [|done].
  apply find_some in E as [Hin Hp]. apply list_elem_of_In in Hin.
  rewrite H in Hp; done.
Qed.

Lemma trim_runes_nil runes fuel :
  Forall (λ r, r ≠ EmptyString) runes → trim_runes runes fuel EmptyString = EmptyString.
Proof.
  intros H. apply trim_runes_id. intros r Hr. rewrite Forall_forall in H.
  specialize (H r Hr). by destruct r.
Qed.

Lemma string_rev_app_spec s t : String.rev_app s t = String.rev s +:+ t.
Proof.
  unfold String.rev. revert t. induction s as [|c s IH]; intros t; [done|].
  simpl. rewrite (IH (String c t)), (IH (String c EmptyString)).
  by rewrite str_app_assoc.
Qed.

Lemma string_rev_cons c s : String.rev (String c s) = String.rev s +:+ String c EmptyString.
Proof. unfold String.rev at 1. simpl. apply string_rev_app_spec. Qed.

Lemma string_rev_app s t : String.rev (s +:+ t) = String.rev t +:+ String.rev s.
Proof.
  induction s as [|c s IH].
  - by rewrite str_app_nil_l, str_app_nil_r.
  - by rewrite str_app_cons, !string_rev_cons, IH, str_app_assoc.
Qed.

Lemma string_rev_involutive s : String.rev (String.rev s) = s.
Proof.
  induction s as [|c s IH]; [done|]. by rewrite string_rev_cons, string_rev_app, IH.
Qed.

Lemma string_all_rev p s : string_all p (String.rev s) = string_all p s.
Proof.
  induction s as [|c s IH]; [done|].
  rewrite string_rev_cons, string_all_app, IH. simpl. rewrite andb_true_r. apply andb_comm.
Qed.

Definition first_not_graphic (r : string) : bool :=
  match r with String c _ => negb (is_graphic c) | EmptyString => false end.

Lemma graphic_no_prefix s r :
  graphic s = true → first_not_graphic r = true → HasPrefix s r = false.
Proof.
  destruct r as [|c r]; [done|]. simpl. intros Hs Hc.
  destruct s as [|a s]; [done|]. simpl in *. unfold graphic in Hs. simpl in Hs.
  apply andb_true_iff in Hs as [Ha _]. destruct (Ascii.eqb_spec c a) as [->|]; [|done].
  by rewrite Ha in Hc.
Qed.

(** A string of printable ASCII bytes has nothing to trim. *)
Lemma TrimSpace_graphic s : graphic s = true → TrimSpace s = s.
Proof.
  intros Hs. unfold TrimSpace.
  assert (trim_left_space s = s) as ->.
  { apply trim_runes_id. intros r Hr. apply graphic_no_prefix; [done|].
    revert r Hr. apply Forall_forall, (bool_decide_unpack _). by vm_compute. }
  unfold trim_right_space. rewrite trim_runes_id; [apply string_rev_involutive|].
  intros r Hr. apply graphic_no_prefix.
  - unfold graphic. by rewrite string_all_rev.
  - revert r Hr. apply Forall_forall, (bool_decide_unpack _). by vm_compute.
Qed.

Lemma TrimLeft_spec s c :
  ∃ p, s = p +:+ TrimLeft s c ∧ string_all (λ a, Ascii.eqb a c) p = true ∧
       (∀ r, TrimLeft s c ≠ String c r).
Proof.
  induction s as [|a s (p & IHp & IHa & IHn)].
  - exists EmptyString. done.
  - simpl. destruct (Ascii.eqb_spec a c) as [->|Hne].
    + exists (String c p). rewrite str_app_cons. simpl. rewrite Ascii.eqb_refl. by rewrite <- IHp.
    + exists EmptyString. split_and!; [done..|]. congruence.
Qed.

Lemma TrimRight_spec s c :
  ∃ p, s = TrimRight s c +:+ p ∧ string_all (λ a, Ascii.eqb a c) p = true ∧
       (∀ r, TrimRight s c ≠ r +:+ String c EmptyString).
Proof.
  induction s as [|a s (p & IHp & IHa & IHn)].
  - exists EmptyString. split_and!; [done..|]. by intros [].
  - simpl. destruct (TrimRight s c) as [|b t] eqn:E.
    + destruct (Ascii.eqb_spec a c) as [->|Hne].
      * exists (String c p). rewrite str_app_nil_l in IHp. subst s. simpl.
        rewrite Ascii.eqb_refl. split_and!; [done..|]. by intros [].
      * exists p. rewrite str_app_nil_l in IHp. subst s. split_and!; [done..|].
        intros [|d [|e r]]; rewrite ?str_app_cons, ?str_app_nil_l; congruence.
    + exists p. rewrite str_app_cons. rewrite <- IHp. split_and!; [done..|].
      intros [|d r]; rewrite ?str_app_cons, ?str_app_nil_l; [congruence|].
      intros [= -> Hr]. by apply (IHn r).
Qed.

Lemma TrimLeft_id s c : (∀ r, s ≠ String c r) → TrimLeft s c = s.
Proof.
  destruct s as [|a s]; simpl; [done|]. intros H.
  destruct (Ascii.eqb_spec a c) as [->|]; [by destruct (H s)|done].
Qed.

Lemma TrimRight_id s c : (∀ r, s ≠ r +:+ String c EmptyString) → TrimRight s c = s.
Proof.
  induction s as [|a s IH]; intros H; [done|]. simpl.
  rewrite IH.
  - destruct s as [|b s]; [|done]. destruct (Ascii.eqb_spec a c) as [->|]; [|done].
    by destruct (H EmptyString).
  - intros r ->. by apply (H (String a r)).
Qed.

Lemma TrimRight_prefix s c : ∃ p, s = TrimRight s c +:+ p.
Proof. destruct (TrimRight_spec s c) as (p & ? & _). eauto. Qed.

Lemma Trim_ends s c :
  (∀ r, Trim s c ≠ String c r) ∧ (∀ r, Trim s c ≠ r +:+ String c EmptyString).
Proof.
  unfold Trim. destruct (TrimLeft_spec s c) as (p & _ & _ & Hl).
  destruct (TrimRight_spec (TrimLeft s c) c) as (q & Hq & _ & Hr). split; [|done].
  intros r E. rewrite E, str_app_cons in Hq. by apply (Hl (r +:+ q)).
Qed.

Lemma Trim_id s c :
  (∀ r, s ≠ String c r) → (∀ r, s ≠ r +:+ String c EmptyString) → Trim s c = s.
Proof. intros H1 H2. unfold Trim. rewrite TrimLeft_id by done. by apply TrimRight_id. Qed.

(** [body] is [s] without the bytes [c] at its ends. *)
Definition trimmed (c : ascii) (s body : string) : Prop :=
  ∃ a b, s = a +:+ body +:+ b ∧ string_all (λ x, Ascii.eqb x c) a = true ∧
    string_all (λ x, Ascii.eqb x c) b = true ∧
    (∀ r, body ≠ String c r) ∧ (∀ r, body ≠ r +:+ String c EmptyString).

Lemma TrimLeft_all a s c : string_all (λ x, Ascii.eqb x c) a = true → TrimLeft (a +:+ s) c = TrimLeft s c.
Proof.
  induction a as [|x a IH]; [done|]. rewrite str_app_cons. simpl. rewrite andb_true_iff. intros [Hx Ha].
  rewrite Hx. by apply IH.
Qed.

Lemma TrimRight_all b c : string_all (λ x, Ascii.eqb x c) b = true → TrimRight b c = EmptyString.
Proof. induction b as [|x b IH]; [done|]. simpl. rewrite andb_true_iff. intros [Hx Hb]. by rewrite IH, Hx. Qed.

Lemma TrimRight_body body b c :
  string_all (λ x, Ascii.eqb x c) b = true → (∀ r, body ≠ r +:+ String c EmptyString) →
  TrimRight (body +:+ b) c = body.
Proof.
  intros Hb. induction body as [|x body IH]; intros Hn; [by rewrite str_app_nil_l, TrimRight_all|].
  rewrite str_app_cons. simpl. rewrite IH.
  - destruct body; [|done]. destruct (Ascii.eqb_spec x c) as [->|]; [|done]. by destruct (Hn EmptyString).
  - intros r ->. by apply (Hn (String x r)).
Qed.

Lemma Trim_iff s c body : Trim s c = body ↔ trimmed c s body.
Proof.
  split.
  - intros <-. destruct (TrimLeft_spec s c) as (a & Ha & Haa & _).
    destruct (TrimRight_spec (TrimLeft s c) c) as (b & Hb & Hbb & _). destruct (Trim_ends s c) as [H1 H2].
    exists a, b. split_and!; try done. unfold Trim. by rewrite <- Hb.
  - intros (a & b & -> & Ha & Hb & H1 & H2). unfold Trim. rewrite TrimLeft_all by done.
    destruct body as [|x body].
    + rewrite str_app_nil_l. destruct (TrimLeft_spec b c) as (p & E & _). rewrite E, string_all_app in Hb.
      apply andb_true_iff in Hb as [_ Hb]. by apply TrimRight_all.
    + rewrite TrimLeft_id; [by apply TrimRight_body|]. intros r. rewrite str_app_cons. intros [= -> _]. by apply (H1 body).
Qed.

Lemma Trim_idemp s c : Trim (Trim s c) c = Trim s c.
Proof. apply Trim_id; apply Trim_ends. Qed.

Lemma Trim_slash_body s :
  (∀ r, s ≠ String "/" r) → (∀ r, s ≠ r +:+ "/") → Trim (String "/" s) "/" = s.
Proof.
  intros H1 H2. unfold Trim. simpl. rewrite TrimLeft_id by done. by apply TrimRight_id.
Qed.

(** ** Decimal numbers *)

Lemma code_byte_code z : (0 ≤ z < 256)%Z → byte_code (code_byte z) = z.
Proof.
  intros Hz. unfold byte_code, code_byte. rewrite N_ascii_embedding by lia. lia.
Qed.

Lemma digit_byte d : (0 ≤ d < 10)%Z →
  is_digit (code_byte (48 + d)) = true ∧ digit_value (code_byte (48 + d)) = d.
Proof.
  intros Hd. unfold is_digit, byte_in, digit_value. rewrite code_byte_code by lia.
  split; [|lia]. apply andb_true_iff. split; apply Z.leb_le; lia.
Qed.

Lemma itoa_digits_parse fuel z acc :
  (0 ≤ z < 2 ^ Z.of_nat fuel)%Z →
  ∃ k, ∀ a, parse_digits a (itoa_digits fuel z acc) = parse_digits (a * k + z) acc.
Proof.
  revert z acc. induction fuel as [|n IH]; intros z acc Hz.
  - simpl in Hz. exists 1%Z. intros a. simpl. f_equal. lia.
  - cbn [itoa_digits].
    destruct (digit_byte (z mod 10)) as [Hd Hv]; [apply Z.mod_pos_bound; lia|].
    destruct (Z.ltb_spec z 10) as [Hlt|Hge].
    + exists 10%Z. intros a. simpl. rewrite Hd, Hv. f_equal. rewrite Z.mod_small; lia.
    + destruct (IH (z / 10)%Z (String (code_byte (48 + z mod 10)) acc)) as [k Hk].
      { split; [apply Z.div_pos; lia|]. apply Z.div_lt_upper_bound; [lia|].
        rewrite Nat2Z.inj_succ, Z.pow_succ_r in Hz by lia. lia. }
      exists (k * 10)%Z. intros a. rewrite Hk. simpl. rewrite Hd, Hv. f_equal.
      pose proof (Z.div_mod z 10). lia.
Qed.

Lemma itoa_digits_all fuel z acc :
  (0 ≤ z)%Z → string_all is_digit acc = true →
  string_all is_digit (itoa_digits fuel z acc) = true.
Proof.
  revert z acc. induction fuel as [|n IH]; intros z acc Hz Hacc; [done|].
  cbn [itoa_digits]. destruct (digit_byte (z mod 10)) as [Hd _]; [apply Z.mod_pos_bound; lia|].
  case_match.
  - simpl. by rewrite Hd.
  - apply IH; [apply Z.div_pos; lia|]. simpl. by rewrite Hd.
Qed.

Lemma itoa_digits_cons fuel z acc :
  acc ≠ EmptyString → itoa_digits fuel z acc ≠ EmptyString.
Proof.
  revert z acc. induction fuel as [|n IH]; intros z acc H; [done|].
  cbn [itoa_digits]. case_match; [done|]. by apply IH.
Qed.

Lemma itoa_digits_nonempty fuel z : itoa_digits (S fuel) z EmptyString ≠ EmptyString.
Proof. cbn [itoa_digits]. case_match; [done|]. by apply itoa_digits_cons. Qed.

Lemma log2_fuel z : (0 ≤ z)%Z → (0 ≤ z < 2 ^ Z.of_nat (S (Z.to_nat (Z.log2 z))))%Z.
Proof.
  intros Hz. split; [done|]. rewrite Nat2Z.inj_succ, Z2Nat.id by apply Z.log2_nonneg.
  destruct (decide (z = 0)%Z) as [->|]; [done|]. apply Z.log2_spec. lia.
Qed.

Lemma Itoa_digits z : (0 ≤ z)%Z → string_all is_digit (Itoa z) = true ∧ Itoa z ≠ EmptyString.
Proof.
  intros Hz. unfold Itoa. destruct (Z.ltb_spec z 0); [lia|]. split.
  - by apply itoa_digits_all.
  - apply itoa_digits_nonempty.
Qed.

Lemma digit_graphic c : is_digit c = true → is_graphic c = true.
Proof. unfold is_digit, is_graphic, byte_in. rewrite !andb_true_iff, !Z.leb_le. lia. Qed.

Lemma digits_graphic s : string_all is_digit s = true → graphic s = true.
Proof. apply string_all_impl, digit_graphic. Qed.

(** Bytes that are not digits do not occur in a string of digits. *)
Lemma digits_lack c s :
  is_digit c = false → string_all is_digit s = true → lacks c s = true.
Proof.
  intros Hc. apply string_all_impl. intros a Ha. apply negb_true_iff.
  destruct (Ascii.eqb_spec a c); [by subst; congruence|done].
Qed.

Lemma digits_no_sign c s :
  string_all is_digit (String c s) = true → Ascii.eqb c "-" = false ∧ Ascii.eqb c "+" = false.
Proof.
  simpl. intros [Hc _]%andb_true_iff.
  split; match goal with |- Ascii.eqb ?a ?b = _ => destruct (Ascii.eqb_spec a b) as [->|] end; done.
Qed.

Lemma parse_itoa z :
  (0 ≤ z)%Z →
  parse_digits 0 (itoa_digits (S (Z.to_nat (Z.log2 z))) z EmptyString) = Some z.
Proof.
  intros Hz.
  destruct (itoa_digits_parse (S (Z.to_nat (Z.log2 z))) z EmptyString) as [k Hk];
    [by apply log2_fuel|].
  by rewrite Hk.
Qed.

(** Parsing what [Itoa] prints gives the number back. *)
Lemma Atoi_Itoa z : (- 2 ^ 63 ≤ z ≤ 2 ^ 63 - 1)%Z → Atoi (Itoa z) = Some z.
Proof.
  intros Hz. assert (int_range z = true) as Hr.
  { unfold int_range. rewrite andb_true_iff, !Z.leb_le. lia. }
  unfold Itoa. destruct (Z.ltb_spec z 0) as [Hneg|Hpos].
  - pose proof (itoa_digits_nonempty (Z.to_nat (Z.log2 (- z))) (- z)) as Hne.
    pose proof (parse_itoa (- z) ltac:(lia)) as Hp.
    destruct (itoa_digits _ _ _) as [|c s]; [done|].
    unfold Atoi. rewrite Ascii.eqb_refl, Hp.
    replace (-1 * - z)%Z with z by lia. by rewrite Hr.
  - pose proof (itoa_digits_nonempty (Z.to_nat (Z.log2 z)) z) as Hne.
    pose proof (parse_itoa z Hpos) as Hp.
    pose proof (itoa_digits_all (S (Z.to_nat (Z.log2 z))) z EmptyString Hpos eq_refl) as Hall.
    destruct (itoa_digits _ _ _) as [|c s]; [done|].
    destruct (digits_no_sign c s Hall) as [H1 H2]. unfold Atoi. rewrite H1, H2, Hp.
    replace (1 * z)%Z with z by lia. by rewrite Hr.
Qed.

(** ** Order *)

Definition str_ltb (s t : string) : bool := String.ltb s t.

Lemma str_ltb_leb s t : String.ltb s t = negb (String.leb t s).
Proof.
  unfold String.ltb, String.leb. rewrite (String.compare_antisym t s).
  by destruct (String.compare s t).
Qed.

Lemma str_leb_trans s t u : String.leb s t = true → String.leb t u = true → String.leb s u = true.
Proof.
  intros H1 H2. apply Is_true_true. change (s ≤ u)%string.
  transitivity t; by apply Is_true_true.
Qed.

Lemma str_leb_antisym s t : String.leb s t = true → String.leb t s = true → s = t.
Proof. apply String.leb_antisym. Qed.

Lemma str_leb_refl s : String.leb s s = true.
Proof. destruct (String.leb_total s s); done. Qed.

Lemma str_ltb_irrefl s : String.ltb s s = false.
Proof. by rewrite str_ltb_leb, str_leb_refl. Qed.

Lemma str_ltb_trans s t u : String.ltb s t = true → String.ltb t u = true → String.ltb s u = true.
Proof.
  rewrite !str_ltb_leb, !negb_true_iff. intros H1 H2.
  destruct (String.leb u s) eqn:E; [|done].
  destruct (String.leb_total t u) as [H|H]; [|congruence].
  rewrite <- H1. symmetry. eapply str_leb_trans; eassumption.
Qed.

Lemma str_ltb_tricho s t : String.ltb s t = false → String.ltb t s = false → s = t.
Proof. rewrite !str_ltb_leb, !negb_false_iff. intros; by apply str_leb_antisym. Qed.

(** Reasoning goes through the lemmas above, not through unfolding on literals. *)
#[global] Arguments HasPrefix : simpl never.
#[global] Arguments HasSuffix : simpl never.
#[global] Arguments TrimPrefix : simpl never.
#[global] Arguments TrimSuffix : simpl never.
#[global] Arguments Contains : simpl never.
#[global] Arguments Cut : simpl never.
#[global] Arguments CutLast : simpl never.
#[global] Arguments Split : simpl never.
#[global] Arguments Join : simpl never.
#[global] Arguments Count : simpl never.
#[global] Arguments TrimLeft : simpl never.
#[global] Arguments TrimRight : simpl never.
#[global] Arguments TrimSpace : simpl never.
#[global] Arguments Atoi : simpl never.
#[global] Arguments Itoa : simpl never.
#[global] Arguments String.eqb : simpl never.
#[global] Arguments String.ltb : simpl never.
