(* ===== verification/GoRuntime.v ===== *)
(** * The Go runtime and [sort.Slice]

    Two operations of Go leave their result open: ranging over a map visits the
    entries in an unspecified order, and [sort.Slice] is not stable.  The class
    [GoRuntime] is what the language and the package [sort] promise of them, and
    the program's definitions take an instance, so that a theorem over every
    instance (or over two of them) is a theorem over every execution.
    [insertion_runtime] is an instance to compute with. *)

From S2P Require Export GoStrings.

(** The requirement [sort.Interface] puts on [Less]. *)
Record strict_weak {A} (less : A → A → bool) : Prop := {
  less_irrefl : ∀ x, less x x = false;
  less_trans : ∀ x y z, less x y = true → less y z = true → less x z = true;
  less_neg_trans : ∀ x y z, less y x = false → less z y = false → less z x = false;
}.

Class GoRuntime := {
  map_range : ∀ {K V : Type} `{Countable K}, gmap K V → list (K * V);
  map_range_perm : ∀ {K V : Type} `{Countable K} (m : gmap K V),
    map_range m ≡ₚ map_to_list m;
  sort_slice : ∀ {A : Type}, (A → A → bool) → list A → list A;
  sort_slice_perm : ∀ {A : Type} (less : A → A → bool) l, sort_slice less l ≡ₚ l;
  sort_slice_sorted : ∀ {A : Type} (less : A → A → bool) l,
    strict_weak less → Sorted (λ x y, less y x = false) (sort_slice less l);
}.

(** ** Orders *)

Definition less_by {A} (f : A → string) (x y : A) : bool := String.ltb (f x) (f y).

Lemma less_by_strict_weak {A} (f : A → string) : strict_weak (less_by f).
Proof.
  split; unfold less_by; intros.
  - apply str_ltb_irrefl.
  - eapply str_ltb_trans; eassumption.
  - rewrite str_ltb_leb, negb_false_iff in *. eapply str_leb_trans; eassumption.
Qed.

(** Two string keys, the first one deciding:
    [if x.f != y.f { return x.f < y.f }; return x.g < y.g]. *)
Definition less_by2 {A} (f g : A → string) (x y : A) : bool :=
  if negb (String.eqb (f x) (f y)) then String.ltb (f x) (f y)
  else String.ltb (g x) (g y).

Definition le2 (a b : string * string) : Prop :=
  String.ltb a.1 b.1 = true ∨ (a.1 = b.1 ∧ String.leb a.2 b.2 = true).

Lemma less_by2_false {A} (f g : A → string) x y :
  less_by2 f g y x = false ↔ le2 (f x, g x) (f y, g y).
Proof.
  unfold less_by2, le2. simpl. destruct (String.eqb_spec (f y) (f x)) as [E|E]; simpl.
  - rewrite str_ltb_leb, negb_false_iff, E, str_ltb_irrefl.
    split; [by right|]. by intros [?|[_ ?]].
  - split.
    + intros H. left. destruct (String.ltb (f x) (f y)) eqn:H'; [done|].
      destruct E. by apply str_ltb_tricho.
    + intros [H|[H _]]; [|congruence]. destruct (String.ltb (f y) (f x)) eqn:H'; [|done].
      pose proof (str_ltb_trans _ _ _ H H') as Hc. by rewrite str_ltb_irrefl in Hc.
Qed.

Lemma le2_trans a b c : le2 a b → le2 b c → le2 a c.
Proof.
  unfold le2. intros [H1|[H1 H1']] [H2|[H2 H2']].
  - left. eapply str_ltb_trans; eassumption.
  - left. by rewrite <- H2.
  - left. by rewrite H1.
  - right. split; [congruence|]. eapply str_leb_trans; eassumption.
Qed.

Lemma le2_total a b : le2 a b ∨ le2 b a.
Proof.
  unfold le2. destruct (String.ltb a.1 b.1) eqn:E1; [by left; left|].
  destruct (String.ltb b.1 a.1) eqn:E2; [by right; left|].
  pose proof (str_ltb_tricho _ _ E1 E2).
  destruct (String.leb_total a.2 b.2); [left|right]; right; done.
Qed.

Lemma le2_antisym a b : le2 a b → le2 b a → a = b.
Proof.
  destruct a as [a1 a2], b as [b1 b2]. unfold le2. simpl.
  assert (∀ x y, String.ltb x y = true → String.ltb y x = true → False) as Hc.
  { intros x y H1 H2. pose proof (str_ltb_trans _ _ _ H1 H2) as H. by rewrite str_ltb_irrefl in H. }
  intros [H1|[-> H1]] [H2|[E H2]].
  - destruct (Hc _ _ H1 H2).
  - rewrite E, str_ltb_irrefl in H1. done.
  - rewrite str_ltb_irrefl in H2. done.
  - f_equal. by apply str_leb_antisym.
Qed.

Lemma less_by2_strict_weak {A} (f g : A → string) : strict_weak (less_by2 f g).
Proof.
  split.
  - intros x. apply less_by2_false. destruct (le2_total (f x, g x) (f x, g x)); done.
  - intros x y z H1 H2. destruct (less_by2 f g x z) eqn:E; [done|].
    apply less_by2_false in E.
    assert (le2 (f x, g x) (f y, g y)) as Hxy.
    { destruct (le2_total (f x, g x) (f y, g y)) as [|H]; [done|].
      apply less_by2_false in H. congruence. }
    assert (le2 (f z, g z) (f y, g y)) as H by (eapply le2_trans; eassumption).
    apply less_by2_false in H. congruence.
  - intros x y z. rewrite !less_by2_false. intros; eapply le2_trans; eassumption.
Qed.

#[export] Hint Resolve less_by_strict_weak less_by2_strict_weak : go.

(** ** Determinism *)

Lemma NoDup_fmap_inj {A B} (f : A → B) (l : list A) x y :
  NoDup (f <$> l) → x ∈ l → y ∈ l → f x = f y → x = y.
Proof.
  induction l as [|z l IH]; [by rewrite elem_of_nil|].
  rewrite fmap_cons, NoDup_cons, !elem_of_cons.
  intros [Hz Hl] [->|Hx] [->|Hy] E; [done| | |by apply IH].
  - destruct Hz. rewrite E. by apply list_elem_of_fmap_2.
  - destruct Hz. rewrite <- E. by apply list_elem_of_fmap_2.
Qed.

(** Without ties, every implementation of [sort.Slice] gives the same slice,
    whatever the order the elements came in. *)
Lemma sort_slice_det {A} (rt1 rt2 : GoRuntime) (less : A → A → bool) (l1 l2 : list A) :
  strict_weak less → l1 ≡ₚ l2 →
  (∀ x y, x ∈ l1 → y ∈ l1 → less x y = false → less y x = false → x = y) →
  sort_slice (GoRuntime := rt1) less l1 = sort_slice (GoRuntime := rt2) less l2.
Proof.
  intros Hsw Hp Hties.
  assert (Transitive (λ x y, less y x = false)).
  { intros x y z. apply (less_neg_trans _ Hsw). }
  apply (sorted_no_ties_unique (λ x y, less y x = false)).
  - intros x y. rewrite !(sort_slice_perm (GoRuntime := rt1)). intros; eapply Hties; done.
  - by apply sort_slice_sorted.
  - by apply sort_slice_sorted.
  - by rewrite !sort_slice_perm.
Qed.

Lemma sort_by_det {A} (rt1 rt2 : GoRuntime) (f : A → string) (l1 l2 : list A) :
  l1 ≡ₚ l2 → NoDup (f <$> l1) →
  sort_slice (GoRuntime := rt1) (less_by f) l1 = sort_slice (GoRuntime := rt2) (less_by f) l2.
Proof.
  intros Hp Hnd. apply sort_slice_det; [auto with go|done|].
  unfold less_by. intros x y Hx Hy H1 H2.
  eapply NoDup_fmap_inj; [done..|]. by apply str_ltb_tricho.
Qed.

Lemma sort_by2_det {A} (rt1 rt2 : GoRuntime) (f g : A → string) (l1 l2 : list A) :
  l1 ≡ₚ l2 → NoDup ((λ x, (f x, g x)) <$> l1) →
  sort_slice (GoRuntime := rt1) (less_by2 f g) l1 =
  sort_slice (GoRuntime := rt2) (less_by2 f g) l2.
Proof.
  intros Hp Hnd. apply sort_slice_det; [auto with go|done|].
  intros x y Hx Hy H1 H2. apply less_by2_false in H1, H2.
  eapply NoDup_fmap_inj; [done..|]. by apply le2_antisym.
Qed.

Lemma sort_slice_elem_of {A} {rt : GoRuntime} (less : A → A → bool) l x :
  x ∈ sort_slice less l ↔ x ∈ l.
Proof. by rewrite sort_slice_perm. Qed.

Lemma sort_slice_length {A} {rt : GoRuntime} (less : A → A → bool) l :
  length (sort_slice less l) = length l.
Proof. by rewrite sort_slice_perm. Qed.

Lemma map_range_elem_of {rt : GoRuntime} `{Countable K} {V} (m : gmap K V) k v :
  (k, v) ∈ map_range m ↔ m !! k = Some v.
Proof. by rewrite map_range_perm, elem_of_map_to_list. Qed.

Lemma map_range_NoDup {rt : GoRuntime} `{Countable K} {V} (m : gmap K V) :
  NoDup (map_range m).*1.
Proof. rewrite map_range_perm. apply NoDup_fst_map_to_list. Qed.

#[export] Hint Rewrite @sort_slice_elem_of @sort_slice_length @map_range_elem_of : go.

(** ** An instance *)

Section insertion.
Context {A : Type} (less : A → A → bool).

Fixpoint insert_less (x : A) (l : list A) : list A :=
  match l with
  | [] => [x]
  | y :: l' => if less x y then x :: l else y :: insert_less x l'
  end.

Fixpoint insertion_sort (l : list A) : list A :=
  match l with
  | [] => []
  | x :: l' => insert_less x (insertion_sort l')
  end.

Lemma insert_less_perm x l : insert_less x l ≡ₚ x :: l.
Proof.
  induction l as [|y l IH]; simpl; [done|]. case_match; [done|].
  rewrite IH. constructor.
Qed.

Lemma insertion_sort_perm l : insertion_sort l ≡ₚ l.
Proof. induction l as [|x l IH]; simpl; [done|]. by rewrite insert_less_perm, IH. Qed.

Lemma insert_less_sorted x l :
  strict_weak less →
  Sorted (λ a b, less b a = false) l → Sorted (λ a b, less b a = false) (insert_less x l).
Proof.
  intros Hsw. induction l as [|y l IH]; simpl; intros Hl.
  - repeat constructor.
  - destruct (less x y) eqn:E.
    + constructor; [done|]. constructor. destruct (less y x) eqn:E'; [|done].
      pose proof (less_trans _ Hsw _ _ _ E E') as H. by rewrite (less_irrefl _ Hsw) in H.
    + apply Sorted_inv in Hl as [Hl Hhd]. constructor; [by apply IH|].
      destruct l as [|z l]; simpl; [by constructor|].
      destruct (less x z); constructor; [done|]. by inversion Hhd.
Qed.

Lemma insertion_sort_sorted l :
  strict_weak less → Sorted (λ a b, less b a = false) (insertion_sort l).
Proof. intros Hsw. induction l; simpl; [constructor|]. by apply insert_less_sorted. Qed.
End insertion.

(** Ranges in the order of the map's own listing and sorts by insertion. *)
Definition insertion_runtime : GoRuntime := {|
  map_range := λ K V _ _ m, map_to_list m;
  map_range_perm := λ K V _ _ m, reflexivity _;
  sort_slice := @insertion_sort;
  sort_slice_perm := @insertion_sort_perm;
  sort_slice_sorted := λ A less l, insertion_sort_sorted less l;
|}.

(** Ranges in the opposite order. *)
Definition reverse_runtime : GoRuntime := {|
  map_range := λ K V _ _ m, reverse (map_to_list m);
  map_range_perm := λ K V _ _ m, reverse_Permutation (map_to_list m);
  sort_slice := @insertion_sort;
  sort_slice_perm := @insertion_sort_perm;
  sort_slice_sorted := λ A less l, insertion_sort_sorted less l;
|}.
