(* ===== verification/GoNet.v ===== *)
(** * IP addresses ([net])

    [net.ParseIP] on its text forms and the classification methods of [net.IP],
    an address being its 16 bytes (an IPv4 one mapped into IPv6). *)

From S2P Require Export GoStrings.
From Stdlib Require Import Ascii.

Abbreviation IP := (list Z).

(** The fields of a dotted quad: [val] and [digLen] are the octet being read,
    [fields] those before it.  A dot with no digit before it is the check for a
    leading or doubled one. *)
Fixpoint parse_v4 (s : string) (val : Z) (digLen : nat) (fields : list Z) : option (list Z) :=
  match s with
  | EmptyString => if Nat.ltb (length fields) 3 then None else Some (fields ++ [val])
  | String c s' =>
      if is_digit c then
        if Nat.eqb digLen 1 && (val =? 0)%Z then None
        else
          let val := (val * 10 + digit_value c)%Z in
          if (255 <? val)%Z then None else parse_v4 s' val (S digLen) fields
      else if Ascii.eqb c "." then
        if Nat.eqb digLen 0 || String.eqb s' EmptyString then None
        else if Nat.eqb (length fields) 3 then None
        else parse_v4 s' 0 0 (fields ++ [val])
      else None
  end.

(** The hexadecimal digits at the head of [s]: value, number of digits, rest. *)
Fixpoint scan_hex (s : string) (acc : Z) (off : nat) : option (Z * nat * string) :=
  match s with
  | EmptyString => Some (acc, off, s)
  | String c s' =>
      match hex_value c with
      | None => Some (acc, off, s)
      | Some v =>
          let acc := (acc * 16 + v)%Z in
          if Nat.ltb 3 off then None
          else if (65535 <? acc)%Z then None
          else scan_hex s' acc (S off)
      end
  end.

(** The loop over the groups, at most eight of them; the result is the bytes,
    the position of the ellipsis and the unread rest. *)
Fixpoint parse_v6_groups (groups : nat) (ip : list Z) (ellipsis : option nat) (s : string)
    : option (list Z * option nat * string) :=
  match groups with
  | 0 => Some (ip, ellipsis, s)
  | S groups =>
      match scan_hex s 0 0 with
      | None | Some (_, 0, _) => None
      | Some (acc, _, rest) =>
          match rest with
          | EmptyString => Some (ip ++ [acc / 256; acc mod 256]%Z, ellipsis, EmptyString)
          | String c rest =>
              if Ascii.eqb c "." then
                if (match ellipsis with None => true | _ => false end) && negb (Nat.eqb (length ip) 12)
                then None
                else if Nat.ltb 16 (length ip + 4) then None
                else
                  match parse_v4 s 0 0 [] with
                  | None => None
                  | Some quad => Some (ip ++ quad, ellipsis, EmptyString)
                  end
              else
                let ip := ip ++ [acc / 256; acc mod 256]%Z in
                if negb (Ascii.eqb c ":") then None
                else
                  match rest with
                  | EmptyString => None
                  | String c2 rest2 =>
                      if Ascii.eqb c2 ":" then
                        match ellipsis with
                        | Some _ => None
                        | None =>
                            if String.eqb rest2 EmptyString
                            then Some (ip, Some (length ip), EmptyString)
                            else parse_v6_groups groups ip (Some (length ip)) rest2
                        end
                      else parse_v6_groups groups ip ellipsis rest
                  end
          end
      end
  end.

(** An address with a zone is no [net.IP]. *)
Definition parse_v6 (s : string) : option IP :=
  if Contains s "%" then None
  else if String.eqb s "::" then Some (replicate 16 0%Z)
  else
    let '(ellipsis, s) := if HasPrefix s "::" then (Some 0, string_drop 2 s) else (None, s) in
    match parse_v6_groups 8 [] ellipsis s with
    | None => None
    | Some (ip, ellipsis, rest) =>
        if negb (String.eqb rest EmptyString) then None
        else if Nat.ltb (length ip) 16 then
          match ellipsis with
          | None => None
          | Some e => Some (take e ip ++ replicate (16 - length ip) 0%Z ++ drop e ip)
          end
        else match ellipsis with Some _ => None | None => Some ip end
    end.

Definition v4_mapped (quad : list Z) : IP := replicate 10 0%Z ++ [255; 255]%Z ++ quad.

(** The first dot, colon or percent sign decides the form. *)
Fixpoint ip_form (s : string) : option ascii :=
  match s with
  | EmptyString => None
  | String c s' =>
      if Ascii.eqb c "." || Ascii.eqb c ":" || Ascii.eqb c "%" then Some c else ip_form s'
  end.

Definition ParseIP (s : string) : option IP :=
  match ip_form s with
  | None => None
  | Some c =>
      if Ascii.eqb c "." then option_map v4_mapped (parse_v4 s 0 0 [])
      else if Ascii.eqb c ":" then parse_v6 s
      else None
  end.

(** ** Classification *)

Definition ip_at (ip : IP) (i : nat) : Z := nth i ip 0%Z.

Definition To4 (ip : IP) : option (list Z) :=
  if bool_decide (take 12 ip = replicate 10 0%Z ++ [255; 255]%Z) then Some (drop 12 ip) else None.

Definition IsPrivate (ip : IP) : bool :=
  match To4 ip with
  | Some q =>
      (ip_at q 0 =? 10)%Z ||
      ((ip_at q 0 =? 172)%Z && (Z.land (ip_at q 1) 240 =? 16)%Z) ||
      ((ip_at q 0 =? 192)%Z && (ip_at q 1 =? 168)%Z)
  | None => (Z.land (ip_at ip 0) 254 =? 252)%Z
  end.

Definition IsLoopback (ip : IP) : bool :=
  match To4 ip with
  | Some q => (ip_at q 0 =? 127)%Z
  | None => bool_decide (ip = replicate 15 0%Z ++ [1%Z])
  end.

Definition IsLinkLocalUnicast (ip : IP) : bool :=
  match To4 ip with
  | Some q => (ip_at q 0 =? 169)%Z && (ip_at q 1 =? 254)%Z
  | None => (ip_at ip 0 =? 254)%Z && (Z.land (ip_at ip 1) 192 =? 128)%Z
  end.

Definition IsLinkLocalMulticast (ip : IP) : bool :=
  match To4 ip with
  | Some q => (ip_at q 0 =? 224)%Z && (ip_at q 1 =? 0)%Z && (ip_at q 2 =? 0)%Z
  | None => (ip_at ip 0 =? 255)%Z && (Z.land (ip_at ip 1) 15 =? 2)%Z
  end.

Definition IsUnspecified (ip : IP) : bool :=
  bool_decide (ip = v4_mapped [0; 0; 0; 0]%Z) || bool_decide (ip = replicate 16 0%Z).

Example parse_ip_examples :
  ParseIP "10.0.0.1" = Some (v4_mapped [10; 0; 0; 1]%Z) ∧ ParseIP "10.0.0.01" = None ∧
  ParseIP "1.2.3" = None ∧ ParseIP "256.1.1.1" = None ∧
  ParseIP "::1" = Some (replicate 15 0 ++ [1])%Z ∧
  ParseIP "2001:db8::ff00:42:8329" =
    Some [32; 1; 13; 184; 0; 0; 0; 0; 0; 0; 255; 0; 0; 66; 131; 41]%Z ∧
  ParseIP "::ffff:192.168.1.1" = ParseIP "192.168.1.1" ∧ ParseIP "fe80::1%eth0" = None ∧
  ParseIP "1:2:3:4:5:6:7::8" = None ∧ ParseIP "example.com" = None ∧ ParseIP "" = None.
Proof. by vm_compute. Qed.

(** ** Dotted quads *)

Definition octet (z : Z) : Prop := (0 ≤ z ≤ 255)%Z.

Definition dotted (a b c d : Z) : string :=
  Itoa a +:+ "." +:+ Itoa b +:+ "." +:+ Itoa c +:+ "." +:+ Itoa d.

(** A fact of every octet, checked octet by octet. *)
Lemma octet_cases (P : Z → Prop) (z : Z) :
  octet z → Forall P (Z.of_nat <$> seq 0 256) → P z.
Proof.
  intros Hz. rewrite Forall_forall. intros H. apply H. apply list_elem_of_fmap.
  exists (Z.to_nat z). unfold octet in Hz. split; [lia|]. apply elem_of_seq. lia.
Qed.

Ltac each_octet := apply octet_cases; [assumption|]; repeat (constructor; [reflexivity|]); constructor.

Lemma parse_v4_octet z c rest fields :
  octet z →
  parse_v4 (Itoa z +:+ String "." (String c rest)) 0 0 fields =
  if Nat.eqb (length fields) 3 then None else parse_v4 (String c rest) 0 0 (fields ++ [z]).
Proof.
  intros Hz. revert z Hz.
  assert (∀ z, octet z → ∀ s, parse_v4 (Itoa z +:+ String "." (String c s)) 0 0 fields =
    if Nat.eqb (length fields) 3 then None else parse_v4 (String c s) 0 0 (fields ++ [z])) as H;
    [|auto].
  intros z Hz s. revert z Hz s. intros z Hz.
  apply (octet_cases (λ z, ∀ s, parse_v4 (Itoa z +:+ String "." (String c s)) 0 0 fields =
    if Nat.eqb (length fields) 3 then None else parse_v4 (String c s) 0 0 (fields ++ [z]))); [done|].
  repeat (constructor; [intros; reflexivity|]). constructor.
Qed.

Lemma parse_v4_last z fields :
  octet z → length fields = 3 → parse_v4 (Itoa z) 0 0 fields = Some (fields ++ [z]).
Proof.
  intros Hz Hl.
  assert (parse_v4 (Itoa z) 0 0 fields =
    if Nat.ltb (length fields) 3 then None else Some (fields ++ [z])) as ->.
  { apply (octet_cases (λ z, parse_v4 (Itoa z) 0 0 fields =
      if Nat.ltb (length fields) 3 then None else Some (fields ++ [z]))); [done|].
    repeat (constructor; [intros; reflexivity|]). constructor. }
  by rewrite Hl.
Qed.

Lemma Itoa_cons z : octet z → ∃ c s, Itoa z = String c s ∧ is_digit c = true.
Proof.
  intros Hz. destruct (Itoa_digits z ltac:(unfold octet in Hz; lia)) as [Hd Hne].
  destruct (Itoa z) as [|c s]; [done|]. exists c, s. split; [done|].
  simpl in Hd. by apply andb_true_iff in Hd as [? _].
Qed.

Lemma ip_form_dotted s rest :
  string_all is_digit s = true → ip_form (s +:+ String "." rest) = Some "."%char.
Proof.
  induction s as [|c s IH]; [done|]. simpl string_all. intros [Hc Hs]%andb_true_iff.
  rewrite str_app_cons. simpl.
  assert (Ascii.eqb c "." || Ascii.eqb c ":" || Ascii.eqb c "%" = false) as ->; [|by apply IH].
  repeat match goal with |- context [Ascii.eqb ?a ?b] =>
    destruct (Ascii.eqb_spec a b) as [->|_]; [discriminate Hc|] end. done.
Qed.

Lemma dot_app s : "." +:+ s = String "." s.
Proof. reflexivity. Qed.

Lemma ParseIP_dotted a b c d :
  octet a → octet b → octet c → octet d →
  ParseIP (dotted a b c d) = Some (v4_mapped [a; b; c; d]).
Proof.
  intros Ha Hb Hc Hd. unfold ParseIP, dotted.
  rewrite !dot_app.
  rewrite ip_form_dotted by (apply Itoa_digits; unfold octet in Ha; lia).
  change (Ascii.eqb "." ".") with true. cbv iota.
  destruct (Itoa_cons b Hb) as (cb & sb & Eb & _), (Itoa_cons c Hc) as (cc & sc & Ec & _),
    (Itoa_cons d Hd) as (cd & sd & Ed & _).
  rewrite Eb. change (String cb sb +:+ ?s) with (String cb (sb +:+ s)).
  rewrite parse_v4_octet by done. cbn [length Nat.eqb app].
  change (String cb (sb +:+ ?s)) with (String cb sb +:+ s). rewrite <- Eb, Ec.
  change (String cc sc +:+ ?s) with (String cc (sc +:+ s)).
  rewrite parse_v4_octet by done. cbn [length Nat.eqb app].
  change (String cc (sc +:+ ?s)) with (String cc sc +:+ s). rewrite <- Ec, Ed.
  rewrite parse_v4_octet by done. cbn [length Nat.eqb app]. rewrite <- Ed.
  by rewrite parse_v4_last.
Qed.

Lemma To4_mapped q : To4 (v4_mapped q) = Some q.
Proof. reflexivity. Qed.
