(* ===== verification/Pool.v ===== *)
(** * A bounded error group

    Both probers run their jobs in an [errgroup.Group] with [SetLimit]: the
    submitting loop blocks while [limit] goroutines run, goroutines finish in any
    order, and each records its result under a mutex.  The transition system
    below is that group; [pool_run] reduces every complete run to a fold over a
    permutation of the jobs. *)

From S2P Require Export GoRuntime.

Section pool.
Context {J A : Type} (limit : nat) (record : A → J → A).

(** Jobs not yet submitted (in submission order), jobs running, results. *)
Record pool := mkPool { pl_queue : list J; pl_running : list J; pl_acc : A }.

Inductive pool_step : pool → pool → Prop :=
  | pool_start j q r acc :
      length r < limit → pool_step (mkPool (j :: q) r acc) (mkPool q (r ++ [j]) acc)
  | pool_finish q r1 j r2 acc :
      pool_step (mkPool q (r1 ++ j :: r2) acc) (mkPool q (r1 ++ r2) (record acc j)).

(** [g.Wait] returns when nothing is queued or running. *)
Definition pool_done (p : pool) : Prop := pl_queue p = [] ∧ pl_running p = [].

Definition pool_inv (jobs : list J) (acc0 : A) (p : pool) : Prop :=
  length (pl_running p) ≤ limit ∧
  ∃ finished, finished ++ pl_running p ++ pl_queue p ≡ₚ jobs ∧
              pl_acc p = foldl record acc0 finished.

Lemma pool_inv_start jobs acc0 : pool_inv jobs acc0 (mkPool jobs [] acc0).
Proof. split; simpl; [lia|]. by exists []. Qed.

Lemma pool_inv_step jobs acc0 p p' :
  pool_inv jobs acc0 p → pool_step p p' → pool_inv jobs acc0 p'.
Proof.
  intros [Hlen (fin & Hp & Hacc)] Hs.
  destruct Hs as [j q r acc Hl|q r1 j r2 acc]; simpl in *.
  - split; [simpl; rewrite length_app; simpl; lia|]. exists fin. simpl. split; [|done].
    by rewrite <- Hp, <- app_assoc.
  - split; [simpl; rewrite length_app in *; simpl in *; lia|]. exists (fin ++ [j]). simpl. split.
    + rewrite <- Hp, <- !app_assoc. simpl. by rewrite Permutation_middle.
    + by rewrite foldl_app, Hacc.
Qed.

Lemma pool_inv_rtc jobs acc0 p p' :
  rtc pool_step p p' → pool_inv jobs acc0 p → pool_inv jobs acc0 p'.
Proof. induction 1; [done|]. eauto using pool_inv_step. Qed.

(** A complete run has recorded every job once, in some order. *)
Lemma pool_run jobs acc0 p :
  rtc pool_step (mkPool jobs [] acc0) p → pool_done p →
  ∃ order, order ≡ₚ jobs ∧ pl_acc p = foldl record acc0 order.
Proof.
  intros Hr [Hq Hrun]. apply (pool_inv_rtc jobs acc0) in Hr as [_ (fin & Hp & Hacc)];
    [|apply pool_inv_start].
  rewrite Hq, Hrun, !app_nil_r in Hp. eauto.
Qed.

Lemma pool_limit jobs acc0 p :
  rtc pool_step (mkPool jobs [] acc0) p → length (pl_running p) ≤ limit.
Proof. intros Hr. apply (pool_inv_rtc jobs acc0) in Hr as [? _]; [done|apply pool_inv_start]. Qed.

(** A group with a positive limit never blocks for good. *)
Lemma pool_progress p : 0 < limit → ¬ pool_done p → ∃ p', pool_step p p'.
Proof.
  destruct p as [q r acc]. intros Hl Hd. destruct r as [|j r].
  - destruct q as [|j q]; [by destruct Hd|]. eexists. by apply pool_start.
  - eexists. apply (pool_finish q [] j r).
Qed.

(** With limit zero a nonempty group is stuck before its first job. *)
Lemma pool_zero_stuck jobs acc0 p :
  limit = 0 → pool_step (mkPool jobs [] acc0) p → False.
Proof.
  intros Hl. remember (mkPool jobs [] acc0) as p0 eqn:E. destruct 1.
  - lia.
  - injection E as _ E _. by destruct r1.
Qed.

Definition pool_measure (p : pool) : nat := 2 * length (pl_queue p) + length (pl_running p).

Lemma pool_step_decreases p p' : pool_step p p' → pool_measure p' < pool_measure p.
Proof.
  destruct 1; unfold pool_measure; simpl; rewrite ?length_app; simpl; lia.
Qed.

Lemma pool_terminates p : sn pool_step p.
Proof.
  remember (pool_measure p) as n eqn:E. revert p E.
  induction n as [n IH] using lt_wf_ind. intros p ->. constructor.
  intros p' Hs. eapply IH; [|reflexivity]. by apply pool_step_decreases.
Qed.

(** From any reachable state the group can be run to the end. *)
Lemma pool_completes p : 0 < limit → ∃ p', rtc pool_step p p' ∧ pool_done p'.
Proof.
  intros Hl. remember (pool_measure p) as n eqn:E. revert p E.
  induction n as [n IH] using lt_wf_ind. intros p ->.
  destruct (decide (pl_queue p = [] ∧ pl_running p = [])) as [Hd|Hd].
  { exists p. split; [apply rtc_refl|done]. }
  assert (¬ pool_done p) as Hnd by done.
  clear Hd. destruct (pool_progress p Hl Hnd) as [p1 Hs].
  destruct (IH _ (pool_step_decreases _ _ Hs) p1 eq_refl) as (p' & Hr & Hd).
  exists p'. split; [by eapply rtc_l|done].
Qed.
End pool.
