(* ===== verification/Json.v ===== *)
(** * Recognising a JSON object ([encoding/json])

    What the Swagger prober uses of [json.Unmarshal]: decoding a body into a
    [map[string]json.RawMessage] and asking which keys it has.  [object_keys] is
    the decoder's scanner on bytes (its grammar, its nesting limit) with the
    unquoted keys of the top-level object; [None] is the decoder's error.  A key's
    bytes outside ASCII are kept as they are: only membership of ASCII keys is
    asked. *)

From S2P Require Export GoStrings.
From Stdlib Require Import Ascii.

Definition json_quote : ascii := code_byte 34.

Definition is_json_space (c : ascii) : bool :=
  Ascii.eqb c " " || Ascii.eqb c (code_byte 9) || Ascii.eqb c (code_byte 10) ||
  Ascii.eqb c (code_byte 13).

Fixpoint skip_space (s : string) : string :=
  match s with
  | String c s' => if is_json_space c then skip_space s' else s
  | EmptyString => EmptyString
  end.

Fixpoint skip_digits (s : string) : string :=
  match s with
  | String c s' => if is_digit c then skip_digits s' else s
  | EmptyString => EmptyString
  end.

(** What follows the byte [c] at the head of [s]. *)
Definition expect (c : ascii) (s : string) : option string :=
  match s with
  | String a s' => if Ascii.eqb a c then Some s' else None
  | EmptyString => None
  end.

(** One digit or more. *)
Definition digits1 (s : string) : option string :=
  match s with
  | String c s' => if is_digit c then Some (skip_digits s') else None
  | EmptyString => None
  end.

Definition either (a b : option string) : option string :=
  match a with Some r => Some r | None => b end.

Definition scan_exponent (s : string) : option string :=
  match either (expect "e" s) (expect "E" s) with
  | Some s' => digits1 (default s' (either (expect "+" s') (expect "-" s')))
  | None => Some s
  end.

Definition scan_fraction (s : string) : option string :=
  match expect "." s with
  | Some s' => digits1 s' ≫= scan_exponent
  | None => scan_exponent s
  end.

Definition scan_number (s : string) : option string :=
  let body := default s (expect "-" s) in
  match expect "0" body with
  | Some s' => scan_fraction s'
  | None => digits1 body ≫= scan_fraction
  end.

(** The UTF-8 encoding of a code point below 65536. *)
Definition utf8 (z : Z) : string :=
  if (z <? 128)%Z then bytes [z]
  else if (z <? 2048)%Z then bytes [192 + z / 64; 128 + z mod 64]%Z
  else bytes [224 + z / 4096; 128 + (z / 64) mod 64; 128 + z mod 64]%Z.

Definition escape_byte (c : ascii) : option ascii :=
  if Ascii.eqb c json_quote || Ascii.eqb c "\" || Ascii.eqb c "/" then Some c
  else if Ascii.eqb c "b" then Some (code_byte 8)
  else if Ascii.eqb c "f" then Some (code_byte 12)
  else if Ascii.eqb c "n" then Some (code_byte 10)
  else if Ascii.eqb c "r" then Some (code_byte 13)
  else if Ascii.eqb c "t" then Some (code_byte 9)
  else None.

(** The string literal that starts after its opening quote: its unquoted content
    and what follows the closing quote. *)
Fixpoint scan_string (s : string) : option (string * string) :=
  match s with
  | EmptyString => None
  | String c s1 =>
      if Ascii.eqb c json_quote then Some (EmptyString, s1)
      else if Ascii.eqb c "\" then
        match s1 with
        | String e s2 =>
            if Ascii.eqb e "u" then
              match s2 with
              | String a (String b (String d (String f s3))) =>
                  match hex_value a, hex_value b, hex_value d, hex_value f with
                  | Some a, Some b, Some d, Some f =>
                      match scan_string s3 with
                      | Some (k, r) => Some (utf8 (4096 * a + 256 * b + 16 * d + f) +:+ k, r)
                      | None => None
                      end
                  | _, _, _, _ => None
                  end
              | _ => None
              end
            else
              match escape_byte e with
              | Some e =>
                  match scan_string s2 with
                  | Some (k, r) => Some (String e k, r)
                  | None => None
                  end
              | None => None
              end
        | EmptyString => None
        end
      else if byte_in 0 31 c then None
      else
        match scan_string s1 with
        | Some (k, r) => Some (String c k, r)
        | None => None
        end
  end.

Definition maxNestingDepth : Z := 10000.

(** [scan_value fuel depth s] is what follows the value at the head of [s], with
    [depth] arrays and objects open; [scan_members] and [scan_elements] start
    after an opening bracket or a comma, and [scan_members] lists the keys. *)
Fixpoint scan_value (fuel : nat) (depth : Z) (s : string) : option string :=
  match fuel with
  | 0 => None
  | S n =>
      let s := skip_space s in
      match expect "{" s, expect "[" s, expect json_quote s with
      | Some r, _, _ =>
          if (maxNestingDepth <=? depth)%Z then None
          else either (expect "}" (skip_space r)) (snd <$> scan_members n (depth + 1) r)
      | _, Some r, _ =>
          if (maxNestingDepth <=? depth)%Z then None
          else either (expect "]" (skip_space r)) (scan_elements n (depth + 1) r)
      | _, _, Some r => snd <$> scan_string r
      | _, _, _ =>
          if HasPrefix s "true" then Some (string_drop 4 s)
          else if HasPrefix s "false" then Some (string_drop 5 s)
          else if HasPrefix s "null" then Some (string_drop 4 s)
          else scan_number s
      end
  end
with scan_members (fuel : nat) (depth : Z) (s : string) : option (list string * string) :=
  match fuel with
  | 0 => None
  | S n =>
      r ← expect json_quote (skip_space s);
      '(key, r) ← scan_string r;
      r ← expect ":" (skip_space r);
      r ← scan_value n depth r;
      match expect "}" (skip_space r) with
      | Some r => Some ([key], r)
      | None =>
          r ← expect "," (skip_space r);
          '(keys, r) ← scan_members n depth r;
          Some (key :: keys, r)
      end
  end
with scan_elements (fuel : nat) (depth : Z) (s : string) : option string :=
  match fuel with
  | 0 => None
  | S n =>
      r ← scan_value n depth s;
      match expect "]" (skip_space r) with
      | Some r => Some r
      | None =>
          r ← expect "," (skip_space r);
          scan_elements n depth r
      end
  end.

(** The keys of the object a body decodes to, with [fuel] for the scanner. *)
Definition object_keys_fuel (fuel : nat) (body : string) : option (list string) :=
  let ended r := String.eqb (skip_space r) EmptyString in
  let s := skip_space body in
  match expect "{" s with
  | Some r =>
      '(keys, r) ← match expect "}" (skip_space r) with
                   | Some r => Some ([], r)
                   | None => scan_members fuel 1 r
                   end;
      if ended r then Some keys else None
  | None => if HasPrefix s "null" && ended (string_drop 4 s) then Some [] else None
  end.

(** Of two nested calls of the scanner one consumes a byte, so twice the length
    of the body is fuel enough ([object_keys_enough]). *)
Definition scan_fuel (s : string) : nat := S (S (2 * String.length s)).

Definition object_keys (body : string) : option (list string) :=
  object_keys_fuel (scan_fuel body) body.

(** ** Fuel *)

Abbreviation slen := String.length.

Lemma skip_space_len s : slen (skip_space s) ≤ slen s.
Proof. induction s as [|c s IH]; simpl; [lia|]. destruct (is_json_space c); simpl; lia. Qed.

Lemma skip_digits_len s : slen (skip_digits s) ≤ slen s.
Proof. induction s as [|c s IH]; simpl; [lia|]. destruct (is_digit c); simpl; lia. Qed.

Lemma expect_len c s r : expect c s = Some r → slen r < slen s.
Proof. destruct s as [|a s]; simpl; [done|]. destruct (Ascii.eqb a c); [|done]. intros [= <-]. lia. Qed.

Lemma either_len a b s r :
  (∀ r, a = Some r → slen r < slen s) → (∀ r, b = Some r → slen r < slen s) →
  either a b = Some r → slen r < slen s.
Proof. destruct a; simpl; naive_solver. Qed.

Lemma digits1_len s r : digits1 s = Some r → slen r < slen s.
Proof.
  destruct s as [|c s]; simpl; [done|]. destruct (is_digit c); [|done]. intros [= <-].
  pose proof (skip_digits_len s). lia.
Qed.

Lemma scan_exponent_len s r : scan_exponent s = Some r → slen r ≤ slen s.
Proof.
  unfold scan_exponent. destruct (either (expect "e" s) _) as [s'|] eqn:E; [|intros [= <-]; lia].
  apply (either_len _ _ s) in E; [|intros ? ?%expect_len; lia..].
  intros H%digits1_len. destruct (either (expect "+" s') _) as [s''|] eqn:E'; simpl in H; [|lia].
  apply (either_len _ _ s') in E'; [|intros ? ?%expect_len; lia..]. lia.
Qed.

Lemma scan_fraction_len s r : scan_fraction s = Some r → slen r ≤ slen s.
Proof.
  unfold scan_fraction. destruct (expect "." s) as [s'|] eqn:E; [|apply scan_exponent_len].
  apply expect_len in E. destruct (digits1 s') as [s''|] eqn:E'; simpl; [|done].
  apply digits1_len in E'. intros ?%scan_exponent_len. lia.
Qed.

Lemma scan_number_len s r : scan_number s = Some r → slen r < slen s.
Proof.
  unfold scan_number.
  assert (slen (default s (expect "-" s)) ≤ slen s) as Hb.
  { destruct (expect "-" s) as [s'|] eqn:E; simpl; [apply expect_len in E|]; lia. }
  destruct (expect "0" _) as [s'|] eqn:E.
  - apply expect_len in E. intros ?%scan_fraction_len. lia.
  - destruct (digits1 _) as [s'|] eqn:E'; simpl; [|done].
    apply digits1_len in E'. intros ?%scan_fraction_len. lia.
Qed.

Lemma scan_string_len s k r : scan_string s = Some (k, r) → slen r < slen s.
Proof.
  remember (slen s) as n eqn:En. revert s k r En.
  induction n as [n IH] using lt_wf_ind. intros s k r ->.
  assert (∀ s' f k r, slen s' < slen s →
    match scan_string s' with Some (k', r') => Some (f k', r') | None => None end = Some (k : string, r) →
    slen r < slen s) as Hrec.
  { intros s' f k' r' Hlt. destruct (scan_string s') as [[k1 r1]|] eqn:E; [|done].
    intros [= _ <-]. specialize (IH _ Hlt s' k1 r1 eq_refl E). lia. }
  destruct s as [|c s1]; [done|]. simpl scan_string.
  destruct (Ascii.eqb c json_quote); [intros [= _ <-]; simpl; lia|].
  destruct (Ascii.eqb c "\").
  - destruct s1 as [|e s2]; [done|]. destruct (Ascii.eqb e "u").
    + destruct s2 as [|a [|b [|d [|f s3]]]]; try done.
      destruct (hex_value a), (hex_value b), (hex_value d), (hex_value f); try done.
      apply Hrec. simpl. lia.
    + destruct (escape_byte e); [|done]. apply Hrec. simpl. lia.
  - destruct (byte_in 0 31 c); [done|]. apply Hrec. simpl. lia.
Qed.

Lemma string_drop_len n s : slen (string_drop n s) ≤ slen s.
Proof. revert s. induction n as [|n IH]; intros [|c s]; simpl; try lia. specialize (IH s). lia. Qed.

Lemma literal_len s p r :
  HasPrefix s p = true → p ≠ EmptyString → r = string_drop (slen p) s → slen r < slen s.
Proof.
  intros [t ->]%HasPrefix_iff Hp ->. rewrite string_drop_app, str_length_app.
  destruct p; [done|]. simpl. lia.
Qed.

(** A scan consumes at least one byte. *)
Definition scans_shrink (n : nat) : Prop :=
  (∀ d s r, scan_value n d s = Some r → slen r < slen s) ∧
  (∀ d s ks r, scan_members n d s = Some (ks, r) → slen r < slen s) ∧
  (∀ d s r, scan_elements n d s = Some r → slen r < slen s).

Lemma scan_value_shrink n : scans_shrink n →
  ∀ d s r, scan_value (S n) d s = Some r → slen r < slen s.
Proof.
  intros (_ & IHm & IHe) d s r. simpl. pose proof (skip_space_len s) as Hs.
  set (t := skip_space s) in *.
  destruct (expect "{" t) as [u|] eqn:E1.
  { apply expect_len in E1. destruct (maxNestingDepth <=? d)%Z; [done|].
    pose proof (skip_space_len u). intros Hr.
    eapply (either_len _ _ u) in Hr; [lia| |].
    - intros ? ?%expect_len. lia.
    - intros r'. destruct (scan_members n (d + 1) u) as [[ks r1]|] eqn:E; [|done].
      intros [= <-]. by apply IHm in E. }
  destruct (expect "[" t) as [u|] eqn:E2.
  { apply expect_len in E2. destruct (maxNestingDepth <=? d)%Z; [done|].
    pose proof (skip_space_len u). intros Hr.
    eapply (either_len _ _ u) in Hr; [lia| |].
    - intros ? ?%expect_len. lia.
    - intros r' E. by apply IHe in E. }
  destruct (expect json_quote t) as [u|] eqn:E3.
  { apply expect_len in E3. destruct (scan_string u) as [[k r1]|] eqn:E; [|done].
    intros [= <-]. apply scan_string_len in E. lia. }
  destruct (HasPrefix t "true") eqn:L1.
  { intros [= <-]. pose proof (literal_len _ _ _ L1 ltac:(done) eq_refl). simpl in *. lia. }
  destruct (HasPrefix t "false") eqn:L2.
  { intros [= <-]. pose proof (literal_len _ _ _ L2 ltac:(done) eq_refl). simpl in *. lia. }
  destruct (HasPrefix t "null") eqn:L3.
  { intros [= <-]. pose proof (literal_len _ _ _ L3 ltac:(done) eq_refl). simpl in *. lia. }
  intros ?%scan_number_len. lia.
Qed.

Lemma scan_shrinks n : scans_shrink n.
Proof.
  induction n as [|n IH]; [by split_and!|]. split_and!; [by apply scan_value_shrink| |];
    destruct IH as (IHv & IHm & IHe).
  - intros d s ks r. simpl. pose proof (skip_space_len s).
    destruct (expect json_quote _) as [r1|] eqn:E1; simpl; [|done]. apply expect_len in E1.
    destruct (scan_string r1) as [[k r2]|] eqn:E2; simpl; [|done]. apply scan_string_len in E2.
    pose proof (skip_space_len r2).
    destruct (expect ":" _) as [r3|] eqn:E3; simpl; [|done]. apply expect_len in E3.
    destruct (scan_value n d r3) as [r4|] eqn:E4; simpl; [|done]. apply IHv in E4.
    pose proof (skip_space_len r4).
    destruct (expect "}" _) as [r5|] eqn:E5; simpl.
    { intros [= _ <-]. apply expect_len in E5. lia. }
    destruct (expect "," _) as [r6|] eqn:E6; simpl; [|done]. apply expect_len in E6.
    destruct (scan_members n d r6) as [[ks' r7]|] eqn:E7; simpl; [|done]. apply IHm in E7.
    intros [= _ <-]. lia.
  - intros d s r. simpl.
    destruct (scan_value n d s) as [r4|] eqn:E4; simpl; [|done]. apply IHv in E4.
    pose proof (skip_space_len r4).
    destruct (expect "]" _) as [r5|] eqn:E5; simpl.
    { intros [= <-]. apply expect_len in E5. lia. }
    destruct (expect "," _) as [r6|] eqn:E6; simpl; [|done]. apply expect_len in E6.
    intros Hr%IHe. lia.
Qed.

(** Fuel beyond the bound does not change a scan. *)
Lemma scan_fuel_stable n :
  ∀ m d s, n ≤ m →
  (2 * slen s + 1 ≤ n → scan_value m d s = scan_value n d s) ∧
  (2 * slen s + 2 ≤ n → scan_members m d s = scan_members n d s ∧
                        scan_elements m d s = scan_elements n d s).
Proof.
  induction n as [|n IH]; intros m d s Hle; [split; lia|].
  destruct m as [|m]; [lia|].
  assert (∀ d s, 2 * slen s + 1 ≤ n → scan_value m d s = scan_value n d s) as IHv
    by (intros; by apply IH; lia).
  assert (∀ d s, 2 * slen s + 2 ≤ n → scan_members m d s = scan_members n d s) as IHm
    by (intros; by apply IH; lia).
  assert (∀ d s, 2 * slen s + 2 ≤ n → scan_elements m d s = scan_elements n d s) as IHe
    by (intros; by apply IH; lia).
  pose proof (skip_space_len s).
  split; [intros Hs|intros Hs; split].
  - simpl. destruct (expect "{" _) as [u|] eqn:E1.
    { apply expect_len in E1. by rewrite IHm by lia. }
    destruct (expect "[" _) as [u|] eqn:E2; [|done].
    apply expect_len in E2. by rewrite IHe by lia.
  - simpl. destruct (expect json_quote _) as [r1|] eqn:E1; simpl; [|done]. apply expect_len in E1.
    destruct (scan_string r1) as [[k r2]|] eqn:E2; simpl; [|done]. apply scan_string_len in E2.
    pose proof (skip_space_len r2).
    destruct (expect ":" _) as [r3|] eqn:E3; simpl; [|done]. apply expect_len in E3.
    rewrite IHv by lia. destruct (scan_value n d r3) as [r4|] eqn:E4; simpl; [|done].
    apply scan_shrinks in E4. pose proof (skip_space_len r4).
    destruct (expect "}" _) as [r5|]; [done|].
    destruct (expect "," _) as [r6|] eqn:E6; simpl; [|done]. apply expect_len in E6.
    by rewrite IHm by lia.
  - simpl. rewrite IHv by lia. destruct (scan_value n d s) as [r4|] eqn:E4; simpl; [|done].
    apply scan_shrinks in E4. pose proof (skip_space_len r4).
    destruct (expect "]" _) as [r5|]; [done|].
    destruct (expect "," _) as [r6|] eqn:E6; simpl; [|done]. apply expect_len in E6.
    by rewrite IHe by lia.
Qed.

Lemma object_keys_enough body fuel :
  scan_fuel body ≤ fuel → object_keys_fuel fuel body = object_keys body.
Proof.
  unfold object_keys, object_keys_fuel, scan_fuel. intros Hf. pose proof (skip_space_len body).
  destruct (expect "{" _) as [r|] eqn:E; [|done]. apply expect_len in E.
  destruct (expect "}" _); [done|].
  destruct (scan_fuel_stable (S (S (2 * slen body))) fuel 1 r Hf) as [_ Hm].
  by rewrite (proj1 (Hm ltac:(lia))).
Qed.

(** ** Printed documents *)

#[warnings="-register-all"]
Inductive json : Type :=
  | JNull
  | JBool (b : bool)
  | JNum (digits : string)
  | JStr (s : string)
  | JArr (l : list json)
  | JObj (kvs : list (string * json)).

Definition quoted (s : string) : string := String json_quote (s +:+ String json_quote EmptyString).

(** The compact rendering of a document. *)
Fixpoint print_json (v : json) : string :=
  match v with
  | JNull => "null"
  | JBool b => if b then "true" else "false"
  | JNum ds => ds
  | JStr s => quoted s
  | JArr l => "[" +:+ Join (print_json <$> l) "," +:+ "]"
  | JObj kvs => "{" +:+ Join ((λ '(k, v), quoted k +:+ ":" +:+ print_json v) <$> kvs) "," +:+ "}"
  end.

Definition print_member (kv : string * json) : string := quoted kv.1 +:+ ":" +:+ print_json kv.2.

(** Strings that print without an escape. *)
Definition plain_byte (c : ascii) : bool :=
  negb (Ascii.eqb c json_quote) && negb (Ascii.eqb c "\") && negb (byte_in 0 31 c).
Definition plain (s : string) : bool := string_all plain_byte s.

(** A natural number without a leading zero. *)
Definition natural (ds : string) : bool :=
  match ds with
  | String c ds' =>
      is_digit c && string_all is_digit ds' && (negb (Ascii.eqb c "0") || String.eqb ds' EmptyString)
  | EmptyString => false
  end.

(** Plain strings throughout and at most [h] nested arrays and objects. *)
Fixpoint printable (h : nat) (v : json) : bool :=
  match v with
  | JNull | JBool _ => true
  | JNum ds => natural ds
  | JStr s => plain s
  | JArr l => match h with 0 => false | S h => forallb (printable h) l end
  | JObj kvs => match h with 0 => false | S h => forallb (λ '(k, v), plain k && printable h v) kvs end
  end.

Lemma expect_hit c s : expect c (String c s) = Some s.
Proof. simpl. by rewrite Ascii.eqb_refl. Qed.

Lemma scan_string_plain s r :
  plain s = true → scan_string (s +:+ String json_quote r) = Some (s, r).
Proof.
  induction s as [|c s IH].
  - intros _. reflexivity.
  - unfold plain. simpl string_all. intros [Hc Hs]%andb_true_iff. rewrite str_app_cons.
    unfold plain_byte in Hc. breflect. simpl scan_string.
    repeat match goal with H : Ascii.eqb _ _ = false |- _ => rewrite H; clear H
      | H : byte_in _ _ _ = false |- _ => rewrite H; clear H end.
    by rewrite (IH Hs).
Qed.

(** A byte after which a number ends. *)
Definition ends_value (r : string) : Prop :=
  match r with
  | EmptyString => True
  | String c _ => is_digit c = false ∧ c ≠ "."%char ∧ c ≠ "e"%char ∧ c ≠ "E"%char
  end.

Lemma scan_exponent_end r : ends_value r → scan_exponent r = Some r.
Proof.
  unfold scan_exponent. destruct r as [|c r]; simpl; [done|]. intros (_ & _ & H1 & H2).
  destruct (Ascii.eqb_spec c "e"); [done|]. by destruct (Ascii.eqb_spec c "E").
Qed.

Lemma scan_fraction_end r : ends_value r → scan_fraction r = Some r.
Proof.
  intros Hr. unfold scan_fraction. destruct r as [|c r]; [by apply scan_exponent_end|]. simpl.
  destruct Hr as (H0 & H1 & H2). destruct (Ascii.eqb_spec c "."); [done|].
  by apply scan_exponent_end.
Qed.

Lemma skip_digits_all s r :
  string_all is_digit s = true → match r with String c _ => is_digit c = false | _ => True end →
  skip_digits (s +:+ r) = r.
Proof.
  intros Hs Hr. induction s as [|c s IH].
  - rewrite str_app_nil_l. destruct r as [|c r]; simpl; [done|]. by rewrite Hr.
  - simpl in Hs. apply andb_true_iff in Hs as [Hc Hs]. rewrite str_app_cons. simpl.
    rewrite Hc. by apply IH.
Qed.

Lemma scan_number_natural ds r : natural ds = true → ends_value r → scan_number (ds +:+ r) = Some r.
Proof.
  intros Hn Hr. destruct ds as [|c ds]; [done|]. simpl in Hn.
  apply andb_true_iff in Hn as [[Hc Hds]%andb_true_iff Hz].
  assert (match r with String c _ => is_digit c = false | EmptyString => True end) as Hr'.
  { destruct r; [done|]. by destruct Hr. }
  unfold scan_number. rewrite str_app_cons. simpl.
  destruct (Ascii.eqb_spec c "-") as [->|_]; [done|]. simpl.
  destruct (Ascii.eqb_spec c "0") as [->|_].
  - simpl in Hz. apply String.eqb_eq in Hz as ->. by apply scan_fraction_end.
  - rewrite Hc. simpl. rewrite skip_digits_all by done. by apply scan_fraction_end.
Qed.

(** What starts a printed value is not a space and closes nothing. *)
Definition value_head (s : string) : Prop :=
  match s with
  | String c _ => is_json_space c = false ∧ c ≠ "]"%char ∧ c ≠ "}"%char
  | EmptyString => False
  end.

Lemma digit_head c : is_digit c = true →
  is_json_space c = false ∧ c ≠ "]"%char ∧ c ≠ "}"%char ∧ c ≠ "{"%char ∧ c ≠ "["%char ∧
  c ≠ json_quote ∧ c ≠ "t"%char ∧ c ≠ "f"%char ∧ c ≠ "n"%char.
Proof.
  intros Hc. split.
  - unfold is_json_space. repeat match goal with |- context [Ascii.eqb ?a ?b] =>
      destruct (Ascii.eqb_spec a b) as [->|_]; [discriminate Hc|] end. done.
  - split_and!; by intros ->.
Qed.

Lemma printable_JNum h ds : printable h (JNum ds) = natural ds.
Proof. by destruct h. Qed.

Lemma printable_JStr h s : printable h (JStr s) = plain s.
Proof. by destruct h. Qed.

Lemma print_json_head h v r : printable h v = true → value_head (print_json v +:+ r).
Proof.
  destruct v as [|[]| ds | s | l | kvs]; try (intros _; repeat split; discriminate).
  rewrite printable_JNum. destruct ds as [|c ds]; [done|].
  unfold natural. intros [[Hc _]%andb_true_iff _]%andb_true_iff.
  simpl. destruct (digit_head c Hc) as (? & ? & ? & _). done.
Qed.

Lemma skip_space_head s : value_head s → skip_space s = s.
Proof. destruct s as [|c s]; simpl; [done|]. by intros [-> _]. Qed.

Lemma expect_head s : value_head s → expect "]" s = None ∧ expect "}" s = None.
Proof.
  destruct s as [|c s]; simpl; [done|]. intros (_ & H1 & H2).
  destruct (Ascii.eqb_spec c "]"); [done|]. by destruct (Ascii.eqb_spec c "}").
Qed.

Lemma Join_cons x y l sep : Join (x :: y :: l) sep = x +:+ sep +:+ Join (y :: l) sep.
Proof. reflexivity. Qed.

Lemma Join_single x sep : Join [x] sep = x.
Proof. reflexivity. Qed.

(** The rest of the printed members or elements after the first. *)
Definition print_tail {X} (f : X → string) (xs : list X) : string :=
  foldr (λ x r, "," +:+ f x +:+ r) EmptyString xs.

Lemma Join_tail {X} (f : X → string) x xs : Join (f <$> (x :: xs)) "," = f x +:+ print_tail f xs.
Proof.
  revert x. induction xs as [|y xs IH]; intros x.
  - simpl. by rewrite str_app_nil_r.
  - rewrite fmap_cons, fmap_cons, Join_cons. rewrite <- (fmap_cons f y xs), IH. reflexivity.
Qed.

Lemma print_JArr x xs : print_json (JArr (x :: xs)) = "[" +:+ print_json x +:+ print_tail print_json xs +:+ "]".
Proof. simpl print_json. rewrite <- fmap_cons, Join_tail. by rewrite str_app_assoc. Qed.

Lemma print_JObj kv kvs :
  print_json (JObj (kv :: kvs)) = "{" +:+ print_member kv +:+ print_tail print_member kvs +:+ "}".
Proof.
  assert (print_json (JObj (kv :: kvs)) = "{" +:+ Join (print_member <$> (kv :: kvs)) "," +:+ "}") as ->.
  { change (print_json (JObj (kv :: kvs))) with
      ("{" +:+ Join ((λ '(k, v), quoted k +:+ ":" +:+ print_json v) <$> (kv :: kvs)) "," +:+ "}").
    do 3 f_equal. apply list_fmap_ext. by intros ? [k v] _. }
  rewrite Join_tail. by rewrite str_app_assoc.
Qed.

(** *** Scanning what was printed *)

Definition scans_printed (n : nat) : Prop :=
  ∀ v h d r, printable h v = true → (d + Z.of_nat h <= maxNestingDepth)%Z → ends_value r →
    2 * slen (print_json v +:+ r) + 1 ≤ n → scan_value n d (print_json v +:+ r) = Some r.

Lemma ends_tail {X} (f : X → string) xs c r :
  (c = "]"%char ∨ c = "}"%char) → ends_value (print_tail f xs +:+ String c r).
Proof. intros [-> | ->]; destruct xs; repeat split; discriminate. Qed.

Definition members_rest (n : nat) (d : Z) (k tail : string) : option (list string * string) :=
  match expect "}" (skip_space tail) with
  | Some r => Some ([k], r)
  | None =>
      r ← expect "," (skip_space tail);
      '(keys, r) ← scan_members n d r;
      Some (k :: keys, r)
  end.

Lemma scan_member_step n k v h d tail :
  scans_printed n → plain k = true → printable h v = true →
  (d + Z.of_nat h <= maxNestingDepth)%Z → ends_value tail →
  2 * slen (print_member (k, v) +:+ tail) + 2 ≤ S n →
  scan_members (S n) d (print_member (k, v) +:+ tail) = members_rest n d k tail.
Proof.
  intros IHv Hk Hv Hd Ht Hn.
  assert (print_member (k, v) +:+ tail =
    String json_quote (k +:+ String json_quote (String ":" (print_json v +:+ tail)))) as E.
  { unfold print_member, quoted. simpl fst. simpl snd.
    rewrite !str_app_cons, !str_app_assoc, !str_app_cons, !str_app_nil_l. reflexivity. }
  rewrite E in *. cbn [scan_members].
  change (skip_space (String json_quote ?x)) with (String json_quote x).
  rewrite expect_hit. cbn [mbind option_bind]. rewrite scan_string_plain by done. cbn [mbind option_bind].
  change (skip_space (String ":" ?x)) with (String ":" x). rewrite expect_hit.
  cbn [mbind option_bind]. rewrite (IHv v h d tail); [reflexivity|done..|].
  revert Hn. cbn [String.length]. rewrite str_length_app. cbn [String.length]. lia.
Qed.

Lemma scan_members_tail n kv kvs h d r :
  (∀ m, m < n → scans_printed m) →
  forallb (λ '(k, v), plain k && printable h v) (kv :: kvs) = true →
  (d + Z.of_nat h <= maxNestingDepth)%Z →
  2 * slen (print_member kv +:+ print_tail print_member kvs +:+ String "}" r) + 2 ≤ n →
  scan_members n d (print_member kv +:+ print_tail print_member kvs +:+ String "}" r) =
  Some (kv.1 :: kvs.*1, r).
Proof.
  revert n kv. induction kvs as [|kv2 kvs IH]; intros n [k v] IHv Hp Hd Hn;
    simpl in Hp; apply andb_true_iff in Hp as [[Hk Hv]%andb_true_iff Hp];
    destruct n as [|n]; try lia.
  - rewrite (scan_member_step n k v h d); [|by apply IHv; lia|done..|by repeat split|done].
    reflexivity.
  - assert (print_tail print_member (kv2 :: kvs) +:+ String "}" r =
      String "," (print_member kv2 +:+ print_tail print_member kvs +:+ String "}" r)) as E.
    { cbn [print_tail foldr]. by rewrite !str_app_cons, !str_app_nil_l, !str_app_assoc. }
    rewrite E in *.
    rewrite (scan_member_step n k v h d); [|by apply IHv; lia|done..|by repeat split|done].
    unfold members_rest.
    change (skip_space (String "," ?x)) with (String "," x).
    change (expect "}" (String "," ?x)) with (@None string). cbv iota. rewrite expect_hit.
    cbn [mbind option_bind]. rewrite IH; [reflexivity| |done..|].
    + intros m Hm. apply IHv. lia.
    + revert Hn. rewrite str_length_app. simpl. lia.
Qed.

Lemma scan_elements_tail n v vs h d r :
  (∀ m, m < n → scans_printed m) →
  forallb (printable h) (v :: vs) = true → (d + Z.of_nat h <= maxNestingDepth)%Z →
  2 * slen (print_json v +:+ print_tail print_json vs +:+ String "]" r) + 2 ≤ n →
  scan_elements n d (print_json v +:+ print_tail print_json vs +:+ String "]" r) = Some r.
Proof.
  revert n v. induction vs as [|v2 vs IH]; intros n v IHv Hp Hd Hn;
    simpl in Hp; apply andb_true_iff in Hp as [Hv Hp];
    destruct n as [|n]; try lia; cbn [scan_elements].
  - rewrite (IHv n ltac:(lia) v h d); [|done..|by repeat split|simpl in *; lia].
    reflexivity.
  - assert (print_tail print_json (v2 :: vs) +:+ String "]" r =
      String "," (print_json v2 +:+ print_tail print_json vs +:+ String "]" r)) as E.
    { cbn [print_tail foldr]. by rewrite !str_app_cons, !str_app_nil_l, !str_app_assoc. }
    rewrite E in *.
    rewrite (IHv n ltac:(lia) v h d); [|done..|by repeat split|simpl in *; lia].
    cbn [mbind option_bind].
    change (skip_space (String "," ?x)) with (String "," x).
    change (expect "]" (String "," ?x)) with (@None string). cbv iota. rewrite expect_hit.
    cbn [mbind option_bind]. rewrite IH; [reflexivity| |done..|].
    + intros m Hm. apply IHv. lia.
    + revert Hn. rewrite str_length_app. simpl. lia.
Qed.

Lemma scan_value_head n d s :
  value_head s →
  (expect "{" s = None → expect "[" s = None → expect json_quote s = None →
   HasPrefix s "true" = false → HasPrefix s "false" = false → HasPrefix s "null" = false →
   scan_value (S n) d s = scan_number s).
Proof.
  intros Hh H1 H2 H3 H4 H5 H6. cbn [scan_value]. rewrite (skip_space_head _ Hh).
  by rewrite H1, H2, H3, H4, H5, H6.
Qed.

Lemma expect_miss c a s : c ≠ a → expect a (String c s) = None.
Proof. intros H. simpl. by destruct (Ascii.eqb_spec c a). Qed.

Lemma HasPrefix_miss c p s t : c ≠ p → HasPrefix (String c s) (String p t) = false.
Proof.
  intros H. destruct (HasPrefix _ _) eqn:E; [|done].
  apply HasPrefix_iff in E as [r Hr]. rewrite str_app_cons in Hr. congruence.
Qed.

Lemma scan_array_printed n h d l r :
  (∀ m, m < S n → scans_printed m) → printable h (JArr l) = true →
  (d + Z.of_nat h <= maxNestingDepth)%Z → ends_value r →
  2 * slen (print_json (JArr l) +:+ r) + 1 ≤ S n →
  scan_value (S n) d (print_json (JArr l) +:+ r) = Some r.
Proof.
  intros IH Hp Hd Hr Hn.
  destruct h as [|h]; [done|].
  assert ((maxNestingDepth <=? d)%Z = false) as Hdepth by (apply Z.leb_gt; lia).
  destruct l as [|v l].
  + cbn [scan_value]. change (print_json (JArr []) +:+ r) with (String "[" (String "]" r)).
    change (skip_space (String "[" ?x)) with (String "[" x).
    change (expect "{" (String "[" ?x)) with (@None string). cbv iota. rewrite expect_hit.
    rewrite Hdepth. reflexivity.
  + rewrite print_JArr in *.
    assert (("[" +:+ print_json v +:+ print_tail print_json l +:+ "]") +:+ r =
      String "[" (print_json v +:+ print_tail print_json l +:+ String "]" r)) as E
      by (rewrite !str_app_assoc; reflexivity).
    rewrite E in *. cbn [scan_value].
    change (skip_space (String "[" ?x)) with (String "[" x).
    change (expect "{" (String "[" ?x)) with (@None string). cbv iota. rewrite expect_hit.
    rewrite Hdepth. change (forallb (printable h) (v :: l) = true) in Hp.
    pose proof Hp as [Hv _]%andb_true_iff.
    pose proof (print_json_head h v (print_tail print_json l +:+ String "]" r) Hv) as Hh.
    rewrite (skip_space_head _ Hh). destruct (expect_head _ Hh) as [-> _]. cbn [either].
    apply (scan_elements_tail n v l h); [intros; apply IH; lia|done|lia|].
    revert Hn. cbn [String.length]. lia.
Qed.

Lemma scan_object_printed n h d kvs r :
  (∀ m, m < S n → scans_printed m) → printable h (JObj kvs) = true →
  (d + Z.of_nat h <= maxNestingDepth)%Z → ends_value r →
  2 * slen (print_json (JObj kvs) +:+ r) + 1 ≤ S n →
  scan_value (S n) d (print_json (JObj kvs) +:+ r) = Some r.
Proof.
  intros IH Hp Hd Hr Hn.
  destruct h as [|h]; [done|].
  assert ((maxNestingDepth <=? d)%Z = false) as Hdepth by (apply Z.leb_gt; lia).
  destruct kvs as [|kv kvs].
  + cbn [scan_value]. change (print_json (JObj []) +:+ r) with (String "{" (String "}" r)).
    change (skip_space (String "{" ?x)) with (String "{" x). rewrite expect_hit.
    rewrite Hdepth. reflexivity.
  + rewrite print_JObj in *.
    assert (("{" +:+ print_member kv +:+ print_tail print_member kvs +:+ "}") +:+ r =
      String "{" (print_member kv +:+ print_tail print_member kvs +:+ String "}" r)) as E
      by (rewrite !str_app_assoc; reflexivity).
    rewrite E in *. cbn [scan_value].
    change (skip_space (String "{" ?x)) with (String "{" x). rewrite expect_hit.
    rewrite Hdepth.
    change (forallb (λ '(k, v), plain k && printable h v) (kv :: kvs) = true) in Hp.
    assert (value_head (print_member kv +:+ print_tail print_member kvs +:+ String "}" r)) as Hh
      by (repeat split; discriminate).
    rewrite (skip_space_head _ Hh). destruct (expect_head _ Hh) as [_ ->]. cbn [either].
    rewrite (scan_members_tail n kv kvs h); [done|intros; apply IH; lia|done|lia|].
    revert Hn. cbn [String.length]. lia.
Qed.

Lemma scan_value_printed n : scans_printed n.
Proof.
  induction n as [n IH] using lt_wf_ind. intros v h d r Hp Hd Hr Hn.
  destruct n as [|n]; [lia|].
  destruct v as [|[]|ds|s|l|kvs]; try reflexivity.
  - rewrite printable_JNum in Hp.
    pose proof (print_json_head h (JNum ds) r ltac:(by rewrite printable_JNum)) as Hh.
    simpl print_json in *.
    assert (∃ c ds', ds +:+ r = String c ds' ∧ is_digit c = true) as (c & ds' & E & Hc).
    { destruct ds as [|c ds]; [done|]. exists c, (ds +:+ r). split; [done|].
      unfold natural in Hp. by apply andb_true_iff in Hp as [[Hc _]%andb_true_iff _]. }
    destruct (digit_head c Hc) as (_ & _ & _ & N1 & N2 & N3 & N4 & N5 & N6).
    rewrite scan_value_head; [by apply scan_number_natural|done|rewrite E..];
      first [by apply expect_miss|by apply HasPrefix_miss].
  - rewrite printable_JStr in Hp. cbn [scan_value print_json]. unfold quoted.
    rewrite str_app_cons, str_app_assoc, str_app_cons, str_app_nil_l.
    change (skip_space (String json_quote ?x)) with (String json_quote x).
    change (expect "{" (String json_quote ?x)) with (@None string).
    change (expect "[" (String json_quote ?x)) with (@None string). cbv iota.
    rewrite expect_hit. by rewrite scan_string_plain.
  - by apply (scan_array_printed n h).
  - by apply (scan_object_printed n h).
Qed.

(** The keys of a printed object, whatever spaces surround it. *)
Lemma object_keys_printed h kvs :
  printable (S h) (JObj kvs) = true → (Z.of_nat (S h) <= maxNestingDepth)%Z →
  object_keys (print_json (JObj kvs)) = Some kvs.*1.
Proof.
  intros Hp Hh. unfold object_keys, object_keys_fuel.
  destruct kvs as [|kv kvs]; [reflexivity|]. rewrite print_JObj.
  assert (("{" +:+ print_member kv +:+ print_tail print_member kvs +:+ "}") =
    String "{" (print_member kv +:+ print_tail print_member kvs +:+ String "}" EmptyString)) as -> by done.
  set (body := print_member kv +:+ print_tail print_member kvs +:+ String "}" EmptyString).
  change (skip_space (String "{" body)) with (String "{" body). rewrite expect_hit.
  assert (value_head body) as Hv by (repeat split; discriminate).
  rewrite (skip_space_head _ Hv). destruct (expect_head _ Hv) as [_ ->].
  unfold body. rewrite (scan_members_tail _ kv kvs h); [reflexivity|..].
  - intros m _. apply scan_value_printed.
  - exact Hp.
  - lia.
  - unfold scan_fuel. cbn [String.length]. lia.
Qed.
