(* ===== verification/Model.v ===== *)
(** * The catalog's data ([internal/model/catalog.go])

    One record per struct, the fields in the source's order, each prefixed by
    the record's abbreviation.  An [int32], [int] or [int64] field is a [Z], a
    [float64] a [spec_float] of the binary64 format, a [time.Time] a [Z] of
    nanoseconds, a pointer that may be nil an [option], a map that may be nil an
    [smap], a slice a [list] (nil and empty slices are one value). *)

From S2P Require Export GoRuntime.
From Stdlib Require Export SpecFloat.

(** ** binary64 arithmetic *)

Definition f64_add (x y : spec_float) : spec_float := SFadd 53 1024 x y.
Definition f64_div (x y : spec_float) : spec_float := SFdiv 53 1024 x y.
Definition f64_zero : spec_float := S754_zero false.
(** [x < y], [x <= y], [x > y] and [x >= y]; false when one is a NaN. *)
Definition f64_lt (x y : spec_float) : bool := SFltb x y.
Definition f64_le (x y : spec_float) : bool := SFleb x y.
Definition f64_gt (x y : spec_float) : bool := SFltb y x.
Definition f64_ge (x y : spec_float) : bool := SFleb y x.

(** [float64(z)], and [int(x)], which truncates a finite value towards zero. *)
Definition f64_of_Z (z : Z) : spec_float := binary_normalize 53 1024 z 0 false.
Definition f64_trunc (x : spec_float) : Z :=
  match x with
  | S754_finite sgn m e =>
      let a := if (0 <=? e)%Z then (Z.pos m * 2 ^ e)%Z else (Z.pos m / 2 ^ (- e))%Z in
      if sgn then (- a)%Z else a
  | _ => 0%Z
  end.

#[export] Instance spec_float_eq_dec : EqDecision spec_float.
Proof. solve_decision. Defined.

(** *** The order of binary64 values *)

Definition is_nan (x : spec_float) : bool := match x with S754_nan => true | _ => false end.

(** Sign class, exponent and mantissa, signed so that they order lexicographically. *)
Definition f64_rank (x : spec_float) : Z * Z * Z :=
  match x with
  | S754_infinity true => (-2, 0, 0)
  | S754_finite true m e => (-1, - e, - Z.pos m)
  | S754_zero _ | S754_nan => (0, 0, 0)
  | S754_finite false m e => (1, e, Z.pos m)
  | S754_infinity false => (2, 0, 0)
  end%Z.

Definition rank_lt (a b : Z * Z * Z) : Prop :=
  (a.1.1 < b.1.1 ∨ a.1.1 = b.1.1 ∧ (a.1.2 < b.1.2 ∨ a.1.2 = b.1.2 ∧ a.2 < b.2))%Z.

Lemma f64_lt_rank x y :
  is_nan x = false → is_nan y = false → f64_lt x y = true ↔ rank_lt (f64_rank x) (f64_rank y).
Proof.
  unfold f64_lt, SFltb, rank_lt.
  destruct x as [[]|[]| |[] m e], y as [[]|[]| |[] m' e']; try discriminate; intros _ _; simpl;
    try (split; [done|lia]); try (split; [lia|done]).
  all: try (split; [intros _; lia|intros _; reflexivity]).
  all: destruct (Z.compare_spec e e') as [->|He|He]; simpl;
    try (split; [done|lia]); try (split; [lia|done]).
  all: try (rewrite Pos.compare_cont_spec; destruct (Pos.compare_spec m m')); simpl;
    try (split; [done|lia]); try (split; [lia|done]).
Qed.

Lemma f64_le_lt x y : is_nan x = false → is_nan y = false → f64_le x y = negb (f64_lt y x).
Proof.
  unfold f64_le, f64_lt, SFleb, SFltb.
  destruct x as [[]|[]| |[] m e], y as [[]|[]| |[] m' e']; try discriminate; intros _ _; simpl; try done.
  all: rewrite (Z.compare_antisym e e'); destruct (Z.compare_spec e e') as [->|He|He]; simpl; try done.
  all: rewrite !Pos.compare_cont_spec, (Pos.compare_antisym m m'); destruct (Pos.compare m m'); done.
Qed.

Lemma f64_lt_nan x y : is_nan x = true ∨ is_nan y = true → f64_lt x y = false ∧ f64_le x y = false.
Proof. unfold f64_lt, f64_le, SFltb, SFleb. by destruct x, y; intros [[=]|[=]]. Qed.

Lemma rank_lt_trans a b c : rank_lt a b → rank_lt b c → rank_lt a c.
Proof. unfold rank_lt. lia. Qed.

Lemma rank_lt_total a b : ¬ rank_lt a b → ¬ rank_lt b a → a = b.
Proof. destruct a as [[??]?], b as [[??]?]. unfold rank_lt. simpl. intros. repeat f_equal; lia. Qed.

Lemma rank_lt_irrefl a : ¬ rank_lt a a.
Proof. unfold rank_lt. lia. Qed.

(** ** Containers, services and routes *)

Record ContainerPort := mkContainerPort {
  cport_Name : string;
  cport_ContainerPort : Z;
  cport_Protocol : string;
}.

Record ResourceInfo := mkResourceInfo {
  res_RequestsCPU : string;
  res_RequestsMemory : string;
  res_LimitsCPU : string;
  res_LimitsMemory : string;
}.

Record ContainerInfo := mkContainerInfo {
  ctr_Name : string;
  ctr_Image : string;
  ctr_ImageTag : string;
  ctr_Ports : list ContainerPort;
  ctr_Resources : ResourceInfo;
}.

Record ServicePort := mkServicePort {
  sport_Name : string;
  sport_Port : Z;
  sport_TargetPort : string;
  sport_Protocol : string;
}.

Record APIDocInfo := mkAPIDocInfo {
  doc_Port : Z;
  doc_Path : string;
  doc_URL : string;
  doc_ExternallyAvailable : bool;
  doc_ExternalURL : string;
}.

Record RouteRef := mkRouteRef {
  route_Name : string;
  route_Kind : string;
  route_Hosts : list string;
  route_PathPrefixes : list string;
  route_EntryPoints : list string;
  route_TLS : bool;
  route_Annotations : smap;
}.

Record ReachabilityResult := mkReachabilityResult {
  reach_Host : string;
  reach_URL : string;
  reach_Status : string;
  reach_StatusCode : Z;
  reach_Expected : string;
  reach_Reason : string;
  reach_CheckedAt : Z;
}.

Record ServiceRef := mkServiceRef {
  svc_Name : string;
  svc_Type : string;
  svc_ClusterIP : string;
  svc_Ports : list ServicePort;
  svc_ExternalHosts : list string;
  svc_Routes : list RouteRef;
  svc_APIDocs : list APIDocInfo;
  svc_Reachability : list ReachabilityResult;
}.

Definition svc_set_APIDocs (s : ServiceRef) (docs : list APIDocInfo) : ServiceRef :=
  mkServiceRef (svc_Name s) (svc_Type s) (svc_ClusterIP s) (svc_Ports s)
    (svc_ExternalHosts s) (svc_Routes s) docs (svc_Reachability s).

Definition svc_set_Reachability (s : ServiceRef) (rs : list ReachabilityResult) : ServiceRef :=
  mkServiceRef (svc_Name s) (svc_Type s) (svc_ClusterIP s) (svc_Ports s)
    (svc_ExternalHosts s) (svc_Routes s) (svc_APIDocs s) rs.

(** ** Application metadata *)

Record Link := mkLink {
  link_Label : string;
  link_URL : string;
}.

Record AppMetadata := mkAppMetadata {
  meta_Description : string;
  meta_Links : list Link;
}.

Record DeploymentSource := mkDeploymentSource {
  ds_Tool : string;
  ds_RepoURL : string;
  ds_Path : string;
  ds_Revision : string;
  ds_AppName : string;
}.

Record KafkaTopicRef := mkKafkaTopicRef {
  kafka_Name : string;
  kafka_Direction : string;
  kafka_Source : string;
}.

Record DatabaseRef := mkDatabaseRef {
  db_System : string;
  db_Name : string;
  db_Source : string;
}.

(** ** Applications *)

Record ApplicationEntry := mkApplicationEntry {
  app_Cluster : string;
  app_Namespace : string;
  app_Name : string;
  app_Kind : string;
  app_CapabilityID : string;
  app_Replicas : Z;
  app_ReadyReplicas : Z;
  app_Containers : list ContainerInfo;
  app_RepoURLs : list string;
  app_DeploymentSource : option DeploymentSource;
  app_Owner : string;
  app_Contact : string;
  app_Metadata : option AppMetadata;
  app_Services : list ServiceRef;
  app_KafkaTopics : list KafkaTopicRef;
  app_Databases : list DatabaseRef;
  app_Runtime : string;
  app_RequestRate : spec_float;
  app_ErrorRate : spec_float;
  app_Labels : smap;
  app_Annotations : smap;
}.

(** The fields the collector fills in place after an entry is built. *)
Definition app_set_Services (a : ApplicationEntry) (x : list ServiceRef) : ApplicationEntry :=
  mkApplicationEntry (app_Cluster a) (app_Namespace a) (app_Name a) (app_Kind a)
    (app_CapabilityID a) (app_Replicas a) (app_ReadyReplicas a) (app_Containers a)
    (app_RepoURLs a) (app_DeploymentSource a) (app_Owner a) (app_Contact a)
    (app_Metadata a) x (app_KafkaTopics a) (app_Databases a) (app_Runtime a)
    (app_RequestRate a) (app_ErrorRate a) (app_Labels a) (app_Annotations a).

Lemma app_set_Services_id a : app_set_Services a (app_Services a) = a.
Proof. by destruct a. Qed.

(** The observed runtime overlay: Kafka topics, databases, runtime, rates. *)
Definition app_set_overlay (a : ApplicationEntry) (topics : list KafkaTopicRef)
    (dbs : list DatabaseRef) (rt : string) (rr er : spec_float) : ApplicationEntry :=
  mkApplicationEntry (app_Cluster a) (app_Namespace a) (app_Name a) (app_Kind a)
    (app_CapabilityID a) (app_Replicas a) (app_ReadyReplicas a) (app_Containers a)
    (app_RepoURLs a) (app_DeploymentSource a) (app_Owner a) (app_Contact a)
    (app_Metadata a) (app_Services a) topics dbs rt rr er (app_Labels a) (app_Annotations a).

Definition app_set_KafkaTopics a x :=
  app_set_overlay a x (app_Databases a) (app_Runtime a) (app_RequestRate a) (app_ErrorRate a).
Definition app_set_Databases a x :=
  app_set_overlay a (app_KafkaTopics a) x (app_Runtime a) (app_RequestRate a) (app_ErrorRate a).
Definition app_set_Runtime a x :=
  app_set_overlay a (app_KafkaTopics a) (app_Databases a) x (app_RequestRate a) (app_ErrorRate a).
Definition app_set_rates a rr er :=
  app_set_overlay a (app_KafkaTopics a) (app_Databases a) (app_Runtime a) rr er.

(** The join key of an application, "namespace/name". *)
Definition app_key (a : ApplicationEntry) : string :=
  app_Namespace a +:+ "/" +:+ app_Name a.

(** ** The catalog *)

Record NamespaceEntry := mkNamespaceEntry {
  nse_Cluster : string;
  nse_Name : string;
  nse_CapabilityID : string;
  nse_AWSAccountID : string;
  nse_ContextID : string;
  nse_CostCentre : string;
  nse_Labels : smap;
}.

Record DependencyNode := mkDependencyNode {
  node_Cluster : string;
  node_Namespace : string;
  node_Service : string;
  node_External : bool;
}.

Record DependencyEdge := mkDependencyEdge {
  edge_Source : DependencyNode;
  edge_Target : DependencyNode;
  edge_Type : string;
  edge_Origin : string;
  edge_Details : string;
}.

Record CatalogStats := mkCatalogStats {
  stats_TotalApplications : Z;
  stats_CapabilityOwnedApplications : Z;
  stats_ApplicationsWithDocs : Z;
  stats_ApplicationsWithDeploySource : Z;
  stats_TotalDependencies : Z;
  stats_CollectionDurationMs : Z;
}.

Record Catalog := mkCatalog {
  cat_Cluster : string;
  cat_Applications : list ApplicationEntry;
  cat_Namespaces : list NamespaceEntry;
  cat_Dependencies : list DependencyEdge;
  cat_CollectedAt : Z;
  cat_PublishedAt : Z;
  cat_Stats : CatalogStats;
}.

Definition zero_stats : CatalogStats := mkCatalogStats 0 0 0 0 0 0.

#[export] Instance node_eq_dec : EqDecision DependencyNode.
Proof. solve_decision. Defined.
#[export] Instance edge_eq_dec : EqDecision DependencyEdge.
Proof. solve_decision. Defined.
#[export] Instance link_eq_dec : EqDecision Link.
Proof. solve_decision. Defined.
#[export] Instance kafka_eq_dec : EqDecision KafkaTopicRef.
Proof. solve_decision. Defined.
#[export] Instance database_eq_dec : EqDecision DatabaseRef.
Proof. solve_decision. Defined.

(** Whether the service list of an application holds a documented service:
    both [applicationHasDocs] functions of the program. *)
Definition services_have_docs (svcs : list ServiceRef) : bool :=
  existsb (λ s, Nat.ltb 0 (length (svc_APIDocs s))) svcs.

(** The observed overlay is all that [app_set_overlay] touches. *)
Definition same_identity (a b : ApplicationEntry) : Prop :=
  app_set_overlay a [] [] EmptyString f64_zero f64_zero =
  app_set_overlay b [] [] EmptyString f64_zero f64_zero.

#[export] Instance same_identity_equiv : Equivalence same_identity.
Proof.
  split; unfold same_identity.
  - by intros a.
  - by intros a b ->.
  - by intros a b c -> ->.
Qed.

Lemma same_identity_overlay a ts ds rt rr er :
  same_identity (app_set_overlay a ts ds rt rr er) a.
Proof. done. Qed.

Lemma same_identity_key a b : same_identity a b → app_key a = app_key b.
Proof.
  intros H. unfold app_key.
  pose proof (f_equal app_Namespace H) as H1. pose proof (f_equal app_Name H) as H2.
  simpl in H1, H2. by rewrite H1, H2.
Qed.

#[export] Hint Resolve same_identity_overlay same_identity_key : go.
