(* ===== verification/Metrics.v ===== *)
(** * The Prometheus metrics ([internal/metrics/metrics.go])

    The client library is the class [Prometheus]; [PrometheusLaws] states what its
    documentation promises of registration and of the handles, over what the
    registry exposes.  [NewMetrics] registers the metrics one by one, in the order
    of the source, and stops at the first registration that panics. *)

From Stdlib Require Import String Ascii.
From S2P Require Export Model.

(** ** The client library *)

Record Opts := mkOpts {
  opts_Name : string;
  opts_Help : string;
  opts_ConstLabels : gmap string string;
}.

Record HistogramOpts := mkHistogramOpts {
  hopts_Name : string;
  hopts_Help : string;
  hopts_Buckets : list spec_float;
  hopts_ConstLabels : gmap string string;
}.

(** Registration panics with the error of [MustRegister]; a handle writes into
    the registry. *)
Class Prometheus := {
  Registry : Type;
  Gauge : Type;
  Counter : Type;
  Histogram : Type;
  DefBuckets : list spec_float;
  promauto_NewGauge : Opts → Registry → result (Gauge * Registry);
  promauto_NewCounter : Opts → Registry → result (Counter * Registry);
  promauto_NewHistogram : HistogramOpts → Registry → result (Histogram * Registry);
  Gauge_Set : Gauge → spec_float → Registry → Registry;
}.

(** ** Registering, a state monad that can panic *)

Section metrics.
Context {P : Prometheus}.

Definition registering (A : Type) : Type := Registry → result (A * Registry).

Definition reg_ret {A} (a : A) : registering A := λ r, Ok (a, r).
Definition reg_bind {A B} (c : registering A) (k : A → registering B) : registering B := λ r,
  rbind (c r) (λ '(a, r), k a r).

(** ** The metric set *)

Record Metrics := mkMetrics {
  ApplicationsTotal : Gauge;
  CapabilityOwnedApplications : Gauge;
  ApplicationsWithDocs : Gauge;
  ApplicationsWithDeploySource : Gauge;
  DependenciesTotal : Gauge;
  ScrapeDuration : Histogram;
  ScrapeErrors : Counter;
  SwaggerProbes : Counter;
  SwaggerHits : Counter;
  ReachabilityProbes : Counter;
  ReachabilityReachable : Counter;
  ReachabilityUnreachable : Counter;
  ReachabilityUnknown : Counter;
  ReachabilityDuration : Histogram;
  TelemetryQueryErrors : Counter;
  AuthRejections : Counter;
}.

Definition constLabels (clusterName : string) : gmap string string := {[ "cluster_name" := clusterName ]}.

Definition gauge (labels : gmap string string) (name help : string) : registering Gauge :=
  promauto_NewGauge (mkOpts name help labels).

Definition counter (labels : gmap string string) (name help : string) : registering Counter :=
  promauto_NewCounter (mkOpts name help labels).

(** The source's histograms, with the library's default buckets. *)
Definition histogram (labels : gmap string string) (name help : string) : registering Histogram :=
  promauto_NewHistogram (mkHistogramOpts name help DefBuckets labels).

Local Notation "x ← c ; k" := (reg_bind c (λ x, k)) (at level 20, c at level 100, k at level 200, right associativity).

Definition NewMetrics (clusterName : string) : registering Metrics :=
  let gauge := gauge (constLabels clusterName) in
  let counter := counter (constLabels clusterName) in
  let histogram := histogram (constLabels clusterName) in
  applicationsTotal ← gauge "ssu_catalog_applications_total" "Total applications discovered in the cluster";
  capabilityOwned ← gauge "ssu_catalog_capability_owned_applications_total" "Applications in capability-owned namespaces";
  withDocs ← gauge "ssu_catalog_applications_with_docs_total" "Applications with detected OpenAPI/Swagger docs";
  withDeploySource ← gauge "ssu_catalog_applications_with_deploy_source_total" "Applications with a resolved GitOps deployment source";
  dependenciesTotal ← gauge "ssu_catalog_dependencies_total" "Total dependency edges in the overlay";
  scrapeDuration ← histogram "ssu_catalog_scrape_duration_seconds" "Duration of the catalog collection cycle";
  scrapeErrors ← counter "ssu_catalog_scrape_errors_total" "Total failed collection cycles";
  swaggerProbes ← counter "ssu_catalog_swagger_probes_total" "Total OpenAPI/Swagger probe requests issued";
  swaggerHits ← counter "ssu_catalog_swagger_hits_total" "Total OpenAPI/Swagger probe hits";
  reachabilityProbes ← counter "ssu_catalog_reachability_probes_total" "Total ingress reachability probes issued";
  reachabilityReachable ← counter "ssu_catalog_reachability_reachable_total" "Total reachability verdicts: reachable";
  reachabilityUnreachable ← counter "ssu_catalog_reachability_unreachable_total" "Total reachability verdicts: unreachable";
  reachabilityUnknown ← counter "ssu_catalog_reachability_unknown_total" "Total reachability verdicts: unknown (transport error)";
  reachabilityDuration ← histogram "ssu_catalog_reachability_duration_seconds" "Duration of a reachability probe cycle";
  telemetryQueryErrors ← counter "ssu_catalog_telemetry_query_errors_total" "Total failed telemetry (Mimir) queries";
  authRejections ← counter "ssu_catalog_auth_rejections_total" "Total rejected inbound API requests";
  reg_ret (mkMetrics applicationsTotal capabilityOwned withDocs withDeploySource dependenciesTotal
    scrapeDuration scrapeErrors swaggerProbes swaggerHits reachabilityProbes reachabilityReachable
    reachabilityUnreachable reachabilityUnknown reachabilityDuration telemetryQueryErrors authRejections).

Definition Publish (m : Metrics)
    (totalApplications capabilityOwned withDocs withDeploySource dependencies : Z) (r : Registry) : Registry :=
  let r := Gauge_Set (ApplicationsTotal m) (f64_of_Z totalApplications) r in
  let r := Gauge_Set (CapabilityOwnedApplications m) (f64_of_Z capabilityOwned) r in
  let r := Gauge_Set (ApplicationsWithDocs m) (f64_of_Z withDocs) r in
  let r := Gauge_Set (ApplicationsWithDeploySource m) (f64_of_Z withDeploySource) r in
  Gauge_Set (DependenciesTotal m) (f64_of_Z dependencies) r.
End metrics.

(** ** What a registry exposes *)

(** A descriptor, and the value a scrape shows under it. *)
Definition desc : Type := string * string * gmap string string.

Definition desc_name (d : desc) : string := d.1.1.
Definition desc_labels (d : desc) : gmap string string := d.2.

Inductive value :=
| VGauge (x : spec_float)
| VCounter (n : Z)
| VHistogram.

Definition opts_desc (o : Opts) : desc := (opts_Name o, opts_Help o, opts_ConstLabels o).
Definition hopts_desc (o : HistogramOpts) : desc := (hopts_Name o, hopts_Help o, hopts_ConstLabels o).

(** The classic data model: [[a-zA-Z_:][a-zA-Z0-9_:]*] names a metric, and a label
    the same without colons. *)
Definition name_start (c : ascii) : bool :=
  let n := nat_of_ascii c in
  ((65 <=? n) && (n <=? 90) || (97 <=? n) && (n <=? 122) || (n =? 95))%nat.
Definition name_char (c : ascii) : bool :=
  let n := nat_of_ascii c in name_start c || ((48 <=? n) && (n <=? 57))%nat.
Definition valid_label (s : string) : bool :=
  match s with EmptyString => false | String c s => name_start c && forallb name_char (list_ascii_of_string s) end.
Definition valid_metric (s : string) : bool :=
  match s with
  | EmptyString => false
  | String c s =>
      (name_start c || Ascii.eqb c ":") &&
      forallb (λ c, name_char c || Ascii.eqb c ":") (list_ascii_of_string s)
  end.

(** No metric exposed has the name. *)
Definition unused (exposed : gmap desc value) (name : string) : Prop :=
  ∀ d, is_Some (exposed !! d) → desc_name d ≠ name.

(** One registration, as documented: with a name not in use it succeeds, its
    handle has the descriptor asked for and the new metric is exposed at zero; a
    metric of the same name and constant labels makes it panic. *)
Record registers {R T : Type} (exposed : R → gmap desc value) (descOf : T → desc) (valid : desc → bool)
    (new : R → result (T * R)) (d : desc) (zero : value) : Prop := {
  registers_new r : valid d = true → unused (exposed r) (desc_name d) →
    ∃ h r', new r = Ok (h, r') ∧ descOf h = d ∧ exposed r' = <[d := zero]> (exposed r);
  registers_again r d' : is_Some (exposed r !! d') → desc_name d' = desc_name d →
    desc_labels d' = desc_labels d → ∃ e, new r = Err e;
}.

Class PrometheusLaws (P : Prometheus) := {
  exposed : Registry → gmap desc value;
  Gauge_Desc : Gauge → desc;
  Counter_Desc : Counter → desc;
  Histogram_Desc : Histogram → desc;
  valid_value : string → bool;
  valid_desc (d : desc) : bool :=
    valid_metric (desc_name d) &&
    forallb (λ kv : string * string, valid_label kv.1 && valid_value kv.2) (map_to_list (desc_labels d));
  law_gauge o : registers exposed Gauge_Desc valid_desc (promauto_NewGauge o) (opts_desc o) (VGauge f64_zero);
  law_counter o : registers exposed Counter_Desc valid_desc (promauto_NewCounter o) (opts_desc o) (VCounter 0);
  law_histogram o : hopts_Buckets o = DefBuckets → hopts_ConstLabels o !! "le" = None →
    registers exposed Histogram_Desc valid_desc (promauto_NewHistogram o) (hopts_desc o) VHistogram;
  law_Set g x r : is_Some (exposed r !! Gauge_Desc g) →
    exposed (Gauge_Set g x r) = <[Gauge_Desc g := VGauge x]> (exposed r);
}.

(** What the five gauges hold. *)
Record gauge_values := mkGaugeValues {
  gv_ApplicationsTotal : spec_float;
  gv_CapabilityOwnedApplications : spec_float;
  gv_ApplicationsWithDocs : spec_float;
  gv_ApplicationsWithDeploySource : spec_float;
  gv_DependenciesTotal : spec_float;
}.

Definition zero_gauges : gauge_values := mkGaugeValues f64_zero f64_zero f64_zero f64_zero f64_zero.

Section theorems.
Context {P : Prometheus} {L : PrometheusLaws P}.

Definition gauge_descs (m : Metrics) : list desc :=
  [Gauge_Desc (ApplicationsTotal m); Gauge_Desc (CapabilityOwnedApplications m);
   Gauge_Desc (ApplicationsWithDocs m); Gauge_Desc (ApplicationsWithDeploySource m);
   Gauge_Desc (DependenciesTotal m)].

(** The descriptors of the set, in the order of registration, with what each
    exposes at first. *)
Definition metric_set (m : Metrics) : list (desc * value) :=
  ((λ d, (d, VGauge f64_zero)) <$> gauge_descs m) ++
  [(Histogram_Desc (ScrapeDuration m), VHistogram)] ++
  ((λ c, (Counter_Desc c, VCounter 0)) <$>
     [ScrapeErrors m; SwaggerProbes m; SwaggerHits m; ReachabilityProbes m; ReachabilityReachable m;
      ReachabilityUnreachable m; ReachabilityUnknown m]) ++
  [(Histogram_Desc (ReachabilityDuration m), VHistogram)] ++
  ((λ c, (Counter_Desc c, VCounter 0)) <$> [TelemetryQueryErrors m; AuthRejections m]).

(** The names the README documents, in its order. *)
Definition metric_names : list string :=
  ["ssu_catalog_applications_total"; "ssu_catalog_capability_owned_applications_total";
   "ssu_catalog_applications_with_docs_total"; "ssu_catalog_applications_with_deploy_source_total";
   "ssu_catalog_dependencies_total"; "ssu_catalog_scrape_duration_seconds"; "ssu_catalog_scrape_errors_total";
   "ssu_catalog_swagger_probes_total"; "ssu_catalog_swagger_hits_total";
   "ssu_catalog_reachability_probes_total"; "ssu_catalog_reachability_reachable_total";
   "ssu_catalog_reachability_unreachable_total"; "ssu_catalog_reachability_unknown_total";
   "ssu_catalog_reachability_duration_seconds"; "ssu_catalog_telemetry_query_errors_total";
   "ssu_catalog_auth_rejections_total"].

(** The gauges of [m] hold [v]. *)
Definition shows (m : Metrics) (e : gmap desc value) (v : gauge_values) : Prop :=
  (λ d, e !! d) <$> gauge_descs m =
  (Some ∘ VGauge) <$> [gv_ApplicationsTotal v; gv_CapabilityOwnedApplications v; gv_ApplicationsWithDocs v;
     gv_ApplicationsWithDeploySource v; gv_DependenciesTotal v].

(** *** Registering one metric *)

Definition succeeds {A} (c : registering A) (r : Registry) (Q : A → Registry → Prop) : Prop :=
  ∃ a r', c r = Ok (a, r') ∧ Q a r'.

Lemma succeeds_ret {A} (a : A) r Q : Q a r → succeeds (reg_ret a) r Q.
Proof. by exists a, r. Qed.

Lemma succeeds_register {T A} (descOf : T → desc) new d zero (k : T → registering A) r Q :
  registers exposed descOf valid_desc new d zero → valid_desc d = true →
  unused (exposed r) (desc_name d) →
  (∀ h r', descOf h = d → exposed r' = <[d := zero]> (exposed r) → succeeds (k h) r' Q) →
  succeeds (reg_bind new k) r Q.
Proof.
  intros [Hn _] Hv Hu Hk. destruct (Hn r Hv Hu) as (h & r1 & E & Hd & He).
  destruct (Hk h r1 Hd He) as (a & r2 & Ek & HQ). exists a, r2. split; [|done].
  unfold reg_bind. by rewrite E.
Qed.

Lemma unused_insert e d v name : unused e name → desc_name d ≠ name → unused (<[d := v]> e) name.
Proof. intros Hu Hd d' [x [[-> _]|[_ Hx]]%lookup_insert_Some]; [done|]. apply Hu. by eexists. Qed.

Lemma valid_cluster name help cluster :
  valid_metric name = true → valid_value cluster = true →
  valid_desc (name, help, constLabels cluster) = true.
Proof.
  intros Hn Hc. unfold valid_desc, desc_labels, constLabels. simpl.
  rewrite map_to_list_singleton. simpl. rewrite Hc.
  unfold desc_name. simpl. by rewrite Hn.
Qed.

(** One registration, by its law. *)
Local Ltac register_one law :=
  eapply succeeds_register; [apply law; done|by apply valid_cluster| |
    let h := fresh "h" in let r := fresh "r" in let D := fresh "D" in let E := fresh "E" in
    intros h r D E].

Lemma NewMetrics_registers cluster r :
  valid_value cluster = true → Forall (unused (exposed r)) metric_names →
  succeeds (NewMetrics cluster) r (λ m r',
    desc_name <$> (metric_set m).*1 = metric_names ∧
    Forall (λ d, desc_labels d = constLabels cluster) (metric_set m).*1 ∧
    exposed r' = foldl (λ e dv, <[dv.1 := dv.2]> e) (exposed r) (metric_set m)).
Proof.
  intros Hc Hu. unfold metric_names in Hu. rewrite !Forall_cons in Hu. destruct_and! Hu.
  unfold NewMetrics, gauge, counter, histogram.
  repeat first [register_one law_gauge|register_one law_counter|register_one law_histogram].
  all: try (repeat match goal with E : exposed ?r = _ |- context [exposed ?r] => rewrite E end;
    repeat (apply unused_insert; [|done]); assumption).
  apply succeeds_ret. unfold metric_set, gauge_descs. cbn.
  repeat match goal with D : _ = opts_desc _ |- _ => rewrite D; clear D
    | D : _ = hopts_desc _ |- _ => rewrite D; clear D end.
  split_and!; [done|by repeat constructor|].
  by repeat match goal with E : exposed ?r = _ |- context [exposed ?r] => rewrite E end.
Qed.

Lemma foldl_insert_lookup (l : list (desc * value)) (e : gmap desc value) d :
  NoDup l.*1 →
  (∀ v, (d, v) ∈ l → foldl (λ e dv, <[dv.1 := dv.2]> e) e l !! d = Some v) ∧
  (d ∉ l.*1 → foldl (λ e dv, <[dv.1 := dv.2]> e) e l !! d = e !! d).
Proof.
  revert e. induction l as [|[d0 v0] l IH]; intros e; simpl.
  { intros _. split; [|done]. intros v Hv. by apply elem_of_nil in Hv. }
  intros [Hn Hd]%NoDup_cons. destruct (IH (<[d0 := v0]> e) Hd) as [H1 H2]. split.
  - intros v [[= -> ->]|Hv]%elem_of_cons; [|by apply H1]. rewrite H2; [|done]. apply lookup_insert_eq.
  - intros [Hne Hni]%not_elem_of_cons. rewrite H2; [|done]. by rewrite lookup_insert_ne.
Qed.

Lemma metric_names_NoDup : NoDup metric_names.
Proof. apply (bool_decide_unpack _). vm_compute. exact I. Qed.

Lemma metric_set_NoDup m : desc_name <$> (metric_set m).*1 = metric_names → NoDup (metric_set m).*1.
Proof. intros E. apply (NoDup_fmap_1 desc_name). rewrite E. apply metric_names_NoDup. Qed.

(** The set is registered in [e]. *)
Definition registered (m : Metrics) (e : gmap desc value) : Prop :=
  Forall (λ d, is_Some (e !! d)) (metric_set m).*1.

Definition published (totalApplications capabilityOwned withDocs withDeploySource dependencies : Z) : gauge_values :=
  mkGaugeValues (f64_of_Z totalApplications) (f64_of_Z capabilityOwned) (f64_of_Z withDocs)
    (f64_of_Z withDeploySource) (f64_of_Z dependencies).

Lemma gauge_descs_NoDup m : NoDup (metric_set m).*1 → NoDup (gauge_descs m).
Proof. unfold metric_set. rewrite fmap_app, <- list_fmap_compose. intros [H _]%NoDup_app. by rewrite list_fmap_id in H. Qed.

Lemma registered_gauges m e : registered m e → Forall (λ d, is_Some (e !! d)) (gauge_descs m).
Proof.
  unfold registered, metric_set. rewrite fmap_app, <- list_fmap_compose, Forall_app. intros [H _].
  by rewrite list_fmap_id in H.
Qed.

Lemma gauge_descs_in m d : d ∈ gauge_descs m → d ∈ (metric_set m).*1.
Proof. unfold metric_set. rewrite fmap_app, <- list_fmap_compose, elem_of_app. left. by rewrite list_fmap_id. Qed.

Lemma set_registered m e e' :
  desc_name <$> (metric_set m).*1 = metric_names →
  e' = foldl (λ e dv, <[dv.1 := dv.2]> e) e (metric_set m) → registered m e'.
Proof.
  intros Hn ->. apply Forall_forall. intros d ([d' v] & -> & Hd)%list_elem_of_fmap.
  eexists. by apply (foldl_insert_lookup _ _ _ (metric_set_NoDup m Hn)).
Qed.

Lemma sets_exposed (gs : list (Gauge * spec_float)) r :
  Forall (λ d, is_Some (exposed r !! d)) (Gauge_Desc ∘ fst <$> gs) →
  exposed (foldl (λ r gx, Gauge_Set gx.1 gx.2 r) r gs) =
  foldl (λ e dv, <[dv.1 := dv.2]> e) (exposed r) ((λ gx, (Gauge_Desc gx.1, VGauge gx.2)) <$> gs).
Proof.
  revert r. induction gs as [|[g x] gs IH]; intros r; simpl; [done|].
  intros [Hg Hgs]%Forall_cons. rewrite IH, law_Set; [done..|]. rewrite law_Set by done.
  eapply Forall_impl; [exact Hgs|]. intros d Hd. rewrite lookup_insert_is_Some'. by right.
Qed.
End theorems.

(** C28: the metric set.  On a registry that uses none of the documented names, with
    a cluster name fit for a label, [NewMetrics] does not panic: the sixteen metrics
    of the README are registered in its order, each with the cluster as its one
    constant label, all show zero, and what the registry exposed before stays.  A
    second set for the cluster in that registry panics. *)
Theorem NewMetrics_spec (P : Prometheus) (L : PrometheusLaws P) (cluster : string) (r : Registry) :
  valid_value cluster = true → Forall (unused (exposed r)) metric_names →
  ∃ m r', NewMetrics cluster r = Ok (m, r') ∧
    desc_name <$> (metric_set m).*1 = metric_names ∧
    Forall (λ d, desc_labels d = {[ "cluster_name" := cluster ]}) (metric_set m).*1 ∧
    (∀ d v, (d, v) ∈ metric_set m → exposed r' !! d = Some v) ∧
    (∀ d, d ∉ (metric_set m).*1 → exposed r' !! d = exposed r !! d) ∧
    (∀ r2, registered m (exposed r2) → ∃ e, NewMetrics cluster r2 = Err e).
Proof.
  intros Hc Hu. destruct (NewMetrics_registers cluster r Hc Hu) as (m & r' & E & Hn & Hl & He).
  pose proof (metric_set_NoDup m Hn) as Hd.
  exists m, r'. split_and!; [done..| | |].
  - intros d v. rewrite He. apply (foldl_insert_lookup _ _ d Hd).
  - intros d. rewrite He. apply (foldl_insert_lookup _ _ d Hd).
  - intros r2 [H _]%Forall_cons. apply Forall_cons in Hl as [Hl _]. injection Hn as Hn _.
    unfold NewMetrics, reg_bind, gauge.
    destruct (registers_again _ _ _ _ _ _ (law_gauge (mkOpts "ssu_catalog_applications_total"
      "Total applications discovered in the cluster" (constLabels cluster))) r2 _ H Hn Hl) as [e E2].
    exists e. by rewrite E2.
Qed.

(** C29: publication.  In a registry that holds a set [NewMetrics] made, [Publish] sets
    the five gauges to the five numbers, each under its own name, and nothing else
    the registry exposes changes. *)
Theorem Publish_spec (P : Prometheus) (L : PrometheusLaws P) (cluster : string) (r r' r2 : Registry)
    (m : Metrics) (total owned docs source deps : Z) :
  valid_value cluster = true → Forall (unused (exposed r)) metric_names →
  NewMetrics cluster r = Ok (m, r') → registered m (exposed r2) →
  let e := exposed (Publish m total owned docs source deps r2) in
  shows m e (published total owned docs source deps) ∧
  (∀ d, d ∉ gauge_descs m → e !! d = exposed r2 !! d).
Proof.
  intros Hc Hu E Hr. destruct (NewMetrics_registers cluster r Hc Hu) as (m' & r1 & E' & Hn & _).
  rewrite E in E'. injection E' as <- <-.
  pose proof (gauge_descs_NoDup m (metric_set_NoDup m Hn)) as Hd. apply registered_gauges in Hr.
  set (gs := [(ApplicationsTotal m, f64_of_Z total); (CapabilityOwnedApplications m, f64_of_Z owned);
    (ApplicationsWithDocs m, f64_of_Z docs); (ApplicationsWithDeploySource m, f64_of_Z source);
    (DependenciesTotal m, f64_of_Z deps)]).
  set (l := (λ gx, (Gauge_Desc gx.1, VGauge gx.2)) <$> gs).
  assert (exposed (Publish m total owned docs source deps r2) =
    foldl (λ e dv, <[dv.1 := dv.2]> e) (exposed r2) l) as -> by exact (sets_exposed gs r2 Hr).
  split.
  - unfold shows, published. cbn. repeat f_equal;
      (apply (foldl_insert_lookup l _ _ Hd); unfold l, gs; simpl; set_solver).
  - intros d. apply (foldl_insert_lookup l _ d Hd).
Qed.

(** ** A concrete registry *)

(** Metrics by descriptor; registration refuses the name and labels of another. *)
Definition same_series (d d' : desc) : bool :=
  bool_decide (desc_name d = desc_name d') && bool_decide (desc_labels d = desc_labels d').

Definition map_new (zero : value) (d : desc) (e : gmap desc value) : result (desc * gmap desc value) :=
  if existsb (λ kv, same_series kv.1 d) (map_to_list e)
  then Err "duplicate metrics collector registration attempted"
  else Ok (d, <[d := zero]> e).

#[export] Instance map_prometheus : Prometheus := {
  Registry := gmap desc value;
  Gauge := desc;
  Counter := desc;
  Histogram := desc;
  DefBuckets := [f64_of_Z 1; f64_of_Z 10];
  promauto_NewGauge o := map_new (VGauge f64_zero) (opts_desc o);
  promauto_NewCounter o := map_new (VCounter 0) (opts_desc o);
  promauto_NewHistogram o := map_new VHistogram (hopts_desc o);
  Gauge_Set g x e := <[g := VGauge x]> e;
}.

Lemma map_registers valid zero d : registers id id valid (map_new zero d) d zero.
Proof.
  unfold map_new, same_series. split.
  - intros e _ Hu. destruct (existsb _ _) eqn:E; [|by eexists _, _].
    apply existsb_elem_of in E as ([k v] & Hk%elem_of_map_to_list & [Hn _]%andb_true_iff).
    apply bool_decide_eq_true in Hn. by destruct (Hu k ltac:(by eexists)).
  - intros e d' [v Hd] Hn Hl. destruct (existsb _ _) eqn:E; [by eexists|]. exfalso.
    eapply not_true_iff_false; [exact E|]. apply existsb_elem_of. exists (d', v).
    split; [by apply elem_of_map_to_list|]. simpl. rewrite Hn, Hl. by rewrite !bool_decide_eq_true_2.
Qed.

#[export] Instance map_laws : PrometheusLaws map_prometheus.
Proof.
  refine (Build_PrometheusLaws map_prometheus id id id id
    (λ s, forallb (λ c, (nat_of_ascii c <? 128)%nat) (list_ascii_of_string s)) _ _ _ _).
  - intros o. apply map_registers.
  - intros o. apply map_registers.
  - intros o _ _. apply map_registers.
  - done.
Defined.

Definition demo_registry : gmap desc value := {[ ("go_goroutines", "", ∅) := VGauge (f64_of_Z 8) ]}.

Lemma demo_unused : Forall (unused (exposed demo_registry)) metric_names.
Proof.
  apply Forall_forall. intros name Hn d [v Hv] <-. revert Hn.
  change (demo_registry !! d = Some v) in Hv. unfold demo_registry in Hv.
  apply lookup_singleton_Some in Hv as [<- _].
  unfold metric_names, desc_name. simpl. rewrite !elem_of_cons, elem_of_nil.
  intros H. by repeat (destruct H as [H|H]; [discriminate|]).
Qed.

Lemma NewMetrics_spec_witness :
  ∃ m r', NewMetrics "prod" demo_registry = Ok (m, r') ∧ size r' = 17 ∧
    r' !! ("go_goroutines", "", ∅) = Some (VGauge (f64_of_Z 8)).
Proof.
  destruct (NewMetrics_spec map_prometheus map_laws "prod" demo_registry) as (m & r' & E & Hn & Hl & _ & Hd & _).
  - reflexivity.
  - exact demo_unused.
  - exists m, r'. split_and!; [exact E| |].
    + assert (match NewMetrics "prod" demo_registry with Ok (_, r) => bool_decide (size r = 17) | _ => false end = true)
        as H by (vm_compute; reflexivity).
      rewrite E in H. exact (proj1 (bool_decide_eq_true _) H).
    + rewrite (Hd ("go_goroutines", "", ∅)); [reflexivity|]. intros H.
      pose proof (proj1 (Forall_forall _ _) Hl _ H) as H'. discriminate H'.
Defined.

Lemma Publish_spec_witness :
  ∃ m r e, NewMetrics "prod" demo_registry = Ok (m, r) ∧ shows m e (published 5 4 3 2 1) ∧
    e !! ("go_goroutines", "", ∅) = Some (VGauge (f64_of_Z 8)).
Proof.
  destruct (NewMetrics_registers (L := map_laws) "prod" demo_registry eq_refl demo_unused)
    as (m & r & E & Hn & Hl & He).
  destruct (Publish_spec map_prometheus map_laws "prod" demo_registry r r m 5 4 3 2 1) as [H1 H2].
  - reflexivity.
  - exact demo_unused.
  - exact E.
  - by eapply set_registered.
  - exists m, r. eexists. split_and!; [exact E|exact H1|]. rewrite H2, He.
    + pose proof (metric_set_NoDup m Hn) as Hd.
      rewrite (proj2 (foldl_insert_lookup _ _ ("go_goroutines", "", ∅) Hd)); [reflexivity|].
      intros H. pose proof (proj1 (Forall_forall _ _) Hl _ H) as H'. discriminate H'.
    + intros H. apply gauge_descs_in in H.
      pose proof (proj1 (Forall_forall _ _) Hl _ H) as H'. discriminate H'.
Defined.
