(* ===== verification/Metadata.v ===== *)
(** * Author-declared metadata ([internal/metadata/metadata.go])

    [metadata_From] is the function [From]; it ranges over the annotations, so
    it takes the runtime, and the theorems hold for every one. *)

From S2P Require Export Model.

Definition annoDescription : string := "dfds.cloud/description".
Definition annoLinkPrefix : string := "dfds.cloud/link.".

Section metadata.
Context {rt : GoRuntime}.

(** The body of the loop over the annotations. *)
Definition link_step (links : list Link) (kv : string * string) : list Link :=
  let '(k, v) := kv in
  if String.eqb v EmptyString || negb (HasPrefix k annoLinkPrefix) then links
  else
    let label := TrimPrefix k annoLinkPrefix in
    if String.eqb label EmptyString then links
    else links ++ [mkLink label v].

Definition metadata_From (annotations : smap) : option AppMetadata :=
  let desc := annotations⟦annoDescription⟧ in
  let links := foldl link_step [] (map_range (default ∅ annotations)) in
  let links := sort_slice (less_by link_Label) links in
  if String.eqb desc EmptyString && Nat.eqb (length links) 0 then None
  else Some (mkAppMetadata desc links).
End metadata.

(** ** Lemmas *)

(** What one annotation contributes. *)
Definition link_of (kv : string * string) : option Link :=
  let '(k, v) := kv in
  if String.eqb v EmptyString || negb (HasPrefix k annoLinkPrefix) then None
  else
    let label := TrimPrefix k annoLinkPrefix in
    if String.eqb label EmptyString then None else Some (mkLink label v).

Lemma link_of_Some k v l :
  link_of (k, v) = Some l ↔
  k = annoLinkPrefix +:+ link_Label l ∧ v = link_URL l ∧
  link_Label l ≠ EmptyString ∧ link_URL l ≠ EmptyString.
Proof.
  unfold link_of. split.
  - intros H. repeat split_match_in H; simplify_eq. breflect.
    destruct (TrimPrefix_spec k annoLinkPrefix) as [(r & -> & Hr)|[? _]]; [|congruence].
    cbn. by rewrite Hr in *.
  - destruct l as [lab url]. cbn [link_Label link_URL]. intros (-> & -> & Hl & Hu).
    rewrite HasPrefix_app, TrimPrefix_app.
    destruct (String.eqb_spec url EmptyString); [done|].
    by destruct (String.eqb_spec lab EmptyString).
Qed.

Lemma link_loop {rt : GoRuntime} l acc : foldl link_step acc l = acc ++ omap link_of l.
Proof.
  apply foldl_collect. intros acc' [k v]. unfold link_step, link_of.
  repeat split_match; simpl; by rewrite ?app_nil_r.
Qed.

#[global] Arguments link_of : simpl never.

Lemma links_NoDup (l : list (string * string)) :
  NoDup l.*1 → NoDup (link_Label <$> omap link_of l).
Proof.
  induction l as [|[k v] l IH]; [constructor|].
  rewrite fmap_cons, NoDup_cons. intros [Hk Hl]. simpl.
  destruct (link_of (k, v)) as [x|] eqn:E; [|by apply IH].
  rewrite fmap_cons, NoDup_cons. split; [|by apply IH].
  intros (y & Hy & ((k', v') & Hin & Hky)%list_elem_of_omap)%list_elem_of_fmap.
  apply link_of_Some in E as (-> & _). apply link_of_Some in Hky as (-> & _).
  apply Hk, list_elem_of_fmap. eexists. split; [|done]. simpl. by rewrite Hy.
Qed.
(** The link [lab], [url] is declared: the annotation
    [dfds.cloud/link.<lab>] is [url], and neither is empty. *)
Definition declares_link (annotations : smap) (l : Link) : Prop :=
  ∃ g, annotations = Some g ∧ g !! (annoLinkPrefix +:+ link_Label l) = Some (link_URL l) ∧
       link_Label l ≠ EmptyString ∧ link_URL l ≠ EmptyString.

Lemma declares_link_iff {rt : GoRuntime} annotations l :
  l ∈ omap link_of (map_range (default ∅ annotations)) ↔ declares_link annotations l.
Proof.
  rewrite list_elem_of_omap. unfold declares_link. split.
  - intros ([k v] & Hin & (-> & -> & ? & ?)%link_of_Some).
    apply map_range_elem_of in Hin. destruct annotations as [g|]; [by exists g|].
    simpl in Hin. by rewrite lookup_empty in Hin.
  - intros (g & -> & Hg & ? & ?). exists (annoLinkPrefix +:+ link_Label l, link_URL l).
    split; [by apply map_range_elem_of|]. by apply link_of_Some.
Qed.

(** ** Theorems *)

(** [From] returns nil exactly when no description and no usable link is
    declared; otherwise the description is the annotation's value and the links
    are exactly the declared ones, in ascending order of label. *)
Theorem metadata_From_spec (rt : GoRuntime) (annotations : smap) :
  match metadata_From annotations with
  | None => annotations⟦annoDescription⟧ = EmptyString ∧ ∀ l, ¬ declares_link annotations l
  | Some md =>
      meta_Description md = annotations⟦annoDescription⟧ ∧
      (∀ l, l ∈ meta_Links md ↔ declares_link annotations l) ∧
      Sorted (λ a b, String.leb (link_Label a) (link_Label b) = true) (meta_Links md) ∧
      NoDup (link_Label <$> meta_Links md) ∧
      (meta_Description md ≠ EmptyString ∨ meta_Links md ≠ [])
  end.
Proof.
  unfold metadata_From. rewrite link_loop, app_nil_l.
  set (links := omap link_of _).
  assert (∀ l, l ∈ sort_slice (less_by link_Label) links ↔ declares_link annotations l) as Hmem.
  { intros l. rewrite sort_slice_elem_of. apply declares_link_iff. }
  destruct (_ && _) eqn:E; breflect.
  - split; [done|]. intros l. rewrite <- Hmem.
    destruct (sort_slice _ _); [|done]. apply not_elem_of_nil.
  - cbn. split_and!; [done|done| | |].
    + eapply Sorted_weaken; [|apply sort_slice_sorted; auto with go].
      intros a b. unfold less_by. rewrite str_ltb_leb. apply negb_false_iff.
    + rewrite sort_slice_perm. apply links_NoDup, map_range_NoDup.
    + apply andb_false_iff in E as [E|E]; breflect; [by left|right].
      by destruct (sort_slice _ _).
Qed.

(** [From] does not depend on the order in which the annotations are visited nor
    on how equal elements are sorted. *)
Lemma metadata_From_deterministic (rt1 rt2 : GoRuntime) (annotations : smap) :
  metadata_From (rt := rt1) annotations = metadata_From (rt := rt2) annotations.
Proof.
  unfold metadata_From. rewrite !link_loop, !app_nil_l.
  rewrite (sort_by_det rt1 rt2 link_Label _
    (omap link_of (map_range (GoRuntime := rt2) (default ∅ annotations)))); [done| |].
  - apply omap_perm. by rewrite !map_range_perm.
  - apply links_NoDup, map_range_NoDup.
Qed.

Example metadata_example :
  metadata_From (rt := reverse_runtime)
    (Some {[ "dfds.cloud/description" := "d"; "dfds.cloud/link.b" := "u2";
             "dfds.cloud/link.a" := "u1"; "dfds.cloud/link." := "u3" ]}) =
  Some (mkAppMetadata "d" [mkLink "a" "u1"; mkLink "b" "u2"]).
Proof. reflexivity. Qed.
