(* ===== verification/Expect.v ===== *)
(** * Status expectations ([internal/reachability/expect.go])

    The parser of the annotation [dfds.cloud/reachability-expect]: comma
    separated terms, each a code, an inclusive range or an Nxx class. *)

From S2P Require Export Model.
From Stdlib Require Import Ascii.

Record codeRange := mkCodeRange { lo : Z; hi : Z }.

Record statusMatcher := mkStatusMatcher { ranges : list codeRange }.

Definition matches (m : statusMatcher) (code : Z) : bool :=
  existsb (λ r, (lo r <=? code) && (code <=? hi r))%Z (ranges m).

Definition defaultExpect : string := "200".

Definition defaultMatcher : statusMatcher := mkStatusMatcher [mkCodeRange 200 200].

(** [parseCode] returns [None] for Go's [(0, false)]. *)
Definition parseCode (s : string) : option Z :=
  match Atoi (TrimSpace s) with
  | None => None
  | Some n => if ((n <? 100) || (599 <? n))%Z then None else Some n
  end.

(** [parseTerm] returns [None] for Go's [(codeRange{}, false)]. *)
Definition parseTerm (term : string) : option codeRange :=
  match Cut term "-" with
  | Some (l, h) =>
      match parseCode l, parseCode h with
      | Some l, Some h => if (h <? l)%Z then None else Some (mkCodeRange l h)
      | _, _ => None
      end
  | None =>
      match term with
      | String d (String _ (String _ EmptyString)) =>
          if HasSuffix term "xx" || HasSuffix term "XX" then
            if negb (byte_in 49 53 d) then None
            else
              let base := (digit_value d * 100)%Z in
              Some (mkCodeRange base (base + 99))
          else
            match parseCode term with
            | None => None
            | Some c => Some (mkCodeRange c c)
            end
      | _ =>
          match parseCode term with
          | None => None
          | Some c => Some (mkCodeRange c c)
          end
      end
  end.

(** The loop of [parseExpect] over the split input; [None] is the early return
    of the default with [ok = false]. *)
Fixpoint parse_terms (terms : list string) (acc : list codeRange) : option (list codeRange) :=
  match terms with
  | [] => Some acc
  | term :: rest =>
      let term := TrimSpace term in
      if String.eqb term EmptyString then parse_terms rest acc
      else
        match parseTerm term with
        | None => None
        | Some r => parse_terms rest (acc ++ [r])
        end
  end.

Definition parseExpect (raw : string) : statusMatcher * string * bool :=
  let raw := TrimSpace raw in
  if String.eqb raw EmptyString then (defaultMatcher, defaultExpect, true)
  else
    match parse_terms (Split raw ",") [] with
    | None => (defaultMatcher, defaultExpect, false)
    | Some [] => (defaultMatcher, defaultExpect, false)
    | Some rs => (mkStatusMatcher rs, raw, true)
    end.

(** ** Bounds *)

Definition valid_range (r : codeRange) : Prop := (100 ≤ lo r ≤ hi r ∧ hi r ≤ 599)%Z.

Lemma parseCode_bounds s n : parseCode s = Some n → (100 ≤ n ≤ 599)%Z.
Proof.
  unfold parseCode. destruct (Atoi _); [|done]. destruct (_ || _) eqn:E; [done|].
  intros [= <-]. breflect. lia.
Qed.

Lemma parse_single_bounds s r :
  match parseCode s with None => None | Some c => Some (mkCodeRange c c) end = Some r →
  valid_range r.
Proof.
  destruct (parseCode s) eqn:E; [|done]. intros [= <-]. unfold valid_range. simpl.
  apply parseCode_bounds in E. lia.
Qed.

Lemma parseTerm_bounds term r : parseTerm term = Some r → valid_range r.
Proof.
  unfold parseTerm. destruct (Cut term "-") as [[l h]|].
  - destruct (parseCode l) eqn:El; [|done]. destruct (parseCode h) eqn:Eh; [|done].
    destruct (_ <? _)%Z eqn:E; [done|]. intros [= <-].
    apply parseCode_bounds in El, Eh. breflect. unfold valid_range. simpl. lia.
  - destruct term as [|d [|d1 [|d2 [|]]]]; try apply parse_single_bounds.
    destruct (_ || _); [|apply parse_single_bounds].
    destruct (byte_in 49 53 d) eqn:E; simpl; [|done]. intros [= <-].
    unfold byte_in in E. breflect. unfold valid_range, digit_value. simpl. lia.
Qed.

Lemma parse_terms_bounds terms acc rs :
  Forall valid_range acc → parse_terms terms acc = Some rs → Forall valid_range rs.
Proof.
  revert acc. induction terms as [|term terms IH]; simpl; intros acc Hacc.
  - by intros [= <-].
  - destruct (String.eqb _ _); [by apply IH|].
    destruct (parseTerm _) as [r|] eqn:E; [|done]. apply IH.
    apply Forall_app. split; [done|]. constructor; [|constructor].
    by eapply parseTerm_bounds.
Qed.

(** Whatever the annotation, the matcher is nonempty and only accepts codes
    of 100 to 599 through ranges with [lo <= hi]; an input that does not parse
    gives exactly the default expectation of a single 200. *)
Theorem parseExpect_bounds (raw : string) :
  let '(m, resolved, ok) := parseExpect raw in
  ranges m ≠ [] ∧ Forall valid_range (ranges m) ∧
  (∀ code, matches m code = true → (100 ≤ code ≤ 599)%Z) ∧
  (ok = false → m = defaultMatcher ∧ resolved = defaultExpect) ∧
  (resolved = defaultExpect ∨ resolved = TrimSpace raw).
Proof.
  assert (∀ m, Forall valid_range (ranges m) →
            ∀ code, matches m code = true → (100 ≤ code ≤ 599)%Z) as Hm.
  { intros m Hv code Hc. apply existsb_elem_of in Hc as (r & Hr & Hc). breflect.
    rewrite Forall_forall in Hv. specialize (Hv r Hr). unfold valid_range in Hv. lia. }
  assert (Forall valid_range (ranges defaultMatcher)) as Hd.
  { repeat constructor; simpl; lia. }
  unfold parseExpect. destruct (String.eqb _ _).
  { split_and!; [done|done|by apply Hm|done|by left]. }
  destruct (parse_terms _ _) as [[|r rs]|] eqn:E.
  - split_and!; [done|done|by apply Hm|done|by left].
  - apply parse_terms_bounds in E; [|constructor].
    split_and!; [done|done|by apply Hm|done|by right].
  - split_and!; [done|done|by apply Hm|done|by left].
Qed.

(** ** Round trip

    The grammar of the documentation, its printer and its meaning. *)

Inductive expect_term :=
  | TermCode (n : Z)
  | TermRange (l h : Z)
  | TermClass (d : Z) (upper : bool).

Definition wf_term (t : expect_term) : Prop :=
  match t with
  | TermCode n => 100 ≤ n ≤ 599
  | TermRange l h => 100 ≤ l ≤ h ∧ h ≤ 599
  | TermClass d _ => 1 ≤ d ≤ 5
  end%Z.

Definition print_term (t : expect_term) : string :=
  match t with
  | TermCode n => Itoa n
  | TermRange l h => Itoa l +:+ String "-" (Itoa h)
  | TermClass d upper => Itoa d +:+ (if upper then "XX" else "xx")
  end.

Definition print_expect (ts : list expect_term) : string :=
  Join (print_term <$> ts) ",".

Definition denote_term (t : expect_term) : codeRange :=
  match t with
  | TermCode n => mkCodeRange n n
  | TermRange l h => mkCodeRange l h
  | TermClass d _ => mkCodeRange (d * 100) (d * 100 + 99)
  end%Z.

(** A code satisfies a term. *)
Definition term_accepts (t : expect_term) (code : Z) : Prop :=
  match t with
  | TermCode n => code = n
  | TermRange l h => l ≤ code ≤ h
  | TermClass d _ => code / 100 = d
  end%Z.

Lemma parseCode_Itoa n : (100 ≤ n ≤ 599)%Z → parseCode (Itoa n) = Some n.
Proof.
  intros Hn. unfold parseCode. destruct (Itoa_digits n) as [Hd _]; [lia|].
  rewrite TrimSpace_graphic by by apply digits_graphic.
  rewrite Atoi_Itoa by lia.
  destruct (Z.ltb_spec n 100); [lia|]. destruct (Z.ltb_spec 599 n); [lia|]. done.
Qed.

Lemma digits_no_suffix s c suffix :
  string_all is_digit s = true → is_digit c = false →
  HasSuffix s (suffix +:+ String c EmptyString) = false.
Proof.
  intros Hs Hc. destruct (HasSuffix _ _) eqn:E; [|done].
  apply HasSuffix_iff in E as [r ->].
  rewrite !string_all_app in Hs. simpl in Hs. rewrite Hc in Hs.
  by rewrite !andb_false_r in Hs.
Qed.

Lemma parseTerm_digits s :
  string_all is_digit s = true →
  parseTerm s = match parseCode s with None => None | Some c => Some (mkCodeRange c c) end.
Proof.
  intros Hs. unfold parseTerm. rewrite Cut_lacks by by apply digits_lack.
  destruct s as [|d [|d1 [|d2 [|]]]]; try done.
  rewrite (digits_no_suffix _ "x" "x"), (digits_no_suffix _ "X" "X") by done. done.
Qed.

Lemma parseTerm_print t : wf_term t → parseTerm (print_term t) = Some (denote_term t).
Proof.
  destruct t as [n|l h|d upper]; simpl; intros Hwf.
  - destruct (Itoa_digits n) as [Hd _]; [lia|].
    rewrite parseTerm_digits, parseCode_Itoa by done. done.
  - destruct (Itoa_digits l) as [Hd _]; [lia|]. unfold parseTerm.
    rewrite Cut_byte by by apply digits_lack.
    rewrite !parseCode_Itoa by lia. destruct (Z.ltb_spec h l); [lia|done].
  - assert (d = 1 ∨ d = 2 ∨ d = 3 ∨ d = 4 ∨ d = 5)%Z as Hcases by lia.
    destruct upper; by destruct_or! Hcases; subst d.
Qed.

(** The bytes a printed term is made of. *)
Definition term_byte (c : ascii) : bool :=
  is_digit c || Ascii.eqb c "-" || Ascii.eqb c "x" || Ascii.eqb c "X".

Lemma print_term_bytes t : wf_term t →
  string_all term_byte (print_term t) = true ∧ print_term t ≠ EmptyString.
Proof.
  assert (∀ z, (0 ≤ z)%Z → string_all term_byte (Itoa z) = true ∧ Itoa z ≠ EmptyString) as HI.
  { intros z Hz. destruct (Itoa_digits z Hz) as [Hd Hne]. split; [|done].
    revert Hd. apply string_all_impl. intros c Hc. unfold term_byte. by rewrite Hc. }
  destruct t as [n|l h|d upper]; simpl; intros Hwf.
  - apply HI. lia.
  - destruct (HI l) as [H1 H2]; [lia|]. destruct (HI h) as [H3 H4]; [lia|].
    rewrite string_all_app, H1. simpl. rewrite H3. by destruct (Itoa l).
  - destruct (HI d) as [H1 H2]; [lia|]. rewrite string_all_app, H1.
    destruct upper; by destruct (Itoa d).
Qed.

Lemma term_byte_graphic c : term_byte c = true → is_graphic c = true.
Proof. destruct c as [[][][][][][][][]]; vm_compute; done. Qed.

Lemma print_term_graphic t : wf_term t → graphic (print_term t) = true.
Proof.
  intros H. destruct (print_term_bytes t H) as [Hb _].
  revert Hb. apply string_all_impl, term_byte_graphic.
Qed.

Lemma print_term_lacks_comma t : wf_term t → lacks "," (print_term t) = true.
Proof.
  intros H. destruct (print_term_bytes t H) as [Hb _]. revert Hb. apply string_all_impl.
  intros c. destruct c as [[][][][][][][][]]; vm_compute; done.
Qed.

Lemma Join_graphic l :
  Forall (λ s, graphic s = true) l → graphic (Join l ",") = true.
Proof.
  unfold graphic. induction 1 as [|s l Hs Hl IH]; [done|].
  destruct l as [|s' l]; [done|]. change (Join (s :: s' :: l) ",") with (s +:+ "," +:+ Join (s' :: l) ",").
  by rewrite !string_all_app, Hs, IH.
Qed.

Lemma parse_terms_print ts acc :
  Forall wf_term ts → parse_terms (print_term <$> ts) acc = Some (acc ++ (denote_term <$> ts)).
Proof.
  intros Hts. revert acc. induction Hts as [|t ts Ht Hts IH]; intros acc; simpl.
  - by rewrite app_nil_r.
  - rewrite TrimSpace_graphic by by apply print_term_graphic.
    destruct (print_term_bytes t Ht) as [_ Hne].
    destruct (String.eqb_spec (print_term t) EmptyString); [done|].
    rewrite parseTerm_print, IH by done. by rewrite <- app_assoc.
Qed.

Lemma denote_accepts t code :
  wf_term t → ((lo (denote_term t) <=? code) && (code <=? hi (denote_term t)))%Z = true
              ↔ term_accepts t code.
Proof.
  intros Hwf. rewrite andb_true_iff, !Z.leb_le. destruct t as [n|l h|d upper]; simpl in *; [lia..|].
  split.
  - intros H. symmetry. apply (Z.div_unique code 100 d (code - d * 100)); lia.
  - intros <-. pose proof (Z.div_mod code 100). pose proof (Z.mod_pos_bound code 100). lia.
Qed.

Lemma print_expect_nonempty t ts : wf_term t → print_expect (t :: ts) ≠ EmptyString.
Proof.
  intros Ht. destruct (print_term_bytes t Ht) as [_ Hnt]. unfold print_expect.
  rewrite fmap_cons. destruct (print_term t) as [|c s]; [done|].
  by destruct (print_term <$> ts).
Qed.

(** C19: parsing an expectation written in the documented grammar (codes, ranges
    and Nxx classes, comma separated) succeeds, surfaces the text unchanged, and
    the matcher accepts a status code exactly when one of the terms does. *)
Theorem parseExpect_print (ts : list expect_term) :
  ts ≠ [] → Forall wf_term ts →
  ∃ m, parseExpect (print_expect ts) = (m, print_expect ts, true) ∧
       ranges m = denote_term <$> ts ∧
       ∀ code, matches m code = true ↔ ∃ t, t ∈ ts ∧ term_accepts t code.
Proof.
  intros Hne Hts. exists (mkStatusMatcher (denote_term <$> ts)). unfold parseExpect, print_expect.
  rewrite TrimSpace_graphic.
  2:{ apply Join_graphic, Forall_fmap. eapply Forall_impl; [done|apply print_term_graphic]. }
  rewrite Split_Join.
  2:{ by destruct ts. }
  2:{ apply Forall_fmap. eapply Forall_impl; [done|apply print_term_lacks_comma]. }
  rewrite parse_terms_print by done. split_and!; [|done|].
  - destruct ts as [|t ts]; [done|]. apply Forall_cons in Hts as [Ht _].
    pose proof (print_expect_nonempty t ts Ht) as E. unfold print_expect in E.
    apply String.eqb_neq in E. by rewrite E.
  - intros code. unfold matches. rewrite existsb_elem_of. simpl ranges. split.
    + intros (r & (t & -> & Ht)%list_elem_of_fmap & Hr). exists t. split; [done|].
      rewrite Forall_forall in Hts. by apply (denote_accepts t code (Hts t Ht)).
    + intros (t & Ht & Hc). exists (denote_term t). split; [by apply list_elem_of_fmap_2|].
      rewrite Forall_forall in Hts. by apply (denote_accepts t code (Hts t Ht)).
Qed.

Lemma parseExpect_print_witness :
  ∃ m, parseExpect "204,300-302,2xx" = (m, "204,300-302,2xx", true) ∧
       ranges m = [mkCodeRange 204 204; mkCodeRange 300 302; mkCodeRange 200 299] ∧
       ∀ code, matches m code = true ↔
         ∃ t, t ∈ [TermCode 204; TermRange 300 302; TermClass 2 false] ∧ term_accepts t code.
Proof.
  apply (parseExpect_print [TermCode 204; TermRange 300 302; TermClass 2 false]).
  - discriminate.
  - repeat constructor; simpl; lia.
Defined.

Example parseExpect_fallback :
  parseExpect " 2xx , nope" = (defaultMatcher, defaultExpect, false) ∧
  parseExpect "  " = (defaultMatcher, defaultExpect, true).
Proof. split; reflexivity. Qed.
