(* ===== verification/Unstructured.v ===== *)
(** * Unstructured Kubernetes objects

    The content of a custom resource is a Go [map[string]interface{}].  The
    accessors of [k8s.io/apimachinery] are a parameter, the class
    [Unstructured]; [UnstructuredLaws] is what their documentation promises and
    [tree_unstructured] an instance that keeps the promise. *)

From S2P Require Export Model.

(** The dynamic values a decoded object holds. *)
#[warnings="-register-all"]
Inductive GoVal : Type :=
  | VNil
  | VBool (b : bool)
  | VInt (z : Z)
  | VFloat (f : spec_float)
  | VString (s : string)
  | VSlice (l : list GoVal)
  | VMap (m : gmap string GoVal).

Abbreviation GoObj := (gmap string GoVal).

(** The type assertion [v.(map[string]interface{})]. *)
Definition as_map (v : GoVal) : option GoObj :=
  match v with VMap m => Some m | _ => None end.

(** What a [Nested...] accessor returns: value, found, and whether there was an
    error. *)
Abbreviation nested A := (A * bool * bool)%type.

Definition nested_value {A} (r : nested A) : A := r.1.1.
Definition nested_found {A} (r : nested A) : bool := r.1.2.

Class Unstructured := {
  NestedString : GoObj → list string → nested string;
  NestedStringSlice : GoObj → list string → nested (list string);
  NestedMap : GoObj → list string → nested GoObj;
  NestedSlice : GoObj → list string → nested (list GoVal);
  GetNamespace : GoObj → string;
  GetName : GoObj → string;
  GetAnnotations : GoObj → smap;
}.

(** The value at a path of nested maps. *)
Fixpoint walk (o : GoObj) (fields : list string) : option GoVal :=
  match fields with
  | [] => Some (VMap o)
  | [f] => o !! f
  | f :: rest =>
      match o !! f with
      | Some (VMap o') => walk o' rest
      | _ => None
      end
  end.

Definition as_string (v : GoVal) : option string :=
  match v with VString s => Some s | _ => None end.

Class UnstructuredLaws (U : Unstructured) : Prop := {
  NestedString_string : ∀ o fs s,
    walk o fs = Some (VString s) → NestedString o fs = (s, true, false);
  NestedString_other : ∀ o fs,
    walk o fs ≫= as_string = None → (NestedString o fs).1 = (EmptyString, false);
  NestedSlice_slice : ∀ o fs l,
    walk o fs = Some (VSlice l) → NestedSlice o fs = (l, true, false);
  NestedSlice_missing : ∀ o fs,
    walk o fs = None → (NestedSlice o fs).1 = ([], false);
  NestedMap_map : ∀ o fs m,
    walk o fs = Some (VMap m) → NestedMap o fs = (m, true, false);
  NestedMap_missing : ∀ o fs,
    walk o fs = None → (NestedMap o fs).1 = (∅, false);
}.

Definition strings_of (l : list GoVal) : option (list string) := mapM as_string l.

(** An instance on the tree itself; the error flag is set where the value is of
    another type. *)
Definition tree_unstructured : Unstructured := {|
  NestedString := λ o fs,
    match walk o fs with
    | Some (VString s) => (s, true, false)
    | None => (EmptyString, false, false)
    | _ => (EmptyString, false, true)
    end;
  NestedStringSlice := λ o fs,
    match walk o fs with
    | Some (VSlice l) =>
        match strings_of l with Some ss => (ss, true, false) | None => ([], false, true) end
    | None => ([], false, false)
    | _ => ([], false, true)
    end;
  NestedMap := λ o fs,
    match walk o fs with
    | Some (VMap m) => (m, true, false)
    | None => (∅, false, false)
    | _ => (∅, false, true)
    end;
  NestedSlice := λ o fs,
    match walk o fs with
    | Some (VSlice l) => (l, true, false)
    | None => ([], false, false)
    | _ => ([], false, true)
    end;
  GetNamespace := λ o, default EmptyString (walk o ["metadata"; "namespace"] ≫= as_string);
  GetName := λ o, default EmptyString (walk o ["metadata"; "name"] ≫= as_string);
  GetAnnotations := λ o,
    match walk o ["metadata"; "annotations"] with
    | Some (VMap m) =>
        match mapM (λ '(k, v), (k,.) <$> as_string v) (map_to_list m) with
        | Some kvs => Some (list_to_map kvs)
        | None => None
        end
    | _ => None
    end;
|}.

#[export] Instance tree_unstructured_laws : UnstructuredLaws tree_unstructured.
Proof.
  split; intros o fs; simpl.
  - by intros s ->.
  - by destruct (walk o fs) as [[]|].
  - by intros l ->.
  - by intros ->.
  - by intros m ->.
  - by intros ->.
Qed.
