(* ===== verification/IngressRoute.v ===== *)
(** * Traefik IngressRoutes ([internal/kubernetes/ingressroute.go])

    The reduction of a raw IngressRoute to hosts, path prefixes and services,
    and the extraction of literal arguments from a match expression.  The three
    regular expressions of the source are written out as scanners. *)

From S2P Require Export Unstructured.
From Stdlib Require Import Ascii.

Record IngressRouteRule := mkIngressRouteRule {
  irr_Hosts : list string;
  irr_PathPrefixes : list string;
  irr_Services : list string;
}.

Record IngressRouteInfo := mkIngressRouteInfo {
  ir_Namespace : string;
  ir_Name : string;
  ir_EntryPoints : list string;
  ir_TLS : bool;
  ir_Annotations : smap;
  ir_Routes : list IngressRouteRule;
}.

(** ** The regular expressions *)

(** [\w] of RE2: ASCII letters, digits and the underscore. *)
Definition word_byte (c : ascii) : bool :=
  byte_in 48 57 c || byte_in 65 90 c || byte_in 97 122 c || byte_in 95 95 c.

(** Matches the lower-case literal [w] under [(?i)] at the start of [s] and
    returns the rest.  Of the letters used, only [s] folds to a code point
    outside ASCII: U+017F, the bytes C5 BF. *)
Fixpoint match_fold (w s : string) : option string :=
  match w with
  | EmptyString => Some s
  | String c w' =>
      match s with
      | EmptyString => None
      | String a s' =>
          if Ascii.eqb (lower_byte a) c then match_fold w' s'
          else if Ascii.eqb c "s" && HasPrefix s (bytes [197; 191]%Z)
               then match_fold w' (string_drop 2 s)
               else None
      end
  end.

(** [(?:name1|name2)\(([^)]* )\)] at the start of [s]: the submatch and what
    follows the match. *)
Fixpoint match_call (names : list string) (s : string) : option (string * string) :=
  match names with
  | [] => None
  | n :: rest =>
      match match_fold (n +:+ "(") s with
      | Some r =>
          match Cut r ")" with
          | Some (arg, after) => Some (arg, after)
          | None => match_call rest s
          end
      | None => match_call rest s
      end
  end.

(** [FindAllStringSubmatch] of [(?i)\b(?:...)\(([^)]* )\)]: the submatches from
    left to right; [prev] says whether the byte before [s] is a word byte. *)
Fixpoint find_calls (fuel : nat) (names : list string) (prev : bool) (s : string) : list string :=
  match fuel with
  | 0 => []
  | S n =>
      match s with
      | EmptyString => []
      | String c s' =>
          match (if prev then None else match_call names s) with
          | Some (arg, rest) => arg :: find_calls n names false rest
          | None => find_calls n names (word_byte c) s'
          end
      end
  end.

Definition FindAllCalls (names : list string) (s : string) : list string :=
  find_calls (S (String.length s)) names false s.

(** [FindAllStringSubmatch] of [`([^`]* )`]. *)
Fixpoint find_ticks (fuel : nat) (s : string) : list string :=
  match fuel with
  | 0 => []
  | S n =>
      match Cut s "`" with
      | Some (_, r) =>
          match Cut r "`" with
          | Some (arg, rest) => arg :: find_ticks n rest
          | None => []
          end
      | None => []
      end
  end.

Definition FindAllTicks (s : string) : list string := find_ticks (S (String.length s)) s.

Definition hostMatcherRe : list string := ["host"; "hostsni"].
Definition pathMatcherRe : list string := ["pathprefix"; "path"].

Definition extractBacktickArgs (callRe : list string) (match_ : string) : list string :=
  foldl (λ out call,
    foldl (λ out arg,
      let v := TrimSpace arg in
      if negb (String.eqb v EmptyString) then append_unique out v else out)
      out (FindAllTicks call))
    [] (FindAllCalls callRe match_).

Definition parseMatchHosts (match_ : string) : list string :=
  extractBacktickArgs hostMatcherRe match_.

Definition parseMatchPaths (match_ : string) : list string :=
  extractBacktickArgs pathMatcherRe match_.

(** ** Reduction of an object *)

Section ingressroute.
Context {U : Unstructured}.

(** The loop body over [spec.routes]; [None] is [continue]. *)
Definition ingressRouteRuleFrom (r : GoVal) : option IngressRouteRule :=
  match as_map r with
  | None => None
  | Some rm =>
      let match_ := nested_value (NestedString rm ["match"]) in
      let svcs := nested_value (NestedSlice rm ["services"]) in
      let services :=
        foldl (λ acc s,
          match as_map s with
          | None => acc
          | Some sm =>
              let name := nested_value (NestedString sm ["name"]) in
              if negb (String.eqb name EmptyString) then append_unique acc name else acc
          end) [] svcs in
      Some (mkIngressRouteRule (parseMatchHosts match_) (parseMatchPaths match_) services)
  end.

Definition ingressRouteInfoFrom (obj : GoObj) : IngressRouteInfo :=
  let entryPoints := nested_value (NestedStringSlice obj ["spec"; "entryPoints"]) in
  let tls := nested_found (NestedMap obj ["spec"; "tls"]) in
  let routes := nested_value (NestedSlice obj ["spec"; "routes"]) in
  mkIngressRouteInfo (GetNamespace obj) (GetName obj) entryPoints tls (GetAnnotations obj)
    (foldl (λ acc r,
      match ingressRouteRuleFrom r with
      | None => acc
      | Some rule => acc ++ [rule]
      end) [] routes).
End ingressroute.

(** ** The scanners, independently of their fuel *)

Lemma match_fold_length w s r :
  match_fold w s = Some r → String.length r + (if String.eqb w EmptyString then 0 else 1) ≤ String.length s.
Proof.
  revert s. induction w as [|c w IH]; intros s; simpl.
  - intros [= ->]. simpl. lia.
  - destruct s as [|a s]; [done|]. change (String.eqb (String c w) EmptyString) with false.
    destruct (Ascii.eqb (lower_byte a) c).
    + intros H%IH. simpl. lia.
    + destruct (_ && _); [|done]. intros H%IH. simpl.
      assert (∀ n t, String.length (string_drop n t) ≤ String.length t) as Hd.
      { induction n as [|n IHn]; intros [|x t]; simpl; [lia..|]. specialize (IHn t). lia. }
      destruct s as [|b s]; simpl in *; [lia|]. lia.
Qed.

Lemma match_call_length names s arg rest :
  match_call names s = Some (arg, rest) → String.length rest < String.length s.
Proof.
  induction names as [|n names IH]; simpl; [done|].
  destruct (match_fold (n +:+ "(") s) as [r|] eqn:E; [|done].
  destruct (Cut r ")") as [[a u]|] eqn:E'; [|done]. intros [= -> ->].
  apply Cut_Some in E'. apply match_fold_length in E. subst r.
  rewrite !str_length_app in E. simpl in E. lia.
Qed.

Lemma find_calls_fuel names n m prev s :
  String.length s < n → String.length s < m →
  find_calls n names prev s = find_calls m names prev s.
Proof.
  revert m prev s. induction n as [|n IH]; intros m prev s Hn Hm; [lia|].
  destruct m as [|m]; [lia|]. destruct s as [|c s]; [done|]. cbn [find_calls].
  simpl in Hn, Hm. destruct prev; [apply IH; lia|].
  destruct (match_call names (String c s)) as [[arg rest]|] eqn:E; [|apply IH; lia].
  apply match_call_length in E. simpl in E. f_equal. apply IH; lia.
Qed.

(** The calls found in [s] when the byte before it is, or is not, a word byte. *)
Definition calls (names : list string) (prev : bool) (s : string) : list string :=
  find_calls (S (String.length s)) names prev s.

Lemma calls_nil names prev : calls names prev EmptyString = [].
Proof. done. Qed.

Lemma calls_skip names prev c s :
  (prev = true ∨ match_call names (String c s) = None) →
  calls names prev (String c s) = calls names (word_byte c) s.
Proof. unfold calls. cbn [find_calls String.length]. intros [-> | H]; [done|].
  rewrite H. by destruct prev. Qed.

Lemma calls_found names s arg rest :
  match_call names s = Some (arg, rest) → calls names false s = arg :: calls names false rest.
Proof.
  intros H. pose proof (match_call_length _ _ _ _ H) as Hl. unfold calls.
  destruct s as [|c s]; [simpl in Hl; lia|].
  transitivity (arg :: find_calls (String.length (String c s)) names false rest).
  - cbn [find_calls]. by rewrite H.
  - f_equal. apply find_calls_fuel; simpl in *; lia.
Qed.

Lemma find_ticks_fuel n m s :
  String.length s < n → String.length s < m → find_ticks n s = find_ticks m s.
Proof.
  revert m s. induction n as [|n IH]; intros m s Hn Hm; [lia|].
  destruct m as [|m]; [lia|]. cbn [find_ticks].
  destruct (Cut s "`") as [[l r]|] eqn:E; [|done].
  destruct (Cut r "`") as [[arg rest]|] eqn:E'; [|done].
  apply Cut_Some in E, E'. subst. rewrite !str_length_app in *. simpl in *.
  f_equal. apply IH; lia.
Qed.

Lemma FindAllTicks_none s : lacks "`" s = true → FindAllTicks s = [].
Proof. intros H. unfold FindAllTicks. cbn [find_ticks]. by rewrite Cut_lacks. Qed.

Lemma FindAllTicks_some pre arg rest :
  lacks "`" pre = true → lacks "`" arg = true →
  FindAllTicks (pre +:+ String "`" (arg +:+ String "`" rest)) = arg :: FindAllTicks rest.
Proof.
  intros Hp Ha. unfold FindAllTicks at 1. cbn [find_ticks].
  rewrite Cut_byte, Cut_byte by done. f_equal. apply find_ticks_fuel; [|lia].
  repeat (rewrite str_length_app; cbn [String.length]). lia.
Qed.

(** ** Match expressions

    The expressions of the Traefik documentation: matcher calls with
    back-quoted arguments, possibly negated, joined by [||] and [&&]. *)

Inductive matcher :=
  | MHost | MHostSNI | MPathPrefix | MPath | MHostRegexp | MPathRegexp
  | MMethod | MHeader | MQuery | MClientIP.

Definition matcher_name (m : matcher) : string :=
  match m with
  | MHost => "Host" | MHostSNI => "HostSNI" | MPathPrefix => "PathPrefix" | MPath => "Path"
  | MHostRegexp => "HostRegexp" | MPathRegexp => "PathRegexp" | MMethod => "Method"
  | MHeader => "Header" | MQuery => "Query" | MClientIP => "ClientIP"
  end.

Definition is_host_matcher (m : matcher) : bool :=
  match m with MHost | MHostSNI => true | _ => false end.
Definition is_path_matcher (m : matcher) : bool :=
  match m with MPathPrefix | MPath => true | _ => false end.

Record mcall := mkMcall { mc_neg : bool; mc_fun : matcher; mc_args : list string }.

(** An operand and the operator ([true] for [||]) that joins it to the next. *)
Abbreviation mexpr := (list (mcall * bool)).

Definition print_args (args : list string) : string :=
  Join ((λ a, String "`" (a +:+ "`")) <$> args) ", ".

Definition print_call (c : mcall) : string :=
  (if mc_neg c then "!" else EmptyString) +:+ matcher_name (mc_fun c) +:+ "(" +:+
  print_args (mc_args c) +:+ ")".

Fixpoint print_mexpr (e : mexpr) : string :=
  match e with
  | [] => EmptyString
  | (c, op) :: rest =>
      print_call c +:+
      match rest with [] => EmptyString | _ => if op then " || " else " && " end +:+
      print_mexpr rest
  end.

(** A literal: printable ASCII other than the back-quote and parentheses. *)
Definition literal (a : string) : bool :=
  graphic a && lacks "`" a && lacks "(" a && lacks ")" a && nonempty a.

Definition wf_mexpr (e : mexpr) : Prop :=
  Forall (λ '(c, _), Forall (λ a, literal a = true) (mc_args c)) e.

(** The arguments of the calls [sel] selects, in order. *)
Definition mexpr_args (sel : matcher → bool) (e : mexpr) : list string :=
  e ≫= λ '(c, _), if sel (mc_fun c) then mc_args c else [].

(** *** Scanning a printed expression *)

Lemma match_fold_app w1 w2 s :
  match_fold (w1 +:+ w2) s = match_fold w1 s ≫= match_fold w2.
Proof.
  revert s. induction w1 as [|c w1 IH]; intros s; [done|].
  rewrite str_app_cons. simpl. destruct s as [|a s]; [done|].
  repeat case_match; [apply IH..|done].
Qed.

(** A byte that neither is in the literal nor folds is not consumed. *)
Lemma match_fold_lacks d w s r :
  is_graphic d = true → lower_byte d = d → lacks d w = true →
  match_fold w s = Some r → ∃ u, s = u +:+ r ∧ lacks d u = true.
Proof.
  intros Hg Hl. revert s. induction w as [|c w IH]; intros s Hw; simpl.
  - intros [= ->]. by exists EmptyString.
  - rewrite lacks_cons in Hw. apply andb_true_iff in Hw as [Hc Hw].
    destruct s as [|a s]; [done|]. destruct (Ascii.eqb_spec (lower_byte a) c) as [E|_].
    + intros (u & -> & Hu)%IH; [|done]. exists (String a u). split; [done|].
      rewrite lacks_cons, Hu, andb_true_r, negb_true_iff.
      destruct (Ascii.eqb_spec a d) as [->|]; [|done].
      rewrite Hl in E. subst c. by rewrite Ascii.eqb_refl in Hc.
    + destruct (_ && HasPrefix _ _) eqn:E; [|done]. breflect.
      apply HasPrefix_iff in H0 as [t Ht]. change (String a s = String "197" (String "191" t)) in Ht.
      destruct s as [|b s]; [done|]. injection Ht as -> -> ->.
      intros (u & -> & Hu)%IH; [|done]. exists (bytes [197; 191]%Z +:+ u).
      split; [done|]. rewrite lacks_app, Hu, andb_true_r.
      destruct d as [[][][][][][][][]]; vm_compute in Hg |- *; congruence.
Qed.

Lemma lower_byte_paren a : lower_byte a = "("%char → a = "("%char.
Proof. destruct a as [[][][][][][][][]]; vm_compute; congruence. Qed.

(** A name that holds no parenthesis. *)
Definition plain_name (n : string) : bool := lacks "(" n && lacks ")" n.

Lemma match_fold_name n s r :
  plain_name n = true → match_fold (n +:+ "(") s = Some r →
  ∃ u, s = u +:+ String "(" r ∧ lacks "(" u = true ∧ lacks ")" u = true.
Proof.
  unfold plain_name. intros [Ho Hc]%andb_true_iff. rewrite match_fold_app.
  destruct (match_fold n s) as [t|] eqn:E; [|done]. simpl.
  pose proof (match_fold_lacks "(" n s t eq_refl eq_refl Ho E) as (u & -> & Hu).
  pose proof (match_fold_lacks ")" n _ t eq_refl eq_refl Hc E) as (u' & E' & Hu').
  apply str_app_inv_r in E' as <-.
  intros Hp. exists u. split_and!; [|done..]. f_equal.
  destruct t as [|a t]; [done|].
  destruct (Ascii.eqb_spec (lower_byte a) "(") as [Ea|]; [|done].
  injection Hp as ->. by rewrite (lower_byte_paren a Ea).
Qed.

(** No call starts inside an argument list that holds no opening parenthesis. *)
Lemma match_call_in_args names t rest :
  Forall (λ n, plain_name n = true) names → lacks "(" t = true →
  match_call names (t +:+ String ")" rest) = None.
Proof.
  intros Hn Ht. induction Hn as [|n names Hn Hns IH]; [done|]. simpl. rewrite IH.
  destruct (match_fold (n +:+ "(") (t +:+ String ")" rest)) as [r|] eqn:E; [|done].
  exfalso. apply (match_fold_name n _ _ Hn) in E as (u & E & Hu1 & Hu2).
  clear -E Ht Hu1 Hu2. revert t E Ht. induction u as [|a u IH]; intros [|c t] E Ht;
    rewrite ?str_app_cons, ?str_app_nil_l in E; simplify_eq; try done.
  rewrite lacks_cons in *. apply andb_true_iff in Hu1 as [_ ?], Hu2 as [_ ?], Ht as [_ ?].
  by eapply IH.
Qed.

Lemma calls_args names prev t rest :
  Forall (λ n, plain_name n = true) names → match_call names (String ")" rest) = None →
  lacks "(" t = true →
  calls names prev (t +:+ String ")" rest) = calls names false rest.
Proof.
  intros Hn Hc. revert prev. induction t as [|c t IH]; intros prev Ht.
  - rewrite str_app_nil_l, calls_skip by by right. done.
  - pose proof (match_call_in_args names (String c t) rest Hn Ht) as Hnone.
    rewrite str_app_cons in *. rewrite calls_skip by by right.
    rewrite lacks_cons in Ht. apply andb_true_iff in Ht as [_ Ht]. by apply IH.
Qed.

(** The text of an argument list contains no parenthesis. *)
Lemma print_args_lacks d args :
  is_graphic d = true → Ascii.eqb "`" d = false → Ascii.eqb "," d = false →
  Forall (λ a, lacks d a = true) args → lacks d (print_args args) = true.
Proof.
  intros Hg Hd1 Hd2 Ha. unfold print_args. induction Ha as [|a args Ha Hargs IH]; [done|].
  assert (lacks d (String "`" (a +:+ "`")) = true) as H1.
  { rewrite lacks_cons, Hd1, lacks_app, Ha. unfold lacks. cbn [string_all]. by rewrite Hd1. }
  destruct args as [|a' args]; [done|].
  change (lacks d (String "`" (a +:+ "`") +:+ ", " +:+
    Join ((λ a, String "`" (a +:+ "`")) <$> a' :: args) ", ") = true).
  rewrite !lacks_app, H1, IH. unfold lacks. cbn [string_all]. rewrite Hd2.
  destruct (Ascii.eqb_spec " " d) as [<-|]; done.
Qed.

(** The argument texts of the calls [sel] selects. *)
Definition printed_calls (sel : matcher → bool) (e : mexpr) : list string :=
  e ≫= λ '(c, _), if sel (mc_fun c) then [print_args (mc_args c)] else [].

Section scan.
Context (names : list string) (sel : matcher → bool).
Hypothesis names_plain : Forall (λ n, plain_name n = true) names.
Hypothesis close_none : ∀ s, match_call names (String ")" s) = None.
Hypothesis open_none : ∀ s, match_call names (String "(" s) = None.
Hypothesis blank_none : ∀ s, match_call names (String " " s) = None.
Hypothesis bang_none : ∀ s, match_call names (String "!" s) = None.
Hypothesis bar_none : ∀ s, match_call names (String "|" s) = None.
Hypothesis amp_none : ∀ s, match_call names (String "&" s) = None.
Hypothesis selected : ∀ m args rest, sel m = true → lacks ")" args = true →
  match_call names (matcher_name m +:+ "(" +:+ args +:+ ")" +:+ rest) = Some (args, rest).
Hypothesis skipped : ∀ m s, sel m = false →
  calls names false (matcher_name m +:+ String "(" s) = calls names false s.

Lemma calls_call c rest :
  Forall (λ a, literal a = true) (mc_args c) →
  calls names false (print_call c +:+ rest) =
  (if sel (mc_fun c) then [print_args (mc_args c)] else []) ++ calls names false rest.
Proof.
  intros Hargs.
  assert (∀ d, is_graphic d = true → Ascii.eqb "`" d = false → Ascii.eqb "," d = false →
    (∀ a, literal a = true → lacks d a = true) → lacks d (print_args (mc_args c)) = true) as Hl.
  { intros d ? ? ? Hd. apply print_args_lacks; [done..|]. eapply Forall_impl; [done|apply Hd]. }
  assert (lacks "(" (print_args (mc_args c)) = true) as Hlo.
  { apply Hl; [done..|]. unfold literal. intros a ?. by breflect. }
  assert (lacks ")" (print_args (mc_args c)) = true) as Hlc.
  { apply Hl; [done..|]. unfold literal. intros a ?. by breflect. }
  clear Hl Hargs. destruct c as [neg m args]. unfold print_call. simpl mc_neg in *.
  simpl mc_fun in *. simpl mc_args in *. rewrite !str_app_assoc.
  assert (calls names false (matcher_name m +:+ "(" +:+ print_args args +:+ ")" +:+ rest) =
    (if sel m then [print_args args] else []) ++ calls names false rest) as Hm.
  { destruct (sel m) eqn:Es.
    - rewrite (calls_found _ _ (print_args args) rest) by by apply selected. done.
    - change ("(" +:+ ?x) with (String "(" x). rewrite skipped by done.
      change (")" +:+ rest) with (String ")" rest). by rewrite calls_args. }
  destruct neg; [|by rewrite str_app_nil_l].
  change ("!" +:+ ?x) with (String "!" x). rewrite calls_skip by by right. done.
Qed.

Lemma calls_expr e :
  wf_mexpr e →
  calls names false (print_mexpr e) = printed_calls sel e.
Proof.
  unfold wf_mexpr, printed_calls. induction e as [|[c op] e IH]; intros He; [done|].
  apply Forall_cons in He as [Hc He]. cbn [print_mexpr].
  rewrite calls_call, bind_cons by done. f_equal.
  destruct e as [|[c' op'] e]; [done|]. rewrite <- IH by done.
  generalize (print_mexpr ((c', op') :: e)). intros s.
  destruct op; rewrite ?str_app_cons, ?str_app_nil_l;
    repeat (rewrite calls_skip by auto); done.
Qed.
End scan.

Lemma FindAllTicks_args pre args :
  lacks "`" pre = true → Forall (λ a, lacks "`" a = true) args →
  FindAllTicks (pre +:+ print_args args) = args.
Proof.
  intros Hp Ha. revert pre Hp. induction Ha as [|a args Ha Hargs IH]; intros pre Hp.
  - unfold print_args. simpl. rewrite str_app_nil_r. by apply FindAllTicks_none.
  - unfold print_args. destruct args as [|a' args].
    + change (FindAllTicks (pre +:+ String "`" (a +:+ String "`" EmptyString)) = [a]).
      by rewrite FindAllTicks_some, FindAllTicks_none.
    + change (FindAllTicks (pre +:+ String "`" (a +:+ "`") +:+ ", " +:+ print_args (a' :: args)) =
        a :: a' :: args).
      rewrite str_app_cons, str_app_assoc.
      change ("`" +:+ ", " +:+ print_args (a' :: args))
        with (String "`" (", " +:+ print_args (a' :: args))).
      rewrite FindAllTicks_some by done. f_equal. by apply IH.
Qed.

Lemma extract_args (out args : list string) :
  Forall (λ a, literal a = true) args →
  foldl (λ out arg,
      let v := TrimSpace arg in
      if negb (String.eqb v EmptyString) then append_unique out v else out) out args =
  foldl append_unique out args.
Proof.
  intros Ha. revert out. induction Ha as [|a args Ha Hargs IH]; intros out; [done|].
  cbn [foldl]. rewrite IH. unfold literal, nonempty in Ha. breflect.
  rewrite TrimSpace_graphic by done. by destruct (String.eqb_spec a EmptyString).
Qed.

Lemma extract_fold sel e out :
  wf_mexpr e →
  foldl (λ out call,
    foldl (λ out arg,
      let v := TrimSpace arg in
      if negb (String.eqb v EmptyString) then append_unique out v else out)
      out (FindAllTicks call)) out (printed_calls sel e) =
  foldl append_unique out (mexpr_args sel e).
Proof.
  intros He. unfold wf_mexpr in He. revert out.
  induction He as [|[c op] e Hc He IH]; intros out; [done|].
  unfold printed_calls, mexpr_args in *. rewrite !bind_cons, !foldl_app.
  destruct (sel (mc_fun c)); [|apply IH].
  cbn [foldl]. rewrite <- IH. f_equal.
  rewrite <- (str_app_nil_l (print_args (mc_args c))), FindAllTicks_args; [|done|].
  - by apply extract_args.
  - eapply Forall_impl; [done|]. unfold literal. intros a ?. by breflect.
Qed.

(** The calls an expression selects, with their argument lists printed, unfold
    to the deduplicated arguments. *)
Lemma extract_mexpr names sel e :
  wf_mexpr e → calls names false (print_mexpr e) = printed_calls sel e →
  extractBacktickArgs names (print_mexpr e) = foldl append_unique [] (mexpr_args sel e).
Proof.
  unfold extractBacktickArgs, FindAllCalls. intros He Hc. fold (calls names false (print_mexpr e)).
  rewrite Hc. by apply extract_fold.
Qed.

Ltac scan_name :=
  intros m ?; destruct m; try discriminate; intros _;
  cbn [matcher_name]; rewrite ?str_app_cons, ?str_app_nil_l;
  repeat first [ rewrite calls_skip by (left; reflexivity)
               | rewrite calls_skip by (right; reflexivity) ]; reflexivity.

Ltac scan_call :=
  intros m args rest Hs Ha; destruct m; try discriminate Hs;
  cbn [matcher_name match_call match_fold]; rewrite ?str_app_cons, ?str_app_nil_l; simpl;
  change (")" +:+ rest) with (String ")" rest); by rewrite Cut_byte.

Lemma host_calls e :
  wf_mexpr e →
  calls hostMatcherRe false (print_mexpr e) = printed_calls is_host_matcher e.
Proof.
  apply calls_expr; try done; [by repeat constructor|scan_call|scan_name].
Qed.

Lemma path_calls e :
  wf_mexpr e →
  calls pathMatcherRe false (print_mexpr e) = printed_calls is_path_matcher e.
Proof.
  apply calls_expr; try done; [by repeat constructor|scan_call|scan_name].
Qed.

(** ** Theorems *)

(** C23: on a printed match expression the extracted hosts are the arguments of
    its [Host] and [HostSNI] calls and the extracted paths those of its
    [PathPrefix] and [Path] calls, in order and without repetition; the
    arguments of every other matcher (the regular-expression ones included) are
    skipped, and a negated call contributes like a plain one. *)
Theorem parseMatch_print (e : mexpr) :
  wf_mexpr e →
  parseMatchHosts (print_mexpr e) = foldl append_unique [] (mexpr_args is_host_matcher e) ∧
  parseMatchPaths (print_mexpr e) = foldl append_unique [] (mexpr_args is_path_matcher e).
Proof.
  intros He. split; apply extract_mexpr; auto using host_calls, path_calls.
Qed.

Definition example_mexpr : mexpr :=
  [ (mkMcall false MHost ["a.example.com"; "b.example.com"], false);
    (mkMcall true MHostRegexp ["^c$"], true);
    (mkMcall false MHostSNI ["a.example.com"], false);
    (mkMcall true MPathPrefix ["/api"], true) ].

Lemma parseMatch_print_witness :
  parseMatchHosts "Host(`a.example.com`, `b.example.com`) && !HostRegexp(`^c$`) || HostSNI(`a.example.com`) && !PathPrefix(`/api`)"
    = ["a.example.com"; "b.example.com"] ∧
  parseMatchPaths "Host(`a.example.com`, `b.example.com`) && !HostRegexp(`^c$`) || HostSNI(`a.example.com`) && !PathPrefix(`/api`)"
    = ["/api"].
Proof. apply (parseMatch_print example_mexpr). by repeat constructor. Defined.

(** A route of an IngressRoute as its author writes it. *)
Record route_spec := mkRouteSpec { rs_match : mexpr; rs_services : list string }.

Definition encode_service (name : string) : GoVal := VMap {[ "name" := VString name ]}.

Definition encode_route (r : route_spec) : GoVal :=
  VMap {[ "match" := VString (print_mexpr (rs_match r));
          "services" := VSlice (encode_service <$> rs_services r) ]}.

Definition denote_route (r : route_spec) : IngressRouteRule :=
  mkIngressRouteRule
    (foldl append_unique [] (mexpr_args is_host_matcher (rs_match r)))
    (foldl append_unique [] (mexpr_args is_path_matcher (rs_match r)))
    (foldl append_unique [] (rs_services r)).

Definition wf_route (r : route_spec) : Prop :=
  wf_mexpr (rs_match r) ∧ Forall (λ n, n ≠ EmptyString) (rs_services r).

Section decode.
Context {U : Unstructured} {UL : UnstructuredLaws U}.

Lemma decode_services names acc :
  Forall (λ n, n ≠ EmptyString) names →
  foldl (λ acc s,
    match as_map s with
    | None => acc
    | Some sm =>
        let name := nested_value (NestedString sm ["name"]) in
        if negb (String.eqb name EmptyString) then append_unique acc name else acc
    end) acc (encode_service <$> names) = foldl append_unique acc names.
Proof.
  intros Hn. revert acc. induction Hn as [|n names Hn Hns IH]; intros acc; [done|].
  rewrite fmap_cons. cbn [foldl]. rewrite <- IH. f_equal. unfold encode_service. cbn [as_map].
  rewrite (NestedString_string _ _ n) by done. cbn.
  by destruct (String.eqb_spec n EmptyString).
Qed.

Lemma decode_route r : wf_route r → ingressRouteRuleFrom (encode_route r) = Some (denote_route r).
Proof.
  intros [Hm Hs]. unfold ingressRouteRuleFrom, encode_route. cbn [as_map].
  rewrite (NestedString_string _ _ (print_mexpr (rs_match r))) by done.
  rewrite (NestedSlice_slice _ _ (encode_service <$> rs_services r)) by done.
  cbn [nested_value fst]. rewrite decode_services by done.
  destruct (parseMatch_print (rs_match r) Hm) as [-> ->]. done.
Qed.
End decode.

(** The rules read from an IngressRoute object are, one per element of
    [spec.routes] and in order, the literal hosts, path prefixes and service
    names that element declares; TLS is on exactly when [spec.tls] is a map that
    is present, even an empty one. *)
Theorem ingressRouteInfoFrom_routes (U : Unstructured) (UL : UnstructuredLaws U)
    (obj : GoObj) (rs : list route_spec) (tls : option GoObj) :
  walk obj ["spec"; "routes"] = Some (VSlice (encode_route <$> rs)) →
  walk obj ["spec"; "tls"] = VMap <$> tls →
  Forall wf_route rs →
  ir_Routes (ingressRouteInfoFrom obj) = denote_route <$> rs ∧
  ir_TLS (ingressRouteInfoFrom obj) = bool_decide (is_Some tls).
Proof.
  intros Hr Ht Hwf. unfold ingressRouteInfoFrom.
  rewrite (NestedSlice_slice _ _ _ Hr). cbn [nested_value fst ir_Routes ir_TLS]. split.
  - rewrite (foldl_collect _ ingressRouteRuleFrom).
    2:{ intros acc x. destruct (ingressRouteRuleFrom x); by rewrite ?app_nil_r. }
    rewrite app_nil_l. clear Hr Ht. induction Hwf as [|r rs Hwf Hrs IH]; [done|].
    rewrite !fmap_cons. cbn [omap list_omap]. rewrite decode_route by done. f_equal. apply IH.
  - destruct tls as [m|];
      [change (VMap <$> Some m) with (Some (VMap m)) in Ht
      |change (VMap <$> @None GoObj) with (@None GoVal) in Ht].
    + by rewrite (NestedMap_map _ _ m) by done.
    + unfold nested_found. pose proof (NestedMap_missing _ _ Ht) as H.
      destruct (NestedMap _ _) as [[m f] e]. simpl in *. by simplify_eq.
Qed.

Definition example_route_obj : GoObj :=
  {[ "metadata" := VMap {[ "namespace" := VString "cap"; "name" := VString "r" ]};
     "spec" := VMap {[ "tls" := VMap ∅;
                       "routes" := VSlice [encode_route (mkRouteSpec example_mexpr ["api"; "api"])] ]} ]}.

Lemma ingressRouteInfoFrom_routes_witness :
  ir_Routes (ingressRouteInfoFrom (U := tree_unstructured) example_route_obj) =
    [mkIngressRouteRule ["a.example.com"; "b.example.com"] ["/api"] ["api"]] ∧
  ir_TLS (ingressRouteInfoFrom (U := tree_unstructured) example_route_obj) = true.
Proof.
  apply (ingressRouteInfoFrom_routes tree_unstructured tree_unstructured_laws example_route_obj
    [mkRouteSpec example_mexpr ["api"; "api"]] (Some ∅)).
  - reflexivity.
  - reflexivity.
  - repeat constructor; discriminate.
Defined.
