(* ===== verification/Kubernetes.v ===== *)
(** * The Kubernetes scan ([internal/kubernetes/client.go])

    The snapshot types, the conversions from API objects, the namespace filter
    and [ListResources].  The API server is a parameter: a [ClientSet] and a
    [DynamicClient] of listing functions.  Of an API type the records below keep
    the fields the program reads; a quantity and an [IntOrString] appear as the
    text their [String] method renders. *)

From S2P Require Export IngressRoute.

(** ** API objects *)

Record ObjectMeta := mkObjectMeta {
  om_Namespace : string;
  om_Name : string;
  om_Labels : smap;
  om_Annotations : smap;
}.

Record LabelSelector := mkLabelSelector {
  ls_MatchLabels : smap;
  ls_MatchExpressions : list (string * string * list string);
}.

Record KContainerPort := mkKContainerPort {
  kp_Name : string; kp_ContainerPort : Z; kp_Protocol : string }.

(** The [Cpu] and [Memory] quantities of a resource list, rendered. *)
Record ResourceList := mkResourceList { rl_Cpu : string; rl_Memory : string }.

Record KContainer := mkKContainer {
  kc_Name : string; kc_Image : string; kc_Ports : list KContainerPort;
  kc_Requests : option ResourceList; kc_Limits : option ResourceList }.

Record Namespace := mkNamespace { ns_Name : string; ns_Labels : smap }.

Record Pod := mkPod { pod_Meta : ObjectMeta; pod_Containers : list KContainer }.

Record KServicePort := mkKServicePort {
  ksp_Name : string; ksp_Port : Z; ksp_TargetPort : string; ksp_Protocol : string }.

Record KService := mkKService {
  ks_Meta : ObjectMeta; ks_Type : string; ks_ClusterIP : string; ks_Selector : smap;
  ks_Ports : list KServicePort }.

(** Deployments and StatefulSets. *)
Record Replicated := mkReplicated {
  rp_Meta : ObjectMeta; rp_Replicas : option Z; rp_Selector : option LabelSelector;
  rp_TemplateLabels : smap; rp_Containers : list KContainer; rp_ReadyReplicas : Z }.

Record DaemonSet := mkDaemonSet {
  dm_Meta : ObjectMeta; dm_Selector : option LabelSelector; dm_TemplateLabels : smap;
  dm_Containers : list KContainer; dm_DesiredNumberScheduled : Z; dm_NumberReady : Z }.

(** A path of an Ingress rule and the name of its Service backend, if any. *)
Record HTTPIngressPath := mkHTTPIngressPath { hp_Path : string; hp_Service : option string }.

Record IngressRule := mkIngressRule { ig_Host : string; ig_HTTP : option (list HTTPIngressPath) }.

Record Ingress := mkIngress { ing_Meta : ObjectMeta; ing_Rules : list IngressRule }.

Record NetworkPolicyPeer := mkPeer {
  peer_IPBlock : option string;
  peer_NamespaceSelector : option LabelSelector;
  peer_PodSelector : option LabelSelector }.

Record NetworkPolicy := mkNetworkPolicy {
  np_Meta : ObjectMeta; np_PodSelector : LabelSelector;
  np_Egress : list (list NetworkPolicyPeer) }.

(** ** Snapshot types *)

Record NamespaceInfo := mkNamespaceInfo {
  nsi_Name : string;
  nsi_CapabilityID : string;
  nsi_AWSAccountID : string;
  nsi_ContextID : string;
  nsi_CostCentre : string;
  nsi_Labels : smap;
}.

Record ContainerPortInfo := mkContainerPortInfo {
  cpi_Name : string; cpi_ContainerPort : Z; cpi_Protocol : string }.

Record PodInfo := mkPodInfo {
  pi_Namespace : string; pi_Name : string; pi_Labels : smap; pi_Ports : list ContainerPortInfo }.

Record ServicePortInfo := mkServicePortInfo {
  spi_Name : string; spi_Port : Z; spi_TargetPort : string; spi_Protocol : string }.

Record ServiceInfo := mkServiceInfo {
  si_Namespace : string; si_Name : string; si_Type : string; si_ClusterIP : string;
  si_Selector : smap; si_Ports : list ServicePortInfo }.

Record ContainerSpec := mkContainerSpec {
  cs_Name : string; cs_Image : string; cs_Ports : list ContainerPortInfo;
  cs_RequestsCPU : string; cs_RequestsMemory : string;
  cs_LimitsCPU : string; cs_LimitsMemory : string }.

Record WorkloadInfo := mkWorkloadInfo {
  wl_Namespace : string; wl_Name : string; wl_Kind : string;
  wl_Replicas : Z; wl_ReadyReplicas : Z;
  wl_Selector : smap; wl_PodLabels : smap; wl_Labels : smap; wl_Annotations : smap;
  wl_Containers : list ContainerSpec }.

Record IngressPath := mkIngressPath { ip_Host : string; ip_Path : string }.

#[export] Instance ingress_path_eq_dec : EqDecision IngressPath.
Proof. solve_decision. Defined.

Record IngressInfo := mkIngressInfo {
  ii_Namespace : string; ii_Name : string;
  ii_ServiceHosts : gmap string (list string);
  ii_ServiceRoutes : gmap string (list IngressPath);
  ii_Annotations : smap }.

Record NetworkPolicyInfo := mkNetworkPolicyInfo {
  npi_Namespace : string; npi_Name : string; npi_PodSelector : smap;
  npi_EgressTargets : list string }.

Record GitOpsSourceInfo := mkGitOpsSourceInfo {
  go_Kind : string; go_Namespace : string; go_Name : string; go_Object : GoObj }.

Record K8sSnapshot := mkK8sSnapshot {
  snap_Namespaces : list NamespaceInfo;
  snap_Pods : list PodInfo;
  snap_Services : list ServiceInfo;
  snap_Workloads : list WorkloadInfo;
  snap_Ingresses : list IngressInfo;
  snap_IngressRoutes : list IngressRouteInfo;
  snap_NetPolicies : list NetworkPolicyInfo;
  snap_GitOps : list GitOpsSourceInfo;
}.

Definition empty_snapshot : K8sSnapshot := mkK8sSnapshot [] [] [] [] [] [] [] [].

(** ** Conversions *)

Definition namespaceInfoFrom (ns : Namespace) : NamespaceInfo :=
  mkNamespaceInfo (ns_Name ns)
    ((ns_Labels ns)⟦"dfds.cloud/capability"⟧)
    ((ns_Labels ns)⟦"dfds.cloud/aws-account"⟧)
    ((ns_Labels ns)⟦"dfds.cloud/context-id"⟧)
    ((ns_Labels ns)⟦"dfds.cloud/cost-centre"⟧)
    (ns_Labels ns).

Definition container_port_info (p : KContainerPort) : ContainerPortInfo :=
  mkContainerPortInfo (kp_Name p) (kp_ContainerPort p) (kp_Protocol p).

Definition podInfoFrom (pod : Pod) : PodInfo :=
  mkPodInfo (om_Namespace (pod_Meta pod)) (om_Name (pod_Meta pod)) (om_Labels (pod_Meta pod))
    (pod_Containers pod ≫= λ ctr, container_port_info <$> kc_Ports ctr).

Definition serviceInfoFrom (svc : KService) : ServiceInfo :=
  mkServiceInfo (om_Namespace (ks_Meta svc)) (om_Name (ks_Meta svc))
    (ks_Type svc) (ks_ClusterIP svc) (ks_Selector svc)
    ((λ p, mkServicePortInfo (ksp_Name p) (ksp_Port p) (ksp_TargetPort p) (ksp_Protocol p))
       <$> ks_Ports svc).

Definition containerSpecsFrom (containers : list KContainer) : list ContainerSpec :=
  (λ ctr,
     mkContainerSpec (kc_Name ctr) (kc_Image ctr) (container_port_info <$> kc_Ports ctr)
       (from_option rl_Cpu EmptyString (kc_Requests ctr))
       (from_option rl_Memory EmptyString (kc_Requests ctr))
       (from_option rl_Cpu EmptyString (kc_Limits ctr))
       (from_option rl_Memory EmptyString (kc_Limits ctr)))
    <$> containers.

Definition selectorMatchLabels (sel : option LabelSelector) : smap :=
  match sel with None => None | Some s => ls_MatchLabels s end.

Definition replicated_info (kind : string) (d : Replicated) : WorkloadInfo :=
  mkWorkloadInfo (om_Namespace (rp_Meta d)) (om_Name (rp_Meta d)) kind
    (default 0%Z (rp_Replicas d)) (rp_ReadyReplicas d)
    (selectorMatchLabels (rp_Selector d)) (rp_TemplateLabels d)
    (om_Labels (rp_Meta d)) (om_Annotations (rp_Meta d))
    (containerSpecsFrom (rp_Containers d)).

Definition deploymentInfoFrom : Replicated → WorkloadInfo := replicated_info "Deployment".
Definition statefulSetInfoFrom : Replicated → WorkloadInfo := replicated_info "StatefulSet".

Definition daemonSetInfoFrom (d : DaemonSet) : WorkloadInfo :=
  mkWorkloadInfo (om_Namespace (dm_Meta d)) (om_Name (dm_Meta d)) "DaemonSet"
    (dm_DesiredNumberScheduled d) (dm_NumberReady d)
    (selectorMatchLabels (dm_Selector d)) (dm_TemplateLabels d)
    (om_Labels (dm_Meta d)) (om_Annotations (dm_Meta d))
    (containerSpecsFrom (dm_Containers d)).

Definition appendUnique (slice : list string) (value : string) : list string :=
  append_unique slice value.

Definition appendIngressPathUnique (paths : list IngressPath) (p : IngressPath) : list IngressPath :=
  append_unless (λ existing, bool_decide (existing = p)) paths p.

(** The body of the loop over the paths of a rule with host [host]; the state
    is [(serviceHosts, serviceRoutes)]. *)
Definition ingress_path_step (host : string)
    (st : gmap string (list string) * gmap string (list IngressPath)) (path : HTTPIngressPath) :=
  let '(serviceHosts, serviceRoutes) := st in
  match hp_Service path with
  | None => st
  | Some svc =>
      (<[svc := appendUnique (mslice serviceHosts svc) host]> serviceHosts,
       <[svc := appendIngressPathUnique (mslice serviceRoutes svc)
                  (mkIngressPath host (hp_Path path))]> serviceRoutes)
  end.

Definition ingress_rule_step
    (st : gmap string (list string) * gmap string (list IngressPath)) (rule : IngressRule) :=
  match ig_HTTP rule with
  | None => st
  | Some paths =>
      if String.eqb (ig_Host rule) EmptyString then st
      else foldl (ingress_path_step (ig_Host rule)) st paths
  end.

Definition ingressInfoFrom (ing : Ingress) : IngressInfo :=
  let '(serviceHosts, serviceRoutes) := foldl ingress_rule_step (∅, ∅) (ing_Rules ing) in
  mkIngressInfo (om_Namespace (ing_Meta ing)) (om_Name (ing_Meta ing))
    serviceHosts serviceRoutes (om_Annotations (ing_Meta ing)).

(** [labelSelectorString] joins the labels in the order the range visits them. *)
Definition labelSelectorString {rt : GoRuntime} (sel : option LabelSelector) : string :=
  match sel with
  | None => EmptyString
  | Some s =>
      Join ((λ '(k, v), k +:+ "=" +:+ v) <$> map_range (default ∅ (ls_MatchLabels s))) ","
  end.

(** Every call of [labelSelectorString] ranges anew: [rts i] is the runtime of
    the [i]-th egress peer. *)
Definition egress_target (rt : GoRuntime) (to : NetworkPolicyPeer) : option string :=
  match peer_IPBlock to with
  | Some cidr => Some ("ipblock:" +:+ cidr)
  | None =>
      match peer_NamespaceSelector to with
      | Some sel => Some ("namespaceSelector:" +:+ labelSelectorString (Some sel))
      | None =>
          match peer_PodSelector to with
          | Some sel => Some ("podSelector:" +:+ labelSelectorString (Some sel))
          | None => None
          end
      end
  end.

Definition egress_targets (rts : nat → GoRuntime) (peers : list NetworkPolicyPeer) : list string :=
  foldl (λ targets '(i, to),
    match egress_target (rts i) to with
    | Some t => appendUnique targets t
    | None => targets
    end) [] (imap pair peers).

Definition networkPolicyInfoFrom (rts : nat → GoRuntime) (np : NetworkPolicy) : NetworkPolicyInfo :=
  mkNetworkPolicyInfo (om_Namespace (np_Meta np)) (om_Name (np_Meta np))
    (ls_MatchLabels (np_PodSelector np)) (egress_targets rts (mjoin (np_Egress np))).

(** ** The client *)

Record GVR := mkGVR { gvr_Group : string; gvr_Version : string; gvr_Resource : string }.

Record ClientSet := mkClientSet {
  list_namespaces : result (list Namespace);
  list_pods : string → result (list Pod);
  list_services : string → result (list KService);
  list_deployments : string → result (list Replicated);
  list_statefulsets : string → result (list Replicated);
  list_daemonsets : string → result (list DaemonSet);
  list_ingresses : string → result (list Ingress);
  list_networkpolicies : string → result (list NetworkPolicy);
}.

(** Cluster-wide listing of a custom resource. *)
Abbreviation DynamicClient := (GVR → result (list GoObj)).

Record Client := mkClient {
  cl_clientset : ClientSet;
  cl_dynamicClient : option DynamicClient;
  cl_concurrency : Z;
  cl_namespaceExclude : gset string;
  cl_namespaceInclude : gset string;
  cl_gitopsEnabled : bool;
}.

Record Options := mkOptions {
  opt_Concurrency : Z;
  opt_NamespaceExclude : list string;
  opt_NamespaceInclude : list string;
  opt_GitOpsEnabled : bool;
  opt_QPS : spec_float;
  opt_Burst : Z;
}.

Definition newNamespaceSet (names : list string) : gset string :=
  foldl (λ set ns,
    let ns := TrimSpace ns in
    if String.eqb ns EmptyString then set else set ∪ {[ns]}) ∅ names.

Definition NewClientFromInterfaces (cs : ClientSet) (dyn : option DynamicClient) (opts : Options) : Client :=
  let concurrency := if (opt_Concurrency opts <=? 0)%Z then 10%Z else opt_Concurrency opts in
  mkClient cs dyn concurrency (newNamespaceSet (opt_NamespaceExclude opts))
    (newNamespaceSet (opt_NamespaceInclude opts)) (opt_GitOpsEnabled opts).

(** What of a [rest.Config] [NewClient] changes; the rest is the text [rest_Host]. *)
Record RestConfig := mkRestConfig { rest_Host : string; rest_QPS : spec_float; rest_Burst : Z }.

(** The in-cluster configuration, else the one of the kubeconfig rules; the two
    constructors of client-go are parameters. *)
Definition NewClient (inCluster deferred : result RestConfig) (newForConfig : RestConfig → result ClientSet)
    (newDynamic : RestConfig → result DynamicClient) (opts : Options) : result Client :=
  cfg ←? (match inCluster with
          | Ok cfg => Ok cfg
          | Err _ => rwrap "failed to create kubernetes config" deferred
          end);
  let cfg := if f64_gt (opt_QPS opts) f64_zero
             then mkRestConfig (rest_Host cfg) (opt_QPS opts) (rest_Burst cfg) else cfg in
  let cfg := if (0 <? opt_Burst opts)%Z
             then mkRestConfig (rest_Host cfg) (rest_QPS cfg) (opt_Burst opts) else cfg in
  clientset ←? rwrap "failed to create kubernetes clientset" (newForConfig cfg);
  dynamicClient ←? rwrap "failed to create dynamic client" (newDynamic cfg);
  Ok (NewClientFromInterfaces clientset (Some dynamicClient) opts).

Definition shouldScanNamespace (c : Client) (name : string) : bool :=
  if Nat.ltb 0 (size (cl_namespaceInclude c)) then bool_decide (name ∈ cl_namespaceInclude c)
  else negb (bool_decide (name ∈ cl_namespaceExclude c)).

Definition ingressRouteResources : list GVR :=
  [ mkGVR "traefik.io" "v1alpha1" "ingressroutes";
    mkGVR "traefik.containo.us" "v1alpha1" "ingressroutes" ].

Definition gitOpsResources : list (string * GVR) :=
  [ ("Application", mkGVR "argoproj.io" "v1alpha1" "applications");
    ("HelmRelease", mkGVR "helm.toolkit.fluxcd.io" "v2" "helmreleases");
    ("GitRepository", mkGVR "source.toolkit.fluxcd.io" "v1" "gitrepositories");
    ("Kustomization", mkGVR "kustomize.toolkit.fluxcd.io" "v1" "kustomizations") ].

(** What a scanning goroutine appends under the mutex. *)
Definition append_local (snapshot local : K8sSnapshot) : K8sSnapshot :=
  mkK8sSnapshot (snap_Namespaces snapshot)
    (snap_Pods snapshot ++ snap_Pods local)
    (snap_Services snapshot ++ snap_Services local)
    (snap_Workloads snapshot ++ snap_Workloads local)
    (snap_Ingresses snapshot ++ snap_Ingresses local)
    (snap_IngressRoutes snapshot)
    (snap_NetPolicies snapshot ++ snap_NetPolicies local)
    (snap_GitOps snapshot).

(** The scan when the goroutines finish in the order [order]: the error group
    returns the first error. *)
Fixpoint scan_all (scan : string → result K8sSnapshot) (order : list string)
    (snapshot : K8sSnapshot) : result K8sSnapshot :=
  match order with
  | [] => Ok snapshot
  | ns :: rest =>
      local ←? scan ns;
      scan_all scan rest (append_local snapshot local)
  end.

(** Every range over a map is one of its own: the runtime of a namespace, of a
    network policy listed there and of an egress peer of that policy. *)
Abbreviation ScanRuntimes := (string → nat → nat → GoRuntime).

Section listing.
Context {U : Unstructured} (rts : ScanRuntimes).

(** The body of the loop over the items of one group; the state is
    [(result, seen)]. *)
Definition ingressroute_step (c : Client) (st : list IngressRouteInfo * gset string) (item : GoObj) :=
  let '(result, seen) := st in
  if negb (shouldScanNamespace c (GetNamespace item)) then st
  else
    let key := GetNamespace item +:+ "/" +:+ GetName item in
    if bool_decide (key ∈ seen) then st
    else (result ++ [ingressRouteInfoFrom item], seen ∪ {[key]}).

Definition listIngressRoutes (c : Client) : list IngressRouteInfo :=
  match cl_dynamicClient c with
  | None => []
  | Some dyn =>
      (foldl (λ st gvr,
         match dyn gvr with
         | Err _ => st
         | Ok items => foldl (ingressroute_step c) st items
         end) ([], ∅) ingressRouteResources).1
  end.

Definition listGitOps (c : Client) : list GitOpsSourceInfo :=
  match cl_dynamicClient c with
  | None => []
  | Some dyn =>
      foldl (λ result '(kind, gvr),
        match dyn gvr with
        | Err _ => result
        | Ok items =>
            result ++ ((λ item, mkGitOpsSourceInfo kind (GetNamespace item) (GetName item) item)
                         <$> items)
        end) [] gitOpsResources
  end.

(** The seven listings of one namespace; the first error is returned. *)
Definition scanNamespace (c : Client) (ns : string) : result K8sSnapshot :=
  let cs := cl_clientset c in
  pods ←? rwrap ("listing pods in namespace " +:+ ns) (list_pods cs ns);
  services ←? rwrap ("listing services in namespace " +:+ ns) (list_services cs ns);
  deployments ←? rwrap ("listing deployments in namespace " +:+ ns) (list_deployments cs ns);
  statefulSets ←? rwrap ("listing statefulsets in namespace " +:+ ns) (list_statefulsets cs ns);
  daemonSets ←? rwrap ("listing daemonsets in namespace " +:+ ns) (list_daemonsets cs ns);
  ingresses ←? rwrap ("listing ingresses in namespace " +:+ ns) (list_ingresses cs ns);
  netpols ←? rwrap ("listing networkpolicies in namespace " +:+ ns) (list_networkpolicies cs ns);
  Ok (mkK8sSnapshot [] (podInfoFrom <$> pods) (serviceInfoFrom <$> services)
        ((deploymentInfoFrom <$> deployments) ++ (statefulSetInfoFrom <$> statefulSets) ++
         (daemonSetInfoFrom <$> daemonSets))
        (ingressInfoFrom <$> ingresses) [] (imap (λ i, networkPolicyInfoFrom (rts ns i)) netpols) []).

Definition scan_list (c : Client) (items : list Namespace) : list Namespace :=
  List.filter (λ ns, shouldScanNamespace c (ns_Name ns)) items.

(** [ListResources] with the goroutines finishing in the order [sched] puts
    them in. *)
Definition ListResources (c : Client) (sched : list string → list string) : result K8sSnapshot :=
  items ←? rwrap "listing namespaces" (list_namespaces (cl_clientset c));
  let scanList := scan_list c items in
  let snapshot :=
    mkK8sSnapshot (namespaceInfoFrom <$> scanList) [] [] [] [] [] [] [] in
  snapshot ←? scan_all (scanNamespace c) (sched (ns_Name <$> scanList)) snapshot;
  let gitops := if cl_gitopsEnabled c then listGitOps c else [] in
  Ok (mkK8sSnapshot (snap_Namespaces snapshot) (snap_Pods snapshot) (snap_Services snapshot)
        (snap_Workloads snapshot) (snap_Ingresses snapshot) (listIngressRoutes c)
        (snap_NetPolicies snapshot) gitops).
End listing.

(** ** The error group as a transition system

    A state is the namespaces whose goroutine [g.Go] has not started, in order,
    those whose goroutine runs, at most [limit] of them, the shared snapshot and
    the error the group recorded.  Once there is an error the group's context is
    cancelled, and a goroutine may then end with any error; the loop goes on
    starting the others. *)

Record scan_state := mkScanState {
  sc_queue : list string;
  sc_running : list string;
  sc_snapshot : K8sSnapshot;
  sc_err : option string;
}.

Inductive scan_step (limit : nat) (scan : string → result K8sSnapshot) : scan_state → scan_state → Prop :=
  | scan_step_go ns q r snap err :
      length r < limit →
      scan_step limit scan (mkScanState (ns :: q) r snap err) (mkScanState q (r ++ [ns]) snap err)
  | scan_step_ok q r1 ns r2 snap err local :
      scan ns = Ok local →
      scan_step limit scan (mkScanState q (r1 ++ ns :: r2) snap err)
        (mkScanState q (r1 ++ r2) (append_local snap local) err)
  | scan_step_err q r1 ns r2 snap err e :
      scan ns = Err e →
      scan_step limit scan (mkScanState q (r1 ++ ns :: r2) snap err)
        (mkScanState q (r1 ++ r2) snap (Some (default e err)))
  | scan_step_cancelled q r1 ns r2 snap e :
      scan_step limit scan (mkScanState q (r1 ++ ns :: r2) snap (Some e))
        (mkScanState q (r1 ++ r2) snap (Some e)).

(** [g.SetLimit(c.concurrency)]. *)
Definition scan_limit (c : Client) : nat := Z.to_nat (cl_concurrency c).

Definition scan_start (L : list string) (s0 : K8sSnapshot) : scan_state := mkScanState L [] s0 None.

Definition scan_done (st : scan_state) : Prop := sc_queue st = [] ∧ sc_running st = [].

(** What [Wait] leaves: the error when there is one, else the snapshot. *)
Definition scan_outcome (st : scan_state) : result K8sSnapshot :=
  match sc_err st with Some e => Err e | None => Ok (sc_snapshot st) end.

(** ** The namespace filter *)

Lemma newNamespaceSet_spec names ns :
  ns ∈ newNamespaceSet names ↔ ns ≠ EmptyString ∧ ∃ n, n ∈ names ∧ TrimSpace n = ns.
Proof.
  assert (∀ set : gset string, ns ∈ foldl (λ set ns,
    let ns := TrimSpace ns in
    if String.eqb ns EmptyString then set else set ∪ {[ns]}) set names ↔
    ns ∈ set ∨ (ns ≠ EmptyString ∧ ∃ n, n ∈ names ∧ TrimSpace n = ns)) as H.
  { induction names as [|n names IH]; intros set; cbn [foldl].
    - set_solver.
    - rewrite IH. setoid_rewrite elem_of_cons.
      destruct (String.eqb_spec (TrimSpace n) EmptyString) as [E|E].
      + naive_solver.
      + rewrite elem_of_union, elem_of_singleton. naive_solver. }
  unfold newNamespaceSet. rewrite H. set_solver.
Qed.

(** With a usable include list exactly the listed namespaces are in scope;
    without one every namespace but the excluded ones is.  List entries are
    trimmed and blank entries ignored. *)
Theorem shouldScanNamespace_spec cs dyn (opts : Options) (name : string) :
  let c := NewClientFromInterfaces cs dyn opts in
  let listed l := name ≠ EmptyString ∧ ∃ n, n ∈ l ∧ TrimSpace n = name in
  shouldScanNamespace c name = true ↔
  if bool_decide (Exists (λ n, TrimSpace n ≠ EmptyString) (opt_NamespaceInclude opts))
  then listed (opt_NamespaceInclude opts)
  else ¬ listed (opt_NamespaceExclude opts).
Proof.
  cbn zeta. unfold shouldScanNamespace. cbn [NewClientFromInterfaces cl_namespaceInclude cl_namespaceExclude].
  destruct (bool_decide (Exists _ _)) eqn:E; breflect.
  - apply Exists_exists in E as (n & Hn & Hne).
    assert (TrimSpace n ∈ newNamespaceSet (opt_NamespaceInclude opts)) as Hin.
    { apply newNamespaceSet_spec. eauto. }
    destruct (Nat.ltb_spec 0 (size (newNamespaceSet (opt_NamespaceInclude opts)))) as [_|Hz].
    + rewrite bool_decide_eq_true. apply newNamespaceSet_spec.
    + assert (newNamespaceSet (opt_NamespaceInclude opts) ≡ ∅) as He by (apply size_empty_iff; lia).
      set_solver.
  - assert (newNamespaceSet (opt_NamespaceInclude opts) = ∅) as ->.
    { apply set_eq. intros x. rewrite newNamespaceSet_spec. split; [|set_solver].
      intros (Hx & n & Hn & <-). destruct E. apply Exists_exists. eauto. }
    rewrite size_empty. simpl. rewrite negb_true_iff, bool_decide_eq_false.
    by rewrite newNamespaceSet_spec.
Qed.

(** ** Schedules *)

Lemma scan_all_app scan a b s :
  scan_all scan (a ++ b) s = rbind (scan_all scan a s) (scan_all scan b).
Proof.
  revert s. induction a as [|ns a IH]; intros s; [done|]. simpl.
  destruct (scan ns); simpl; [apply IH|done].
Qed.

(** The namespaces of a list at some positions. *)
Definition picks (L : list string) (positions : list nat) : list string :=
  (λ i, default EmptyString (L !! i)) <$> positions.

(** An order of completion that [limit] allows: the goroutine that ends as the
    [k]-th was started while fewer than [limit] others ran. *)
Definition within (limit : nat) (order : list nat) : Prop := ∀ k i, order !! k = Some i → i < k + limit.

Lemma within_snoc limit order i : within limit order → i < length order + limit → within limit (order ++ [i]).
Proof.
  intros H Hi k j. rewrite lookup_app_Some. intros [?|(Hk & Hj)]; [by apply H|].
  apply list_lookup_singleton_Some in Hj as [? ->]. lia.
Qed.

Lemma picks_all L : picks L (seq 0 (length L)) = L.
Proof.
  apply list_eq. intros i. unfold picks. rewrite list_lookup_fmap. destruct (decide (i < length L)) as [Hi|Hi].
  - rewrite lookup_seq_lt by done. simpl. by destruct (lookup_lt_is_Some_2 _ _ Hi) as [x ->].
  - by rewrite lookup_seq_ge, lookup_ge_None_2 by lia.
Qed.

(** One goroutine at a time: they end in the order of the list. *)
Lemma within_one order n : order ≡ₚ seq 0 n → within 1 order → order = seq 0 n.
Proof.
  revert order. induction n as [|n IH]; intros order Hp Hw; [by apply Permutation_nil_r in Hp|].
  pose proof (Permutation_length Hp) as Hlen. rewrite length_seq in Hlen.
  destruct order as [|x order _] using rev_ind; [done|]. rewrite length_app in Hlen. simpl in Hlen.
  assert (within 1 order) as Hw' by (intros k i Hk; apply Hw; by apply lookup_app_l_Some).
  assert (n ∉ order) as Hn.
  { intros (k & Hk)%list_elem_of_lookup. pose proof (Hw' k n Hk). apply lookup_lt_Some in Hk. lia. }
  rewrite seq_S in *. simpl in *. assert (n ∈ order ++ [x]) as Hx by (rewrite Hp; set_solver).
  assert (x = n) as -> by set_solver. f_equal. apply IH; [|done]. by apply Permutation_app_inv_r in Hp.
Qed.

Lemma drop_picks (L : list string) n ns q : drop n L = ns :: q → n < length L ∧ picks L [n] = [ns] ∧ drop (S n) L = q.
Proof.
  intros H. assert (L !! n = Some ns) as Hn by (by rewrite <- (Nat.add_0_r n), <- lookup_drop, H).
  split; [by eapply lookup_lt_Some|]. unfold picks. simpl. rewrite Hn. split; [done|].
  rewrite <- (Nat.add_1_r n), <- drop_drop, H. done.
Qed.

(** The positions done so far, in order of completion, explain the state. *)
Definition scan_inv (limit : nat) (scan : string → result K8sSnapshot) (L : list string) (s0 : K8sSnapshot)
    (st : scan_state) : Prop :=
  ∃ order running n, order ++ running ≡ₚ seq 0 n ∧ n ≤ length L ∧ sc_queue st = drop n L ∧
    sc_running st = picks L running ∧ length running ≤ limit ∧ within limit order ∧
    scan_all scan (picks L order) s0 = scan_outcome st.

(** A goroutine ends. *)
Lemma scan_inv_end limit scan L s0 q r1 ns r2 snap err st' :
  scan_inv limit scan L s0 (mkScanState q (r1 ++ ns :: r2) snap err) →
  sc_queue st' = q → sc_running st' = r1 ++ r2 →
  match err with Some _ => sc_err st' = err | None => scan_all scan [ns] snap = scan_outcome st' end →
  scan_inv limit scan L s0 st'.
Proof.
  intros (order & running & n & Hp & Hn & Hq & Hr & Hl & Hw & Ho) Eq Er Hout. simpl in *. unfold picks in Hr.
  symmetry in Hr. apply fmap_app_inv in Hr as (run1 & run' & E1 & Hr & ->).
  symmetry in Hr. apply fmap_cons_inv in Hr as (i & run2 & E & E2 & ->).
  assert ((order ++ [i]) ++ run1 ++ run2 ≡ₚ seq 0 n) as Hp'.
  { rewrite <- Hp, <- app_assoc. simpl. by rewrite Permutation_middle. }
  exists (order ++ [i]), (run1 ++ run2), n. split_and!; [done|done|congruence| | | |].
  - rewrite Er, E1, E2. symmetry. apply fmap_app.
  - rewrite length_app in *. simpl in Hl. lia.
  - apply within_snoc; [done|]. apply Permutation_length in Hp. rewrite length_seq, length_app in Hp.
    assert (i ∈ seq 0 n) as Hi by (rewrite <- Hp'; set_solver). apply elem_of_seq in Hi. lia.
  - unfold picks. rewrite fmap_app. fold (picks L order). rewrite scan_all_app, Ho. simpl.
    rewrite E in Hout. unfold scan_outcome in *. simpl in *. destruct err as [e|]; simpl; [by rewrite Hout|done].
Qed.

Lemma scan_inv_step limit scan L s0 st st' :
  scan_inv limit scan L s0 st → scan_step limit scan st st' → scan_inv limit scan L s0 st'.
Proof.
  intros Hi Hstep. destruct Hstep as [ns q r snap err Hl|q r1 ns r2 snap err local Hs|q r1 ns r2 snap err e Hs|
    q r1 ns r2 snap e].
  - destruct Hi as (order & running & n & Hp & Hn & Hq & Hr & _ & Hw & Ho). simpl in *.
    destruct (drop_picks L n ns q) as (Hn' & Hpick & Hd); [done|].
    exists order, (running ++ [n]), (S n). split_and!; [|lia|done| | |done|done].
    + by rewrite seq_S, app_assoc, Hp.
    + simpl. rewrite Hr. unfold picks. by rewrite fmap_app, <- Hpick.
    + rewrite length_app. rewrite Hr in Hl. unfold picks in Hl. rewrite length_fmap in Hl. simpl. lia.
  - eapply scan_inv_end; [exact Hi|done..|]. simpl. rewrite Hs. by destruct err.
  - eapply scan_inv_end; [exact Hi|done..|]. simpl. rewrite Hs. by destruct err.
  - by eapply scan_inv_end; [exact Hi|..].
Qed.

Lemma scan_inv_rtc limit scan L s0 st :
  rtc (scan_step limit scan) (scan_start L s0) st → scan_inv limit scan L s0 st.
Proof.
  revert st. apply rtc_ind_r; [|intros; by eapply scan_inv_step].
  exists [], [], 0. split_and!; simpl; try done; try lia.
Qed.

(** *** Every order the limit allows is a run *)

(** What a goroutine that ends by itself leaves. *)
Definition end_one (scan : string → result K8sSnapshot) (ns : string) (snap : K8sSnapshot)
    (err : option string) : K8sSnapshot * option string :=
  match scan ns with
  | Ok local => (append_local snap local, err)
  | Err e => (snap, Some (default e err))
  end.

Lemma scan_end limit scan q r1 ns r2 snap err :
  scan_step limit scan (mkScanState q (r1 ++ ns :: r2) snap err)
    (mkScanState q (r1 ++ r2) (end_one scan ns snap err).1 (end_one scan ns snap err).2).
Proof. unfold end_one. destruct (scan ns) eqn:E; simpl; [by apply scan_step_ok|by apply scan_step_err]. Qed.

Lemma end_one_outcome scan ns snap err :
  let '(snap', err') := end_one scan ns snap err in
  rbind (scan_outcome (mkScanState [] [] snap err)) (scan_all scan [ns]) = scan_outcome (mkScanState [] [] snap' err').
Proof. unfold end_one, scan_outcome. destruct err as [e|], (scan ns) eqn:E; simpl; by rewrite ?E. Qed.

(** The group starts all it can: until the queue is empty or the limit reached. *)
Lemma scan_fill limit scan L n running snap err :
  n ≤ length L → length running ≤ limit →
  ∃ m, n ≤ m ≤ length L ∧ (m = length L ∨ length (running ++ seq n (m - n)) = limit) ∧
    length (running ++ seq n (m - n)) ≤ limit ∧
    rtc (scan_step limit scan) (mkScanState (drop n L) (picks L running) snap err)
      (mkScanState (drop m L) (picks L (running ++ seq n (m - n))) snap err).
Proof.
  remember (limit - length running) as k eqn:Ek. revert n running Ek.
  induction k as [|k IH]; intros n running Ek Hn Hl.
  { exists n. rewrite Nat.sub_diag. simpl. rewrite app_nil_r. split_and!; [lia..| |lia|apply rtc_refl]. right. lia. }
  destruct (drop n L) as [|ns q] eqn:Ed.
  { assert (length L ≤ n) by (by apply drop_nil_inv). exists n. rewrite Nat.sub_diag. simpl.
    rewrite app_nil_r, Ed. split_and!; [lia..| |done|apply rtc_refl]. left. lia. }
  destruct (drop_picks L n ns q Ed) as (Hn' & Hp & Hd).
  destruct (IH (S n) (running ++ [n])) as (m & Hm & H1 & H2 & Hr); [rewrite ?length_app; simpl; lia..|].
  assert ((running ++ [n]) ++ seq (S n) (m - S n) = running ++ seq n (m - n)) as E.
  { rewrite <- app_assoc. f_equal. replace (m - n) with (S (m - S n)) by lia. done. }
  rewrite E in *. exists m. split_and!; [lia..|done|done|]. eapply rtc_l; [|exact Hr].
  unfold picks. rewrite fmap_app. fold (picks L running) (picks L [n]). rewrite Hp, Hd. apply scan_step_go.
  unfold picks. rewrite length_fmap. lia.
Qed.

(** From a saturated group, the goroutines end in any order within the limit. *)
Lemma scan_run_order limit scan L order n running snap err :
  running ++ seq n (length L - n) ≡ₚ order → n ≤ length L → length running ≤ limit →
  (n = length L ∨ length running = limit) →
  (∀ k i, order !! k = Some i → i < k + (n - length running) + limit) → length running ≤ n →
  ∃ st, rtc (scan_step limit scan) (mkScanState (drop n L) (picks L running) snap err) st ∧ scan_done st ∧
    scan_outcome st = rbind (scan_outcome (mkScanState [] [] snap err)) (scan_all scan (picks L order)).
Proof.
  revert n running snap err. induction order as [|i order IH]; intros n running snap err Hp Hn Hl Hsat Hw Hf.
  { apply Permutation_nil_r, app_eq_nil in Hp as [-> Hq]. apply (f_equal length) in Hq. rewrite length_seq in Hq.
    exists (mkScanState (drop n L) [] snap err). split_and!; [apply rtc_refl|split; [|done]|].
    - simpl. apply drop_ge. simpl in Hq. lia.
    - unfold scan_outcome. simpl. by destruct err. }
  assert (i ∈ running) as (r1 & r2 & ->)%list_elem_of_split.
  { assert (i ∈ running ++ seq n (length L - n)) as Hi by (rewrite Hp; left).
    apply elem_of_app in Hi as [?|Hi%elem_of_seq]; [done|]. pose proof (Hw 0 i eq_refl). lia. }
  set (ns := default EmptyString (L !! i)). rewrite length_app in *. simpl in *.
  assert (r1 ++ r2 ++ seq n (length L - n) ≡ₚ order) as Hp'.
  { rewrite <- app_assoc in Hp. simpl in Hp. rewrite <- Permutation_middle in Hp. by apply Permutation_cons_inv in Hp. }
  destruct (end_one scan ns snap err) as [snap' err'] eqn:E1.
  destruct (scan_fill limit scan L n (r1 ++ r2) snap' err') as (m & Hm & H1 & H2 & Hr); [done|rewrite length_app; lia|].
  destruct (IH m ((r1 ++ r2) ++ seq n (m - n)) snap' err') as (st & Hst & Hd & Ho).
  - rewrite <- Hp', <- !app_assoc. replace (length L - n) with ((m - n) + (length L - m)) by lia.
    rewrite seq_app. by replace (n + (m - n)) with m by lia.
  - lia.
  - done.
  - done.
  - intros k j Hj. pose proof (Hw (S k) j Hj) as H. rewrite !length_app, length_seq. lia.
  - rewrite !length_app, length_seq. lia.
  - exists st. split_and!; [|done|].
    + unfold picks at 1. rewrite fmap_app, fmap_cons. fold ns (picks L r1) (picks L r2).
      pose proof (scan_end limit scan (drop n L) (picks L r1) ns (picks L r2) snap err) as He. rewrite E1 in He.
      eapply rtc_l; [exact He|]. simpl. unfold picks at 1 2. rewrite <- fmap_app. etrans; [exact Hr|exact Hst].
    + rewrite Ho. pose proof (end_one_outcome scan ns snap err) as H. rewrite E1 in H. rewrite <- H.
      destruct (scan_outcome (mkScanState [] [] snap err)) as [s|e]; [|done]. symmetry.
      apply (scan_all_app scan [ns] (picks L order)).
Qed.

(** A run with a given order of completion. *)
Lemma scan_run limit scan L s0 order :
  order ≡ₚ seq 0 (length L) → within limit order →
  ∃ st, rtc (scan_step limit scan) (scan_start L s0) st ∧ scan_done st ∧
    scan_outcome st = scan_all scan (picks L order) s0.
Proof.
  intros Hp Hw. destruct (scan_fill limit scan L 0 [] s0 None) as (m & Hm & H1 & H2 & Hr); [simpl; lia..|].
  rewrite Nat.sub_0_r in *. simpl in *. rewrite length_seq in *.
  destruct (scan_run_order limit scan L order m (seq 0 m) s0 None) as (st & Hst & Hd & Ho).
  + rewrite Hp. pose proof (seq_app m (length L - m) 0) as E. simpl in E. rewrite <- E.
    by replace (m + (length L - m)) with (length L) by lia.
  + lia.
  + by rewrite length_seq.
  + by rewrite length_seq.
  + intros k i Hk. rewrite length_seq. pose proof (Hw k i Hk). lia.
  + by rewrite length_seq.
  + exists st. split_and!; [by etrans|done|done].
Qed.

(** C33: the error group.  Whatever way the goroutines interleave under the
    concurrency bound (cancellation after a first error included), the outcome once
    all have ended is that of scanning the namespaces one after the other in an
    order in which the [k]-th to end is among the first [k + limit] listed; and
    every such order is a run.  With a bound of one the only order is the listing's;
    under a positive bound, which every client has, some run ends them all. *)
Theorem scan_refinement (limit : nat) (scan : string → result K8sSnapshot) (L : list string) (s0 : K8sSnapshot)
    (r : result K8sSnapshot) :
  ((∃ st, rtc (scan_step limit scan) (scan_start L s0) st ∧ scan_done st ∧ scan_outcome st = r) ↔
   (∃ order, order ≡ₚ seq 0 (length L) ∧ within limit order ∧ scan_all scan (picks L order) s0 = r)) ∧
  (∀ order, order ≡ₚ seq 0 (length L) → within 1 order → picks L order = L) ∧
  (0 < limit → ∃ st, rtc (scan_step limit scan) (scan_start L s0) st ∧ scan_done st) ∧
  (∀ cs dyn opts, 0 < scan_limit (NewClientFromInterfaces cs dyn opts)).
Proof.
  split_and!; [split|..].
  - intros (st & (order & running & n & Hp & Hn & Hq & Hr & _ & Hw & Ho)%scan_inv_rtc & [Hq0 Hr0] & <-).
    rewrite Hr0 in Hr. symmetry in Hr. apply fmap_nil_inv in Hr as ->. rewrite app_nil_r in Hp.
    rewrite Hq0 in Hq. symmetry in Hq. apply drop_nil_inv in Hq. exists order.
    by replace (length L) with n by lia.
  - intros (order & Hp & Hw & <-). by apply scan_run.
  - intros order Hp Hw. rewrite (within_one order (length L) Hp Hw). apply picks_all.
  - intros Hl. destruct (scan_run limit scan L s0 (seq 0 (length L))) as (st & Hst & Hd & _); [done| |by exists st].
    intros k i [-> _]%lookup_seq. lia.
  - intros cs dyn opts. unfold scan_limit, NewClientFromInterfaces. simpl.
    destruct (Z.leb_spec (opt_Concurrency opts) 0); lia.
Qed.

(** The scan ends: under a positive bound a state that is not done can step, and
    every step starts or ends a goroutine, so a run from [L] takes exactly
    [2 * length L] steps. *)
Theorem scan_terminates (limit : nat) (scan : string → result K8sSnapshot) (st : scan_state) :
  (0 < limit → ¬ scan_done st → ∃ st', scan_step limit scan st st') ∧
  (∀ n st', nsteps (scan_step limit scan) n st st' →
            2 * length (sc_queue st) + length (sc_running st) =
            n + (2 * length (sc_queue st') + length (sc_running st'))).
Proof.
  split.
  - destruct st as [q [|ns r] snap err]; intros Hl Hd.
    + destruct q as [|ns q]; [by destruct Hd|]. eexists. by apply scan_step_go.
    + eexists. apply (scan_end _ _ q [] ns r).
  - intros n st'. induction 1 as [|n st1 st2 st3 Hs Hn IH]; [done|].
    destruct Hs; simpl in *; rewrite length_app in *; simpl in *; lia.
Qed.

(** *** Snapshots up to the order of the scan *)

Record snap_equiv (s1 s2 : K8sSnapshot) : Prop := {
  se_Namespaces : snap_Namespaces s1 = snap_Namespaces s2;
  se_Pods : snap_Pods s1 ≡ₚ snap_Pods s2;
  se_Services : snap_Services s1 ≡ₚ snap_Services s2;
  se_Workloads : snap_Workloads s1 ≡ₚ snap_Workloads s2;
  se_Ingresses : snap_Ingresses s1 ≡ₚ snap_Ingresses s2;
  se_IngressRoutes : snap_IngressRoutes s1 = snap_IngressRoutes s2;
  se_NetPolicies : snap_NetPolicies s1 ≡ₚ snap_NetPolicies s2;
  se_GitOps : snap_GitOps s1 = snap_GitOps s2;
}.

#[export] Instance snap_equiv_equiv : Equivalence snap_equiv.
Proof.
  split.
  - by intros s; split.
  - intros s1 s2 []. by split.
  - intros s1 s2 s3 [] []. split; by etrans.
Qed.

#[export] Instance append_local_proper :
  Proper (snap_equiv ==> snap_equiv ==> snap_equiv) append_local.
Proof.
  intros s1 s2 [] t1 t2 []. split; simpl; try done; by f_equiv.
Qed.

Lemma append_local_comm s a b :
  snap_equiv (append_local (append_local s a) b) (append_local (append_local s b) a).
Proof. split; simpl; try done; rewrite <- !app_assoc; f_equiv; apply Permutation_app_comm. Qed.

(** Two results agree: equivalent snapshots, or both an error. *)
Definition result_equiv (r1 r2 : result K8sSnapshot) : Prop :=
  match r1, r2 with
  | Ok s1, Ok s2 => snap_equiv s1 s2
  | Err _, Err _ => True
  | _, _ => False
  end.

Lemma result_equiv_trans r1 r2 r3 : result_equiv r1 r2 → result_equiv r2 r3 → result_equiv r1 r3.
Proof. destruct r1, r2, r3; simpl; try done. by etrans. Qed.

Lemma scan_all_proper scan order s1 s2 :
  snap_equiv s1 s2 → result_equiv (scan_all scan order s1) (scan_all scan order s2).
Proof.
  revert s1 s2. induction order as [|ns order IH]; intros s1 s2 Hs; [done|]. simpl.
  destruct (scan ns) as [local|e]; simpl; [|done]. apply IH. by rewrite Hs.
Qed.

Lemma scan_all_perm scan o1 o2 s :
  o1 ≡ₚ o2 → result_equiv (scan_all scan o1 s) (scan_all scan o2 s).
Proof.
  intros Hp. revert s. induction Hp as [|ns o1 o2 _ IH|n1 n2 o|o1 o2 o3 _ IH1 _ IH2]; intros s.
  - done.
  - simpl. destruct (scan ns); simpl; [apply IH|done].
  - simpl. destruct (scan n1), (scan n2); simpl; try done.
    apply scan_all_proper, append_local_comm.
  - by eapply result_equiv_trans.
Qed.

(** C1: [ListResources] does not depend on the schedule beyond the order of the
    scanned lists: two schedules either both fail or give snapshots equal up to
    permutation of pods, services, workloads, ingresses and network policies. *)
Theorem ListResources_schedule (U : Unstructured) (rts : ScanRuntimes) (c : Client)
    (sched1 sched2 : list string → list string) :
  (∀ l, sched1 l ≡ₚ l) → (∀ l, sched2 l ≡ₚ l) →
  result_equiv (ListResources rts c sched1) (ListResources rts c sched2).
Proof.
  intros H1 H2. unfold ListResources. destruct (list_namespaces _) as [items|e]; [|done]. simpl.
  match goal with |- result_equiv (rbind (scan_all ?s (sched1 ?l) ?s0) _) _ =>
    pose proof (scan_all_perm s (sched1 l) (sched2 l) s0 ltac:(by rewrite H1, H2)) as H end.
  destruct (scan_all _ (sched1 _) _), (scan_all _ (sched2 _) _); simpl in *; try done.
  destruct H. by split.
Qed.

Definition demo_clientset : ClientSet := mkClientSet
  (Ok [mkNamespace "b" (Some {[ "dfds.cloud/capability" := "b" ]}); mkNamespace "a" None;
       mkNamespace "kube-system" None])
  (λ ns, Ok []) 
  (λ ns, Ok [mkKService (mkObjectMeta ns "svc" None None) "ClusterIP" "10.0.0.1"
                (Some {[ "app" := "x" ]}) [mkKServicePort "http" 80 "8080" "TCP"]])
  (λ ns, Ok [mkReplicated (mkObjectMeta ns "web" None None) (Some 2%Z) None
                (Some {[ "app" := "x" ]}) [] 1])
  (λ ns, Ok []) (λ ns, Ok []) (λ ns, Ok []) (λ ns, Ok []).

Definition demo_client : Client :=
  NewClientFromInterfaces demo_clientset None
    (mkOptions 0 [" kube-system "; ""] [] true f64_zero 0).

Lemma ListResources_schedule_witness :
  result_equiv
    (ListResources (U := tree_unstructured) (λ _ _ _, insertion_runtime) demo_client (λ l, l))
    (ListResources (U := tree_unstructured) (λ _ _ _, insertion_runtime) demo_client (@rev string)).
Proof.
  apply (ListResources_schedule tree_unstructured (λ _ _ _, insertion_runtime) demo_client (λ l, l) (@rev string)).
  - intros l. reflexivity.
  - intros l. symmetry. apply Permutation_rev.
Defined.

Example demo_scan :
  match ListResources (U := tree_unstructured) (λ _ _ _, insertion_runtime) demo_client (@rev string) with
  | Ok s => (nsi_Name <$> snap_Namespaces s, wl_Namespace <$> snap_Workloads s)
  | Err _ => ([], [])
  end = (["b"; "a"], ["a"; "b"]).
Proof. vm_compute. reflexivity. Qed.

(** ** Scope *)

(** Listing the objects of a namespace lists objects of that namespace. *)
Record api_scoped (cs : ClientSet) : Prop := {
  as_pods ns l : list_pods cs ns = Ok l → Forall (λ x, om_Namespace (pod_Meta x) = ns) l;
  as_services ns l : list_services cs ns = Ok l → Forall (λ x, om_Namespace (ks_Meta x) = ns) l;
  as_deployments ns l : list_deployments cs ns = Ok l → Forall (λ x, om_Namespace (rp_Meta x) = ns) l;
  as_statefulsets ns l : list_statefulsets cs ns = Ok l → Forall (λ x, om_Namespace (rp_Meta x) = ns) l;
  as_daemonsets ns l : list_daemonsets cs ns = Ok l → Forall (λ x, om_Namespace (dm_Meta x) = ns) l;
  as_ingresses ns l : list_ingresses cs ns = Ok l → Forall (λ x, om_Namespace (ing_Meta x) = ns) l;
  as_networkpolicies ns l : list_networkpolicies cs ns = Ok l →
    Forall (λ x, om_Namespace (np_Meta x) = ns) l;
}.

(** Every entry of the snapshot but the GitOps resources is of a namespace [P]. *)
Record in_scope (P : string → Prop) (s : K8sSnapshot) : Prop := {
  is_Namespaces : Forall (λ x, P (nsi_Name x)) (snap_Namespaces s);
  is_Pods : Forall (λ x, P (pi_Namespace x)) (snap_Pods s);
  is_Services : Forall (λ x, P (si_Namespace x)) (snap_Services s);
  is_Workloads : Forall (λ x, P (wl_Namespace x)) (snap_Workloads s);
  is_Ingresses : Forall (λ x, P (ii_Namespace x)) (snap_Ingresses s);
  is_IngressRoutes : Forall (λ x, P (ir_Namespace x)) (snap_IngressRoutes s);
  is_NetPolicies : Forall (λ x, P (npi_Namespace x)) (snap_NetPolicies s);
}.

Lemma in_scope_append P s local :
  in_scope P s → in_scope P local → in_scope P (append_local s local).
Proof. intros [] []. split; simpl; rewrite ?Forall_app; done. Qed.

Lemma in_scope_scan_all P scan order s s' :
  in_scope P s → (∀ ns local, ns ∈ order → scan ns = Ok local → in_scope P local) →
  scan_all scan order s = Ok s' → in_scope P s'.
Proof.
  revert s. induction order as [|ns order IH]; intros s Hs Hscan; simpl.
  - by intros [= <-].
  - intros (local & Hl & Hrest)%rbind_Ok. eapply IH; [|intros ns' l ?; apply Hscan; by right|done].
    apply in_scope_append; [done|]. apply (Hscan ns); [left|done].
Qed.

Lemma ii_Namespace_from ing : ii_Namespace (ingressInfoFrom ing) = om_Namespace (ing_Meta ing).
Proof. unfold ingressInfoFrom. by destruct (foldl _ _ _). Qed.

Lemma Forall_imap_impl {A B} (P : A → Prop) (Q : B → Prop) (f : nat → A → B) l :
  Forall P l → (∀ i x, P x → Q (f i x)) → Forall Q (imap f l).
Proof.
  intros Hl HQ. apply Forall_forall. intros y (i & x & -> & Hx)%elem_of_lookup_imap. apply HQ.
  rewrite Forall_lookup in Hl. by eapply Hl.
Qed.

(** Moves a [Forall] on the converted objects to the objects. *)
Ltac scope_fmap :=
  rewrite ?Forall_app, ?Forall_fmap; split_and?;
  match goal with
  | H : Forall _ ?l |- Forall _ ?l => apply (Forall_impl _ _ _ H)
  end; let x := fresh in let Hx := fresh in
  intros x Hx; symmetry; cbn; rewrite ?ii_Namespace_from; exact Hx.

Section scope.
Context {U : Unstructured} (rts : ScanRuntimes) (c : Client).

Lemma scanNamespace_scope ns local :
  api_scoped (cl_clientset c) → scanNamespace rts c ns = Ok local → in_scope (eq ns) local.
Proof.
  intros Ha. unfold scanNamespace.
  intros (pods & H1%rwrap_Ok%(as_pods _ Ha) & H)%rbind_Ok. revert H.
  intros (svcs & H2%rwrap_Ok%(as_services _ Ha) & H)%rbind_Ok. revert H.
  intros (deps & H3%rwrap_Ok%(as_deployments _ Ha) & H)%rbind_Ok. revert H.
  intros (ssets & H4%rwrap_Ok%(as_statefulsets _ Ha) & H)%rbind_Ok. revert H.
  intros (dsets & H5%rwrap_Ok%(as_daemonsets _ Ha) & H)%rbind_Ok. revert H.
  intros (ings & H6%rwrap_Ok%(as_ingresses _ Ha) & H)%rbind_Ok. revert H.
  intros (nps & H7%rwrap_Ok%(as_networkpolicies _ Ha) & [= <-])%rbind_Ok.
  split; simpl; first [exact (Forall_nil_2 _) | scope_fmap | idtac].
  apply (Forall_imap_impl _ _ _ _ H7). by intros i x <-.
Qed.

(** *** The listing of IngressRoutes *)

Definition route_key (i : IngressRouteInfo) : string := ir_Namespace i +:+ "/" +:+ ir_Name i.

Definition ir_inv (st : list IngressRouteInfo * gset string) : Prop :=
  NoDup (route_key <$> st.1) ∧ (∀ k, k ∈ st.2 ↔ k ∈ route_key <$> st.1) ∧
  Forall (λ i, shouldScanNamespace c (ir_Namespace i) = true) st.1.

Lemma ingressroute_step_inv st item : ir_inv st → ir_inv (ingressroute_step c st item).
Proof.
  destruct st as [result seen]. intros (Hnd & Hseen & Hall). unfold ingressroute_step.
  destruct (shouldScanNamespace c (GetNamespace item)) eqn:Es; simpl; [|done].
  case_bool_decide as Hk; [done|]. unfold ir_inv. simpl. rewrite fmap_app. simpl.
  split_and!.
  - apply NoDup_app. split_and!; [done| |apply NoDup_singleton].
    intros k Hk1 ->%list_elem_of_singleton. apply Hk. by apply Hseen.
  - intros k. specialize (Hseen k). simpl in Hseen.
    rewrite elem_of_union, elem_of_singleton, elem_of_app, list_elem_of_singleton, Hseen. done.
  - apply Forall_app. split; [done|]. by repeat constructor.
Qed.

Lemma listIngressRoutes_inv :
  NoDup (route_key <$> listIngressRoutes c) ∧
  Forall (λ i, shouldScanNamespace c (ir_Namespace i) = true) (listIngressRoutes c).
Proof.
  unfold listIngressRoutes. destruct (cl_dynamicClient c) as [dyn|]; [|by repeat constructor].
  match goal with |- context [foldl ?f ?b ?l] => assert (ir_inv (foldl f b l)) as (? & _ & ?) end;
    [|done].
  apply foldl_inv.
  - split_and!; simpl; [constructor|set_solver|constructor].
  - intros st gvr _ Hst. destruct (dyn gvr) as [items|]; [|done].
    apply foldl_inv; [done|]. intros; by apply ingressroute_step_inv.
Qed.
End scope.

Lemma ListResources_in_scope {U : Unstructured} (rts : ScanRuntimes) (c : Client)
    (sched : list string → list string) (s : K8sSnapshot) :
  api_scoped (cl_clientset c) → (∀ l, sched l ≡ₚ l) → ListResources rts c sched = Ok s →
  in_scope (λ ns, shouldScanNamespace c ns = true) s.
Proof.
  intros Ha Hsched (items & _ & (s' & Hs' & [= <-])%rbind_Ok)%rbind_Ok.
  assert (∀ ns, ns ∈ scan_list c items → shouldScanNamespace c (ns_Name ns) = true) as Hsl.
  { intros ns Hns. apply list_elem_of_In, filter_In in Hns. tauto. }
  assert (in_scope (λ ns, shouldScanNamespace c ns = true) s') as [].
  { eapply in_scope_scan_all; [| |exact Hs'].
    - split; simpl; try constructor. apply Forall_fmap, Forall_forall. exact Hsl.
    - intros ns local Hns Hl. apply scanNamespace_scope in Hl; [|done].
      rewrite Hsched in Hns. apply list_elem_of_fmap in Hns as (n & -> & Hn).
      destruct Hl. split; eapply Forall_impl; try done; simpl; intros x <-; by apply Hsl. }
  split; [done..| |done]. apply (listIngressRoutes_inv rts).
Qed.

Lemma listGitOps_elem {U : Unstructured} (c : Client) info :
  info ∈ listGitOps c ↔
  ∃ dyn kind gvr items item, cl_dynamicClient c = Some dyn ∧ (kind, gvr) ∈ gitOpsResources ∧
    dyn gvr = Ok items ∧ item ∈ items ∧ info = mkGitOpsSourceInfo kind (GetNamespace item) (GetName item) item.
Proof.
  unfold listGitOps. destruct (cl_dynamicClient c) as [dyn|].
  2:{ rewrite elem_of_nil. split; [done|]. by intros (? & ? & ? & ? & ? & [=] & _). }
  set (found := λ l : list (string * GVR), ∃ kind gvr items item, (kind, gvr) ∈ l ∧ dyn gvr = Ok items ∧ item ∈ items ∧
    info = mkGitOpsSourceInfo kind (GetNamespace item) (GetName item) item).
  trans (found gitOpsResources).
  2:{ unfold found. split; [|by intros (d & k & g & its & it & [= <-] & ?); exists k, g, its, it].
      intros (k & g & its & it & ?). by exists dyn, k, g, its, it. }
  match goal with |- info ∈ foldl ?f [] _ ↔ _ => assert (∀ l acc, info ∈ foldl f acc l ↔ info ∈ acc ∨ found l) as H end.
  { induction l as [|[kind gvr] l IH]; intros acc; cbn [foldl].
    - unfold found. setoid_rewrite elem_of_nil. naive_solver.
    - rewrite IH. assert (found ((kind, gvr) :: l) ↔
        (∃ items item, dyn gvr = Ok items ∧ item ∈ items ∧
           info = mkGitOpsSourceInfo kind (GetNamespace item) (GetName item) item) ∨ found l) as ->.
      { unfold found. setoid_rewrite elem_of_cons. split.
        - intros (k & g & its & it & [[= -> ->]|Hl] & ?); [left; by exists its, it|right; by exists k, g, its, it].
        - intros [(its & it & ?)|(k & g & its & it & ? & ?)]; [exists kind, gvr, its, it|exists k, g, its, it]; auto. }
      destruct (dyn gvr) as [items|e]; [|naive_solver]. rewrite elem_of_app, list_elem_of_fmap.
      split; [intros [[?|(it & -> & ?)]|?]|intros [?|[(its & it & [= <-] & ? & ->)|?]]]; eauto 10. }
  rewrite H, elem_of_nil. tauto.
Qed.

(** C24: against an API server that lists by namespace, everything in a snapshot but
    its GitOps resources (the IngressRoutes of the cluster-wide listing included) is
    of a namespace in scope, the namespaces are exactly the in-scope ones in listing
    order, and no IngressRoute is listed twice across the two API groups.  The
    GitOps resources are all those the cluster-wide listings of the four kinds give,
    of whatever namespace, when GitOps is enabled, and none otherwise. *)
Theorem ListResources_scope (U : Unstructured) (rts : ScanRuntimes) (c : Client)
    (sched : list string → list string) (items : list Namespace) (s : K8sSnapshot) :
  api_scoped (cl_clientset c) → (∀ l, sched l ≡ₚ l) →
  list_namespaces (cl_clientset c) = Ok items →
  ListResources rts c sched = Ok s →
  in_scope (λ ns, shouldScanNamespace c ns = true) s ∧
  snap_Namespaces s =
    namespaceInfoFrom <$> List.filter (λ ns, shouldScanNamespace c (ns_Name ns)) items ∧
  NoDup (route_key <$> snap_IngressRoutes s) ∧
  (∀ info, info ∈ snap_GitOps s ↔
     cl_gitopsEnabled c = true ∧
     ∃ dyn kind gvr items item, cl_dynamicClient c = Some dyn ∧ (kind, gvr) ∈ gitOpsResources ∧
       dyn gvr = Ok items ∧ item ∈ items ∧
       info = mkGitOpsSourceInfo kind (GetNamespace item) (GetName item) item).
Proof.
  intros Ha Hsched Hitems HL. split; [by eapply ListResources_in_scope|]. revert HL.
  unfold ListResources. rewrite Hitems. simpl. intros (s' & Hs' & [= <-])%rbind_Ok. simpl.
  split_and!; [|apply (listIngressRoutes_inv rts)|].
  - assert (∀ order s0 s1, scan_all (scanNamespace rts c) order s0 = Ok s1 →
      snap_Namespaces s1 = snap_Namespaces s0) as Hns.
    { induction order as [|n order IH]; intros s0 s1; simpl; [by intros [= ->]|].
      intros (local & _ & H)%rbind_Ok. by apply IH in H. }
    by rewrite (Hns _ _ _ Hs').
  - intros info. destruct (cl_gitopsEnabled c); [rewrite listGitOps_elem; tauto|].
    rewrite elem_of_nil. split; [done|]. by intros [? _].
Qed.

Lemma demo_scoped : api_scoped demo_clientset.
Proof. split; intros ns l [= <-]; repeat constructor. Qed.

Lemma ListResources_scope_witness :
  ∃ s, ListResources (U := tree_unstructured) (λ _ _ _, insertion_runtime) demo_client (λ l, l) = Ok s ∧
    in_scope (λ ns, shouldScanNamespace demo_client ns = true) s ∧
    (nsi_Name <$> snap_Namespaces s) = ["b"; "a"] ∧
    NoDup (route_key <$> snap_IngressRoutes s).
Proof.
  eexists. split; [reflexivity|].
  pose proof (ListResources_scope tree_unstructured (λ _ _ _, insertion_runtime) demo_client (λ l, l)
    _ _ demo_scoped (λ l, reflexivity l) eq_refl eq_refl) as (H1 & H2 & H3 & _).
  split; [exact H1|]. split; [reflexivity|exact H3].
Defined.

(** ** Ingresses *)

(** The rule element that routes [host] and [path] to the service [svc]. *)
Definition routes_to (ing : Ingress) (svc host path : string) : Prop :=
  ∃ rule paths, rule ∈ ing_Rules ing ∧ ig_Host rule = host ∧ host ≠ EmptyString ∧
    ig_HTTP rule = Some paths ∧ mkHTTPIngressPath path (Some svc) ∈ paths.

Abbreviation ing_state := (gmap string (list string) * gmap string (list IngressPath))%type.

(** The two indexes agree with each other and hold exactly what [R] says. *)
Definition ing_inv (R : string → string → string → Prop) (st : ing_state) : Prop :=
  (∀ svc, NoDup (mslice st.1 svc) ∧ NoDup (mslice st.2 svc)) ∧
  (∀ svc host path, mkIngressPath host path ∈ mslice st.2 svc ↔ R svc host path) ∧
  (∀ svc host, host ∈ mslice st.1 svc ↔ ∃ path, R svc host path).

Lemma appendIngressPathUnique_spec l p x :
  x ∈ appendIngressPathUnique l p ↔ x ∈ l ∨ x = p.
Proof.
  split; [apply append_unless_elem_of|]. unfold appendIngressPathUnique, append_unless.
  destruct (existsb _ l) eqn:E.
  - apply existsb_elem_of in E as (y & Hy & ->%bool_decide_eq_true). by intros [?| ->].
  - by rewrite elem_of_app, list_elem_of_singleton.
Qed.

Lemma appendIngressPathUnique_NoDup l p : NoDup l → NoDup (appendIngressPathUnique l p).
Proof.
  intros H. pose proof (append_unless_NoDup (λ x : IngressPath, x) (λ e, bool_decide (e = p)) l p) as L.
  rewrite !list_fmap_id in L. apply L; [intros x; apply bool_decide_eq_true|done].
Qed.

Lemma ing_path_inv R host st p :
  ing_inv R st →
  ing_inv (λ s h q, R s h q ∨ (h = host ∧ p = mkHTTPIngressPath q (Some s)))
    (ingress_path_step host st p).
Proof.
  destruct st as [hosts routes], p as [path [svc|]]; unfold ingress_path_step; simpl.
  2:{ intros (Hnd & Hr & Hh). split_and!; [done| |].
      - intros s h q. rewrite Hr. naive_solver.
      - intros s h. rewrite Hh. naive_solver. }
  intros (Hnd & Hr & Hh). unfold ing_inv. simpl in *. split_and!.
  - intros s. destruct (decide (svc = s)) as [<-|Hne].
    + rewrite !mslice_insert_eq. destruct (Hnd svc).
      split; [by apply append_unique_NoDup|by apply appendIngressPathUnique_NoDup].
    + by rewrite !mslice_insert_ne.
  - intros s h q. destruct (decide (svc = s)) as [<-|Hne].
    + rewrite mslice_insert_eq, appendIngressPathUnique_spec, Hr. naive_solver.
    + rewrite mslice_insert_ne, Hr by done. naive_solver.
  - intros s h. destruct (decide (svc = s)) as [<-|Hne].
    + rewrite mslice_insert_eq. unfold appendUnique. rewrite append_unique_spec, Hh. naive_solver.
    + rewrite mslice_insert_ne, Hh by done. naive_solver.
Qed.

Lemma ing_inv_ext R R' st : (∀ s h q, R s h q ↔ R' s h q) → ing_inv R st → ing_inv R' st.
Proof.
  intros HR (Hnd & Hr & Hh). split_and!; [done| |].
  - intros. by rewrite Hr.
  - intros. rewrite Hh. by setoid_rewrite HR.
Qed.

Lemma ing_paths_inv R host st ps :
  ing_inv R st →
  ing_inv (λ s h q, R s h q ∨ (h = host ∧ mkHTTPIngressPath q (Some s) ∈ ps))
    (foldl (ingress_path_step host) st ps).
Proof.
  revert R st. induction ps as [|p ps IH]; intros R st Hi; simpl.
  - revert Hi. apply ing_inv_ext. intros. rewrite elem_of_nil. tauto.
  - apply (ing_path_inv R host st p), IH in Hi. revert Hi. apply ing_inv_ext.
    intros. rewrite elem_of_cons. naive_solver.
Qed.

Definition rule_routes (rule : IngressRule) (svc host path : string) : Prop :=
  ig_Host rule = host ∧ host ≠ EmptyString ∧
  ∃ paths, ig_HTTP rule = Some paths ∧ mkHTTPIngressPath path (Some svc) ∈ paths.

Lemma ing_rules_inv R st rules :
  ing_inv R st →
  ing_inv (λ s h q, R s h q ∨ ∃ rule, rule ∈ rules ∧ rule_routes rule s h q)
    (foldl ingress_rule_step st rules).
Proof.
  revert R st. induction rules as [|rule rules IH]; intros R st Hi; simpl.
  - revert Hi. apply ing_inv_ext. intros. setoid_rewrite elem_of_nil. naive_solver.
  - assert (ing_inv (λ s h q, R s h q ∨ rule_routes rule s h q) (ingress_rule_step st rule)) as Hr.
    { unfold ingress_rule_step, rule_routes. destruct (ig_HTTP rule) as [paths|].
      - destruct (String.eqb_spec (ig_Host rule) EmptyString) as [E|E].
        + revert Hi. apply ing_inv_ext. naive_solver.
        + apply (ing_paths_inv R (ig_Host rule) st paths) in Hi. revert Hi. apply ing_inv_ext.
          naive_solver.
      - revert Hi. apply ing_inv_ext. naive_solver. }
    apply IH in Hr. revert Hr. apply ing_inv_ext.
    intros. setoid_rewrite elem_of_cons. naive_solver.
Qed.

(** The Ingress indexes hold exactly what the rules with a host and HTTP
    paths route to a service: the (host, path) pairs of each service, its hosts
    those of its pairs, both without repetition. *)
Theorem ingressInfoFrom_spec (ing : Ingress) (svc : string) :
  let info := ingressInfoFrom ing in
  (∀ host path, mkIngressPath host path ∈ mslice (ii_ServiceRoutes info) svc
                ↔ routes_to ing svc host path) ∧
  (∀ host, host ∈ mslice (ii_ServiceHosts info) svc ↔ ∃ path, routes_to ing svc host path) ∧
  NoDup (mslice (ii_ServiceHosts info) svc) ∧ NoDup (mslice (ii_ServiceRoutes info) svc).
Proof.
  cbn zeta. unfold ingressInfoFrom.
  assert (ing_inv (λ _ _ _, False) (∅, ∅)) as H0.
  { split_and!; unfold mslice; simpl; setoid_rewrite lookup_empty; simpl.
    - intros; split; constructor.
    - intros. by rewrite elem_of_nil.
    - intros. rewrite elem_of_nil. naive_solver. }
  apply (ing_rules_inv _ _ (ing_Rules ing)) in H0.
  destruct (foldl ingress_rule_step (∅, ∅) (ing_Rules ing)) as [hosts routes].
  destruct H0 as (Hnd & Hr & Hh). simpl in *.
  assert (∀ host path, (False ∨ ∃ rule, rule ∈ ing_Rules ing ∧ rule_routes rule svc host path) ↔
    routes_to ing svc host path) as Heq.
  { unfold routes_to, rule_routes. naive_solver. }
  split_and!; [..|apply Hnd|apply Hnd].
  - intros. by rewrite Hr.
  - intros. rewrite Hh. by setoid_rewrite Heq.
Qed.

(** ** Egress targets *)

Definition few_labels (to : NetworkPolicyPeer) : Prop :=
  ∀ sel, peer_NamespaceSelector to = Some sel ∨ peer_PodSelector to = Some sel →
    size (default ∅ (ls_MatchLabels sel)) ≤ 1.

Lemma map_range_small (rt1 rt2 : GoRuntime) `{Countable K} {V} (m : gmap K V) :
  size m ≤ 1 → map_range (GoRuntime := rt1) m = map_range (GoRuntime := rt2) m.
Proof.
  intros Hs.
  assert (∀ l1 l2 : list (K * V), l1 ≡ₚ l2 → length l1 ≤ 1 → l1 = l2) as Hl.
  { intros l1 l2 Hp Hlen. destruct l1 as [|x [|]]; simpl in Hlen; [| |lia].
    - by apply Permutation_nil_l in Hp.
    - symmetry. by apply Permutation_singleton_r. }
  apply Hl.
  - by rewrite !map_range_perm.
  - rewrite map_range_perm. by rewrite length_map_to_list.
Qed.

Lemma egress_target_few rt1 rt2 to : few_labels to → egress_target rt1 to = egress_target rt2 to.
Proof.
  intros H. unfold egress_target.
  destruct (peer_IPBlock to); [done|].
  destruct (peer_NamespaceSelector to) as [sel|] eqn:E1.
  { simpl. rewrite (map_range_small rt1 rt2); [done|]. apply H. by left. }
  destruct (peer_PodSelector to) as [sel|] eqn:E2; [|done].
  simpl. rewrite (map_range_small rt1 rt2); [done|]. apply H. by right.
Qed.

Lemma foldl_targets_inv (f : nat * NetworkPolicyPeer → option string) l acc :
  NoDup acc →
  let r := foldl (λ targets x, match f x with Some t => appendUnique targets t | None => targets end) acc l in
  NoDup r ∧ ∀ t, t ∈ r ↔ t ∈ acc ∨ ∃ x, x ∈ l ∧ f x = Some t.
Proof.
  revert acc. induction l as [|x l IH]; intros acc Hacc; cbn zeta; simpl.
  - split; [done|]. intros t. split; [by left|]. intros [?|(x & Hx & _)]; [done|]. by apply elem_of_nil in Hx.
  - destruct (f x) as [t0|] eqn:E.
    + destruct (IH (appendUnique acc t0)) as [Hnd Hin]; [by apply append_unique_NoDup|].
      split; [exact Hnd|]. intros t. rewrite Hin. unfold appendUnique. rewrite append_unique_spec.
      setoid_rewrite elem_of_cons. naive_solver.
    + destruct (IH acc Hacc) as [Hnd Hin]. split; [exact Hnd|]. intros t. rewrite Hin.
      setoid_rewrite elem_of_cons. naive_solver.
Qed.

(** The egress targets of a policy are the rendered peers without
    repetition, and with at most one label per selector they do not depend on
    the order in which the runtime ranges over the labels. *)
Theorem egress_targets_spec (rts : nat → GoRuntime) (peers : list NetworkPolicyPeer) :
  NoDup (egress_targets rts peers) ∧
  (∀ t, t ∈ egress_targets rts peers ↔
        ∃ i to, peers !! i = Some to ∧ egress_target (rts i) to = Some t) ∧
  (Forall few_labels peers → ∀ rts', egress_targets rts peers = egress_targets rts' peers).
Proof.
  destruct (foldl_targets_inv (λ '(i, to), egress_target (rts i) to) (imap pair peers) [])
    as [Hnd Hin]; [constructor|].
  assert (egress_targets rts peers =
    foldl (λ targets x, match (λ '(i, to), egress_target (rts i) to) x with
      | Some t => appendUnique targets t | None => targets end) [] (imap pair peers)) as Heq.
  { unfold egress_targets. generalize (@nil string). generalize (imap pair peers).
    intros l. induction l as [|[i to] l IH]; intros acc; simpl; [done|apply IH]. }
  rewrite Heq. split_and!; [exact Hnd| |].
  - intros t. rewrite Hin, elem_of_nil. split.
    + intros [[]|([i to] & Hx & E)]. apply elem_of_lookup_imap in Hx as (j & y & [= -> ->] & Hl). eauto.
    + intros (i & to & Hl & E). right. exists (i, to). split; [|done].
      apply elem_of_lookup_imap. eauto.
  - intros Hf rts'. rewrite <- Heq.
    unfold egress_targets.
    assert (∀ l acc, (∀ i to, (i, to) ∈ l → few_labels to) →
      foldl (λ targets '(i, to), match egress_target (rts i) to with
        | Some t => appendUnique targets t | None => targets end) acc l =
      foldl (λ targets '(i, to), match egress_target (rts' i) to with
        | Some t => appendUnique targets t | None => targets end) acc l) as H.
    { induction l as [|[i to] l IH]; intros acc Hl; simpl; [done|].
      rewrite (egress_target_few (rts i) (rts' i)) by (eapply Hl; left).
      apply IH. intros. eapply Hl. right. eassumption. }
    apply H. intros i to Hx. apply elem_of_lookup_imap in Hx as (j & y & [= -> ->] & Hl).
    rewrite Forall_lookup in Hf. eauto.
Qed.

Lemma egress_targets_spec_witness :
  let peers := [mkPeer None None (Some (mkLabelSelector (Some {[ "app" := "web" ]}) []));
                mkPeer (Some "10.0.0.0/8") None None] in
  NoDup (egress_targets (λ _, insertion_runtime) peers) ∧
  egress_targets (λ _, insertion_runtime) peers = egress_targets (λ _, reverse_runtime) peers.
Proof.
  cbv zeta. split.
  - apply egress_targets_spec.
  - apply egress_targets_spec.
    apply Forall_cons_2; [|apply Forall_cons_2; [|constructor]];
      intros sel [Hs|Hs]; simplify_eq/=; vm_compute; lia.
Defined.

(** A peer that selects the pods with two labels. *)
Definition two_label_peer : NetworkPolicyPeer :=
  mkPeer None None (Some (mkLabelSelector (Some {[ "app" := "web"; "tier" := "front" ]}) [])).

(** The deduplication compares rendered selectors, and a selector of two
    labels renders in range order: a policy that lists the same peer twice can
    give two targets or one, depending on the order of the map ranges. *)
Theorem egress_targets_order_dependent :
  let flip := λ i, if Nat.even i then insertion_runtime else reverse_runtime in
  egress_targets (λ _, insertion_runtime) [two_label_peer; two_label_peer] =
    ["podSelector:app=web,tier=front"] ∧
  egress_targets flip [two_label_peer; two_label_peer] =
    ["podSelector:app=web,tier=front"; "podSelector:tier=front,app=web"].
Proof. vm_compute. split; reflexivity. Qed.
