(* ===== verification/Gitops.v ===== *)
(** * GitOps attribution ([internal/gitops/resolver.go])

    The resolver indexes the captured Argo CD and Flux resources and attributes
    a deployment source and repository URLs to a workload from its labels and
    annotations.  A pointer into an index is the indexed record itself: the
    records are never written after [NewResolver]. *)

From S2P Require Export Kubernetes.
From Stdlib Require Import Ascii.

Record argoSource := mkArgoSource {
  argo_name : string; argo_repoURL : string; argo_path : string; argo_revision : string }.

Record sourceRef := mkSourceRef {
  sref_kind : string; sref_name : string; sref_namespace : string }.

Record fluxRelease := mkFluxRelease { fr_name : string; fr_source : sourceRef }.

Record fluxKustomize := mkFluxKustomize {
  fk_name : string; fk_path : string; fk_source : sourceRef }.

Record gitRepo := mkGitRepo { gr_url : string; gr_branch : string }.

Record Resolver := mkResolver {
  rs_argoByName : gmap string argoSource;
  rs_argoByNsName : gmap string argoSource;
  rs_helmReleases : gmap string fluxRelease;
  rs_kustomizations : gmap string fluxKustomize;
  rs_gitRepos : gmap string gitRepo;
}.

Definition annoArgoTrackingID : string := "argocd.argoproj.io/tracking-id".
Definition labelArgoInstance : string := "app.kubernetes.io/instance".
Definition labelFluxHelmName : string := "helm.toolkit.fluxcd.io/name".
Definition labelFluxHelmNS : string := "helm.toolkit.fluxcd.io/namespace".
Definition labelFluxKustomizeName : string := "kustomize.toolkit.fluxcd.io/name".
Definition labelFluxKustomizeNS : string := "kustomize.toolkit.fluxcd.io/namespace".
Definition fallbackRepoKeys : list string := ["dfds.cloud/repo"; "git-origin"].

(** ** Reading the custom resources *)

Section parsing.
Context {U : Unstructured}.

Definition str_at (o : GoObj) (fields : list string) : string :=
  nested_value (NestedString o fields).

Definition argoSourceFrom (cr : GitOpsSourceInfo) : argoSource :=
  let repo := str_at (go_Object cr) ["spec"; "source"; "repoURL"] in
  let path := str_at (go_Object cr) ["spec"; "source"; "path"] in
  let rev := str_at (go_Object cr) ["spec"; "source"; "targetRevision"] in
  let '(repo, path, rev) :=
    if String.eqb repo EmptyString then
      let r := NestedSlice (go_Object cr) ["spec"; "sources"] in
      match nested_found r, nested_value r with
      | true, v :: _ =>
          match as_map v with
          | Some first =>
              (str_at first ["repoURL"], str_at first ["path"], str_at first ["targetRevision"])
          | None => (repo, path, rev)
          end
      | _, _ => (repo, path, rev)
      end
    else (repo, path, rev) in
  mkArgoSource (go_Name cr) repo path rev.

Definition sourceRefFrom (obj : GoObj) (fields : list string) : sourceRef :=
  mkSourceRef (str_at obj (fields ++ ["kind"])) (str_at obj (fields ++ ["name"]))
    (str_at obj (fields ++ ["namespace"])).

Definition helmReleaseFrom (cr : GitOpsSourceInfo) : fluxRelease :=
  let ref := sourceRefFrom (go_Object cr) ["spec"; "chart"; "spec"; "sourceRef"] in
  let ref := if String.eqb (sref_name ref) EmptyString
             then sourceRefFrom (go_Object cr) ["spec"; "chartRef"] else ref in
  mkFluxRelease (go_Name cr) ref.

Definition kustomizationFrom (cr : GitOpsSourceInfo) : fluxKustomize :=
  mkFluxKustomize (go_Name cr) (str_at (go_Object cr) ["spec"; "path"])
    (sourceRefFrom (go_Object cr) ["spec"; "sourceRef"]).

Definition gitRepoFrom (cr : GitOpsSourceInfo) : gitRepo :=
  let url := str_at (go_Object cr) ["spec"; "url"] in
  let branch := str_at (go_Object cr) ["spec"; "ref"; "branch"] in
  let branch :=
    if String.eqb branch EmptyString then
      let tag := str_at (go_Object cr) ["spec"; "ref"; "tag"] in
      if nonempty tag then tag else branch
    else branch in
  mkGitRepo url branch.

(** ** The index *)

Definition cr_key (cr : GitOpsSourceInfo) : string := go_Namespace cr +:+ "/" +:+ go_Name cr.

(** One iteration of the loop of [NewResolver]. *)
Definition index_step (r : Resolver) (cr : GitOpsSourceInfo) : Resolver :=
  if String.eqb (go_Kind cr) "Application" then
    mkResolver (<[go_Name cr := argoSourceFrom cr]> (rs_argoByName r))
      (<[cr_key cr := argoSourceFrom cr]> (rs_argoByNsName r))
      (rs_helmReleases r) (rs_kustomizations r) (rs_gitRepos r)
  else if String.eqb (go_Kind cr) "HelmRelease" then
    mkResolver (rs_argoByName r) (rs_argoByNsName r)
      (<[cr_key cr := helmReleaseFrom cr]> (rs_helmReleases r))
      (rs_kustomizations r) (rs_gitRepos r)
  else if String.eqb (go_Kind cr) "Kustomization" then
    mkResolver (rs_argoByName r) (rs_argoByNsName r) (rs_helmReleases r)
      (<[cr_key cr := kustomizationFrom cr]> (rs_kustomizations r)) (rs_gitRepos r)
  else if String.eqb (go_Kind cr) "GitRepository" then
    mkResolver (rs_argoByName r) (rs_argoByNsName r) (rs_helmReleases r) (rs_kustomizations r)
      (<[cr_key cr := gitRepoFrom cr]> (rs_gitRepos r))
  else r.

Definition NewResolver (crs : list GitOpsSourceInfo) : Resolver :=
  foldl index_step (mkResolver ∅ ∅ ∅ ∅ ∅) crs.
End parsing.

(** ** Attribution *)

Section resolve.
Context (r : Resolver).

Definition lookupArgo (appRef : string) : option argoSource :=
  match rs_argoByNsName r !! appRef with
  | Some app => Some app
  | None =>
      let plain :=
        let name := match CutLast appRef "/" with Some (_, name) => name | None => appRef end in
        rs_argoByName r !! name in
      match Cut appRef "_" with
      | Some (ns, name) =>
          match rs_argoByNsName r !! (ns +:+ "/" +:+ name) with
          | Some app => Some app
          | None =>
              match rs_argoByName r !! name with
              | Some app => Some app
              | None => plain
              end
          end
      | None => plain
      end
  end.

(** The Application reference of a workload's tracking metadata. *)
Definition argo_ref (labels annotations : smap) : string :=
  let tid := annotations⟦annoArgoTrackingID⟧ in
  if nonempty tid then
    match Cut tid ":" with Some (app, _) => app | None => tid end
  else
    let inst := labels⟦labelArgoInstance⟧ in
    if nonempty inst then inst else EmptyString.

Definition resolveArgo (labels annotations : smap) : option DeploymentSource :=
  let appRef := argo_ref labels annotations in
  if String.eqb appRef EmptyString then None
  else
    match lookupArgo appRef with
    | None => None
    | Some app =>
        Some (mkDeploymentSource "argocd" (argo_repoURL app) (argo_path app)
                (argo_revision app) (argo_name app))
    end.

Definition applyGitSource (dst : DeploymentSource) (ref : sourceRef) (defaultNS : string)
    : DeploymentSource :=
  if nonempty (sref_kind ref) && negb (String.eqb (sref_kind ref) "GitRepository") then dst
  else if String.eqb (sref_name ref) EmptyString then dst
  else
    let ns := if String.eqb (sref_namespace ref) EmptyString then defaultNS
              else sref_namespace ref in
    match rs_gitRepos r !! (ns +:+ "/" +:+ sref_name ref) with
    | None => dst
    | Some gr =>
        mkDeploymentSource (ds_Tool dst) (gr_url gr) (ds_Path dst)
          (if String.eqb (ds_Revision dst) EmptyString then gr_branch gr else ds_Revision dst)
          (ds_AppName dst)
    end.

Definition resolveFluxHelm (labels : smap) : option DeploymentSource :=
  let name := labels⟦labelFluxHelmName⟧ in
  let ns := labels⟦labelFluxHelmNS⟧ in
  if String.eqb name EmptyString || String.eqb ns EmptyString then None
  else
    let src := mkDeploymentSource "flux-helm" "" "" "" name in
    match rs_helmReleases r !! (ns +:+ "/" +:+ name) with
    | Some hr => Some (applyGitSource src (fr_source hr) ns)
    | None => Some src
    end.

Definition resolveFluxKustomize (labels : smap) : option DeploymentSource :=
  let name := labels⟦labelFluxKustomizeName⟧ in
  let ns := labels⟦labelFluxKustomizeNS⟧ in
  if String.eqb name EmptyString || String.eqb ns EmptyString then None
  else
    let src := mkDeploymentSource "flux-kustomize" "" "" "" name in
    match rs_kustomizations r !! (ns +:+ "/" +:+ name) with
    | Some k =>
        Some (applyGitSource (mkDeploymentSource (ds_Tool src) (ds_RepoURL src) (fk_path k)
                                (ds_Revision src) (ds_AppName src)) (fk_source k) ns)
    | None => Some src
    end.

Definition fallbackRepoURL (labels annotations : smap) : string :=
  foldr (λ k rest,
    if nonempty (annotations⟦k⟧) then annotations⟦k⟧
    else if nonempty (labels⟦k⟧) then labels⟦k⟧ else rest) EmptyString fallbackRepoKeys.

Definition fallbackSource (labels annotations : smap) : option DeploymentSource :=
  let repo := fallbackRepoURL labels annotations in
  if String.eqb repo EmptyString then None
  else Some (mkDeploymentSource "" repo "" "" (labels⟦"app.kubernetes.io/part-of"⟧)).

Definition resolveSource (labels annotations : smap) : option DeploymentSource :=
  match resolveArgo labels annotations with
  | Some src => Some src
  | None =>
      match resolveFluxHelm labels with
      | Some src => Some src
      | None =>
          match resolveFluxKustomize labels with
          | Some src => Some src
          | None => fallbackSource labels annotations
          end
      end
  end.

Definition appendUnique (slice : list string) (value : string) : list string :=
  append_unique slice value.

Definition Resolve (namespace : string) (labels annotations : smap)
    : option DeploymentSource * list string :=
  let src := resolveSource labels annotations in
  let repos :=
    match src with
    | Some s => if nonempty (ds_RepoURL s) then [ds_RepoURL s] else []
    | None => []
    end in
  let declared := fallbackRepoURL labels annotations in
  let repos := if nonempty declared then appendUnique repos declared else repos in
  (src, repos).
End resolve.

(** ** The index *)

Section index.
Context {U : Unstructured}.

Definition sel_of {V} (kind : string) (key : GitOpsSourceInfo → string)
    (val : GitOpsSourceInfo → V) (cr : GitOpsSourceInfo) : option (string * V) :=
  if String.eqb (go_Kind cr) kind then Some (key cr, val cr) else None.

Lemma sel_of_Some {V} kind key (val : _ → V) cr k v :
  sel_of kind key val cr = Some (k, v) ↔ go_Kind cr = kind ∧ k = key cr ∧ v = val cr.
Proof.
  unfold sel_of. destruct (String.eqb_spec (go_Kind cr) kind); naive_solver.
Qed.

Lemma NewResolver_index crs :
  NewResolver crs =
  mkResolver (index_by (sel_of "Application" go_Name argoSourceFrom) crs)
    (index_by (sel_of "Application" cr_key argoSourceFrom) crs)
    (index_by (sel_of "HelmRelease" cr_key helmReleaseFrom) crs)
    (index_by (sel_of "Kustomization" cr_key kustomizationFrom) crs)
    (index_by (sel_of "GitRepository" cr_key gitRepoFrom) crs).
Proof.
  induction crs as [|cr crs IH] using rev_ind; [done|].
  unfold NewResolver in *. rewrite foldl_app, IH, !index_by_snoc. simpl.
  unfold index_step, index_step_by, sel_of. simpl.
  repeat match goal with |- context [String.eqb (go_Kind cr) ?k] =>
    destruct (String.eqb_spec (go_Kind cr) k) as [Hk|]; [rewrite ?Hk; try reflexivity|] end.
  all: reflexivity.
Qed.

(** Kubernetes names have neither a slash nor a colon nor an underscore. *)
Definition dns_name (s : string) : Prop :=
  s ≠ EmptyString ∧ lacks "/"%char s = true ∧ lacks ":"%char s = true ∧ lacks "_"%char s = true.

Definition named (cr : GitOpsSourceInfo) : Prop := dns_name (go_Namespace cr) ∧ dns_name (go_Name cr).

Lemma cr_key_inj a b : named a → named b → cr_key a = cr_key b →
  go_Namespace a = go_Namespace b ∧ go_Name a = go_Name b.
Proof.
  intros [(_ & Ha & _) _] [(_ & Hb & _) _] H. unfold cr_key in H.
  pose proof (Cut_byte (go_Namespace a) "/"%char (go_Name a) Ha) as H1.
  pose proof (Cut_byte (go_Namespace b) "/"%char (go_Name b) Hb) as H2.
  change (String "/" (go_Name a)) with ("/" +:+ go_Name a) in H1.
  change (String "/" (go_Name b)) with ("/" +:+ go_Name b) in H2.
  rewrite H, H2 in H1. by injection H1 as -> ->.
Qed.
End index.

(** ** Argo CD *)

(** The deployment source an Argo CD Application stands for. *)
Definition argo_deployment {U : Unstructured} (cr : GitOpsSourceInfo) : DeploymentSource :=
  let app := argoSourceFrom cr in
  mkDeploymentSource "argocd" (argo_repoURL app) (argo_path app) (argo_revision app) (argo_name app).

Definition is_argo (cr : GitOpsSourceInfo) : Prop := go_Kind cr = "Application".

Lemma nonempty_eqb s : nonempty s = true → String.eqb s EmptyString = false.
Proof. unfold nonempty. by rewrite negb_true_iff. Qed.

Lemma dns_name_join a b c sep :
  dns_name a → dns_name b → lacks c a = true → lacks c b = true → sep ≠ c →
  lacks c (a +:+ String sep EmptyString +:+ b) = true.
Proof.
  intros _ _ Ha Hb Hs. rewrite !lacks_app, Ha, Hb, lacks_cons. simpl.
  rewrite andb_true_r. destruct (Ascii.eqb_spec sep c); done.
Qed.

Lemma argo_name_from {U : Unstructured} cr : argo_name (argoSourceFrom cr) = go_Name cr.
Proof.
  unfold argoSourceFrom. repeat case_match; reflexivity.
Qed.

Section argo.
Context {U : Unstructured} (crs : list GitOpsSourceInfo).
Hypothesis Hnamed : Forall named crs.

Lemma by_ns_name_lookup cr :
  cr ∈ crs → is_argo cr →
  (∀ cr', cr' ∈ crs → is_argo cr' → cr_key cr' = cr_key cr → cr' = cr) →
  rs_argoByNsName (NewResolver crs) !! cr_key cr = Some (argoSourceFrom cr).
Proof.
  intros Hin Hk Hu. rewrite NewResolver_index. simpl.
  apply (index_by_lookup _ _ cr); [done|by apply sel_of_Some|].
  intros y w Hy (Hy1 & Hy2 & ->)%sel_of_Some. by rewrite (Hu y).
Qed.

Lemma by_ns_name_no_slash ref :
  lacks "/"%char ref = true → rs_argoByNsName (NewResolver crs) !! ref = None.
Proof.
  intros Hl. rewrite NewResolver_index. simpl. apply index_by_missing.
  intros x v Hx (_ & -> & _)%sel_of_Some. revert Hl. unfold cr_key.
  rewrite !lacks_app. simpl. by rewrite andb_false_r.
Qed.

Lemma by_ns_name_sound ref s :
  rs_argoByNsName (NewResolver crs) !! ref = Some s →
  ∃ cr, cr ∈ crs ∧ is_argo cr ∧ ref = cr_key cr ∧ s = argoSourceFrom cr.
Proof.
  rewrite NewResolver_index. simpl.
  intros (cr & Hcr & (? & ? & ?)%sel_of_Some)%index_by_sound. by exists cr.
Qed.

Lemma by_name_sound name s :
  rs_argoByName (NewResolver crs) !! name = Some s →
  ∃ cr, cr ∈ crs ∧ is_argo cr ∧ name = go_Name cr ∧ s = argoSourceFrom cr.
Proof.
  rewrite NewResolver_index. simpl.
  intros (cr & Hcr & (? & ? & ?)%sel_of_Some)%index_by_sound. by exists cr.
Qed.

Lemma suffix_of_app a b c : HasSuffix b c = true → HasSuffix (a +:+ b) c = true.
Proof. rewrite !HasSuffix_iff. intros [r ->]. exists (a +:+ r). by rewrite str_app_assoc. Qed.

Lemma HasSuffix_refl s : HasSuffix s s = true.
Proof. apply HasSuffix_iff. by exists EmptyString. Qed.

Lemma suffix_no_slash a n b m :
  lacks "/"%char n = true → a +:+ "/" +:+ m = b +:+ "/" +:+ n → HasSuffix m n = true.
Proof.
  change ("/" +:+ m) with (String "/" m). change ("/" +:+ n) with (String "/" n).
  intros Hn. revert b. induction a as [|x a IH]; intros [|y b].
  - rewrite !str_app_nil_l. intros [= ->]. apply HasSuffix_refl.
  - rewrite str_app_nil_l, str_app_cons. intros [= <- ->].
    apply suffix_of_app, (suffix_of_app "/" n), HasSuffix_refl.
  - rewrite str_app_nil_l, str_app_cons. intros [= _ <-]. exfalso. revert Hn.
    rewrite lacks_app, lacks_cons. simpl. by rewrite andb_false_r.
  - rewrite !str_app_cons. intros [= _ H]. by apply (IH b).
Qed.

Lemma lookupArgo_sound ref s :
  lookupArgo (NewResolver crs) ref = Some s →
  ∃ cr, cr ∈ crs ∧ is_argo cr ∧ s = argoSourceFrom cr ∧ HasSuffix ref (go_Name cr) = true.
Proof.
  assert (∀ name s', HasSuffix ref name = true → rs_argoByName (NewResolver crs) !! name = Some s' →
    ∃ cr, cr ∈ crs ∧ is_argo cr ∧ s' = argoSourceFrom cr ∧ HasSuffix ref (go_Name cr) = true) as Hname.
  { intros name s' Hs (cr & ? & ? & -> & ?)%by_name_sound. eauto. }
  assert (HasSuffix ref match CutLast ref "/" with Some (_, name) => name | None => ref end = true) as Hplain.
  { destruct (CutLast ref "/") as [[l n]|] eqn:E; [|apply HasSuffix_refl].
    apply CutLast_Some in E as ->. rewrite <- str_app_assoc. apply suffix_of_app, HasSuffix_refl. }
  unfold lookupArgo. destruct (rs_argoByNsName _ !! ref) as [a|] eqn:E1.
  { intros [= ->]. apply by_ns_name_sound in E1 as (cr & ? & ? & -> & ?).
    exists cr. split_and!; [done..|]. unfold cr_key. do 2 apply suffix_of_app. apply HasSuffix_refl. }
  destruct (Cut ref "_") as [[ns n]|] eqn:E2; [|by apply Hname].
  apply Cut_Some in E2. destruct (rs_argoByNsName _ !! (ns +:+ "/" +:+ n)) as [a|] eqn:E3.
  { intros [= ->]. apply by_ns_name_sound in E3 as (cr & Hin & ? & Hk & ?).
    exists cr. split_and!; [done..|]. rewrite E2. do 2 apply suffix_of_app.
    rewrite Forall_forall in Hnamed. destruct (Hnamed cr) as [_ (_ & Hl & _)]; [done|].
    by apply (suffix_no_slash ns _ (go_Namespace cr)). }
  destruct (rs_argoByName _ !! n) as [a|] eqn:E4; [|by apply Hname].
  intros [= ->]. apply (Hname n); [|done]. rewrite E2. do 2 apply suffix_of_app. apply HasSuffix_refl.
Qed.
End argo.

(** C21: a workload whose Argo CD tracking id names an Application by namespace
    and name, in either encoding ["ns/name:..."] or ["ns_name:..."], is
    attributed to that Application, whatever other resources exist. *)
Theorem resolveArgo_tracked (U : Unstructured) (crs : list GitOpsSourceInfo) (cr : GitOpsSourceInfo)
    (sep : string) (rest : string) (labels annotations : smap) :
  Forall named crs → cr ∈ crs → is_argo cr →
  (∀ cr', cr' ∈ crs → is_argo cr' → cr_key cr' = cr_key cr → cr' = cr) →
  sep = "/" ∨ sep = "_" →
  mget annotations annoArgoTrackingID =
    go_Namespace cr +:+ sep +:+ go_Name cr +:+ ":" +:+ rest →
  resolveArgo (NewResolver crs) labels annotations = Some (argo_deployment cr).
Proof.
  intros Hnamed Hin Hk Hu Hsep Htid.
  pose proof (by_ns_name_lookup crs cr Hin Hk Hu) as Hlk.
  pose proof Hnamed as Hn. rewrite Forall_forall in Hn. specialize (Hn cr Hin).
  destruct Hn as [Hns Hnm]. pose proof Hns as (Hne & Hs1 & Hc1 & Hu1).
  pose proof Hnm as (_ & Hs2 & Hc2 & Hu2).
  set (ref := go_Namespace cr +:+ sep +:+ go_Name cr).
  assert (argo_ref labels annotations = ref) as Href.
  { unfold argo_ref. rewrite Htid.
    replace (nonempty _) with true by (destruct (go_Namespace cr); done).
    assert (go_Namespace cr +:+ sep +:+ go_Name cr +:+ ":" +:+ rest = ref +:+ String ":" rest) as ->.
    { unfold ref. rewrite !str_app_assoc. done. }
    rewrite Cut_byte; [done|]. unfold ref.
    destruct Hsep as [-> | ->]; (apply dns_name_join; done). }
  unfold resolveArgo. rewrite Href.
  assert (String.eqb ref EmptyString = false) as -> by (unfold ref; destruct (go_Namespace cr); done).
  assert (lookupArgo (NewResolver crs) ref = Some (argoSourceFrom cr)) as ->; [|done].
  unfold lookupArgo, ref. destruct Hsep as [-> | ->].
  - change (go_Namespace cr +:+ "/" +:+ go_Name cr) with (cr_key cr). by rewrite Hlk.
  - rewrite by_ns_name_no_slash by (apply dns_name_join; done).
    change ("_" +:+ go_Name cr) with (String "_" (go_Name cr)).
    rewrite (Cut_byte (go_Namespace cr) "_"%char (go_Name cr)) by done.
    change (go_Namespace cr +:+ "/" +:+ go_Name cr) with (cr_key cr). by rewrite Hlk.
Qed.

(** An Argo CD attribution is never invented: the source is that of a
    captured Application whose name ends the workload's reference, so an
    instance label that Helm set without an Application attributes nothing. *)
Theorem resolveArgo_sound (U : Unstructured) (crs : list GitOpsSourceInfo)
    (labels annotations : smap) (src : DeploymentSource) :
  Forall named crs →
  resolveArgo (NewResolver crs) labels annotations = Some src →
  ∃ cr, cr ∈ crs ∧ is_argo cr ∧ src = argo_deployment cr ∧ ds_AppName src = go_Name cr ∧
        HasSuffix (argo_ref labels annotations) (go_Name cr) = true.
Proof.
  intros Hnamed. unfold resolveArgo.
  destruct (String.eqb _ _); [done|].
  destruct (lookupArgo _ _) as [a|] eqn:E; [|done]. intros [= <-].
  apply lookupArgo_sound in E as (cr & ? & ? & -> & ?); [|done].
  exists cr. split_and!; try done. apply argo_name_from.
Qed.

(** A cluster with an Application, a HelmRelease and its GitRepository. *)
Definition demo_crs : list GitOpsSourceInfo :=
  [ mkGitOpsSourceInfo "Application" "argocd" "web"
      {[ "spec" := VMap {[ "source" := VMap {[ "repoURL" := VString "https://git/web";
                                               "path" := VString "apps/web" ]} ]} ]};
    mkGitOpsSourceInfo "HelmRelease" "cap-a" "api"
      {[ "spec" := VMap {[ "chart" := VMap {[ "spec" := VMap {[ "sourceRef" :=
           VMap {[ "kind" := VString "GitRepository"; "name" := VString "manifests" ]} ]} ]} ]} ]};
    mkGitOpsSourceInfo "GitRepository" "cap-a" "manifests"
      {[ "spec" := VMap {[ "url" := VString "https://git/manifests";
                           "ref" := VMap {[ "branch" := VString "main" ]} ]} ]} ].

Lemma demo_crs_named : Forall named demo_crs.
Proof. repeat constructor; discriminate. Qed.

Definition demo_tracking : smap := Some {[ annoArgoTrackingID := "argocd_web:apps/Deployment:x/web" ]}.

Lemma resolveArgo_tracked_witness :
  resolveArgo (NewResolver (U := tree_unstructured) demo_crs) None demo_tracking =
  Some (mkDeploymentSource "argocd" "https://git/web" "apps/web" "" "web").
Proof.
  set (cr := nth 0 demo_crs (mkGitOpsSourceInfo "" "" "" ∅)).
  refine (eq_trans (resolveArgo_tracked tree_unstructured demo_crs cr
    "_" "apps/Deployment:x/web" None demo_tracking _ _ _ _ _ _) _).
  - exact demo_crs_named.
  - left.
  - reflexivity.
  - intros cr' Hcr Hk _. unfold is_argo in Hk.
    repeat (apply elem_of_cons in Hcr as [-> | Hcr]; [first [reflexivity | discriminate Hk]|]).
    by apply elem_of_nil in Hcr.
  - by right.
  - reflexivity.
  - vm_compute. reflexivity.
Defined.

Lemma resolveArgo_sound_witness :
  ∃ cr, cr ∈ demo_crs ∧ go_Name cr = "web".
Proof.
  destruct (resolveArgo_sound tree_unstructured demo_crs None demo_tracking
    (mkDeploymentSource "argocd" "https://git/web" "apps/web" "" "web") demo_crs_named
    ltac:(vm_compute; reflexivity))
    as (cr & Hcr & _ & _ & Hname & _).
  exists cr. split; [exact Hcr|]. by rewrite <- Hname.
Defined.

(** ** Order of the listing *)

(** The attribution does not depend on the order in which the custom
    resources were listed: with one resource per kind, namespace and name every
    namespaced index is the same for every order, and so is the whole resolver
    when no two Applications of different namespaces share a name. *)
Theorem NewResolver_order (U : Unstructured) (crs1 crs2 : list GitOpsSourceInfo) :
  crs1 ≡ₚ crs2 → Forall named crs1 →
  NoDup ((λ cr, (go_Kind cr, go_Namespace cr, go_Name cr)) <$> crs1) →
  rs_argoByNsName (NewResolver crs1) = rs_argoByNsName (NewResolver crs2) ∧
  rs_helmReleases (NewResolver crs1) = rs_helmReleases (NewResolver crs2) ∧
  rs_kustomizations (NewResolver crs1) = rs_kustomizations (NewResolver crs2) ∧
  rs_gitRepos (NewResolver crs1) = rs_gitRepos (NewResolver crs2) ∧
  ((∀ a b, a ∈ crs1 → b ∈ crs1 → is_argo a → is_argo b → go_Name a = go_Name b → a = b) →
   NewResolver crs1 = NewResolver crs2).
Proof.
  intros Hp Hnamed Hnd. rewrite Forall_forall in Hnamed.
  assert (∀ kind V (val : GitOpsSourceInfo → V),
    index_by (sel_of kind cr_key val) crs1 = index_by (sel_of kind cr_key val) crs2) as Hidx.
  { intros kind V val. apply index_by_perm; [done|].
    intros x y k v w Hx Hy (Kx & -> & ->)%sel_of_Some (Ky & Hkey & ->)%sel_of_Some.
    apply cr_key_inj in Hkey as [E1 E2]; [|by apply Hnamed..].
    assert (x = y) as ->; [|done].
    eapply NoDup_fmap_inj; [exact Hnd|done..|]. simpl. congruence. }
  rewrite !NewResolver_index. simpl. split_and!; [apply Hidx..|].
  intros Hu. f_equal; [|apply Hidx..]. apply index_by_perm; [done|].
  intros x y k v w Hx Hy (Kx & -> & ->)%sel_of_Some (Ky & Hkey & ->)%sel_of_Some.
  f_equal. by apply Hu.
Qed.

Lemma NewResolver_order_witness :
  rs_gitRepos (NewResolver (U := tree_unstructured) demo_crs) =
  rs_gitRepos (NewResolver (U := tree_unstructured) (rev demo_crs)).
Proof.
  apply (NewResolver_order tree_unstructured demo_crs (rev demo_crs)).
  - apply Permutation_rev.
  - exact demo_crs_named.
  - apply NoDup_ListNoDup. repeat constructor; cbn; intuition discriminate.
Defined.

(** ** Repositories *)

(** The repository list never repeats or holds a blank entry; the
    discovered repository comes first, an author-declared one is always
    included, nothing else is; and without a source there is no repository. *)
Theorem Resolve_repos (r : Resolver) (namespace : string) (labels annotations : smap) :
  let '(src, repos) := Resolve r namespace labels annotations in
  let discovered := from_option ds_RepoURL EmptyString src in
  let declared := fallbackRepoURL labels annotations in
  src = resolveSource r labels annotations ∧
  NoDup repos ∧
  (∀ u, u ∈ repos ↔ u ≠ EmptyString ∧ (u = discovered ∨ u = declared)) ∧
  (discovered ≠ EmptyString → head repos = Some discovered) ∧
  (src = None → repos = []).
Proof.
  unfold Resolve. cbn zeta. set (src := resolveSource r labels annotations).
  set (discovered := from_option ds_RepoURL EmptyString src).
  set (declared := fallbackRepoURL labels annotations).
  replace (match src with Some s => _ | None => _ end) with
    (if nonempty discovered then [discovered] else []) by (unfold discovered; by destruct src).
  assert (src = None → declared = EmptyString) as Hnone.
  { unfold src, resolveSource, declared.
    destruct (resolveArgo _ _ _); [done|]. destruct (resolveFluxHelm _ _); [done|].
    destruct (resolveFluxKustomize _ _); [done|]. unfold fallbackSource.
    by destruct (String.eqb_spec (fallbackRepoURL labels annotations) EmptyString). }
  assert (src = None → discovered = EmptyString) as Hd by (by intros ->).
  split_and!; [done|..].
  - destruct (nonempty declared); [apply append_unique_NoDup|]; case_match; repeat constructor; set_solver.
  - intros u. unfold nonempty. destruct (String.eqb_spec declared EmptyString) as [E1|E1],
      (String.eqb_spec discovered EmptyString) as [E2|E2]; simpl; unfold appendUnique;
      rewrite ?append_unique_spec, ?elem_of_nil, ?list_elem_of_singleton; naive_solver.
  - intros Hne. unfold nonempty. destruct (String.eqb_spec discovered EmptyString); [done|].
    simpl. destruct (String.eqb_spec declared EmptyString); [done|]. simpl.
    unfold appendUnique, append_unique, append_unless. by case_match.
  - intros Hs. by rewrite (Hd Hs), (Hnone Hs).
Qed.

(** ** Flux *)

(** A workload that carries Flux Helm labels for the release [ns/name]. *)
Definition flux_helm_labelled (labels : smap) (ns name : string) : Prop :=
  labels⟦labelFluxHelmName⟧ = name ∧ labels⟦labelFluxHelmNS⟧ = ns ∧ name ≠ EmptyString ∧ ns ≠ EmptyString.

(** The source reference a HelmRelease holds, in the namespace [defaultNS]. *)
Definition git_ref_of (ref : sourceRef) (defaultNS : string) : option string :=
  if nonempty (sref_kind ref) && negb (String.eqb (sref_kind ref) "GitRepository") then None
  else if String.eqb (sref_name ref) EmptyString then None
  else Some ((if String.eqb (sref_namespace ref) EmptyString then defaultNS else sref_namespace ref)
               +:+ "/" +:+ sref_name ref).

Lemma applyGitSource_spec r dst ref ns :
  applyGitSource r dst ref ns =
  match git_ref_of ref ns ≫= λ k, rs_gitRepos r !! k with
  | None => dst
  | Some gr => mkDeploymentSource (ds_Tool dst) (gr_url gr) (ds_Path dst)
      (if String.eqb (ds_Revision dst) EmptyString then gr_branch gr else ds_Revision dst) (ds_AppName dst)
  end.
Proof.
  unfold applyGitSource, git_ref_of.
  destruct (_ && _); [done|]. destruct (String.eqb (sref_name ref) _); done.
Qed.

Section flux_chain.
Context {U : Unstructured} {UL : UnstructuredLaws U}.

Lemma str_at_string o fs s : walk o fs = Some (VString s) → str_at o fs = s.
Proof. intros H. unfold str_at. by rewrite (NestedString_string _ _ _ H). Qed.

Lemma str_at_other o fs : walk o fs ≫= as_string = None → str_at o fs = EmptyString.
Proof. intros H. unfold str_at, nested_value. by rewrite (NestedString_other _ _ H). Qed.

Lemma str_at_value o fs : str_at o fs = default EmptyString (walk o fs ≫= as_string).
Proof.
  destruct (walk o fs ≫= as_string) eqn:E; [|by apply str_at_other].
  apply str_at_string. by destruct (walk o fs) as [[]|]; simplify_eq/=.
Qed.
End flux_chain.

(** C22: Flux attribution follows the reference chain end to end: a workload
    labelled with a captured HelmRelease whose chart comes from a captured
    GitRepository (in the named namespace, else in the release's own) gets that
    repository's URL and its branch, or its tag when it names no branch. *)
Theorem resolveFluxHelm_chain (U : Unstructured) (UL : UnstructuredLaws U)
    (crs : list GitOpsSourceInfo) (labels : smap) (hr repo : GitOpsSourceInfo) :
  let at_ o fs := default EmptyString (walk (go_Object o) fs ≫= as_string) in
  let ref f := at_ hr ["spec"; "chart"; "spec"; "sourceRef"; f] in
  Forall named crs → NoDup ((λ cr, (go_Kind cr, go_Namespace cr, go_Name cr)) <$> crs) →
  hr ∈ crs → go_Kind hr = "HelmRelease" →
  flux_helm_labelled labels (go_Namespace hr) (go_Name hr) →
  ref "kind" = "GitRepository" → ref "name" = go_Name repo →
  (if String.eqb (ref "namespace") EmptyString then go_Namespace hr else ref "namespace")
    = go_Namespace repo →
  repo ∈ crs → go_Kind repo = "GitRepository" →
  resolveFluxHelm (NewResolver crs) labels =
    Some (mkDeploymentSource "flux-helm" (at_ repo ["spec"; "url"]) ""
            (if nonempty (at_ repo ["spec"; "ref"; "branch"]) then at_ repo ["spec"; "ref"; "branch"]
             else at_ repo ["spec"; "ref"; "tag"]) (go_Name hr)).
Proof.
  cbn zeta. intros Hnamed Hnd Hhr Khr (L1 & L2 & Hne1 & Hne2) Rk Rn Rns Hrepo Krepo.
  rewrite Forall_forall in Hnamed.
  assert (∀ kind V (val : GitOpsSourceInfo → V) cr, cr ∈ crs → go_Kind cr = kind →
    index_by (sel_of kind cr_key val) crs !! cr_key cr = Some (val cr)) as Hidx.
  { intros kind V val cr Hcr Hk. apply (index_by_lookup _ _ cr); [done|by apply sel_of_Some|].
    intros y w Hy (Ky & Hkey & ->)%sel_of_Some.
    apply cr_key_inj in Hkey as [E1 E2]; [|by apply Hnamed..]. f_equal.
    eapply NoDup_fmap_inj; [exact Hnd|done..|]. simpl. congruence. }
  unfold resolveFluxHelm. rewrite L1, L2.
  destruct (String.eqb_spec (go_Name hr) EmptyString) as [|_]; [done|].
  destruct (String.eqb_spec (go_Namespace hr) EmptyString) as [|_]; [done|]. simpl.
  rewrite NewResolver_index. simpl.
  change (go_Namespace hr +:+ "/" +:+ go_Name hr) with (cr_key hr).
  rewrite (Hidx "HelmRelease") by done. f_equal.
  rewrite applyGitSource_spec.
  assert (fr_source (helmReleaseFrom hr) =
    sourceRefFrom (go_Object hr) ["spec"; "chart"; "spec"; "sourceRef"]) as ->.
  { unfold helmReleaseFrom, sourceRefFrom. simpl. rewrite !str_at_value, Rn.
    destruct (String.eqb_spec (go_Name repo) EmptyString) as [E|_]; [|done].
    destruct (Hnamed repo Hrepo) as [_ [? _]]. done. }
  unfold git_ref_of, sourceRefFrom. simpl. rewrite !str_at_value, Rk, Rn, Rns. simpl.
  destruct (String.eqb_spec (go_Name repo) EmptyString) as [E|_].
  { destruct (Hnamed repo Hrepo) as [_ [? _]]. done. }
  simpl. change (go_Namespace repo +:+ "/" +:+ go_Name repo) with (cr_key repo).
  rewrite (Hidx "GitRepository") by done. simpl. unfold gitRepoFrom. simpl.
  rewrite !str_at_value. f_equal.
  change (let b := default EmptyString (walk (go_Object repo) ["spec"; "ref"; "branch"] ≫= as_string) in
          let t := default EmptyString (walk (go_Object repo) ["spec"; "ref"; "tag"] ≫= as_string) in
          (if String.eqb b EmptyString then if nonempty t then t else b else b) =
          (if nonempty b then b else t)). cbv zeta.
  generalize (default EmptyString (walk (go_Object repo) ["spec"; "ref"; "branch"] ≫= as_string)) as b.
  generalize (default EmptyString (walk (go_Object repo) ["spec"; "ref"; "tag"] ≫= as_string)) as t.
  by intros [|??] [|??].
Qed.

Lemma resolveFluxHelm_chain_witness :
  let labels := Some {[ labelFluxHelmName := "api"; labelFluxHelmNS := "cap-a" ]} in
  resolveFluxHelm (NewResolver (U := tree_unstructured) demo_crs) labels =
    Some (mkDeploymentSource "flux-helm" "https://git/manifests" "" "main" "api").
Proof.
  cbv zeta. set (d := mkGitOpsSourceInfo "" "" "" ∅).
  refine (eq_trans (resolveFluxHelm_chain tree_unstructured tree_unstructured_laws demo_crs _
    (nth 1 demo_crs d) (nth 2 demo_crs d) _ _ _ _ _ _ _ _ _ _) _);
    try (vm_compute; reflexivity).
  - exact demo_crs_named.
  - apply NoDup_ListNoDup. repeat constructor; cbn; intuition discriminate.
  - right. left.
  - split_and!; try (vm_compute; reflexivity); discriminate.
  - right. right. left.
Defined.
