(* ===== verification/Reachability.v ===== *)
(** * Reachability probing ([internal/reachability/prober.go], [store.go])

    Which hosts are probed and how (the winning route of a host and its
    annotations), the probe itself with its retry, the verdict map, and the store
    the API reads.  The targets are specified apart from the code: [governs] says
    which route decides about a host and [probe_of] what it asks for.  The HTTP client, the clock and the context are parameters: a
    [ProbeEnv] per probe. *)

From S2P Require Export Expect Pool.
From Stdlib Require Import Ascii.

Definition annoProbeOptOut : string := "dfds.cloud/reachability-probe".
Definition annoProbePath : string := "dfds.cloud/reachability-path".
Definition annoProbeMethod : string := "dfds.cloud/reachability-method".
Definition annoProbeExpect : string := "dfds.cloud/reachability-expect".

Definition probeAttempts : nat := 2.

Definition statusReachable : string := "reachable".
Definition statusUnreachable : string := "unreachable".
Definition statusUnknown : string := "unknown".

(** An [error]: whether it wraps [context.DeadlineExceeded], and its text. *)
Record GoErr := mkGoErr { err_deadline : bool; err_Error : string }.

Record target := mkTarget {
  t_key : string;
  t_host : string;
  t_url : string;
  t_method : string;
  t_expect : statusMatcher;
  t_expectStr : string;
}.

(** A nil counter is [None]. *)
Record Prober := mkProber {
  pr_concurrency : Z;
  pr_probes : option Z;
  pr_reachable : option Z;
  pr_unreachable : option Z;
  pr_unknown : option Z;
}.

Record Counters := mkCounters {
  ct_Probes : option Z; ct_Reachable : option Z; ct_Unreachable : option Z; ct_Unknown : option Z }.

Definition NewProber (concurrency : Z) (c : Counters) : Prober :=
  let concurrency := if (concurrency <=? 0)%Z then 20%Z else concurrency in
  mkProber concurrency (ct_Probes c) (ct_Reachable c) (ct_Unreachable c) (ct_Unknown c).

(** ** Paths *)

Definition normalizePath (p : string) : string := "/" +:+ Trim p "/".

Definition shortestPrefix (prefixes : list string) : string :=
  match prefixes with
  | [] => "/"
  | best :: rest =>
      normalizePath
        (foldl (λ best p, if Nat.ltb (String.length p) (String.length best) then p else best)
           best rest)
  end.

(** ** Winning routes *)

Record hostWinner := mkHostWinner { hw_path : string; hw_annotations : smap }.

Definition winning_host_step (path : string) (anno : smap)
    (byHost : gmap string hostWinner) (h : string) : gmap string hostWinner :=
  if String.eqb h EmptyString then byHost
  else
    match byHost !! h with
    | Some cur =>
        if Nat.ltb (String.length path) (String.length (hw_path cur))
        then <[h := mkHostWinner path anno]> byHost else byHost
    | None => <[h := mkHostWinner path anno]> byHost
    end.

Definition winning_route_step (byHost : gmap string hostWinner) (r : RouteRef)
    : gmap string hostWinner :=
  foldl (winning_host_step (shortestPrefix (route_PathPrefixes r)) (route_Annotations r))
    byHost (route_Hosts r).

Definition winningRoutesByHost (routes : list RouteRef) : gmap string hostWinner :=
  foldl winning_route_step ∅ routes.

(** ** Targets *)

Section targets.
Context {GU : GoUnicode}.

(** The body of the loop over the winners of a service; [None] is the
    [continue] of an opted-out host. *)
Definition target_of (ns svc host : string) (win : hostWinner) : option target :=
  let anno := hw_annotations win in
  if String.eqb (anno⟦annoProbeOptOut⟧) "false" then None
  else
    let override := TrimSpace (anno⟦annoProbePath⟧) in
    let path := if nonempty override then normalizePath override else hw_path win in
    let m := TrimSpace (anno⟦annoProbeMethod⟧) in
    let method := if nonempty m then ToUpper m else "GET" in
    let '(matcher, expectStr, _) := parseExpect (anno⟦annoProbeExpect⟧) in
    Some (mkTarget (ns +:+ "/" +:+ svc +:+ "/" +:+ host) host ("https://" +:+ host +:+ path)
            method matcher expectStr).

(** The services of a catalog, in order, with their namespaces. *)
Definition catalog_services (cat : Catalog) : list (string * ServiceRef) :=
  cat_Applications cat ≫= λ app, (λ svc, (app_Namespace app, svc)) <$> app_Services app.

(** Each service's winners are a fresh map: [rts i] is the runtime of the
    [i]-th range. *)
Definition service_targets (rt : GoRuntime) (ns : string) (svc : ServiceRef) : list target :=
  omap (λ '(host, win), target_of ns (svc_Name svc) host win)
    (map_range (winningRoutesByHost (svc_Routes svc))).

Definition buildTargets (rts : nat → GoRuntime) (rt : GoRuntime) (cat : option Catalog)
    : list target :=
  match cat with
  | None => []
  | Some cat =>
      sort_slice (less_by t_key)
        (mjoin (imap (λ i '(ns, svc), service_targets (rts i) ns svc) (catalog_services cat)))
  end.
End targets.

(** ** Probing *)

(** One probe's environment: the error of [NewRequestWithContext] for a method
    and URL, the outcome of the [n]-th request, and the time it is over. *)
Record ProbeEnv := mkProbeEnv {
  pe_new : string → string → option GoErr;
  pe_do : nat → Z + GoErr;
  pe_now : Z;
}.

Definition doRequest (env : ProbeEnv) (attempt : nat) (t : target) : Z * option GoErr :=
  match pe_new env (t_method t) (t_url t) with
  | Some err => (0%Z, Some err)
  | None =>
      match pe_do env attempt with
      | inr err => (0%Z, Some err)
      | inl code => (code, None)
      end
  end.

(** The loop over the attempts that are left.  The error the context may store
    while the loop waits between attempts is overwritten by the request. *)
Fixpoint attempt_loop (env : ProbeEnv) (t : target) (left_ attempt : nat)
    (code : Z) (lastErr : option GoErr) : Z * option GoErr :=
  match left_ with
  | 0 => (code, lastErr)
  | S left_ =>
      let '(code, lastErr) := doRequest env attempt t in
      match lastErr with
      | None => (code, None)
      | Some _ => attempt_loop env t left_ (S attempt) code lastErr
      end
  end.

Definition afterLastColon (msg : string) : string :=
  match CutLast msg ": " with
  | Some (_, rest) => TrimSpace rest
  | None => msg
  end.

Section probing.
Context {GU : GoUnicode}.

Definition shortReason (err : option GoErr) : string :=
  match err with
  | None => EmptyString
  | Some err =>
      if err_deadline err then "timeout"
      else
        let msg := err_Error err in
        let lower := ToLower msg in
        if Contains lower "no such host" then "dns lookup failed"
        else if Contains lower "connection refused" then "connection refused"
        else if Contains lower "timeout" || Contains lower "deadline exceeded" then "timeout"
        else if Contains lower "x509" || Contains lower "certificate" || Contains lower "tls"
        then "tls error: " +:+ afterLastColon msg
        else afterLastColon msg
  end.

Definition probeOne (env : ProbeEnv) (t : target) : ReachabilityResult :=
  let '(code, lastErr) := attempt_loop env t probeAttempts 0 0%Z None in
  match lastErr with
  | Some _ =>
      mkReachabilityResult (t_host t) (t_url t) statusUnknown 0 (t_expectStr t)
        (shortReason lastErr) (pe_now env)
  | None =>
      if matches (t_expect t) code then
        mkReachabilityResult (t_host t) (t_url t) statusReachable code (t_expectStr t)
          EmptyString (pe_now env)
      else
        mkReachabilityResult (t_host t) (t_url t) statusUnreachable code (t_expectStr t)
          ("expected " +:+ t_expectStr t +:+ ", got " +:+ Itoa code) (pe_now env)
  end.

(** [results[t.key] = res] under the mutex, for the job of index [i]. *)
Definition record_result (envs : nat → ProbeEnv) (results : gmap string ReachabilityResult)
    (j : nat * target) : gmap string ReachabilityResult :=
  <[t_key (snd j) := probeOne (envs (fst j)) (snd j)]> results.

(** The jobs of a cycle, numbered. *)
Definition probe_jobs (targets : list target) : list (nat * target) := imap pair targets.

(** [Probe] when the goroutines record their results in the order [sched]. *)
Definition Probe (rts : nat → GoRuntime) (rt : GoRuntime) (envs : nat → ProbeEnv)
    (sched : list (nat * target) → list (nat * target)) (cat : option Catalog)
    : gmap string ReachabilityResult :=
  let targets := buildTargets rts rt cat in
  match targets with
  | [] => ∅
  | _ => foldl (record_result envs) ∅ (sched (probe_jobs targets))
  end.
End probing.

(** ** Metrics *)

Definition add (c : option Z) (n : Z) : option Z :=
  match c with
  | None => None
  | Some v => if (0 <? n)%Z then Some (v + n)%Z else Some v
  end.

Definition count_status {rt : GoRuntime} (status : string)
    (results : gmap string ReachabilityResult) : Z :=
  foldl (λ n '(_, r), if String.eqb (reach_Status r) status then (n + 1)%Z else n)
    0%Z (map_range results).

Definition recordMetrics {rt : GoRuntime} (p : Prober)
    (results : gmap string ReachabilityResult) : Prober :=
  mkProber (pr_concurrency p)
    (add (pr_probes p) (Z.of_nat (size results)))
    (add (pr_reachable p) (count_status statusReachable results))
    (add (pr_unreachable p) (count_status statusUnreachable results))
    (add (pr_unknown p) (count_status statusUnknown results)).

(** ** The store *)

(** The snapshot pointer; [None] is a pointer never stored to. *)
Record StoreT := mkStore { snapshot : option (gmap string ReachabilityResult) }.

Definition NewStore : StoreT := mkStore (Some ∅).

Definition Store (s : StoreT) (results : option (gmap string ReachabilityResult)) : StoreT :=
  mkStore (Some (default ∅ results)).

Definition zero_reachability : ReachabilityResult :=
  mkReachabilityResult EmptyString EmptyString EmptyString 0 EmptyString EmptyString 0.

Definition Lookup (s : StoreT) (key : string) : ReachabilityResult * bool :=
  match snapshot s with
  | None => (zero_reachability, false)
  | Some m =>
      match m !! key with
      | Some res => (res, true)
      | None => (zero_reachability, false)
      end
  end.

Definition All {rt : GoRuntime} (s : StoreT) : list ReachabilityResult :=
  match snapshot s with
  | None => []
  | Some m => sort_slice (less_by2 reach_Host reach_URL) ((map_range m).*2)
  end.

(** ** Normalised paths *)

Lemma normalizePath_body s :
  normalizePath s = String "/" (Trim s "/"%char).
Proof. done. Qed.

(** A normalised path is the root, or starts with exactly one slash and ends
    with none; normalising twice changes nothing, and surrounding slashes of
    the input do not matter. *)
Theorem normalizePath_spec (p : string) :
  (∃ body, normalizePath p = "/" +:+ body ∧ (∀ r, body ≠ "/" +:+ r) ∧ (∀ r, body ≠ r +:+ "/")) ∧
  normalizePath (normalizePath p) = normalizePath p ∧
  normalizePath ("/" +:+ p) = normalizePath p ∧
  (∀ body, (∀ r, body ≠ "/" +:+ r) → (∀ r, body ≠ r +:+ "/") →
     normalizePath ("/" +:+ body) = "/" +:+ body).
Proof.
  destruct (Trim_ends p "/"%char) as [H1 H2].
  split_and!.
  - exists (Trim p "/"%char). done.
  - rewrite (normalizePath_body p). unfold normalizePath. rewrite Trim_slash_body by done. done.
  - reflexivity.
  - intros body Hb1 Hb2.
    change (String "/" (Trim (String "/" body) "/"%char) = String "/" body).
    by rewrite (Trim_slash_body body).
Qed.

Lemma normalizePath_spec_witness :
  normalizePath "/" = "/" ∧ normalizePath "/dev/addon" = "/dev/addon".
Proof.
  split.
  - apply (proj2 (proj2 (proj2 (normalizePath_spec "")))) with (body := EmptyString);
      intros [|? [|? ?]]; discriminate.
  - apply (proj2 (proj2 (proj2 (normalizePath_spec "")))) with (body := "dev/addon").
    + intros r. discriminate.
    + intros r E. apply (f_equal String.rev) in E. rewrite string_rev_app in E. discriminate E.
Defined.

(** ** The winning route of a host *)

Abbreviation route_path r := (shortestPrefix (route_PathPrefixes r)).

Definition winner_of (r : RouteRef) : hostWinner :=
  mkHostWinner (route_path r) (route_Annotations r).

Definition better (path : string) (anno : smap) (cur : option hostWinner) : option hostWinner :=
  match cur with
  | Some c => if Nat.ltb (String.length path) (String.length (hw_path c))
              then Some (mkHostWinner path anno) else Some c
  | None => Some (mkHostWinner path anno)
  end.

Lemma better_idemp path anno cur : better path anno (better path anno cur) = better path anno cur.
Proof.
  unfold better. destruct cur as [c|]; simpl; [|by rewrite Nat.ltb_irrefl].
  destruct (Nat.ltb _ (String.length (hw_path c))) eqn:E; simpl; [by rewrite Nat.ltb_irrefl|by rewrite E].
Qed.

Lemma winning_host_step_lookup path anno m h h' :
  winning_host_step path anno m h' !! h =
  if bool_decide (h ≠ EmptyString ∧ h = h') then better path anno (m !! h) else m !! h.
Proof.
  unfold winning_host_step. destruct (String.eqb_spec h' EmptyString) as [->|Hne].
  - rewrite bool_decide_eq_false_2; [done|]. naive_solver.
  - case_bool_decide as Hh.
    + destruct Hh as [_ ->]. unfold better.
      destruct (m !! h') as [c|] eqn:E; [|by rewrite lookup_insert_eq].
      destruct (Nat.ltb _ _); [by rewrite lookup_insert_eq|done].
    + assert (h' ≠ h) by (intros ->; naive_solver).
      destruct (m !! h') as [c|] eqn:E; [|by rewrite lookup_insert_ne].
      destruct (Nat.ltb _ _); [by rewrite lookup_insert_ne|done].
Qed.

Lemma winning_hosts_lookup path anno hosts m h :
  foldl (winning_host_step path anno) m hosts !! h =
  if bool_decide (h ≠ EmptyString ∧ h ∈ hosts) then better path anno (m !! h) else m !! h.
Proof.
  induction hosts as [|h' hosts IH] using rev_ind; simpl.
  - rewrite bool_decide_eq_false_2; [done|]. set_solver.
  - rewrite foldl_app. simpl. rewrite winning_host_step_lookup, IH.
    repeat case_bool_decide; try done; try set_solver. by rewrite better_idemp.
Qed.

(** [r] is the first of [routes] that exposes [h] with the shortest path. *)
Definition first_shortest (routes : list RouteRef) (h : string) (r : RouteRef) : Prop :=
  ∃ pre post, routes = pre ++ r :: post ∧ h ∈ route_Hosts r ∧
    (∀ r', r' ∈ pre → h ∈ route_Hosts r' →
       String.length (route_path r) < String.length (route_path r')) ∧
    (∀ r', r' ∈ post → h ∈ route_Hosts r' →
       String.length (route_path r) ≤ String.length (route_path r')).

Lemma first_shortest_unique routes h r1 r2 :
  first_shortest routes h r1 → first_shortest routes h r2 → r1 = r2.
Proof.
  intros (p1 & q1 & E1 & H1 & Hp1 & Hq1) (p2 & q2 & E2 & H2 & Hp2 & Hq2).
  rewrite E1 in E2. apply app_eq_app in E2 as (k & [[-> E]|[-> E]]); destruct k as [|r k];
    try (by injection E); injection E as <- ->; exfalso.
  - pose proof (Hp1 r2 ltac:(set_solver) H2). pose proof (Hq2 r1 ltac:(set_solver) H1). lia.
  - pose proof (Hp2 r1 ltac:(set_solver) H1). pose proof (Hq1 r2 ltac:(set_solver) H2). lia.
Qed.

Lemma winningRoutes_cases routes h :
  h ≠ EmptyString →
  (winningRoutesByHost routes !! h = None ∧ ∀ r, r ∈ routes → h ∉ route_Hosts r) ∨
  (∃ r, first_shortest routes h r ∧ winningRoutesByHost routes !! h = Some (winner_of r)).
Proof.
  intros Hne. unfold winningRoutesByHost.
  induction routes as [|r0 routes IH] using rev_ind; simpl.
  { left. split; [apply lookup_empty|]. set_solver. }
  rewrite foldl_app. simpl. unfold winning_route_step at 1 3. rewrite winning_hosts_lookup.
  destruct (decide (h ∈ route_Hosts r0)) as [Hr0|Hr0].
  - rewrite bool_decide_eq_true_2 by done. right.
    destruct IH as [[-> Hno]|(r & (pre & post & -> & Hr & Hpre & Hpost) & ->)].
    + exists r0. split; [|done]. exists routes, []. split_and!; [done..| |by intros ? ?%elem_of_nil].
      intros r' ? Hr'. by destruct (Hno r').
    + simpl. destruct (Nat.ltb_spec (String.length (route_path r0)) (String.length (route_path r))) as [Hlt|Hge].
      * exists r0. split; [|done]. exists (pre ++ r :: post), [].
        split_and!; [done..| |by intros ? ?%elem_of_nil].
        intros r'. rewrite elem_of_app, elem_of_cons. intros [Hin|[->|Hin]] Hh; [|done|].
        -- specialize (Hpre r' Hin Hh). lia.
        -- specialize (Hpost r' Hin Hh). lia.
      * exists r. split; [|done]. exists pre, (post ++ [r0]).
        rewrite <- app_assoc. split_and!; [done..|].
        intros r'. rewrite elem_of_app, list_elem_of_singleton. intros [Hin| ->]; [by apply Hpost|done].
  - rewrite bool_decide_eq_false_2 by naive_solver.
    destruct IH as [[-> Hno]|(r & (pre & post & -> & Hr & Hpre & Hpost) & ->)]; [left|right].
    + split; [done|]. intros r. rewrite elem_of_app, list_elem_of_singleton.
      intros [?| ->]; [by apply Hno|done].
    + exists r. split; [|done]. exists pre, (post ++ [r0]).
      rewrite <- app_assoc. split_and!; [done..|].
      intros r'. rewrite elem_of_app, list_elem_of_singleton. intros [Hin| ->]; [by apply Hpost|done].
Qed.

Lemma winningRoutes_blank routes : winningRoutesByHost routes !! EmptyString = None.
Proof.
  unfold winningRoutesByHost. induction routes as [|r0 routes IH] using rev_ind; [apply lookup_empty|].
  rewrite foldl_app. simpl. unfold winning_route_step at 1. rewrite winning_hosts_lookup, IH.
  rewrite bool_decide_eq_false_2; naive_solver.
Qed.

(** A host is probed through the first of the routes that expose it with the
    shortest path: strictly shorter than those listed before it and no longer
    than those after it.  A host no route exposes, or a blank one, has none. *)
Theorem winningRoutesByHost_spec (routes : list RouteRef) (h : string) (w : hostWinner) :
  winningRoutesByHost routes !! h = Some w ↔
  h ≠ EmptyString ∧ ∃ r, first_shortest routes h r ∧ w = winner_of r.
Proof.
  destruct (decide (h = EmptyString)) as [->|Hne].
  { rewrite winningRoutes_blank. naive_solver. }
  destruct (winningRoutes_cases routes h Hne) as [[-> Hno]|(r & Hr & ->)].
  - split; [done|]. intros (_ & r & (pre & post & -> & Hh & _) & _).
    destruct (Hno r); [|done]. rewrite elem_of_app, elem_of_cons. auto.
  - split; [intros [= <-]; eauto|]. intros (_ & r' & Hr' & ->).
    by rewrite (first_shortest_unique routes h r r').
Qed.

(** ** Targets *)

Definition target_key (ns svc host : string) : string := ns +:+ "/" +:+ svc +:+ "/" +:+ host.

Lemma target_key_inj ns svc host ns' svc' host' :
  lacks "/"%char ns = true → lacks "/"%char svc = true →
  lacks "/"%char ns' = true → lacks "/"%char svc' = true →
  target_key ns svc host = target_key ns' svc' host' → ns = ns' ∧ svc = svc' ∧ host = host'.
Proof.
  intros H1 H2 H3 H4 E. unfold target_key in E.
  apply (sep_inj "/"%char) in E as [-> E]; [|done..].
  by apply (sep_inj "/"%char) in E as [-> ->].
Qed.

(** Namespace and Service names hold no slash. *)
Definition named_services (l : list (string * ServiceRef)) : Prop :=
  Forall (λ '(ns, s), lacks "/"%char ns = true ∧ lacks "/"%char (svc_Name s) = true) l.

(** Entries for one Service carry the same routes. *)
Definition services_agree (l : list (string * ServiceRef)) : Prop :=
  ∀ ns s s', (ns, s) ∈ l → (ns, s') ∈ l → svc_Name s = svc_Name s' → svc_Routes s = svc_Routes s'.

Definition service_id (x : string * ServiceRef) : string * string := (x.1, svc_Name x.2).

Section target_lemmas.
Context {GU : GoUnicode}.

Lemma target_of_key ns svc host win t :
  target_of ns svc host win = Some t → t_key t = target_key ns svc host.
Proof.
  unfold target_of. destruct (String.eqb _ _); [done|].
  destruct (parseExpect _) as [[m s] o]. by intros [= <-].
Qed.

Lemma service_targets_elem rt ns svc t :
  t ∈ service_targets rt ns svc ↔
  ∃ host win, winningRoutesByHost (svc_Routes svc) !! host = Some win ∧
              target_of ns (svc_Name svc) host win = Some t.
Proof.
  unfold service_targets. rewrite list_elem_of_omap. split.
  - intros ([host win] & Hin%map_range_elem_of & E). eauto.
  - intros (host & win & Hin & E). exists (host, win). split; [by apply map_range_elem_of|done].
Qed.

Lemma service_targets_perm rt1 rt2 ns svc :
  service_targets rt1 ns svc ≡ₚ service_targets rt2 ns svc.
Proof. unfold service_targets. apply omap_perm. by rewrite !map_range_perm. Qed.

Definition all_targets (rts : nat → GoRuntime) (l : list (string * ServiceRef)) : list target :=
  mjoin (imap (λ i '(ns, svc), service_targets (rts i) ns svc) l).

Lemma all_targets_cons rts ns svc l :
  all_targets rts ((ns, svc) :: l) = service_targets (rts 0) ns svc ++ all_targets (rts ∘ S) l.
Proof. reflexivity. Qed.

Lemma all_targets_elem rts l t :
  t ∈ all_targets rts l ↔
  ∃ ns svc host win, (ns, svc) ∈ l ∧ winningRoutesByHost (svc_Routes svc) !! host = Some win ∧
                     target_of ns (svc_Name svc) host win = Some t.
Proof.
  revert rts. induction l as [|[ns svc] l IH]; intros rts.
  - unfold all_targets. simpl. rewrite elem_of_nil. setoid_rewrite elem_of_nil. naive_solver.
  - rewrite all_targets_cons, elem_of_app, service_targets_elem, IH.
    setoid_rewrite elem_of_cons. naive_solver.
Qed.

Lemma all_targets_perm rts1 rts2 l : all_targets rts1 l ≡ₚ all_targets rts2 l.
Proof.
  revert rts1 rts2. induction l as [|[ns svc] l IH]; intros rts1 rts2; [done|].
  rewrite !all_targets_cons. apply Permutation_app; [apply service_targets_perm|apply IH].
Qed.

Lemma service_targets_NoDup rt ns svc : NoDup (t_key <$> service_targets rt ns svc).
Proof.
  unfold service_targets. pose proof (map_range_NoDup (winningRoutesByHost (svc_Routes svc))) as H.
  revert H. generalize (map_range (winningRoutesByHost (svc_Routes svc))). intros l.
  induction l as [|[h w] l IH]; simpl; intros Hnd; [constructor|].
  apply NoDup_cons in Hnd as [Hh Hnd]. specialize (IH Hnd).
  destruct (target_of ns (svc_Name svc) h w) as [t|] eqn:E; simpl; [|done].
  apply NoDup_cons. split; [|done]. intros (t' & Hk & Ht')%list_elem_of_fmap.
  apply list_elem_of_omap in Ht' as ([h' w'] & Hin & E').
  apply target_of_key in E, E'. rewrite E, E' in Hk. apply Hh.
  unfold target_key in Hk. apply str_app_inv_l, (str_app_inv_l _ _ "/"), str_app_inv_l,
    (str_app_inv_l _ _ "/") in Hk as ->.
  apply list_elem_of_fmap. by exists (h', w').
Qed.

Lemma all_targets_NoDup rts l :
  named_services l → NoDup (service_id <$> l) → NoDup (t_key <$> all_targets rts l).
Proof.
  revert rts. induction l as [|[ns svc] l IH]; intros rts Hn Hnd; [constructor|].
  apply Forall_cons in Hn as [[Hn1 Hn2] Hn]. rewrite fmap_cons in Hnd.
  apply NoDup_cons in Hnd as [Hid Hnd].
  rewrite all_targets_cons, fmap_app. apply NoDup_app.
  split_and!; [apply service_targets_NoDup| |by apply IH].
  intros k (t & -> & Ht)%list_elem_of_fmap (t' & Hk & Ht')%list_elem_of_fmap.
  apply service_targets_elem in Ht as (h & w & _ & E).
  apply all_targets_elem in Ht' as (ns' & svc' & h' & w' & Hin & _ & E').
  apply target_of_key in E, E'. rewrite E, E' in Hk. apply Hid.
  rewrite Forall_forall in Hn. destruct (Hn _ Hin) as [Hn3 Hn4].
  apply target_key_inj in Hk as (-> & Hsvc & _); [|done..].
  apply list_elem_of_fmap. exists (ns', svc'). unfold service_id. simpl in *. by rewrite Hsvc.
Qed.

Lemma all_targets_agree rts l t t' :
  named_services l → services_agree l →
  t ∈ all_targets rts l → t' ∈ all_targets rts l → t_key t = t_key t' → t = t'.
Proof.
  intros Hn Ha (ns & s & h & w & Hin & Hw & E)%all_targets_elem
    (ns' & s' & h' & w' & Hin' & Hw' & E')%all_targets_elem Hk.
  pose proof (target_of_key _ _ _ _ _ E) as K. pose proof (target_of_key _ _ _ _ _ E') as K'.
  rewrite K, K' in Hk. unfold named_services in Hn. rewrite Forall_forall in Hn.
  destruct (Hn _ Hin) as [? ?], (Hn _ Hin') as [? ?].
  apply target_key_inj in Hk as (-> & Hs & ->); [|done..].
  rewrite (Ha ns' s s') in Hw by done. rewrite Hs in E. congruence.
Qed.
End target_lemmas.

(** *** What a target is, in terms of the routes and annotations *)

(** Where a route with these prefixes mounts: at the first of the shortest ones,
    without its outer slashes, or at the root when there is none. *)
Definition mount_path (prefixes : list string) (path : string) : Prop :=
  ∃ raw body, (prefixes = [] ∧ raw = EmptyString ∨ first_min String.length prefixes raw) ∧
    trimmed "/" raw body ∧ path = "/" +:+ body.

(** [r], mounted at [path], governs the host: the shortest path of the routes that
    expose it, the first of equals. *)
Definition governs (routes : list RouteRef) (host : string) (r : RouteRef) (path : string) : Prop :=
  ∃ pre post, routes = pre ++ r :: post ∧ host ∈ route_Hosts r ∧ mount_path (route_PathPrefixes r) path ∧
    (∀ r' path', r' ∈ pre → host ∈ route_Hosts r' → mount_path (route_PathPrefixes r') path' →
       String.length path < String.length path') ∧
    (∀ r' path', r' ∈ post → host ∈ route_Hosts r' → mount_path (route_PathPrefixes r') path' →
       String.length path ≤ String.length path').

(** The probe of a host under the annotations of the route that governs it. *)
Record probe_of {GU : GoUnicode} (ns svc : string) (anno : smap) (path : string) (t : target) : Prop := {
  po_in : anno⟦"dfds.cloud/reachability-probe"⟧ ≠ "false";
  po_key : t_key t = ns +:+ "/" +:+ svc +:+ "/" +:+ t_host t;
  po_url : ∃ p, t_url t = "https://" +:+ t_host t +:+ p ∧
    let override := TrimSpace (anno⟦"dfds.cloud/reachability-path"⟧) in
    (override = EmptyString ∧ p = path ∨
     override ≠ EmptyString ∧ ∃ body, trimmed "/" override body ∧ p = "/" +:+ body);
  po_method : let m := TrimSpace (anno⟦"dfds.cloud/reachability-method"⟧) in
    (m = EmptyString ∧ t_method t = "GET" ∨ m ≠ EmptyString ∧ t_method t = ToUpper m);
  po_expect : (t_expect t, t_expectStr t) = (parseExpect (anno⟦"dfds.cloud/reachability-expect"⟧)).1;
}.

(** The targets of one Service. *)
Definition probed_by {GU : GoUnicode} (ns : string) (svc : ServiceRef) (t : target) : Prop :=
  t_host t ≠ EmptyString ∧
  ∃ r path, governs (svc_Routes svc) (t_host t) r path ∧ probe_of ns (svc_Name svc) (route_Annotations r) path t.

Lemma mount_path_iff prefixes path : mount_path prefixes path ↔ path = shortestPrefix prefixes.
Proof.
  unfold mount_path. setoid_rewrite <- Trim_iff. unfold shortestPrefix, normalizePath.
  destruct prefixes as [|best rest].
  - split; [|by intros ->; exists EmptyString, EmptyString; auto].
    intros (raw & body & [[_ ->]|(pre & post & E & _)] & <- & ->); [done|by destruct pre].
  - pose proof (foldl_min_first String.length best rest) as H. split.
    + intros (raw & body & [[[=] _]|Hr] & <- & ->). by rewrite (first_min_unique _ _ _ _ H Hr).
    + intros ->. eexists _, _. split_and!; [by right|done|done].
Qed.

Lemma governs_iff routes host r path :
  governs routes host r path ↔ first_shortest routes host r ∧ path = route_path r.
Proof.
  unfold governs, first_shortest. setoid_rewrite mount_path_iff. split.
  - intros (pre & post & E & Hh & -> & H1 & H2). split; [|done]. exists pre, post. split_and!; eauto.
  - intros [(pre & post & E & Hh & H1 & H2) ->]. exists pre, post. split_and!; [done..| |];
      intros r' p Hr Hh' ->; auto.
Qed.

Lemma target_of_iff {GU : GoUnicode} ns svc host r t :
  target_of ns svc host (winner_of r) = Some t ↔
  t_host t = host ∧ probe_of ns svc (route_Annotations r) (route_path r) t.
Proof.
  unfold target_of, winner_of. cbn [hw_annotations hw_path]. set (anno := route_Annotations r).
  destruct (parseExpect _) as [[m s] o] eqn:Ex. change annoProbeExpect with "dfds.cloud/reachability-expect" in Ex.
  destruct (String.eqb_spec (anno⟦annoProbeOptOut⟧) "false") as [Eo|Eo].
  { split; [done|]. intros [_ [Hin _ _ _ _]]. by destruct Hin. }
  unfold nonempty. split.
  - intros [= <-]. simpl. split; [done|]. split; cbn [t_key t_host t_url t_method t_expect t_expectStr]; [done|done| | |by rewrite Ex].
    + eexists. split; [reflexivity|]. destruct (String.eqb_spec (TrimSpace (anno⟦annoProbePath⟧)) EmptyString) as [E|E].
      * by left.
      * right. split; [done|]. eexists. split; [by apply Trim_iff|done].
    + destruct (String.eqb_spec (TrimSpace (anno⟦annoProbeMethod⟧)) EmptyString); [by left|by right].
  - intros [<- [_ Hk (p & Hu & Hp) Hm He]]. rewrite Ex in He. simpl in He. destruct t as [k h u me e es]. cbn in *. subst k u.
    injection He as -> ->. do 2 f_equal.
    + do 2 f_equal. destruct Hp as [[E ->]|(E & body & <-%Trim_iff & ->)].
      * change annoProbePath with "dfds.cloud/reachability-path". by rewrite E.
      * change annoProbePath with "dfds.cloud/reachability-path". by rewrite (proj2 (String.eqb_neq _ _) E).
    + change annoProbeMethod with "dfds.cloud/reachability-method".
      destruct Hm as [[E ->]|[E ->]]; [by rewrite E|by rewrite (proj2 (String.eqb_neq _ _) E)].
Qed.

Lemma service_targets_iff {GU : GoUnicode} rt ns svc t : t ∈ service_targets rt ns svc ↔ probed_by ns svc t.
Proof.
  rewrite service_targets_elem. unfold probed_by. setoid_rewrite governs_iff. setoid_rewrite winningRoutesByHost_spec. split.
  - intros (host & win & (Hh & r & Hr & ->) & [<- Hp]%target_of_iff). split; [done|]. by exists r, (route_path r).
  - intros (Hh & r & path & [Hr ->] & Hp). exists (t_host t), (winner_of r).
    split; [split; [done|by exists r]|by apply target_of_iff].
Qed.

Lemma service_targets_hosts {GU : GoUnicode} rt ns svc : NoDup (t_host <$> service_targets rt ns svc).
Proof.
  pose proof (service_targets_NoDup rt ns svc) as H.
  assert (∀ l : list target, (∀ t, t ∈ l → t_key t = target_key ns (svc_Name svc) (t_host t)) →
    t_key <$> l = target_key ns (svc_Name svc) <$> (t_host <$> l)) as E.
  { intros l. induction l as [|t l IH]; intros Hl; [done|]. cbn. f_equal; [apply Hl; left|apply IH; intros; apply Hl; by right]. }
  rewrite E in H; [by apply NoDup_fmap_1 in H|].
  intros t (_ & r & path & _ & [_ Hk _ _ _])%service_targets_iff. exact Hk.
Qed.

(** C18: a cycle probes exactly the exposed hosts.  The targets are, in key order,
    those of the catalog's Services: one for each host a Service exposes, unless the
    route that governs the host opts it out.  That route is the one with the shortest
    path, the first of equals; its annotations decide the probe: the path (its own,
    or an override without outer slashes), the method ([GET], or an override in
    upper case) and the expected status.  Without a catalog nothing is probed. *)
Theorem buildTargets_spec (GU : GoUnicode) (rts : nat → GoRuntime) (rt : GoRuntime) (cat : Catalog) :
  (∃ per, buildTargets rts rt (Some cat) ≡ₚ mjoin per ∧
     Forall2 (λ x ts, NoDup (t_host <$> ts) ∧ ∀ t, t ∈ ts ↔ probed_by x.1 x.2 t) (catalog_services cat) per) ∧
  Sorted (λ x y, less_by t_key y x = false) (buildTargets rts rt (Some cat)) ∧
  buildTargets rts rt None = [].
Proof.
  split_and!; [|apply sort_slice_sorted; auto with go|done].
  exists (imap (λ i '(ns, svc), service_targets (rts i) ns svc) (catalog_services cat)). split.
  { unfold buildTargets. by rewrite sort_slice_perm. }
  apply Forall2_lookup. intros i. rewrite list_lookup_imap.
  destruct (catalog_services cat !! i) as [[ns svc]|]; simpl; constructor.
  split; [apply service_targets_hosts|]. intros t. apply service_targets_iff.
Qed.

(** The targets of a cycle are a function of the catalog: they do not depend
    on the order of any map range nor on the sort, even when several workloads
    list the same Service. *)
Theorem buildTargets_deterministic (GU : GoUnicode) (rts rts' : nat → GoRuntime) (rt rt' : GoRuntime)
    (cat : Catalog) :
  named_services (catalog_services cat) → services_agree (catalog_services cat) →
  buildTargets rts rt (Some cat) = buildTargets rts' rt' (Some cat).
Proof.
  intros Hn Ha. apply sort_slice_det; [auto with go|apply all_targets_perm|].
  intros x y Hx Hy H1 H2. apply (all_targets_agree rts _ x y Hn Ha Hx Hy).
  by apply str_ltb_tricho.
Qed.

(** A workload behind two routes, the second one opting out. *)
Definition ascii_unicode : GoUnicode :=
  {| wide_lower := λ s, s; wide_upper := λ s, s; wide_quote := λ s, s |}.

Definition demo_route (host path : string) (anno : smap) : RouteRef :=
  mkRouteRef "r" "IngressRoute" [host] [path] [] true anno.

Definition demo_svc (name : string) (routes : list RouteRef) : ServiceRef :=
  mkServiceRef name "ClusterIP" "" [] [] routes [] [].

Definition demo_app (ns name : string) (svcs : list ServiceRef) : ApplicationEntry :=
  mkApplicationEntry "c" ns name "Deployment" "" 1 1 [] [] None "" "" None svcs [] [] ""
    f64_zero f64_zero None None.

Definition demo_catalog (apps : list ApplicationEntry) : Catalog :=
  mkCatalog "c" apps [] [] 0 0 zero_stats.

Definition demo_probe_catalog : Catalog :=
  demo_catalog
    [ demo_app "ns" "web"
        [ demo_svc "web" [ demo_route "b.example.com" "/app/deep" None;
                           demo_route "b.example.com" "/app/" None;
                           demo_route "a.example.com" "x" (Some {[ annoProbeExpect := "2xx" ]});
                           demo_route "c.example.com" "" (Some {[ annoProbeOptOut := "false" ]}) ] ] ].

Example demo_targets :
  (λ t, (t_url t, t_expectStr t)) <$>
    buildTargets (GU := ascii_unicode) (λ _, reverse_runtime) insertion_runtime (Some demo_probe_catalog)
  = [("https://a.example.com/x", "2xx"); ("https://b.example.com/app", "200")].
Proof. vm_compute. reflexivity. Qed.

Lemma demo_probe_named : named_services (catalog_services demo_probe_catalog).
Proof. by repeat constructor. Qed.

Lemma demo_probe_agree : services_agree (catalog_services demo_probe_catalog).
Proof.
  intros ns s s' H1 H2 _.
  apply list_elem_of_singleton in H1. apply list_elem_of_singleton in H2.
  by simplify_eq.
Qed.

Lemma buildTargets_deterministic_witness :
  buildTargets (GU := ascii_unicode) (λ _, insertion_runtime) insertion_runtime (Some demo_probe_catalog)
  = buildTargets (GU := ascii_unicode) (λ _, reverse_runtime) reverse_runtime (Some demo_probe_catalog).
Proof.
  apply (buildTargets_deterministic ascii_unicode).
  - exact demo_probe_named.
  - exact demo_probe_agree.
Defined.

(** ** Verdicts *)

(** What one request of the probe gives. *)
Definition request (env : ProbeEnv) (t : target) (n : nat) : Z + GoErr :=
  match pe_new env (t_method t) (t_url t) with
  | Some err => inr err
  | None => pe_do env n
  end.

(** A probe makes at most two requests: the second only when the first one
    failed in transport, and the last one decides.  A response is reachable when
    its code meets the expectation and unreachable when it does not; two failed
    requests are unknown, without a code. *)
Theorem probeOne_spec (GU : GoUnicode) (env : ProbeEnv) (t : target) :
  let last := match request env t 0 with inl code => inl code | inr _ => request env t 1 end in
  let res := probeOne env t in
  reach_Host res = t_host t ∧ reach_URL res = t_url t ∧ reach_Expected res = t_expectStr t ∧
  reach_CheckedAt res = pe_now env ∧
  match last with
  | inl code =>
      reach_StatusCode res = code ∧
      (reach_Status res = statusReachable ↔ matches (t_expect t) code = true) ∧
      (reach_Status res = statusUnreachable ↔ matches (t_expect t) code = false) ∧
      (reach_Reason res = EmptyString ↔ matches (t_expect t) code = true)
  | inr err =>
      reach_StatusCode res = 0%Z ∧ reach_Status res = statusUnknown ∧
      reach_Reason res = shortReason (Some err)
  end.
Proof.
  cbn zeta. unfold probeOne, probeAttempts, request, attempt_loop, doRequest.
  destruct (pe_new env (t_method t) (t_url t)) as [e|].
  { by split_and!. }
  destruct (pe_do env 0) as [code|e0]; [|destruct (pe_do env 1) as [code|e1]; [|by split_and!]];
    (destruct (matches (t_expect t) code); by split_and!).
Qed.

(** ** The verdict map *)

Section verdicts.
Context {GU : GoUnicode} (envs : nat → ProbeEnv).

Definition result_sel (j : nat * target) : option (string * ReachabilityResult) :=
  Some (t_key j.2, probeOne (envs j.1) j.2).

Lemma record_result_index jobs :
  foldl (record_result envs) ∅ jobs = index_by result_sel jobs.
Proof. reflexivity. Qed.

Lemma probe_jobs_elem targets i t : (i, t) ∈ probe_jobs targets ↔ targets !! i = Some t.
Proof.
  unfold probe_jobs. rewrite elem_of_lookup_imap. split.
  - by intros (j & y & [= -> ->] & H).
  - intros H. by exists i, t.
Qed.

Lemma probe_jobs_snd targets : (probe_jobs targets).*2 = targets.
Proof.
  unfold probe_jobs. apply list_eq. intros i.
  rewrite list_lookup_fmap, list_lookup_imap. by destruct (targets !! i).
Qed.

Lemma result_functional targets :
  NoDup (t_key <$> targets) → index_functional result_sel (probe_jobs targets).
Proof.
  intros Hnd [i t] [j u] k v w Hx%probe_jobs_elem Hy%probe_jobs_elem [= <- <-] [= Hk <-].
  assert (i = j) as ->; [|by simplify_eq].
  eapply (NoDup_lookup (t_key <$> targets)); [done| |]; rewrite list_lookup_fmap.
  - by rewrite Hx.
  - rewrite Hy. simpl. by rewrite Hk.
Qed.

Lemma record_perm targets order :
  order ≡ₚ probe_jobs targets → NoDup (t_key <$> targets) →
  foldl (record_result envs) ∅ order = foldl (record_result envs) ∅ (probe_jobs targets).
Proof.
  intros Hp Hnd. rewrite !record_result_index. symmetry.
  apply index_by_perm; [done|by apply result_functional].
Qed.

Lemma record_sound targets order k v :
  order ≡ₚ probe_jobs targets → foldl (record_result envs) ∅ order !! k = Some v →
  ∃ i t, targets !! i = Some t ∧ t_key t = k ∧ v = probeOne (envs i) t.
Proof.
  rewrite record_result_index. intros Hp ([i t] & Hx & [= <- <-])%index_by_sound.
  rewrite Hp in Hx. apply probe_jobs_elem in Hx. eauto.
Qed.

Lemma record_covers targets order t :
  order ≡ₚ probe_jobs targets → t ∈ targets →
  is_Some (foldl (record_result envs) ∅ order !! t_key t).
Proof.
  rewrite record_result_index. intros Hp (i & Hi)%list_elem_of_lookup.
  apply (index_by_covers _ _ (i, t) _ (probeOne (envs i) t)); [|done].
  rewrite Hp. by apply probe_jobs_elem.
Qed.
End verdicts.

(** The bound of the error group. *)
Definition probe_limit (p : Prober) : nat := Z.to_nat (pr_concurrency p).

Definition probe_pool {GU : GoUnicode} (p : Prober) (envs : nat → ProbeEnv)
    : pool → pool → Prop := pool_step (probe_limit p) (record_result envs).

(** C17: however the goroutines of a cycle interleave under the concurrency
    bound, when all have finished the map has one verdict for every target key
    and nothing else, each the verdict of a probe of that key; when no Service is
    listed twice the map is a function of the catalog and the responses. *)
Theorem Probe_schedule (GU : GoUnicode) (p : Prober) (rts : nat → GoRuntime) (rt : GoRuntime)
    (envs : nat → ProbeEnv) (cat : Catalog) (st : pool) :
  let targets := buildTargets rts rt (Some cat) in
  rtc (probe_pool p envs) (mkPool (probe_jobs targets) [] ∅) st → pool_done st →
  (∀ k, is_Some (pl_acc st !! k) ↔ ∃ t, t ∈ targets ∧ t_key t = k) ∧
  (∀ k v, pl_acc st !! k = Some v →
     ∃ i t, targets !! i = Some t ∧ t_key t = k ∧ v = probeOne (envs i) t) ∧
  (named_services (catalog_services cat) → NoDup (service_id <$> catalog_services cat) →
   ∀ sched, (∀ l, sched l ≡ₚ l) → pl_acc st = Probe rts rt envs sched (Some cat)).
Proof.
  cbn zeta. set (targets := buildTargets rts rt (Some cat)). intros Hr Hd.
  destruct (pool_run _ _ _ _ _ Hr Hd) as (order & Hp & Hacc). rewrite Hacc.
  assert (∀ k v, foldl (record_result envs) ∅ order !! k = Some v →
     ∃ i t, targets !! i = Some t ∧ t_key t = k ∧ v = probeOne (envs i) t) as Hsound
    by (intros k v; by apply record_sound).
  split_and!; [|done|].
  - intros k. split.
    + intros [v (i & t & Hi & Hk & _)%Hsound]. exists t. split; [|done].
      by apply list_elem_of_lookup_2 in Hi.
    + intros (t & Ht & <-). by eapply record_covers.
  - intros Hn Hid sched Hs.
    assert (NoDup (t_key <$> targets)) as Hnd.
    { unfold targets, buildTargets. rewrite sort_slice_perm. by apply all_targets_NoDup. }
    rewrite (record_perm envs targets order) by done. unfold Probe.
    change (buildTargets rts rt (Some cat)) with targets.
    assert (foldl (record_result envs) ∅ (sched (probe_jobs targets)) =
            foldl (record_result envs) ∅ (probe_jobs targets)) as H by (by apply record_perm).
    destruct targets; [done|]. by rewrite H.
Qed.

(** C37: a cycle always ends: the bound a prober is built with is positive
    whatever the configuration, so its error group never blocks, never runs more
    than that many requests at once, and every run can only go on to its end. *)
Theorem Probe_terminates (GU : GoUnicode) (concurrency : Z) (c : Counters) (envs : nat → ProbeEnv)
    (jobs : list (nat * target)) :
  let p := NewProber concurrency c in
  let start := mkPool jobs [] ∅ in
  sn (probe_pool p envs) start ∧
  ∀ st, rtc (probe_pool p envs) start st →
    length (pl_running st) ≤ probe_limit p ∧
    (pool_done st ∨ ∃ st', probe_pool p envs st st').
Proof.
  cbn zeta. split; [apply pool_terminates|]. intros st Hr. split; [by eapply pool_limit|].
  destruct st as [[|j q] [|k r] acc].
  - by left.
  - right. eexists. apply (pool_finish _ _ _ [] k r).
  - right. eexists. apply pool_start. unfold probe_limit, NewProber.
    destruct (Z.leb_spec concurrency 0); simpl; lia.
  - right. eexists. apply (pool_finish _ _ _ [] k r).
Qed.

Definition demo_env (code : Z) : ProbeEnv :=
  mkProbeEnv (λ _ _, None) (λ n, match n with 0 => inr (mkGoErr false "EOF") | _ => inl code end) 7.

Definition demo_prober : Prober := NewProber 0 (mkCounters (Some 0%Z) None None None).

Definition demo_probe_targets : list target :=
  buildTargets (GU := ascii_unicode) (λ _, insertion_runtime) insertion_runtime (Some demo_probe_catalog).

Lemma Probe_schedule_witness :
  let envs := λ i, demo_env (200 + Z.of_nat i) in
  ∃ st : @pool (nat * target) (gmap string ReachabilityResult), pool_done st ∧
    pl_acc st = Probe (GU := ascii_unicode) (λ _, insertion_runtime) insertion_runtime envs
                  (@rev (nat * target)) (Some demo_probe_catalog) ∧
    (reach_StatusCode <$> pl_acc st !! "ns/web/b.example.com") = Some 201%Z.
Proof.
  cbv zeta.
  destruct (pool_completes (probe_limit demo_prober)
    (record_result (GU := ascii_unicode) (λ i, demo_env (200 + Z.of_nat i)))
    (mkPool (probe_jobs demo_probe_targets) [] ∅)) as (st & Hr & Hd); [vm_compute; lia|].
  exists st. split; [exact Hd|].
  destruct (Probe_schedule ascii_unicode demo_prober (λ _, insertion_runtime) insertion_runtime
    (λ i, demo_env (200 + Z.of_nat i)) demo_probe_catalog st Hr Hd) as (_ & _ & Hdet).
  specialize (Hdet demo_probe_named (NoDup_singleton _) (@rev (nat * target))
    (λ l, symmetry (Permutation_rev l))).
  rewrite Hdet. split; [reflexivity|]. vm_compute. reflexivity.
Defined.

Lemma Probe_terminates_witness :
  let p := NewProber 0 (mkCounters None None None None) in
  probe_limit p = 20 ∧ ∀ jobs, length (pl_running (mkPool jobs (@nil (nat * target))
    (∅ : gmap string ReachabilityResult))) ≤ probe_limit p.
Proof.
  cbv zeta. split; [reflexivity|]. intros jobs.
  apply (Probe_terminates ascii_unicode 0 (mkCounters None None None None) (λ _, demo_env 200) jobs).
  apply rtc_refl.
Defined.

(** ** Metrics *)

Lemma count_status_filter (rt : GoRuntime) status results :
  count_status status results =
  Z.of_nat (length (List.filter (λ '(_, r), String.eqb (reach_Status r) status) (map_range results))).
Proof.
  unfold count_status.
  enough (∀ l n, foldl (λ n '(_, r), if String.eqb (reach_Status r) status then (n + 1)%Z else n) n l
    = (n + Z.of_nat (length (List.filter (λ '(_, r), String.eqb (reach_Status r) status) l)))%Z) as H
    by (by rewrite H).
  induction l as [|[k r] l IH]; intros n; simpl; [lia|]. rewrite IH.
  destruct (String.eqb (reach_Status r) status); simpl; lia.
Qed.

Definition has_verdict (r : ReachabilityResult) : Prop :=
  reach_Status r ∈ [statusReachable; statusUnreachable; statusUnknown].

Lemma probeOne_has_verdict {GU : GoUnicode} env t : has_verdict (probeOne env t).
Proof.
  unfold probeOne. destruct (attempt_loop _ _ _ _ _ _) as [code [e|]]; [|case_match];
    unfold has_verdict; simpl; set_solver.
Qed.

Lemma count_partition (l : list (string * ReachabilityResult)) :
  Forall (λ '(_, r), has_verdict r) l →
  length (List.filter (λ '(_, r), String.eqb (reach_Status r) statusReachable) l) +
  length (List.filter (λ '(_, r), String.eqb (reach_Status r) statusUnreachable) l) +
  length (List.filter (λ '(_, r), String.eqb (reach_Status r) statusUnknown) l) = length l.
Proof.
  induction l as [|[k r] l IH]; [done|]. intros [Hr Hl]%Forall_cons. specialize (IH Hl).
  unfold has_verdict in Hr. rewrite !elem_of_cons, elem_of_nil in Hr. simpl.
  destruct Hr as [E|[E|[E|[]]]]; rewrite E; simpl; lia.
Qed.

Lemma add_Some v n : (0 ≤ n)%Z → add (Some v) n = Some (v + n)%Z.
Proof. unfold add. intros Hn. destruct (Z.ltb_spec 0 n); f_equal; lia. Qed.

(** A cycle's counters add up: with all counters registered, the verdict
    counters grow together by exactly the number of verdicts, which is what the
    probe counter grows by; the bound and nil counters are untouched. *)
Theorem recordMetrics_spec (rt : GoRuntime) (p : Prober) (results : gmap string ReachabilityResult)
    (a b c d : Z) :
  map_Forall (λ _ r, has_verdict r) results →
  pr_probes p = Some a → pr_reachable p = Some b → pr_unreachable p = Some c → pr_unknown p = Some d →
  ∃ x y z, (0 ≤ x)%Z ∧ (0 ≤ y)%Z ∧ (0 ≤ z)%Z ∧ (x + y + z = Z.of_nat (size results))%Z ∧
    recordMetrics p results =
      mkProber (pr_concurrency p) (Some (a + (x + y + z)))%Z (Some (b + x))%Z (Some (c + y))%Z
        (Some (d + z))%Z.
Proof.
  intros Hv Ha Hb Hc Hd.
  assert (Forall (λ '(_, r), has_verdict r) (map_range results)) as Hf.
  { apply Forall_forall. intros [k r] Hin%map_range_elem_of. by apply (Hv k). }
  pose proof (count_partition _ Hf) as Hcount.
  assert (length (map_range results) = size results) as Hlen
    by (by rewrite map_range_perm, length_map_to_list).
  rewrite Hlen in Hcount.
  exists (count_status statusReachable results), (count_status statusUnreachable results),
    (count_status statusUnknown results).
  assert (count_status statusReachable results + count_status statusUnreachable results +
    count_status statusUnknown results = Z.of_nat (size results))%Z as Hsum.
  { rewrite !count_status_filter, <- Hcount. lia. }
  rewrite Hsum. unfold recordMetrics. rewrite Ha, Hb, Hc, Hd.
  rewrite !add_Some by (rewrite ?count_status_filter; apply Zle_0_nat).
  split_and!; [rewrite count_status_filter; apply Zle_0_nat..|done|done].
Qed.

Lemma recordMetrics_spec_witness :
  let results := foldl (record_result (GU := ascii_unicode) (λ _, demo_env 404)) ∅
                   (probe_jobs demo_probe_targets) in
  let p := mkProber 1 (Some 0%Z) (Some 0%Z) (Some 0%Z) (Some 0%Z) in
  ∃ x y z, (x + y + z = 2)%Z ∧
    recordMetrics (rt := insertion_runtime) p results =
      mkProber 1 (Some (0 + (x + y + z)))%Z (Some (0 + x))%Z (Some (0 + y))%Z (Some (0 + z))%Z.
Proof.
  cbv zeta.
  match goal with |- context [recordMetrics ?q ?r] =>
    destruct (recordMetrics_spec insertion_runtime q r 0 0 0 0)
      as (x & y & z & _ & _ & _ & Hsum & E); try reflexivity end.
  - intros k v H.
    apply (record_sound (GU := ascii_unicode) _ demo_probe_targets) in H
      as (i & t & _ & _ & ->); [apply probeOne_has_verdict|reflexivity].
  - exists x, y, z. split; [|exact E]. rewrite Hsum. vm_compute. reflexivity.
Defined.

(** ** The store *)

Lemma All_perm (rt : GoRuntime) s results :
  All (Store s (Some results)) ≡ₚ (map_to_list results).*2.
Proof. unfold All, Store. simpl. by rewrite sort_slice_perm, map_range_perm. Qed.

(** The store is a snapshot: a lookup after a swap answers from the new map
    only (a key it does not have is not found, whatever earlier snapshots held),
    a nil map clears it, and a fresh store answers nothing.  The listing holds
    every verdict of the snapshot once, by host and URL. *)
Theorem Store_spec (rt : GoRuntime) (s : StoreT) (results : gmap string ReachabilityResult)
    (key : string) :
  Lookup (Store s (Some results)) key =
    (default zero_reachability (results !! key), bool_decide (is_Some (results !! key))) ∧
  All (Store s (Some results)) ≡ₚ (map_to_list results).*2 ∧
  Sorted (λ x y, le2 (reach_Host x, reach_URL x) (reach_Host y, reach_URL y))
    (All (Store s (Some results))) ∧
  Store s None = NewStore ∧
  Lookup NewStore key = (zero_reachability, false) ∧ All NewStore = [].
Proof.
  split_and!.
  - unfold Lookup, Store. simpl. by destruct (results !! key).
  - apply All_perm.
  - unfold All, Store. simpl. eapply Sorted_weaken; [|apply sort_slice_sorted; auto with go].
    intros x y. by rewrite less_by2_false.
  - done.
  - unfold Lookup, NewStore. simpl. by rewrite lookup_empty.
  - assert (All NewStore ≡ₚ []) as ->%Permutation_nil_r; [|done].
    unfold All, NewStore. simpl. by rewrite sort_slice_perm, map_range_perm, map_to_list_empty.
Qed.

(** The order of the listing is stable when verdicts that agree on host and
    URL are equal. *)
Theorem All_deterministic (rt rt' : GoRuntime) (results : gmap string ReachabilityResult) :
  (∀ k k' r r', results !! k = Some r → results !! k' = Some r' →
     reach_Host r = reach_Host r' → reach_URL r = reach_URL r' → r = r') →
  All (rt := rt) (Store NewStore (Some results)) = All (rt := rt') (Store NewStore (Some results)).
Proof.
  intros Hties. unfold All, Store. simpl. apply sort_slice_det; [auto with go| |].
  - by rewrite !map_range_perm.
  - intros x y ([k r] & -> & Hx%map_range_elem_of)%list_elem_of_fmap
      ([k' r'] & -> & Hy%map_range_elem_of)%list_elem_of_fmap H1 H2.
    apply less_by2_false in H1, H2. simpl in *.
    pose proof (le2_antisym _ _ H1 H2) as [= Eh Eu]. by apply (Hties k k').
Qed.

Definition demo_verdict (at_ : Z) : ReachabilityResult :=
  mkReachabilityResult "h" "https://h/" statusReachable 200 "200" "" at_.

Lemma All_deterministic_witness :
  All (rt := insertion_runtime) (Store NewStore (Some {[ "a/x/h" := demo_verdict 1 ]})) =
  All (rt := reverse_runtime) (Store NewStore (Some {[ "a/x/h" := demo_verdict 1 ]})).
Proof.
  apply All_deterministic. intros k k' r r' [_ <-]%lookup_singleton_Some
    [_ <-]%lookup_singleton_Some _ _. reflexivity.
Defined.

(** Two Services exposed at one host have verdicts with the same host and
    URL, and the listing's order between them is the runtime's: the same
    snapshot can be listed in two orders. *)
Theorem All_unstable :
  let s := Store NewStore (Some {[ "a/x/h" := demo_verdict 1; "a/y/h" := demo_verdict 2 ]}) in
  All (rt := insertion_runtime) s ≠ All (rt := reverse_runtime) s ∧
  All (rt := insertion_runtime) s ≡ₚ All (rt := reverse_runtime) s.
Proof.
  cbv zeta. split; [vm_compute; discriminate|].
  by rewrite !All_perm.
Qed.
