(* ===== verification/Swagger.v ===== *)
(** * OpenAPI probing ([internal/swagger/prober.go])

    The jobs of a probe run, the test a response must pass, the external URL of a
    documented path, the order of the documents and the run itself, which fills
    the applications in place.  The HTTP client is a parameter: a [WebEnv] per
    job. *)

From S2P Require Export Json Pool Model.
From Stdlib Require Import Ascii.

Definition annoProbeOptOut : string := "dfds.cloud/openapi-probe".
Definition annoProbePath : string := "dfds.cloud/openapi-path".

Definition maxProbeBodyBytes : Z := 2 * 2 ^ 20.

Definition defaultPaths : list string :=
  [ "/swagger"; "/swagger/index.html"; "/swagger.json"; "/swagger/v1/swagger.json"; "/api-docs";
    "/openapi"; "/openapi.json"; "/v3/api-docs"; "/.well-known/openapi" ].

(** The bound of the error group and the nil-able counters. *)
Record Prober := mkProber {
  sp_concurrency : Z;
  sp_probes : option Z;
  sp_hits : option Z;
}.

Definition NewProber (concurrency : Z) (probes hits : option Z) : Prober :=
  let concurrency := if (concurrency <=? 0)%Z then 20%Z else concurrency in
  mkProber concurrency probes hits.

Record job := mkJob {
  j_appIdx : nat;
  j_svcIdx : nat;
  j_host : string;
  j_port : Z;
  j_path : string;
}.

(** ** Jobs *)

Definition withPath (defaults : list string) (extra : string) : list string :=
  if existsb (λ p, String.eqb p extra) defaults then defaults else defaults ++ [extra].

Definition probe_paths (app : ApplicationEntry) : list string :=
  let extra := (app_Annotations app)⟦annoProbePath⟧ in
  if nonempty extra then withPath defaultPaths extra else defaultPaths.

(** The loop over the ports of a service, [seen] being the ports so far. *)
Fixpoint port_jobs (seen : list Z) (appIdx svcIdx : nat) (host : string) (paths : list string)
    (ports : list ServicePort) : list job :=
  match ports with
  | [] => []
  | port :: rest =>
      if bool_decide (sport_Port port ∈ seen) then port_jobs seen appIdx svcIdx host paths rest
      else
        ((λ path, mkJob appIdx svcIdx host (sport_Port port) path) <$> paths) ++
        port_jobs (sport_Port port :: seen) appIdx svcIdx host paths rest
  end.

Definition service_host (app : ApplicationEntry) (svc : ServiceRef) : string :=
  svc_Name svc +:+ "." +:+ app_Namespace app +:+ ".svc.cluster.local".

Definition app_jobs (appIdx : nat) (app : ApplicationEntry) : list job :=
  if String.eqb ((app_Annotations app)⟦annoProbeOptOut⟧) "false" then []
  else
    mjoin (imap (λ svcIdx svc,
      port_jobs [] appIdx svcIdx (service_host app svc) (probe_paths app) (svc_Ports svc))
      (app_Services app)).

Definition buildJobs (apps : list ApplicationEntry) : list job := mjoin (imap app_jobs apps).

(** ** One probe *)

Record Response := mkResponse {
  rs_StatusCode : Z;
  rs_ContentType : string;
  rs_Body : option string;  (** [None] when reading the body fails *)
}.

(** The outcome of the GET for a URL; [None] when the request cannot be built or
    sent. *)
Abbreviation WebEnv := (string → option Response).

Fixpoint take_bytes (n : Z) (s : string) : string :=
  match s with
  | EmptyString => EmptyString
  | String c s' => if (n <=? 0)%Z then EmptyString else String c (take_bytes (n - 1) s')
  end.

Definition jsonIsOpenAPISpec (body : string) : bool :=
  match object_keys body with
  | None => false
  | Some keys => bool_decide ("openapi" ∈ keys) || bool_decide ("swagger" ∈ keys)
  end.

Definition doc_url (j : job) : string :=
  "http://" +:+ j_host j +:+ ":" +:+ Itoa (j_port j) +:+ j_path j.

Section probe_one.
Context {GU : GoUnicode}.

Definition htmlIsAPIDocUI (body : string) : bool :=
  existsb (Contains (ToLower body)) ["swagger-ui"; "swaggeruibundle"; "redoc"].

Definition bodyLooksLikeAPIDoc (contentType body : string) : bool :=
  if jsonIsOpenAPISpec body then true
  else Contains (ToLower contentType) "html" && htmlIsAPIDocUI body.

(** [None] is Go's [(APIDocInfo{}, false)]. *)
Definition probeOne (web : WebEnv) (j : job) : option APIDocInfo :=
  match web (doc_url j) with
  | None => None
  | Some resp =>
      if negb (rs_StatusCode resp =? 200)%Z then None
      else
        match rs_Body resp with
        | None => None
        | Some full =>
            if negb (bodyLooksLikeAPIDoc (rs_ContentType resp) (take_bytes maxProbeBodyBytes full))
            then None
            else Some (mkAPIDocInfo (j_port j) (j_path j) (doc_url j) false EmptyString)
        end
  end.
End probe_one.

(** ** External availability *)

Definition externalPathForMount (prefix docPath : string) : string :=
  let p := "/" +:+ Trim prefix "/" in
  if String.eqb p "/" then docPath
  else if String.eqb docPath p || HasPrefix docPath (p +:+ "/") then docPath
  else p +:+ docPath.

(** One mount point; the state is [(bestHost, bestPath)]. *)
Definition mount_step (host path : string) (best : string * string) (p : string) : string * string :=
  let ext := externalPathForMount p path in
  if String.eqb best.1 EmptyString || Nat.ltb (String.length ext) (String.length best.2)
  then (host, ext) else best.

Definition mount_route_step (path : string) (best : string * string) (r : RouteRef) : string * string :=
  match route_Hosts r with
  | [] => best
  | host :: _ =>
      let prefixes := match route_PathPrefixes r with [] => [EmptyString] | ps => ps end in
      foldl (mount_step host path) best prefixes
  end.

Definition externalURLForPath (routes : list RouteRef) (path : string) : string * bool :=
  let '(bestHost, bestPath) := foldl (mount_route_step path) (EmptyString, EmptyString) routes in
  if String.eqb bestHost EmptyString then (EmptyString, false)
  else ("https://" +:+ bestHost +:+ bestPath, true).

Definition annotate_doc (routes : list RouteRef) (d : APIDocInfo) : APIDocInfo :=
  let '(url, ok) := externalURLForPath routes (doc_Path d) in
  if ok then mkAPIDocInfo (doc_Port d) (doc_Path d) (doc_URL d) true url else d.

Definition annotateExternalAvailability (routes : list RouteRef) (docs : list APIDocInfo)
    : list APIDocInfo := annotate_doc routes <$> docs.

(** ** Order of the documents *)

Definition doc_in_order (a b : APIDocInfo) : bool :=
  (doc_Port a <? doc_Port b)%Z ||
  ((doc_Port a =? doc_Port b)%Z && String.leb (doc_Path a) (doc_Path b)).

(** The inner loop at [j]: swaps down until the neighbours are in order. *)
Fixpoint sift_down (j : nat) (docs : list APIDocInfo) : list APIDocInfo :=
  match j with
  | 0 => docs
  | S j' =>
      match docs !! j', docs !! j with
      | Some a, Some b =>
          if doc_in_order a b then docs else sift_down j' (<[j' := b]> (<[j := a]> docs))
      | _, _ => docs
      end
  end.

Definition sortDocs (docs : list APIDocInfo) : list APIDocInfo :=
  foldl (λ docs i, sift_down i docs) docs (seq 1 (length docs - 1)).

(** ** The run *)

Abbreviation probe_results := (gmap nat (gmap nat (list APIDocInfo))).

Section run.
Context {GU : GoUnicode} (webs : nat → WebEnv).

(** What the goroutine of a job (with its number) does under the mutex. *)
Definition record_doc (results : probe_results) (j : nat * job) : probe_results :=
  match probeOne (webs j.1) j.2 with
  | None => results
  | Some doc =>
      let bySvc := default ∅ (results !! j_appIdx j.2) in
      let docs := default [] (bySvc !! j_svcIdx j.2) in
      <[j_appIdx j.2 := <[j_svcIdx j.2 := docs ++ [doc]]> bySvc]> results
  end.

(** [svc := &apps[appIdx].Services[svcIdx]] and the writes through it. *)
Definition fill_service (appIdx : nat) (st : list ApplicationEntry * nat)
    (e : nat * list APIDocInfo) : list ApplicationEntry * nat :=
  let '(apps, hits) := st in
  let '(svcIdx, docs) := e in
  let docs := sortDocs docs in
  (alter (λ app, app_set_Services app
     (alter (λ svc, svc_set_APIDocs svc (annotateExternalAvailability (svc_Routes svc) docs))
        svcIdx (app_Services app))) appIdx apps,
   hits + length docs).

Definition fill_app {rt : GoRuntime} (st : list ApplicationEntry * nat)
    (e : nat * gmap nat (list APIDocInfo)) : list ApplicationEntry * nat :=
  let '(appIdx, bySvc) := e in foldl (fill_service appIdx) st (map_range bySvc).

(** What [Probe] does after [g.Wait]: the filled applications, the number of
    requests and of hits. *)
Definition fill_results {rt : GoRuntime} (apps : list ApplicationEntry) (results : probe_results)
    : list ApplicationEntry * nat := foldl fill_app (apps, 0) (map_range results).

Definition probe_jobs (apps : list ApplicationEntry) : list (nat * job) :=
  imap pair (buildJobs apps).

(** [Probe] when the goroutines record in the order [sched]. *)
Definition Probe {rt : GoRuntime} (sched : list (nat * job) → list (nat * job))
    (apps : list ApplicationEntry) : list ApplicationEntry * nat * nat :=
  let jobs := probe_jobs apps in
  if Nat.eqb (length jobs) 0 then (apps, 0, 0)
  else
    let results := foldl record_doc ∅ (sched jobs) in
    let '(apps, hits) := fill_results apps results in
    (apps, length jobs, hits).
End run.

Definition add_counter (c : option Z) (n : nat) : option Z :=
  match c with
  | None => None
  | Some v => if Nat.ltb 0 n then Some (v + Z.of_nat n)%Z else Some v
  end.

Definition addProbes (p : Prober) (n : nat) : Prober :=
  mkProber (sp_concurrency p) (add_counter (sp_probes p) n) (sp_hits p).
Definition addHits (p : Prober) (n : nat) : Prober :=
  mkProber (sp_concurrency p) (sp_probes p) (add_counter (sp_hits p) n).

(** A run of a prober, counted. *)
Definition counted_Probe {GU : GoUnicode} {rt : GoRuntime} (p : Prober) (envs : nat → WebEnv)
    (sched : list (nat * job) → list (nat * job)) (apps : list ApplicationEntry) : list ApplicationEntry * Prober :=
  let '(apps, jobs, hits) := Probe envs sched apps in (apps, addHits (addProbes p jobs) hits).

(** ** Sorting *)

Definition doc_le (a b : APIDocInfo) : Prop := doc_in_order a b = true.

Lemma doc_le_iff a b :
  doc_le a b ↔ (doc_Port a < doc_Port b)%Z ∨
               (doc_Port a = doc_Port b ∧ String.leb (doc_Path a) (doc_Path b) = true).
Proof. unfold doc_le, doc_in_order. by rewrite orb_true_iff, andb_true_iff, Z.ltb_lt, Z.eqb_eq. Qed.

#[export] Instance doc_le_trans : Transitive doc_le.
Proof.
  intros a b c. rewrite !doc_le_iff. intros [?|[? H1]] [?|[? H2]]; [lia..|right].
  - split; [lia|]. by eapply str_leb_trans.
Qed.

Lemma doc_le_total a b : doc_in_order a b = false → doc_le b a.
Proof.
  rewrite doc_le_iff. unfold doc_in_order. intros [H1 H2]%orb_false_iff.
  apply Z.ltb_ge in H1. apply andb_false_iff in H2 as [H2|H2].
  - apply Z.eqb_neq in H2. left. lia.
  - destruct (decide (doc_Port b < doc_Port a)%Z); [by left|]. right. split; [lia|].
    destruct (String.leb_total (doc_Path a) (doc_Path b)); [congruence|done].
Qed.

Lemma doc_le_refl a : doc_le a a.
Proof. apply doc_le_iff. right. split; [done|apply str_leb_refl]. Qed.

(** The inner loop inserts [x] into the sorted part before it, after the
    elements that are not greater. *)
Lemma sift_down_spec l x r :
  ∃ l1 l2, l = l1 ++ l2 ∧ sift_down (length l) (l ++ x :: r) = l1 ++ x :: l2 ++ r ∧
    (∀ a, last l1 = Some a → doc_le a x) ∧ (∀ a, a ∈ l2 → doc_le x a).
Proof.
  revert r. induction l as [|a l IH] using rev_ind; intros r.
  - exists [], []. split_and!; [done..|]. intros a Ha. by apply elem_of_nil in Ha.
  - rewrite length_app, Nat.add_comm. cbn [length Nat.add sift_down].
    rewrite <- app_assoc. simpl "++".
    rewrite lookup_app_r, Nat.sub_diag by lia. cbn [lookup list_lookup].
    rewrite lookup_app_r by lia. replace (S (length l) - length l) with 1 by lia.
    cbn [lookup list_lookup]. destruct (doc_in_order a x) eqn:E.
    + exists (l ++ [a]), []. rewrite app_nil_r, <- app_assoc. split_and!; [done..| |].
      * intros b. rewrite last_snoc. by intros [= <-].
      * intros b Hb. by apply elem_of_nil in Hb.
    + rewrite (insert_app_r_alt l _ (S (length l))) by lia.
      replace (S (length l) - length l) with 1 by lia.
      rewrite (insert_app_r_alt l _ (length l)) by lia. rewrite Nat.sub_diag. cbn.
      destruct (IH (a :: r)) as (l1 & l2 & -> & Hs & H1 & H2).
      exists l1, (l2 ++ [a]). rewrite <- app_assoc. split_and!; [done| |done|].
      * rewrite Hs. by rewrite <- app_assoc.
      * intros b. rewrite elem_of_app, list_elem_of_singleton.
        intros [Hb| ->]; [by apply H2|by apply doc_le_total].
Qed.

Lemma sorted_insert l1 x l2 :
  Sorted doc_le (l1 ++ l2) → (∀ a, last l1 = Some a → doc_le a x) → (∀ a, a ∈ l2 → doc_le x a) →
  Sorted doc_le (l1 ++ x :: l2).
Proof.
  intros Hs H1 H2. induction l1 as [|a l1 IH]; simpl in *.
  - constructor; [done|]. destruct l2 as [|b l2]; constructor. apply H2. left.
  - apply Sorted_inv in Hs as [Hs Hhd]. constructor.
    + apply IH; [done|]. intros b Hb. apply H1. destruct l1; [done|]. exact Hb.
    + destruct l1 as [|b l1]; simpl in *; constructor; [by apply H1|]. by inversion Hhd.
Qed.

Lemma sort_prefix (l r : list APIDocInfo) n :
  length l = n → Sorted doc_le l →
  let out := foldl (λ docs i, sift_down i docs) (l ++ r) (seq n (length r)) in
  out ≡ₚ l ++ r ∧ Sorted doc_le out.
Proof.
  revert l n. induction r as [|x r IH]; intros l n Hn Hs; cbn zeta; simpl.
  - by rewrite app_nil_r.
  - destruct (sift_down_spec l x r) as (l1 & l2 & -> & E & H1 & H2).
    rewrite <- Hn, E, Hn.
    assert (l1 ++ x :: l2 ++ r = (l1 ++ x :: l2) ++ r) as -> by (by rewrite <- app_assoc).
    destruct (IH (l1 ++ x :: l2) (S n)) as [Hp Hso].
    + rewrite <- Hn, !length_app. simpl. lia.
    + by apply sorted_insert.
    + split; [|done]. rewrite Hp. solve_Permutation.
Qed.

Lemma sortDocs_perm_sorted docs : sortDocs docs ≡ₚ docs ∧ Sorted doc_le (sortDocs docs).
Proof.
  unfold sortDocs. destruct docs as [|x docs]; [by repeat constructor|].
  replace (length (x :: docs) - 1) with (length docs) by (simpl; lia).
  apply (sort_prefix [x] docs 1); [done|by repeat constructor].
Qed.

(** The key of a document among those of one service. *)
Definition doc_key (d : APIDocInfo) : Z * string := (doc_Port d, doc_Path d).

Lemma sortDocs_unique docs1 docs2 :
  docs1 ≡ₚ docs2 → NoDup (doc_key <$> docs1) → sortDocs docs1 = sortDocs docs2.
Proof.
  intros Hp Hnd. destruct (sortDocs_perm_sorted docs1) as [P1 S1],
    (sortDocs_perm_sorted docs2) as [P2 S2].
  apply (sorted_no_ties_unique doc_le); [|done..|by rewrite P1, P2].
  intros x y Hx Hy Hxy Hyx. rewrite P1 in Hx, Hy.
  apply (NoDup_fmap_inj doc_key docs1); [done..|]. apply doc_le_iff in Hxy, Hyx.
  unfold doc_key. destruct Hxy as [?|[? L1]], Hyx as [?|[? L2]]; try lia.
  f_equal; [done|]. by apply str_leb_antisym.
Qed.

(** The in-place insertion sort of the documents terminates with the same
    documents ordered by port and path; documents of distinct port and path end
    in an order that does not depend on the one they arrived in. *)
Theorem sortDocs_spec (docs : list APIDocInfo) :
  sortDocs docs ≡ₚ docs ∧ Sorted doc_le (sortDocs docs) ∧
  (∀ docs', docs ≡ₚ docs' → NoDup (doc_key <$> docs) → sortDocs docs = sortDocs docs').
Proof.
  destruct (sortDocs_perm_sorted docs). split_and!; [done..|]. apply sortDocs_unique.
Qed.

Definition demo_doc (port : Z) (path : string) : APIDocInfo := mkAPIDocInfo port path "" false "".

Lemma sortDocs_spec_witness :
  sortDocs [demo_doc 80 "/b"; demo_doc 80 "/a"; demo_doc 8 "/z"] =
  sortDocs [demo_doc 8 "/z"; demo_doc 80 "/b"; demo_doc 80 "/a"].
Proof.
  apply (proj2 (proj2 (sortDocs_spec _))).
  - symmetry. apply (Permutation_cons_append [demo_doc 80 "/b"; demo_doc 80 "/a"] (demo_doc 8 "/z")).
  - apply NoDup_ListNoDup. repeat constructor; cbn; intuition discriminate.
Defined.

(** ** Jobs *)

Lemma port_jobs_elem seen a s host paths ports j :
  j ∈ port_jobs seen a s host paths ports ↔
  ∃ p path, p ∈ ports ∧ (sport_Port p ∉ seen) ∧ path ∈ paths ∧ j = mkJob a s host (sport_Port p) path.
Proof.
  revert seen. induction ports as [|p ports IH]; intros seen; simpl.
  { rewrite elem_of_nil. setoid_rewrite elem_of_nil. naive_solver. }
  case_bool_decide as Hp; rewrite ?elem_of_app, IH; setoid_rewrite elem_of_cons.
  - naive_solver.
  - rewrite list_elem_of_fmap. split.
    + intros [(path & -> & Hin)|(q & path & Hq & Hs & Hin & ->)]; [naive_solver|].
      exists q, path. naive_solver.
    + intros (q & path & [->|Hq] & Hs & Hin & ->); [naive_solver|].
      destruct (decide (sport_Port q = sport_Port p)) as [E|E].
      * left. rewrite E. eauto.
      * right. exists q, path. naive_solver.
Qed.

Lemma port_jobs_NoDup seen a s host paths ports :
  NoDup paths → NoDup (port_jobs seen a s host paths ports).
Proof.
  intros Hnd. revert seen. induction ports as [|p ports IH]; intros seen; simpl; [constructor|].
  case_bool_decide; [apply IH|]. apply NoDup_app. split_and!; [|  |apply IH].
  - apply NoDup_fmap_2; [|done]. by intros x y [=].
  - intros j (path & -> & _)%list_elem_of_fmap (q & path' & _ & Hs & _ & E)%port_jobs_elem.
    injection E as E _. apply Hs. rewrite E. left.
Qed.

Lemma probe_paths_NoDup app : NoDup (probe_paths app).
Proof.
  unfold probe_paths. assert (NoDup defaultPaths) as Hd by (apply (bool_decide_unpack _); by vm_compute).
  destruct (nonempty _); [|done]. unfold withPath.
  destruct (existsb _ _) eqn:E; [done|]. apply NoDup_app. split_and!; [done| |apply NoDup_singleton].
  intros p Hp ->%list_elem_of_singleton. rewrite existsb_not_elem_of in E.
  specialize (E _ Hp). by rewrite String.eqb_refl in E.
Qed.

Definition probed (app : ApplicationEntry) : Prop :=
  mget (app_Annotations app) annoProbeOptOut ≠ "false".

Lemma app_jobs_elem a app j :
  j ∈ app_jobs a app ↔
  probed app ∧ ∃ s svc p path, app_Services app !! s = Some svc ∧ p ∈ svc_Ports svc ∧
    path ∈ probe_paths app ∧ j = mkJob a s (service_host app svc) (sport_Port p) path.
Proof.
  unfold app_jobs, probed. destruct (String.eqb_spec (mget (app_Annotations app) annoProbeOptOut) "false") as [E|E].
  - rewrite elem_of_nil. naive_solver.
  - rewrite elem_of_mjoin_imap. setoid_rewrite port_jobs_elem. split.
    + intros (s & svc & Hs & p & path & Hp & _ & Hpath & ->). split; [done|]. by exists s, svc, p, path.
    + intros (_ & s & svc & p & path & Hs & Hp & Hpath & ->). exists s, svc. split; [done|].
      exists p, path. split_and!; [done| |done..]. by apply not_elem_of_nil.
Qed.

Lemma buildJobs_NoDup apps : NoDup (buildJobs apps).
Proof.
  apply NoDup_mjoin_imap.
  - intros a app _. unfold app_jobs. destruct (String.eqb _ _); [constructor|].
    apply NoDup_mjoin_imap.
    + intros s svc _. apply port_jobs_NoDup, probe_paths_NoDup.
    + intros s s' svc svc' j (? & ? & _ & _ & _ & ->)%port_jobs_elem
        (? & ? & _ & _ & _ & E)%port_jobs_elem. by injection E.
  - intros a a' app app' j (_ & ? & ? & ? & ? & _ & _ & _ & ->)%app_jobs_elem
      (_ & ? & ? & ? & ? & _ & _ & _ & E)%app_jobs_elem. by injection E.
Qed.

(** The jobs are exactly one per service port number and path of every
    application that does not opt out, the declared extra path included, each
    once, and addressed to the service's cluster-internal name. *)
Theorem buildJobs_spec (apps : list ApplicationEntry) (j : job) :
  (j ∈ buildJobs apps ↔
   ∃ app svc p path, apps !! j_appIdx j = Some app ∧ probed app ∧
     app_Services app !! j_svcIdx j = Some svc ∧ p ∈ svc_Ports svc ∧
     (path ∈ defaultPaths ∨ (path ≠ EmptyString ∧ path = mget (app_Annotations app) annoProbePath)) ∧
     j = mkJob (j_appIdx j) (j_svcIdx j) (service_host app svc) (sport_Port p) path) ∧
  NoDup (buildJobs apps).
Proof.
  split; [|apply buildJobs_NoDup].
  assert (∀ app path, path ∈ probe_paths app ↔
    path ∈ defaultPaths ∨ (path ≠ EmptyString ∧ path = mget (app_Annotations app) annoProbePath)) as Hpaths.
  { intros app path. unfold probe_paths. set (extra := mget _ _). unfold nonempty.
    destruct (String.eqb_spec extra EmptyString) as [E|E]; simpl.
    - split; [by left|]. intros [?|[? ->]]; done.
    - unfold withPath. destruct (existsb _ _) eqn:Ex.
      + apply existsb_eqb_elem_of in Ex. split; [by left|]. intros [?|[_ ->]]; done.
      + rewrite elem_of_app, list_elem_of_singleton. naive_solver. }
  unfold buildJobs. rewrite elem_of_mjoin_imap. setoid_rewrite app_jobs_elem.
  setoid_rewrite <- Hpaths. split.
  - intros (a & app & Ha & Hpr & s & svc & p & path & Hs & Hp & Hpath & ->).
    exists app, svc, p, path. done.
  - intros (app & svc & p & path & Ha & Hpr & Hs & Hp & Hpath & E).
    exists (j_appIdx j), app. split; [done|]. split; [done|]. by exists (j_svcIdx j), svc, p, path.
Qed.

(** ** External URLs *)

Definition route_mounts (r : RouteRef) : list string :=
  match route_PathPrefixes r with [] => [EmptyString] | ps => ps end.

(** The mount points of a documented path: host and external path, in order. *)
Definition mounts (routes : list RouteRef) (path : string) : list (string * string) :=
  routes ≫= λ r,
    match route_Hosts r with
    | [] => []
    | host :: _ => (λ p, (host, externalPathForMount p path)) <$> route_mounts r
    end.

Abbreviation mount_len := (λ m : string * string, String.length m.2).

Definition best_mount (best : option (string * string)) : string * string :=
  default (EmptyString, EmptyString) best.

Lemma mount_steps host path ps best :
  host ≠ EmptyString → (∀ b, best = Some b → b.1 ≠ EmptyString) →
  let best' := foldl (min_step mount_len) best ((λ p, (host, externalPathForMount p path)) <$> ps) in
  foldl (mount_step host path) (best_mount best) ps = best_mount best' ∧
  (∀ b, best' = Some b → b.1 ≠ EmptyString).
Proof.
  intros Hh. revert best. induction ps as [|p ps IH]; intros best Hb; cbn zeta; simpl; [done|].
  assert (mount_step host path (best_mount best) p =
    best_mount (min_step mount_len best (host, externalPathForMount p path))) as ->.
  { unfold mount_step. destruct best as [b|]; simpl; [|done].
    destruct (String.eqb_spec b.1 EmptyString) as [E|_]; [by destruct (Hb b eq_refl)|]. simpl.
    by destruct (Nat.ltb _ _). }
  apply IH. intros b. destruct best as [b0|]; simpl; [|by intros [= <-]].
  destruct (Nat.ltb _ _); intros [= <-]; [done|by apply Hb].
Qed.

Definition first_host_ok (r : RouteRef) : Prop := head (route_Hosts r) ≠ Some EmptyString.

Lemma mount_routes routes path best :
  Forall first_host_ok routes → (∀ b, best = Some b → b.1 ≠ EmptyString) →
  let best' := foldl (min_step mount_len) best (mounts routes path) in
  foldl (mount_route_step path) (best_mount best) routes = best_mount best' ∧
  (∀ b, best' = Some b → b.1 ≠ EmptyString).
Proof.
  revert best. induction routes as [|r routes IH]; intros best Hf Hb; cbn zeta; [done|].
  apply Forall_cons in Hf as [Hr Hf]. unfold mounts. rewrite bind_cons, foldl_app.
  cbn [foldl]. unfold mount_route_step at 2. unfold first_host_ok in Hr.
  destruct (route_Hosts r) as [|host hs]; [by apply IH|].
  destruct (mount_steps host path (route_mounts r) best) as [E Hb']; [by intros ->|done|].
  cbn zeta in E. unfold route_mounts in E at 1. rewrite E. by apply IH.
Qed.

(** A document gets an external URL exactly when some route names a host,
    and then that of the first mount point of the shortest external path. *)
Theorem externalURLForPath_spec (routes : list RouteRef) (path : string) :
  Forall first_host_ok routes →
  (Forall (λ r, route_Hosts r = []) routes ∧ externalURLForPath routes path = (EmptyString, false)) ∨
  (∃ host ext, first_min mount_len (mounts routes path) (host, ext) ∧ host ≠ EmptyString ∧
     externalURLForPath routes path = ("https://" +:+ host +:+ ext, true)).
Proof.
  intros Hf. destruct (mount_routes routes path None Hf) as [E Hb]; [done|]. cbn zeta in *.
  pose proof (foldl_min_step mount_len (mounts routes path)) as Hmin.
  unfold externalURLForPath. change (EmptyString, EmptyString) with (best_mount None).
  rewrite E. destruct (foldl _ _ (mounts routes path)) as [[host ext]|]; simpl.
  - right. exists host, ext. specialize (Hb _ eq_refl). simpl in Hb.
    split_and!; [done..|]. by destruct (String.eqb_spec host EmptyString).
  - left. split; [|done]. apply Forall_forall. intros r Hr.
    destruct (route_Hosts r) as [|h hs] eqn:Eh; [done|].
    assert (∃ m, m ∈ mounts routes path) as [m Hm]; [|rewrite Hmin in Hm; by apply elem_of_nil in Hm].
    assert (∃ p, p ∈ route_mounts r) as [p Hp].
    { unfold route_mounts. destruct (route_PathPrefixes r) as [|q qs]; eexists; left. }
    exists (h, externalPathForMount p path). unfold mounts. apply list_elem_of_bind.
    exists r. rewrite Eh. split; [|done]. apply list_elem_of_fmap. eauto.
Qed.

Lemma externalURLForPath_spec_witness :
  let routes := [mkRouteRef "a" "IngressRoute" ["api.example.com"] ["/dev/addon/metrics"; "/dev/addon"]
                   [] true None] in
  externalURLForPath routes "/swagger" = ("https://api.example.com/dev/addon/swagger", true).
Proof.
  cbv zeta.
  match goal with |- externalURLForPath ?rs ?p = _ =>
    destruct (externalURLForPath_spec rs p) as [[Hc _]|(host & ext & Hmin & _ & E)] end.
  - by repeat constructor.
  - apply Forall_cons in Hc as [Hc _]. discriminate Hc.
  - vm_compute. reflexivity.
Defined.

(** The external path of a document: the path itself behind a whole-host
    mount or one it already lies under, else the mount prefix put before it.  For
    a path with a leading slash the result always lies under the mount, so
    mounting is idempotent, and slashes around the prefix do not matter. *)
Theorem externalPathForMount_spec (prefix docPath : string) :
  let p := "/" +:+ Trim prefix "/" in
  let under s := s = p ∨ HasPrefix s (p +:+ "/") = true in
  let ext := externalPathForMount prefix docPath in
  (p = "/" → ext = docPath) ∧
  (p ≠ "/" → under docPath → ext = docPath) ∧
  (p ≠ "/" → ¬ under docPath → ext = p +:+ docPath) ∧
  (HasPrefix docPath "/" = true →
     (p ≠ "/" → under ext) ∧ externalPathForMount prefix ext = ext) ∧
  externalPathForMount ("/" +:+ prefix) docPath = ext.
Proof.
  cbn zeta. unfold externalPathForMount. set (p := "/" +:+ Trim prefix "/").
  change ("/" +:+ Trim ("/" +:+ prefix) "/") with p.
  assert (∀ s, String.eqb s p || HasPrefix s (p +:+ "/") = true ↔ s = p ∨ HasPrefix s (p +:+ "/") = true) as Hu.
  { intros s. by rewrite orb_true_iff, String.eqb_eq. }
  destruct (String.eqb_spec p "/") as [E|E]; [by split_and!|].
  destruct (String.eqb docPath p || HasPrefix docPath (p +:+ "/")) eqn:Ed.
  - split_and!; try done.
    + intros _ Hn. by apply Hu in Ed.
    + intros _. split; [intros _; by apply Hu|]. by rewrite Ed.
  - split_and!; try done.
    + intros _ Hn. apply Hu in Hn. congruence.
    + intros [r Hr]%HasPrefix_iff.
      assert (p +:+ docPath = p ∨ HasPrefix (p +:+ docPath) (p +:+ "/") = true) as Hx.
      { right. apply HasPrefix_iff. exists r. by rewrite Hr, str_app_assoc. }
      split; [done|]. apply Hu in Hx. by rewrite Hx.
Qed.

Lemma externalPathForMount_spec_witness :
  externalPathForMount "/dev/" "/swagger" = "/dev/swagger" ∧
  externalPathForMount "/dev/" (externalPathForMount "/dev/" "/swagger") =
    externalPathForMount "/dev/" "/swagger".
Proof.
  destruct (externalPathForMount_spec "/dev/" "/swagger") as (_ & _ & H3 & H4 & _).
  split.
  - apply H3; [discriminate|]. intros [H|H]; vm_compute in H; discriminate H.
  - apply H4. vm_compute. reflexivity.
Defined.

(** ** The test of a body *)

(** An API document is recognised by its version key alone: a printed JSON
    object passes exactly when a top-level key is [openapi] or [swagger], so a
    generic JSON response does not, and an HTML page passes only with a
    documentation marker and an HTML content type. *)
Theorem bodyLooksLikeAPIDoc_spec (GU : GoUnicode) (contentType : string)
    (h : nat) (kvs : list (string * json)) (html : string) :
  (printable (S h) (JObj kvs) = true → (Z.of_nat (S h) <= maxNestingDepth)%Z →
   (jsonIsOpenAPISpec (print_json (JObj kvs)) = true ↔ "openapi" ∈ kvs.*1 ∨ "swagger" ∈ kvs.*1)) ∧
  (HasPrefix html "<" = true →
   (bodyLooksLikeAPIDoc contentType html = true ↔
    Contains (ToLower contentType) "html" = true ∧
    ∃ m, m ∈ ["swagger-ui"; "swaggeruibundle"; "redoc"] ∧ Contains (ToLower html) m = true)).
Proof.
  split.
  - intros Hp Hh. unfold jsonIsOpenAPISpec. rewrite (object_keys_printed h) by done.
    by rewrite orb_true_iff, !bool_decide_eq_true.
  - intros [r ->]%HasPrefix_iff. unfold bodyLooksLikeAPIDoc.
    assert (jsonIsOpenAPISpec ("<" +:+ r) = false) as -> by reflexivity.
    rewrite andb_true_iff. unfold htmlIsAPIDocUI. by rewrite existsb_elem_of.
Qed.

Definition demo_spec : list (string * json) :=
  [("openapi", JStr "3.0.1"); ("paths", JObj [("/a", JArr [JNum "1"; JNull; JObj []])])].

Lemma bodyLooksLikeAPIDoc_spec_witness :
  jsonIsOpenAPISpec (print_json (JObj demo_spec)) = true ∧
  jsonIsOpenAPISpec (print_json (JObj [("status", JStr "ok")])) ≠ true.
Proof.
  split.
  - apply (bodyLooksLikeAPIDoc_spec
      {| wide_lower := λ s, s; wide_upper := λ s, s; wide_quote := λ s, s |} "" 3 demo_spec "").
    + reflexivity.
    + vm_compute. discriminate.
    + left. left.
  - intros H. vm_compute in H. discriminate H.
Defined.

(** ** The run *)

Section run_spec.
Context {GU : GoUnicode} (webs : nat → WebEnv).

(** The hits of the service [(a, s)] among numbered jobs, in their order. *)
Definition hit_at (a s : nat) (j : nat * job) : option APIDocInfo :=
  if bool_decide (j_appIdx j.2 = a ∧ j_svcIdx j.2 = s) then probeOne (webs j.1) j.2 else None.

Definition hits_of (jobs : list (nat * job)) (a s : nat) : list APIDocInfo := omap (hit_at a s) jobs.

Definition all_hits (jobs : list (nat * job)) : nat :=
  length (omap (λ j : nat * job, probeOne (webs j.1) j.2) jobs).

Definition with_docs (docs : list APIDocInfo) (svc : ServiceRef) : ServiceRef :=
  svc_set_APIDocs svc (annotateExternalAvailability (svc_Routes svc) (sortDocs docs)).

(** What a run is to leave: every service with a hit has its hits in order,
    everything else is as it was. *)
Definition filled_service (jobs : list (nat * job)) (a s : nat) (svc : ServiceRef) : ServiceRef :=
  match hits_of jobs a s with [] => svc | docs => with_docs docs svc end.

Definition map_services (g : nat → nat → ServiceRef → ServiceRef) (apps : list ApplicationEntry)
    : list ApplicationEntry :=
  imap (λ a app, app_set_Services app (imap (g a) (app_Services app))) apps.

Definition filled_apps (jobs : list (nat * job)) (apps : list ApplicationEntry)
    : list ApplicationEntry := map_services (filled_service jobs) apps.

(** *** Updating services *)

Lemma map_services_ext g g' apps :
  (∀ a s svc, g a s svc = g' a s svc) → map_services g apps = map_services g' apps.
Proof.
  intros H. unfold map_services. apply imap_ext. intros a app _. f_equal.
  apply imap_ext. intros. apply H.
Qed.

Lemma map_services_id apps : map_services (λ _ _ svc, svc) apps = apps.
Proof.
  apply list_eq. intros a. unfold map_services. rewrite list_lookup_imap.
  destruct (apps !! a) as [app|]; simpl; [|done]. f_equal.
  transitivity (app_set_Services app (app_Services app)); [|apply app_set_Services_id].
  f_equal. apply list_eq. intros s. rewrite list_lookup_imap. by destruct (_ !! s).
Qed.

Lemma map_services_compose g g' apps :
  map_services g' (map_services g apps) = map_services (λ a s svc, g' a s (g a s svc)) apps.
Proof.
  apply list_eq. intros a. unfold map_services. rewrite !list_lookup_imap.
  destruct (apps !! a) as [app|]; simpl; [|done]. f_equal.
  unfold app_set_Services. simpl. f_equal.
  apply list_eq. intros s. rewrite !list_lookup_imap. by destruct (app_Services app !! s).
Qed.

Definition at_service (a s : nat) (f : ServiceRef → ServiceRef) (a' s' : nat) (svc : ServiceRef) :=
  if bool_decide (a' = a ∧ s' = s) then f svc else svc.

Lemma alter_map_services a s f apps :
  alter (λ app, app_set_Services app (alter f s (app_Services app))) a apps =
  map_services (at_service a s f) apps.
Proof.
  apply list_eq. intros a'. unfold map_services. rewrite list_lookup_imap.
  destruct (decide (a = a')) as [->|Hne].
  - rewrite list_lookup_alter_eq. destruct (apps !! a') as [app|]; simpl; [|done]. f_equal.
    f_equal. apply list_eq. intros s'. rewrite list_lookup_imap. unfold at_service.
    destruct (decide (s = s')) as [->|Hs].
    + rewrite list_lookup_alter_eq, bool_decide_eq_true_2 by done. done.
    + rewrite list_lookup_alter_ne, bool_decide_eq_false_2 by naive_solver.
      by destruct (app_Services app !! s').
  - rewrite list_lookup_alter_ne by done. destruct (apps !! a') as [app|]; simpl; [|done].
    f_equal. transitivity (app_set_Services app (app_Services app));
      [symmetry; apply app_set_Services_id|]. f_equal. apply list_eq. intros s'.
    rewrite list_lookup_imap. unfold at_service.
    rewrite bool_decide_eq_false_2 by naive_solver. by destruct (app_Services app !! s').
Qed.

(** *** Filling, entry by entry *)

Definition fill_one (st : list ApplicationEntry * nat) (e : nat * nat * list APIDocInfo) :=
  fill_service e.1.1 st (e.1.2, e.2).

Definition entries {rt : GoRuntime} (results : probe_results) : list (nat * nat * list APIDocInfo) :=
  map_range results ≫= λ '(a, bySvc), (λ '(s, docs), (a, s, docs)) <$> map_range bySvc.

Lemma fill_results_entries {rt : GoRuntime} apps results :
  fill_results apps results = foldl fill_one (apps, 0) (entries results).
Proof.
  unfold fill_results, entries. generalize (apps, 0). generalize (map_range results).
  intros l. induction l as [|[a bySvc] l IH]; intros st; [done|].
  rewrite bind_cons, foldl_app. simpl. rewrite IH. f_equal.
  generalize (map_range bySvc). clear. intros l. revert st.
  induction l as [|[s docs] l IH]; intros st; [done|]. simpl. by rewrite IH.
Qed.

Definition flat (results : probe_results) : gmap (nat * nat) (list APIDocInfo) :=
  map_uncurry (M1 := gmap nat) (M2 := gmap nat) (M12 := gmap (nat * nat)) results.

Lemma flat_lookup results a s : flat results !! (a, s) = results !! a ≫= λ bySvc, bySvc !! s.
Proof. apply lookup_map_uncurry. Qed.

Lemma entries_elem {rt : GoRuntime} results a s docs :
  (a, s, docs) ∈ entries results ↔ flat results !! (a, s) = Some docs.
Proof.
  rewrite flat_lookup. unfold entries. rewrite list_elem_of_bind. split.
  - intros ([a' bySvc] & Hin & Hm). apply map_range_elem_of in Hm.
    apply list_elem_of_fmap in Hin as ([s' docs'] & [= -> -> ->] & Hs%map_range_elem_of).
    rewrite Hm. simpl. done.
  - destruct (results !! a) as [bySvc|] eqn:E; simpl; [|done]. intros Hs.
    exists (a, bySvc). split; [|by apply map_range_elem_of].
    apply list_elem_of_fmap. exists (s, docs). split; [done|by apply map_range_elem_of].
Qed.

Lemma entries_NoDup {rt : GoRuntime} results : NoDup (entries results).*1.
Proof.
  unfold entries. pose proof (map_range_NoDup results) as H. revert H.
  generalize (map_range results). intros l. induction l as [|[a bySvc] l IH]; [constructor|].
  rewrite fmap_cons, NoDup_cons. intros [Ha Hl]. rewrite bind_cons, fmap_app.
  apply NoDup_app. split_and!; [| |by apply IH].
  - pose proof (map_range_NoDup bySvc) as H. revert H. generalize (map_range bySvc). clear.
    intros l. induction l as [|[s docs] l IH]; [constructor|].
    rewrite fmap_cons, NoDup_cons. intros [Hs Hl]. simpl. apply NoDup_cons. split; [|by apply IH].
    intros ([[a' s'] d'] & E1 & ([s2 d2] & E2 & Hin)%list_elem_of_fmap)%list_elem_of_fmap.
    simplify_eq/=. apply Hs. apply list_elem_of_fmap. eexists. split; [|exact Hin]. done.
  - intros [a' s'] H1 H2.
    apply list_elem_of_fmap in H1 as ([[? ?] ?] & E1 & ([? ?] & E2 & _)%list_elem_of_fmap).
    apply list_elem_of_fmap in H2 as ([[? ?] ?] & E3 & H2).
    apply list_elem_of_bind in H2 as ([a2 b2] & H2 & Hin).
    apply list_elem_of_fmap in H2 as ([? ?] & E4 & _).
    simplify_eq/=. apply Ha. apply list_elem_of_fmap. eexists. split; [|exact Hin]. done.
Qed.

(** The documents an entry list holds for a service. *)
Definition entry_docs (es : list (nat * nat * list APIDocInfo)) (a s : nat) : list APIDocInfo :=
  default [] ((list_to_map es : gmap (nat * nat) (list APIDocInfo)) !! (a, s)).

Definition entry_service (es : list (nat * nat * list APIDocInfo)) (a s : nat) (svc : ServiceRef) :=
  match entry_docs es a s with [] => svc | docs => with_docs docs svc end.

Lemma fill_entries es apps h :
  NoDup es.*1 → Forall (λ e, e.2 ≠ []) es →
  foldl fill_one (apps, h) es =
  (map_services (entry_service es) apps, h + sum_list (length <$> es.*2)).
Proof.
  revert apps h. induction es as [|[[a s] docs] es IH]; intros apps h Hnd Hne.
  - simpl. rewrite Nat.add_0_r. f_equal. symmetry. apply map_services_id.
  - rewrite fmap_cons, NoDup_cons in Hnd. destruct Hnd as [Hk Hnd].
    apply Forall_cons in Hne as [Hd Hne]. cbn [foldl]. unfold fill_one at 2, fill_service.
    cbn [fst snd]. rewrite alter_map_services, IH by done. f_equal.
    + rewrite map_services_compose. apply map_services_ext. intros a' s' svc.
      unfold at_service, entry_service at 2, entry_docs at 1. simpl list_to_map.
      case_bool_decide as Has.
      * destruct Has as [-> ->]. rewrite lookup_insert_eq. simpl.
        unfold entry_service, entry_docs. rewrite not_elem_of_list_to_map_1 by done. simpl.
        simpl in Hd. by destruct docs.
      * rewrite lookup_insert_ne by naive_solver. reflexivity.
    + destruct (sortDocs_perm_sorted docs) as [Hp _]. rewrite Hp. rewrite !fmap_cons. simpl. lia.
Qed.

(** *** What the goroutines recorded *)

Definition docs_at (results : probe_results) (a s : nat) : list APIDocInfo :=
  default [] (flat results !! (a, s)).

Lemma flat_record results n j doc :
  probeOne (webs n) j = Some doc →
  flat (record_doc webs results (n, j)) =
  <[(j_appIdx j, j_svcIdx j) := docs_at results (j_appIdx j) (j_svcIdx j) ++ [doc]]> (flat results).
Proof.
  intros E. unfold record_doc. simpl fst. simpl snd. rewrite E.
  apply map_eq. intros [a s]. rewrite flat_lookup. unfold docs_at. rewrite flat_lookup.
  destruct (decide (a = j_appIdx j)) as [->|Ha].
  - rewrite lookup_insert_eq. simpl. destruct (decide (s = j_svcIdx j)) as [->|Hs].
    + rewrite !lookup_insert_eq. by destruct (results !! j_appIdx j).
    + rewrite !lookup_insert_ne by naive_solver. rewrite flat_lookup.
      destruct (results !! j_appIdx j); simpl; [done|apply lookup_empty].
  - rewrite !lookup_insert_ne by naive_solver. by rewrite flat_lookup.
Qed.

Lemma hit_at_same n j : hit_at (j_appIdx j) (j_svcIdx j) (n, j) = probeOne (webs n) j.
Proof. unfold hit_at. simpl. by rewrite bool_decide_eq_true_2. Qed.

(** After the jobs [order] the map holds their hits, service by service. *)
Definition recorded (order : list (nat * job)) (results : probe_results) : Prop :=
  (∀ a s, docs_at results a s = hits_of order a s) ∧
  (∀ a s docs, flat results !! (a, s) = Some docs → docs ≠ []) ∧
  sum_list (length <$> (map_to_list (flat results)).*2) = all_hits order.

Lemma sum_insert (m : gmap (nat * nat) (list APIDocInfo)) k docs d :
  default [] (m !! k) = docs →
  sum_list (length <$> (map_to_list (<[k := docs ++ [d]]> m)).*2) =
  S (sum_list (length <$> (map_to_list m).*2)).
Proof.
  intros Hk. rewrite <- insert_delete_eq.
  rewrite map_to_list_insert by apply lookup_delete_eq. simpl. rewrite length_app. simpl.
  destruct (m !! k) as [docs'|] eqn:E; simpl in Hk; subst.
  - rewrite <- (insert_delete_id m k docs) at 2 by done.
    rewrite map_to_list_insert by apply lookup_delete_eq. simpl. by rewrite Nat.add_1_r.
  - rewrite delete_id by done. simpl. reflexivity.
Qed.

Lemma recorded_all order : recorded order (foldl (record_doc webs) ∅ order).
Proof.
  induction order as [|[n j] order IH] using rev_ind.
  - cbn [foldl]. split_and!.
    + intros a s. unfold docs_at. by rewrite flat_lookup, lookup_empty.
    + intros a s docs. by rewrite flat_lookup, lookup_empty.
    + assert (flat ∅ = ∅) as ->; [|by rewrite map_to_list_empty].
      apply map_eq. intros [a s]. by rewrite flat_lookup, !lookup_empty.
  - rewrite foldl_app. cbn [foldl]. destruct IH as (Hd & Hne & Hsum).
    set (results := foldl (record_doc webs) ∅ order) in *.
    destruct (probeOne (webs n) j) as [doc|] eqn:E.
    + unfold recorded. rewrite (flat_record _ _ _ _ E). split_and!.
      * intros a s. unfold docs_at at 1. rewrite (flat_record _ _ _ _ E).
        unfold hits_of. rewrite omap_app. fold (hits_of order a s).
        destruct (decide ((j_appIdx j, j_svcIdx j) = (a, s))) as [[= <- <-]|Hk].
        -- rewrite lookup_insert_eq. cbn [default from_option id omap list_omap].
           by rewrite hit_at_same, E, Hd.
        -- rewrite lookup_insert_ne by done. fold (docs_at results a s). rewrite Hd.
           assert (hit_at a s (n, j) = None) as Hn.
           { unfold hit_at. simpl. rewrite bool_decide_eq_false_2; [done|]. naive_solver. }
           cbn [omap list_omap]. by rewrite Hn, app_nil_r.
      * intros a s docs. destruct (decide ((j_appIdx j, j_svcIdx j) = (a, s))) as [->|Hk].
        -- rewrite lookup_insert_eq. intros [= <-]. by destruct (docs_at _ _ _).
        -- rewrite lookup_insert_ne by done. apply Hne.
      * rewrite sum_insert by done. rewrite Hsum. unfold all_hits.
        rewrite omap_app, length_app. cbn [omap list_omap]. simpl. rewrite E. simpl. lia.
    + assert (record_doc webs results (n, j) = results) as ->.
      { unfold record_doc. simpl. by rewrite E. }
      split_and!; [|done|].
      * intros a s. unfold hits_of. rewrite omap_app. fold (hits_of order a s).
        assert (hit_at a s (n, j) = None) as Hn by (unfold hit_at; simpl; by case_bool_decide).
        cbn [omap list_omap]. by rewrite Hn, app_nil_r.
      * rewrite Hsum. unfold all_hits. rewrite omap_app, length_app.
        cbn [omap list_omap]. simpl. rewrite E. simpl. lia.
Qed.

Lemma entries_perm {rt : GoRuntime} results : entries results ≡ₚ map_to_list (flat results).
Proof.
  apply NoDup_Permutation.
  - eapply NoDup_fmap_1, entries_NoDup.
  - apply NoDup_map_to_list.
  - intros [[a s] docs]. by rewrite entries_elem, elem_of_map_to_list.
Qed.

(** *** Order of arrival *)

Definition job_key (j : nat * job) : Z * string := (j_port j.2, j_path j.2).

Lemma doc_jobs_elem apps n j : (n, j) ∈ probe_jobs apps → buildJobs apps !! n = Some j.
Proof. unfold probe_jobs. intros (i & y & [= -> ->] & H)%elem_of_lookup_imap. done. Qed.

Lemma probeOne_key web j doc : probeOne web j = Some doc → doc_key doc = (j_port j, j_path j).
Proof.
  unfold probeOne. destruct (web _) as [resp|]; [|done].
  destruct (negb _); [done|]. destruct (rs_Body resp); [|done]. destruct (negb _); [done|].
  by intros [= <-].
Qed.

Lemma hits_keys apps a s : NoDup (doc_key <$> hits_of (probe_jobs apps) a s).
Proof.
  unfold hits_of. apply NoDup_fmap_omap; [apply NoDup_imap_pair|].
  intros [n x] [m y] b c Hx%doc_jobs_elem Hy%doc_jobs_elem.
  unfold hit_at. simpl. case_bool_decide as H1; [|done]. case_bool_decide as H2; [|done].
  destruct H1 as [A1 S1], H2 as [A2 S2]. intros E1 E2 Hk.
  apply probeOne_key in E1, E2. rewrite E1, E2 in Hk. injection Hk as Hp Hq.
  assert (x = y) as <-.
  { pose proof (list_elem_of_lookup_2 _ _ _ Hx) as Kx. pose proof (list_elem_of_lookup_2 _ _ _ Hy) as Ky.
    apply elem_of_mjoin_imap in Kx as (i & app & Hi & (_ & s1 & svc1 & p1 & q1 & H1 & _ & _ & ->)%app_jobs_elem).
    apply elem_of_mjoin_imap in Ky as (i' & app' & Hi' & (_ & s2 & svc2 & p2 & q2 & H2 & _ & _ & ->)%app_jobs_elem).
    simpl in *. simplify_eq. congruence. }
  f_equal. eapply NoDup_lookup; [apply buildJobs_NoDup|done..].
Qed.
End run_spec.



Lemma fill_recorded {GU : GoUnicode} webs (rt : GoRuntime) apps order :
  order ≡ₚ probe_jobs apps →
  fill_results apps (foldl (record_doc webs) ∅ order) =
  (filled_apps webs (probe_jobs apps) apps, all_hits webs (probe_jobs apps)).
Proof.
  intros Hp. destruct (recorded_all webs order) as (Hd & Hne & Hsum).
  set (results := foldl (record_doc webs) ∅ order) in *.
  rewrite fill_results_entries, (fill_entries webs); [|apply entries_NoDup|].
  2:{ apply Forall_forall. intros [[a s] docs] He%entries_elem. by apply (Hne a s). }
  f_equal.
  - apply map_services_ext. intros a s svc. unfold entry_service, filled_service.
    assert (entry_docs (entries results) a s = hits_of webs order a s) as ->.
    { rewrite <- Hd. unfold entry_docs, docs_at. f_equal.
      destruct (flat results !! (a, s)) as [docs|] eqn:E.
      - apply elem_of_list_to_map_1; [apply entries_NoDup|]. by apply entries_elem.
      - apply not_elem_of_list_to_map_1. intros ([k docs] & Hk & He)%list_elem_of_fmap.
        simpl in Hk. subst k. apply entries_elem in He. congruence. }
    assert (hits_of webs order a s ≡ₚ hits_of webs (probe_jobs apps) a s) as Hh
      by (by apply omap_perm).
    pose proof (hits_keys webs apps a s) as Hkeys.
    destruct (hits_of webs (probe_jobs apps) a s) as [|d ds] eqn:E.
    + apply Permutation_nil_r in Hh. by rewrite Hh.
    + destruct (hits_of webs order a s) as [|d' ds'] eqn:E'; [by apply Permutation_nil_l in Hh|].
      unfold with_docs. by rewrite (sortDocs_unique (d :: ds) (d' :: ds')).
  - rewrite entries_perm, Hsum. unfold all_hits. by rewrite Hp.
Qed.

(** The bound of the error group. *)
Definition swagger_pool {GU : GoUnicode} (p : Prober) (webs : nat → WebEnv) : pool → pool → Prop :=
  pool_step (Z.to_nat (sp_concurrency p)) (record_doc webs).

(** C20: however the requests interleave, a finished run fills the applications in
    the same way: every service with hits gets all of them, ordered by port and
    path and with their external URLs, and nothing else changes.  The counts are
    the number of jobs and of hits. *)
Theorem Probe_run (GU : GoUnicode) (p : Prober) (webs : nat → WebEnv) (rt : GoRuntime)
    (apps : list ApplicationEntry) (st : pool) (sched : list (nat * job) → list (nat * job)) :
  rtc (swagger_pool p webs) (mkPool (probe_jobs apps) [] ∅) st → pool_done st →
  (∀ l, sched l ≡ₚ l) →
  let filled := filled_apps webs (probe_jobs apps) apps in
  let hits := all_hits webs (probe_jobs apps) in
  fill_results apps (pl_acc st) = (filled, hits) ∧
  Probe webs sched apps = (filled, length (buildJobs apps), hits).
Proof.
  intros Hr Hd Hs. destruct (pool_run _ _ _ _ _ Hr Hd) as (order & Hp & ->).
  cbn zeta. split; [by apply fill_recorded|].
  assert (length (probe_jobs apps) = length (buildJobs apps)) as Hlen by apply length_imap.
  unfold Probe. destruct (Nat.eqb_spec (length (probe_jobs apps)) 0) as [Hz|_].
  - rewrite <- Hlen, Hz. apply nil_length_inv in Hz.
    unfold filled_apps, all_hits. rewrite Hz. simpl. f_equal. f_equal. symmetry. apply map_services_id.
  - rewrite fill_recorded by apply Hs. by rewrite Hlen.
Qed.

Definition demo_app_with (ns name : string) (svcs : list ServiceRef) : ApplicationEntry :=
  mkApplicationEntry "c" ns name "Deployment" "" 1 1 [] [] None "" "" None svcs [] [] ""
    f64_zero f64_zero None None.

Definition demo_apps : list ApplicationEntry :=
  [ demo_app_with "ns" "web"
      [ mkServiceRef "web" "ClusterIP" "" [mkServicePort "http" 80 "80" "TCP"] []
          [mkRouteRef "r" "IngressRoute" ["api.example.com"] ["/web"] [] true None] [] [] ] ].

(** Every path but one answers 404. *)
Definition demo_web : WebEnv := λ url,
  if HasSuffix url "/openapi.json"
  then Some (mkResponse 200 "application/json" (Some (print_json (JObj demo_spec))))
  else Some (mkResponse 404 "text/plain" (Some "not found")).

Lemma Probe_run_witness :
  let GU := {| wide_lower := λ s, s; wide_upper := λ s, s; wide_quote := λ s, s |} in
  ∃ st : @pool (nat * job) probe_results, pool_done st ∧
    fill_results (rt := insertion_runtime) demo_apps (pl_acc st) =
      (filled_apps (λ _, demo_web) (probe_jobs demo_apps) demo_apps, 1) ∧
    ((λ a, (λ s, doc_ExternalURL <$> svc_APIDocs s) <$> app_Services a) <$>
       filled_apps (GU := GU) (λ _, demo_web) (probe_jobs demo_apps) demo_apps)
    = [[["https://api.example.com/web/openapi.json"]]].
Proof.
  intros GU. set (p := NewProber 0 None None).
  destruct (pool_completes (Z.to_nat (sp_concurrency p)) (record_doc (λ _, demo_web))
    (mkPool (probe_jobs demo_apps) [] ∅)) as (st & Hr & Hd); [vm_compute; lia|].
  exists st. split; [exact Hd|].
  destruct (Probe_run GU p (λ _, demo_web) insertion_runtime demo_apps st (λ l, l) Hr Hd
    (λ l, reflexivity l)) as [E _].
  split; [|vm_compute; reflexivity]. rewrite E. f_equal.
Defined.
