(* ===== verification/TelemetryModel.v ===== *)
(** * Telemetry identifiers ([internal/telemetry/model.go])

    Addresses with a port, IP literals, and the resolver that maps the names in
    telemetry back to the applications of the cluster. *)

From S2P Require Export GoNet Model.
From Stdlib Require Import Ascii.

Record Sample := mkSample { sm_Metric : smap; sm_Value : spec_float }.

Definition svcSuffix : string := ".svc.cluster.local".

Definition kindService : string := "service".
Definition kindDatabase : string := "database".
Definition kindKafka : string := "kafka".
Definition kindExternal : string := "external".

Definition wellKnownPorts : gmap string string := list_to_map
  [ ("5432", "postgresql"); ("3306", "mysql"); ("6379", "redis"); ("27017", "mongodb");
    ("1433", "mssql"); ("9200", "elasticsearch"); ("9092", "kafka"); ("5672", "rabbitmq") ].

Definition databaseSystems : gset string := list_to_set
  [ "postgresql"; "postgres"; "mysql"; "mariadb"; "redis"; "mongodb"; "mssql"; "sqlserver";
    "cassandra"; "elasticsearch"; "dynamodb"; "cosmosdb"; "oracle" ].

Definition messagingSystems : gset string := list_to_set
  [ "kafka"; "rabbitmq"; "amqp"; "servicebus"; "sqs"; "sns"; "eventhub"; "nservicebus" ].

Definition otelCollectorPeers : gset string := list_to_set
  [ "otel-collector"; "otel-collector-service"; "opentelemetry-collector";
    "opentelemetry-collector-service" ].

(** ** Addresses *)

Definition is_number (s : string) : bool :=
  match Atoi s with Some _ => true | None => false end.

Definition splitHostPort (addr : string) : string * string :=
  if String.eqb addr EmptyString then (EmptyString, EmptyString)
  else if HasPrefix addr "[" then
    match CutLast (string_drop 1 addr) "]" with
    | Some (host, rest) =>
        if HasPrefix rest ":" && is_number (string_drop 1 rest)
        then (host, string_drop 1 rest) else (host, EmptyString)
    | None => (addr, EmptyString)
    end
  else if Nat.ltb 1 (Count addr ":") then (addr, EmptyString)
  else
    match CutLast addr ":" with
    | Some (host, port) => if is_number port then (host, port) else (addr, EmptyString)
    | None => (addr, EmptyString)
    end.

Definition stripPort (addr : string) : string := (splitHostPort addr).1.
Definition portOf (addr : string) : string := (splitHostPort addr).2.

Definition joinHostPort (host port : string) : string :=
  if String.eqb port EmptyString then host
  else
    let host := if Contains host ":" && negb (HasPrefix host "[") then "[" +:+ host +:+ "]" else host in
    host +:+ ":" +:+ port.

Definition isBareIP (host : string) : bool :=
  match ParseIP host with Some _ => true | None => false end.

Definition isPrivateIP (host : string) : bool :=
  match ParseIP host with
  | None => false
  | Some ip =>
      if IsPrivate ip || IsLoopback ip || IsLinkLocalUnicast ip || IsLinkLocalMulticast ip ||
         IsUnspecified ip
      then true
      else
        match To4 ip with
        | Some ip4 =>
            (ip_at ip4 0 =? 100)%Z && (64 <=? ip_at ip4 1)%Z && (ip_at ip4 1 <=? 127)%Z
        | None => false
        end
  end.

Definition peerPort (m : smap) (addr : string) : string :=
  let p := m⟦"server_port"⟧ in if nonempty p then p else portOf addr.

Definition beylaEgressBucket (name : string) : bool :=
  String.eqb name "outgoing" || String.eqb name "incoming".

Fixpoint firstNonEmpty (vals : list string) : string :=
  match vals with
  | [] => EmptyString
  | v :: rest => if nonempty v then v else firstNonEmpty rest
  end.

(** ** Resolution *)

Record resolver := mkResolver { r_cluster : string; r_services : gmap string string }.

(** The keys one application contributes to the index, in the order they are
    written. *)
Definition service_keys (app : ApplicationEntry) : list string :=
  app_Name app :: (svc_Name <$> app_Services app).

Definition newResolver (cluster : string) (apps : list ApplicationEntry) : resolver :=
  mkResolver cluster
    (foldl (λ services app,
       foldl (λ services name, <[app_Namespace app +:+ "/" +:+ name := app_Name app]> services)
         services (service_keys app)) ∅ apps).

Definition externalNode (service : string) : DependencyNode :=
  mkDependencyNode EmptyString EmptyString service true.

Definition systemKind (sys : string) : string :=
  if bool_decide (sys ∈ messagingSystems) then kindKafka else kindDatabase.

Definition splitClusterDNS (host : string) : option (string * string) :=
  match Split (TrimSuffix host svcSuffix) "." with
  | name :: ns :: _ => Some (name, ns)
  | _ => None
  end.

Section resolution.
Context {GU : GoUnicode}.

Definition isOTLPCollectorPeer (host : string) : bool :=
  let label := match Cut host "." with Some (l, _) => l | None => host end in
  bool_decide (ToLower label ∈ otelCollectorPeers).

(** What is left once the name is not in the cluster. *)
Definition resolve_outside (host port : string) : DependencyNode * string :=
  let lower := ToLower host in
  if is_number host then
    match wellKnownPorts !! host with
    | Some sys => (externalNode sys, systemKind sys)
    | None => (externalNode host, kindExternal)
    end
  else
    let generic :=
      if bool_decide (lower ∈ databaseSystems) then (externalNode lower, kindDatabase)
      else if bool_decide (lower ∈ messagingSystems) then (externalNode lower, kindKafka)
      else (externalNode host, kindExternal) in
    if nonempty port then
      match wellKnownPorts !! port with
      | Some sys => (externalNode lower, systemKind sys)
      | None => generic
      end
    else generic.

Definition resolve (r : resolver) (identifier : string) : DependencyNode * string :=
  let id := TrimSpace identifier in
  if String.eqb id EmptyString then (externalNode EmptyString, kindExternal)
  else
    let '(host, port) := splitHostPort id in
    match splitClusterDNS host with
    | Some (name, ns) =>
        match r_services r !! (ns +:+ "/" +:+ name) with
        | Some app => (mkDependencyNode (r_cluster r) ns app false, kindService)
        | None => resolve_outside host port
        end
    | None => resolve_outside host port
    end.

Definition resolveNode (r : resolver) (identifier : string) : DependencyNode :=
  (resolve r identifier).1.

Definition resolveEndpoint (r : resolver) (name k8sNamespace : string) : DependencyNode * string :=
  if nonempty k8sNamespace then
    match r_services r !! (k8sNamespace +:+ "/" +:+ name) with
    | Some app => (mkDependencyNode (r_cluster r) k8sNamespace app false, kindService)
    | None => resolve r name
    end
  else resolve r name.

Definition resolveEndpointNode (r : resolver) (name k8sNamespace : string) : DependencyNode :=
  (resolveEndpoint r name k8sNamespace).1.

Definition resolveClient (r : resolver) (m : smap) : DependencyNode :=
  let ns := m⟦"k8s_namespace_name"⟧ in
  let name := firstNonEmpty
    [ m⟦"k8s_deployment_name"⟧; m⟦"k8s_statefulset_name"⟧; m⟦"k8s_daemonset_name"⟧;
      m⟦"service_name"⟧ ] in
  if nonempty name then resolveEndpointNode r name ns
  else resolveEndpointNode r (m⟦"service"⟧) ns.
End resolution.

(** ** Host and port *)

(** A decimal port that Go's [Atoi] accepts. *)
Definition port_text (p : string) : Prop :=
  p ≠ EmptyString ∧ string_all is_digit p = true ∧ is_number p = true.

Lemma splitHostPort_plain host port :
  lacks "["%char host = true → lacks ":"%char host = true → host ≠ EmptyString →
  port = EmptyString ∨ port_text port →
  joinHostPort host port = (if String.eqb port EmptyString then host else host +:+ ":" +:+ port) ∧
  splitHostPort (joinHostPort host port) = (host, port).
Proof.
  intros Hb Hl Hne Hport. unfold joinHostPort.
  rewrite (lacks_no_prefix host) by done. rewrite Contains_byte, Hl. simpl negb. cbn [andb]. cbv iota zeta.
  destruct Hport as [->|(Hp & Hd & Hn)].
  - change (String.eqb EmptyString EmptyString) with true. cbv iota. split; [done|].
    unfold splitHostPort. destruct (String.eqb_spec host EmptyString) as [|_]; [done|].
    rewrite lacks_no_prefix, Count_lacks, CutLast_lacks by done. done.
  - assert (lacks ":"%char port = true) as Hpc by (by apply digits_lack).
    destruct (String.eqb_spec port EmptyString) as [|_]; [done|]. split; [done|].
    change (":" +:+ port) with (String ":" port). unfold splitHostPort.
    assert (String.eqb (host +:+ String ":" port) EmptyString = false) as -> by (by destruct host).
    rewrite (lacks_no_prefix _ "["%char)
      by (rewrite lacks_app, Hb, lacks_cons; simpl; by apply digits_lack).
    rewrite Count_app, Count_cons, !Count_lacks by done. simpl Nat.ltb. cbv iota.
    by rewrite CutLast_byte, Hn.
Qed.

(** Attaching a port to a host and splitting it off again is the identity:
    for host names, IPv4 literals and, through the brackets, IPv6 literals; with
    no port, for every host but one with a single colon. *)
Theorem splitHostPort_join (host port : string) :
  lacks "[" host = true → lacks "]" host = true → host ≠ EmptyString →
  (port = EmptyString ∧ Count host ":" ≠ 1) ∨ port_text port →
  splitHostPort (joinHostPort host port) = (host, port).
Proof.
  intros Hb He Hne Hport. destruct (lacks ":" host) eqn:Hl.
  { apply splitHostPort_plain; [done..|]. destruct Hport as [[-> _]|]; auto. }
  assert (Count host ":" ≠ 0) as Hc by (intros Hc%Count_zero_lacks; congruence).
  destruct Hport as [[-> Hc1]|(Hp & Hd & Hn)].
  - change (joinHostPort host EmptyString) with host. unfold splitHostPort.
    destruct (String.eqb_spec host EmptyString) as [|_]; [done|].
    rewrite lacks_no_prefix by done. destruct (Nat.ltb_spec 1 (Count host ":")); [done|lia].
  - assert (lacks "]" port = true) as Hpb by (by apply digits_lack).
    unfold joinHostPort. destruct (String.eqb_spec port EmptyString) as [|_]; [done|].
    rewrite lacks_no_prefix, Contains_byte, Hl by done. simpl negb. cbn [andb]. cbv iota zeta. unfold splitHostPort.
    assert (("[" +:+ host +:+ "]") +:+ ":" +:+ port = String "[" (host +:+ String "]" (String ":" port))) as ->
      by (by rewrite !str_app_assoc).
    change (String.eqb (String "[" ?x) EmptyString) with false.
    change (HasPrefix (String "[" ?x) "[") with true.
    change (string_drop 1 (String "[" ?x)) with x. cbv iota.
    rewrite CutLast_byte by (by rewrite lacks_cons, Hpb).
    change (HasPrefix (String ":" port) ":") with true.
    change (string_drop 1 (String ":" port)) with port. by rewrite Hn.
Qed.

Lemma splitHostPort_join_witness :
  splitHostPort (joinHostPort "::1" "5432") = ("::1", "5432") ∧
  splitHostPort (joinHostPort "db.example.com" "") = ("db.example.com", "").
Proof.
  split; apply splitHostPort_join; try reflexivity; try discriminate.
  - right. split_and!; [discriminate|reflexivity..].
  - left. split; [reflexivity|]. vm_compute. lia.
Defined.

(** ** Private addresses *)

(** Of the IPv4 literals exactly these are private peers: RFC 1918 space,
    loopback, link-local (unicast, and the 224.0.0.0/24 multicast block), the
    unspecified address and the shared 100.64.0.0/10 block. *)
Theorem isPrivateIP_dotted (a b c d : Z) :
  octet a → octet b → octet c → octet d →
  isBareIP (dotted a b c d) = true ∧
  (isPrivateIP (dotted a b c d) = true ↔
   a = 10 ∨ a = 127 ∨ (a = 172 ∧ 16 ≤ b ≤ 31) ∨ (a = 192 ∧ b = 168) ∨ (a = 169 ∧ b = 254) ∨
   (a = 224 ∧ b = 0 ∧ c = 0) ∨ (a = 0 ∧ b = 0 ∧ c = 0 ∧ d = 0) ∨ (a = 100 ∧ 64 ≤ b ≤ 127))%Z.
Proof.
  intros Ha Hb Hc Hd. unfold isBareIP, isPrivateIP. rewrite ParseIP_dotted by done. split; [done|].
  assert ((Z.land b 240 =? 16)%Z = ((16 <=? b) && (b <=? 31))%Z) as Hland.
  { apply (octet_cases (λ b, (Z.land b 240 =? 16)%Z = ((16 <=? b) && (b <=? 31))%Z)); [done|].
    repeat (constructor; [reflexivity|]). constructor. }
  assert (IsUnspecified (v4_mapped [a; b; c; d]) = ((a =? 0) && (b =? 0) && (c =? 0) && (d =? 0))%Z) as Hu.
  { unfold IsUnspecified. apply eq_true_iff_eq.
    rewrite orb_true_iff, !bool_decide_eq_true, !andb_true_iff, !Z.eqb_eq. split.
    - intros [[=]|[=]]; lia.
    - intros [[[-> ->] ->] ->]. by left. }
  unfold IsPrivate, IsLoopback, IsLinkLocalUnicast, IsLinkLocalMulticast.
  rewrite Hu, To4_mapped. unfold ip_at. cbn [nth]. rewrite Hland.
  match goal with |- (if ?x then true else ?y) = true ↔ _ =>
    assert ((if x then true else y) = true ↔ x = true ∨ y = true) as -> by (destruct x, y; naive_solver) end.
  rewrite !orb_true_iff, !andb_true_iff, !Z.eqb_eq, !Z.leb_le. tauto.
Qed.

Lemma isPrivateIP_dotted_witness :
  isPrivateIP (dotted 172 31 255 255) = true ∧ isPrivateIP (dotted 172 32 0 1) ≠ true.
Proof.
  split.
  - apply (isPrivateIP_dotted 172 31 255 255); unfold octet; lia.
  - intros H. apply (isPrivateIP_dotted 172 32 0 1) in H; unfold octet; lia.
Defined.

(** ** The service index *)

(** The (namespace, name, application) entries in the order they are written. *)
Definition service_entries (apps : list ApplicationEntry) : list (string * string * string) :=
  apps ≫= λ app, (λ name, (app_Namespace app, name, app_Name app)) <$> service_keys app.

Definition entry_sel (e : string * string * string) : option (string * string) :=
  Some (e.1.1 +:+ "/" +:+ e.1.2, e.2).

Lemma newResolver_index cluster apps :
  r_services (newResolver cluster apps) = index_by entry_sel (service_entries apps).
Proof.
  assert (∀ app l m, foldl (λ services name, <[app_Namespace app +:+ "/" +:+ name := app_Name app]> services) m l =
    foldl (index_step_by entry_sel) m ((λ name, (app_Namespace app, name, app_Name app)) <$> l)) as Hl.
  { intros app l. induction l as [|n l IHl]; intros m; [reflexivity|].
    rewrite fmap_cons. cbn [foldl]. apply IHl. }
  unfold newResolver, index_by, service_entries. cbn [r_services]. generalize (∅ : gmap string string).
  induction apps as [|app apps IH]; intros m; [reflexivity|].
  rewrite bind_cons, foldl_app. cbn [foldl]. by rewrite IH, Hl.
Qed.

Lemma service_entries_elem apps ns name a :
  (ns, name, a) ∈ service_entries apps ↔
  ∃ app, app ∈ apps ∧ app_Namespace app = ns ∧ name ∈ service_keys app ∧ a = app_Name app.
Proof.
  unfold service_entries. rewrite list_elem_of_bind. split.
  - intros (app & (n & [= -> -> ->] & Hn)%list_elem_of_fmap & Happ). eauto.
  - intros (app & Happ & <- & Hn & ->). exists app. split; [|done].
    apply list_elem_of_fmap. eauto.
Qed.

(** Namespaces, workload and Service names hold no slash. *)
Definition named_app (app : ApplicationEntry) : Prop :=
  lacks "/"%char (app_Namespace app) = true ∧ Forall (λ n, lacks "/"%char n = true) (service_keys app).

#[export] Instance named_app_dec app : Decision (named_app app).
Proof. unfold named_app. apply _. Defined.

Lemma services_sound cluster apps ns name a :
  Forall named_app apps →
  r_services (newResolver cluster apps) !! (ns +:+ "/" +:+ name) = Some a →
  ∃ app, app ∈ apps ∧ app_Namespace app = ns ∧ name ∈ service_keys app ∧ a = app_Name app.
Proof.
  intros Hn. rewrite newResolver_index. intros ([[ns' name'] a'] & Hin & [= Hk <-])%index_by_sound.
  simpl in Hk. apply service_entries_elem in Hin as (app & Happ & <- & Hname & ->).
  rewrite Forall_forall in Hn. destruct (Hn app Happ) as [Hns Hnames].
  rewrite Forall_forall in Hnames. specialize (Hnames _ Hname).
  symmetry in Hk. apply (sep_once_inj "/"%char) in Hk as [-> ->]; [|done..]. eauto.
Qed.

Lemma services_complete cluster apps app name :
  Forall named_app apps → app ∈ apps → name ∈ service_keys app →
  (∀ app', app' ∈ apps → app_Namespace app' = app_Namespace app → name ∈ service_keys app' →
           app_Name app' = app_Name app) →
  r_services (newResolver cluster apps) !! (app_Namespace app +:+ "/" +:+ name) = Some (app_Name app).
Proof.
  intros Hn Happ Hname Hu. rewrite newResolver_index.
  apply (index_by_lookup _ _ (app_Namespace app, name, app_Name app)).
  - apply service_entries_elem. by exists app.
  - done.
  - intros [[ns' name'] a'] w (app' & Happ' & <- & Hname' & ->)%service_entries_elem [= Hk <-].
    simpl in Hk. rewrite Forall_forall in Hn.
    destruct (Hn app Happ) as [Hns Hnames], (Hn app' Happ') as [Hns' Hnames'].
    rewrite Forall_forall in Hnames, Hnames'.
    apply (sep_inj "/"%char) in Hk as [E ->]; [|done..]. by apply Hu.
Qed.

(** ** Resolution *)

Section resolution_lemmas.
Context {GU : GoUnicode}.

(** A node outside the cluster: external, without a namespace or cluster. *)
Definition outside (nk : DependencyNode * string) : Prop :=
  node_External nk.1 = true ∧ node_Cluster nk.1 = EmptyString ∧ node_Namespace nk.1 = EmptyString ∧
  nk.2 ∈ [kindDatabase; kindKafka; kindExternal].

Lemma systemKind_cases sys : systemKind sys ∈ [kindDatabase; kindKafka; kindExternal].
Proof. unfold systemKind. case_bool_decide; rewrite !elem_of_cons; auto. Qed.

Lemma externalNode_outside s k :
  k ∈ [kindDatabase; kindKafka; kindExternal] → outside (externalNode s, k).
Proof. by intros H. Qed.

Lemma resolve_outside_outside host port : outside (resolve_outside host port).
Proof.
  assert (kindDatabase ∈ [kindDatabase; kindKafka; kindExternal]) as H1 by (rewrite !elem_of_cons; auto).
  assert (kindKafka ∈ [kindDatabase; kindKafka; kindExternal]) as H2 by (rewrite !elem_of_cons; auto).
  assert (kindExternal ∈ [kindDatabase; kindKafka; kindExternal]) as H3 by (rewrite !elem_of_cons; auto).
  pose proof systemKind_cases as H4.
  unfold resolve_outside. repeat case_match; by apply externalNode_outside.
Qed.

(** What a resolver may answer for a list of applications. *)
Definition resolved (cluster : string) (apps : list ApplicationEntry) (nk : DependencyNode * string) : Prop :=
  outside nk ∨
  (nk.2 = kindService ∧ node_External nk.1 = false ∧ node_Cluster nk.1 = cluster ∧
   ∃ app, app ∈ apps ∧ app_Namespace app = node_Namespace nk.1 ∧ app_Name app = node_Service nk.1).

Lemma resolve_resolved cluster apps id :
  Forall named_app apps → resolved cluster apps (resolve (newResolver cluster apps) id).
Proof.
  intros Hn. unfold resolve. destruct (String.eqb _ _).
  { left. apply externalNode_outside. rewrite !elem_of_cons. auto. }
  destruct (splitHostPort _) as [host port].
  destruct (splitClusterDNS host) as [[name ns]|]; [|left; apply resolve_outside_outside].
  destruct (r_services _ !! _) as [a|] eqn:E; [|left; apply resolve_outside_outside].
  apply services_sound in E as (app & Happ & Hns & _ & ->); [|done].
  right. split_and!; [done..|]. by exists app.
Qed.

Lemma resolveEndpoint_resolved cluster apps name ns :
  Forall named_app apps → resolved cluster apps (resolveEndpoint (newResolver cluster apps) name ns).
Proof.
  intros Hn. unfold resolveEndpoint. destruct (nonempty ns); [|by apply resolve_resolved].
  destruct (r_services _ !! _) as [a|] eqn:E; [|by apply resolve_resolved].
  apply services_sound in E as (app & Happ & Hns & _ & ->); [|done].
  right. split_and!; [done..|]. by exists app.
Qed.

Lemma resolveClient_resolved cluster apps m :
  Forall named_app apps → ∃ k, resolved cluster apps (resolveClient (newResolver cluster apps) m, k).
Proof.
  intros Hn. unfold resolveClient, resolveEndpointNode.
  destruct (nonempty _);
    match goal with |- context [resolveEndpoint ?r ?n ?s] =>
      exists (resolveEndpoint r n s).2; rewrite <- surjective_pairing end;
    by apply resolveEndpoint_resolved.
Qed.

(** What a resolver answers whatever the names: the external node of an engine, a
    broker or a host, or a node of its cluster of kind service. *)
Definition classified (cluster : string) (nk : DependencyNode * string) : Prop :=
  outside nk ∨ nk.2 = kindService ∧ node_External nk.1 = false ∧ node_Cluster nk.1 = cluster.

Lemma resolve_classified r id : classified (r_cluster r) (resolve r id).
Proof.
  unfold resolve. destruct (String.eqb _ _).
  { left. apply externalNode_outside. rewrite !elem_of_cons. auto. }
  destruct (splitHostPort _) as [host port].
  destruct (splitClusterDNS host) as [[name ns]|]; [|left; apply resolve_outside_outside].
  destruct (r_services _ !! _); [by right|left; apply resolve_outside_outside].
Qed.

Lemma resolveEndpoint_classified r name ns : classified (r_cluster r) (resolveEndpoint r name ns).
Proof.
  unfold resolveEndpoint. destruct (nonempty ns); [|apply resolve_classified].
  destruct (r_services _ !! _); [by right|apply resolve_classified].
Qed.

Lemma resolveClient_classified r m : ∃ k, classified (r_cluster r) (resolveClient r m, k).
Proof.
  unfold resolveClient, resolveEndpointNode.
  destruct (nonempty _);
    match goal with |- context [resolveEndpoint ?r ?n ?s] =>
      exists (resolveEndpoint r n s).2; pose proof (resolveEndpoint_classified r n s) as H;
      by destruct (resolveEndpoint r n s) end.
Qed.
End resolution_lemmas.

(** C32: what telemetry resolves to in the cluster is always an application of the
    catalog, in this cluster and of kind service; every other identifier gives
    an external node without cluster or namespace, never of kind service. *)
Theorem resolveEndpoint_sound (GU : GoUnicode) (cluster : string) (apps : list ApplicationEntry)
    (name ns : string) :
  Forall named_app apps →
  let '(node, kind) := resolveEndpoint (newResolver cluster apps) name ns in
  (kind = kindService ↔ node_External node = false) ∧
  (node_External node = false →
     node_Cluster node = cluster ∧
     ∃ app, app ∈ apps ∧ app_Namespace app = node_Namespace node ∧ app_Name app = node_Service node) ∧
  (node_External node = true → node_Cluster node = EmptyString ∧ node_Namespace node = EmptyString).
Proof.
  intros Hn. pose proof (resolveEndpoint_resolved cluster apps name ns Hn) as H.
  destruct (resolveEndpoint _ _ _) as [node kind].
  destruct H as [(He & Hc & Hns & Hk)|(Hk & He & Hc & Happ)]; simpl in *; rewrite He.
  - split_and!; try done. split; [|done]. intros ->.
    rewrite !elem_of_cons, elem_of_nil in Hk. destruct Hk as [|[|[|[]]]]; discriminate.
  - by split_and!.
Qed.

(** A DNS label as it occurs in names. *)
Definition dns_label (s : string) : Prop :=
  s ≠ EmptyString ∧ graphic s = true ∧ lacks "."%char s = true ∧ lacks ":"%char s = true ∧
  lacks "["%char s = true.

(** C31: an application is found by each of its names, with the namespace label
    or as a cluster DNS name in the short or the fully qualified form, a port
    included, whenever no other application of the namespace carries the name. *)
Theorem resolveEndpoint_complete (GU : GoUnicode) (cluster : string) (apps : list ApplicationEntry)
    (app : ApplicationEntry) (name suffix port : string) :
  Forall named_app apps → app ∈ apps → name ∈ service_keys app →
  (∀ app', app' ∈ apps → app_Namespace app' = app_Namespace app → name ∈ service_keys app' →
           app_Name app' = app_Name app) →
  dns_label name → dns_label (app_Namespace app) →
  (suffix = EmptyString ∨ suffix = svcSuffix) → (port = EmptyString ∨ port_text port) →
  let r := newResolver cluster apps in
  let found := (mkDependencyNode cluster (app_Namespace app) (app_Name app) false, kindService) in
  resolveEndpoint r name (app_Namespace app) = found ∧
  resolve r (joinHostPort (name +:+ "." +:+ app_Namespace app +:+ suffix) port) = found.
Proof.
  intros Hnamed Happ Hname Hu (N1 & N2 & N3 & N4 & N5) (M1 & M2 & M3 & M4 & M5) Hsuf Hport.
  cbn zeta. pose proof (services_complete cluster apps app name Hnamed Happ Hname Hu) as Hs.
  split.
  { unfold resolveEndpoint. replace (nonempty (app_Namespace app)) with true
      by (destruct (app_Namespace app); done). by rewrite Hs. }
  set (host := name +:+ "." +:+ app_Namespace app +:+ suffix).
  assert (graphic suffix = true ∧ lacks ":"%char suffix = true ∧ lacks "["%char suffix = true) as (S1 & S2 & S3)
    by (destruct Hsuf as [-> | ->]; done).
  assert (host ≠ EmptyString) as Hne by (unfold host; by destruct name).
  assert (lacks ":"%char host = true) as Hl by (unfold host; by rewrite !lacks_app, N4, M4, S2).
  assert (lacks "["%char host = true) as Hb by (unfold host; by rewrite !lacks_app, N5, M5, S3).
  assert (graphic host = true) as Hg.
  { unfold host, graphic in *. by rewrite !string_all_app, N2, M2, S1. }
  destruct (splitHostPort_plain host port Hb Hl Hne Hport) as [Hj Hsplit].
  assert (graphic (joinHostPort host port) = true) as Hgj.
  { rewrite Hj. destruct Hport as [->|(Hp & Hd & _)]; [done|].
    destruct (String.eqb_spec port EmptyString); [done|]. unfold graphic in *.
    rewrite !string_all_app, Hg. simpl. by apply digits_graphic. }
  unfold resolve. rewrite TrimSpace_graphic by done.
  assert (String.eqb (joinHostPort host port) EmptyString = false) as ->.
  { rewrite Hj. destruct (String.eqb port EmptyString); destruct host; done. }
  rewrite Hsplit.
  assert (splitClusterDNS host = Some (name, app_Namespace app)) as ->; [|by rewrite Hs].
  unfold splitClusterDNS.
  assert (TrimSuffix host svcSuffix = name +:+ String "." (app_Namespace app)) as ->.
  { unfold host. change ("." +:+ ?x) with (String "." x). destruct Hsuf as [-> | ->].
    - rewrite str_app_nil_r. apply (TrimSuffix_miss _ _ "."%char).
      rewrite Count_app, Count_cons, !Count_lacks by done. vm_compute. lia.
    - rewrite <- (str_app_cons "." (app_Namespace app) svcSuffix), <- str_app_assoc.
      apply TrimSuffix_app. }
  rewrite Split_app, Split_lacks by done. done.
Qed.

Definition demo_tapp (ns name : string) (svcs : list string) : ApplicationEntry :=
  mkApplicationEntry "prod" ns name "Deployment" "" 1 1 [] [] None "" "" None
    ((λ n, mkServiceRef n "ClusterIP" "" [] [] [] [] []) <$> svcs) [] [] "" f64_zero f64_zero None None.

Definition demo_tapps : list ApplicationEntry :=
  [demo_tapp "cap-a" "web" ["web"; "web-grpc"]; demo_tapp "cap-a" "api" ["api"]].

Definition demo_unicode : GoUnicode :=
  {| wide_lower := λ s, s; wide_upper := λ s, s; wide_quote := λ s, s |}.

Lemma demo_tapps_named : Forall named_app demo_tapps.
Proof. repeat constructor. Qed.

Lemma resolveEndpoint_sound_witness :
  node_Cluster (resolveEndpoint (GU := demo_unicode) (newResolver "prod" demo_tapps) "web-grpc" "cap-a").1
  = "prod".
Proof.
  pose proof (resolveEndpoint_sound demo_unicode "prod" demo_tapps "web-grpc" "cap-a" demo_tapps_named) as H.
  revert H. destruct (resolveEndpoint _ _ _) as [node kind] eqn:E. intros (_ & H & _). simpl.
  apply H. assert (node = (resolveEndpoint (GU := demo_unicode) (newResolver "prod" demo_tapps) "web-grpc" "cap-a").1)
    as -> by (by rewrite E). vm_compute. reflexivity.
Defined.

Lemma resolveEndpoint_complete_witness :
  resolve (GU := demo_unicode) (newResolver "prod" demo_tapps) "web-grpc.cap-a.svc.cluster.local:8080" =
    (mkDependencyNode "prod" "cap-a" "web" false, kindService).
Proof.
  apply (resolveEndpoint_complete demo_unicode "prod" demo_tapps (demo_tapp "cap-a" "web" ["web"; "web-grpc"])
    "web-grpc" svcSuffix "8080").
  - exact demo_tapps_named.
  - left.
  - right. right. left.
  - intros app' Happ _ Hk.
    repeat (apply elem_of_cons in Happ as [-> | Happ]; [try reflexivity|]); [|by apply elem_of_nil in Happ].
    repeat (apply elem_of_cons in Hk as [Hk | Hk]; [discriminate Hk|]). by apply elem_of_nil in Hk.
  - split_and!; [discriminate|reflexivity..].
  - split_and!; [discriminate|reflexivity..].
  - by right.
  - right. split_and!; [discriminate|reflexivity..].
Defined.
