(* ===== verification/TelemetryClient.v ===== *)
(** * The telemetry query client ([internal/telemetry/client.go])

    [InstantQuery] posts a form and turns the answer into samples.  The HTTP
    exchange, the check of the URL by [http.NewRequestWithContext] and the decoding
    of JSON into [promResponse] are parameters; the form's encoding and the reading
    of a sample's decimal value are written out. *)

From S2P Require Export TelemetryModel.
From Stdlib Require Import Ascii.

(** ** [strconv.ParseFloat] *)

(** Hexadecimal floats and digit separators, which no server sends. *)
Class GoParseFloat := { exotic_float : string → option spec_float }.

Fixpoint span_digits (s : string) : string * string :=
  match s with
  | String c s' =>
      if is_digit c then let '(ds, rest) := span_digits s' in (String c ds, rest) else (EmptyString, s)
  | EmptyString => (EmptyString, EmptyString)
  end.

(** The digits of an exponent; those after it has reached 10000 are read and dropped. *)
Fixpoint exponent_digits (acc : Z) (s : string) : option Z :=
  match s with
  | EmptyString => Some acc
  | String c s' =>
      if is_digit c
      then exponent_digits (if (acc <? 10000)%Z then acc * 10 + digit_value c else acc)%Z s'
      else None
  end.

(** What follows the mantissa: nothing, or [e], an optional sign and digits. *)
Definition parse_exponent (s : string) : option Z :=
  match s with
  | EmptyString => Some 0%Z
  | String c s =>
      if Ascii.eqb (lower_byte c) "e" then
        let '(neg, s) :=
          match s with
          | String d s' =>
              if Ascii.eqb d "-" then (true, s') else if Ascii.eqb d "+" then (false, s') else (false, s)
          | EmptyString => (false, s)
          end in
        if String.eqb s EmptyString then None
        else option_map (λ e, if neg then (- e)%Z else e) (exponent_digits 0 s)
      else None
  end.

(** An unsigned decimal: [m] and [x] of the value [m * 10 ^ x]. *)
Definition parse_decimal (s : string) : option (Z * Z) :=
  let '(ip, rest) := span_digits s in
  let '(fp, rest) :=
    match rest with
    | String c rest' => if Ascii.eqb c "." then span_digits rest' else (EmptyString, rest)
    | EmptyString => (EmptyString, rest)
    end in
  if String.eqb (ip +:+ fp) EmptyString then None
  else
    match parse_digits 0 (ip +:+ fp), parse_exponent rest with
    | Some m, Some e => Some (m, e - Z.of_nat (String.length fp))%Z
    | _, _ => None
    end.

(** The binary64 nearest to [m * 10 ^ x], ties to even.  A quotient is taken with
    60 bits or more and a last bit that says whether it is exact. *)
Definition round_decimal (neg : bool) (m x : Z) : spec_float :=
  if (m =? 0)%Z then S754_zero neg
  else
    let sign z := if neg then (- z)%Z else z in
    if (0 <=? x)%Z then binary_normalize 53 1024 (sign (m * 10 ^ x)%Z) 0 neg
    else
      let d := (10 ^ (- x))%Z in
      let s := Z.max 0 (60 + Z.log2 d - Z.log2 m) in
      let q := (m * 2 ^ s / d)%Z in
      let sticky := if (m * 2 ^ s mod d =? 0)%Z then 0%Z else 1%Z in
      binary_normalize 53 1024 (sign (2 * q + sticky)%Z) (- s - 1) neg.

Definition is_infinite (x : spec_float) : bool := match x with S754_infinity _ => true | _ => false end.

(** [None] is an error: no number, or one out of range. *)
Definition ParseFloat {F : GoParseFloat} (s : string) : option spec_float :=
  if Contains s "_" || Contains (string_map lower_byte s) "x" then exotic_float s
  else
    let '(signed, neg, body) :=
      match s with
      | String c s' =>
          if Ascii.eqb c "+" then (true, false, s') else if Ascii.eqb c "-" then (true, true, s')
          else (false, false, s)
      | EmptyString => (false, false, s)
      end in
    let low := string_map lower_byte body in
    if String.eqb low "inf" || String.eqb low "infinity" then Some (S754_infinity neg)
    else if negb signed && String.eqb low "nan" then Some S754_nan
    else
      match parse_decimal body with
      | None => None
      | Some (m, x) =>
          let v := round_decimal neg m x in
          if is_infinite v then None else Some v
      end.

(** ** [url.QueryEscape] *)

Definition upper_hex (z : Z) : ascii := code_byte (if (z <? 10)%Z then 48 + z else 55 + z).

Definition unreserved (c : ascii) : bool :=
  is_digit c || byte_in 65 90 c || byte_in 97 122 c ||
  Ascii.eqb c "-" || Ascii.eqb c "_" || Ascii.eqb c "." || Ascii.eqb c "~".

Definition escape_byte (c : ascii) : string :=
  if unreserved c then String c EmptyString
  else if Ascii.eqb c " " then "+"
  else String "%" (String (upper_hex (byte_code c / 16)) (String (upper_hex (byte_code c mod 16)) EmptyString)).

Fixpoint QueryEscape (s : string) : string :=
  match s with
  | EmptyString => EmptyString
  | String c s' => escape_byte c +:+ QueryEscape s'
  end.

(** [form.Encode()] of the one field. *)
Definition encode_form (query : string) : string := "query=" +:+ QueryEscape query.

(** ** The client *)

Definition userAgent : string := "ssu-catalog - https://github.com/dfds/ssu-catalog".

Record Client := mkClient { cl_baseURL : string; cl_user : string; cl_token : string }.

Definition NewClient (baseURL user token : string) : Client :=
  mkClient (TrimRight baseURL "/") user token.

Record QueryRequest := mkQueryRequest {
  qr_Method : string;
  qr_URL : string;
  qr_Body : string;
  qr_Header : list (string * string);
  qr_BasicAuth : option (string * string);
}.

Record QueryResponse := mkQueryResponse { qs_StatusCode : Z; qs_Body : string }.

(** A decoded JSON value: a string, or anything else. *)
Inductive json_any := JString (s : string) | JOther.

Record promResult := mkPromResult { pm_Metric : smap; pm_Value : json_any * json_any }.

Record promResponse := mkPromResponse {
  pr_Status : string;
  pr_ResultType : string;
  pr_Result : list promResult;
  pr_ErrorType : string;
  pr_Error : string;
}.

Definition query_request (c : Client) (query : string) : QueryRequest :=
  mkQueryRequest "POST" (cl_baseURL c +:+ "/api/v1/query") (encode_form query)
    [("Content-Type", "application/x-www-form-urlencoded"); ("User-Agent", userAgent)]
    (if negb (String.eqb (cl_user c) EmptyString) then Some (cl_user c, cl_token c) else None).

Section query.
Context {F : GoParseFloat}.
(** The error of [http.NewRequestWithContext] for a URL, the exchange, and
    [json.Decode] into a [promResponse]. *)
Variables (newRequest : string → option string) (do : QueryRequest → result QueryResponse)
  (decode : string → result promResponse).

Definition sampleValue (v : json_any * json_any) : option spec_float :=
  match snd v with
  | JString s => ParseFloat s
  | JOther => None
  end.

Definition sample_step (samples : list Sample) (r : promResult) : list Sample :=
  match sampleValue (pm_Value r) with
  | None => samples
  | Some value => samples ++ [mkSample (pm_Metric r) value]
  end.

Definition InstantQuery (c : Client) (query : string) : result (list Sample) :=
  let req := query_request c query in
  match newRequest (qr_URL req) with
  | Some e => Err e
  | None =>
      match do req with
      | Err e => Err e
      | Ok resp =>
          if negb (qs_StatusCode resp =? 200)%Z
          then Err ("mimir query returned HTTP " +:+ Itoa (qs_StatusCode resp))
          else
            match decode (qs_Body resp) with
            | Err e => Err ("decoding mimir response: " +:+ e)
            | Ok pr =>
                if negb (String.eqb (pr_Status pr) "success")
                then Err ("mimir query failed: " +:+ pr_ErrorType pr +:+ ": " +:+ pr_Error pr)
                else Ok (foldl sample_step [] (pr_Result pr))
            end
      end
  end.
End query.

(** ** What a number reads as *)

Definition no_exotic : GoParseFloat := {| exotic_float := λ _, None |}.

Example parse_float_examples :
  (ParseFloat (F := no_exotic) <$> ["0.1"; "1e3"; "-2.5"; "NaN"; "+Inf"; "1e400"; "4.9e-324"; "1."; "."; "1e"; ""; "-"; "12a"]) =
  [Some (S754_finite false 7205759403792794 (-56)); Some (f64_of_Z 1000);
   Some (S754_finite true 5629499534213120 (-51)); Some S754_nan; Some (S754_infinity false); None;
   Some (S754_finite false 1 (-1074)); Some (f64_of_Z 1); None; None; None; None; None].
Proof. vm_compute. reflexivity. Qed.

(** What a server's [url.QueryUnescape] makes of a component. *)
Fixpoint QueryUnescape (s : string) : option string :=
  match s with
  | EmptyString => Some EmptyString
  | String c s' =>
      if Ascii.eqb c "%" then
        match s' with
        | String h (String l s'') =>
            match hex_value h, hex_value l with
            | Some a, Some b => String (code_byte (a * 16 + b)) <$> QueryUnescape s''
            | _, _ => None
            end
        | _ => None
        end
      else if Ascii.eqb c "+" then String " " <$> QueryUnescape s'
      else String c <$> QueryUnescape s'
  end.

Lemma unescape_byte c s : QueryUnescape (escape_byte c +:+ s) = String c <$> QueryUnescape s.
Proof. by destruct c as [[] [] [] [] [] [] [] []]. Qed.

Lemma QueryUnescape_Escape s : QueryUnescape (QueryEscape s) = Some s.
Proof. induction s as [|c s IH]; [done|]. cbn [QueryEscape]. by rewrite unescape_byte, IH. Qed.

(** No byte of an escaped component separates fields. *)
Lemma escape_lacks s : lacks "&" (QueryEscape s) = true ∧ lacks "=" (QueryEscape s) = true.
Proof.
  induction s as [|c s [IH1 IH2]]; [done|]. cbn [QueryEscape]. rewrite !lacks_app, IH1, IH2.
  by destruct c as [[] [] [] [] [] [] [] []].
Qed.

(** A form of one field, as a server reads it: no [&], the name before the first [=]. *)
Definition read_form (body : string) : option (string * string) :=
  if lacks "&" body then
    match Cut body "=" with
    | Some (k, v) => pair k <$> QueryUnescape v
    | None => None
    end
  else None.

Lemma read_encode_form query : read_form (encode_form query) = Some ("query", query).
Proof.
  unfold read_form, encode_form. rewrite lacks_app. destruct (escape_lacks query) as [-> _].
  change ("query=" +:+ QueryEscape query) with ("query" +:+ String "=" (QueryEscape query)).
  rewrite Cut_byte by done. simpl. by rewrite QueryUnescape_Escape.
Qed.

(** ** Integers *)

Lemma span_digits_all s : string_all is_digit s = true → span_digits s = (s, EmptyString).
Proof.
  induction s as [|c s IH]; [done|]. simpl. rewrite andb_true_iff. intros [-> Hs]. by rewrite IH.
Qed.

Lemma digits_lower s : string_all is_digit s = true → string_map lower_byte s = s.
Proof.
  induction s as [|c s IH]; [done|]. simpl. rewrite andb_true_iff. intros [Hc Hs]. rewrite IH by done. f_equal.
  unfold lower_byte. unfold is_digit, byte_in in *. rewrite andb_true_iff, !Z.leb_le in Hc.
  by destruct (Z.leb_spec 65 (byte_code c)); [lia|].
Qed.

(** A printed natural number reads as the nearest binary64. *)
Lemma ParseFloat_Itoa {F : GoParseFloat} z :
  (0 ≤ z)%Z → ParseFloat (Itoa z) = if is_infinite (f64_of_Z z) then None else Some (f64_of_Z z).
Proof.
  intros Hz. destruct (Itoa_digits z Hz) as [Hd Hne].
  assert (parse_digits 0 (Itoa z) = Some z) as Hp.
  { unfold Itoa. destruct (Z.ltb_spec z 0); [lia|]. by apply parse_itoa. }
  assert (round_decimal false z 0 = f64_of_Z z) as Hr.
  { unfold round_decimal. destruct (Z.eqb_spec z 0) as [->|]; [done|]. simpl. by rewrite Z.mul_1_r. }
  revert Hd Hne Hp. generalize (Itoa z). intros s Hd Hne Hp. unfold ParseFloat.
  rewrite (digits_lower s) by done.
  assert (∀ c, is_digit c = false → Contains s (String c EmptyString) = false) as Hc.
  { intros c Hc. clear Hne Hp. induction s as [|d s IH]; [done|]. cbn [string_all] in Hd.
    apply andb_true_iff in Hd as [Hd Hs].
    change (HasPrefix (String d s) (String c EmptyString) || Contains s (String c EmptyString) = false).
    rewrite (IH Hs), orb_false_r. change (Ascii.eqb c d && true = false).
    by destruct (Ascii.eqb_spec c d) as [->|]; [congruence|]. }
  rewrite !Hc by done. simpl. destruct s as [|c s]; [done|].
  assert (Ascii.eqb c "+" = false ∧ Ascii.eqb c "-" = false) as [-> ->].
  { cbn [string_all] in Hd. apply andb_true_iff in Hd as [Hd _].
    split; match goal with |- Ascii.eqb ?a ?b = _ => by destruct (Ascii.eqb_spec a b) as [->|] end. }
  rewrite (digits_lower (String c s)) by done.
  assert (∀ w, string_all is_digit w = false → String.eqb (String c s) w = false) as Hw.
  { intros w Hw. destruct (String.eqb_spec (String c s) w) as [E|]; [|done]. rewrite E in Hd. congruence. }
  rewrite !Hw by done. cbn [orb negb andb].
  assert (parse_decimal (String c s) = Some (z, 0%Z)) as ->; [|by rewrite Hr].
  unfold parse_decimal. rewrite span_digits_all by done. cbv beta iota. rewrite str_app_nil_r.
  rewrite (proj2 (String.eqb_neq _ _) Hne), Hp. done.
Qed.

(** ** Theorems *)

(** What the samples of an answer are: the results whose second value is a string
    that reads as a number, in order. *)
Definition read_sample {F : GoParseFloat} (r : promResult) : option Sample :=
  mkSample (pm_Metric r) <$> sampleValue (pm_Value r).

Ltac refute := split; [done|intros (? & ? & ? & ? & ? & ? & ? & ?); simplify_eq; congruence].

(** C40: an instant query.  The request is a POST to the query endpoint under the
    base URL whatever its trailing slashes, declared as a form that holds exactly the
    query, and it carries the configured credentials exactly when a user is
    configured.  The query succeeds
    exactly when the request is built, answered with status 200, decoded and
    successful, and then gives the readable samples in order; a result that does
    not read as a number is left out, and loses no other. *)
Theorem InstantQuery_spec (F : GoParseFloat) (newRequest : string → option string)
    (do : QueryRequest → result QueryResponse) (decode : string → result promResponse)
    (baseURL user token query : string) :
  let c := NewClient baseURL user token in
  let req := query_request c query in
  (∃ base slashes, baseURL = base +:+ slashes ∧ string_all (λ b, Ascii.eqb b "/") slashes = true ∧
     (∀ r, base ≠ r +:+ "/") ∧ qr_URL req = base +:+ "/api/v1/query") ∧
  qr_Method req = "POST" ∧
  ("Content-Type", "application/x-www-form-urlencoded") ∈ qr_Header req ∧
  read_form (qr_Body req) = Some ("query", query) ∧
  (∀ auth, qr_BasicAuth req = Some auth ↔ user ≠ EmptyString ∧ auth = (user, token)) ∧
  (∀ samples, InstantQuery newRequest do decode c query = Ok samples ↔
     ∃ resp pr, newRequest (qr_URL req) = None ∧ do req = Ok resp ∧ qs_StatusCode resp = 200%Z ∧
       decode (qs_Body resp) = Ok pr ∧ pr_Status pr = "success" ∧ samples = omap read_sample (pr_Result pr)).
Proof.
  cbn zeta. split_and!.
  - destruct (TrimRight_spec baseURL "/") as (p & H1 & H2 & H3).
    by exists (TrimRight baseURL "/"), p.
  - done.
  - left.
  - apply read_encode_form.
  - intros auth. unfold query_request. simpl. destruct (String.eqb_spec user EmptyString); simpl; naive_solver.
  - intros samples. unfold InstantQuery.
    assert (∀ l, foldl sample_step [] l = omap read_sample l) as Hf.
    { intros l. rewrite (foldl_collect sample_step read_sample []); [done|].
      intros acc r. unfold sample_step, read_sample. destruct (sampleValue _); simpl; [done|]. by rewrite app_nil_r. }
    destruct (newRequest _); [refute|]. destruct (do _) as [resp|]; [|refute].
    destruct (Z.eqb_spec (qs_StatusCode resp) 200) as [Hc|]; simpl; [|refute].
    destruct (decode (qs_Body resp)) as [pr|] eqn:Ed; [|refute].
    destruct (String.eqb_spec (pr_Status pr) "success"); simpl; [|refute]. rewrite Hf. split.
    + intros [= <-]. by exists resp, pr.
    + intros (? & ? & ? & ? & ? & ? & ? & ->). simplify_eq. congruence.
Qed.
