(* ===== verification/Overlay.v ===== *)
(** * The telemetry overlay ([internal/telemetry/servicegraph.go])

    [Apply] issues six queries and folds their samples into an explicit state:
    the applications (an application pointer is an index into them), the edge
    set, the index of HTTP peers, the two DNS caches and the error counter.  The
    query client and the DNS lookups are parameters that change over time: a query
    is answered by its round (one [Apply] is one round), a lookup by the number of
    answers its cache already holds, which grows with each lookup. *)

From S2P Require Export TelemetryModel.
From Stdlib Require Import Ascii.

Definition originServiceGraph : string := "otel-servicegraph".
Definition originMetrics : string := "otel-metrics".

Definition serviceGraphMetric : string := "traces_service_graph_request_total".
Definition httpClientMetric : string := "http_client_request_body_size_bytes_count".
Definition messagingProcessMetric : string := "messaging_process_duration_seconds_count".
Definition targetInfoMetric : string := "target_info".
Definition httpServerMetric : string := "http_server_request_duration_seconds_count".

(** The Overlayer's parameters; its caches are part of the state below.
    [o_client n] answers the queries of the [n]-th round; [o_lookupAddr n] and
    [o_lookupHost n] are the [n]-th lookup of their kind, and give the names Go's
    functions return, none on an error. *)
Record Overlayer := mkOverlayer {
  o_client : nat → string → result (list Sample);
  o_cluster : string;
  o_lookback : Z;
  o_lookupAddr : nat → string → list string;
  o_lookupHost : nat → string → list string;
}.

Definition hour : Z := 3600 * 10 ^ 9.

Definition NewOverlayer (client : nat → string → result (list Sample)) (cluster : string)
    (lookback : Z) (lookupAddr lookupHost : nat → string → list string) : Overlayer :=
  let lookback := if (lookback <=? 0)%Z then hour else lookback in
  mkOverlayer client cluster lookback lookupAddr lookupHost.

(** ** Edges *)

Record edgeSet := mkEdgeSet { es_seen : gset string; es_list : list DependencyEdge }.

Definition newEdgeSet : edgeSet := mkEdgeSet ∅ [].

Definition boolStr (b : bool) : string := if b then "ext" else "int".

Definition edge_key (edge : DependencyEdge) : string :=
  let s := edge_Source edge in
  let t := edge_Target edge in
  node_Namespace s +:+ "/" +:+ node_Service s +:+ "/" +:+ boolStr (node_External s) +:+ "|" +:+
  node_Namespace t +:+ "/" +:+ node_Service t +:+ "/" +:+ boolStr (node_External t) +:+ "|" +:+
  edge_Type edge +:+ "|" +:+ edge_Origin edge.

Definition edge_add (e : edgeSet) (edge : DependencyEdge) : edgeSet :=
  if bool_decide (edge_key edge ∈ es_seen e) then e
  else mkEdgeSet (es_seen e ∪ {[edge_key edge]}) (es_list e ++ [edge]).

(** ** HTTP peers *)

Abbreviation clientPeers := (gmap string (gset string)).

Definition peers_add (c : clientPeers) (appKey host : string) : clientPeers :=
  if String.eqb host EmptyString then c
  else <[appKey := default ∅ (c !! appKey) ∪ {[host]}]> c.

Definition peers_has (c : clientPeers) (appKey host : string) : bool :=
  if String.eqb host EmptyString then false
  else bool_decide (host ∈ default ∅ (c !! appKey)).

(** ** Attachment *)

Definition attachDatabaseNamed (app : ApplicationEntry) (system name source : string)
    : ApplicationEntry :=
  if String.eqb system EmptyString && String.eqb name EmptyString then app
  else app_set_Databases app
    (append_unless (λ db, String.eqb (db_System db) system && String.eqb (db_Name db) name)
       (app_Databases app) (mkDatabaseRef system name source)).

Definition attachDatabase (app : ApplicationEntry) (system source : string) : ApplicationEntry :=
  attachDatabaseNamed app system EmptyString source.

Definition attachKafka (app : ApplicationEntry) (name direction source : string) : ApplicationEntry :=
  if String.eqb name EmptyString then app
  else app_set_KafkaTopics app
    (append_unless (λ t, String.eqb (kafka_Name t) name && String.eqb (kafka_Direction t) direction)
       (app_KafkaTopics app) (mkKafkaTopicRef name direction source)).

(** ** State *)

Record ostate := mkOstate {
  os_apps : list ApplicationEntry;
  os_edges : edgeSet;
  os_peers : clientPeers;
  os_ptrCache : option (gmap string string);
  os_hostCache : option (gmap string (list string));
  os_queryErrors : option Z;
}.

Definition set_apps (st : ostate) apps :=
  mkOstate apps (os_edges st) (os_peers st) (os_ptrCache st) (os_hostCache st) (os_queryErrors st).
Definition set_edges (st : ostate) edges :=
  mkOstate (os_apps st) edges (os_peers st) (os_ptrCache st) (os_hostCache st) (os_queryErrors st).
Definition set_peers (st : ostate) peers :=
  mkOstate (os_apps st) (os_edges st) peers (os_ptrCache st) (os_hostCache st) (os_queryErrors st).
Definition set_ptrCache (st : ostate) c :=
  mkOstate (os_apps st) (os_edges st) (os_peers st) c (os_hostCache st) (os_queryErrors st).
Definition set_hostCache (st : ostate) c :=
  mkOstate (os_apps st) (os_edges st) (os_peers st) (os_ptrCache st) c (os_queryErrors st).
Definition set_errors (st : ostate) n :=
  mkOstate (os_apps st) (os_edges st) (os_peers st) (os_ptrCache st) (os_hostCache st) n.

Definition add_edge (st : ostate) (edge : DependencyEdge) : ostate :=
  set_edges st (edge_add (os_edges st) edge).

(** A write through [appByKey[key]], when the key is there. *)
Definition on_app (appByKey : gmap string nat) (key : string)
    (f : ApplicationEntry → ApplicationEntry) (st : ostate) : ostate :=
  match appByKey !! key with
  | None => st
  | Some i => set_apps st (alter f i (os_apps st))
  end.

Definition indexApps (apps : list ApplicationEntry) : gmap string nat :=
  foldl (λ idx '(i, app), <[app_Namespace app +:+ "/" +:+ app_Name app := i]> idx) ∅ (imap pair apps).

Definition node_key (n : DependencyNode) : string := node_Namespace n +:+ "/" +:+ node_Service n.

Definition queryFailed (st : ostate) : ostate :=
  set_errors st (match os_queryErrors st with None => None | Some n => Some (n + 1)%Z end).

(** ** DNS *)

Definition first_name (names : list string) : string :=
  firstNonEmpty ((λ n, TrimSuffix (TrimSpace n) ".") <$> names).

Definition reverseLookup (o : Overlayer) (st : ostate) (ip : string) : string * ostate :=
  let fresh cache :=
    let name := first_name (o_lookupAddr o (size cache) ip) in
    (name, set_ptrCache st (Some (<[ip := name]> cache))) in
  match os_ptrCache st with
  | None => fresh ∅
  | Some cache =>
      match cache !! ip with
      | Some name => (name, st)
      | None => fresh cache
      end
  end.

Definition host_ips (addrs : list string) : list string :=
  omap (λ a, let ip := TrimSpace a in if nonempty ip && isBareIP ip then Some ip else None) addrs.

Definition forwardLookup (o : Overlayer) (st : ostate) (host : string) : list string * ostate :=
  let fresh cache :=
    let ips := host_ips (o_lookupHost o (size cache) host) in
    (ips, set_hostCache st (Some (<[host := ips]> cache))) in
  match os_hostCache st with
  | None => fresh ∅
  | Some cache =>
      match cache !! host with
      | Some ips => (ips, st)
      | None => fresh cache
      end
  end.

Definition externalHost (o : Overlayer) (st : ostate) (host : string) : string * bool * ostate :=
  if String.eqb host EmptyString || negb (isBareIP host) then (host, nonempty host, st)
  else if isPrivateIP host then (EmptyString, false, st)
  else
    let '(name, st) := reverseLookup o st host in
    if nonempty name then (name, true, st) else (host, true, st).

(** ** Queries *)

Section queries.
Context {GU : GoUnicode} (o : Overlayer).

(** [o.lookback.Minutes()] is a float64 sum; [int] truncates it. *)
Definition minutes (d : Z) : spec_float :=
  f64_add (f64_of_Z (Z.quot d (60 * 10 ^ 9)))
    (f64_div (f64_of_Z (Z.rem d (60 * 10 ^ 9))) (f64_of_Z (60 * 10 ^ 9))).

Definition window : string :=
  let minutes := f64_trunc (minutes (o_lookback o)) in
  let minutes := if (minutes <? 1)%Z then 1%Z else minutes in
  Itoa minutes +:+ "m".

Definition clusterMatcher : string :=
  if String.eqb (o_cluster o) EmptyString then EmptyString
  else "{cluster=" +:+ Quote (o_cluster o) +:+ "}".

Definition serviceGraphQuery : string :=
  "count by (client, server, client_k8s_namespace_name, server_k8s_namespace_name) (count_over_time("
  +:+ serviceGraphMetric +:+ clusterMatcher +:+ "[" +:+ window +:+ "]))".

Definition workloadLabels : string :=
  "k8s_namespace_name, k8s_deployment_name, k8s_statefulset_name, service_name, service, ".

Definition httpClientQuery : string :=
  "count by (" +:+ workloadLabels +:+ "server_address, server_port) (rate(" +:+ httpClientMetric +:+
  clusterMatcher +:+ "[" +:+ window +:+ "]))".

Definition databaseQuery : string :=
  "count by (" +:+ workloadLabels +:+
  "db_system_name, db_system, db_name, server_address, server_port) (rate(db_client_operation_duration_seconds_count"
  +:+ clusterMatcher +:+ "[" +:+ window +:+ "]))".

Definition messagingSelector : string :=
  if String.eqb (o_cluster o) EmptyString
  then "{messaging_system=" +:+ Quote "kafka" +:+ "}"
  else "{messaging_system=" +:+ Quote "kafka" +:+ ",cluster=" +:+ Quote (o_cluster o) +:+ "}".

Definition messagingQuery : string :=
  "count by (" +:+ workloadLabels +:+ "messaging_destination_name) (rate(" +:+
  messagingProcessMetric +:+ messagingSelector +:+ "[" +:+ window +:+ "]))".

Definition runtimeQuery : string :=
  "count by (" +:+ workloadLabels +:+ "telemetry_sdk_language) (count_over_time(" +:+
  targetInfoMetric +:+ clusterMatcher +:+ "[" +:+ window +:+ "]))".

Definition trafficQuery : string :=
  "sum by (" +:+ workloadLabels +:+ "http_response_status_code) (rate(" +:+ httpServerMetric +:+
  clusterMatcher +:+ "[" +:+ window +:+ "]))".
End queries.

(** ** The passes *)

Definition arrow : string := bytes [32; 226; 134; 146; 32]%Z.

Definition edge_type_of (kind : string) : string :=
  if String.eqb kind kindExternal then kindService else kind.

Section passes.
Context {GU : GoUnicode} (o : Overlayer) (round : nat) (res : resolver) (appByKey : gmap string nat).

(** *** Service graph *)

Definition service_graph_step (st : ostate) (s : Sample) : ostate :=
  let client := (sm_Metric s)⟦"client"⟧ in
  let server := (sm_Metric s)⟦"server"⟧ in
  if String.eqb client EmptyString || String.eqb server EmptyString then st
  else if beylaEgressBucket client || beylaEgressBucket server then st
  else
    let src := resolveEndpointNode res client ((sm_Metric s)⟦"client_k8s_namespace_name"⟧) in
    let '(dst, kind) := resolveEndpoint res server ((sm_Metric s)⟦"server_k8s_namespace_name"⟧) in
    let st := add_edge st (mkDependencyEdge src dst (edge_type_of kind) originServiceGraph
                             (client +:+ arrow +:+ server)) in
    if node_External src then st
    else if String.eqb kind kindDatabase then
      on_app appByKey (node_key src) (λ app, attachDatabase app (node_Service dst) originServiceGraph) st
    else if String.eqb kind kindKafka then
      on_app appByKey (node_key src)
        (λ app, attachKafka app (node_Service dst) EmptyString originServiceGraph) st
    else st.

Definition applyServiceGraph (st : ostate) : ostate :=
  match o_client o round (serviceGraphQuery o) with
  | Err _ => queryFailed st
  | Ok samples => foldl service_graph_step st samples
  end.

(** *** HTTP clients *)

(** The hosts a sample shows its workload talking to over HTTP. *)
Definition record_peer (st : ostate) (appKey peerHost : string) : ostate :=
  let st := set_peers st (peers_add (os_peers st) appKey peerHost) in
  if negb (isBareIP peerHost) then
    let '(ips, st) := forwardLookup o st peerHost in
    set_peers st (foldl (λ peers ip, peers_add peers appKey ip) (os_peers st) ips)
  else st.

Definition http_client_step (st : ostate) (s : Sample) : ostate :=
  let m := sm_Metric s in
  let addr := m⟦"server_address"⟧ in
  if String.eqb addr EmptyString then st
  else
    let src := resolveClient res m in
    if node_External src then st
    else
      let '(host, keep, st) := externalHost o st (stripPort addr) in
      let st := record_peer st (node_key src) (firstNonEmpty [host; stripPort addr]) in
      if negb keep then st
      else
        let '(dst, kind) := resolve res (joinHostPort host (peerPort m addr)) in
        if negb (node_External dst) then st
        else
          let st := add_edge st (mkDependencyEdge src dst (edge_type_of kind) originMetrics
                                   (node_Service src +:+ arrow +:+ host)) in
          if String.eqb kind kindDatabase then
            let engine := default EmptyString (wellKnownPorts !! peerPort m addr) in
            let engine := if String.eqb engine EmptyString then node_Service dst else engine in
            on_app appByKey (node_key src)
              (λ app, attachDatabaseNamed app engine host originMetrics) st
          else if String.eqb kind kindKafka then
            on_app appByKey (node_key src)
              (λ app, attachKafka app (node_Service dst) EmptyString originMetrics) st
          else st.

Definition applyHTTPClient (st : ostate) : ostate :=
  match o_client o round (httpClientQuery o) with
  | Err _ => queryFailed st
  | Ok samples => foldl http_client_step st samples
  end.

(** *** Databases *)

Definition engineConflictKey (src : DependencyNode) (rawHost : string) : string :=
  node_Namespace src +:+ "/" +:+ node_Service src +:+ String "000" rawHost.

Definition sample_system (s : Sample) : string :=
  firstNonEmpty [(sm_Metric s)⟦"db_system_name"⟧; (sm_Metric s)⟦"db_system"⟧].

Definition sample_key (s : Sample) : string :=
  engineConflictKey (resolveClient res (sm_Metric s)) (stripPort ((sm_Metric s)⟦"server_address"⟧)).

Definition engine_total_step (totals : gmap string (gmap string spec_float)) (s : Sample)
    : gmap string (gmap string spec_float) :=
  let system := sample_system s in
  if String.eqb system EmptyString then totals
  else
    let key := sample_key s in
    let byEngine := default ∅ (totals !! key) in
    <[key := <[system := f64_add (default f64_zero (byEngine !! system)) (sm_Value s)]> byEngine]> totals.

Definition engine_totals (samples : list Sample) : gmap string (gmap string spec_float) :=
  foldl engine_total_step ∅ samples.

Definition engine_max {rt : GoRuntime} (byEngine : gmap string spec_float) : spec_float :=
  foldl (λ max '(_, v), if f64_gt v max then v else max) f64_zero (map_range byEngine).

(** The engines to keep of one peer; a Go set is a [map[string]bool]. *)
Definition engine_keep {rt : GoRuntime} (byEngine : gmap string spec_float) : gset string :=
  let max := engine_max byEngine in
  foldl (λ keep '(eng, v), if f64_ge v max then keep ∪ {[eng]} else keep) ∅ (map_range byEngine).

Definition engineWinners {rt : GoRuntime} (samples : list Sample) : gmap string (gset string) :=
  foldl (λ winners '(key, byEngine),
    if Nat.ltb (size byEngine) 2 then winners
    else <[key := engine_keep byEngine]> winners) ∅ (map_range (engine_totals samples)).

(** Whether a sample's engine lost a conflict on its peer. *)
Definition engine_lost (winners : gmap string (gset string)) (s : Sample) : bool :=
  let system := sample_system s in
  nonempty system &&
  match winners !! sample_key s with
  | Some keep => negb (bool_decide (system ∈ keep))
  | None => false
  end.

Definition database_step (winners : gmap string (gset string)) (st : ostate) (s : Sample) : ostate :=
  let m := sm_Metric s in
  let system := sample_system s in
  let dbName := m⟦"db_name"⟧ in
  let rawHost := stripPort (m⟦"server_address"⟧) in
  if engine_lost winners s then st
  else if isOTLPCollectorPeer rawHost then st
  else
    let port := peerPort m (m⟦"server_address"⟧) in
    let system :=
      if String.eqb system EmptyString then
        match wellKnownPorts !! port with
        | Some sys => if bool_decide (sys ∈ databaseSystems) then sys else system
        | None => system
        end
      else system in
    let '(resolved, keep, st) := externalHost o st rawHost in
    if negb keep && String.eqb dbName EmptyString && String.eqb system EmptyString then st
    else
      let host := if keep then resolved else rawHost in
      let src := resolveClient res m in
      if negb (node_External src) &&
         (peers_has (os_peers st) (node_key src) rawHost || peers_has (os_peers st) (node_key src) host)
      then st
      else
        let name := firstNonEmpty [dbName; host] in
        let target := firstNonEmpty [host; system] in
        if String.eqb target EmptyString then st
        else
          let st := add_edge st (mkDependencyEdge src (externalNode target) kindDatabase
                                   originMetrics dbName) in
          if node_External src then st
          else on_app appByKey (node_key src)
                 (λ app, attachDatabaseNamed app system name originMetrics) st.

Definition applyDatabaseMetrics {rt : GoRuntime} (st : ostate) : ostate :=
  match o_client o round (databaseQuery o) with
  | Err _ => queryFailed st
  | Ok samples => foldl (database_step (engineWinners samples)) st samples
  end.

(** *** Messaging *)

Definition messaging_step (st : ostate) (s : Sample) : ostate :=
  let dest := (sm_Metric s)⟦"messaging_destination_name"⟧ in
  if String.eqb dest EmptyString then st
  else
    let src := resolveClient res (sm_Metric s) in
    let st := add_edge st (mkDependencyEdge src (externalNode dest) kindKafka originMetrics "consume") in
    if node_External src then st
    else on_app appByKey (node_key src) (λ app, attachKafka app dest "consume" originMetrics) st.

Definition applyMessagingMetrics (st : ostate) : ostate :=
  match o_client o round (messagingQuery o) with
  | Err _ => queryFailed st
  | Ok samples => foldl messaging_step st samples
  end.

(** *** Runtime *)

Definition set_first_runtime (lang : string) (app : ApplicationEntry) : ApplicationEntry :=
  if String.eqb (app_Runtime app) EmptyString then app_set_Runtime app lang else app.

Definition runtime_step (st : ostate) (s : Sample) : ostate :=
  let lang := (sm_Metric s)⟦"telemetry_sdk_language"⟧ in
  if String.eqb lang EmptyString || String.eqb lang "generic" then st
  else
    let src := resolveClient res (sm_Metric s) in
    if node_External src then st
    else on_app appByKey (node_key src) (set_first_runtime lang) st.

Definition applyRuntimeMetrics (st : ostate) : ostate :=
  match o_client o round (runtimeQuery o) with
  | Err _ => queryFailed st
  | Ok samples => foldl runtime_step st samples
  end.

(** *** Traffic *)

(** The accumulator of one application: total and error rate. *)
Definition traffic_add (byApp : gmap nat (spec_float * spec_float)) (s : Sample)
    : gmap nat (spec_float * spec_float) :=
  let src := resolveClient res (sm_Metric s) in
  if node_External src then byApp
  else
    match appByKey !! node_key src with
    | None => byApp
    | Some i =>
        let '(total, errors) := default (f64_zero, f64_zero) (byApp !! i) in
        let total := f64_add total (sm_Value s) in
        let errors :=
          if HasPrefix ((sm_Metric s)⟦"http_response_status_code"⟧) "5"
          then f64_add errors (sm_Value s) else errors in
        <[i := (total, errors)]> byApp
    end.

Definition traffic_set (apps : list ApplicationEntry) (e : nat * (spec_float * spec_float))
    : list ApplicationEntry :=
  let '(i, (total, errors)) := e in
  if f64_le total f64_zero then apps
  else alter (λ app, app_set_rates app total (f64_div errors total)) i apps.

Definition applyTrafficMetrics {rt : GoRuntime} (st : ostate) : ostate :=
  match o_client o round (trafficQuery o) with
  | Err _ => queryFailed st
  | Ok samples =>
      set_apps st (foldl traffic_set (os_apps st) (map_range (foldl traffic_add ∅ samples)))
  end.
End passes.

(** ** Apply *)

(** What an Overlayer keeps between calls. *)
Record ocaches := mkOcaches {
  oc_ptr : option (gmap string string);
  oc_host : option (gmap string (list string));
  oc_errors : option Z;
}.

Definition overlay_start (c : ocaches) (apps : list ApplicationEntry) : ostate :=
  mkOstate apps newEdgeSet ∅ (oc_ptr c) (oc_host c) (oc_errors c).

Definition overlay_run {GU : GoUnicode} {rt : GoRuntime} (o : Overlayer) (round : nat) (c : ocaches)
    (apps : list ApplicationEntry) : ostate :=
  let res := newResolver (o_cluster o) apps in
  let appByKey := indexApps apps in
  let st := overlay_start c apps in
  let st := applyServiceGraph o round res appByKey st in
  let st := applyHTTPClient o round res appByKey st in
  let st := applyDatabaseMetrics o round res appByKey st in
  let st := applyMessagingMetrics o round res appByKey st in
  let st := applyRuntimeMetrics o round res appByKey st in
  applyTrafficMetrics o round res appByKey st.

(** The edges, the mutated applications and what the Overlayer keeps, of one round. *)
Definition Apply {GU : GoUnicode} {rt : GoRuntime} (o : Overlayer) (round : nat) (c : ocaches)
    (apps : list ApplicationEntry) : list DependencyEdge * list ApplicationEntry * ocaches :=
  let st := overlay_run o round c apps in
  (es_list (os_edges st), os_apps st,
   mkOcaches (os_ptrCache st) (os_hostCache st) (os_queryErrors st)).

(** ** Elementary steps

    Every pass is a sequence of elementary writes: an edge, a database, topic,
    runtime or rate of one application, and the bookkeeping the catalog does not
    see.  What every elementary write preserves, [Apply] preserves. *)

Inductive overlay_step (edge_ok : DependencyEdge → Prop) : ostate → ostate → Prop :=
  | ov_edge st e : edge_ok e → overlay_step edge_ok st (add_edge st e)
  | ov_database st i system name source :
      source ∈ [originServiceGraph; originMetrics] →
      overlay_step edge_ok st
        (set_apps st (alter (λ app, attachDatabaseNamed app system name source) i (os_apps st)))
  | ov_kafka st i name direction source :
      direction ∈ [EmptyString; "consume"] → source ∈ [originServiceGraph; originMetrics] →
      overlay_step edge_ok st
        (set_apps st (alter (λ app, attachKafka app name direction source) i (os_apps st)))
  | ov_runtime st i lang :
      overlay_step edge_ok st (set_apps st (alter (set_first_runtime lang) i (os_apps st)))
  | ov_rates st i total errors :
      overlay_step edge_ok st
        (set_apps st (alter (λ app, app_set_rates app total (f64_div errors total)) i (os_apps st)))
  | ov_internal st st' :
      os_apps st' = os_apps st → os_edges st' = os_edges st → overlay_step edge_ok st st'.

Abbreviation overlay_steps ok := (rtc (overlay_step ok)).

(** A node telemetry may give for a list of applications. *)
Definition node_ok (cluster : string) (apps : list ApplicationEntry) (n : DependencyNode) : Prop :=
  if node_External n then node_Cluster n = EmptyString ∧ node_Namespace n = EmptyString
  else node_Cluster n = cluster ∧
       ∃ app, app ∈ apps ∧ app_Namespace app = node_Namespace n ∧ app_Name app = node_Service n.

Definition overlay_edge_ok (cluster : string) (apps : list ApplicationEntry) (e : DependencyEdge) : Prop :=
  node_ok cluster apps (edge_Source e) ∧ node_ok cluster apps (edge_Target e) ∧
  edge_Type e ∈ [kindService; kindDatabase; kindKafka] ∧
  edge_Origin e ∈ [originServiceGraph; originMetrics].

(** What holds of the nodes and edges whatever the names. *)
Definition node_typed (cluster : string) (n : DependencyNode) : Prop :=
  if node_External n then node_Cluster n = EmptyString ∧ node_Namespace n = EmptyString
  else node_Cluster n = cluster.

Definition overlay_edge_typed (cluster : string) (e : DependencyEdge) : Prop :=
  node_typed cluster (edge_Source e) ∧ node_typed cluster (edge_Target e) ∧
  edge_Type e ∈ [kindService; kindDatabase; kindKafka] ∧
  edge_Origin e ∈ [originServiceGraph; originMetrics].

Lemma classified_node cluster nk : classified cluster nk → node_typed cluster nk.1.
Proof. unfold node_typed. intros [(-> & ? & ? & _)|(_ & -> & ?)]; done. Qed.

Lemma classified_type cluster nk :
  classified cluster nk → edge_type_of nk.2 ∈ [kindService; kindDatabase; kindKafka].
Proof.
  unfold edge_type_of. intros [(_ & _ & _ & Hk)|(-> & _)]; [|by left].
  rewrite !elem_of_cons, elem_of_nil in Hk. rewrite !elem_of_cons.
  destruct Hk as [E|[E|[E|[]]]]; rewrite E; simpl; auto.
Qed.

Lemma resolved_node_ok cluster apps nk : resolved cluster apps nk → node_ok cluster apps nk.1.
Proof. unfold node_ok. intros [(-> & ? & ? & _)|(_ & -> & ? & ?)]; done. Qed.

Lemma externalNode_ok cluster apps s : node_ok cluster apps (externalNode s).
Proof. done. Qed.

Section steps.
Context {GU : GoUnicode} (o : Overlayer) (round : nat) (apps : list ApplicationEntry) (appByKey : gmap string nat).

Let cluster := o_cluster o.
Let res := newResolver cluster apps.
(** What is known of the edges when no name has a separator. *)
Abbreviation named := (Forall named_app apps).
Abbreviation edge_written e := (overlay_edge_typed cluster e ∧ (named → overlay_edge_ok cluster apps e)).
Abbreviation steps := (overlay_steps (λ e, edge_written e)).

Lemma steps_internal st st' :
  os_apps st' = os_apps st → os_edges st' = os_edges st → steps st st'.
Proof. intros. apply rtc_once. by apply ov_internal. Qed.

Lemma steps_on_app key f st :
  (∀ st i, steps st (set_apps st (alter f i (os_apps st)))) → steps st (on_app appByKey key f st).
Proof. intros H. unfold on_app. destruct (appByKey !! key); [apply H|done]. Qed.

Lemma steps_fold {A} (f : ostate → A → ostate) l st :
  (∀ st x, steps st (f st x)) → steps st (foldl f st l).
Proof.
  intros H. revert st. induction l as [|x l IH]; intros st; [done|]. simpl.
  etransitivity; [apply H|apply IH].
Qed.

Lemma steps_database key system name source st :
  source ∈ [originServiceGraph; originMetrics] →
  steps st (on_app appByKey key (λ app, attachDatabaseNamed app system name source) st).
Proof. intros. apply steps_on_app. intros. by apply rtc_once, ov_database. Qed.

Lemma steps_kafka key name direction source st :
  direction ∈ [EmptyString; "consume"] → source ∈ [originServiceGraph; originMetrics] →
  steps st (on_app appByKey key (λ app, attachKafka app name direction source) st).
Proof. intros. apply steps_on_app. intros. by apply rtc_once, ov_kafka. Qed.

Lemma externalHost_frame st host :
  let '(_, _, st') := externalHost o st host in
  os_apps st' = os_apps st ∧ os_edges st' = os_edges st ∧ os_peers st' = os_peers st.
Proof.
  unfold externalHost, reverseLookup. repeat case_match; simplify_eq/=; done.
Qed.

Lemma record_peer_frame st key host :
  os_apps (record_peer o st key host) = os_apps st ∧ os_edges (record_peer o st key host) = os_edges st.
Proof. unfold record_peer, forwardLookup. repeat case_match; simplify_eq/=; done. Qed.

Lemma resolveClient_typed m : node_typed cluster (resolveClient res m).
Proof. destruct (resolveClient_classified res m) as [k H]. by apply classified_node in H. Qed.

Lemma resolveClient_ok m : named → node_ok cluster apps (resolveClient res m).
Proof.
  intros Hn. destruct (resolveClient_resolved cluster apps m Hn) as [k H]. by apply resolved_node_ok in H.
Qed.

Lemma steps_edge_then st e st' :
  edge_written e → steps (add_edge st e) st' → steps st st'.
Proof. intros He. etransitivity; [apply rtc_once, ov_edge, He|done]. Qed.

(** An edge between nodes that are typed, and right when the names are. *)
Lemma edge_written_intro src dst type origin details :
  node_typed cluster src → node_typed cluster dst →
  (named → node_ok cluster apps src) → (named → node_ok cluster apps dst) →
  type ∈ [kindService; kindDatabase; kindKafka] → origin ∈ [originServiceGraph; originMetrics] →
  edge_written (mkDependencyEdge src dst type origin details).
Proof. intros. split; [by split_and!|]. intros Hn. split_and!; auto. Qed.

Ltac lead_edge :=
  match goal with |- context [add_edge ?s ?e] => apply (steps_edge_then s e); [apply edge_written_intro|] end.

Lemma origin_ok : originServiceGraph ∈ [originServiceGraph; originMetrics] ∧
  originMetrics ∈ [originServiceGraph; originMetrics].
Proof. split; [left|right; left]. Qed.

Lemma service_graph_steps st s : steps st (service_graph_step res appByKey st s).
Proof.
  unfold service_graph_step. destruct (_ || _); [done|]. destruct (_ || _); [done|].
  pose proof (resolveEndpoint_resolved cluster apps (mget (sm_Metric s) "client")
    (mget (sm_Metric s) "client_k8s_namespace_name")) as Hsrc.
  pose proof (resolveEndpoint_resolved cluster apps (mget (sm_Metric s) "server")
    (mget (sm_Metric s) "server_k8s_namespace_name")) as Hdst.
  pose proof (resolveEndpoint_classified res (mget (sm_Metric s) "client")
    (mget (sm_Metric s) "client_k8s_namespace_name")) as Csrc.
  pose proof (resolveEndpoint_classified res (mget (sm_Metric s) "server")
    (mget (sm_Metric s) "server_k8s_namespace_name")) as Cdst.
  unfold resolveEndpointNode. fold res in Hsrc, Hdst.
  destruct (resolveEndpoint res (mget (sm_Metric s) "server") _) as [dst kind].
  lead_edge.
  - by apply classified_node in Csrc.
  - by apply classified_node in Cdst.
  - intros Hn. by apply resolved_node_ok, Hsrc.
  - intros Hn. by apply (resolved_node_ok _ _ (dst, kind)), Hdst.
  - by apply (classified_type cluster (dst, kind)).
  - apply origin_ok.
  - destruct (node_External _); [done|]. destruct (String.eqb kind kindDatabase); [apply steps_database, origin_ok|].
    destruct (String.eqb kind kindKafka); [apply steps_kafka; [left|apply origin_ok]|done].
Qed.

Lemma http_client_steps st s : steps st (http_client_step o res appByKey st s).
Proof.
  unfold http_client_step. destruct (String.eqb _ _); [done|].
  pose proof (resolveClient_ok (sm_Metric s)) as Hsrc.
  destruct (node_External (resolveClient res (sm_Metric s))) eqn:Es; [done|].
  pose proof (externalHost_frame st (stripPort (mget (sm_Metric s) "server_address"))) as Hf.
  destruct (externalHost _ _ _) as [[host keep] st1]. destruct Hf as (Ha & He & _).
  match goal with |- context [record_peer o st1 ?k ?h] =>
    pose proof (record_peer_frame st1 k h) as [Ha2 He2]; set (st2 := record_peer o st1 k h) in * end.
  assert (steps st st2) as Hst by (apply steps_internal; congruence).
  destruct (negb keep); [done|].
  match goal with |- context [resolve res ?i] =>
    pose proof (resolve_resolved cluster apps i) as Hdst; fold res in Hdst;
    pose proof (resolve_classified res i) as Cdst;
    destruct (resolve res i) as [dst kind] end.
  destruct (negb (node_External dst)); [done|]. etransitivity; [exact Hst|].
  lead_edge.
  - apply resolveClient_typed.
  - by apply classified_node in Cdst.
  - done.
  - intros Hn. by apply (resolved_node_ok _ _ (dst, kind)), Hdst.
  - by apply (classified_type cluster (dst, kind)).
  - apply origin_ok.
  - destruct (String.eqb kind kindDatabase); [apply steps_database, origin_ok|].
    destruct (String.eqb kind kindKafka); [apply steps_kafka; [left|apply origin_ok]|done].
Qed.

Lemma database_steps winners st s : steps st (database_step o res appByKey winners st s).
Proof.
  unfold database_step. destruct (engine_lost _ _ _); [done|]. destruct (isOTLPCollectorPeer _); [done|].
  match goal with |- context [externalHost o st ?h] =>
    pose proof (externalHost_frame st h) as Hf; destruct (externalHost o st h) as [[host keep] st1] end.
  destruct Hf as (Ha & He & _). assert (steps st st1) as Hst by (by apply steps_internal).
  destruct (_ && _); [done|]. destruct (_ && _); [done|]. destruct (String.eqb _ _); [done|].
  etransitivity; [exact Hst|]. lead_edge.
  - apply resolveClient_typed.
  - done.
  - apply resolveClient_ok.
  - intros _. apply externalNode_ok.
  - right; left.
  - apply origin_ok.
  - destruct (node_External _); [done|apply steps_database, origin_ok].
Qed.

Lemma messaging_steps st s : steps st (messaging_step res appByKey st s).
Proof.
  unfold messaging_step. destruct (String.eqb _ _); [done|]. lead_edge.
  - apply resolveClient_typed.
  - done.
  - apply resolveClient_ok.
  - intros _. apply externalNode_ok.
  - right; right; left.
  - apply origin_ok.
  - destruct (node_External _); [done|apply steps_kafka; [right; left|apply origin_ok]].
Qed.

Lemma runtime_steps st s : steps st (runtime_step res appByKey st s).
Proof.
  unfold runtime_step. destruct (_ || _); [done|]. destruct (node_External _); [done|].
  apply steps_on_app. intros. apply rtc_once, ov_runtime.
Qed.

Lemma traffic_steps l st : steps st (set_apps st (foldl traffic_set (os_apps st) l)).
Proof.
  revert st. induction l as [|[i [total errors]] l IH]; intros st; simpl.
  - by apply steps_internal.
  - destruct (f64_le total f64_zero); [apply IH|].
    etransitivity; [apply rtc_once, (ov_rates _ st i total errors)|]. apply IH.
Qed.

Lemma query_steps {A} (r : result A) (k : A → ostate) st :
  (∀ x, steps st (k x)) → steps st match r with Err _ => queryFailed st | Ok x => k x end.
Proof. destruct r; [auto|]. intros _. by apply steps_internal. Qed.

Lemma applyServiceGraph_steps st : steps st (applyServiceGraph o round res appByKey st).
Proof. apply query_steps. intros. apply steps_fold, service_graph_steps. Qed.

Lemma applyHTTPClient_steps st : steps st (applyHTTPClient o round res appByKey st).
Proof. apply query_steps. intros. apply steps_fold, http_client_steps. Qed.

Lemma applyDatabaseMetrics_steps {rt : GoRuntime} st : steps st (applyDatabaseMetrics o round res appByKey st).
Proof. apply query_steps. intros. apply steps_fold, database_steps. Qed.

Lemma applyMessagingMetrics_steps st : steps st (applyMessagingMetrics o round res appByKey st).
Proof. apply query_steps. intros. apply steps_fold, messaging_steps. Qed.

Lemma applyRuntimeMetrics_steps st : steps st (applyRuntimeMetrics o round res appByKey st).
Proof. apply query_steps. intros. apply steps_fold, runtime_steps. Qed.

Lemma applyTrafficMetrics_steps {rt : GoRuntime} st : steps st (applyTrafficMetrics o round res appByKey st).
Proof. apply query_steps. intros. apply traffic_steps. Qed.

End steps.

Lemma overlay_run_steps {GU : GoUnicode} {rt : GoRuntime} o n c apps :
  overlay_steps (λ e, overlay_edge_typed (o_cluster o) e ∧ (Forall named_app apps → overlay_edge_ok (o_cluster o) apps e))
    (overlay_start c apps) (overlay_run o n c apps).
Proof.
  unfold overlay_run.
  etransitivity; [|by apply applyTrafficMetrics_steps].
  etransitivity; [|by apply applyRuntimeMetrics_steps].
  etransitivity; [|by apply applyMessagingMetrics_steps].
  etransitivity; [|by apply applyDatabaseMetrics_steps].
  etransitivity; [|by apply applyHTTPClient_steps].
  by apply applyServiceGraph_steps.
Qed.

(** What every elementary write preserves holds of a run. *)
Lemma overlay_run_inv {GU : GoUnicode} {rt : GoRuntime} o n c apps (P : ostate → Prop) :
  (∀ st st', overlay_step (λ e, overlay_edge_typed (o_cluster o) e ∧
       (Forall named_app apps → overlay_edge_ok (o_cluster o) apps e)) st st' →
     P st → P st') →
  P (overlay_start c apps) → P (overlay_run o n c apps).
Proof.
  intros Hstep H0. pose proof (overlay_run_steps o n c apps) as Hr. revert H0.
  induction Hr; eauto.
Qed.

(** ** Edges *)

Definition edge_identity (e : DependencyEdge) :=
  let s := edge_Source e in
  let t := edge_Target e in
  (node_Namespace s, node_Service s, node_External s, node_Namespace t, node_Service t,
   node_External t, edge_Type e, edge_Origin e).

(** Names without the two separators of the key. *)
Definition plain_node (n : DependencyNode) : Prop :=
  lacks "/"%char (node_Namespace n) = true ∧ lacks "/"%char (node_Service n) = true.

Lemma boolStr_inj b b' : boolStr b = boolStr b' → b = b'.
Proof. by destruct b, b'. Qed.

Lemma boolStr_lacks b : lacks "|"%char (boolStr b) = true.
Proof. by destruct b. Qed.

Lemma edge_key_identity e e' :
  plain_node (edge_Source e) → plain_node (edge_Target e) →
  plain_node (edge_Source e') → plain_node (edge_Target e') →
  lacks "|"%char (edge_Type e) = true → lacks "|"%char (edge_Type e') = true →
  edge_key e = edge_key e' ↔ edge_identity e = edge_identity e'.
Proof.
  intros [S1 S2] [T1 T2] [S3 S4] [T3 T4] K K'. unfold edge_identity. split.
  - unfold edge_key. cbn zeta. intros H.
    apply (sep_inj "/"%char) in H as [-> H]; [|done..].
    apply (sep_inj "/"%char) in H as [-> H]; [|done..].
    apply (sep_inj "|"%char) in H as [->%boolStr_inj H]; [|apply boolStr_lacks..].
    apply (sep_inj "/"%char) in H as [-> H]; [|done..].
    apply (sep_inj "/"%char) in H as [-> H]; [|done..].
    apply (sep_inj "|"%char) in H as [->%boolStr_inj H]; [|apply boolStr_lacks..].
    by apply (sep_inj "|"%char) in H as [-> ->].
  - intros [= H1 H2 H3 H4 H5 H6 H7 H8]. unfold edge_key. cbn zeta.
    by rewrite H1, H2, H3, H4, H5, H6, H7, H8.
Qed.

Definition edges_inv (ok : DependencyEdge → Prop) (e : edgeSet) : Prop :=
  NoDup (edge_key <$> es_list e) ∧ (∀ k, k ∈ es_seen e ↔ k ∈ edge_key <$> es_list e) ∧
  Forall ok (es_list e).

Lemma edges_inv_new ok : edges_inv ok newEdgeSet.
Proof. split_and!; simpl; [constructor|set_solver|constructor]. Qed.

Lemma edges_inv_add ok e edge : ok edge → edges_inv ok e → edges_inv ok (edge_add e edge).
Proof.
  intros Hok (Hnd & Hseen & Hall). unfold edge_add. case_bool_decide as Hk; [done|].
  unfold edges_inv. simpl. rewrite fmap_app. simpl. split_and!.
  - apply NoDup_app. split_and!; [done| |apply NoDup_singleton].
    intros k H1 H2%list_elem_of_singleton. apply Hk, Hseen. by rewrite <- H2.
  - intros k. rewrite elem_of_union, elem_of_singleton, elem_of_app, list_elem_of_singleton, Hseen. done.
  - apply Forall_app. split; [done|]. by repeat constructor.
Qed.

(** Adding an edge that is already represented changes nothing; a new one is
    appended. *)
Lemma edge_add_cases ok e edge :
  edges_inv ok e →
  (edge_key edge ∈ edge_key <$> es_list e ∧ edge_add e edge = e) ∨
  ((edge_key edge ∉ edge_key <$> es_list e) ∧ es_list (edge_add e edge) = es_list e ++ [edge]).
Proof.
  intros (_ & Hseen & _). unfold edge_add. case_bool_decide as Hk; rewrite Hseen in Hk; auto.
Qed.

(** The edge set of a run, when no name holds a slash. *)
Lemma overlay_run_edges {GU : GoUnicode} {rt : GoRuntime} o n c apps :
  Forall named_app apps → edges_inv (overlay_edge_ok (o_cluster o) apps) (os_edges (overlay_run o n c apps)).
Proof.
  intros Hn. apply (overlay_run_inv o n c apps
    (λ st, edges_inv (overlay_edge_ok (o_cluster o) apps) (os_edges st))); [|apply edges_inv_new].
  intros st st' Hs H. destruct Hs as [? ? []| | | | |]; simpl in *; try done; [apply edges_inv_add; auto|congruence].
Qed.

(** C9: the dependency edges of an overlay are never repeated (two edges of one
    source, target, type and origin are one), and every endpoint is either an
    application of the catalog, with its cluster and namespace, or an external
    node; the types and origins are those of the model. *)
Theorem Apply_edges (GU : GoUnicode) (rt : GoRuntime) (o : Overlayer) (n : nat) (c : ocaches)
    (apps : list ApplicationEntry) :
  Forall named_app apps →
  let edges := (Apply o n c apps).1.1 in
  Forall (overlay_edge_ok (o_cluster o) apps) edges ∧
  NoDup (edge_key <$> edges) ∧ NoDup (edge_identity <$> edges).
Proof.
  intros Hn. cbn zeta. unfold Apply. simpl.
  destruct (overlay_run_edges o n c apps Hn) as (Hnd & _ & Hok).
  split_and!; [done..|].
  assert (∀ l, NoDup (edge_key <$> l) → NoDup (edge_identity <$> l)) as H; [|by apply H].
  induction l as [|e l IH]; [constructor|]. rewrite !fmap_cons, !NoDup_cons. intros [He Hl].
  split; [|by apply IH]. intros (e' & Hid & He')%list_elem_of_fmap. apply He.
  apply list_elem_of_fmap. exists e'. split; [|done].
  unfold edge_key. unfold edge_identity in Hid. cbn zeta in *.
  injection Hid as H1 H2 H3 H4 H5 H6 H7 H8. by rewrite H1, H2, H3, H4, H5, H6, H7, H8.
Qed.

(** ** Applications *)

(** [b] is [a] with more observed: only the overlay fields differ, refs are only
    appended, and a detected runtime stays. *)
Definition overlaid (a b : ApplicationEntry) : Prop :=
  same_identity a b ∧ app_Databases a `prefix_of` app_Databases b ∧
  app_KafkaTopics a `prefix_of` app_KafkaTopics b ∧
  (app_Runtime a ≠ EmptyString → app_Runtime b = app_Runtime a).

#[export] Instance overlaid_preorder : PreOrder overlaid.
Proof.
  split.
  - intros a. split_and!; done.
  - intros a b c (H1 & H2 & H3 & H4) (H5 & H6 & H7 & H8). split_and!.
    + by etransitivity.
    + by etransitivity.
    + by etransitivity.
    + intros H. rewrite H8; rewrite H4; done.
Qed.

Lemma overlaid_database app system name source :
  overlaid app (attachDatabaseNamed app system name source).
Proof.
  unfold attachDatabaseNamed. destruct (_ && _); [done|].
  split_and!; simpl; try done. apply append_unless_prefix.
Qed.

Lemma overlaid_kafka app name direction source :
  overlaid app (attachKafka app name direction source).
Proof.
  unfold attachKafka. destruct (String.eqb _ _); [done|].
  split_and!; simpl; try done. apply append_unless_prefix.
Qed.

Lemma overlaid_runtime app lang : overlaid app (set_first_runtime lang app).
Proof.
  unfold set_first_runtime. destruct (String.eqb_spec (app_Runtime app) EmptyString); [|done].
  split_and!; simpl; done.
Qed.

Lemma overlaid_rates app total errors : overlaid app (app_set_rates app total errors).
Proof. split_and!; done. Qed.

(** The refs of an application: named, and never repeated. *)
Definition db_id (d : DatabaseRef) : string * string := (db_System d, db_Name d).
Definition topic_id (t : KafkaTopicRef) : string * string := (kafka_Name t, kafka_Direction t).

Definition refs_ok (app : ApplicationEntry) : Prop :=
  NoDup (db_id <$> app_Databases app) ∧
  Forall (λ d, db_System d ≠ EmptyString ∨ db_Name d ≠ EmptyString) (app_Databases app) ∧
  NoDup (topic_id <$> app_KafkaTopics app) ∧
  Forall (λ t, kafka_Name t ≠ EmptyString) (app_KafkaTopics app).

Lemma pair_eqb_id {A} (f g : A → string) (x : A) a b :
  String.eqb (f x) a && String.eqb (g x) b = true ↔ (f x, g x) = (a, b).
Proof. rewrite andb_true_iff, !String.eqb_eq. naive_solver. Qed.

Lemma refs_ok_database app system name source :
  refs_ok app → refs_ok (attachDatabaseNamed app system name source).
Proof.
  intros (Hd & Hn & Ht & Hk). unfold attachDatabaseNamed. destruct (_ && _) eqn:E; [done|].
  split_and!; simpl; [| |done..].
  - apply append_unless_NoDup; [|done]. intros x. apply (pair_eqb_id db_System db_Name).
  - unfold append_unless. case_match; [done|]. apply Forall_app. split; [done|].
    apply Forall_singleton. simpl. apply andb_false_iff in E as [E|E]; breflect; auto.
Qed.

Lemma refs_ok_kafka app name direction source :
  refs_ok app → refs_ok (attachKafka app name direction source).
Proof.
  intros (Hd & Hn & Ht & Hk). unfold attachKafka.
  destruct (String.eqb_spec name EmptyString); [done|].
  split_and!; simpl; [done..| |].
  - apply append_unless_NoDup; [|done]. intros x. apply (pair_eqb_id kafka_Name kafka_Direction).
  - unfold append_unless. case_match; [done|]. apply Forall_app. split; [done|]. by apply Forall_singleton.
Qed.

Lemma refs_ok_runtime app lang : refs_ok app → refs_ok (set_first_runtime lang app).
Proof. intros H. unfold set_first_runtime. by case_match. Qed.

Lemma overlay_run_overlaid {GU : GoUnicode} {rt : GoRuntime} o n c apps :
  Forall2 overlaid apps (os_apps (overlay_run o n c apps)).
Proof.
  apply (overlay_run_inv o n c apps (λ st, Forall2 overlaid apps (os_apps st))).
  2:{ simpl. apply Forall_Forall2_diag, Forall_true. done. }
  intros st st' Hs H.
  assert (∀ f i, (∀ a, overlaid a (f a)) → Forall2 overlaid apps (alter f i (os_apps st))) as Halter.
  { intros f i Hf. apply Forall2_alter_r; [done|]. intros a b _ _ Hab. by transitivity b. }
  destruct Hs; simpl in *; [done| | | | |congruence]; apply Halter; intros.
  - apply overlaid_database.
  - apply overlaid_kafka.
  - apply overlaid_runtime.
  - apply overlaid_rates.
Qed.

(** C35: the overlay only adds: every application keeps its place and everything
    but the observed fields, refs are only appended, a known runtime is kept; and
    refs stay named and free of repetition (a database by engine and name, a
    topic by name and direction). *)
Theorem Apply_apps (GU : GoUnicode) (rt : GoRuntime) (o : Overlayer) (n : nat) (c : ocaches)
    (apps : list ApplicationEntry) :
  let apps' := (Apply o n c apps).1.2 in
  Forall2 overlaid apps apps' ∧ (Forall refs_ok apps → Forall refs_ok apps').
Proof.
  cbn zeta. unfold Apply. simpl. split.
  - by apply overlay_run_overlaid.
  - intros H0. apply (overlay_run_inv o n c apps (λ st, Forall refs_ok (os_apps st))); [|done].
    intros st st' Hs H.
    assert (∀ f i, (∀ a, refs_ok a → refs_ok (f a)) → Forall refs_ok (alter f i (os_apps st))) as Halter.
    { intros f i Hf. apply Forall_alter; [done|]. intros a _. apply Hf. }
    destruct Hs; simpl in *; [done| | | | |congruence]; apply Halter; intros.
    + by apply refs_ok_database.
    + by apply refs_ok_kafka.
    + by apply refs_ok_runtime.
    + done.
Qed.

(** *** Types *)

Definition topic_typed (t : KafkaTopicRef) : Prop :=
  kafka_Name t ≠ EmptyString ∧ kafka_Direction t ∈ [EmptyString; "consume"] ∧
  kafka_Source t ∈ [originServiceGraph; originMetrics].

Definition database_typed (d : DatabaseRef) : Prop := db_Source d ∈ [originServiceGraph; originMetrics].

Definition observed_typed (app : ApplicationEntry) : Prop :=
  Forall topic_typed (app_KafkaTopics app) ∧ Forall database_typed (app_Databases app).

Lemma Forall_append_unless {A} (P : A → Prop) p l x : Forall P l → P x → Forall P (append_unless p l x).
Proof. intros Hl Hx. unfold append_unless. case_match; [done|]. apply Forall_app. by split; [|apply Forall_singleton]. Qed.

Lemma observed_typed_database app system name source :
  source ∈ [originServiceGraph; originMetrics] → observed_typed app →
  observed_typed (attachDatabaseNamed app system name source).
Proof.
  intros Hs [Ht Hd]. unfold attachDatabaseNamed. destruct (_ && _); [done|].
  split; simpl; [done|]. by apply Forall_append_unless.
Qed.

Lemma observed_typed_kafka app name direction source :
  direction ∈ [EmptyString; "consume"] → source ∈ [originServiceGraph; originMetrics] → observed_typed app →
  observed_typed (attachKafka app name direction source).
Proof.
  intros Hdir Hs [Ht Hd]. unfold attachKafka. destruct (String.eqb_spec name EmptyString); [done|].
  split; simpl; [|done]. by apply Forall_append_unless.
Qed.

(** Whatever telemetry says and whatever the names, a run keeps the references of
    the applications typed and adds typed edges. *)
Lemma Apply_typed {GU : GoUnicode} {rt : GoRuntime} o n c apps :
  Forall observed_typed apps →
  Forall observed_typed (Apply o n c apps).1.2 ∧ Forall (overlay_edge_typed (o_cluster o)) (Apply o n c apps).1.1.
Proof.
  intros H0. unfold Apply. simpl.
  apply (overlay_run_inv o n c apps (λ st, Forall observed_typed (os_apps st) ∧
    Forall (overlay_edge_typed (o_cluster o)) (es_list (os_edges st)))); [|by split; [|constructor]].
  intros st st' Hs [Ha He].
  assert (∀ f i, (∀ a, observed_typed a → observed_typed (f a)) → Forall observed_typed (alter f i (os_apps st)))
    as Halter by (intros f i Hf; apply Forall_alter; [done|]; intros a _; apply Hf).
  destruct Hs as [st e [Ht _]| | | | |st st' -> ->]; simpl; (split; [|try done]); try done; try (apply Halter; intros).
  - unfold edge_add. case_bool_decide; [done|]. simpl. apply Forall_app. by split; [|apply Forall_singleton].
  - by apply observed_typed_database.
  - by apply observed_typed_kafka.
  - unfold set_first_runtime. by case_match.
  - done.
Qed.

(** ** Caches

    The code keeps every answer of the resolver, misses included, and never asks
    again.  What a run sees of the outside is what its caches end up holding: the
    readings below give the answers from them. *)

Definition ptrs (st : ostate) : gmap string string := default ∅ (os_ptrCache st).
Definition addrs (st : ostate) : gmap string (list string) := default ∅ (os_hostCache st).

(** The display host of an address or name, and whether to keep it, when the cached
    names are [P]. *)
Definition read_external_host (P : gmap string string) (host : string) : string * bool :=
  if String.eqb host EmptyString || negb (isBareIP host) then (host, nonempty host)
  else if isPrivateIP host then (EmptyString, false)
  else
    let name := default EmptyString (P !! host) in
    if nonempty name then (name, true) else (host, true).

(** The cache [m'] comes from [m] by lookups: what was there is kept, what is new is
    the answer to a lookup made in between. *)
Definition answered {A} (answer : nat → string → A) (m m' : gmap string A) : Prop :=
  m ⊆ m' ∧
  ∀ k v, m' !! k = Some v → m !! k = Some v ∨ ∃ n, size m ≤ n < size m' ∧ v = answer n k.

#[export] Instance answered_preorder {A} (answer : nat → string → A) : PreOrder (answered answer).
Proof.
  split.
  - intros m. split; [done|by left].
  - intros m1 m2 m3 [H1 H2] [H3 H4]. split; [by transitivity m2|].
    pose proof (map_subseteq_size _ _ H1). pose proof (map_subseteq_size _ _ H3).
    intros k v Hk. apply H4 in Hk as [Hk|(n & Hn & ->)]; [|right; exists n; split; [lia|done]].
    apply H2 in Hk as [Hk|(n & Hn & ->)]; [by left|right; exists n; split; [lia|done]].
Qed.

Lemma answered_insert {A} (answer : nat → string → A) m k :
  m !! k = None → answered answer m (<[k := answer (size m) k]> m).
Proof.
  intros Hk. split; [by apply insert_subseteq|]. intros k' v.
  rewrite (map_size_insert_None _ _ _ Hk), lookup_insert_Some.
  intros [[<- <-]|[_ Hl]]; [right; exists (size m); split; [lia|done]|by left].
Qed.

Definition names_of (o : Overlayer) (n : nat) (ip : string) : string := first_name (o_lookupAddr o n ip).
Definition ips_of (o : Overlayer) (n : nat) (host : string) : list string := host_ips (o_lookupHost o n host).

Definition grows (o : Overlayer) (st st' : ostate) : Prop :=
  answered (names_of o) (ptrs st) (ptrs st') ∧ answered (ips_of o) (addrs st) (addrs st').

#[export] Instance grows_preorder o : PreOrder (grows o).
Proof. split; [done|]. intros st1 st2 st3 [H1 H2] [H3 H4]. split; by etransitivity. Qed.

(** Every cache entry of [st] is one of [st']. *)
Definition within (st st' : ostate) : Prop := ptrs st ⊆ ptrs st' ∧ addrs st ⊆ addrs st'.

Lemma grows_within o st st' : grows o st st' → within st st'.
Proof. by intros [[H1 _] [H2 _]]. Qed.

#[export] Instance within_preorder : PreOrder within.
Proof. split; [done|]. intros st1 st2 st3 [H1 H2] [H3 H4]. split; by etransitivity. Qed.

Section lookups.
Context (o : Overlayer).

Lemma reverseLookup_spec st ip :
  let '(name, st') := reverseLookup o st ip in
  grows o st st' ∧ ptrs st' !! ip = Some name ∧ addrs st' = addrs st.
Proof.
  unfold reverseLookup, grows, ptrs. destruct (os_ptrCache st) as [m|] eqn:E.
  - destruct (m !! ip) as [name|] eqn:Em; [by rewrite E|]. cbn. rewrite lookup_insert_eq.
    split_and!; [by apply (answered_insert (names_of o))|done..].
  - cbn. rewrite lookup_insert_eq. split_and!; [by apply (answered_insert (names_of o))|done..].
Qed.

Lemma forwardLookup_spec st host :
  let '(ips, st') := forwardLookup o st host in
  grows o st st' ∧ addrs st' !! host = Some ips ∧ ptrs st' = ptrs st.
Proof.
  unfold forwardLookup, grows, addrs. destruct (os_hostCache st) as [m|] eqn:E.
  - destruct (m !! host) as [ips|] eqn:Em; [by rewrite E|]. cbn. rewrite lookup_insert_eq.
    split_and!; [done|by apply (answered_insert (ips_of o))|done..].
  - cbn. rewrite lookup_insert_eq. split_and!; [done|by apply (answered_insert (ips_of o))|done..].
Qed.

Lemma forwardLookup_frame st host :
  os_apps (forwardLookup o st host).2 = os_apps st ∧
  os_edges (forwardLookup o st host).2 = os_edges st ∧
  os_peers (forwardLookup o st host).2 = os_peers st.
Proof. unfold forwardLookup. repeat case_match; done. Qed.

Lemma externalHost_grows st host : grows o st (externalHost o st host).2.
Proof.
  unfold externalHost. destruct (_ || _); [done|]. destruct (isPrivateIP host); [done|].
  pose proof (reverseLookup_spec st host) as H. destruct (reverseLookup o st host) as [name st'].
  destruct H as [H _]. by destruct (nonempty name).
Qed.

(** The answer given is the one any later cache holds. *)
Lemma externalHost_read P st host :
  ptrs (externalHost o st host).2 ⊆ P → (externalHost o st host).1 = read_external_host P host.
Proof.
  unfold externalHost, read_external_host. destruct (_ || _); [done|]. destruct (isPrivateIP host); [done|].
  pose proof (reverseLookup_spec st host) as H. destruct (reverseLookup o st host) as [name st'].
  destruct H as (_ & H & _). intros Hs.
  assert (ptrs st' ⊆ P) as Hs' by (by destruct (nonempty name)).
  rewrite (lookup_weaken _ _ _ _ H Hs'). simpl. by destruct (nonempty name).
Qed.

Lemma record_peer_grows st key host : grows o st (record_peer o st key host).
Proof.
  unfold record_peer. destruct (negb _); [|done].
  pose proof (forwardLookup_spec (set_peers st (peers_add (os_peers st) key host)) host) as H.
  destruct (forwardLookup o _ host) as [ips st']. by destruct H as [H _].
Qed.

Lemma reverseLookup_cached st ip name : ptrs st !! ip = Some name → reverseLookup o st ip = (name, st).
Proof.
  unfold ptrs, reverseLookup. destruct (os_ptrCache st) as [m|]; simpl; [by intros ->|by rewrite lookup_empty].
Qed.

Lemma forwardLookup_cached st host ips : addrs st !! host = Some ips → forwardLookup o st host = (ips, st).
Proof.
  unfold addrs, forwardLookup. destruct (os_hostCache st) as [m|]; simpl; [by intros ->|by rewrite lookup_empty].
Qed.

End lookups.

Create HintDb overlay.

(** A step that leaves the caches alone. *)
Definition kept (st st' : ostate) : Prop :=
  os_ptrCache st' = os_ptrCache st ∧ os_hostCache st' = os_hostCache st.

Lemma kept_grows o st st' : kept st st' → grows o st st'.
Proof. unfold grows, ptrs, addrs. by intros [-> ->]. Qed.

Lemma on_app_kept idx key f st st' : kept st st' → kept st (on_app idx key f st').
Proof. intros H. unfold on_app. by destruct (idx !! key). Qed.

Lemma if_kept (b : bool) st x y : kept st x → kept st y → kept st (if b then x else y).
Proof. by destruct b. Qed.

Lemma add_edge_kept st e : kept st (add_edge st e).
Proof. done. Qed.

#[export] Hint Resolve on_app_kept if_kept add_edge_kept : overlay.

Ltac kept := repeat first [apply if_kept | apply on_app_kept | apply add_edge_kept | by split].

Lemma fold_within {A} (f : ostate → A → ostate) l st :
  (∀ st x, within st (f st x)) → within st (foldl f st l).
Proof.
  intros H. revert st. induction l as [|x l IH]; intros st; [done|]. simpl.
  transitivity (f st x); [apply H|apply IH].
Qed.

Lemma fold_grows {A} o (f : ostate → A → ostate) l st :
  (∀ st x, grows o st (f st x)) → grows o st (foldl f st l).
Proof.
  intros H. revert st. induction l as [|x l IH]; intros st; [done|]. simpl.
  transitivity (f st x); [apply H|apply IH].
Qed.

Section steps_grow.
Context {GU : GoUnicode} (o : Overlayer) (round : nat) (res : resolver) (idx : gmap string nat).

Lemma service_graph_grows st s : grows o st (service_graph_step res idx st s).
Proof.
  apply kept_grows. unfold service_graph_step. destruct (resolveEndpoint res _ _) as [dst kind]. kept.
Qed.

Lemma http_client_grows st s : grows o st (http_client_step o res idx st s).
Proof.
  unfold http_client_step. destruct (String.eqb _ _); [done|]. destruct (node_External _); [done|].
  match goal with |- context [externalHost o st ?h] =>
    pose proof (externalHost_grows o st h) as H1; destruct (externalHost o st h) as [[host keep] st1] end.
  cbn [snd] in H1. match goal with |- context [record_peer o st1 ?k ?h] =>
    pose proof (record_peer_grows o st1 k h) as H2; set (st2 := record_peer o st1 k h) in * end.
  transitivity st1; [done|]. transitivity st2; [done|]. clearbody st2. apply kept_grows.
  destruct (resolve res _) as [dst kind]. kept.
Qed.

Lemma database_grows winners st s : grows o st (database_step o res idx winners st s).
Proof.
  unfold database_step. destruct (engine_lost _ _ _); [done|]. destruct (isOTLPCollectorPeer _); [done|].
  match goal with |- context [externalHost o st ?h] =>
    pose proof (externalHost_grows o st h) as H1; destruct (externalHost o st h) as [[host keep] st1] end.
  cbn [snd] in H1. transitivity st1; [done|]. apply kept_grows. kept.
Qed.

Lemma messaging_grows st s : grows o st (messaging_step res idx st s).
Proof. apply kept_grows. unfold messaging_step. kept. Qed.

Lemma runtime_grows st s : grows o st (runtime_step res idx st s).
Proof. apply kept_grows. unfold runtime_step. kept. Qed.

End steps_grow.

(** *** Another resolver

    A run from caches that hold every answer of a first run reads the same from
    them, whatever its own resolver would say. *)

Definition with_resolver (o : Overlayer) (lookupAddr lookupHost : nat → string → list string) : Overlayer :=
  mkOverlayer (o_client o) (o_cluster o) (o_lookback o) lookupAddr lookupHost.

Definition same_view (st st' : ostate) : Prop :=
  os_apps st = os_apps st' ∧ os_edges st = os_edges st' ∧ os_peers st = os_peers st'.

Section replay.
Context {GU : GoUnicode} (o : Overlayer) (lookupAddr lookupHost : nat → string → list string).
Context (round : nat) (res : resolver) (idx : gmap string nat).
Let o' := with_resolver o lookupAddr lookupHost.
Context (Pc : option (gmap string string)) (Hc : option (gmap string (list string))).

(** [st] is seen from a state whose caches are the given ones. *)
Definition replayed (st st' : ostate) : Prop :=
  same_view st st' ∧ os_ptrCache st' = Pc ∧ os_hostCache st' = Hc.

Definition held (st : ostate) : Prop := ptrs st ⊆ default ∅ Pc ∧ addrs st ⊆ default ∅ Hc.

Lemma grows_held st st' : grows o st st' → held st' → held st.
Proof. intros [[H1 _] [H2 _]] [H3 H4]. split; by etransitivity. Qed.

Lemma kept_held st st' : kept st st' → held st' → held st.
Proof. unfold held, ptrs, addrs. by intros [-> ->]. Qed.

Lemma externalHost_replay st st' host :
  replayed st st' → held (externalHost o st host).2 →
  externalHost o' st' host = ((externalHost o st host).1, st') ∧ replayed (externalHost o st host).2 st'.
Proof.
  intros [Hv [HP HH]] Hh. pose proof (externalHost_frame o st host) as F. revert F Hh. unfold externalHost.
  destruct (_ || _); [done|]. destruct (isPrivateIP host); [done|].
  pose proof (reverseLookup_spec o st host) as H. destruct (reverseLookup o st host) as [name st1].
  destruct H as (_ & H & _). intros F Hh.
  assert (os_apps st1 = os_apps st ∧ os_edges st1 = os_edges st ∧ os_peers st1 = os_peers st) as (F1 & F2 & F3)
    by (by destruct (nonempty name)).
  assert (ptrs st1 ⊆ default ∅ Pc) as Hs by (destruct (nonempty name); apply Hh).
  rewrite (reverseLookup_cached o' st' host name) by (unfold ptrs; rewrite HP; by eapply lookup_weaken).
  assert (replayed st1 st') as Hr by (split; [|done]; destruct Hv as (? & ? & ?); split_and!; congruence).
  by destruct (nonempty name).
Qed.

Lemma set_peers_replay st st' p : replayed st st' → replayed (set_peers st p) (set_peers st' p).
Proof. by intros [(? & ? & ?) [? ?]]. Qed.

Lemma record_peer_replay st st' key host :
  replayed st st' → held (record_peer o st key host) →
  replayed (record_peer o st key host) (record_peer o' st' key host).
Proof.
  intros Hr. unfold record_peer. assert (os_peers st = os_peers st') as Hp by apply Hr.
  rewrite Hp. apply (set_peers_replay _ _ (peers_add (os_peers st') key host)) in Hr.
  set (s1 := set_peers st _) in *. set (s1' := set_peers st' _) in *.
  destruct (negb _); [|done].
  pose proof (forwardLookup_frame o s1 host) as (F1 & F2 & F3).
  pose proof (forwardLookup_spec o s1 host) as H. destruct (forwardLookup o s1 host) as [ips s2].
  cbn [fst snd] in *. destruct H as (_ & H & _). intros [_ Hs]. destruct Hr as [(V1 & V2 & V3) [HP HH]].
  change (addrs s2 ⊆ default ∅ Hc) in Hs.
  rewrite (forwardLookup_cached o' s1' host ips) by (unfold addrs; rewrite HH; by eapply lookup_weaken).
  rewrite F3, V3. apply set_peers_replay. split; [|done]. split_and!; congruence.
Qed.

Lemma add_edge_replay st st' e : replayed st st' → replayed (add_edge st e) (add_edge st' e).
Proof. intros [(? & He & ?) [? ?]]. unfold add_edge. rewrite He. by split. Qed.

Lemma on_app_replay key f st st' : replayed st st' → replayed (on_app idx key f st) (on_app idx key f st').
Proof. intros [(Ha & ? & ?) [? ?]]. unfold on_app. destruct (idx !! key); [|by split]. rewrite Ha. by split. Qed.

Lemma service_graph_replay st st' s :
  replayed st st' → replayed (service_graph_step res idx st s) (service_graph_step res idx st' s).
Proof.
  intros Hs. unfold service_graph_step.
  destruct (_ || _); [done|]. destruct (_ || _); [done|]. destruct (resolveEndpoint res _ _) as [dst kind].
  match goal with |- context [add_edge _ ?e] => apply (add_edge_replay _ _ e) in Hs end.
  destruct (node_External _); [exact Hs|].
  destruct (String.eqb kind kindDatabase); [by apply on_app_replay|].
  destruct (String.eqb kind kindKafka); [by apply on_app_replay|exact Hs].
Qed.

Lemma http_client_replay st st' s :
  replayed st st' → held (http_client_step o res idx st s) →
  replayed (http_client_step o res idx st s) (http_client_step o' res idx st' s).
Proof.
  intros Hr. unfold http_client_step. destruct (String.eqb _ _); [done|]. destruct (node_External _); [done|].
  match goal with |- context [externalHost o st ?h] =>
    pose proof (externalHost_replay st st' h Hr) as H1; destruct (externalHost o st h) as [[host keep] s1] end.
  cbn [fst snd] in H1. match goal with |- context [record_peer o s1 ?k ?h] =>
    pose proof (record_peer_grows o s1 k h) as Hg; pose proof (record_peer_replay s1 st' k h) as H2;
    set (s2 := record_peer o s1 k h) in * end.
  intros Hh. assert (held s2) as Hh2.
  { clearbody s2. eapply kept_held; [|exact Hh]. destruct (resolve res _) as [dst kind]. kept. }
  destruct H1 as [-> H1]; [by eapply grows_held|]. specialize (H2 H1 Hh2). clear Hh Hh2 Hg H1 Hr.
  cbn zeta beta iota. set (s2' := record_peer o' st' _ _) in *. clearbody s2 s2'.
  destruct (negb keep); [done|]. destruct (resolve res _) as [dst kind]. destruct (negb _); [done|].
  match goal with |- context [add_edge _ ?e] => apply (add_edge_replay _ _ e) in H2 end.
  destruct (String.eqb kind kindDatabase); [by apply on_app_replay|].
  destruct (String.eqb kind kindKafka); [by apply on_app_replay|exact H2].
Qed.

Lemma database_replay winners st st' s :
  replayed st st' → held (database_step o res idx winners st s) →
  replayed (database_step o res idx winners st s) (database_step o' res idx winners st' s).
Proof.
  intros Hr. unfold database_step. destruct (engine_lost _ _ _); [done|]. destruct (isOTLPCollectorPeer _); [done|].
  match goal with |- context [externalHost o st ?h] =>
    pose proof (externalHost_replay st st' h Hr) as H1; destruct (externalHost o st h) as [[host keep] s1] end.
  cbn [fst snd] in H1. intros Hh.
  assert (held s1) as Hh1 by (eapply kept_held; [|exact Hh]; kept).
  destruct H1 as [-> H1]; [done|]. clear Hh Hh1 Hr. cbn zeta beta iota.
  destruct (_ && _); [done|]. assert (os_peers s1 = os_peers st') as -> by apply H1.
  destruct (_ && _); [done|]. destruct (String.eqb _ _); [done|].
  match goal with |- context [add_edge _ ?e] => apply (add_edge_replay _ _ e) in H1 end.
  destruct (node_External _); [exact H1|by apply on_app_replay].
Qed.

Lemma messaging_replay st st' s :
  replayed st st' → replayed (messaging_step res idx st s) (messaging_step res idx st' s).
Proof.
  intros Hs. unfold messaging_step. destruct (String.eqb _ _); [done|].
  match goal with |- context [add_edge _ ?e] => apply (add_edge_replay _ _ e) in Hs end.
  destruct (node_External _); [exact Hs|by apply on_app_replay].
Qed.

Lemma runtime_replay st st' s : replayed st st' → replayed (runtime_step res idx st s) (runtime_step res idx st' s).
Proof.
  intros Hs. unfold runtime_step. destruct (_ || _); [done|]. destruct (node_External _); [done|by apply on_app_replay].
Qed.

Lemma traffic_replay l st st' :
  replayed st st' →
  replayed (set_apps st (foldl traffic_set (os_apps st) l)) (set_apps st' (foldl traffic_set (os_apps st') l)).
Proof. intros [(Ha & ? & ?) [? ?]]. rewrite Ha. by split. Qed.

(** A part of the run, with either resolver. *)
Definition replays (f f' : ostate → ostate) : Prop :=
  (∀ st, grows o st (f st)) ∧
  ∀ st st', replayed st st' → held (f st) → replayed (f st) (f' st').

Lemma replays_compose f f' g g' : replays f f' → replays g g' → replays (g ∘ f) (g' ∘ f').
Proof.
  intros [Gf Rf] [Gg Rg]. split; [intros st; transitivity (f st); [apply Gf|apply Gg]|].
  intros st st' Hr Hh. apply Rg; [|done]. apply Rf; [done|]. exact (grows_held _ _ (Gg (f st)) Hh).
Qed.

Lemma fold_replays {A} (f f' : ostate → A → ostate) l :
  (∀ x, replays (λ st, f st x) (λ st, f' st x)) → replays (λ st, foldl f st l) (λ st, foldl f' st l).
Proof.
  intros H. induction l as [|x l IH]; [split; [intros st; reflexivity|by intros st st' ? _]|].
  exact (replays_compose _ _ _ _ (H x) IH).
Qed.

Lemma query_replays {A} (r : result A) (k k' : A → ostate → ostate) :
  (∀ x, replays (k x) (k' x)) →
  replays (λ st, match r with Err _ => queryFailed st | Ok x => k x st end)
          (λ st, match r with Err _ => queryFailed st | Ok x => k' x st end).
Proof. destruct r; [by auto|]. intros _. split; [intros st; by apply kept_grows|]. by intros st st' [(? & ? & ?) [? ?]]. Qed.

Lemma replays_plain (f : ostate → ostate) :
  (∀ st, grows o st (f st)) → (∀ st st', replayed st st' → replayed (f st) (f st')) → replays f f.
Proof. intros Hg Hr. split; [done|]. auto. Qed.

Lemma applyServiceGraph_replays : replays (applyServiceGraph o round res idx) (applyServiceGraph o' round res idx).
Proof.
  apply (query_replays _ (λ l st, foldl (service_graph_step res idx) st l)). intros l. apply fold_replays.
  intros s. apply replays_plain; intros; [apply service_graph_grows|by apply service_graph_replay].
Qed.

Lemma applyHTTPClient_replays : replays (applyHTTPClient o round res idx) (applyHTTPClient o' round res idx).
Proof.
  apply (query_replays _ (λ l st, foldl (http_client_step o res idx) st l)
    (λ l st, foldl (http_client_step o' res idx) st l)). intros l. apply fold_replays.
  intros s. split; intros; [apply http_client_grows|by apply http_client_replay].
Qed.

Lemma applyDatabaseMetrics_replays {rt : GoRuntime} :
  replays (applyDatabaseMetrics o round res idx) (applyDatabaseMetrics o' round res idx).
Proof.
  apply (query_replays _ (λ l st, foldl (database_step o res idx (engineWinners res l)) st l)
    (λ l st, foldl (database_step o' res idx (engineWinners res l)) st l)). intros l. apply fold_replays.
  intros s. split; intros; [apply database_grows|by apply database_replay].
Qed.

Lemma applyMessagingMetrics_replays :
  replays (applyMessagingMetrics o round res idx) (applyMessagingMetrics o' round res idx).
Proof.
  apply (query_replays _ (λ l st, foldl (messaging_step res idx) st l)). intros l. apply fold_replays.
  intros s. apply replays_plain; intros; [apply messaging_grows|by apply messaging_replay].
Qed.

Lemma applyRuntimeMetrics_replays :
  replays (applyRuntimeMetrics o round res idx) (applyRuntimeMetrics o' round res idx).
Proof.
  apply (query_replays _ (λ l st, foldl (runtime_step res idx) st l)). intros l. apply fold_replays.
  intros s. apply replays_plain; intros; [apply runtime_grows|by apply runtime_replay].
Qed.

Lemma applyTrafficMetrics_replays {rt : GoRuntime} :
  replays (applyTrafficMetrics o round res idx) (applyTrafficMetrics o' round res idx).
Proof.
  apply (query_replays _ (λ l st, set_apps st (foldl traffic_set (os_apps st)
    (map_range (foldl (traffic_add res idx) ∅ l))))). intros l.
  apply replays_plain; intros; [by apply kept_grows|by apply traffic_replay].
Qed.

Lemma passes_replay {rt : GoRuntime} :
  replays
    (λ st, applyTrafficMetrics o round res idx (applyRuntimeMetrics o round res idx
       (applyMessagingMetrics o round res idx (applyDatabaseMetrics o round res idx
       (applyHTTPClient o round res idx (applyServiceGraph o round res idx st))))))
    (λ st, applyTrafficMetrics o' round res idx (applyRuntimeMetrics o' round res idx
       (applyMessagingMetrics o' round res idx (applyDatabaseMetrics o' round res idx
       (applyHTTPClient o' round res idx (applyServiceGraph o' round res idx st)))))).
Proof.
  apply (replays_compose _ _ (applyTrafficMetrics o round res idx) (applyTrafficMetrics o' round res idx));
    [|apply applyTrafficMetrics_replays].
  apply (replays_compose _ _ (applyRuntimeMetrics o round res idx) (applyRuntimeMetrics o' round res idx));
    [|apply applyRuntimeMetrics_replays].
  apply (replays_compose _ _ (applyMessagingMetrics o round res idx) (applyMessagingMetrics o' round res idx));
    [|apply applyMessagingMetrics_replays].
  apply (replays_compose _ _ (applyDatabaseMetrics o round res idx) (applyDatabaseMetrics o' round res idx));
    [|apply applyDatabaseMetrics_replays].
  apply (replays_compose _ _ (applyHTTPClient o round res idx) (applyHTTPClient o' round res idx));
    [apply applyServiceGraph_replays|apply applyHTTPClient_replays].
Qed.
End replay.

Lemma overlay_run_grows {GU : GoUnicode} {rt : GoRuntime} o n c apps :
  grows o (overlay_start c apps) (overlay_run o n c apps).
Proof.
  exact (proj1 (passes_replay o (o_lookupAddr o) (o_lookupHost o) n (newResolver (o_cluster o) apps)
    (indexApps apps) None None) (overlay_start c apps)).
Qed.

Lemma overlay_run_replay {GU : GoUnicode} {rt : GoRuntime} o n c errors apps lookupAddr lookupHost :
  let st := overlay_run o n c apps in
  replayed (os_ptrCache st) (os_hostCache st) st
    (overlay_run (with_resolver o lookupAddr lookupHost) n
       (mkOcaches (os_ptrCache st) (os_hostCache st) errors) apps).
Proof.
  cbn zeta. assert (held (os_ptrCache (overlay_run o n c apps)) (os_hostCache (overlay_run o n c apps))
    (overlay_run o n c apps)) as Hh by done. revert Hh.
  generalize (os_ptrCache (overlay_run o n c apps)) (os_hostCache (overlay_run o n c apps)). intros Pc Hc Hh.
  pose proof (proj2 (passes_replay o lookupAddr lookupHost n (newResolver (o_cluster o) apps) (indexApps apps) Pc Hc)
    (overlay_start c apps) (overlay_start (mkOcaches Pc Hc errors) apps)) as H. cbv beta in H.
  unfold overlay_run in *. cbv zeta in *. exact (H (conj (conj eq_refl (conj eq_refl eq_refl)) (conj eq_refl eq_refl)) Hh).
Qed.

(** *** The error counter *)

Definition failures {A} (r : result A) : Z := match r with Ok _ => 0 | Err _ => 1 end.

Definition count_errors (n : Z) (c : option Z) : option Z := (λ v, v + n)%Z <$> c.

Lemma count_errors_0 c : count_errors 0 c = c.
Proof. destruct c; simpl; [f_equal; lia|done]. Qed.

(** The counter decides nothing: a step commutes with a change of it. *)
Definition quiet (f : ostate → ostate) : Prop := ∀ st n, f (set_errors st n) = set_errors (f st) n.

Section quiet.
Context {GU : GoUnicode} (o : Overlayer) (res : resolver) (idx : gmap string nat).

Lemma if_quiet (b : bool) f g : quiet f → quiet g → quiet (λ st, if b then f st else g st).
Proof. by destruct b. Qed.

Lemma on_app_quiet key g f : quiet f → quiet (λ st, on_app idx key g (f st)).
Proof. intros H st n. rewrite H. unfold on_app. by destruct (idx !! key). Qed.

Lemma add_edge_quiet e : quiet (λ st, add_edge st e).
Proof. done. Qed.

Lemma id_quiet : quiet (λ st, st).
Proof. done. Qed.

Lemma fold_quiet {A} (f : ostate → A → ostate) l : (∀ x, quiet (λ st, f st x)) → quiet (λ st, foldl f st l).
Proof.
  intros H. induction l as [|x l IH]; [done|]. intros st n. simpl.
  etransitivity; [apply (f_equal (λ s, foldl f s l)), (H x)|apply IH].
Qed.

Ltac quiet := repeat first [apply if_quiet | apply on_app_quiet | apply add_edge_quiet | apply id_quiet].

Lemma externalHost_quiet st n host :
  externalHost o (set_errors st n) host =
  let '(r, st') := externalHost o st host in (r, set_errors st' n).
Proof.
  unfold externalHost, reverseLookup. destruct (_ || _); [done|]. destruct (isPrivateIP host); [done|].
  simpl. destruct (os_ptrCache st) as [m|]; [destruct (m !! host) as [name|]|]; simpl; by destruct (nonempty _).
Qed.

Lemma record_peer_quiet key host : quiet (λ st, record_peer o st key host).
Proof.
  intros st n. unfold record_peer, forwardLookup. simpl. destruct (negb _); [|done].
  destruct (os_hostCache st) as [m|]; [by destruct (m !! host)|done].
Qed.

Lemma service_graph_quiet s : quiet (λ st, service_graph_step res idx st s).
Proof. unfold service_graph_step. destruct (resolveEndpoint res _ _) as [dst kind]. quiet. Qed.

Lemma http_client_quiet s : quiet (λ st, http_client_step o res idx st s).
Proof.
  unfold http_client_step. apply if_quiet; [done|]. apply if_quiet; [done|]. intros st n.
  rewrite externalHost_quiet. destruct (externalHost o st _) as [[host keep] st1].
  rewrite record_peer_quiet. generalize (record_peer o st1 (node_key (resolveClient res (sm_Metric s)))
    (firstNonEmpty [host; stripPort (mget (sm_Metric s) "server_address")])). intros st2.
  destruct (negb keep); [done|]. destruct (resolve res _) as [dst kind]. destruct (negb _); [done|].
  unfold on_app. destruct (idx !! _); by destruct (String.eqb kind kindDatabase), (String.eqb kind kindKafka).
Qed.

Lemma database_quiet winners s : quiet (λ st, database_step o res idx winners st s).
Proof.
  unfold database_step. apply if_quiet; [done|]. apply if_quiet; [done|]. intros st n.
  rewrite externalHost_quiet. destruct (externalHost o st _) as [[host keep] st1].
  destruct (_ && _); [done|]. change (os_peers (set_errors st1 n)) with (os_peers st1).
  destruct (_ && _); [done|]. destruct (String.eqb _ _); [done|].
  unfold on_app. destruct (idx !! _); by destruct (node_External _).
Qed.

Lemma messaging_quiet s : quiet (λ st, messaging_step res idx st s).
Proof. unfold messaging_step. quiet. Qed.

Lemma runtime_quiet s : quiet (λ st, runtime_step res idx st s).
Proof. unfold runtime_step. quiet. Qed.
End quiet.

(** *** Failing queries *)

Definition with_client (o : Overlayer) (client : nat → string → result (list Sample)) : Overlayer :=
  mkOverlayer client (o_cluster o) (o_lookback o) (o_lookupAddr o) (o_lookupHost o).

(** A client whose failing queries come back empty. *)
Definition soft_client (client : nat → string → result (list Sample)) (n : nat) (q : string)
    : result (list Sample) :=
  match client n q with Ok samples => Ok samples | Err _ => Ok [] end.

(** The queries of a round. *)
Definition overlay_queries {GU : GoUnicode} (o : Overlayer) : list string :=
  [serviceGraphQuery o; httpClientQuery o; databaseQuery o; messagingQuery o; runtimeQuery o; trafficQuery o].

Definition failed_queries {GU : GoUnicode} (o : Overlayer) (n : nat) : Z :=
  foldr (λ q e, failures (o_client o n q) + e)%Z 0%Z (overlay_queries o).

Lemma soft_pass client n q (k : list Sample → ostate → ostate) st e :
  (∀ l, quiet (k l)) → k [] st = st →
  match client n q with Err _ => queryFailed (set_errors st e) | Ok l => k l (set_errors st e) end =
  set_errors match soft_client client n q with Err _ => queryFailed st | Ok l => k l st end
    (count_errors (failures (client n q)) e).
Proof.
  intros Hq H0. unfold soft_client. destruct (client n q) as [l|err]; simpl.
  - by rewrite Hq, count_errors_0.
  - rewrite H0. by destruct e.
Qed.

Lemma set_apps_id st : set_apps st (os_apps st) = st.
Proof. by destruct st. Qed.

Section soft.
Context {GU : GoUnicode} (o : Overlayer) (n : nat) (res : resolver) (idx : gmap string nat).
Let o' := with_client o (soft_client (o_client o)).

Lemma applyServiceGraph_soft st e :
  applyServiceGraph o n res idx (set_errors st e) =
  set_errors (applyServiceGraph o' n res idx st) (count_errors (failures (o_client o n (serviceGraphQuery o))) e).
Proof.
  apply (soft_pass (o_client o) n (serviceGraphQuery o) (λ l st, foldl (service_graph_step res idx) st l)); [|done].
  intros l. apply fold_quiet. intros. apply service_graph_quiet.
Qed.

Lemma applyHTTPClient_soft st e :
  applyHTTPClient o n res idx (set_errors st e) =
  set_errors (applyHTTPClient o' n res idx st) (count_errors (failures (o_client o n (httpClientQuery o))) e).
Proof.
  exact (soft_pass (o_client o) n (httpClientQuery o) (λ l st, foldl (http_client_step o res idx) st l) st e
    (λ l, fold_quiet _ _ (http_client_quiet o res idx)) eq_refl).
Qed.

Lemma applyDatabaseMetrics_soft {rt : GoRuntime} st e :
  applyDatabaseMetrics o n res idx (set_errors st e) =
  set_errors (applyDatabaseMetrics o' n res idx st) (count_errors (failures (o_client o n (databaseQuery o))) e).
Proof.
  exact (soft_pass (o_client o) n (databaseQuery o) (λ l st, foldl (database_step o res idx (engineWinners res l)) st l) st e
    (λ l, fold_quiet _ _ (database_quiet o res idx (engineWinners res l))) eq_refl).
Qed.

Lemma applyMessagingMetrics_soft st e :
  applyMessagingMetrics o n res idx (set_errors st e) =
  set_errors (applyMessagingMetrics o' n res idx st) (count_errors (failures (o_client o n (messagingQuery o))) e).
Proof.
  apply (soft_pass (o_client o) n (messagingQuery o) (λ l st, foldl (messaging_step res idx) st l)); [|done].
  intros l. apply fold_quiet. intros. apply messaging_quiet.
Qed.

Lemma applyRuntimeMetrics_soft st e :
  applyRuntimeMetrics o n res idx (set_errors st e) =
  set_errors (applyRuntimeMetrics o' n res idx st) (count_errors (failures (o_client o n (runtimeQuery o))) e).
Proof.
  apply (soft_pass (o_client o) n (runtimeQuery o) (λ l st, foldl (runtime_step res idx) st l)); [|done].
  intros l. apply fold_quiet. intros. apply runtime_quiet.
Qed.

Lemma applyTrafficMetrics_soft {rt : GoRuntime} st e :
  applyTrafficMetrics o n res idx (set_errors st e) =
  set_errors (applyTrafficMetrics o' n res idx st) (count_errors (failures (o_client o n (trafficQuery o))) e).
Proof.
  apply (soft_pass (o_client o) n (trafficQuery o) (λ l st, set_apps st (foldl traffic_set (os_apps st)
    (map_range (foldl (traffic_add res idx) ∅ l))))); [done|].
  simpl. assert (map_range (∅ : gmap nat (spec_float * spec_float)) = []) as ->; [|apply set_apps_id].
  apply Permutation_nil_r. by rewrite map_range_perm, map_to_list_empty.
Qed.
End soft.

(** A failing query leaves what an empty answer leaves, and is counted. *)
Lemma overlay_run_soft {GU : GoUnicode} {rt : GoRuntime} o n c apps :
  overlay_run o n c apps =
  set_errors (overlay_run (with_client o (soft_client (o_client o))) n c apps)
    (count_errors (failed_queries o n) (oc_errors c)).
Proof.
  unfold overlay_run. cbv zeta. set (o' := with_client o _). change (o_cluster o') with (o_cluster o).
  set (res := newResolver (o_cluster o) apps). set (idx := indexApps apps).
  change (applyServiceGraph o n res idx (overlay_start c apps))
    with (applyServiceGraph o n res idx (set_errors (overlay_start c apps) (oc_errors c))).
  rewrite applyServiceGraph_soft, applyHTTPClient_soft, applyDatabaseMetrics_soft, applyMessagingMetrics_soft,
    applyRuntimeMetrics_soft, applyTrafficMetrics_soft.
  f_equal. unfold failed_queries, overlay_queries. destruct (oc_errors c); simpl; [f_equal; lia|done].
Qed.

Lemma overlay_run_errors {GU : GoUnicode} {rt : GoRuntime} o n c apps :
  os_queryErrors (overlay_run o n c apps) = count_errors (failed_queries o n) (oc_errors c).
Proof. by rewrite overlay_run_soft. Qed.

(** C11: the overlay degrades gracefully and reads one answer a name.  Whatever
    queries of a round fail, the edges, the applications and the DNS caches it leaves
    are those of the round in which the failing ones come back empty, and the error
    counter grows by the number of failed queries.  However the resolver changes its
    mind, what was cached, misses included, is kept, and what is new is what the
    resolver answered when it was asked; and the caches left decide all the lookups
    of the round: with them, the same queries give the same edges and applications
    and add nothing to the caches, whatever any other resolver says. *)
Theorem Apply_degrades (GU : GoUnicode) (rt : GoRuntime) (o : Overlayer) (n : nat) (c : ocaches)
    (apps : list ApplicationEntry) :
  let '(edges, apps', c') := Apply o n c apps in
  Apply (with_client o (soft_client (o_client o))) n c apps =
    (edges, apps', mkOcaches (oc_ptr c') (oc_host c') (oc_errors c)) ∧
  oc_errors c' = count_errors (failed_queries o n) (oc_errors c) ∧
  answered (names_of o) (default ∅ (oc_ptr c)) (default ∅ (oc_ptr c')) ∧
  answered (ips_of o) (default ∅ (oc_host c)) (default ∅ (oc_host c')) ∧
  ∀ lookupAddr lookupHost,
    let again := Apply (with_resolver o lookupAddr lookupHost) n c' apps in
    again.1 = (edges, apps') ∧ oc_ptr again.2 = oc_ptr c' ∧ oc_host again.2 = oc_host c'.
Proof.
  unfold Apply. cbn zeta. cbn [oc_ptr oc_host oc_errors fst snd]. split_and!.
  - rewrite (overlay_run_soft o n c apps). simpl. do 2 f_equal.
    pose proof (overlay_run_errors (with_client o (soft_client (o_client o))) n c apps) as H. rewrite H.
    assert (failed_queries (with_client o (soft_client (o_client o))) n = 0%Z) as ->; [|by rewrite count_errors_0].
    unfold failed_queries, overlay_queries. simpl. unfold soft_client. by repeat destruct (o_client o n _).
  - apply overlay_run_errors.
  - apply overlay_run_grows.
  - apply overlay_run_grows.
  - intros lookupAddr lookupHost.
    destruct (overlay_run_replay o n c (os_queryErrors (overlay_run o n c apps)) apps lookupAddr lookupHost)
      as [(Ha & He & _) [HP HH]].
    split_and!; [by rewrite <- Ha, <- He|done|done].
Qed.

(** ** Engine conflicts *)

(** The engine's total is a number, not negative, and no total exceeds it. *)
Definition dominant (byEngine : gmap string spec_float) (eng : string) : Prop :=
  ∃ v, byEngine !! eng = Some v ∧ f64_ge v f64_zero = true ∧
    ∀ eng' v', byEngine !! eng' = Some v' → f64_gt v' v = false.

Definition max_step (max : spec_float) (e : string * spec_float) : spec_float :=
  if f64_gt e.2 max then e.2 else max.

Lemma engine_max_fold {rt : GoRuntime} byEngine :
  engine_max byEngine = foldl max_step f64_zero (map_range byEngine).
Proof.
  unfold engine_max. generalize f64_zero. generalize (map_range byEngine).
  intros l. induction l as [|[e v] l IH]; intros m; [done|]. simpl. apply IH.
Qed.

Lemma rank_le_lt_trans a b c : ¬ rank_lt a b → rank_lt a c → rank_lt b c.
Proof. destruct a as [[??]?], b as [[??]?], c as [[??]?]. unfold rank_lt. simpl. lia. Qed.

Lemma f64_lt_false_rank x y :
  is_nan x = false → is_nan y = false → f64_lt x y = false ↔ ¬ rank_lt (f64_rank x) (f64_rank y).
Proof. intros Hx Hy. rewrite <- (f64_lt_rank x y) by done. by destruct (f64_lt x y). Qed.

Lemma max_step_spec m0 e v :
  is_nan m0 = false →
  let m := max_step m0 (e, v) in
  is_nan m = false ∧ (m = m0 ∨ m = v) ∧ ¬ rank_lt (f64_rank m) (f64_rank m0) ∧
  (is_nan v = false → ¬ rank_lt (f64_rank m) (f64_rank v)).
Proof.
  intros Hm0. cbn zeta. unfold max_step. cbn [snd]. change (f64_gt v m0) with (f64_lt m0 v).
  destruct (f64_lt m0 v) eqn:El.
  - destruct (is_nan v) eqn:Ev.
    { by destruct (f64_lt_nan m0 v (or_intror Ev)) as [E _]; rewrite El in E. }
    apply f64_lt_rank in El; [|done..]. split_and!; [done|by right| |intros _; apply rank_lt_irrefl].
    intros H. eapply rank_lt_irrefl, rank_lt_trans; eassumption.
  - split_and!; [done|by left|apply rank_lt_irrefl|]. intros Ev. by apply f64_lt_false_rank.
Qed.

(** The loop over the totals: the result is not a NaN, is the start value or a
    total, and nothing exceeds it. *)
Lemma max_fold_spec l m0 :
  is_nan m0 = false →
  let m := foldl max_step m0 l in
  is_nan m = false ∧ (m = m0 ∨ ∃ e, (e, m) ∈ l) ∧
  ¬ rank_lt (f64_rank m) (f64_rank m0) ∧
  (∀ e v, (e, v) ∈ l → is_nan v = false → ¬ rank_lt (f64_rank m) (f64_rank v)).
Proof.
  revert m0. induction l as [|[e v] l IH]; intros m0 Hm0; cbn zeta; cbn [foldl].
  { split_and!; [done|by left|apply rank_lt_irrefl|]. by intros ? ? ?%elem_of_nil. }
  destruct (max_step_spec m0 e v Hm0) as (S1 & S2 & S3 & S4).
  set (m1 := max_step m0 (e, v)) in *. destruct (IH m1 S1) as (H1 & H2 & H3 & H4).
  set (m := foldl max_step m1 l) in *.
  assert (∀ r, ¬ rank_lt (f64_rank m1) r → ¬ rank_lt (f64_rank m) r) as Hup.
  { intros r Hr H. apply H3. apply (rank_le_lt_trans) with (b := f64_rank m1) in H as H'; [|done].
    by destruct Hr. }
  split_and!; [done| |by apply Hup|].
  - destruct H2 as [->|[e' ?]]; [|right; exists e'; by right].
    destruct S2 as [->| ->]; [by left|right; exists e; left].
  - intros e' v' [[= -> ->]|Hin]%elem_of_cons Hn; [by apply Hup, S4|by apply (H4 e')].
Qed.

Lemma f64_le_rank x y :
  f64_le x y = true ↔ is_nan x = false ∧ is_nan y = false ∧ ¬ rank_lt (f64_rank y) (f64_rank x).
Proof.
  destruct (is_nan x) eqn:Ex; [|destruct (is_nan y) eqn:Ey].
  - destruct (f64_lt_nan x y (or_introl Ex)) as [_ ->]. naive_solver.
  - destruct (f64_lt_nan x y (or_intror Ey)) as [_ ->]. naive_solver.
  - rewrite f64_le_lt, negb_true_iff, f64_lt_false_rank by done. tauto.
Qed.

Lemma f64_gt_false_rank x y :
  is_nan y = false → f64_gt x y = false ↔ (is_nan x = false → ¬ rank_lt (f64_rank y) (f64_rank x)).
Proof.
  intros Hy. change (f64_gt x y) with (f64_lt y x). destruct (is_nan x) eqn:Ex.
  - destruct (f64_lt_nan y x (or_intror Ex)) as [-> _]. naive_solver.
  - rewrite f64_lt_false_rank by done. tauto.
Qed.

(** What the loop over the totals keeps. *)
Lemma engine_keep_elem (rt : GoRuntime) byEngine eng :
  eng ∈ engine_keep byEngine ↔
  ∃ v, byEngine !! eng = Some v ∧ f64_ge v (engine_max byEngine) = true.
Proof.
  unfold engine_keep. generalize (engine_max byEngine) as mx. intros mx.
  assert (∀ l (s : gset string), eng ∈ foldl (λ keep '(eng, v), if f64_ge v mx then keep ∪ {[eng]} else keep) s l ↔
    eng ∈ s ∨ ∃ v, (eng, v) ∈ l ∧ f64_ge v mx = true) as H.
  { induction l as [|[e v] l IH]; intros s; simpl.
    - setoid_rewrite elem_of_nil. naive_solver.
    - rewrite IH. setoid_rewrite elem_of_cons. destruct (f64_ge v mx) eqn:E.
      + rewrite elem_of_union, elem_of_singleton. split.
        * intros [[?| ->]|(v' & ? & ?)]; [by left|right; exists v; auto|right; exists v'; auto].
        * intros [?|(v' & [[= -> ->]|?] & ?)]; [auto|auto|right; eauto].
      + split; [intros [?|(v' & ? & ?)]; [by left|right; eauto]|].
        intros [?|(v' & [[= -> ->]|?] & ?)]; [by left|congruence|right; eauto]. }
  rewrite (H (map_range byEngine) ∅), elem_of_empty. setoid_rewrite map_range_elem_of. tauto.
Qed.

Lemma engine_keep_spec (rt : GoRuntime) byEngine eng :
  eng ∈ engine_keep byEngine ↔ dominant byEngine eng.
Proof.
  rewrite engine_keep_elem, engine_max_fold.
  destruct (max_fold_spec (map_range byEngine) f64_zero eq_refl) as (H1 & H2 & H3 & H4).
  set (mx := foldl _ _ _) in *. setoid_rewrite map_range_elem_of in H2.
  setoid_rewrite map_range_elem_of in H4. unfold dominant. split.
  - intros (v & Hin & (_ & Ev & Hge)%f64_le_rank). exists v. split; [done|].
    assert (∀ r, ¬ rank_lt (f64_rank mx) r → ¬ rank_lt (f64_rank v) r) as Hup.
    { intros r Hr H. apply Hr. by eapply rank_le_lt_trans. }
    split; [by apply f64_le_rank; split_and!; [..|apply Hup]|].
    intros e' v' Hl. apply f64_gt_false_rank; [done|]. intros Ev'. by eapply Hup, H4.
  - intros (v & Hl & Hz & Hdom). exists v. split; [done|]. apply f64_le_rank in Hz as (_ & Ev & Hz).
    apply f64_le_rank. split_and!; [done..|]. destruct H2 as [->|[e' Hin]]; [done|].
    by apply (Hdom e' mx), f64_gt_false_rank in Hin.
Qed.

(** Some engine is kept exactly when some total is a number that is not negative. *)
Lemma engine_keep_nonempty (rt : GoRuntime) byEngine :
  engine_keep byEngine ≠ ∅ ↔ ∃ eng v, byEngine !! eng = Some v ∧ f64_ge v f64_zero = true.
Proof.
  split.
  - intros (eng & (v & ? & ? & _)%engine_keep_spec)%set_choose_L. by exists eng, v.
  - intros (eng & v & Hl & (_ & Ev & Hz)%f64_le_rank) H.
    pose proof (engine_max_fold byEngine) as Em.
    destruct (max_fold_spec (map_range byEngine) f64_zero eq_refl) as (H1 & H2 & H3 & H4).
    rewrite <- Em in *. setoid_rewrite map_range_elem_of in H2.
    destruct H2 as [E|[e Hin]].
    + assert (eng ∈ engine_keep byEngine) as Hk; [|by rewrite H in Hk; apply elem_of_empty in Hk].
      apply engine_keep_elem. exists v. split; [done|]. rewrite E. by apply f64_le_rank.
    + assert (e ∈ engine_keep byEngine) as Hk; [|by rewrite H in Hk; apply elem_of_empty in Hk].
      apply engine_keep_elem. exists (engine_max byEngine). split; [done|].
      apply f64_le_rank. split_and!; [done..|apply rank_lt_irrefl].
Qed.

(** *** Totals *)

(** The summed value of one engine of one peer, its samples in order. *)
Definition engine_total {GU : GoUnicode} (res : resolver) (samples : list Sample) (key system : string) : option spec_float :=
  match filter (λ s, sample_key res s = key ∧ sample_system s = system) samples with
  | [] => None
  | l => Some (foldl (λ t s, f64_add t (sm_Value s)) f64_zero l)
  end.

Lemma engine_total_snoc {GU : GoUnicode} res samples s key system :
  engine_total res (samples ++ [s]) key system =
  if decide (sample_key res s = key ∧ sample_system s = system)
  then Some (f64_add (default f64_zero (engine_total res samples key system)) (sm_Value s))
  else engine_total res samples key system.
Proof.
  unfold engine_total. rewrite filter_app. destruct (decide _) as [H|H].
  - rewrite (filter_cons_True _ s) by done. rewrite filter_nil.
    destruct (filter _ samples) as [|x l] eqn:E; [done|]. simpl. by rewrite foldl_app.
  - rewrite (filter_cons_False _ s) by done. by rewrite filter_nil, app_nil_r.
Qed.

Lemma engine_totals_lookup {GU : GoUnicode} res samples key system :
  system ≠ EmptyString →
  engine_totals res samples !! key ≫= (λ m, m !! system) = engine_total res samples key system.
Proof.
  intros Hs. induction samples as [|s samples IH] using rev_ind; [done|].
  rewrite engine_total_snoc, <- IH. unfold engine_totals. rewrite foldl_app. simpl.
  fold (engine_totals res samples). generalize (engine_totals res samples). intros totals.
  unfold engine_total_step. destruct (String.eqb_spec (sample_system s) EmptyString) as [E|E].
  { rewrite decide_False; [done|]. intros [_ H]. congruence. }
  destruct (decide (sample_key res s = key)) as [->|Hk].
  - rewrite lookup_insert_eq. simpl. destruct (decide (sample_system s = system)) as [->|Hn].
    + rewrite lookup_insert_eq, decide_True by done. by destruct (totals !! key).
    + rewrite lookup_insert_ne, decide_False by tauto. by destruct (totals !! key).
  - rewrite lookup_insert_ne, decide_False by tauto. done.
Qed.

Lemma engine_totals_nonempty_engine {GU : GoUnicode} res samples key byEngine system v :
  engine_totals res samples !! key = Some byEngine → byEngine !! system = Some v → system ≠ EmptyString.
Proof.
  revert byEngine v. unfold engine_totals. induction samples as [|s samples IH] using rev_ind; [done|].
  intros byEngine v. rewrite foldl_app. simpl. revert IH. generalize (foldl (engine_total_step res) ∅ samples).
  intros totals IH. unfold engine_total_step.
  destruct (String.eqb_spec (sample_system s) EmptyString) as [E|E]; [apply IH|].
  rewrite lookup_insert_Some. intros [[<- <-]|[_ H]]; [|by apply IH].
  rewrite lookup_insert_Some. intros [[<- _]|[_ H]]; [done|].
  destruct (totals !! _) as [m|]; [by eapply IH|done].
Qed.

Lemma engineWinners_lookup {GU : GoUnicode} (rt : GoRuntime) res samples key :
  engineWinners res samples !! key =
  byEngine ← engine_totals res samples !! key;
  if Nat.ltb (size byEngine) 2 then None else Some (engine_keep byEngine).
Proof.
  unfold engineWinners. set (totals := engine_totals res samples).
  set (step := λ (winners : gmap string (gset string)) '(key, byEngine), _).
  assert (∀ (l : list (string * gmap string spec_float)) w, NoDup l.*1 →
    foldl step w l !! key =
    match list_find (λ e, e.1 = key) l with
    | Some (_, (_, byEngine)) => if Nat.ltb (size byEngine) 2 then w !! key else Some (engine_keep byEngine)
    | None => w !! key
    end) as H.
  { induction l as [|[k m] l IH]; intros w Hnd; [done|]. rewrite fmap_cons in Hnd. apply NoDup_cons in Hnd as [Hk Hnd].
    cbn [foldl list_find]. rewrite IH by done. simpl. destruct (decide (k = key)) as [->|Hne].
    - destruct (list_find _ l) as [[i [k' m']]|] eqn:Ef.
      + apply list_find_Some in Ef as (Hl & Hk' & _). simpl in Hk'. subst k'. destruct Hk.
        apply list_elem_of_fmap. exists (key, m'). split; [done|]. by eapply list_elem_of_lookup_2.
      + simpl. destruct (Nat.ltb _ _); [done|]. by rewrite lookup_insert_eq.
    - destruct (list_find _ l) as [[i [k' m']]|]; simpl; destruct (Nat.ltb (size m) 2); try done.
      all: by rewrite lookup_insert_ne. }
  rewrite H by apply map_range_NoDup. rewrite lookup_empty.
  destruct (list_find _ _) as [[i [k m]]|] eqn:Ef.
  - apply list_find_Some in Ef as (Hl & Hk & _). simpl in Hk. subst k.
    apply list_elem_of_lookup_2, map_range_elem_of in Hl. by rewrite Hl.
  - rewrite list_find_None, Forall_forall in Ef. destruct (totals !! key) as [m|] eqn:Et; [|done].
    apply map_range_elem_of in Et. by destruct (Ef (key, m) Et).
Qed.

(** Engine conflicts are settled by evidence.  A peer is reconciled exactly
    when it carries at least two engines; what is kept are the engines whose
    summed sample value is a number, not negative, and exceeded by none (so every
    tied engine is kept, whatever order Go ranges its maps in), and some engine
    is kept exactly when some sum is usable.  A sum adds the values of the
    engine's samples of that workload and peer, in sample order. *)
Theorem engineWinners_spec (GU : GoUnicode) (rt : GoRuntime) (res : resolver) (samples : list Sample) (key : string) :
  (∀ keep, engineWinners res samples !! key = Some keep ↔
    ∃ byEngine, engine_totals res samples !! key = Some byEngine ∧ 2 ≤ size byEngine ∧
      (∀ eng, eng ∈ keep ↔ dominant byEngine eng) ∧
      (keep ≠ ∅ ↔ ∃ eng v, byEngine !! eng = Some v ∧ f64_ge v f64_zero = true)) ∧
  (∀ system, engine_totals res samples !! key ≫= (λ m, m !! system) =
    if String.eqb system EmptyString then None else engine_total res samples key system).
Proof.
  split.
  - intros keep. rewrite engineWinners_lookup, bind_Some. split.
    + intros (m & Hm & H). destruct (Nat.ltb_spec (size m) 2); [done|]. injection H as <-.
      exists m. split_and!; [done|lia|intros; apply engine_keep_spec|apply engine_keep_nonempty].
    + intros (m & Hm & Hsz & Hk & _). exists m. split; [done|].
      destruct (Nat.ltb_spec (size m) 2); [lia|]. f_equal. apply set_eq. intros eng.
      by rewrite Hk, engine_keep_spec.
  - intros system. destruct (String.eqb_spec system EmptyString) as [->|E]; [|by apply engine_totals_lookup].
    destruct (engine_totals res samples !! key) as [m|] eqn:Em; [|done]. simpl.
    destruct (m !! EmptyString) as [v|] eqn:Ev; [|done].
    by destruct (engine_totals_nonempty_engine _ _ _ _ _ _ Em Ev).
Qed.

(** ** Phantom databases

    A database sample of a workload is a phantom when the workload is seen to
    talk to that very peer over HTTP.  Which peers those are is a function of the
    HTTP samples and of what the DNS caches hold at the end of the passes: [P] the
    names of addresses, [H] the addresses of hosts. *)

Section phantoms.
Context {GU : GoUnicode} (P : gmap string string) (H : gmap string (list string)) (res : resolver).

(** The host an HTTP sample names, its address resolved to a name. *)
Definition peer_host (h : Sample) : string :=
  let raw := stripPort ((sm_Metric h)⟦"server_address"⟧) in
  firstNonEmpty [(read_external_host P raw).1; raw].

(** The peers an HTTP sample shows: that host, and its addresses. *)
Definition shown_peers (h : Sample) : list string :=
  peer_host h :: (if isBareIP (peer_host h) then [] else default [] (H !! peer_host h)).

(** An HTTP sample of the workload [appKey]. *)
Definition http_sample_of (appKey : string) (h : Sample) : bool :=
  nonempty ((sm_Metric h)⟦"server_address"⟧) &&
  negb (node_External (resolveClient res (sm_Metric h))) &&
  String.eqb (node_key (resolveClient res (sm_Metric h))) appKey.

Definition http_peer (l : list Sample) (appKey host : string) : bool :=
  nonempty host && existsb (λ h, http_sample_of appKey h && bool_decide (host ∈ shown_peers h)) l.

(** The peer of a database sample: its address, and the name it is shown by. *)
Definition raw_host (s : Sample) : string := stripPort ((sm_Metric s)⟦"server_address"⟧).

Definition shown_host (s : Sample) : string :=
  let '(resolved, keep) := read_external_host P (raw_host s) in if keep then resolved else raw_host s.

(** The engine of a database sample, inferred from the port when it has none. *)
Definition shown_system (s : Sample) : string :=
  let m := sm_Metric s in
  let inferred := default EmptyString (wellKnownPorts !! peerPort m (m⟦"server_address"⟧)) in
  if String.eqb (sample_system s) EmptyString && bool_decide (inferred ∈ databaseSystems)
  then inferred else sample_system s.

(** The edge a database sample gives, from the samples and the caches alone. *)
Definition database_edge (l : list Sample) (winners : gmap string (gset string)) (s : Sample)
    : option DependencyEdge :=
  let dbName := (sm_Metric s)⟦"db_name"⟧ in
  let src := resolveClient res (sm_Metric s) in
  let target := firstNonEmpty [shown_host s; shown_system s] in
  if engine_lost res winners s || isOTLPCollectorPeer (raw_host s) ||
     (negb (read_external_host P (raw_host s)).2 && String.eqb dbName EmptyString &&
       String.eqb (shown_system s) EmptyString) ||
     (negb (node_External src) &&
       (http_peer l (node_key src) (raw_host s) || http_peer l (node_key src) (shown_host s))) ||
     String.eqb target EmptyString
  then None
  else Some (mkDependencyEdge src (externalNode target) kindDatabase originMetrics dbName).
End phantoms.

Section phantom_lemmas.
Context {GU : GoUnicode} (o : Overlayer) (res : resolver) (idx : gmap string nat).

Lemma peers_has_add c k h k' h' :
  peers_has (peers_add c k h) k' h' =
  peers_has c k' h' || nonempty h' && (String.eqb k k' && String.eqb h h').
Proof.
  unfold peers_has, peers_add, nonempty. destruct (String.eqb_spec h' EmptyString) as [->|H']; [done|].
  simpl. destruct (String.eqb_spec h EmptyString) as [->|H].
  - destruct (String.eqb_spec EmptyString h'); [congruence|]. by rewrite andb_false_r, orb_false_r.
  - destruct (String.eqb_spec k k') as [->|Hk].
    + rewrite lookup_insert_eq. simpl.
      destruct (String.eqb_spec h h'); repeat case_bool_decide; set_solver.
    + rewrite lookup_insert_ne by done. by rewrite orb_false_r.
Qed.

Lemma peers_has_fold c k ips k' h' :
  peers_has (foldl (λ peers ip, peers_add peers k ip) c ips) k' h' =
  peers_has c k' h' || nonempty h' && (String.eqb k k' && bool_decide (h' ∈ ips)).
Proof.
  revert c. induction ips as [|ip ips IH]; intros c; cbn [foldl].
  { by rewrite (bool_decide_eq_false_2 (h' ∈ [])), !andb_false_r, orb_false_r by set_solver. }
  rewrite IH, peers_has_add, <- orb_assoc, <- !andb_orb_distrib_r. do 3 f_equal.
  destruct (String.eqb_spec ip h'); repeat case_bool_decide; set_solver.
Qed.

Lemma record_peer_has H st k host k' h' :
  addrs (record_peer o st k host) ⊆ H →
  peers_has (os_peers (record_peer o st k host)) k' h' =
  peers_has (os_peers st) k' h' || nonempty h' && (String.eqb k k' &&
    bool_decide (h' ∈ host :: (if isBareIP host then [] else default [] (H !! host)))).
Proof.
  unfold record_peer. set (st1 := set_peers st _).
  destruct (isBareIP host) eqn:Eb; simpl.
  - intros _. rewrite peers_has_add. do 3 f_equal.
    destruct (String.eqb_spec host h') as [->|]; case_bool_decide; set_solver.
  - pose proof (forwardLookup_frame o st1 host) as (_ & _ & F3).
    pose proof (forwardLookup_spec o st1 host) as Hl.
    destruct (forwardLookup o st1 host) as [ips st2]. cbn [fst snd] in *. destruct Hl as (_ & Hl & _).
    intros Hs. change (addrs st2 ⊆ H) in Hs. rewrite (lookup_weaken _ _ _ _ Hl Hs). simpl.
    rewrite peers_has_fold, F3. simpl.
    rewrite peers_has_add, <- orb_assoc, <- !andb_orb_distrib_r. do 3 f_equal.
    destruct (String.eqb_spec host h'); repeat case_bool_decide; set_solver.
Qed.

(** Peers are left alone by what a step does after its lookups. *)
Lemma on_app_peers key f st : os_peers (on_app idx key f st) = os_peers st.
Proof. unfold on_app. by destruct (idx !! key). Qed.

Lemma http_client_has P H st h k host :
  ptrs (http_client_step o res idx st h) ⊆ P → addrs (http_client_step o res idx st h) ⊆ H →
  peers_has (os_peers (http_client_step o res idx st h)) k host =
  peers_has (os_peers st) k host ||
    nonempty host && (http_sample_of res k h && bool_decide (host ∈ shown_peers P H h)).
Proof.
  unfold http_client_step, http_sample_of, shown_peers, peer_host.
  set (addr := mget (sm_Metric h) "server_address"). unfold nonempty at 2.
  destruct (String.eqb addr EmptyString); cbn [negb andb]; [by rewrite andb_false_r, orb_false_r|].
  set (src := resolveClient res (sm_Metric h)).
  destruct (node_External src); cbn [negb andb]; [by rewrite andb_false_r, orb_false_r|].
  pose proof (externalHost_frame o st (stripPort addr)) as F.
  pose proof (externalHost_read o P st (stripPort addr)) as Er.
  destruct (externalHost o st (stripPort addr)) as [[hh keep] st1]. cbn [fst snd] in *.
  destruct F as (_ & _ & <-). 
  pose proof (record_peer_grows o st1 (node_key src) (firstNonEmpty [hh; stripPort addr])) as [[Hg _] _].
  pose proof (record_peer_has H st1 (node_key src) (firstNonEmpty [hh; stripPort addr]) k host) as Hr.
  set (st2 := record_peer o st1 _ _) in *. clearbody st2. 
  match goal with |- ptrs ?x ⊆ _ → _ => set (st3 := x) end.
  assert (kept st2 st3 ∧ os_peers st3 = os_peers st2) as [[K1 K2] ->].
  { subst st3. destruct (resolve res _) as [dst kind]. split; [kept|].
    destruct (negb keep); [done|]. destruct (negb _); [done|].
    destruct (String.eqb kind kindDatabase); [by rewrite on_app_peers|].
    destruct (String.eqb kind kindKafka); [by rewrite on_app_peers|done]. }
  unfold ptrs, addrs in *. rewrite K1, K2. intros HP HH. rewrite Hr by done.
  rewrite <- Er by (by etransitivity). done.
Qed.

(** The HTTP pass indexes exactly the peers its samples show. *)
Lemma http_pass_peers P H l st k host :
  ptrs (foldl (http_client_step o res idx) st l) ⊆ P → addrs (foldl (http_client_step o res idx) st l) ⊆ H →
  peers_has (os_peers (foldl (http_client_step o res idx) st l)) k host =
  peers_has (os_peers st) k host || http_peer P H res l k host.
Proof.
  revert st. induction l as [|h l IH]; intros st HP HH; unfold http_peer in *; simpl in *.
  { by rewrite andb_false_r, orb_false_r. }
  rewrite IH by done.
  pose proof (fold_within (http_client_step o res idx) l (http_client_step o res idx st h)
    (λ st s, grows_within _ _ _ (http_client_grows o res idx st s))) as [G1 G2].
  rewrite (http_client_has P H) by (by etransitivity). by rewrite <- orb_assoc, <- andb_orb_distrib_r.
Qed.

Definition edge_opt (e : edgeSet) (edge : option DependencyEdge) : edgeSet :=
  match edge with Some edge => edge_add e edge | None => e end.

Lemma database_step_read P H l winners st s :
  (∀ k h, peers_has (os_peers st) k h = http_peer P H res l k h) →
  ptrs (database_step o res idx winners st s) ⊆ P →
  let st' := database_step o res idx winners st s in
  os_edges st' = edge_opt (os_edges st) (database_edge P H res l winners s) ∧ os_peers st' = os_peers st.
Proof.
  intros Hp. cbn zeta. unfold database_step, database_edge, shown_host. fold (raw_host s).
  set (port := peerPort (sm_Metric s) (mget (sm_Metric s) "server_address")).
  set (system := if String.eqb (sample_system s) EmptyString then _ else _).
  assert (shown_system s = system) as ->.
  { unfold system, shown_system. fold port. destruct (String.eqb_spec (sample_system s) EmptyString) as [E|E]; [|done].
    destruct (wellKnownPorts !! port) as [sys|] eqn:Ew; simpl; by destruct (bool_decide _). }
  destruct (engine_lost res winners s); [done|]. destruct (isOTLPCollectorPeer (raw_host s)); [done|].
  pose proof (externalHost_frame o st (raw_host s)) as F.
  pose proof (externalHost_read o P st (raw_host s)) as Er.
  destruct (externalHost o st (raw_host s)) as [[hh keep] st1]. cbn [fst snd orb] in *. destruct F as (_ & Fe & Fp).
  match goal with |- ptrs ?x ⊆ _ → _ => set (st3 := x) end.
  assert (kept st1 st3) as [K1 _] by (subst st3; kept). unfold ptrs in *. rewrite K1. intros HP.
  rewrite <- Er by done. cbn [snd]. clear K1. subst st3.
  destruct (negb keep && _ && _); [by rewrite ?Fe, ?Fp|]. cbn [orb].
  rewrite Fp, !Hp. destruct (negb (node_External _) && _); [by rewrite ?Fe, ?Fp|]. cbn [orb].
  destruct (String.eqb (firstNonEmpty _) EmptyString); [by rewrite ?Fe, ?Fp|].
  destruct (node_External _); [by simpl; rewrite ?Fe, ?Fp|]. unfold on_app.
  destruct (idx !! _); simpl; by rewrite ?Fe, ?Fp.
Qed.

Lemma database_pass_read P H l winners ds st :
  (∀ k h, peers_has (os_peers st) k h = http_peer P H res l k h) →
  ptrs (foldl (database_step o res idx winners) st ds) ⊆ P →
  os_edges (foldl (database_step o res idx winners) st ds) =
  foldl edge_opt (os_edges st) (database_edge P H res l winners <$> ds).
Proof.
  revert st. induction ds as [|s ds IH]; intros st Hp HP; [done|]. simpl in *.
  pose proof (fold_within (database_step o res idx winners) ds (database_step o res idx winners st s)
    (λ st s, grows_within _ _ _ (database_grows o res idx winners st s))) as [G1 _].
  destruct (database_step_read P H l winners st s Hp) as [E1 E2]; [by etransitivity|].
  rewrite IH; [by rewrite E1| |done]. intros k h. by rewrite E2.
Qed.
Lemma http_peer_intro P H l k h host :
  h ∈ l → http_sample_of res k h = true → host ≠ EmptyString → host ∈ shown_peers P H h →
  http_peer P H res l k host = true.
Proof.
  intros Hl Hs Hn Hh. unfold http_peer, nonempty. apply andb_true_iff. split.
  - by destruct (String.eqb_spec host EmptyString).
  - apply existsb_exists. exists h. rewrite Hs, bool_decide_eq_true_2 by done. split; [|done]. by apply list_elem_of_In.
Qed.

(** C10: database evidence refines a function of the samples and of what the DNS
    caches hold.  After the HTTP pass over samples [l] from an empty peer index, the
    database pass adds, sample by sample, exactly the edges [database_edge] gives,
    read from the caches the passes leave: those held before, stale answers and
    misses included, and for the rest what the resolver answered when asked.  No
    series of a peer the same workload reaches over HTTP becomes a database, whether
    that peer is seen by its host or by an address its host resolved to; and a series
    of any other peer gives what it gives without the HTTP samples. *)
Theorem database_pass_refines (winners : gmap string (gset string)) (l ds : list Sample) (st : ostate) :
  os_peers st = ∅ →
  let http := foldl (http_client_step o res idx) st l in
  let final := foldl (database_step o res idx winners) http ds in
  let P := ptrs final in
  let H := addrs final in
  grows o st final ∧
  os_edges final = foldl edge_opt (os_edges http) (database_edge P H res l winners <$> ds) ∧
  ∀ s, node_External (resolveClient res (sm_Metric s)) = false →
    let key := node_key (resolveClient res (sm_Metric s)) in
    (http_peer P H res l key (raw_host s) = true ∨ http_peer P H res l key (shown_host P s) = true →
     database_edge P H res l winners s = None) ∧
    (∀ h, h ∈ l → http_sample_of res key h = true → isBareIP (peer_host P h) = false →
       raw_host s ≠ EmptyString → raw_host s ∈ default [] (H !! peer_host P h) →
       database_edge P H res l winners s = None) ∧
    (http_peer P H res l key (raw_host s) = false → http_peer P H res l key (shown_host P s) = false →
     database_edge P H res l winners s = database_edge P H res [] winners s).
Proof.
  intros H0. cbn zeta. set (http := foldl _ st l). set (final := foldl _ http ds).
  assert (grows o http final) as Gd by (apply fold_grows; intros; apply database_grows).
  assert (grows o st http) as Gh by (apply fold_grows; intros; apply http_client_grows).
  split; [by etransitivity|]. split.
  - apply database_pass_read; [|done]. intros k h.
    destruct (grows_within _ _ _ Gd) as [HP HH].
    etransitivity; [exact (http_pass_peers (ptrs final) (addrs final) l st k h HP HH)|]. rewrite H0.
    unfold peers_has. destruct (String.eqb_spec h EmptyString); [done|]. rewrite lookup_empty. simpl.
    by rewrite bool_decide_eq_false_2 by set_solver.
  - generalize (ptrs final) (addrs final). intros P H s Hi. 
    assert (http_peer P H res l (node_key (resolveClient res (sm_Metric s))) (raw_host s) = true ∨
      http_peer P H res l (node_key (resolveClient res (sm_Metric s))) (shown_host P s) = true →
      database_edge P H res l winners s = None) as Hsome.
    { intros Hp. unfold database_edge. rewrite Hi.
      destruct Hp as [-> | ->]; cbn [negb]; by rewrite ?orb_true_l, ?orb_true_r, ?andb_true_l, ?orb_true_r, ?orb_true_l. }
    split; [exact Hsome|]. split.
    + intros h Hl Hs Hb Hn Hr. apply Hsome. left. eapply http_peer_intro; [done..|].
      unfold shown_peers. rewrite Hb. by right.
    + intros E1 E2. unfold database_edge. rewrite E1, E2. unfold http_peer. simpl. by rewrite !andb_false_r.
Qed.
End phantom_lemmas.

(** ** Witnesses *)

Definition demo_sample (labels : list (string * string)) : Sample :=
  mkSample (Some (list_to_map labels)) (f64_of_Z 1).

(** [cap-a/web] calls an API over HTTP; the same peer shows up as a database by
    its address, beside a real one. *)
Definition demo_http : list Sample :=
  [demo_sample [("service_name", "web"); ("k8s_namespace_name", "cap-a");
     ("server_address", "api.example.com"); ("server_port", "443")]].

Definition demo_db : list Sample :=
  [demo_sample [("service_name", "web"); ("k8s_namespace_name", "cap-a");
     ("server_address", "203.0.113.7"); ("db_system", "postgresql")];
   demo_sample [("service_name", "web"); ("k8s_namespace_name", "cap-a");
     ("server_address", "orders.rds.example.com"); ("db_system", "postgresql"); ("db_name", "orders")]].

Definition demo_graph : list Sample :=
  [demo_sample [("client", "web"); ("server", "api"); ("client_k8s_namespace_name", "cap-a");
     ("server_k8s_namespace_name", "cap-a")]].

(** The host of the API resolves once; nothing resolves later. *)
Definition demo_overlayer : Overlayer :=
  let o := NewOverlayer (λ _ _, Err EmptyString) "prod" 0 (λ _ _, []) (λ _ _, []) in
  NewOverlayer (λ _ q,
    if String.eqb q (serviceGraphQuery (GU := demo_unicode) o) then Ok demo_graph
    else if String.eqb q (httpClientQuery (GU := demo_unicode) o) then Ok demo_http
    else if String.eqb q (databaseQuery (GU := demo_unicode) o) then Ok demo_db
    else Err "timeout") "prod" 0 (λ _ _, []) (λ n _, if Nat.eqb n 0 then ["203.0.113.7"] else []).

Definition demo_overlay_from (c : ocaches) : list DependencyEdge * list ApplicationEntry * ocaches :=
  Apply (GU := demo_unicode) (rt := insertion_runtime) demo_overlayer 0 c demo_tapps.

Definition demo_overlay : list DependencyEdge * list ApplicationEntry * ocaches :=
  demo_overlay_from (mkOcaches None None (Some 0%Z)).

Definition demo_edges (edges : list DependencyEdge) : list (string * string * string) :=
  (λ e, (node_Service (edge_Source e), node_Service (edge_Target e), edge_Type e)) <$> edges.

Example demo_overlay_edges :
  demo_edges demo_overlay.1.1 =
  [("web", "api", "service"); ("web", "api.example.com", "service");
   ("web", "orders.rds.example.com", "database")] ∧
  oc_errors demo_overlay.2 = Some 3%Z.
Proof. vm_compute. done. Qed.

(** A miss cached earlier lets the phantom through, by its address. *)
Example demo_stale_edges :
  demo_edges (demo_overlay_from (mkOcaches None (Some {[ "api.example.com" := [] ]}) None)).1.1 =
  [("web", "api", "service"); ("web", "api.example.com", "service"); ("web", "203.0.113.7", "database");
   ("web", "orders.rds.example.com", "database")].
Proof. vm_compute. done. Qed.

Lemma Apply_edges_witness :
  Forall (overlay_edge_ok "prod" demo_tapps) demo_overlay.1.1 ∧ length demo_overlay.1.1 = 3.
Proof.
  split; [|vm_compute; reflexivity].
  apply (Apply_edges demo_unicode insertion_runtime demo_overlayer 0 (mkOcaches None None (Some 0%Z))
    demo_tapps demo_tapps_named).
Defined.

Lemma Apply_apps_witness :
  Forall refs_ok demo_overlay.1.2 ∧
  mjoin ((λ app, db_Name <$> app_Databases app) <$> demo_overlay.1.2) = ["orders"].
Proof.
  split; [|vm_compute; reflexivity].
  apply (Apply_apps demo_unicode insertion_runtime demo_overlayer 0 (mkOcaches None None (Some 0%Z))
    demo_tapps).
  repeat constructor.
Defined.

Lemma Apply_degrades_witness :
  demo_overlay.1.1 =
    (Apply (GU := demo_unicode) (rt := insertion_runtime)
       (with_client demo_overlayer (soft_client (o_client demo_overlayer))) 0
       (mkOcaches None None (Some 0%Z)) demo_tapps).1.1 ∧
  oc_errors demo_overlay.2 = Some 3%Z ∧ (demo_overlay_from demo_overlay.2).1 = demo_overlay.1.
Proof.
  pose proof (Apply_degrades demo_unicode insertion_runtime demo_overlayer 0 (mkOcaches None None (Some 0%Z))
    demo_tapps) as H.
  unfold demo_overlay, demo_overlay_from.
  destruct (Apply demo_overlayer 0 (mkOcaches None None (Some 0%Z)) demo_tapps) as [[edges apps] c].
  destruct H as (He & Hn & _ & _ & Ha).
  split; [|split].
  - rewrite He. reflexivity.
  - simpl. rewrite Hn. vm_compute. reflexivity.
  - exact (proj1 (Ha (o_lookupAddr demo_overlayer) (o_lookupHost demo_overlayer))).
Defined.

(** The samples of the two passes, from cold caches. *)
Definition demo_passes : ostate * ostate :=
  let res := newResolver "prod" demo_tapps in
  let idx := indexApps demo_tapps in
  let http := foldl (http_client_step (GU := demo_unicode) demo_overlayer res idx)
                (overlay_start (mkOcaches None None None) demo_tapps) demo_http in
  (http, foldl (database_step (GU := demo_unicode) demo_overlayer res idx ∅) http demo_db).

Definition demo_database_edge (s : Sample) : option DependencyEdge :=
  database_edge (GU := demo_unicode) (ptrs demo_passes.2) (addrs demo_passes.2) (newResolver "prod" demo_tapps)
    demo_http ∅ s.

Lemma database_pass_refines_witness :
  os_edges demo_passes.2 = foldl edge_opt (os_edges demo_passes.1) (demo_database_edge <$> demo_db) ∧
  (λ s, edge_Target <$> demo_database_edge s) <$> demo_db =
    [None; Some (externalNode "orders.rds.example.com")].
Proof.
  split; [|vm_compute; reflexivity].
  exact (proj1 (proj2 (database_pass_refines (GU := demo_unicode) demo_overlayer (newResolver "prod" demo_tapps)
    (indexApps demo_tapps) ∅ demo_http demo_db (overlay_start (mkOcaches None None None) demo_tapps) eq_refl))).
Defined.
