(* ===== verification/Collector.v ===== *)
(** * The collector ([internal/collector/collector.go])

    A cycle turns a Kubernetes snapshot into a catalog: the ingress indexes, the
    matching of Services to workloads, the orphan Services, the declared
    network-policy edges, the statistics, and [Collect], which composes the other
    components. *)

From S2P Require Export Gitops Metadata Swagger Overlay.
From Stdlib Require Import Ascii.

(** ** Helpers *)

Definition appendUnique (slice : list string) (value : string) : list string :=
  append_unique slice value.

Definition route_dedup_key (r : RouteRef) : string :=
  route_Name r +:+ "|" +:+ Join (route_Hosts r) "," +:+ "|" +:+ Join (route_PathPrefixes r) ",".

Definition appendRouteUnique (routes : list RouteRef) (r : RouteRef) : list RouteRef :=
  append_unless (λ existing, String.eqb (route_dedup_key existing) (route_dedup_key r)) routes r.

Definition selectorMatches {rt : GoRuntime} (selector labels : smap) : bool :=
  if Nat.eqb (mlen selector) 0 || Nat.eqb (mlen labels) 0 then false
  else forallb (λ '(k, v), String.eqb (labels⟦k⟧) v) (map_range (default ∅ selector)).

Definition podSelectorMatches {rt : GoRuntime} (selector labels : smap) : bool :=
  if Nat.eqb (mlen selector) 0 then true else selectorMatches selector labels.

Definition splitImageTag (image : string) : string * string :=
  if String.eqb image EmptyString then (EmptyString, EmptyString)
  else
    match Cut image "@" with
    | Some (repo, digest) => (repo, digest)
    | None =>
        match CutLast image ":" with
        | Some (repo, tag) =>
            if Contains (":" +:+ tag) "/" then (image, EmptyString) else (repo, tag)
        | None => (image, EmptyString)
        end
    end.

Definition container_port (p : ContainerPortInfo) : ContainerPort :=
  mkContainerPort (cpi_Name p) (cpi_ContainerPort p) (cpi_Protocol p).

Definition containersFrom (specs : list ContainerSpec) : list ContainerInfo :=
  (λ s,
    let '(image, tag) := splitImageTag (cs_Image s) in
    mkContainerInfo (cs_Name s) image tag (container_port <$> cs_Ports s)
      (mkResourceInfo (cs_RequestsCPU s) (cs_RequestsMemory s) (cs_LimitsCPU s) (cs_LimitsMemory s)))
  <$> specs.

Definition service_port (p : ServicePortInfo) : ServicePort :=
  mkServicePort (spi_Name p) (spi_Port p) (spi_TargetPort p) (spi_Protocol p).

(** The two indexes by "namespace/service". *)
Record ingress_index := mkIngressIndex {
  hostsByService : gmap string (list string);
  routesByService : gmap string (list RouteRef);
}.

Definition service_key (ns svc : string) : string := ns +:+ "/" +:+ svc.

Definition serviceRefFrom (svc : ServiceInfo) (idx : ingress_index) : ServiceRef :=
  let key := service_key (si_Namespace svc) (si_Name svc) in
  mkServiceRef (si_Name svc) (si_Type svc) (si_ClusterIP svc) (service_port <$> si_Ports svc)
    (default [] (hostsByService idx !! key)) (default [] (routesByService idx !! key)) [] [].

(** ** The ingress indexes *)

Definition add_host (idx : ingress_index) (key h : string) : ingress_index :=
  mkIngressIndex
    (<[key := appendUnique (default [] (hostsByService idx !! key)) h]> (hostsByService idx))
    (routesByService idx).

Definition add_route (idx : ingress_index) (key : string) (r : RouteRef) : ingress_index :=
  mkIngressIndex (hostsByService idx)
    (<[key := appendRouteUnique (default [] (routesByService idx !! key)) r]> (routesByService idx)).

Definition ingress_route_ref (ing : IngressInfo) (p : IngressPath) : RouteRef :=
  mkRouteRef (ii_Name ing) "Ingress" [ip_Host p]
    (if nonempty (ip_Path p) then [ip_Path p] else []) [] false (ii_Annotations ing).

Definition ingress_step {rt : GoRuntime} (idx : ingress_index) (ing : IngressInfo) : ingress_index :=
  let key svc := service_key (ii_Namespace ing) svc in
  let idx := foldl (λ idx '(svc, hosts), foldl (λ idx h, add_host idx (key svc) h) idx hosts)
               idx (map_range (ii_ServiceHosts ing)) in
  foldl (λ idx '(svc, paths),
      foldl (λ idx p, add_route idx (key svc) (ingress_route_ref ing p)) idx paths)
    idx (map_range (ii_ServiceRoutes ing)).

Definition ir_route_ref (ir : IngressRouteInfo) (rule : IngressRouteRule) : RouteRef :=
  mkRouteRef (ir_Name ir) "IngressRoute" (irr_Hosts rule) (irr_PathPrefixes rule)
    (ir_EntryPoints ir) (ir_TLS ir) (ir_Annotations ir).

Definition ir_service_step (ir : IngressRouteInfo) (rule : IngressRouteRule)
    (idx : ingress_index) (svc : string) : ingress_index :=
  let key := service_key (ir_Namespace ir) svc in
  let idx := foldl (λ idx h, add_host idx key h) idx (irr_Hosts rule) in
  add_route idx key (ir_route_ref ir rule).

Definition ingressroute_index_step (idx : ingress_index) (ir : IngressRouteInfo) : ingress_index :=
  foldl (λ idx rule, foldl (ir_service_step ir rule) idx (irr_Services rule)) idx (ir_Routes ir).

(** ** Applications *)

Record svcRecord := mkSvcRecord { rec_info : ServiceInfo; rec_claimed : bool }.

(** [m[k] = append(m[k], v)]. *)
Definition map_append {A} (m : gmap string (list A)) (k : string) (v : A) : gmap string (list A) :=
  <[k := default [] (m !! k) ++ [v]]> m.

Definition index_services (svcs : list ServiceInfo) : gmap string (list svcRecord) :=
  foldl (λ m svc, map_append m (si_Namespace svc) (mkSvcRecord svc false)) ∅ svcs.

Definition app_less (a b : ApplicationEntry) : bool :=
  if negb (String.eqb (app_Namespace a) (app_Namespace b))
  then String.ltb (app_Namespace a) (app_Namespace b)
  else String.ltb (app_Name a) (app_Name b).

Section applications.
Context (cluster : string) (idx : ingress_index) (capabilityByNamespace : gmap string string)
  (resolver : Resolver).

Definition capability (ns : string) : string := default EmptyString (capabilityByNamespace !! ns).

(** The loop over the namespace's records; a record is marked through its pointer. *)
Definition claim_step {rt : GoRuntime} (podLabels : smap) (st : list svcRecord * list ServiceRef)
    (rec : svcRecord) : list svcRecord * list ServiceRef :=
  let '(recs, services) := st in
  if Nat.eqb (mlen (si_Selector (rec_info rec))) 0 then (recs ++ [rec], services)
  else if selectorMatches (si_Selector (rec_info rec)) podLabels then
    (recs ++ [mkSvcRecord (rec_info rec) true], services ++ [serviceRefFrom (rec_info rec) idx])
  else (recs ++ [rec], services).

Definition pod_labels (w : WorkloadInfo) : smap :=
  match wl_PodLabels w with None => wl_Selector w | Some _ => wl_PodLabels w end.

Definition workload_entry {rt : GoRuntime} (w : WorkloadInfo) (services : list ServiceRef)
    : ApplicationEntry :=
  let '(source, repoURLs) := Resolve resolver (wl_Namespace w) (wl_Labels w) (wl_Annotations w) in
  mkApplicationEntry cluster (wl_Namespace w) (wl_Name w) (wl_Kind w) (capability (wl_Namespace w))
    (wl_Replicas w) (wl_ReadyReplicas w) (containersFrom (wl_Containers w)) repoURLs source
    EmptyString EmptyString (metadata_From (wl_Annotations w)) services [] [] EmptyString
    f64_zero f64_zero (wl_Labels w) (wl_Annotations w).

Definition workload_step {rt : GoRuntime}
    (st : gmap string (list svcRecord) * list ApplicationEntry) (w : WorkloadInfo) :=
  let '(servicesByNamespace, apps) := st in
  match servicesByNamespace !! wl_Namespace w with
  | None => (servicesByNamespace, apps ++ [workload_entry w []])
  | Some recs =>
      let '(recs, services) := foldl (claim_step (pod_labels w)) ([], []) recs in
      (<[wl_Namespace w := recs]> servicesByNamespace, apps ++ [workload_entry w services])
  end.

Definition orphan_entry (ns : string) (svc : ServiceInfo) : ApplicationEntry :=
  mkApplicationEntry cluster ns (si_Name svc) "Service" (capability ns) 0 0 [] [] None
    EmptyString EmptyString None [serviceRefFrom svc idx] [] [] EmptyString f64_zero f64_zero None None.

Definition orphan_step (apps : list ApplicationEntry) (e : string * list svcRecord)
    : list ApplicationEntry :=
  let '(ns, recs) := e in
  foldl (λ apps rec, if rec_claimed rec then apps else apps ++ [orphan_entry ns (rec_info rec)])
    apps recs.
End applications.

(** [rts i] ranges the maps of the [i]-th ingress and of the [i]-th workload;
    [rt] ranges the service records and sorts. *)
Definition buildIndex (rts : nat → GoRuntime) (s : K8sSnapshot) : ingress_index :=
  let idx := foldl (λ idx '(i, ing), ingress_step (rt := rts i) idx ing) (mkIngressIndex ∅ ∅)
               (imap pair (snap_Ingresses s)) in
  foldl ingressroute_index_step idx (snap_IngressRoutes s).

Definition buildApplications (rts : nat → GoRuntime) (rt : GoRuntime) (cluster : string)
    (s : K8sSnapshot) (capabilityByNamespace : gmap string string) (resolver : Resolver)
    : list ApplicationEntry :=
  let idx := buildIndex rts s in
  let '(servicesByNamespace, apps) :=
    foldl (λ st '(i, w), workload_step cluster idx capabilityByNamespace resolver (rt := rts i) st w)
      (index_services (snap_Services s), []) (imap pair (snap_Workloads s)) in
  let apps := foldl (orphan_step cluster idx capabilityByNamespace) apps (map_range servicesByNamespace) in
  sort_slice app_less apps.

(** ** Network policies *)

Definition netpol_target_step (cluster : string) (np : NetworkPolicyInfo) (w : WorkloadInfo)
    (st : gset string * list DependencyEdge) (target : string) : gset string * list DependencyEdge :=
  let '(seen, edges) := st in
  let key := npi_Namespace np +:+ "/" +:+ wl_Name w +:+ "|" +:+ target in
  if bool_decide (key ∈ seen) then st
  else (seen ∪ {[key]},
        edges ++ [mkDependencyEdge (mkDependencyNode cluster (npi_Namespace np) (wl_Name w) false)
                    (mkDependencyNode EmptyString EmptyString target true)
                    "network_policy" "network_policy" (npi_Name np)]).

Definition netpol_workload_step {rt : GoRuntime} (cluster : string) (np : NetworkPolicyInfo)
    (st : gset string * list DependencyEdge) (w : WorkloadInfo) : gset string * list DependencyEdge :=
  if negb (podSelectorMatches (npi_PodSelector np) (wl_PodLabels w)) then st
  else foldl (netpol_target_step cluster np w) st (npi_EgressTargets np).

Definition netpol_step {rt : GoRuntime} (cluster : string)
    (workloadsByNamespace : gmap string (list WorkloadInfo))
    (st : gset string * list DependencyEdge) (np : NetworkPolicyInfo) : gset string * list DependencyEdge :=
  if Nat.eqb (length (npi_EgressTargets np)) 0 then st
  else foldl (netpol_workload_step cluster np) st
         (default [] (workloadsByNamespace !! npi_Namespace np)).

Definition buildNetworkPolicyEdges {rt : GoRuntime} (cluster : string) (s : K8sSnapshot)
    : list DependencyEdge :=
  if Nat.eqb (length (snap_NetPolicies s)) 0 then []
  else
    let workloadsByNamespace :=
      foldl (λ m w, map_append m (wl_Namespace w) w) ∅ (snap_Workloads s) in
    (foldl (netpol_step cluster workloadsByNamespace) (∅, []) (snap_NetPolicies s)).2.

(** ** Namespaces and statistics *)

Definition namespace_entry (cluster : string) (ns : NamespaceInfo) : NamespaceEntry :=
  mkNamespaceEntry cluster (nsi_Name ns) (nsi_CapabilityID ns) (nsi_AWSAccountID ns)
    (nsi_ContextID ns) (nsi_CostCentre ns) (nsi_Labels ns).

Definition buildNamespaces {rt : GoRuntime} (cluster : string) (s : K8sSnapshot) : list NamespaceEntry :=
  sort_slice (less_by nse_Name) (namespace_entry cluster <$> snap_Namespaces s).

Definition applicationHasDocs (app : ApplicationEntry) : bool := services_have_docs (app_Services app).

Definition stats_step (st : CatalogStats) (app : ApplicationEntry) : CatalogStats :=
  mkCatalogStats (stats_TotalApplications st)
    (stats_CapabilityOwnedApplications st + if nonempty (app_CapabilityID app) then 1 else 0)
    (stats_ApplicationsWithDocs st + if applicationHasDocs app then 1 else 0)
    (stats_ApplicationsWithDeploySource st +
       match app_DeploymentSource app with Some _ => 1 | None => 0 end)
    (stats_TotalDependencies st) (stats_CollectionDurationMs st).

Definition computeStats (cat : Catalog) (duration : Z) : CatalogStats :=
  foldl stats_step
    (mkCatalogStats (Z.of_nat (length (cat_Applications cat))) 0 0 0
       (Z.of_nat (length (cat_Dependencies cat))) (Z.quot duration (10 ^ 6)))
    (cat_Applications cat).

(** ** A cycle *)

(** A nil overlayer disables its pass. *)
Record Collector := mkCollector {
  col_cluster : string;
  col_overlayer : option Overlayer;
}.

(** What a cycle changes behind the collector's pointers: the prober with its
    counters (nil disables the probes), the overlayer's caches and counter. *)
Record memory := mkMemory {
  mem_prober : option Swagger.Prober;
  mem_caches : ocaches;
}.

Definition NewCollector (cluster : string) (prober : option Swagger.Prober)
    (overlayer : option Overlayer) (caches : ocaches) : Collector * memory :=
  (mkCollector cluster overlayer, mkMemory prober caches).

(** What a cycle meets: its number (the round of the telemetry queries), the outcome
    of [ListResources], the responses and the schedule of the OpenAPI probes, and
    the clock at its three reads. *)
Record CycleEnv := mkCycleEnv {
  ce_round : nat;
  ce_snapshot : result K8sSnapshot;
  ce_webs : nat → WebEnv;
  ce_sched : list (nat * job) → list (nat * job);
  ce_started : Z;
  ce_published : Z;
  ce_finished : Z;
}.

Definition with_stats (cat : Catalog) (stats : CatalogStats) : Catalog :=
  mkCatalog (cat_Cluster cat) (cat_Applications cat) (cat_Namespaces cat) (cat_Dependencies cat)
    (cat_CollectedAt cat) (cat_PublishedAt cat) stats.

Definition capability_index (namespaces : list NamespaceEntry) : gmap string string :=
  foldl (λ m ns, <[nse_Name ns := nse_CapabilityID ns]> m) ∅ namespaces.

(** The passes over the applications, skipped when their component is nil. *)
Definition probe_pass {GU : GoUnicode} {rt : GoRuntime} (prober : option Swagger.Prober) (env : CycleEnv)
    (apps : list ApplicationEntry) : list ApplicationEntry * option Swagger.Prober :=
  match prober with
  | None => (apps, None)
  | Some p => let '(apps, p) := counted_Probe p (ce_webs env) (ce_sched env) apps in (apps, Some p)
  end.

Definition overlay_pass {GU : GoUnicode} {rt : GoRuntime} (overlayer : option Overlayer) (round : nat)
    (caches : ocaches) (apps : list ApplicationEntry) : list DependencyEdge * list ApplicationEntry * ocaches :=
  match overlayer with
  | None => ([], apps, caches)
  | Some o => Apply o round caches apps
  end.

Definition Collect {GU : GoUnicode} {U : Unstructured} (rts : nat → GoRuntime) (rt : GoRuntime)
    (c : Collector) (env : CycleEnv) (mem : memory) : result Catalog * memory :=
  match ce_snapshot env with
  | Err e => (Err e, mem)
  | Ok snapshot =>
      let namespaces := buildNamespaces (col_cluster c) snapshot in
      let resolver := NewResolver (snap_GitOps snapshot) in
      let applications :=
        buildApplications rts rt (col_cluster c) snapshot (capability_index namespaces) resolver in
      let '(applications, prober) := probe_pass (mem_prober mem) env applications in
      let '(dependencies, applications, caches) :=
        overlay_pass (col_overlayer c) (ce_round env) (mem_caches mem) applications in
      let netpolEdges := buildNetworkPolicyEdges (col_cluster c) snapshot in
      let dependencies :=
        if Nat.ltb 0 (length netpolEdges) then dependencies ++ netpolEdges else dependencies in
      let catalog := mkCatalog (col_cluster c) applications namespaces dependencies
                       (ce_started env) (ce_published env) zero_stats in
      (Ok (with_stats catalog (computeStats catalog (ce_finished env - ce_started env))), mkMemory prober caches)
  end.

(** ** The ingress indexes, key by key *)

(** The service a key names, for a resource of namespace [ns]. *)
Definition owned_service (ns key : string) : option string :=
  if HasPrefix key (ns +:+ "/") then Some (TrimPrefix key (ns +:+ "/")) else None.

Lemma service_key_inj ns svc svc' : service_key ns svc' = service_key ns svc → svc' = svc.
Proof. unfold service_key. intros H%str_app_inv_l. by injection H. Qed.

Lemma owned_service_Some ns key svc : owned_service ns key = Some svc ↔ key = service_key ns svc.
Proof.
  unfold owned_service, service_key. rewrite <- str_app_assoc. split.
  - destruct (HasPrefix key (ns +:+ "/")) eqn:E; [|done]. intros [= <-].
    apply HasPrefix_iff in E as [r ->]. by rewrite TrimPrefix_app.
  - intros ->. by rewrite HasPrefix_app, TrimPrefix_app.
Qed.

(** What a resource exposes of the service of a key, in order. *)
Definition ing_hosts (key : string) (ing : IngressInfo) : list string :=
  match owned_service (ii_Namespace ing) key with
  | Some svc => mslice (ii_ServiceHosts ing) svc
  | None => []
  end.

Definition ing_routes (key : string) (ing : IngressInfo) : list RouteRef :=
  match owned_service (ii_Namespace ing) key with
  | Some svc => ingress_route_ref ing <$> mslice (ii_ServiceRoutes ing) svc
  | None => []
  end.

Definition ir_exposes {A} (f : IngressRouteRule → list A) (key : string) (ir : IngressRouteInfo) : list A :=
  ir_Routes ir ≫= λ rule, irr_Services rule ≫= λ svc,
    if decide (service_key (ir_Namespace ir) svc = key) then f rule else [].

Definition exposed_hosts (s : K8sSnapshot) (key : string) : list string :=
  (snap_Ingresses s ≫= ing_hosts key) ++ (snap_IngressRoutes s ≫= ir_exposes irr_Hosts key).

Definition exposed_routes (s : K8sSnapshot) (key : string) : list RouteRef :=
  (snap_Ingresses s ≫= ing_routes key) ++
  (snap_IngressRoutes s ≫= λ ir, ir_exposes (λ rule, [ir_route_ref ir rule]) key ir).

Definition hosts_of (idx : ingress_index) (key : string) : list string := mslice (hostsByService idx) key.
Definition routes_of (idx : ingress_index) (key : string) : list RouteRef := mslice (routesByService idx) key.

Lemma add_hosts idx es :
  foldl (λ idx e, add_host idx e.1 e.2) idx es =
  mkIngressIndex (foldl (bucket_step appendUnique) (hostsByService idx) es) (routesByService idx).
Proof. revert idx. induction es as [|e es IH]; intros idx; [by destruct idx|]. simpl. by rewrite IH. Qed.

Lemma add_routes idx es :
  foldl (λ idx e, add_route idx e.1 e.2) idx es =
  mkIngressIndex (hostsByService idx) (foldl (bucket_step appendRouteUnique) (routesByService idx) es).
Proof. revert idx. induction es as [|e es IH]; intros idx; [by destruct idx|]. simpl. by rewrite IH. Qed.

(** A loop over a map whose keys name services of one namespace. *)
Lemma map_events {A} {rt : GoRuntime} (m : gmap string (list A)) ns key :
  bucket_events key (tagged (service_key ns) (map_range m)) =
  match owned_service ns key with Some svc => mslice m svc | None => [] end.
Proof.
  destruct (owned_service ns key) as [svc|] eqn:E.
  - apply owned_service_Some in E. subst key. unfold mslice. destruct (m !! svc) as [vs|] eqn:Em.
    + apply bucket_events_one; [intros; by eapply service_key_inj|apply map_range_NoDup|].
      by apply map_range_elem_of.
    + apply bucket_events_none. intros [x xs] Hx%map_range_elem_of Hk. simpl in Hk.
      apply service_key_inj in Hk. congruence.
  - apply bucket_events_none. intros [x xs] _ Hk. simpl in Hk. symmetry in Hk.
    apply owned_service_Some in Hk. congruence.
Qed.

Definition on_value {A B} (f : A → B) (e : string * A) : string * B := (e.1, f e.2).

Lemma tagged_fmap {A B} (f : A → B) g (l : list (string * list A)) :
  tagged g (fmap (M := list) (on_value (fmap (M := list) f)) l) =
  fmap (M := list) (on_value f) (tagged g l).
Proof.
  unfold tagged. induction l as [|[k vs] l IH]; [done|].
  rewrite fmap_cons, !bind_cons, fmap_app, IH. f_equal. simpl. by rewrite <- !list_fmap_compose.
Qed.

Lemma bucket_events_fmap {A B} (f : A → B) k (es : list (string * A)) :
  bucket_events k (fmap (M := list) (on_value f) es) = f <$> bucket_events k es.
Proof.
  unfold bucket_events. induction es as [|[k' v] es IH]; [done|].
  rewrite fmap_cons. cbn [omap list_omap on_value fst snd].
  destruct (decide (k' = k)); [rewrite fmap_cons; by f_equal|done].
Qed.

Lemma ingress_step_key {rt : GoRuntime} idx ing key :
  hosts_of (ingress_step idx ing) key = foldl appendUnique (hosts_of idx key) (ing_hosts key ing) ∧
  routes_of (ingress_step idx ing) key = foldl appendRouteUnique (routes_of idx key) (ing_routes key ing).
Proof.
  unfold ingress_step, hosts_of, routes_of.
  set (idx1 := foldl _ idx (map_range (ii_ServiceHosts ing))).
  assert (idx1 = foldl (λ idx e, add_host idx e.1 e.2) idx
    (tagged (service_key (ii_Namespace ing)) (map_range (ii_ServiceHosts ing)))) as E1.
  { unfold idx1. rewrite <- foldl_tagged. apply foldl_ext. by intros ? []. }
  set (idx2 := foldl _ idx1 (map_range (ii_ServiceRoutes ing))).
  assert (idx2 = foldl (λ idx e, add_route idx e.1 e.2) idx1
    (on_value (ingress_route_ref ing) <$>
      tagged (service_key (ii_Namespace ing)) (map_range (ii_ServiceRoutes ing)))) as E2.
  { unfold idx2. rewrite <- tagged_fmap, <- foldl_tagged, foldl_map. apply foldl_ext.
    intros b [svc paths]. simpl. by rewrite foldl_map. }
  rewrite E2, add_routes, E1, add_hosts. simpl. rewrite !bucket_lookup, bucket_events_fmap, !map_events.
  unfold ing_hosts, ing_routes. by destruct (owned_service _ _).
Qed.

Lemma add_host_key idx k h key :
  hosts_of (add_host idx k h) key =
    (if decide (k = key) then appendUnique (hosts_of idx key) h else hosts_of idx key) ∧
  routes_of (add_host idx k h) key = routes_of idx key.
Proof.
  unfold hosts_of, add_host. simpl. split; [|done].
  destruct (decide (k = key)) as [->|]; [by rewrite mslice_insert_eq|by rewrite mslice_insert_ne].
Qed.

Lemma add_route_key idx k r key :
  routes_of (add_route idx k r) key =
    (if decide (k = key) then appendRouteUnique (routes_of idx key) r else routes_of idx key) ∧
  hosts_of (add_route idx k r) key = hosts_of idx key.
Proof.
  unfold routes_of, add_route. simpl. split; [|done].
  destruct (decide (k = key)) as [->|]; [by rewrite mslice_insert_eq|by rewrite mslice_insert_ne].
Qed.

(** [idx'] is [idx] with hosts and routes added to the service of [key]. *)
Definition indexed (key : string) (idx idx' : ingress_index) (hosts : list string) (routes : list RouteRef) :=
  hosts_of idx' key = foldl appendUnique (hosts_of idx key) hosts ∧
  routes_of idx' key = foldl appendRouteUnique (routes_of idx key) routes.

Lemma indexed_fold {A} (step : ingress_index → A → ingress_index) (hs : A → list string)
    (rs : A → list RouteRef) key idx l :
  (∀ idx x, indexed key idx (step idx x) (hs x) (rs x)) →
  indexed key idx (foldl step idx l) (l ≫= hs) (l ≫= rs).
Proof.
  intros H. revert idx. induction l as [|x l IH]; intros idx; [done|].
  destruct (IH (step idx x)) as [H1 H2], (H idx x) as [H3 H4]. cbn [foldl].
  split; rewrite bind_cons, foldl_app; [by rewrite H1, H3|by rewrite H2, H4].
Qed.

Lemma ir_service_step_key ir rule idx svc key :
  indexed key idx (ir_service_step ir rule idx svc)
    (if decide (service_key (ir_Namespace ir) svc = key) then irr_Hosts rule else [])
    (if decide (service_key (ir_Namespace ir) svc = key) then [ir_route_ref ir rule] else []).
Proof.
  unfold indexed, ir_service_step. set (k := service_key (ir_Namespace ir) svc).
  destruct (add_route_key (foldl (λ idx h, add_host idx k h) idx (irr_Hosts rule)) k
    (ir_route_ref ir rule) key) as [-> ->].
  destruct (indexed_fold (λ idx h, add_host idx k h) (λ h, if decide (k = key) then [h] else []) (λ _, [])
    key idx (irr_Hosts rule)) as [H1 H2].
  { intros i h. split; [|apply add_host_key]. destruct (add_host_key i k h key) as [-> _].
    by destruct (decide (k = key)). }
  rewrite H1, H2. assert (∀ A B (l : list A), l ≫= (λ _, @nil B) = []) as E by (by induction l).
  rewrite E. destruct (decide (k = key)).
  - split; [|done]. f_equal. clear. induction (irr_Hosts rule) as [|h hs IH]; [done|].
    by rewrite bind_cons, IH.
  - by rewrite E.
Qed.

Lemma ingressroute_step_key idx ir key :
  indexed key idx (ingressroute_index_step idx ir) (ir_exposes irr_Hosts key ir)
    (ir_exposes (λ rule, [ir_route_ref ir rule]) key ir).
Proof.
  unfold ingressroute_index_step, ir_exposes. apply indexed_fold. intros i rule.
  apply indexed_fold. intros. apply ir_service_step_key.
Qed.

(** The bookkeeping of a loop that numbers its elements. *)
Lemma imap_pair_snd {A B} (g : A → list B) (l : list A) n :
  imap (λ i x, (n + i, x)) l ≫= (λ e, g e.2) = l ≫= g.
Proof.
  revert n. induction l as [|x l IH]; intros n; [done|]. cbn [imap]. rewrite !bind_cons. f_equal.
  rewrite <- (IH (S n)). f_equal. apply imap_ext. intros i y _. simpl. f_equal. lia.
Qed.

Lemma bind_imap_pair {A B} (g : A → list B) (l : list A) : imap pair l ≫= (λ e, g e.2) = l ≫= g.
Proof. apply (imap_pair_snd g l 0). Qed.

Lemma buildIndex_key rts s key :
  indexed key (mkIngressIndex ∅ ∅) (buildIndex rts s) (exposed_hosts s key) (exposed_routes s key).
Proof.
  unfold buildIndex. set (idx := foldl _ _ (imap pair (snap_Ingresses s))).
  assert (indexed key (mkIngressIndex ∅ ∅) idx (snap_Ingresses s ≫= ing_hosts key)
    (snap_Ingresses s ≫= ing_routes key)) as [H1 H2].
  { rewrite <- (bind_imap_pair (ing_hosts key)), <- (bind_imap_pair (ing_routes key)).
    apply indexed_fold. intros i [n ing]. apply (ingress_step_key (rt := rts n)). }
  destruct (indexed_fold ingressroute_index_step (ir_exposes irr_Hosts key)
    (λ ir, ir_exposes (λ rule, [ir_route_ref ir rule]) key ir) key idx (snap_IngressRoutes s)) as [H3 H4].
  { intros. apply ingressroute_step_key. }
  split; unfold exposed_hosts, exposed_routes; rewrite foldl_app; [by rewrite H3, H1|by rewrite H4, H2].
Qed.

Lemma appendUnique_fold_spec (l l' : list string) x :
  x ∈ foldl appendUnique l l' ↔ x ∈ l ∨ x ∈ l'.
Proof.
  revert l. induction l' as [|y l' IH]; intros l; simpl; [set_solver|].
  rewrite IH. unfold appendUnique. rewrite append_unique_spec. set_solver.
Qed.

Lemma appendUnique_fold_NoDup (l l' : list string) : NoDup l → NoDup (foldl appendUnique l l').
Proof. intros H. apply foldl_inv; [done|]. intros. by apply append_unique_NoDup. Qed.

Lemma appendRouteUnique_NoDup l r :
  NoDup (route_dedup_key <$> l) → NoDup (route_dedup_key <$> appendRouteUnique l r).
Proof. apply append_unless_NoDup. intros x. apply String.eqb_eq. Qed.

Lemma appendRouteUnique_fold l l' :
  NoDup (route_dedup_key <$> l) →
  let out := foldl appendRouteUnique l l' in
  NoDup (route_dedup_key <$> out) ∧ (∀ r, r ∈ out → r ∈ l ∨ r ∈ l') ∧
  (∀ r, r ∈ l ∨ r ∈ l' → ∃ r', r' ∈ out ∧ route_dedup_key r' = route_dedup_key r).
Proof.
  revert l. induction l' as [|r l' IH]; intros l Hl; cbn zeta; simpl.
  { split_and!; [done|by left|]. intros r [H|H%elem_of_nil]; [by exists r|done]. }
  destruct (IH (appendRouteUnique l r) (appendRouteUnique_NoDup l r Hl)) as (H1 & H2 & H3).
  split_and!; [done| |].
  - intros x Hx. apply H2 in Hx as [Hx|Hx]; [|by right; right].
    apply append_unless_elem_of in Hx as [Hx| ->]; [by left|by right; left].
  - intros x [Hx|Hx]; [|apply elem_of_cons in Hx as [->|Hx]; [|apply H3; by right]].
    + apply H3. left. unfold appendRouteUnique.
      destruct (append_unless_prefix (λ existing, String.eqb (route_dedup_key existing) (route_dedup_key r))
        l r) as [k ->]. rewrite elem_of_app. by left.
    + destruct (append_unless_covers route_dedup_key
        (λ existing, String.eqb (route_dedup_key existing) (route_dedup_key r)) l r) as (x & Hx & E).
      { intros y. apply String.eqb_eq. }
      destruct (H3 x (or_introl Hx)) as (r' & Hr' & E'). exists r'. split; [done|congruence].
Qed.

(** C34: the ingress indexes.  Whatever order the maps of the Ingresses are ranged
    in, the hosts and routes a Service ends up with are those that Ingresses and
    IngressRoutes of its namespace route to it, in listing order, the first of
    every repeated one: hosts are exactly the exposed ones, and of the routes of
    one name, hosts and paths exactly one is kept. *)
Theorem buildIndex_spec (rts : nat → GoRuntime) (s : K8sSnapshot) (ns svc : string) :
  let key := service_key ns svc in
  let hosts := hosts_of (buildIndex rts s) key in
  let routes := routes_of (buildIndex rts s) key in
  hosts = foldl appendUnique [] (exposed_hosts s key) ∧
  routes = foldl appendRouteUnique [] (exposed_routes s key) ∧
  NoDup hosts ∧ (∀ h, h ∈ hosts ↔ h ∈ exposed_hosts s key) ∧
  NoDup (route_dedup_key <$> routes) ∧ (∀ r, r ∈ routes → r ∈ exposed_routes s key) ∧
  (∀ r, r ∈ exposed_routes s key → ∃ r', r' ∈ routes ∧ route_dedup_key r' = route_dedup_key r).
Proof.
  cbn zeta. destruct (buildIndex_key rts s (service_key ns svc)) as [-> ->].
  change (hosts_of (mkIngressIndex ∅ ∅) (service_key ns svc)) with (@nil string).
  change (routes_of (mkIngressIndex ∅ ∅) (service_key ns svc)) with (@nil RouteRef).
  destruct (appendRouteUnique_fold [] (exposed_routes s (service_key ns svc)) (NoDup_nil_2)) as (H1 & H2 & H3).
  split_and!; [done|done|apply appendUnique_fold_NoDup, NoDup_nil_2| |done| |].
  - intros h. rewrite appendUnique_fold_spec. set_solver.
  - intros r Hr. apply H2 in Hr as [[]%elem_of_nil|]; done.
  - intros r Hr. apply H3. by right.
Qed.

(** ** Selectors *)

Lemma selectorMatches_iff {rt : GoRuntime} selector labels :
  selectorMatches selector labels = true ↔
  mlen selector ≠ 0 ∧ mlen labels ≠ 0 ∧ map_Forall (λ k v, labels⟦k⟧ = v) (default ∅ selector).
Proof.
  unfold selectorMatches.
  destruct (Nat.eqb_spec (mlen selector) 0) as [E|E]; [simpl; split; [done|tauto]|].
  destruct (Nat.eqb_spec (mlen labels) 0) as [E'|E']; [simpl; split; [done|tauto]|]. simpl.
  assert (forallb (λ '(k, v), String.eqb (mget labels k) v) (map_range (default ∅ selector)) = true ↔
    map_Forall (λ k v, mget labels k = v) (default ∅ selector)) as ->; [|tauto].
  rewrite forallb_forall. split.
  - intros H k v Hk. apply String.eqb_eq. apply (H (k, v)). apply list_elem_of_In. by apply map_range_elem_of.
  - intros H [k v] Hk%list_elem_of_In. apply map_range_elem_of in Hk. apply String.eqb_eq. by apply (H k v).
Qed.

Lemma selectorMatches_det (rt1 rt2 : GoRuntime) selector labels :
  selectorMatches (rt := rt1) selector labels = selectorMatches (rt := rt2) selector labels.
Proof. apply eq_true_iff_eq. by rewrite !selectorMatches_iff. Qed.

Lemma podSelectorMatches_det (rt1 rt2 : GoRuntime) selector labels :
  podSelectorMatches (rt := rt1) selector labels = podSelectorMatches (rt := rt2) selector labels.
Proof. unfold podSelectorMatches. by rewrite (selectorMatches_det rt1 rt2). Qed.

(** A Service selector selects exactly the label sets that extend it, when it
    is not empty and asks for no empty value; an empty selector, or an unlabelled
    workload, never matches.  A requirement of the empty value is met by a
    missing label too. *)
Theorem selectorMatches_spec (rt : GoRuntime) (selector labels : gmap string string) :
  (selectorMatches (Some selector) (Some labels) = true ↔
     selector ≠ ∅ ∧ labels ≠ ∅ ∧ ∀ k v, selector !! k = Some v → default EmptyString (labels !! k) = v) ∧
  (map_Forall (λ _ v, v ≠ EmptyString) selector → selector ≠ ∅ →
     (selectorMatches (Some selector) (Some labels) = true ↔ selector ⊆ labels)) ∧
  selectorMatches None (Some labels) = false ∧ selectorMatches (Some selector) None = false.
Proof.
  assert (selectorMatches (Some selector) (Some labels) = true ↔
     selector ≠ ∅ ∧ labels ≠ ∅ ∧ ∀ k v, selector !! k = Some v → default EmptyString (labels !! k) = v) as H.
  { rewrite selectorMatches_iff. simpl. by rewrite !map_size_empty_iff. }
  split_and!; [done| |done|].
  - intros Hv Hne. rewrite H, map_subseteq_spec. split.
    + intros (_ & _ & Hall) k v Hk. specialize (Hall k v Hk). specialize (Hv k v Hk).
      destruct (labels !! k); simpl in Hall; congruence.
    + intros Hsub. split_and!; [done| |].
      * intros ->. apply Hne, map_empty. intros k. destruct (selector !! k) eqn:E; [|done].
        apply Hsub in E. by rewrite lookup_empty in E.
      * intros k v Hk. by rewrite (Hsub k v Hk).
  - unfold selectorMatches. by rewrite orb_true_r.
Qed.

Lemma selectorMatches_spec_witness :
  selectorMatches (rt := reverse_runtime) (Some {[ "app" := "web" ]}) (Some {[ "app" := "web"; "tier" := "x" ]}) = true.
Proof.
  pose proof (selectorMatches_spec reverse_runtime {[ "app" := "web" ]} {[ "app" := "web"; "tier" := "x" ]})
    as (_ & H & _). apply H.
  - by apply map_Forall_singleton.
  - apply map_non_empty_singleton.
  - apply map_singleton_subseteq_l. apply lookup_insert_eq.
Defined.

(** ** Applications and their Services *)

(** Workload [w] selects the Service [svc]. *)
Definition selects {rt : GoRuntime} (w : WorkloadInfo) (svc : ServiceInfo) : bool :=
  String.eqb (si_Namespace svc) (wl_Namespace w) && negb (Nat.eqb (mlen (si_Selector svc)) 0) &&
  selectorMatches (si_Selector svc) (pod_labels w).

Definition selected_by {rt : GoRuntime} (ws : list WorkloadInfo) (svc : ServiceInfo) : bool :=
  existsb (λ w, selects w svc) ws.

Lemma selects_det (rt1 rt2 : GoRuntime) w svc : selects (rt := rt1) w svc = selects (rt := rt2) w svc.
Proof. unfold selects. by rewrite (selectorMatches_det rt1 rt2). Qed.

(** The records once the workloads [ws] have been visited. *)
Definition records {rt : GoRuntime} (ws : list WorkloadInfo) (svcs : list ServiceInfo) : list svcRecord :=
  (λ svc, mkSvcRecord svc (selected_by ws svc)) <$> svcs.

Definition in_ns (ns : string) (r : svcRecord) : Prop := si_Namespace (rec_info r) = ns.
#[export] Instance in_ns_dec ns r : Decision (in_ns ns r).
Proof. unfold in_ns. apply _. Defined.

Lemma foldl_snoc_app {A} (l l' : list A) : foldl (λ l x, l ++ [x]) l l' = l ++ l'.
Proof.
  revert l. induction l' as [|x l' IH]; intros l; [by rewrite app_nil_r|]. simpl. by rewrite IH, <- app_assoc.
Qed.

Lemma map_append_fold {A B} (key : A → string) (f : A → B) (l : list A) (ns : string) :
  mslice (foldl (λ m x, map_append m (key x) (f x)) ∅ l) ns =
  f <$> filter (λ x, key x = ns) l.
Proof.
  transitivity (mslice (foldl (bucket_step (λ l (v : B), l ++ [v])) ∅ ((λ x, (key x, f x)) <$> l)) ns).
  { by rewrite foldl_map. }
  rewrite bucket_lookup, foldl_snoc_app. change (mslice ∅ ns) with (@nil B). rewrite app_nil_l.
  unfold bucket_events.
  induction l as [|x l IH]; [done|]. rewrite fmap_cons. cbn [omap list_omap fst snd].
  destruct (decide (key x = ns)) as [E|E].
  - rewrite filter_cons_True by done. rewrite fmap_cons; by f_equal.
  - by rewrite filter_cons_False.
Qed.

Lemma filter_records {rt : GoRuntime} ns ws svcs :
  filter (in_ns ns) (records ws svcs) =
  (λ svc, mkSvcRecord svc (selected_by ws svc)) <$> filter (λ svc, si_Namespace svc = ns) svcs.
Proof.
  unfold records. induction svcs as [|svc svcs IH]; [done|]. rewrite fmap_cons.
  destruct (decide (si_Namespace svc = ns)) as [E|E].
  - rewrite (filter_cons_True (in_ns ns)), (filter_cons_True (λ svc, si_Namespace svc = ns)) by done.
    rewrite fmap_cons. by f_equal.
  - by rewrite (filter_cons_False (in_ns ns)), (filter_cons_False (λ svc, si_Namespace svc = ns)).
Qed.

Lemma index_services_records {rt : GoRuntime} svcs ns :
  mslice (index_services svcs) ns = filter (in_ns ns) (records [] svcs).
Proof. unfold index_services. rewrite map_append_fold, filter_records. done. Qed.

(** The Services of a workload, in listing order. *)
Definition workload_services {rt : GoRuntime} (idx : ingress_index) (s : K8sSnapshot) (w : WorkloadInfo)
    : list ServiceRef := (λ svc, serviceRefFrom svc idx) <$> filter (λ svc, selects w svc = true) (snap_Services s).

Section claims.
Context (idx : ingress_index).

Lemma claim_fold {rt : GoRuntime} w recs acc services :
  Forall (in_ns (wl_Namespace w)) recs →
  foldl (claim_step idx (pod_labels w)) (acc, services) recs =
  (acc ++ ((λ r, mkSvcRecord (rec_info r) (rec_claimed r || selects w (rec_info r))) <$> recs),
   services ++ ((λ r, serviceRefFrom (rec_info r) idx) <$> filter (λ r, selects w (rec_info r) = true) recs)).
Proof.
  revert acc services. induction recs as [|r recs IH]; intros acc services Hns.
  { by rewrite !app_nil_r. }
  apply Forall_cons in Hns as [Hr Hns]. cbn [foldl].
  assert (claim_step idx (pod_labels w) (acc, services) r =
    (acc ++ [mkSvcRecord (rec_info r) (rec_claimed r || selects w (rec_info r))],
     services ++ if selects w (rec_info r) then [serviceRefFrom (rec_info r) idx] else [])) as ->.
  { unfold claim_step, selects. rewrite Hr, String.eqb_refl. destruct r as [info claimed]. simpl.
    destruct (Nat.eqb (mlen (si_Selector info)) 0); simpl; [by rewrite orb_false_r, app_nil_r|].
    destruct (selectorMatches _ _); [by rewrite orb_true_r|by rewrite orb_false_r, app_nil_r]. }
  rewrite IH by done. rewrite fmap_cons, <- !app_assoc. f_equal. f_equal.
  destruct (selects w (rec_info r)) eqn:E.
  - by rewrite filter_cons_True.
  - rewrite filter_cons_False by congruence. done.
Qed.

(** Visiting a workload marks what it selects, in its namespace's records. *)
Lemma records_snoc {rt : GoRuntime} ws w svcs ns :
  filter (in_ns ns) (records (ws ++ [w]) svcs) =
  (λ r, mkSvcRecord (rec_info r) (rec_claimed r || selects w (rec_info r))) <$>
    filter (in_ns ns) (records ws svcs).
Proof.
  rewrite !filter_records, <- list_fmap_compose. apply list_fmap_ext. intros _ svc _. simpl.
  f_equal. unfold selected_by. rewrite existsb_app. simpl. by rewrite orb_false_r.
Qed.

Lemma records_other_ns {rt : GoRuntime} ws w svcs ns :
  ns ≠ wl_Namespace w →
  filter (in_ns ns) (records (ws ++ [w]) svcs) = filter (in_ns ns) (records ws svcs).
Proof.
  intros Hne. rewrite !filter_records. apply list_fmap_ext. intros i svc Hi. f_equal.
  apply list_elem_of_lookup_2, list_elem_of_filter in Hi as [Hns _].
  unfold selected_by, selects. rewrite existsb_app. simpl.
  destruct (String.eqb_spec (si_Namespace svc) (wl_Namespace w)); [congruence|]. by rewrite !orb_false_r.
Qed.

Lemma selected_services {rt : GoRuntime} ws w svcs :
  (λ r, serviceRefFrom (rec_info r) idx) <$>
    filter (λ r, selects w (rec_info r) = true) (filter (in_ns (wl_Namespace w)) (records ws svcs)) =
  (λ svc, serviceRefFrom svc idx) <$> filter (λ svc, selects w svc = true) svcs.
Proof.
  unfold records. induction svcs as [|svc svcs IH]; [done|]. rewrite fmap_cons.
  destruct (decide (si_Namespace svc = wl_Namespace w)) as [E|E].
  - rewrite (filter_cons_True (in_ns _)) by done. destruct (selects w svc) eqn:Es.
    + rewrite !filter_cons_True by done. rewrite !fmap_cons. by f_equal.
    + rewrite !filter_cons_False by (simpl; congruence). done.
  - rewrite (filter_cons_False (in_ns _)) by done. rewrite IH.
    rewrite filter_cons_False; [done|]. unfold selects.
    destruct (String.eqb_spec (si_Namespace svc) (wl_Namespace w)); [done|]. done.
Qed.
End claims.

Section build.
Context (cluster : string) (idx : ingress_index) (caps : gmap string string) (resolver : Resolver)
  (s : K8sSnapshot).

Definition entry_of {rt : GoRuntime} (w : WorkloadInfo) : ApplicationEntry :=
  workload_entry cluster caps resolver w (workload_services idx s w).

Definition orphan_of (svc : ServiceInfo) : ApplicationEntry :=
  orphan_entry cluster idx caps (si_Namespace svc) svc.

(** The Services no workload selects. *)
Definition orphans {rt : GoRuntime} : list ServiceInfo :=
  filter (λ svc, selected_by (snap_Workloads s) svc = false) (snap_Services s).

Lemma workload_entry_det (rt1 rt2 : GoRuntime) w svcs :
  workload_entry cluster caps resolver (rt := rt1) w svcs =
  workload_entry cluster caps resolver (rt := rt2) w svcs.
Proof. unfold workload_entry. by rewrite (metadata_From_deterministic rt1 rt2). Qed.

Lemma workload_services_det (rt1 rt2 : GoRuntime) w :
  workload_services (rt := rt1) idx s w = workload_services (rt := rt2) idx s w.
Proof.
  unfold workload_services. f_equal. apply list_filter_iff. intros svc.
  by rewrite (selects_det rt1 rt2).
Qed.

Lemma entry_of_det (rt1 rt2 : GoRuntime) w : entry_of (rt := rt1) w = entry_of (rt := rt2) w.
Proof. unfold entry_of. by rewrite (workload_entry_det rt1 rt2), (workload_services_det rt1 rt2). Qed.

Lemma workload_step_det (rt1 rt2 : GoRuntime) st w :
  workload_step cluster idx caps resolver (rt := rt1) st w =
  workload_step cluster idx caps resolver (rt := rt2) st w.
Proof.
  unfold workload_step. destruct st as [m apps]. destruct (m !! wl_Namespace w) as [recs|].
  - rewrite (foldl_ext (claim_step idx (rt := rt1) (pod_labels w)) (claim_step idx (rt := rt2) (pod_labels w))).
    + destruct (foldl _ _ recs) as [recs' services]. by rewrite (workload_entry_det rt1 rt2).
    + intros [acc services] r. unfold claim_step. by rewrite (selectorMatches_det rt1 rt2).
  - by rewrite (workload_entry_det rt1 rt2).
Qed.

(** The workload loop: the records of every namespace carry the marks of the
    workloads visited so far, and the entries are those of the workloads. *)
Definition claim_inv {rt : GoRuntime} (ws : list WorkloadInfo)
    (st : gmap string (list svcRecord) * list ApplicationEntry) : Prop :=
  (∀ ns, mslice st.1 ns = filter (in_ns ns) (records ws (snap_Services s))) ∧
  st.2 = entry_of <$> ws.

Lemma claim_inv_step {rt : GoRuntime} ws st w :
  claim_inv ws st → claim_inv (ws ++ [w]) (workload_step cluster idx caps resolver st w).
Proof.
  destruct st as [m apps]. intros [Hm Happs]. simpl in *. unfold workload_step.
  pose proof (Hm (wl_Namespace w)) as Hw. unfold mslice in Hw.
  pose proof (selected_services idx ws w (snap_Services s)) as Hsel.
  assert (Forall (in_ns (wl_Namespace w)) (filter (in_ns (wl_Namespace w)) (records ws (snap_Services s)))) as Hns.
  { apply Forall_forall. by intros r [? _]%list_elem_of_filter. }
  rewrite <- Hw in Hsel, Hns.
  destruct (m !! wl_Namespace w) as [recs|] eqn:Em; simpl in Hw, Hsel, Hns.
  - rewrite claim_fold by done. rewrite !app_nil_l, Hsel. split.
    + intros ns. cbn [fst]. destruct (decide (ns = wl_Namespace w)) as [->|Hne].
      * rewrite mslice_insert_eq, records_snoc, Hw. done.
      * rewrite mslice_insert_ne, records_other_ns by done. apply Hm.
    + cbn [snd]. by rewrite fmap_app, Happs.
  - split.
    + intros ns. cbn [fst]. destruct (decide (ns = wl_Namespace w)) as [->|Hne].
      * rewrite records_snoc, <- Hw. unfold mslice. by rewrite Em.
      * rewrite records_other_ns by done. apply Hm.
    + cbn [snd]. rewrite fmap_app, Happs. f_equal. simpl. unfold entry_of, workload_services.
      by rewrite <- Hsel.
Qed.

Lemma claim_inv_all {rt : GoRuntime} ws :
  claim_inv ws (foldl (workload_step cluster idx caps resolver) (index_services (snap_Services s), []) ws).
Proof.
  induction ws as [|w ws IH] using rev_ind.
  - split; [|done]. intros ns. simpl. apply index_services_records.
  - rewrite foldl_app. by apply claim_inv_step.
Qed.

(** The loop over the namespaces, whatever their order. *)
Lemma buckets_perm (l : list svcRecord) (m : gmap string (list svcRecord)) :
  (∀ ns, mslice m ns = filter (in_ns ns) l) → mjoin (map_to_list m).*2 ≡ₚ l.
Proof.
  revert m. induction l as [|r l IH]; intros m Hm.
  - induction m as [|ns recs m Hns IHm] using map_ind.
    { by rewrite map_to_list_empty. }
    rewrite map_to_list_insert by done. simpl. pose proof (Hm ns) as Hr.
    rewrite mslice_insert_eq in Hr. rewrite Hr. simpl. apply IHm. intros ns'.
    destruct (decide (ns' = ns)) as [->|Hne]; [unfold mslice; by rewrite Hns|].
    rewrite <- (Hm ns'). by rewrite mslice_insert_ne.
  - set (ns := si_Namespace (rec_info r)). pose proof (Hm ns) as Hr.
    rewrite (filter_cons_True (in_ns ns)) in Hr by done. unfold mslice in Hr.
    destruct (m !! ns) as [recs|] eqn:Em; [|done]. simpl in Hr. subst recs.
    rewrite <- (insert_delete_id m ns _ Em), map_to_list_insert by apply lookup_delete_eq.
    simpl. f_equiv. transitivity (mjoin (map_to_list (<[ns := filter (in_ns ns) l]> (delete ns m))).*2).
    { by rewrite map_to_list_insert by apply lookup_delete_eq. }
    apply IH. intros ns'. destruct (decide (ns' = ns)) as [->|Hne]; [by rewrite mslice_insert_eq|].
    rewrite mslice_insert_ne by done. unfold mslice. rewrite lookup_delete_ne by done.
    fold (mslice m ns'). rewrite Hm, filter_cons_False; [done|]. unfold in_ns. fold ns. congruence.
Qed.

Lemma orphan_step_eq apps ns recs :
  Forall (in_ns ns) recs →
  orphan_step cluster idx caps apps (ns, recs) =
  apps ++ (orphan_of ∘ rec_info <$> filter (λ r, rec_claimed r = false) recs).
Proof.
  unfold orphan_step. revert apps. induction recs as [|r recs IH]; intros apps Hns.
  { by rewrite app_nil_r. }
  apply Forall_cons in Hns as [Hr Hns]. cbn [foldl]. rewrite IH by done.
  destruct (rec_claimed r) eqn:E.
  - by rewrite filter_cons_False by congruence.
  - rewrite filter_cons_True, fmap_cons, <- app_assoc by done. simpl. unfold orphan_of. by rewrite Hr.
Qed.

Lemma orphan_fold apps l :
  Forall (λ e, Forall (in_ns e.1) e.2) l →
  foldl (orphan_step cluster idx caps) apps l =
  apps ++ (orphan_of ∘ rec_info <$> filter (λ r, rec_claimed r = false) (mjoin l.*2)).
Proof.
  revert apps. induction l as [|[ns recs] l IH]; intros apps Hns; [by rewrite app_nil_r|].
  apply Forall_cons in Hns as [Hr Hns]. cbn [foldl]. rewrite IH, orphan_step_eq by done.
  rewrite fmap_cons. simpl. by rewrite filter_app, fmap_app, app_assoc.
Qed.

Lemma orphans_records {rt : GoRuntime} :
  rec_info <$> filter (λ r, rec_claimed r = false) (records (snap_Workloads s) (snap_Services s)) =
  orphans.
Proof.
  unfold orphans, records. induction (snap_Services s) as [|svc svcs IH]; [done|]. rewrite fmap_cons.
  destruct (selected_by (snap_Workloads s) svc) eqn:E.
  - by rewrite !filter_cons_False by (simpl; congruence).
  - rewrite !filter_cons_True by done. rewrite fmap_cons. by f_equal.
Qed.

Lemma workload_loop_det {rt : GoRuntime} (rts : nat → GoRuntime) st ws :
  foldl (λ st '(i, w), workload_step cluster idx caps resolver (rt := rts i) st w) st (imap pair ws) =
  foldl (workload_step cluster idx caps resolver) st ws.
Proof.
  rewrite (foldl_ext _ (λ st e, workload_step cluster idx caps resolver st e.2)).
  - rewrite <- (foldl_map _ snd). f_equal. rewrite fmap_imap. simpl.
    transitivity (imap (λ _ x, x) ws); [done|]. clear.
    induction ws as [|w ws IH]; [done|]. simpl. f_equal. exact IH.
  - intros st' [i w]. apply workload_step_det.
Qed.

(** The entries before the sort. *)
Lemma app_entries_perm {rt : GoRuntime} (rts : nat → GoRuntime) :
  let '(m, apps) :=
    foldl (λ st '(i, w), workload_step cluster idx caps resolver (rt := rts i) st w)
      (index_services (snap_Services s), []) (imap pair (snap_Workloads s)) in
  foldl (orphan_step cluster idx caps) apps (map_range m) ≡ₚ
  (entry_of <$> snap_Workloads s) ++
  (orphan_of <$> orphans).
Proof.
  rewrite workload_loop_det. pose proof (claim_inv_all (snap_Workloads s)) as [Hm Happs].
  destruct (foldl _ _ (snap_Workloads s)) as [m apps]. simpl in Hm, Happs. subst apps.
  rewrite orphan_fold.
  - f_equiv. rewrite list_fmap_compose, <- orphans_records. f_equiv. f_equiv.
    rewrite map_range_perm. by rewrite buckets_perm.
  - apply Forall_forall. intros [ns recs] Hin%map_range_elem_of. simpl.
    specialize (Hm ns). unfold mslice in Hm. rewrite Hin in Hm. simpl in Hm. subst recs.
    apply Forall_forall. by intros r [? _]%list_elem_of_filter.
Qed.
End build.

Lemma app_less_by2 : app_less = less_by2 app_Namespace app_Name.
Proof. done. Qed.

Lemma buildApplications_entries (rts : nat → GoRuntime) (rt : GoRuntime) (cluster : string)
    (s : K8sSnapshot) (caps : gmap string string) (resolver : Resolver) :
  buildApplications rts rt cluster s caps resolver ≡ₚ
  (entry_of cluster (buildIndex rts s) caps resolver s <$> snap_Workloads s) ++
  (orphan_of cluster (buildIndex rts s) caps <$> orphans s).
Proof.
  unfold buildApplications.
  pose proof (app_entries_perm cluster (buildIndex rts s) caps resolver s rts) as Hp.
  destruct (foldl _ _ (imap pair (snap_Workloads s))) as [m apps]. by rewrite sort_slice_perm.
Qed.

(** Applications are of the namespaces of the scanned objects. *)
Lemma buildApplications_namespaces (P : string → Prop) (rts : nat → GoRuntime) (rt : GoRuntime)
    (cluster : string) (s : K8sSnapshot) (caps : gmap string string) (resolver : Resolver) :
  in_scope P s → Forall (λ a, P (app_Namespace a)) (buildApplications rts rt cluster s caps resolver).
Proof.
  intros [_ _ Hs Hw _ _ _]. rewrite Forall_forall. intros a.
  rewrite buildApplications_entries, elem_of_app, !list_elem_of_fmap.
  pose proof (proj1 (Forall_forall _ _) Hs) as Hs'. pose proof (proj1 (Forall_forall _ _) Hw) as Hw'.
  intros [(w & -> & H)|(svc & -> & H)].
  - unfold entry_of, workload_entry. destruct (Resolve _ _ _ _). by apply Hw'.
  - apply Hs'. by apply list_elem_of_filter in H as [_ H].
Qed.

(** C2: the applications of a catalog are, ordered by namespace and name, one
    entry per workload, carrying in listing order the Services of its namespace
    whose selector its pod labels satisfy, and one [Service] entry for each
    Service no workload selects.  Nothing is lost and nothing is invented,
    whatever order Go ranges its maps in. *)
Theorem buildApplications_spec (rts : nat → GoRuntime) (rt : GoRuntime) (cluster : string)
    (s : K8sSnapshot) (caps : gmap string string) (resolver : Resolver) :
  let apps := buildApplications rts rt cluster s caps resolver in
  let idx := buildIndex rts s in
  apps ≡ₚ (entry_of cluster idx caps resolver s <$> snap_Workloads s) ++
          (orphan_of cluster idx caps <$> orphans s) ∧
  Sorted (λ a b, le2 (app_Namespace a, app_Name a) (app_Namespace b, app_Name b)) apps ∧
  (∀ svc, svc ∈ snap_Services s →
     ∃ app, app ∈ apps ∧ app_Namespace app = si_Namespace svc ∧
            serviceRefFrom svc idx ∈ app_Services app).
Proof.
  cbn zeta. split_and!; [apply buildApplications_entries| |].
  - unfold buildApplications. destruct (foldl _ _ (imap pair (snap_Workloads s))) as [m apps].
    eapply Sorted_weaken; [|apply (sort_slice_sorted app_less); rewrite app_less_by2; auto with go].
    intros a b. rewrite app_less_by2. apply less_by2_false.
  - intros svc Hsvc. setoid_rewrite buildApplications_entries.
    destruct (selected_by (snap_Workloads s) svc) eqn:E.
    + apply existsb_exists in E as (w & Hw & Es). apply list_elem_of_In in Hw.
      exists (entry_of cluster (buildIndex rts s) caps resolver s w). split_and!.
      * rewrite elem_of_app. left. by apply list_elem_of_fmap_2.
      * unfold entry_of, workload_entry. destruct (Resolve _ _ _ _) as [src repos]. simpl.
        unfold selects in Es. by breflect.
      * unfold entry_of, workload_entry. destruct (Resolve _ _ _ _) as [src repos]. simpl.
        apply list_elem_of_fmap. exists svc. split; [done|]. by apply list_elem_of_filter.
    + exists (orphan_of cluster (buildIndex rts s) caps svc). split_and!; [|done|by left].
      rewrite elem_of_app. right. apply list_elem_of_fmap_2. by apply list_elem_of_filter.
Qed.

Lemma serviceRefFrom_ext svc idx1 idx2 :
  (∀ key, hosts_of idx1 key = hosts_of idx2 key) → (∀ key, routes_of idx1 key = routes_of idx2 key) →
  serviceRefFrom svc idx1 = serviceRefFrom svc idx2.
Proof.
  unfold hosts_of, routes_of, mslice. intros Hh Hr. unfold serviceRefFrom. by rewrite Hh, Hr.
Qed.

Lemma buildIndex_det rts1 rts2 s key :
  hosts_of (buildIndex rts1 s) key = hosts_of (buildIndex rts2 s) key ∧
  routes_of (buildIndex rts1 s) key = routes_of (buildIndex rts2 s) key.
Proof.
  destruct (buildIndex_key rts1 s key) as [-> ->], (buildIndex_key rts2 s key) as [-> ->]. done.
Qed.

Lemma buildApplications_perm (rts1 rts2 : nat → GoRuntime) (rt1 rt2 : GoRuntime) cluster s caps resolver :
  buildApplications rts1 rt1 cluster s caps resolver ≡ₚ buildApplications rts2 rt2 cluster s caps resolver.
Proof.
  rewrite !buildApplications_entries.
  assert (∀ svc, serviceRefFrom svc (buildIndex rts1 s) = serviceRefFrom svc (buildIndex rts2 s)) as Href.
  { intros svc. apply serviceRefFrom_ext; intros key; apply (buildIndex_det rts1 rts2 s key). }
  f_equiv.
  - apply Permutation_refl'. apply list_fmap_ext. intros _ w _.
    rewrite (entry_of_det cluster (buildIndex rts1 s) caps resolver s rt1 rt2).
    unfold entry_of. f_equal. unfold workload_services. apply list_fmap_ext. intros. apply Href.
  - unfold orphans. rewrite (list_filter_iff (λ svc, selected_by (rt := rt1) (snap_Workloads s) svc = false)
      (λ svc, selected_by (rt := rt2) (snap_Workloads s) svc = false)).
    + apply Permutation_refl', list_fmap_ext. intros _ svc _. unfold orphan_of, orphan_entry. by rewrite Href.
    + intros svc. unfold selected_by. induction (snap_Workloads s) as [|w ws IH]; [done|]. simpl.
      rewrite (selects_det rt1 rt2). destruct (selects w svc); [done|exact IH].
Qed.

(** The applications are a function of the snapshot up to the order of
    entries that share namespace and name (a Deployment and a StatefulSet of one
    name): two runs that range every map in different orders and sort with
    different algorithms build the same entries, and when no two entries share
    both names they build the same list. *)
Theorem buildApplications_deterministic (rts1 rts2 : nat → GoRuntime) (rt1 rt2 : GoRuntime)
    (cluster : string) (s : K8sSnapshot) (caps : gmap string string) (resolver : Resolver) :
  let apps1 := buildApplications rts1 rt1 cluster s caps resolver in
  let apps2 := buildApplications rts2 rt2 cluster s caps resolver in
  apps1 ≡ₚ apps2 ∧
  (NoDup ((λ a, (app_Namespace a, app_Name a)) <$> apps1) → apps1 = apps2).
Proof.
  cbn zeta. split; [apply buildApplications_perm|].
  pose proof (buildApplications_perm rts1 rts2 rt1 rt2 cluster s caps resolver) as Hp. revert Hp.
  unfold buildApplications.
  destruct (foldl _ _ (imap pair (snap_Workloads s))) as [m1 apps1].
  destruct (foldl _ _ (imap pair (snap_Workloads s))) as [m2 apps2].
  intros Hp Hnd. rewrite !sort_slice_perm in Hp. rewrite sort_slice_perm in Hnd.
  rewrite app_less_by2. by apply sort_by2_det.
Qed.

(** ** Image references *)

(** An image reference as it is written: a repository, and a tag or a digest. *)
Inductive image_suffix := NoTag | Tag (t : string) | Digest (d : string).

Record image_ref := mkImageRef { img_repo : string; img_suffix : image_suffix }.

Definition print_image (i : image_ref) : string :=
  match img_suffix i with
  | NoTag => img_repo i
  | Tag t => img_repo i +:+ ":" +:+ t
  | Digest d => img_repo i +:+ "@" +:+ d
  end.

(** A repository without a tag may hold a registry port, never a colon after its
    last slash; a tag holds neither a separator nor a slash. *)
Definition wf_image (i : image_ref) : Prop :=
  lacks "@" (img_repo i) = true ∧
  match img_suffix i with
  | NoTag =>
      img_repo i ≠ EmptyString ∧
      (lacks ":" (img_repo i) = true ∨
       ∃ pre name, img_repo i = pre +:+ "/" +:+ name ∧ lacks ":" name = true)
  | Tag t => lacks "@" t = true ∧ lacks ":" t = true ∧ lacks "/" t = true
  | Digest _ => True
  end.

Lemma app_sep_cases a c b l d t :
  a +:+ String c b = l +:+ String d t →
  (b = t ∧ c = d) ∨ (∃ u, b = u +:+ String d t) ∨ ∃ u, t = u +:+ String c b.
Proof.
  revert l. induction a as [|x a IH]; intros [|y l]; rewrite ?str_app_nil_l, ?str_app_cons; intros H.
  - injection H as -> ->. by left.
  - injection H as -> ->. right. left. by exists l.
  - injection H as -> <-. right. right. by exists a.
  - injection H as -> H. by apply (IH l).
Qed.

(** Splitting an image reference inverts writing it: the text after the at
    sign is the digest, the text after the last colon the tag, unless that colon
    belongs to a registry port, when there is no tag. *)
Theorem splitImageTag_print (i : image_ref) :
  wf_image i →
  splitImageTag (print_image i) =
    (img_repo i, match img_suffix i with NoTag => EmptyString | Tag t => t | Digest d => d end).
Proof.
  destruct i as [repo suffix]. unfold wf_image, print_image, splitImageTag. simpl. intros [Hr Hs].
  assert (∀ c s, String.eqb (repo +:+ String c s) EmptyString = false) as Hne by (by destruct repo).
  destruct suffix as [|tag|digest].
  - destruct Hs as [Hne' Hs]. rewrite (proj2 (String.eqb_neq _ _) Hne'), Cut_lacks by done.
    destruct (CutLast repo ":") as [[l t]|] eqn:E; [|done].
    destruct Hs as [Hs|(pre & name & -> & Hn)]; [by rewrite CutLast_lacks in E|].
    apply CutLast_Some in E. destruct (Contains (":" +:+ t) "/") eqn:Ec; [done|exfalso].
    rewrite (Contains_byte (":" +:+ t)), negb_false_iff, lacks_app in Ec. apply andb_true_iff in Ec as [_ Ht].
    apply app_sep_cases in E as [[_ [=]]|[[u ->]|[u ->]]].
    + by rewrite lacks_app, lacks_cons, andb_false_r in Hn.
    + by rewrite lacks_app, lacks_cons, andb_false_r in Ht.
  - destruct Hs as (Ha & Hc & Hsl). change (":" +:+ tag) with (String ":" tag).
    rewrite Hne, Cut_lacks by (rewrite lacks_app, lacks_cons, Hr, Ha; done).
    rewrite CutLast_byte by done. change (":" +:+ tag) with (String ":" tag).
    by rewrite (Contains_byte (String ":" tag)), lacks_cons, Hsl.
  - change ("@" +:+ digest) with (String "@" digest). by rewrite Hne, Cut_byte.
Qed.

Lemma splitImageTag_print_witness :
  splitImageTag "registry.local:5000/team/app" = ("registry.local:5000/team/app", EmptyString).
Proof.
  apply (splitImageTag_print (mkImageRef "registry.local:5000/team/app" NoTag)).
  split; [reflexivity|]. split; [discriminate|]. right. exists "registry.local:5000/team", "app".
  split; reflexivity.
Defined.

(** ** Network policy edges *)

Definition netpol_edge (cluster : string) (np : NetworkPolicyInfo) (w : WorkloadInfo) (target : string)
    : DependencyEdge :=
  mkDependencyEdge (mkDependencyNode cluster (npi_Namespace np) (wl_Name w) false)
    (mkDependencyNode EmptyString EmptyString target true) "network_policy" "network_policy" (npi_Name np).

Definition applies {rt : GoRuntime} (np : NetworkPolicyInfo) (w : WorkloadInfo) : bool :=
  String.eqb (wl_Namespace w) (npi_Namespace np) && podSelectorMatches (npi_PodSelector np) (wl_PodLabels w).

(** Every declared edge, in order, repetitions included. *)
Definition declared_edges {rt : GoRuntime} (cluster : string) (s : K8sSnapshot) : list DependencyEdge :=
  snap_NetPolicies s ≫= λ np, snap_Workloads s ≫= λ w,
    if applies np w then netpol_edge cluster np w <$> npi_EgressTargets np else [].

Definition netpol_key (e : DependencyEdge) : string :=
  node_Namespace (edge_Source e) +:+ "/" +:+ node_Service (edge_Source e) +:+ "|" +:+ node_Service (edge_Target e).

Definition add_netpol (edges : list DependencyEdge) (e : DependencyEdge) : list DependencyEdge :=
  append_unless (λ x, String.eqb (netpol_key x) (netpol_key e)) edges e.

(** The state of the loop: the seen keys are those of the edges. *)
Definition netpol_state (edges : list DependencyEdge) (st : gset string * list DependencyEdge) : Prop :=
  st.2 = edges ∧ ∀ k, k ∈ st.1 ↔ k ∈ netpol_key <$> edges.

Section netpol.
Context {rt : GoRuntime} (cluster : string).

Lemma netpol_target_fold np w targets edges st :
  netpol_state edges st →
  netpol_state (foldl add_netpol edges (netpol_edge cluster np w <$> targets))
    (foldl (netpol_target_step cluster np w) st targets).
Proof.
  revert edges st. induction targets as [|t targets IH]; intros edges st Hst; [done|].
  rewrite fmap_cons. cbn [foldl]. apply IH. destruct st as [seen es], Hst as [E Hseen].
  simpl in E, Hseen. subst es. unfold netpol_target_step.
  change (npi_Namespace np +:+ "/" +:+ wl_Name w +:+ "|" +:+ t) with (netpol_key (netpol_edge cluster np w t)).
  unfold add_netpol, append_unless. set (e := netpol_edge cluster np w t).
  destruct (existsb (λ x, String.eqb (netpol_key x) (netpol_key e)) edges) eqn:Ex.
  - apply existsb_elem_of in Ex as (x & Hx & Ek). apply String.eqb_eq in Ek.
    rewrite bool_decide_eq_true_2; [by split|]. apply Hseen. rewrite <- Ek. by apply list_elem_of_fmap_2.
  - rewrite existsb_not_elem_of in Ex. rewrite bool_decide_eq_false_2.
    + split; [done|]. intros k. simpl. rewrite elem_of_union, elem_of_singleton, Hseen, fmap_app, elem_of_app.
      simpl. by rewrite list_elem_of_singleton.
    + rewrite Hseen. intros (x & Ek & Hx)%list_elem_of_fmap. specialize (Ex x Hx).
      apply String.eqb_neq in Ex. congruence.
Qed.

Lemma netpol_fold_bind {A} (step : gset string * list DependencyEdge → A → gset string * list DependencyEdge)
    (es : A → list DependencyEdge) l edges st :
  (∀ x edges st, netpol_state edges st → netpol_state (foldl add_netpol edges (es x)) (step st x)) →
  netpol_state edges st → netpol_state (foldl add_netpol edges (l ≫= es)) (foldl step st l).
Proof.
  intros H. revert edges st. induction l as [|x l IH]; intros edges st Hst; [done|].
  rewrite bind_cons, foldl_app. cbn [foldl]. apply IH. by apply H.
Qed.

Lemma workloads_by_ns (np : NetworkPolicyInfo) (ws : list WorkloadInfo) {B} (f : WorkloadInfo → list B) :
  mslice (foldl (λ m w, map_append m (wl_Namespace w) w) ∅ ws) (npi_Namespace np) ≫= f =
  ws ≫= λ w, if String.eqb (wl_Namespace w) (npi_Namespace np) then f w else [].
Proof.
  rewrite (map_append_fold wl_Namespace (λ w, w) ws (npi_Namespace np)), list_fmap_id.
  induction ws as [|w ws IH]; [done|]. rewrite bind_cons, <- IH.
  destruct (String.eqb_spec (wl_Namespace w) (npi_Namespace np)) as [E|E].
  - by rewrite filter_cons_True.
  - by rewrite filter_cons_False.
Qed.

Lemma netpol_edges_fold (s : K8sSnapshot) :
  buildNetworkPolicyEdges cluster s = foldl add_netpol [] (declared_edges cluster s).
Proof.
  unfold buildNetworkPolicyEdges. destruct (Nat.eqb_spec (length (snap_NetPolicies s)) 0) as [E|_].
  { unfold declared_edges. by rewrite (nil_length_inv _ E). }
  assert (netpol_state [] (∅, [])) as H0 by (split; [done|set_solver]).
  apply (netpol_fold_bind (netpol_step cluster (foldl (λ m w, map_append m (wl_Namespace w) w) ∅ (snap_Workloads s)))
    (λ np, snap_Workloads s ≫= λ w,
      if applies np w then netpol_edge cluster np w <$> npi_EgressTargets np else [])
    (snap_NetPolicies s)) in H0 as [H _]; [exact H|].
  intros np edges st Hst. unfold netpol_step.
  destruct (Nat.eqb_spec (length (npi_EgressTargets np)) 0) as [E|_].
  { apply nil_length_inv in E. rewrite E. assert (snap_Workloads s ≫= (λ w,
      if applies np w then netpol_edge cluster np w <$> [] else []) = []) as ->; [|done].
    induction (snap_Workloads s) as [|w ws IH]; [done|]. rewrite bind_cons, IH. by destruct (applies np w). }
  assert (snap_Workloads s ≫= (λ w,
      if applies np w then netpol_edge cluster np w <$> npi_EgressTargets np else []) =
    mslice (foldl (λ m w, map_append m (wl_Namespace w) w) ∅ (snap_Workloads s)) (npi_Namespace np) ≫= λ w,
      if podSelectorMatches (npi_PodSelector np) (wl_PodLabels w)
      then netpol_edge cluster np w <$> npi_EgressTargets np else []) as ->.
  { rewrite workloads_by_ns. apply list_bind_ext; [|done]. intros w. unfold applies.
    by destruct (String.eqb _ _). }
  apply netpol_fold_bind; [|done]. intros w edges' st' Hst'. unfold netpol_workload_step.
  destruct (podSelectorMatches _ _); [by apply netpol_target_fold|done].
Qed.
End netpol.

Lemma add_netpol_fold l edges :
  NoDup (netpol_key <$> edges) →
  let out := foldl add_netpol edges l in
  NoDup (netpol_key <$> out) ∧ (∀ e, e ∈ out → e ∈ edges ∨ e ∈ l) ∧
  (∀ e, e ∈ edges ∨ e ∈ l → ∃ e', e' ∈ out ∧ netpol_key e' = netpol_key e).
Proof.
  revert edges. induction l as [|e l IH]; intros edges Hnd; cbn zeta; cbn [foldl].
  { split_and!; [done|by left|]. intros e [H|H%elem_of_nil]; [by exists e|done]. }
  destruct (IH (add_netpol edges e)) as (H1 & H2 & H3).
  { apply append_unless_NoDup; [|done]. intros x. apply String.eqb_eq. }
  split_and!; [done| |].
  - intros x Hx. apply H2 in Hx as [Hx|Hx]; [|by right; right].
    apply append_unless_elem_of in Hx as [Hx| ->]; [by left|by right; left].
  - intros x [Hx|Hx]; [|apply elem_of_cons in Hx as [->|Hx]; [|apply H3; by right]].
    + apply H3. left. unfold add_netpol.
      destruct (append_unless_prefix (λ x, String.eqb (netpol_key x) (netpol_key e)) edges e) as [k ->].
      rewrite elem_of_app. by left.
    + destruct (append_unless_covers netpol_key (λ x, String.eqb (netpol_key x) (netpol_key e)) edges e)
        as (x & Hx & E); [intros y; apply String.eqb_eq|].
      destruct (H3 x (or_introl Hx)) as (e' & He' & E'). exists e'. split; [done|congruence].
Qed.

Lemma declared_edges_elem {rt : GoRuntime} cluster s e :
  e ∈ declared_edges cluster s ↔
  ∃ np w target, np ∈ snap_NetPolicies s ∧ w ∈ snap_Workloads s ∧ applies np w = true ∧
    target ∈ npi_EgressTargets np ∧ e = netpol_edge cluster np w target.
Proof.
  unfold declared_edges. rewrite list_elem_of_bind. split.
  - intros (np & (w & He & Hw)%list_elem_of_bind & Hnp). destruct (applies np w) eqn:Ea; [|by apply elem_of_nil in He].
    apply list_elem_of_fmap in He as (t & -> & Ht). by exists np, w, t.
  - intros (np & w & t & Hnp & Hw & Ha & Ht & ->). exists np. split; [|done]. apply list_elem_of_bind.
    exists w. split; [|done]. rewrite Ha. by apply list_elem_of_fmap_2.
Qed.

(** C36: the declared edges.  A workload depends on an egress target exactly when
    some policy of its namespace selects it and names the target; there is one
    edge per workload and target however many policies declare it, and every
    edge names a policy that does. *)
Theorem buildNetworkPolicyEdges_spec (rt : GoRuntime) (cluster : string) (s : K8sSnapshot) :
  Forall (λ np, lacks "/" (npi_Namespace np) = true) (snap_NetPolicies s) →
  Forall (λ w, lacks "|" (wl_Name w) = true) (snap_Workloads s) →
  let edges := buildNetworkPolicyEdges cluster s in
  NoDup ((λ e, (edge_Source e, edge_Target e)) <$> edges) ∧
  (∀ e, e ∈ edges → e ∈ declared_edges cluster s) ∧
  (∀ e, e ∈ declared_edges cluster s →
     ∃ e', e' ∈ edges ∧ edge_Source e' = edge_Source e ∧ edge_Target e' = edge_Target e) ∧
  (∀ e, e ∈ declared_edges cluster s ↔
     ∃ np w target, np ∈ snap_NetPolicies s ∧ w ∈ snap_Workloads s ∧ applies np w = true ∧
       target ∈ npi_EgressTargets np ∧ e = netpol_edge cluster np w target).
Proof.
  intros Hns Hnames. cbn zeta. rewrite netpol_edges_fold.
  destruct (add_netpol_fold (declared_edges cluster s) []) as (H1 & H2 & H3); [constructor|].
  set (edges := foldl add_netpol [] _) in *.
  assert (∀ e e', e ∈ declared_edges cluster s → e' ∈ declared_edges cluster s →
    netpol_key e = netpol_key e' → edge_Source e = edge_Source e' ∧ edge_Target e = edge_Target e') as Hinj.
  { intros e e' (np & w & t & Hnp & Hw & _ & _ & ->)%declared_edges_elem
      (np' & w' & t' & Hnp' & Hw' & _ & _ & ->)%declared_edges_elem.
    rewrite Forall_forall in Hns. rewrite Forall_forall in Hnames. unfold netpol_key. simpl. intros H.
    apply (sep_inj "/"%char) in H as [-> H]; [|by apply Hns..].
    by apply (sep_inj "|"%char) in H as [-> ->]; [|by apply Hnames..]. }
  assert (∀ e, e ∈ edges → e ∈ declared_edges cluster s) as Hsound.
  { intros e He. apply H2 in He as [[]%elem_of_nil|]; done. }
  split_and!; [| done| |intros; apply declared_edges_elem].
  - clearbody edges. clear -H1. induction edges as [|e es IH]; [constructor|].
    rewrite fmap_cons, NoDup_cons in H1. rewrite fmap_cons, NoDup_cons.
    destruct H1 as [He Hes]. split; [|by apply IH]. intros (e' & Ee & He')%list_elem_of_fmap.
    apply He, list_elem_of_fmap. exists e'. split; [|done]. injection Ee as Es Et.
    unfold netpol_key. by rewrite Es, Et.
  - intros e He. destruct (H3 e (or_intror He)) as (e' & He' & Ek). exists e'. split; [done|].
    apply Hinj; [by apply Hsound|done|done].
Qed.

Definition demo_workload (name : string) (labels : smap) : WorkloadInfo :=
  mkWorkloadInfo "cap-a" name "Deployment" 1 1 labels labels None None [].

Definition demo_snapshot : K8sSnapshot :=
  mkK8sSnapshot [mkNamespaceInfo "cap-a" "a-1" "" "" "" None] []
    [mkServiceInfo "cap-a" "web" "ClusterIP" "" (Some {[ "app" := "web" ]}) [mkServicePortInfo "http" 80 "80" "TCP"];
     mkServiceInfo "cap-a" "lonely" "ClusterIP" "" (Some {[ "app" := "gone" ]}) []]
    [demo_workload "web" (Some {[ "app" := "web" ]}); demo_workload "job" (Some {[ "app" := "job" ]})]
    [] [mkIngressRouteInfo "cap-a" "ir" [] true None [mkIngressRouteRule ["web.example.com"] [] ["web"]]]
    [mkNetworkPolicyInfo "cap-a" "np1" (Some {[ "app" := "web" ]}) ["10.0.0.0/8"];
     mkNetworkPolicyInfo "cap-a" "np2" None ["10.0.0.0/8"]] [].

Example demo_applications :
  (λ app, (app_Name app, app_Kind app, svc_Name <$> app_Services app,
           svc_ExternalHosts <$> app_Services app)) <$>
    buildApplications (λ _, reverse_runtime) insertion_runtime "prod" demo_snapshot ∅ (NewResolver (U := tree_unstructured) []) =
  [("job", "Deployment", [], []); ("lonely", "Service", ["lonely"], [[]]);
   ("web", "Deployment", ["web"], [["web.example.com"]])].
Proof. vm_compute. reflexivity. Qed.

Lemma buildApplications_deterministic_witness :
  buildApplications (λ _, reverse_runtime) insertion_runtime "prod" demo_snapshot ∅ (NewResolver (U := tree_unstructured) []) =
  buildApplications (λ _, insertion_runtime) reverse_runtime "prod" demo_snapshot ∅ (NewResolver (U := tree_unstructured) []).
Proof.
  pose proof (buildApplications_deterministic (λ _, reverse_runtime) (λ _, insertion_runtime)
    insertion_runtime reverse_runtime "prod" demo_snapshot ∅ (NewResolver (U := tree_unstructured) [])) as [_ H].
  apply H. apply (bool_decide_unpack _). vm_compute. exact I.
Defined.

Lemma buildNetworkPolicyEdges_spec_witness :
  NoDup ((λ e, (edge_Source e, edge_Target e)) <$>
    buildNetworkPolicyEdges (rt := insertion_runtime) "prod" demo_snapshot) ∧
  (λ e, (node_Service (edge_Source e), edge_Details e)) <$>
    buildNetworkPolicyEdges (rt := insertion_runtime) "prod" demo_snapshot = [("web", "np1"); ("job", "np2")].
Proof.
  split; [|vm_compute; reflexivity].
  apply (buildNetworkPolicyEdges_spec insertion_runtime "prod" demo_snapshot).
  - repeat constructor.
  - repeat constructor.
Defined.

(** ** A cycle *)

(** What Kubernetes said of an application: everything but the documents and the
    observed fields. *)
Definition doc_erase (app : ApplicationEntry) : ApplicationEntry :=
  app_set_Services app ((λ s, svc_set_APIDocs s []) <$> app_Services app).

Definition declared_part (app : ApplicationEntry) : ApplicationEntry :=
  app_set_overlay (doc_erase app) [] [] EmptyString f64_zero f64_zero.

Lemma alter_erase {A B} (f : A → B) (g : A → A) i (l : list A) :
  (∀ x, f (g x) = f x) → f <$> alter g i l = f <$> l.
Proof.
  intros H. revert i. induction l as [|x l IH]; intros [|i]; [done..| |].
  - change (alter g 0 (x :: l)) with (g x :: l). by rewrite !fmap_cons, H.
  - change (alter g (S i) (x :: l)) with (x :: alter g i l). by rewrite !fmap_cons, IH.
Qed.

Lemma fill_service_erase appIdx st e :
  doc_erase <$> (fill_service appIdx st e).1 = doc_erase <$> st.1.
Proof.
  destruct st as [apps hits], e as [svcIdx docs]. unfold fill_service. simpl. apply alter_erase.
  intros app. unfold doc_erase. cbn [app_set_Services app_Services].
  by rewrite (alter_erase (λ s, svc_set_APIDocs s [])).
Qed.

Lemma fold_erase {A} (step : list ApplicationEntry * nat → A → list ApplicationEntry * nat) l st :
  (∀ st x, doc_erase <$> (step st x).1 = doc_erase <$> st.1) →
  doc_erase <$> (foldl step st l).1 = doc_erase <$> st.1.
Proof.
  intros H. revert st. induction l as [|x l IH]; intros st; [done|]. simpl. by rewrite IH, H.
Qed.

(** Probing only fills documents in. *)
Lemma Probe_erase {GU : GoUnicode} {rt : GoRuntime} webs sched apps :
  doc_erase <$> (Swagger.Probe webs sched apps).1.1 = doc_erase <$> apps.
Proof.
  unfold Swagger.Probe. destruct (Nat.eqb _ 0); [done|].
  destruct (fill_results apps _) as [apps' hits] eqn:E. simpl.
  change apps' with (apps', hits).1. rewrite <- E. unfold fill_results.
  rewrite fold_erase; [done|]. intros st [i bySvc]. unfold fill_app. by rewrite fold_erase by apply fill_service_erase.
Qed.

Lemma overlaid_declared a b : overlaid a b → declared_part b = declared_part a.
Proof.
  intros (H & _). symmetry. exact (f_equal declared_part H).
Qed.

Definition has_source (app : ApplicationEntry) : bool :=
  match app_DeploymentSource app with Some _ => true | None => false end.

Lemma overlaid_declared_list l l' : Forall2 overlaid l l' → declared_part <$> l' = declared_part <$> l.
Proof.
  induction 1 as [|a b l l' Hab _ IH]; [done|]. rewrite !fmap_cons, IH. f_equal. by apply overlaid_declared.
Qed.

(** A count of declared facts is the same before and after the passes. *)
Lemma count_declared (p : ApplicationEntry → bool) l l' :
  (∀ a, p (declared_part a) = p a) → declared_part <$> l = declared_part <$> l' → count p l = count p l'.
Proof.
  intros Hp. unfold count. intros E. f_equal. revert l' E.
  induction l as [|a l IH]; intros [|b l']; [done..|]. rewrite !fmap_cons. intros E.
  pose proof (f_equal tail E) as Hl. apply (f_equal head), (inj Some) in E as Hab. cbn [tail] in Hl.
  assert (p a = p b) as Eab by (by rewrite <- (Hp a), <- (Hp b), Hab).
  specialize (IH l' Hl). destruct (p a) eqn:Ea.
  - rewrite !filter_cons_True by congruence. simpl. by rewrite IH.
  - by rewrite !filter_cons_False by congruence.
Qed.

Lemma stats_fold l st :
  foldl stats_step st l =
  mkCatalogStats (stats_TotalApplications st)
    (stats_CapabilityOwnedApplications st + count (λ a, nonempty (app_CapabilityID a)) l)
    (stats_ApplicationsWithDocs st + count applicationHasDocs l)
    (stats_ApplicationsWithDeploySource st + count has_source l)
    (stats_TotalDependencies st) (stats_CollectionDurationMs st).
Proof.
  assert (∀ (p : ApplicationEntry → bool) x l, count p (x :: l) = (if p x then 1 else 0) + count p l)%Z as Hc.
  { intros p x l'. unfold count. destruct (p x) eqn:E.
    - rewrite filter_cons_True by done. simpl. lia.
    - rewrite filter_cons_False by congruence. done. }
  revert st. induction l as [|a l IH]; intros st; simpl.
  - destruct st. unfold count. simpl. f_equal; lia.
  - rewrite IH, !Hc. unfold stats_step, has_source. simpl. f_equal; [lia|lia|].
    destruct (app_DeploymentSource a); lia.
Qed.

Lemma capability_index_lookup l ns :
  NoDup (nse_Name <$> l) → ns ∈ l → capability_index l !! nse_Name ns = Some (nse_CapabilityID ns).
Proof.
  intros Hnd Hin. change (capability_index l) with
    (index_by (λ n, Some (nse_Name n, nse_CapabilityID n)) l).
  apply (index_by_lookup _ _ ns); [done..|]. intros y w Hy [= E <-]. f_equal.
  by eapply NoDup_fmap_inj.
Qed.

Lemma probe_pass_erase {GU : GoUnicode} {rt : GoRuntime} prober env apps :
  doc_erase <$> (probe_pass prober env apps).1 = doc_erase <$> apps.
Proof.
  destruct prober as [p|]; [|done]. simpl. unfold counted_Probe.
  pose proof (Probe_erase (ce_webs env) (ce_sched env) apps) as H.
  by destruct (Swagger.Probe _ _ _) as [[? ?] ?].
Qed.

Lemma erase_declared (l l' : list ApplicationEntry) : doc_erase <$> l = doc_erase <$> l' → declared_part <$> l = declared_part <$> l'.
Proof.
  intros H. pose proof (f_equal (fmap (λ a, app_set_overlay a [] [] EmptyString f64_zero f64_zero)) H) as E.
  by rewrite <- !list_fmap_compose in E.
Qed.

Lemma overlay_pass_overlaid {GU : GoUnicode} {rt : GoRuntime} overlayer round caches apps :
  Forall2 overlaid apps (overlay_pass overlayer round caches apps).1.2.
Proof.
  destruct overlayer as [o|]; [apply overlay_run_overlaid|]. simpl.
  apply Forall_Forall2_diag, Forall_true. done.
Qed.

Lemma overlaid_named (l l' : list ApplicationEntry) :
  Forall2 overlaid l l' → Forall named_app l' → Forall named_app l.
Proof.
  intros H. induction H as [|a b l l' Hab _ IH]; [done|]. intros [Hb Hl]%Forall_cons.
  constructor; [|by apply IH]. destruct Hab as (Hid & _).
  pose proof (f_equal app_Namespace Hid) as En. pose proof (f_equal app_Name Hid) as Ea.
  pose proof (f_equal app_Services Hid) as Es. simpl in En, Ea, Es.
  unfold named_app, service_keys in *. by rewrite En, Ea, Es.
Qed.

(** A declared edge leads from a policy's namespace to an external node. *)
Lemma netpol_edges_from {rt : GoRuntime} cluster s :
  Forall (λ e, node_External (edge_Target e) = true ∧
    ∃ np, np ∈ snap_NetPolicies s ∧ node_Namespace (edge_Source e) = npi_Namespace np)
    (buildNetworkPolicyEdges cluster s).
Proof.
  unfold buildNetworkPolicyEdges. destruct (Nat.eqb _ 0); [constructor|]. set (ok := λ e, _ ∧ _).
  apply (foldl_inv (λ st, Forall ok st.2)); [constructor|].
  intros st np Hnp Hst. unfold netpol_step. destruct (Nat.eqb _ 0); [done|].
  apply (foldl_inv (λ st, Forall ok st.2)); [done|].
  intros st' w _ Hst'. unfold netpol_workload_step. destruct (negb _); [done|].
  apply (foldl_inv (λ st, Forall ok st.2)); [done|].
  intros [seen edges] target _ He. unfold netpol_target_step. case_bool_decide; [done|]. simpl in *.
  apply Forall_app. split; [done|]. apply Forall_singleton. split; [done|]. by exists np.
Qed.

(** A successful cycle is its passes, one after the other. *)
Lemma Collect_Ok {GU : GoUnicode} {U : Unstructured} (rts : nat → GoRuntime) (rt : GoRuntime)
    (c : Collector) (env : CycleEnv) (mem : memory) (s : K8sSnapshot) :
  ce_snapshot env = Ok s →
  let namespaces := buildNamespaces (col_cluster c) s in
  let apps := buildApplications rts rt (col_cluster c) s (capability_index namespaces)
                (NewResolver (snap_GitOps s)) in
  let probed := probe_pass (mem_prober mem) env apps in
  let out := overlay_pass (col_overlayer c) (ce_round env) (mem_caches mem) probed.1 in
  let cat := mkCatalog (col_cluster c) out.1.2 namespaces
    (out.1.1 ++ buildNetworkPolicyEdges (col_cluster c) s) (ce_started env) (ce_published env) zero_stats in
  Collect rts rt c env mem =
    (Ok (with_stats cat (computeStats cat (ce_finished env - ce_started env))), mkMemory probed.2 out.2) ∧
  declared_part <$> out.1.2 = declared_part <$> apps.
Proof.
  intros Hs. unfold Collect. rewrite Hs. cbn zeta.
  set (apps := buildApplications _ _ _ _ _ _) in *.
  pose proof (erase_declared _ _ (probe_pass_erase (mem_prober mem) env apps)) as Hp.
  destruct (probe_pass _ _ _) as [probed prober]. simpl in Hp |- *.
  pose proof (overlaid_declared_list _ _ (overlay_pass_overlaid (col_overlayer c) (ce_round env) (mem_caches mem) probed)) as Ho.
  destruct (overlay_pass _ _ _) as [[deps apps'] caches']. simpl in Ho |- *.
  split; [|by rewrite Ho]. destruct (buildNetworkPolicyEdges _ _); [by rewrite app_nil_r|done].
Qed.

(** C3: a cycle.  It fails exactly when the scan fails, with the scan's error, and
    changes nothing then.  Otherwise the applications built from the snapshot go
    through the OpenAPI probes and then the overlay (each left out when it is not
    configured), which add documents and observations and change nothing Kubernetes
    declared; the catalog holds the applications the overlay leaves, the overlay's
    edges followed by the declared ones, and the scanned namespaces ordered by name;
    its statistics count what it holds; and the memory is the one those two passes
    leave. *)
Theorem Collect_spec (GU : GoUnicode) (U : Unstructured) (rts : nat → GoRuntime) (rt : GoRuntime)
    (c : Collector) (env : CycleEnv) (mem : memory) :
  match ce_snapshot env with
  | Err e => Collect rts rt c env mem = (Err e, mem)
  | Ok s =>
      let namespaces := buildNamespaces (col_cluster c) s in
      let apps := buildApplications rts rt (col_cluster c) s (capability_index namespaces)
                    (NewResolver (snap_GitOps s)) in
      ∃ cat probed prober observed apps' caches,
        Collect rts rt c env mem = (Ok cat, mkMemory prober caches) ∧
        match mem_prober mem with
        | None => probed = apps ∧ prober = None
        | Some p => ∃ p', counted_Probe p (ce_webs env) (ce_sched env) apps = (probed, p') ∧ prober = Some p'
        end ∧
        match col_overlayer c with
        | None => observed = [] ∧ apps' = probed ∧ caches = mem_caches mem
        | Some o => Apply o (ce_round env) (mem_caches mem) probed = (observed, apps', caches)
        end ∧
        cat_Cluster cat = col_cluster c ∧
        cat_Applications cat = apps' ∧ declared_part <$> apps' = declared_part <$> apps ∧
        cat_Dependencies cat = observed ++ buildNetworkPolicyEdges (col_cluster c) s ∧
        cat_Namespaces cat ≡ₚ namespace_entry (col_cluster c) <$> snap_Namespaces s ∧
        Sorted (λ a b, String.leb (nse_Name a) (nse_Name b) = true) (cat_Namespaces cat) ∧
        cat_Stats cat = mkCatalogStats (Z.of_nat (length apps))
          (count (λ a, nonempty (app_CapabilityID a)) apps)
          (count applicationHasDocs (cat_Applications cat))
          (count has_source apps)
          (Z.of_nat (length (cat_Dependencies cat)))
          (Z.quot (ce_finished env - ce_started env) (10 ^ 6)) ∧
        cat_CollectedAt cat = ce_started env ∧ cat_PublishedAt cat = ce_published env
  end.
Proof.
  destruct (ce_snapshot env) as [s|e] eqn:Es; [|unfold Collect; by rewrite Es]. cbn zeta.
  destruct (Collect_Ok rts rt c env mem s Es) as [HC Hout]. rewrite HC. clear HC.
  set (apps := buildApplications _ _ _ _ _ _) in *.
  destruct (probe_pass (mem_prober mem) env apps) as [probed prober] eqn:Ep. cbn [fst snd] in *.
  destruct (overlay_pass _ _ _ _) as [[observed apps'] caches] eqn:Eo. cbn [fst snd] in *.
  assert (length apps' = length apps) as Hlen.
  { by rewrite <- (length_fmap declared_part apps'), Hout, length_fmap. }
  eexists _, probed, prober, observed, apps', caches. split; [reflexivity|].
  split_and!; simpl; [| |done..| | | |done|done].
  - revert Ep. unfold probe_pass. destruct (mem_prober mem) as [p|]; [|by intros [= <- <-]].
    destruct (counted_Probe _ _ _ _) as [probed' p']. intros [= <- <-]. by exists p'.
  - revert Eo. unfold overlay_pass. destruct (col_overlayer c) as [o|]; [done|by intros [= <- <- <-]].
  - unfold buildNamespaces. by rewrite sort_slice_perm.
  - eapply Sorted_weaken; [|apply (sort_slice_sorted (less_by nse_Name)); auto with go].
    intros a b. unfold less_by. by rewrite str_ltb_leb, negb_false_iff.
  - unfold computeStats. rewrite stats_fold. simpl.
    by rewrite Hlen, (count_declared (λ a, nonempty (app_CapabilityID a)) apps' apps),
      (count_declared has_source apps' apps).
Qed.

Definition demo_env (started : Z) : CycleEnv :=
  mkCycleEnv 0 (Ok demo_snapshot) (λ _ _, None) (λ l, l) started (started + 4) (started + 5000000).

Lemma Collect_spec_witness :
  let '(c, mem) := NewCollector "prod" None None (mkOcaches None None None) in
  ∃ cat mem', Collect (GU := demo_unicode) (U := tree_unstructured) (λ _, insertion_runtime) insertion_runtime c
           (demo_env 10) mem = (Ok cat, mem') ∧
    stats_CollectionDurationMs (cat_Stats cat) = 5%Z ∧ length (cat_Dependencies cat) = 2.
Proof.
  cbn zeta. destruct (Collect_spec demo_unicode tree_unstructured (λ _, insertion_runtime) insertion_runtime
    (mkCollector "prod" None) (demo_env 10) (mkMemory None (mkOcaches None None None))) as
    (cat & probed & prober & observed & apps' & caches & HC & _ & (Ho & _ & _) & _ & _ & _ & Hd & _ & _ & Hs & _).
  subst observed. exists cat, (mkMemory prober caches). split; [exact HC|].
  rewrite Hs, Hd. split; [reflexivity|vm_compute; reflexivity].
Defined.
