(* ===== verification/Auth.v ===== *)
(** * Bearer-token authentication ([internal/auth/oidc.go])

    The OIDC library is a parameter: a discovery gives, for the issuer, an error
    or a function from the audience to a token verifier, and a token verifier
    gives an error or a token whose claims decode or do not. *)

From S2P Require Export Model.
From Stdlib Require Import Ascii.

Record claims := mkClaims { c_Roles : list string }.

(** [Verify], then [Claims] of the token. *)
Abbreviation IDTokenVerifier := (string → result (result claims)).
Abbreviation Discovery := (string → result (string → IDTokenVerifier)).

Record Verifier := mkVerifier {
  v_issuerURL : string;
  v_audience : string;
  v_requiredRoles : list string;
  v_state : option IDTokenVerifier;
}.

Definition refresh (newProvider : Discovery) (v : Verifier) : option string * Verifier :=
  match newProvider (v_issuerURL v) with
  | Err e => (Some ("oidc discovery: " +:+ e), v)
  | Ok prov =>
      (None, mkVerifier (v_issuerURL v) (v_audience v) (v_requiredRoles v) (Some (prov (v_audience v))))
  end.

Definition NewVerifier (newProvider : Discovery) (issuerURL audience : string) (requiredRoles : list string)
    : result Verifier :=
  let '(err, v) := refresh newProvider (mkVerifier issuerURL audience requiredRoles None) in
  match err with
  | Some e => Err e
  | None => Ok v
  end.

(** One tick of [Run]; a failure is logged. *)
Definition run_tick (v : Verifier) (newProvider : Discovery) : Verifier := (refresh newProvider v).2.

(** [Run] over the discoveries its ticks meet until the context ends. *)
Definition Run (v : Verifier) (ticks : list Discovery) : Verifier := foldl run_tick v ticks.

Definition hour_ns : Z := 3600 * 10 ^ 9.

Definition run_interval (interval : Z) : Z := if (interval <=? 0)%Z then hour_ns else interval.

Definition hasRequiredRole (tokenRoles requiredRoles : list string) : bool :=
  if Nat.eqb (length requiredRoles) 0 then true
  else
    let set := foldl (λ (s : gset string) r, s ∪ {[r]}) ∅ tokenRoles in
    existsb (λ required, bool_decide (required ∈ set)) requiredRoles.

(** [None] is a nil error. *)
Definition verify (v : Verifier) (rawToken : string) : option string :=
  match v_state v with
  | None => Some "oidc verifier not initialised"
  | Some verifier =>
      match verifier rawToken with
      | Err e => Some ("verify token: " +:+ e)
      | Ok tok =>
          match tok with
          | Err e => Some ("decode claims: " +:+ e)
          | Ok c =>
              if negb (hasRequiredRole (c_Roles c) (v_requiredRoles v))
              then Some ("missing required role (need one of [" +:+ Join (v_requiredRoles v) " " +:+ "])")
              else None
          end
      end
  end.

Definition bearerToken (header : string) : result string :=
  if String.eqb header EmptyString then Err "no Authorization header"
  else
    match Cut header " " with
    | None => Err "malformed Authorization header"
    | Some (scheme, rest) =>
        if negb (EqualFold scheme "Bearer") || String.eqb (TrimSpace rest) EmptyString
        then Err "malformed Authorization header"
        else Ok (TrimSpace rest)
    end.

(** What a middleware does with a request: pass it on, or answer 401. *)
Inductive mw_outcome := Next | Unauthorized (reason : string).

(** The rejection counter is [None] when no [onReject] is given. *)
Definition reject (onReject : option Z) (reason : string) : mw_outcome * option Z :=
  (Unauthorized reason, match onReject with None => None | Some n => Some (n + 1)%Z end).

Definition Middleware (v : Verifier) (onReject : option Z) (header : string) : mw_outcome * option Z :=
  match bearerToken header with
  | Err _ => reject onReject "missing or malformed Authorization header"
  | Ok raw =>
      match verify v raw with
      | Some err => reject onReject err
      | None => (Next, onReject)
      end
  end.

Definition DisabledMiddleware (onReject : option Z) (header : string) : mw_outcome * option Z :=
  (Next, onReject).

(** ** Roles and headers *)

Lemma hasRequiredRole_iff tokenRoles requiredRoles :
  hasRequiredRole tokenRoles requiredRoles = true ↔
  requiredRoles = [] ∨ ∃ r, r ∈ requiredRoles ∧ r ∈ tokenRoles.
Proof.
  unfold hasRequiredRole. destruct (Nat.eqb_spec (length requiredRoles) 0) as [E|E].
  { apply nil_length_inv in E. subst. naive_solver. }
  assert (∀ l s r, r ∈ foldl (λ (s : gset string) r, s ∪ {[r]}) s l ↔ r ∈ s ∨ r ∈ l) as Hset.
  { induction l as [|x l IH]; intros s r; cbn [foldl]; [set_solver|]. rewrite IH. set_solver. }
  rewrite existsb_elem_of. setoid_rewrite bool_decide_eq_true. setoid_rewrite Hset. split.
  - intros (r & Hr & [H|H]); [set_solver|]. right. by exists r.
  - intros [->|(r & Hr & H)]; [done|]. exists r. auto.
Qed.

Lemma bearerToken_Ok header raw :
  bearerToken header = Ok raw ↔
  ∃ scheme rest, header = scheme +:+ " " +:+ rest ∧ lacks " " scheme = true ∧
    EqualFold scheme "Bearer" = true ∧ raw = TrimSpace rest ∧ raw ≠ EmptyString.
Proof.
  unfold bearerToken. split.
  - destruct (String.eqb header EmptyString); [done|].
    destruct (Cut header " ") as [[scheme rest]|] eqn:Ec; [|done].
    destruct (negb _ || _) eqn:E; [done|]. intros [= <-]. breflect.
    pose proof (Cut_Some _ _ _ _ Ec) as ->. exists scheme, rest. split_and!; [done| |done..].
    destruct (lacks " " scheme) eqn:El; [done|exfalso].
    assert (string_map lower_byte scheme = string_map lower_byte "Bearer") as Hlow.
    { by apply String.eqb_eq. }
    assert (∀ s, lacks " " (string_map lower_byte s) = true → lacks " " s = true) as Hl.
    { induction s as [|c s IH]; [done|]. cbn [string_map]. rewrite !lacks_cons, !andb_true_iff.
      intros [Hc Hs]. split; [|by apply IH]. destruct (Ascii.eqb_spec c " "); [by subst c|done]. }
    by rewrite (Hl scheme) in El by (rewrite Hlow; reflexivity).
  - intros (scheme & rest & -> & Hl & Hf & -> & Hne).
    assert (String.eqb (scheme +:+ " " +:+ rest) EmptyString = false) as -> by (by destruct scheme).
    change (" " +:+ rest) with (String " " rest). rewrite Cut_byte by done. rewrite Hf. simpl.
    by rewrite (proj2 (String.eqb_neq _ _) Hne).
Qed.

(** ** Theorems *)

(** The header carries a token that the current verifier accepts and whose roles
    meet the requirement. *)
Definition authorised (v : Verifier) (header : string) : Prop :=
  ∃ scheme rest verifier c,
    header = scheme +:+ " " +:+ rest ∧ lacks " " scheme = true ∧ EqualFold scheme "Bearer" = true ∧
    TrimSpace rest ≠ EmptyString ∧ v_state v = Some verifier ∧ verifier (TrimSpace rest) = Ok (Ok c) ∧
    (v_requiredRoles v = [] ∨ ∃ r, r ∈ v_requiredRoles v ∧ r ∈ c_Roles c).

Lemma verify_None v raw :
  verify v raw = None ↔
  ∃ verifier c, v_state v = Some verifier ∧ verifier raw = Ok (Ok c) ∧
    hasRequiredRole (c_Roles c) (v_requiredRoles v) = true.
Proof.
  unfold verify. split.
  - destruct (v_state v) as [ver|]; [|done]. destruct (ver raw) as [[c|]|] eqn:E; [|done..].
    destruct (hasRequiredRole _ _) eqn:Er; [|done]. intros _. by exists ver, c.
  - intros (ver & c & -> & -> & ->). done.
Qed.

(** Authentication is sound and complete.  A request passes exactly when its
    Authorization header is a Bearer scheme (whatever its letter case) and a
    nonblank token which the current verifier accepts, whose claims decode and
    hold one of the required roles; every other request is answered 401 and
    counted once, and nothing else is counted. *)
Theorem Middleware_spec (v : Verifier) (onReject : option Z) (header : string) :
  match Middleware v onReject header with
  | (Next, n) => authorised v header ∧ n = onReject
  | (Unauthorized _, n) => ¬ authorised v header ∧ n = (λ k, k + 1)%Z <$> onReject
  end.
Proof.
  assert (authorised v header ↔ ∃ raw, bearerToken header = Ok raw ∧ verify v raw = None) as Ha.
  { setoid_rewrite bearerToken_Ok. setoid_rewrite verify_None. setoid_rewrite hasRequiredRole_iff.
    unfold authorised. split.
    - intros (scheme & rest & ver & c & ? & ? & ? & ? & ? & ? & ?). exists (TrimSpace rest).
      split; [by exists scheme, rest|by exists ver, c].
    - intros (raw & (scheme & rest & ? & ? & ? & -> & ?) & ver & c & ? & ? & ?).
      by exists scheme, rest, ver, c. }
  unfold Middleware, reject. destruct (bearerToken header) as [raw|e] eqn:Eb.
  - destruct (verify v raw) as [err|] eqn:Ev.
    + rewrite Ha. split; [|by destruct onReject]. intros (raw' & [= <-] & E). congruence.
    + rewrite Ha. split; [|done]. by exists raw.
  - rewrite Ha. split; [|by destruct onReject]. by intros (raw' & [=] & _).
Qed.

(** The verifier of the last discovery that succeeded. *)
Definition last_verifier (v : Verifier) (ticks : list Discovery) : option IDTokenVerifier :=
  foldl (λ st d, match d (v_issuerURL v) with Ok prov => Some (prov (v_audience v)) | Err _ => st end)
    (v_state v) ticks.

Lemma Run_state v ticks :
  Run v ticks = mkVerifier (v_issuerURL v) (v_audience v) (v_requiredRoles v) (last_verifier v ticks).
Proof.
  unfold Run, last_verifier. revert v. induction ticks as [|d ticks IH]; intros v; [by destruct v|].
  cbn [foldl]. rewrite IH. unfold run_tick, refresh. by destruct (d (v_issuerURL v)).
Qed.

(** The background refresh.  A verifier is only built by a successful
    discovery, and from then on, whatever the later discoveries give, there is a
    token verifier in force: that of the last discovery that succeeded, for the
    configured audience.  A failed refresh changes nothing; the issuer, the
    audience and the roles never change. *)
Theorem Run_keeps_verifier (newProvider : Discovery) (issuerURL audience : string)
    (requiredRoles : list string) :
  match NewVerifier newProvider issuerURL audience requiredRoles with
  | Err e => ∃ e', newProvider issuerURL = Err e' ∧ e = "oidc discovery: " +:+ e'
  | Ok v => ∀ ticks,
      v_issuerURL (Run v ticks) = issuerURL ∧ v_audience (Run v ticks) = audience ∧
      v_requiredRoles (Run v ticks) = requiredRoles ∧
      ∃ pre d post prov, newProvider :: ticks = pre ++ d :: post ∧ d issuerURL = Ok prov ∧
        Forall (λ d', ¬ is_ok (d' issuerURL)) post ∧ v_state (Run v ticks) = Some (prov audience)
  end.
Proof.
  unfold NewVerifier, refresh. simpl. destruct (newProvider issuerURL) as [prov0|e] eqn:E0; [|by exists e].
  intros ticks. rewrite Run_state. simpl. split_and!; [done..|]. unfold last_verifier. simpl.
  induction ticks as [|d ticks IH] using rev_ind.
  - exists [], newProvider, [], prov0. split_and!; [done|done|by constructor|done].
  - rewrite foldl_app. simpl. destruct (d issuerURL) as [prov|e] eqn:Ed.
    + exists (newProvider :: ticks), d, [], prov. split_and!; [done|done|by constructor|done].
    + destruct IH as (pre & d0 & post & prov & Hl & Hd & Hp & Hs).
      exists pre, d0, (post ++ [d]), prov. split_and!; [|done| |done].
      * by rewrite app_comm_cons, Hl, <- app_assoc.
      * apply Forall_app. split; [done|]. apply Forall_singleton. rewrite Ed. by intros [].
Qed.
