(* ===== verification/Config.v ===== *)
(** * Configuration ([internal/config/config.go])

    [envconfig.Process] is a parameter: a function from the seeded configuration
    to the configuration it leaves and its error.  QPS is a binary32 value.
    [loaded] states the defaults and [first_failure] the requirements, apart from
    the code of [Load]. *)

From S2P Require Export Model.

Record KubernetesConf := mkKubernetesConf {
  kc_Concurrency : Z;
  kc_NamespaceExclude : list string;
  kc_NamespaceInclude : list string;
  kc_QPS : spec_float;
  kc_Burst : Z;
}.

Record OIDCConf := mkOIDCConf {
  oc_Enabled : bool;
  oc_IssuerURL : string;
  oc_Audience : string;
  oc_RequiredRoles : list string;
}.

Record SwaggerConf := mkSwaggerConf { sc_Enabled : bool; sc_TimeoutMs : Z; sc_Concurrency : Z }.

Record ReachabilityConf := mkReachabilityConf {
  rc_Enabled : bool;
  rc_Interval : Z;
  rc_TimeoutMs : Z;
  rc_Concurrency : Z;
}.

Record TelemetryConf := mkTelemetryConf {
  tc_Enabled : bool;
  tc_MimirURL : string;
  tc_BasicAuthUser : string;
  tc_BasicAuthToken : string;
  tc_LookbackMinutes : Z;
  tc_TimeoutMs : Z;
}.

Record Config := mkConfig {
  cf_LogLevel : string;
  cf_LogDebug : bool;
  cf_WorkerInterval : Z;
  cf_ClusterName : string;
  cf_APIPort : Z;
  cf_Kubernetes : KubernetesConf;
  cf_OIDC : OIDCConf;
  cf_GitOpsEnabled : bool;
  cf_Swagger : SwaggerConf;
  cf_Reachability : ReachabilityConf;
  cf_Telemetry : TelemetryConf;
}.

Definition hasEntries (values : list string) : bool :=
  existsb (λ v, negb (String.eqb (TrimSpace v) EmptyString)) values.

Definition f32_of_Z (z : Z) : spec_float := binary_normalize 24 128 z 0 false.

Definition is_zero_float (x : spec_float) : bool := match x with S754_zero _ => true | _ => false end.

(** [if x == 0 { x = d }], for a number and for a string. *)
Definition or_int (x d : Z) : Z := if (x =? 0)%Z then d else x.
Definition or_string (x d : string) : string := if String.eqb x EmptyString then d else x.

(** The zero configuration with the booleans that default to true. *)
Definition seed : Config :=
  mkConfig EmptyString false 0 EmptyString 0
    (mkKubernetesConf 0 [] [] f64_zero 0) (mkOIDCConf true EmptyString EmptyString []) true
    (mkSwaggerConf true 0 0) (mkReachabilityConf true 0 0 0)
    (mkTelemetryConf false EmptyString EmptyString EmptyString 0 0).

Definition early_defaults (c : Config) : Config :=
  let k := cf_Kubernetes c in
  mkConfig (or_string (cf_LogLevel c) "info") (cf_LogDebug c) (or_int (cf_WorkerInterval c) 300)
    (cf_ClusterName c) (or_int (cf_APIPort c) 8080)
    (mkKubernetesConf (or_int (kc_Concurrency k) 10) (kc_NamespaceExclude k) (kc_NamespaceInclude k)
       (if is_zero_float (kc_QPS k) then f32_of_Z 50 else kc_QPS k) (or_int (kc_Burst k) 100))
    (cf_OIDC c) (cf_GitOpsEnabled c) (cf_Swagger c) (cf_Reachability c) (cf_Telemetry c).

Definition late_defaults (c : Config) : Config :=
  let o := cf_OIDC c in
  let s := cf_Swagger c in
  let r := cf_Reachability c in
  let t := cf_Telemetry c in
  mkConfig (cf_LogLevel c) (cf_LogDebug c) (cf_WorkerInterval c) (cf_ClusterName c) (cf_APIPort c)
    (cf_Kubernetes c)
    (mkOIDCConf (oc_Enabled o) (oc_IssuerURL o) (oc_Audience o)
       (if Nat.eqb (length (oc_RequiredRoles o)) 0 then ["Catalog.Read"] else oc_RequiredRoles o))
    (cf_GitOpsEnabled c)
    (mkSwaggerConf (sc_Enabled s) (or_int (sc_TimeoutMs s) 2000) (or_int (sc_Concurrency s) 20))
    (mkReachabilityConf (rc_Enabled r) (or_int (rc_Interval r) 300) (or_int (rc_TimeoutMs r) 5000)
       (or_int (rc_Concurrency r) 20))
    (mkTelemetryConf (tc_Enabled t) (tc_MimirURL t) (tc_BasicAuthUser t) (tc_BasicAuthToken t)
       (or_int (tc_LookbackMinutes t) 60) (or_int (tc_TimeoutMs t) 60000)).

(** [envconfig.Process]: what it leaves and its error. *)
Abbreviation Process := (Config → Config * option string).

Definition Load (process : Process) : Config * option string :=
  let '(conf, err) := process seed in
  match err with
  | Some e => (conf, Some e)
  | None =>
      let conf := early_defaults conf in
      if String.eqb (cf_ClusterName conf) EmptyString then (conf, Some "SSUC_CLUSTERNAME must be set")
      else if hasEntries (kc_NamespaceExclude (cf_Kubernetes conf)) &&
              hasEntries (kc_NamespaceInclude (cf_Kubernetes conf)) then
        (conf, Some "SSUC_KUBERNETES_NAMESPACEEXCLUDE and SSUC_KUBERNETES_NAMESPACEINCLUDE are mutually exclusive; set at most one")
      else
        let conf := late_defaults conf in
        let o := cf_OIDC conf in
        let t := cf_Telemetry conf in
        if oc_Enabled o && String.eqb (oc_IssuerURL o) EmptyString then
          (conf, Some "SSUC_OIDC_ISSUERURL must be set when OIDC is enabled")
        else if oc_Enabled o && String.eqb (oc_Audience o) EmptyString then
          (conf, Some "SSUC_OIDC_AUDIENCE must be set when OIDC is enabled")
        else if tc_Enabled t && String.eqb (tc_MimirURL t) EmptyString then
          (conf, Some "SSUC_TELEMETRY_MIMIRURL must be set when telemetry is enabled")
        else (conf, None)
  end.

(** ** What a configuration must hold *)

(** What an author must give. *)
Definition required (c : Config) : Prop :=
  cf_ClusterName c ≠ EmptyString ∧
  (hasEntries (kc_NamespaceExclude (cf_Kubernetes c)) = false ∨
   hasEntries (kc_NamespaceInclude (cf_Kubernetes c)) = false) ∧
  (oc_Enabled (cf_OIDC c) = true →
     oc_IssuerURL (cf_OIDC c) ≠ EmptyString ∧ oc_Audience (cf_OIDC c) ≠ EmptyString) ∧
  (tc_Enabled (cf_Telemetry c) = true → tc_MimirURL (cf_Telemetry c) ≠ EmptyString).

(** No defaulted setting is left at its zero value. *)
Definition complete (c : Config) : Prop :=
  cf_LogLevel c ≠ EmptyString ∧ cf_WorkerInterval c ≠ 0%Z ∧ cf_APIPort c ≠ 0%Z ∧
  kc_Concurrency (cf_Kubernetes c) ≠ 0%Z ∧ is_zero_float (kc_QPS (cf_Kubernetes c)) = false ∧
  kc_Burst (cf_Kubernetes c) ≠ 0%Z ∧ oc_RequiredRoles (cf_OIDC c) ≠ [] ∧
  sc_TimeoutMs (cf_Swagger c) ≠ 0%Z ∧ sc_Concurrency (cf_Swagger c) ≠ 0%Z ∧
  rc_Interval (cf_Reachability c) ≠ 0%Z ∧ rc_TimeoutMs (cf_Reachability c) ≠ 0%Z ∧
  rc_Concurrency (cf_Reachability c) ≠ 0%Z ∧
  tc_LookbackMinutes (cf_Telemetry c) ≠ 0%Z ∧ tc_TimeoutMs (cf_Telemetry c) ≠ 0%Z.

Definition defaults (c : Config) : Config := late_defaults (early_defaults c).

Lemma or_int_complete x d : d ≠ 0%Z → or_int x d ≠ 0%Z.
Proof. unfold or_int. destruct (Z.eqb_spec x 0); lia. Qed.

Lemma defaults_complete c : complete (defaults c).
Proof.
  unfold complete, defaults, late_defaults, early_defaults. simpl.
  split_and!; try (by apply or_int_complete).
  - unfold or_string. by destruct (String.eqb_spec (cf_LogLevel c) EmptyString).
  - by destruct (is_zero_float (kc_QPS (cf_Kubernetes c))) eqn:E.
  - by destruct (oc_RequiredRoles (cf_OIDC c)).
Qed.

(** The checks of [Load], in order, decide [required]. *)
Lemma checks_required {A} (c : Config) (r1 r2 r3 r4 r5 ok : A) (is_none : A → Prop) :
  ¬ is_none r1 → ¬ is_none r2 → ¬ is_none r3 → ¬ is_none r4 → ¬ is_none r5 → is_none ok →
  is_none (if String.eqb (cf_ClusterName c) EmptyString then r1
    else if hasEntries (kc_NamespaceExclude (cf_Kubernetes c)) &&
            hasEntries (kc_NamespaceInclude (cf_Kubernetes c)) then r2
    else if oc_Enabled (cf_OIDC c) && String.eqb (oc_IssuerURL (cf_OIDC c)) EmptyString then r3
    else if oc_Enabled (cf_OIDC c) && String.eqb (oc_Audience (cf_OIDC c)) EmptyString then r4
    else if tc_Enabled (cf_Telemetry c) && String.eqb (tc_MimirURL (cf_Telemetry c)) EmptyString then r5
    else ok) ↔ required c.
Proof.
  intros H1 H2 H3 H4 H5 Hok. unfold required.
  destruct (String.eqb_spec (cf_ClusterName c) EmptyString); [tauto|].
  destruct (hasEntries (kc_NamespaceExclude (cf_Kubernetes c))),
    (hasEntries (kc_NamespaceInclude (cf_Kubernetes c))); simpl; [intuition congruence|..];
    destruct (oc_Enabled (cf_OIDC c)), (tc_Enabled (cf_Telemetry c)); simpl;
    destruct (String.eqb_spec (oc_IssuerURL (cf_OIDC c)) EmptyString),
      (String.eqb_spec (oc_Audience (cf_OIDC c)) EmptyString),
      (String.eqb_spec (tc_MimirURL (cf_Telemetry c)) EmptyString);
    intuition congruence.
Qed.

(** What a successful load gives. *)
Lemma Load_Ok process c : Load process = (c, None) → required c ∧ oc_RequiredRoles (cf_OIDC c) ≠ [].
Proof.
  unfold Load. destruct (process seed) as [c0 [e|]]; [done|]. intros H.
  assert (required c0) as Hr.
  { by refine (proj1 (checks_required c0 _ _ _ _ _ _ (λ r : Config * option string, r.2 = None) _ _ _ _ _ _)
      (f_equal snd H)). }
  assert (c = defaults c0) as ->.
  { revert H. by repeat match goal with |- context [if ?b then _ else _] => destruct b end; intros [= <-]. }
  split; [done|]. by destruct (defaults_complete c0) as (_ & _ & _ & _ & _ & _ & ? & _).
Qed.

(** *** Setting by setting *)

(** [if x == 0 { x = d }] leaves [after] of [before]. *)
Definition defaulted {A} (unset : A → Prop) (d before after : A) : Prop :=
  (unset before ∧ after = d) ∨ (¬ unset before ∧ after = before).

(** The binary32 50. *)
Definition qps_50 : spec_float := S754_finite false 13107200 (-18).

(** What [Load] makes of the parsed configuration [c]. *)
Record loaded (c c' : Config) : Prop := {
  ld_LogLevel : defaulted (eq EmptyString) "info" (cf_LogLevel c) (cf_LogLevel c');
  ld_LogDebug : cf_LogDebug c' = cf_LogDebug c;
  ld_WorkerInterval : defaulted (eq 0%Z) 300%Z (cf_WorkerInterval c) (cf_WorkerInterval c');
  ld_ClusterName : cf_ClusterName c' = cf_ClusterName c;
  ld_APIPort : defaulted (eq 0%Z) 8080%Z (cf_APIPort c) (cf_APIPort c');
  ld_Kubernetes : let k := cf_Kubernetes c in let k' := cf_Kubernetes c' in
    defaulted (eq 0%Z) 10%Z (kc_Concurrency k) (kc_Concurrency k') ∧
    kc_NamespaceExclude k' = kc_NamespaceExclude k ∧ kc_NamespaceInclude k' = kc_NamespaceInclude k ∧
    defaulted (λ q, ∃ sign, q = S754_zero sign) qps_50 (kc_QPS k) (kc_QPS k') ∧
    defaulted (eq 0%Z) 100%Z (kc_Burst k) (kc_Burst k');
  ld_OIDC : let o := cf_OIDC c in let o' := cf_OIDC c' in
    oc_Enabled o' = oc_Enabled o ∧ oc_IssuerURL o' = oc_IssuerURL o ∧ oc_Audience o' = oc_Audience o ∧
    defaulted (eq []) ["Catalog.Read"] (oc_RequiredRoles o) (oc_RequiredRoles o');
  ld_GitOps : cf_GitOpsEnabled c' = cf_GitOpsEnabled c;
  ld_Swagger : let s := cf_Swagger c in let s' := cf_Swagger c' in
    sc_Enabled s' = sc_Enabled s ∧ defaulted (eq 0%Z) 2000%Z (sc_TimeoutMs s) (sc_TimeoutMs s') ∧
    defaulted (eq 0%Z) 20%Z (sc_Concurrency s) (sc_Concurrency s');
  ld_Reachability : let r := cf_Reachability c in let r' := cf_Reachability c' in
    rc_Enabled r' = rc_Enabled r ∧ defaulted (eq 0%Z) 300%Z (rc_Interval r) (rc_Interval r') ∧
    defaulted (eq 0%Z) 5000%Z (rc_TimeoutMs r) (rc_TimeoutMs r') ∧
    defaulted (eq 0%Z) 20%Z (rc_Concurrency r) (rc_Concurrency r');
  ld_Telemetry : let t := cf_Telemetry c in let t' := cf_Telemetry c' in
    tc_Enabled t' = tc_Enabled t ∧ tc_MimirURL t' = tc_MimirURL t ∧ tc_BasicAuthUser t' = tc_BasicAuthUser t ∧
    tc_BasicAuthToken t' = tc_BasicAuthToken t ∧
    defaulted (eq 0%Z) 60%Z (tc_LookbackMinutes t) (tc_LookbackMinutes t') ∧
    defaulted (eq 0%Z) 60000%Z (tc_TimeoutMs t) (tc_TimeoutMs t');
}.

Lemma or_int_defaulted x d : defaulted (eq 0%Z) d x (or_int x d).
Proof. unfold defaulted, or_int. destruct (Z.eqb_spec x 0); [by left|right]. by split; [congruence|]. Qed.

Lemma or_string_defaulted x d : defaulted (eq EmptyString) d x (or_string x d).
Proof. unfold defaulted, or_string. destruct (String.eqb_spec x EmptyString); [by left|right]. by split; [congruence|]. Qed.

Lemma defaults_loaded c : loaded c (defaults c).
Proof.
  split; try done; try apply or_string_defaulted; try apply or_int_defaulted; cbn zeta; split_and!;
    try done; try apply or_int_defaulted; unfold defaulted; cbn.
  - destruct (is_zero_float (kc_QPS (cf_Kubernetes c))) eqn:E; destruct (kc_QPS (cf_Kubernetes c)); try done;
      first [by left; split; [eexists|vm_compute]|by right; split; [intros [? [=]]|]].
  - destruct (oc_RequiredRoles (cf_OIDC c)); [by left|by right].
Qed.

(** What makes [Load] fail, in the order of its checks, and what it then says. *)
Definition failures (c : Config) : list (string * Prop) :=
  let k := cf_Kubernetes c in
  let o := cf_OIDC c in
  let t := cf_Telemetry c in
  let given l := ∃ n, n ∈ l ∧ TrimSpace n ≠ EmptyString in
  [ ("SSUC_CLUSTERNAME must be set", cf_ClusterName c = EmptyString);
    ("SSUC_KUBERNETES_NAMESPACEEXCLUDE and SSUC_KUBERNETES_NAMESPACEINCLUDE are mutually exclusive; set at most one",
       given (kc_NamespaceExclude k) ∧ given (kc_NamespaceInclude k));
    ("SSUC_OIDC_ISSUERURL must be set when OIDC is enabled", oc_Enabled o = true ∧ oc_IssuerURL o = EmptyString);
    ("SSUC_OIDC_AUDIENCE must be set when OIDC is enabled", oc_Enabled o = true ∧ oc_Audience o = EmptyString);
    ("SSUC_TELEMETRY_MIMIRURL must be set when telemetry is enabled",
       tc_Enabled t = true ∧ tc_MimirURL t = EmptyString) ].

(** The first of them that holds says [msg]. *)
Definition first_failure (l : list (string * Prop)) (msg : string) : Prop :=
  ∃ pre P post, l = pre ++ (msg, P) :: post ∧ P ∧ Forall (λ f, ¬ f.2) pre.

(** A chain of checks. *)
Fixpoint first_true (checks : list (string * bool)) : option string :=
  match checks with
  | [] => None
  | (msg, b) :: checks => if b then Some msg else first_true checks
  end.

Lemma first_true_spec checks l :
  Forall2 (λ x y, x.1 = y.1 ∧ (x.2 = true ↔ y.2)) checks l →
  (∀ msg, first_true checks = Some msg ↔ first_failure l msg) ∧
  (first_true checks = None ↔ Forall (λ f, ¬ f.2) l).
Proof.
  induction 1 as [|[m b] [m' P] checks l [Hm Hb] _ [IH1 IH2]]; simpl in *.
  { split; [|done]. intros msg. split; [done|]. by intros ([] & P & post & [=] & _). }
  subst m'. destruct b.
  - assert P as HP by (by apply Hb). split.
    + intros msg. split; [intros [= <-]; by exists [], P, l|].
      intros (pre & Q & post & E & _ & Hpre). destruct pre as [|f pre]; injection E as <- _; [congruence|].
      by apply Forall_cons in Hpre as [Hn _].
    + split; [done|]. by intros [Hn _]%Forall_cons.
  - assert (¬ P) as HP by (intros ?%Hb; done). split.
    + intros msg. rewrite IH1. split; intros (pre & Q & post & E & HQ & Hpre).
      * exists ((m, P) :: pre), Q, post. split_and!; [by rewrite E|done|by constructor].
      * destruct pre as [|f pre]; injection E as E1 E; [congruence|]. apply Forall_cons in Hpre as [_ Hpre].
        by exists pre, Q, post.
    + rewrite IH2, Forall_cons. simpl. tauto.
Qed.

Definition load_checks (c : Config) : list (string * bool) :=
  zip (failures c).*1
    [ String.eqb (cf_ClusterName c) EmptyString;
      hasEntries (kc_NamespaceExclude (cf_Kubernetes c)) && hasEntries (kc_NamespaceInclude (cf_Kubernetes c));
      oc_Enabled (cf_OIDC c) && String.eqb (oc_IssuerURL (cf_OIDC c)) EmptyString;
      oc_Enabled (cf_OIDC c) && String.eqb (oc_Audience (cf_OIDC c)) EmptyString;
      tc_Enabled (cf_Telemetry c) && String.eqb (tc_MimirURL (cf_Telemetry c)) EmptyString ].

Lemma hasEntries_iff l : hasEntries l = true ↔ ∃ n, n ∈ l ∧ TrimSpace n ≠ EmptyString.
Proof.
  unfold hasEntries. rewrite existsb_elem_of. by setoid_rewrite negb_true_iff; setoid_rewrite String.eqb_neq.
Qed.

Lemma load_checks_failures c : Forall2 (λ x y, x.1 = y.1 ∧ (x.2 = true ↔ y.2)) (load_checks c) (failures c).
Proof.
  unfold load_checks, failures. cbn.
  repeat (apply Forall2_cons_2; [split; [done|]|]); [..|apply Forall2_nil_2]; cbn;
    rewrite ?andb_true_iff, ?String.eqb_eq, ?hasEntries_iff; tauto.
Qed.

Lemma Load_checked process c :
  process seed = (c, None) →
  (Load process).2 = first_true (load_checks c) ∧ ((Load process).2 = None → (Load process).1 = defaults c).
Proof.
  intros E. unfold Load, load_checks. rewrite E. cbn -[hasEntries].
  destruct (String.eqb (cf_ClusterName c) EmptyString); [by split|].
  destruct (hasEntries _ && hasEntries _); [by split|].
  destruct (oc_Enabled _ && String.eqb (oc_IssuerURL _) _); [by split|].
  destruct (oc_Enabled _ && String.eqb (oc_Audience _) _); [by split|].
  by destruct (tc_Enabled _ && _); split.
Qed.

(** C30: loading.  What the environment does not set is seeded: OIDC, GitOps, OpenAPI
    probing and reachability probing on, telemetry off.  When the environment does
    not parse, its error is reported.  Otherwise [Load] fails exactly when a
    requirement fails (a cluster name, not both namespace filters, issuer and
    audience when OIDC is enabled, the Mimir URL when telemetry is), with the message
    of the first that does; and when none fails the configuration is the parsed one
    with every unset setting at its documented default and nothing else changed. *)
Theorem Load_spec (process : Process) :
  let c := (process seed).1 in
  (oc_Enabled (cf_OIDC seed), cf_GitOpsEnabled seed, sc_Enabled (cf_Swagger seed),
   rc_Enabled (cf_Reachability seed), tc_Enabled (cf_Telemetry seed)) = (true, true, true, true, false) ∧
  match (process seed).2 with
  | Some e => Load process = (c, Some e)
  | None =>
      (∀ msg, (Load process).2 = Some msg ↔ first_failure (failures c) msg) ∧
      ((Load process).2 = None ↔ Forall (λ f, ¬ f.2) (failures c)) ∧
      ((Load process).2 = None → loaded c (Load process).1)
  end.
Proof.
  cbn zeta. split; [done|]. destruct (process seed) as [c [e|]] eqn:E; cbn [fst snd].
  { unfold Load. by rewrite E. }
  destruct (Load_checked process c E) as [HC HL]. rewrite HC in HL |- *. pose proof (first_true_spec _ _ (load_checks_failures c)) as [H1 H2].
  split_and!; [done..|]. intros Hn. rewrite (HL Hn). apply defaults_loaded.
Qed.
