(* ===== verification/Api.v ===== *)
(** * The HTTP API ([internal/api/api.go], [internal/api/handlers])

    The handlers read a catalog snapshot and a verdict store and answer a status
    and a body; the routes put the authentication before every handler of
    [/api/v1].  gin is a parameter: a [request] holds what [GetQuery], [Param] and
    [GetHeader] give, and which route a request meets is left to its router.

    A snapshot is shared by every request and by the probing worker, so the
    overlay of the verdicts, which copies a Services slice before it writes, is
    also defined over a store of slices, where a missing copy would show. *)

From S2P Require Export Auth Reachability.
From Stdlib Require Import Ascii.

(** ** Overlaying verdicts *)

Definition lookup_key (app : ApplicationEntry) (svc : ServiceRef) (host : string) : string :=
  app_Namespace app +:+ "/" +:+ svc_Name svc +:+ "/" +:+ host.

Definition host_results (reach : StoreT) (app : ApplicationEntry) (svc : ServiceRef)
    : list ReachabilityResult :=
  foldl (λ results host,
    let '(r, ok) := Lookup reach (lookup_key app svc host) in
    if ok then results ++ [r] else results) [] (svc_ExternalHosts svc).

(** [services] is the copy, [None] while nothing has changed. *)
Definition overlay_step (reach : StoreT) (app : ApplicationEntry)
    (services : option (list ServiceRef)) (isvc : nat * ServiceRef) : option (list ServiceRef) :=
  let '(i, svc) := isvc in
  let results := host_results reach app svc in
  if Nat.eqb (length results) 0 then services
  else
    let copy := match services with None => app_Services app | Some s => s end in
    Some (alter (λ s, svc_set_Reachability s results) i copy).

Definition overlayApp (reach : option StoreT) (app : ApplicationEntry) : ApplicationEntry :=
  match reach with
  | None => app
  | Some reach =>
      if Nat.eqb (length (app_Services app)) 0 then app
      else
        match foldl (overlay_step reach app) None (imap pair (app_Services app)) with
        | None => app
        | Some services => app_set_Services app services
        end
  end.

Definition overlayApps (reach : option StoreT) (apps : list ApplicationEntry) : list ApplicationEntry :=
  overlayApp reach <$> apps.

(** *** Over a store of slices *)

(** The backing arrays of the Services slices. *)
Abbreviation slices := (gmap positive (list ServiceRef)).

(** An application whose Services field is a reference, [None] when nil. *)
Record AppValue := mkAppValue { av_fields : ApplicationEntry; av_Services : option positive }.

Definition slice_at (h : slices) (l : option positive) : list ServiceRef :=
  match l with None => [] | Some l => default [] (h !! l) end.

(** What a reader of the value sees. *)
Definition deref (h : slices) (a : AppValue) : ApplicationEntry :=
  app_set_Services (av_fields a) (slice_at h (av_Services a)).

(** Each [Lookup] loads the store's pointer anew: [reach k] is the store at the
    [k]-th of a request's lookups. *)
Definition host_results_shared (reach : nat → StoreT) (app : ApplicationEntry) (svc : ServiceRef) (k : nat)
    : list ReachabilityResult * nat :=
  foldl (λ '(results, k) host,
    let '(r, ok) := Lookup (reach k) (lookup_key app svc host) in
    (if ok then results ++ [r] else results, S k)) ([], k) (svc_ExternalHosts svc).

(** [make] and [copy] allocate a fresh array; [services[i].Reachability = results]
    writes to the array [services] refers to. *)
Definition overlay_step_shared (reach : nat → StoreT) (app : AppValue)
    (st : slices * option positive * nat) (i : nat) : slices * option positive * nat :=
  let '(h, services, k) := st in
  match slice_at h (av_Services app) !! i with
  | None => st
  | Some svc =>
      let '(results, k) := host_results_shared reach (av_fields app) svc k in
      if Nat.eqb (length results) 0 then (h, services, k)
      else
        let '(h, l) :=
          match services with
          | None =>
              let l := fresh (dom h) in (<[l := slice_at h (av_Services app)]> h, l)
          | Some l => (h, l)
          end in
        (alter (alter (λ s, svc_set_Reachability s results) i) l h, Some l, k)
  end.

Definition overlayApp_shared (reach : option (nat → StoreT)) (st : slices * nat) (app : AppValue)
    : slices * nat * AppValue :=
  let '(h, k) := st in
  match reach with
  | None => (h, k, app)
  | Some reach =>
      let n := length (slice_at h (av_Services app)) in
      if Nat.eqb n 0 then (h, k, app)
      else
        let '(h, services, k) := foldl (overlay_step_shared reach app) (h, None, k) (seq 0 n) in
        match services with
        | None => (h, k, app)
        | Some l => (h, k, mkAppValue (av_fields app) (Some l))
        end
  end.

Definition overlayApps_shared (reach : option (nat → StoreT)) (st : slices * nat) (apps : list AppValue)
    : slices * nat * list AppValue :=
  foldl (λ '(st, out) app,
    let '(st, a) := overlayApp_shared reach st app in (st, out ++ [a])) (st, []) apps.

(** ** Requests and responses *)

Record request := mkRequest {
  GetQuery : string → option string;
  Param : string → string;
  Authorization : string;
}.

Definition Query (c : request) (key : string) : string := default EmptyString (GetQuery c key).

Inductive payload :=
| DCatalog (cat : Catalog)
| DStats (stats : CatalogStats)
| DApplications (apps : list ApplicationEntry)
| DApplication (app : ApplicationEntry)
| DNamespaces (nss : list NamespaceEntry)
| DNamespace (ns : NamespaceEntry) (apps : list ApplicationEntry)
| DDependencies (deps : list DependencyEdge)
| DAppDependencies (inbound outbound : list DependencyEdge)
| DReachability (results : list ReachabilityResult).

Record envelope := mkEnvelope { en_collectedAt : Z; en_publishedAt : Z; en_cluster : string }.

Inductive response_body :=
| Data (data : payload) (meta : envelope)
| ErrorBody (error : string)
| UnauthorizedBody (reason : string)
| StatusBody (status : string).

Record response := mkResponse { rs_status : Z; rs_body : response_body }.

(** ** The catalog handlers *)

(** The handler's fields as a request finds them: the catalog pointer, the store
    ([None] when nil) and the cluster's name. *)
Record CatalogHandler := mkCatalogHandler {
  h_catalog : option Catalog;
  h_reach : option StoreT;
  h_cluster : string;
}.

(** The zero [time.Time], January 1 of year 1. *)
Definition zero_time : Z := (-62135596800 * 10 ^ 9)%Z.

Definition empty_catalog (cluster : string) : Catalog :=
  mkCatalog cluster [] [] [] zero_time zero_time zero_stats.

Definition snapshot_of (h : CatalogHandler) : Catalog :=
  match h_catalog h with
  | Some cat => cat
  | None => empty_catalog (h_cluster h)
  end.

Definition meta (cat : Catalog) : envelope :=
  mkEnvelope (cat_CollectedAt cat) (cat_PublishedAt cat) (cat_Cluster cat).

Definition respond (cat : Catalog) (data : payload) : response :=
  mkResponse 200 (Data data (meta cat)).

Definition not_found (error : string) : response := mkResponse 404 (ErrorBody error).

Definition with_Applications (cat : Catalog) (apps : list ApplicationEntry) : Catalog :=
  mkCatalog (cat_Cluster cat) apps (cat_Namespaces cat) (cat_Dependencies cat)
    (cat_CollectedAt cat) (cat_PublishedAt cat) (cat_Stats cat).

Definition GetCatalog (h : CatalogHandler) (c : request) : response :=
  let cat := snapshot_of h in
  let view := with_Applications cat (overlayApps (h_reach h) (cat_Applications cat)) in
  mkResponse 200 (Data (DCatalog view) (meta cat)).

Definition GetStats (h : CatalogHandler) (c : request) : response :=
  let cat := snapshot_of h in
  respond cat (DStats (cat_Stats cat)).

Definition applicationHasDocs (app : ApplicationEntry) : bool := services_have_docs (app_Services app).

Definition is_true_param (raw : string) : bool := String.eqb raw "true" || String.eqb raw "1".

(** The guards of the loop over the applications, each of which skips one. *)
Definition skip_application {U : GoUnicode} (c : request) (app : ApplicationEntry) : bool :=
  let namespace := Query c "namespace" in
  let kind := Query c "kind" in
  let query := ToLower (Query c "q") in
  let hasDocsWant := is_true_param (Query c "hasDocs") in
  (nonempty namespace && negb (String.eqb (app_Namespace app) namespace)) ||
  (nonempty kind && negb (String.eqb (app_Kind app) kind)) ||
  match GetQuery c "capabilityId" with
  | Some capabilityID => negb (String.eqb (app_CapabilityID app) capabilityID)
  | None => false
  end ||
  (nonempty query && negb (Contains (ToLower (app_Name app)) query)) ||
  match GetQuery c "hasDocs" with
  | Some _ => negb (Bool.eqb (applicationHasDocs app) hasDocsWant)
  | None => false
  end.

Definition ListApplications {U : GoUnicode} (h : CatalogHandler) (c : request) : response :=
  let cat := snapshot_of h in
  let out := foldl (λ out app,
    if skip_application c app then out else out ++ [overlayApp (h_reach h) app])
    [] (cat_Applications cat) in
  respond cat (DApplications out).

(** The loop returns at the first match. *)
Fixpoint find_application (namespace name : string) (apps : list ApplicationEntry) : option ApplicationEntry :=
  match apps with
  | [] => None
  | app :: apps =>
      if String.eqb (app_Namespace app) namespace && String.eqb (app_Name app) name then Some app
      else find_application namespace name apps
  end.

Definition GetApplication (h : CatalogHandler) (c : request) : response :=
  let cat := snapshot_of h in
  match find_application (Param c "namespace") (Param c "name") (cat_Applications cat) with
  | Some app => respond cat (DApplication (overlayApp (h_reach h) app))
  | None => not_found "application not found"
  end.

Definition ListNamespaces (h : CatalogHandler) (c : request) : response :=
  let cat := snapshot_of h in
  let out := foldl (λ out ns,
    if match GetQuery c "capabilityId" with
       | Some capabilityID => negb (String.eqb (nse_CapabilityID ns) capabilityID)
       | None => false
       end
    then out else out ++ [ns]) [] (cat_Namespaces cat) in
  respond cat (DNamespaces out).

Fixpoint find_namespace (name : string) (nss : list NamespaceEntry) : option NamespaceEntry :=
  match nss with
  | [] => None
  | ns :: nss => if String.eqb (nse_Name ns) name then Some ns else find_namespace name nss
  end.

Definition GetNamespace (h : CatalogHandler) (c : request) : response :=
  let cat := snapshot_of h in
  let name := Param c "namespace" in
  match find_namespace name (cat_Namespaces cat) with
  | None => not_found "namespace not found"
  | Some found =>
      let apps := foldl (λ apps app,
        if String.eqb (app_Namespace app) name then apps ++ [overlayApp (h_reach h) app] else apps)
        [] (cat_Applications cat) in
      respond cat (DNamespace found apps)
  end.

Definition skip_dependency (c : request) (dep : DependencyEdge) : bool :=
  let namespace := Query c "namespace" in
  let depType := Query c "type" in
  (nonempty depType && negb (String.eqb (edge_Type dep) depType)) ||
  (nonempty namespace && negb (String.eqb (node_Namespace (edge_Source dep)) namespace) &&
   negb (String.eqb (node_Namespace (edge_Target dep)) namespace)).

Definition ListDependencies (h : CatalogHandler) (c : request) : response :=
  let cat := snapshot_of h in
  let out := foldl (λ out dep, if skip_dependency c dep then out else out ++ [dep])
    [] (cat_Dependencies cat) in
  respond cat (DDependencies out).

Definition is_node (n : DependencyNode) (namespace name : string) : bool :=
  String.eqb (node_Namespace n) namespace && String.eqb (node_Service n) name.

Definition GetApplicationDependencies (h : CatalogHandler) (c : request) : response :=
  let cat := snapshot_of h in
  let namespace := Param c "namespace" in
  let name := Param c "name" in
  let '(inbound, outbound) := foldl (λ '(inbound, outbound) dep,
    let outbound := if is_node (edge_Source dep) namespace name then outbound ++ [dep] else outbound in
    let inbound := if is_node (edge_Target dep) namespace name then inbound ++ [dep] else inbound in
    (inbound, outbound)) ([], []) (cat_Dependencies cat) in
  respond cat (DAppDependencies inbound outbound).

Definition ListReachability {rt : GoRuntime} (h : CatalogHandler) (c : request) : response :=
  let cat := snapshot_of h in
  let results := match h_reach h with Some reach => All reach | None => [] end in
  respond cat (DReachability results).

(** ** The health handlers *)

Definition Healthz (c : request) : response := mkResponse 200 (StatusBody "ok").

Definition Readyz (catalog : option Catalog) (c : request) : response :=
  match catalog with
  | None => mkResponse 503 (StatusBody "collecting")
  | Some _ => mkResponse 200 (StatusBody "ready")
  end.

(** ** Routes *)

(** A middleware, given the rejection counter and the Authorization header. *)
Abbreviation MiddlewareFunc := (option Z → string → mw_outcome * option Z).

Record route := mkRoute {
  rt_path : string;
  rt_mw : option MiddlewareFunc;
  rt_handler : request → response;
}.

(** The GET routes, a group's path before its routes' and its middleware in front. *)
Definition Configure {U : GoUnicode} {rt : GoRuntime} (h : CatalogHandler) (authMW : option MiddlewareFunc)
    : list route :=
  let v1 path handler := mkRoute ("/api/v1" +:+ path) authMW handler in
  [ mkRoute "/healthz" None Healthz;
    mkRoute "/readyz" None (Readyz (h_catalog h));
    v1 "/catalog" (GetCatalog h);
    v1 "/catalog/stats" (GetStats h);
    v1 "/applications" (ListApplications h);
    v1 "/applications/:namespace/:name" (GetApplication h);
    v1 "/namespaces" (ListNamespaces h);
    v1 "/namespaces/:namespace" (GetNamespace h);
    v1 "/dependencies" (ListDependencies h);
    v1 "/dependencies/:namespace/:name" (GetApplicationDependencies h);
    v1 "/reachability" (ListReachability h) ].

(** A request at a route: the middleware, then the handler unless it aborted. *)
Definition serve (r : route) (rejections : option Z) (c : request) : response * option Z :=
  match rt_mw r with
  | None => (rt_handler r c, rejections)
  | Some mw =>
      let '(o, n) := mw rejections (Authorization c) in
      match o with
      | Next => (rt_handler r c, n)
      | Unauthorized reason => (mkResponse 401 (UnauthorizedBody reason), n)
      end
  end.

(** ** The overlay's meaning *)

(** A service with its verdicts, if it has any. *)
Definition with_results (svc : ServiceRef) (results : list ReachabilityResult) : ServiceRef :=
  match results with [] => svc | _ => svc_set_Reachability svc results end.

Definition overlaid_service (reach : StoreT) (app : ApplicationEntry) (svc : ServiceRef) : ServiceRef :=
  with_results svc (host_results reach app svc).

Definition overlaid (reach : StoreT) (app : ApplicationEntry) : ApplicationEntry :=
  app_set_Services app (overlaid_service reach app <$> app_Services app).

(** One write of the loop: the service at [length pre] gets its verdicts. *)
Lemma with_results_alter (pre post : list ServiceRef) svc results :
  pre ++ with_results svc results :: post =
  if Nat.eqb (length results) 0 then pre ++ svc :: post
  else alter (λ s, svc_set_Reachability s results) (length pre) (pre ++ svc :: post).
Proof. destruct results; simpl; [done|]. by rewrite alter_middle. Qed.

Lemma overlay_loop reach app pre post st :
  default (app_Services app) st = (overlaid_service reach app <$> pre) ++ post →
  default (app_Services app)
    (foldl (overlay_step reach app) st (imap (λ i x, (length pre + i, x)) post)) =
  overlaid_service reach app <$> pre ++ post.
Proof.
  revert pre st. induction post as [|svc post IH]; intros pre st Hst.
  { simpl. by rewrite Hst, !app_nil_r. }
  rewrite imap_cons. cbn [foldl].
  rewrite (imap_ext _ (λ i x, (length (pre ++ [svc]) + i, x))).
  2: { intros i x _. simpl. f_equal. rewrite length_app. simpl. lia. }
  rewrite IH; [by rewrite <- app_assoc|]. rewrite fmap_app, <- app_assoc. simpl.
  unfold overlaid_service at 2. rewrite with_results_alter, Nat.add_0_r.
  destruct (Nat.eqb _ 0); [done|]. simpl. rewrite length_fmap. by rewrite <- Hst.
Qed.

Lemma overlayApp_overlaid reach app :
  overlayApp reach app = match reach with None => app | Some reach => overlaid reach app end.
Proof.
  destruct reach as [reach|]; [|done]. unfold overlayApp, overlaid.
  destruct (Nat.eqb_spec (length (app_Services app)) 0) as [E|_].
  { apply nil_length_inv in E. rewrite E. simpl. by rewrite <- E, app_set_Services_id. }
  pose proof (overlay_loop reach app [] (app_Services app) None eq_refl) as H.
  rewrite (imap_ext _ pair) in H by done. simpl in H. rewrite <- H.
  destruct (foldl _ _ _); simpl; [done|]. by rewrite app_set_Services_id.
Qed.

(** The overlay only fills verdicts. *)
Lemma overlayApp_same reach app :
  app_Namespace (overlayApp reach app) = app_Namespace app ∧ app_Name (overlayApp reach app) = app_Name app ∧
  applicationHasDocs (overlayApp reach app) = applicationHasDocs app.
Proof.
  rewrite overlayApp_overlaid. destruct reach as [reach|]; [|done]. split_and!; [done..|].
  unfold applicationHasDocs, services_have_docs, overlaid. simpl.
  induction (app_Services app) as [|s svcs IH]; [done|].
  rewrite fmap_cons. cbn [existsb]. rewrite IH. f_equal. unfold overlaid_service. by destruct (host_results reach app s).
Qed.

(** *** Over a store of slices *)

Section served_services.
Context (reach : nat → StoreT) (app : ApplicationEntry).

(** The services as a request serves them, its lookups numbered from [k]. *)
Fixpoint served_services (k : nat) (svcs : list ServiceRef) : list ServiceRef * nat :=
  match svcs with
  | [] => ([], k)
  | svc :: svcs =>
      let '(results, k) := host_results_shared reach app svc k in
      let '(svcs, k) := served_services k svcs in
      (with_results svc results :: svcs, k)
  end.
End served_services.

(** The loop's writes all land in an array that did not exist before. *)
Definition private_copy (h h0 : slices) (services : option positive) (copy : list ServiceRef)
    (original : list ServiceRef) : Prop :=
  match services with
  | None => h = h0 ∧ copy = original
  | Some l => h0 !! l = None ∧ h = <[l := copy]> h0
  end.

Lemma private_copy_slice h h0 services copy original (a : AppValue) :
  (∀ l, av_Services a = Some l → is_Some (h0 !! l)) →
  private_copy h h0 services copy original → slice_at h (av_Services a) = slice_at h0 (av_Services a).
Proof.
  unfold private_copy, slice_at. intros Hv Hp. destruct services as [l|]; [|by destruct Hp as [-> _]].
  destruct Hp as [Hl ->]. destruct (av_Services a) as [l'|]; [|done].
  destruct (Hv l' eq_refl) as [x Hx]. rewrite lookup_insert_ne; [done|]. intros ->. congruence.
Qed.

Lemma private_copy_step h h0 services copy original (f : list ServiceRef → list ServiceRef) :
  private_copy h h0 services copy original →
  let '(h1, l) :=
    match services with
    | None => let l := fresh (dom h) in (<[l := original]> h, l)
    | Some l => (h, l)
    end in
  private_copy (alter f l h1) h0 (Some l) (f copy) original.
Proof.
  unfold private_copy. destruct services as [l|]; intros [H1 H2].
  - subst h. split; [done|]. by rewrite alter_insert_eq.
  - subst. split; [apply not_elem_of_dom, is_fresh|]. by rewrite alter_insert_eq.
Qed.

Lemma overlay_loop_shared reach (a : AppValue) h0 :
  (∀ l, av_Services a = Some l → is_Some (h0 !! l)) →
  ∀ post pre pre' h services k,
  slice_at h0 (av_Services a) = pre ++ post → length pre' = length pre →
  private_copy h h0 services (pre' ++ post) (slice_at h0 (av_Services a)) →
  let '(svcs, k') := served_services reach (av_fields a) k post in
  ∃ h' services', foldl (overlay_step_shared reach a) (h, services, k) (seq (length pre) (length post)) =
    (h', services', k') ∧ private_copy h' h0 services' (pre' ++ svcs) (slice_at h0 (av_Services a)).
Proof.
  intros Hv. induction post as [|svc post IH]; intros pre pre' h services k Hs Hl Hp.
  { simpl. by exists h, services. }
  cbn [served_services length seq foldl].
  destruct (host_results_shared reach (av_fields a) svc k) as [results k1] eqn:Er.
  specialize (IH (pre ++ [svc]) (pre' ++ [with_results svc results])).
  rewrite !length_app, !Nat.add_1_r, <- !app_assoc in IH. simpl in IH.
  assert (∃ h1 services1, overlay_step_shared reach a (h, services, k) (length pre) = (h1, services1, k1) ∧
    private_copy h1 h0 services1 (pre' ++ with_results svc results :: post) (slice_at h0 (av_Services a)))
    as (h1 & services1 & Es & Hp1).
  { unfold overlay_step_shared. rewrite (private_copy_slice _ _ _ _ _ _ Hv Hp), Hs.
    rewrite list_lookup_middle by done. rewrite Er, <- Hs, with_results_alter.
    destruct (Nat.eqb (length results) 0); [by exists h, services|].
    pose proof (private_copy_step _ _ _ _ _ (alter (λ s, svc_set_Reachability s results) (length pre)) Hp) as H.
    rewrite Hl. destruct services as [l|]; by do 2 eexists. }
  rewrite Es. specialize (IH h1 services1 k1 Hs ltac:(lia) Hp1).
  destruct (served_services reach (av_fields a) k1 post) as [svcs k2].
  destruct IH as (h' & services' & -> & H). exists h', services'. by rewrite <- app_assoc in H.
Qed.

Definition served (reach : nat → StoreT) (k : nat) (app : ApplicationEntry) : ApplicationEntry * nat :=
  let '(svcs, k) := served_services reach app k (app_Services app) in (app_set_Services app svcs, k).

(** The references of a value exist. *)
Definition valid (h : slices) (a : AppValue) : Prop := ∀ l, av_Services a = Some l → is_Some (h !! l).

Lemma valid_mono h h' a : h ⊆ h' → valid h a → valid h' a.
Proof. intros Hs Hv l Hl. destruct (Hv l Hl) as [x Hx]. exists x. by eapply lookup_weaken. Qed.

Lemma deref_mono h h' a : h ⊆ h' → valid h a → deref h' a = deref h a.
Proof.
  intros Hs Hv. unfold deref, slice_at, valid in *. destruct (av_Services a) as [l|]; [|done].
  destruct (Hv l eq_refl) as [x Hx]. by rewrite Hx, (lookup_weaken _ _ _ _ Hx Hs).
Qed.

Lemma overlayApp_shared_served reach h k a :
  valid h a →
  let '(app', k') := served reach k (deref h a) in
  ∃ h' a', overlayApp_shared (Some reach) (h, k) a = (h', k', a') ∧
    h ⊆ h' ∧ valid h' a' ∧ deref h' a' = app'.
Proof.
  intros Hv. unfold served, overlayApp_shared.
  pose proof (overlay_loop_shared reach a h Hv (slice_at h (av_Services a)) [] [] h None k
    eq_refl eq_refl (conj eq_refl eq_refl)) as H. cbn [length app] in H.
  change (app_Services (deref h a)) with (slice_at h (av_Services a)).
  change (served_services reach (deref h a) k) with (served_services reach (av_fields a) k).
  destruct (Nat.eqb_spec (length (slice_at h (av_Services a))) 0) as [E|_].
  { apply nil_length_inv in E. rewrite E. simpl. exists h, a. split_and!; [done..|].
    unfold deref. by rewrite E. }
  destruct (served_services _ _ _ _) as [svcs k']. destruct H as (h' & services' & -> & Hp).
  destruct services' as [l|]; destruct Hp as [H1 H2].
  - exists h', (mkAppValue (av_fields a) (Some l)). split_and!; [done| | |].
    + subst h'. by apply insert_subseteq.
    + intros l' [= <-]. subst h'. rewrite lookup_insert_eq. by eexists.
    + unfold deref. simpl. subst h'. by rewrite lookup_insert_eq.
  - subst. by exists h, a.
Qed.

Fixpoint served_all (reach : nat → StoreT) (k : nat) (apps : list ApplicationEntry)
    : list ApplicationEntry * nat :=
  match apps with
  | [] => ([], k)
  | app :: apps =>
      let '(app, k) := served reach k app in
      let '(apps, k) := served_all reach k apps in (app :: apps, k)
  end.

Lemma overlayApps_shared_served reach apps h k out :
  Forall (valid h) apps → Forall (valid h) out →
  let '(apps', k') := served_all reach k (deref h <$> apps) in
  ∃ h' out', foldl (λ '(st, out) app,
      let '(st, a) := overlayApp_shared (Some reach) st app in (st, out ++ [a])) ((h, k), out) apps =
    ((h', k'), out ++ out') ∧
    h ⊆ h' ∧ Forall (valid h') out' ∧ deref h' <$> out' = apps'.
Proof.
  revert h k out. induction apps as [|a apps IH]; intros h k out Ha Ho; cbn [fmap list_fmap served_all foldl].
  { exists h, []. by rewrite app_nil_r. }
  apply Forall_cons in Ha as [Ha Happs]. pose proof (overlayApp_shared_served reach h k a Ha) as H.
  destruct (served reach k (deref h a)) as [app' k1]. destruct H as (h1 & a1 & -> & Hs & Hv1 & Hd).
  assert (Forall (valid h1) apps) as Happs1 by (eapply Forall_impl; [done|]; eauto using valid_mono).
  assert (deref h <$> apps = deref h1 <$> apps) as ->.
  { apply list_fmap_ext. intros i x Hx. symmetry. apply deref_mono; [done|].
    by apply (Forall_lookup_1 (valid h) apps i). }
  specialize (IH h1 k1 (out ++ [a1]) Happs1).
  destruct (served_all reach k1 (deref h1 <$> apps)) as [apps' k2].
  destruct IH as (h' & out' & -> & Hs' & Hv' & Hd').
  { apply Forall_app. split; [|by apply Forall_singleton].
    eapply Forall_impl; [done|]. eauto using valid_mono. }
  exists h', (a1 :: out'). split_and!.
  - by rewrite <- app_assoc.
  - by transitivity h1.
  - constructor; [|done]. by apply (valid_mono h1).
  - rewrite fmap_cons, Hd', (deref_mono h1 h') by done. by rewrite Hd.
Qed.

(** *** What the lookups of a request may give *)

(** [svc'] is [svc] with verdicts that its hosts had in the store at some point. *)
Definition fills (reach : nat → StoreT) (app : ApplicationEntry) (svc svc' : ServiceRef) : Prop :=
  ∃ results, svc' = with_results svc results ∧
    ∀ r, r ∈ results → ∃ j host, host ∈ svc_ExternalHosts svc ∧
      Lookup (reach j) (lookup_key app svc host) = (r, true).

Definition served_by (reach : nat → StoreT) (app app' : ApplicationEntry) : Prop :=
  ∃ svcs, app' = app_set_Services app svcs ∧ Forall2 (fills reach app) (app_Services app) svcs.

Lemma host_results_shared_sound reach app svc k r :
  r ∈ (host_results_shared reach app svc k).1 →
  ∃ j host, host ∈ svc_ExternalHosts svc ∧ Lookup (reach j) (lookup_key app svc host) = (r, true).
Proof.
  revert r. unfold host_results_shared.
  apply (foldl_inv (λ st : list ReachabilityResult * nat, ∀ r, r ∈ st.1 → ∃ j host,
    host ∈ svc_ExternalHosts svc ∧ Lookup (reach j) (lookup_key app svc host) = (r, true))).
  { intros r. by rewrite elem_of_nil. }
  intros [results j] host Hh IH r. destruct (Lookup _ _) as [r' ok] eqn:E. destruct ok; [|apply IH].
  simpl. rewrite elem_of_app, list_elem_of_singleton. intros [H| ->]; [by apply IH|]. by exists j, host.
Qed.

Lemma served_by_served reach k app : served_by reach app (served reach k app).1.
Proof.
  unfold served_by, served.
  assert (∀ svcs k, Forall2 (fills reach app) svcs (served_services reach app k svcs).1) as H.
  { induction svcs as [|svc svcs IH]; intros k'; [constructor|]. simpl.
    destruct (host_results_shared reach app svc k') as [rs k1] eqn:E.
    specialize (IH k1). destruct (served_services reach app k1 svcs). constructor; [|done].
    exists rs. split; [done|]. intros r Hr. apply (host_results_shared_sound _ _ _ k'). by rewrite E. }
  specialize (H (app_Services app) k). destruct (served_services _ _ _ _) as [svcs k']. by exists svcs.
Qed.

Lemma host_results_shared_const s app svc k :
  ∃ k', host_results_shared (λ _, s) app svc k = (host_results s app svc, k').
Proof.
  unfold host_results_shared, host_results.
  enough (∀ l acc k, ∃ k', foldl _ (acc, k) l = (foldl _ acc l, k')) as H by apply H.
  induction l as [|x l IH]; intros acc j; [by exists j|].
  cbn [foldl]. destruct (Lookup s _) as [r []]; apply IH.
Qed.

Lemma served_const s k app : (served (λ _, s) k app).1 = overlaid s app.
Proof.
  unfold served, overlaid.
  assert (∀ svcs k, (served_services (λ _, s) app k svcs).1 = overlaid_service s app <$> svcs) as H.
  { induction svcs as [|svc svcs IH]; intros k'; [done|]. simpl.
    destruct (host_results_shared_const s app svc k') as [k1 ->].
    specialize (IH k1). destruct (served_services _ _ k1 svcs). simpl in IH. by rewrite IH. }
  specialize (H (app_Services app) k). destruct (served_services _ _ _ _). simpl in *. by rewrite H.
Qed.

(** ** Theorems *)

(** C16: the overlay never touches the shared snapshot.  Serving any applications
    against a store that may change between two lookups leaves every existing
    Services slice as it was (so every application of the snapshot reads as
    before), and serves each application with, per service, its own verdicts or
    verdicts its hosts had in the store during the request; when the store does
    not change, exactly the overlay of the handlers below is served. *)
Theorem overlayApps_shared_spec (reach : nat → StoreT) (h : slices) (k : nat) (apps : list AppValue) :
  Forall (valid h) apps →
  ∃ h' k' out, overlayApps_shared (Some reach) (h, k) apps = (h', k', out) ∧
    h ⊆ h' ∧ deref h' <$> apps = deref h <$> apps ∧
    Forall2 (served_by reach) (deref h <$> apps) (deref h' <$> out) ∧
    (∀ s, reach = (λ _, s) → deref h' <$> out = overlayApps (Some s) (deref h <$> apps)).
Proof.
  intros Ha. pose proof (overlayApps_shared_served reach apps h k [] Ha (Forall_nil_2 _)) as H.
  destruct (served_all reach k (deref h <$> apps)) as [apps' k'] eqn:E.
  destruct H as (h' & out & Hf & Hs & Hv & Hd). exists h', k', out. split_and!; [done|done| | |].
  - apply list_fmap_ext. intros i x Hx. apply deref_mono; [done|]. by apply (Forall_lookup_1 (valid h) apps i).
  - rewrite Hd. clear -E. revert k apps' k' E.
    induction (deref h <$> apps) as [|a l IH]; intros k apps' k'; cbn [served_all].
    { by intros [= <- _]. }
    pose proof (served_by_served reach k a) as Ha. destruct (served reach k a) as [a' k1].
    destruct (served_all reach k1 l) as [l' k2] eqn:E. intros [= <- _]. constructor; [done|]. by eapply IH.
  - intros s ->. rewrite Hd. clear -E. revert k apps' k' E.
    induction (deref h <$> apps) as [|a l IH]; intros k apps' k'; cbn [served_all].
    { by intros [= <- _]. }
    pose proof (served_const s k a) as Ha. destruct (served (λ _, s) k a) as [a' k1].
    destruct (served_all _ k1 l) as [l' k2] eqn:E. intros [= <- _]. unfold overlayApps.
    rewrite fmap_cons, overlayApp_overlaid, <- Ha. f_equal. by eapply IH.
Qed.

Definition demo_service : ServiceRef :=
  mkServiceRef "web" "ClusterIP" "10.0.0.1" [] ["shop.example.com"] [] [] [].
Definition demo_app (ns name : string) (svcs : list ServiceRef) : ApplicationEntry :=
  mkApplicationEntry "c1" ns name "Deployment" "cap-1" 1 1 [] [] None EmptyString EmptyString None svcs
    [] [] EmptyString f64_zero f64_zero None None.
Definition demo_verdict : ReachabilityResult :=
  mkReachabilityResult "shop.example.com" "https://shop.example.com/" "reachable" 200 "200-399" EmptyString 0.
Definition demo_store : StoreT := Store NewStore (Some {["team/web/shop.example.com" := demo_verdict]}).

Lemma overlayApps_shared_spec_witness :
  ∃ h' k' out, overlayApps_shared (Some (λ _, demo_store)) ({[1%positive := [demo_service]]}, 0)
      [mkAppValue (demo_app "team" "web" []) (Some 1%positive)] = (h', k', out) ∧
    h' !! 1%positive = Some [demo_service] ∧
    (app_Services <$> (deref h' <$> out)) = [[svc_set_Reachability demo_service [demo_verdict]]].
Proof.
  destruct (overlayApps_shared_spec (λ _, demo_store) {[1%positive := [demo_service]]} 0
    [mkAppValue (demo_app "team" "web" []) (Some 1%positive)]) as (h' & k' & out & H1 & H2 & _ & _ & H5).
  { repeat constructor. intros l [= <-]. by exists [demo_service]. }
  exists h', k', out. split_and!; [done|by apply (lookup_weaken _ _ _ _ (lookup_singleton_eq _ _) H2)|].
  rewrite (H5 demo_store eq_refl). by vm_compute.
Defined.

(** *** Listing applications *)

(** What [ListApplications] is asked for. *)
Definition selected {U : GoUnicode} (c : request) (app : ApplicationEntry) : Prop :=
  (Query c "namespace" ≠ EmptyString → app_Namespace app = Query c "namespace") ∧
  (Query c "kind" ≠ EmptyString → app_Kind app = Query c "kind") ∧
  (∀ id, GetQuery c "capabilityId" = Some id → app_CapabilityID app = id) ∧
  (ToLower (Query c "q") ≠ EmptyString →
     Contains (ToLower (app_Name app)) (ToLower (Query c "q")) = true) ∧
  (∀ raw, GetQuery c "hasDocs" = Some raw → applicationHasDocs app = is_true_param raw).

Lemma skip_guard (v x : string) :
  nonempty v && negb (String.eqb x v) = false ↔ (v ≠ EmptyString → x = v).
Proof.
  unfold nonempty. destruct (String.eqb_spec v EmptyString), (String.eqb_spec x v); simpl; intuition congruence.
Qed.

Lemma skip_application_selected {U : GoUnicode} c app : skip_application c app = false ↔ selected c app.
Proof.
  unfold skip_application, selected. rewrite !orb_false_iff, !skip_guard.
  assert (∀ b v, nonempty v && negb b = false ↔ (v ≠ EmptyString → b = true)) as Hb.
  { intros b v. unfold nonempty. destruct (String.eqb_spec v EmptyString), b; simpl; intuition congruence. }
  rewrite Hb, !Logic.and_assoc. unfold Query. repeat apply and_iff_compat_l.
  destruct (GetQuery c "capabilityId") as [id|], (GetQuery c "hasDocs") as [raw|]; simpl;
    rewrite ?negb_false_iff, ?String.eqb_eq, ?eqb_true_iff; naive_solver.
Qed.

#[export] Instance selected_dec {U : GoUnicode} c app : Decision (selected c app).
Proof.
  destruct (skip_application c app) eqn:E.
  - right. intros H. apply skip_application_selected in H. congruence.
  - left. by apply skip_application_selected.
Defined.

(** The applications a request lists. *)
Definition listed {U : GoUnicode} (h : CatalogHandler) (c : request) : list ApplicationEntry :=
  overlayApp (h_reach h) <$> filter (selected c) (cat_Applications (snapshot_of h)).

Lemma ListApplications_listed {U : GoUnicode} (h : CatalogHandler) (c : request) :
  ListApplications h c = respond (snapshot_of h) (DApplications (listed h c)).
Proof.
  unfold ListApplications, listed. do 2 f_equal.
  rewrite (foldl_filter (selected c) _ (overlayApp (h_reach h))); [done|].
  intros acc app. destruct (decide _) as [H|H].
  - apply skip_application_selected in H. by rewrite H.
  - destruct (skip_application c app) eqn:E; [done|]. by apply skip_application_selected in E.
Qed.

(** C26: listing.  The response is 200 with the snapshot's envelope and, in the
    snapshot's order, the overlay of exactly the applications that meet every
    filter given; a filter by capability or by documents applies even when its
    value is empty, the others only when it is not. *)
Theorem ListApplications_spec (U : GoUnicode) (h : CatalogHandler) (c : request) :
  let cat := snapshot_of h in
  ∃ out, ListApplications h c = respond cat (DApplications (overlayApp (h_reach h) <$> out)) ∧
    out `sublist_of` cat_Applications cat ∧
    (∀ app, app ∈ out ↔ app ∈ cat_Applications cat ∧ selected c app) ∧
    (NoDup (cat_Applications cat) → NoDup out) ∧
    (∀ reach app, h_reach h = Some reach →
       overlayApp (h_reach h) app =
       app_set_Services app ((λ svc, with_results svc (host_results reach app svc)) <$> app_Services app)).
Proof.
  cbn zeta. exists (filter (selected c) (cat_Applications (snapshot_of h))). split_and!.
  - apply ListApplications_listed.
  - apply sublist_filter.
  - intros app. rewrite list_elem_of_filter. tauto.
  - apply NoDup_filter.
  - intros reach app ->. by rewrite overlayApp_overlaid.
Qed.

(** *** The views of one snapshot *)

(** A request with at most one query parameter. *)
Definition ask (q : option (string * string)) : request :=
  mkRequest (λ k, match q with
    | Some (key, v) => if String.eqb k key then Some v else None
    | None => None
    end) (λ _, EmptyString) EmptyString.

Definition ns_selected (c : request) (ns : NamespaceEntry) : Prop :=
  ∀ id, GetQuery c "capabilityId" = Some id → nse_CapabilityID ns = id.

#[export] Instance ns_selected_dec c ns : Decision (ns_selected c ns).
Proof.
  unfold ns_selected. destruct (GetQuery c "capabilityId") as [id|].
  - destruct (decide (nse_CapabilityID ns = id)); [left; congruence|right; naive_solver].
  - by left.
Defined.

Lemma ListNamespaces_filter h c :
  ListNamespaces h c =
  respond (snapshot_of h) (DNamespaces (filter (ns_selected c) (cat_Namespaces (snapshot_of h)))).
Proof.
  unfold ListNamespaces. do 2 f_equal.
  rewrite (foldl_filter (ns_selected c) _ id); [by rewrite list_fmap_id|].
  intros acc ns. case_decide as H; unfold ns_selected in H; destruct (GetQuery c "capabilityId") as [id|].
  - by rewrite (H id eq_refl), String.eqb_refl.
  - done.
  - destruct (String.eqb_spec (nse_CapabilityID ns) id); [naive_solver|done].
  - by destruct H.
Qed.

Lemma selected_none {U : GoUnicode} app : selected (ask None) app.
Proof. unfold selected, Query. simpl. split_and!; naive_solver. Qed.

Lemma selected_namespace {U : GoUnicode} v app :
  v ≠ EmptyString → selected (ask (Some ("namespace", v))) app ↔ app_Namespace app = v.
Proof. unfold selected, Query. simpl. intros Hv. split; [naive_solver|]. intros ->. split_and!; naive_solver. Qed.

Lemma selected_docs {U : GoUnicode} v app :
  selected (ask (Some ("hasDocs", v))) app ↔ applicationHasDocs app = is_true_param v.
Proof. unfold selected, Query. simpl. split; [naive_solver|]. intros E. split_and!; naive_solver. Qed.

Lemma find_application_head reach ns name apps :
  overlayApp reach <$> find_application ns name apps =
  head (filter (λ a, app_Name a = name) (overlayApp reach <$> filter (λ a, app_Namespace a = ns) apps)).
Proof.
  induction apps as [|a apps IH]; [done|]. cbn [find_application]. rewrite filter_cons.
  destruct (String.eqb_spec (app_Namespace a) ns); [|by rewrite decide_False].
  rewrite decide_True, fmap_cons, filter_cons by done.
  destruct (overlayApp_same reach a) as (_ & -> & _).
  destruct (String.eqb_spec (app_Name a) name); [by rewrite decide_True|by rewrite decide_False].
Qed.

Lemma find_namespace_head name nss : find_namespace name nss = head (filter (λ n, nse_Name n = name) nss).
Proof.
  induction nss as [|n nss IH]; [done|]. cbn [find_namespace]. rewrite filter_cons.
  destruct (String.eqb_spec (nse_Name n) name); [by rewrite decide_True|by rewrite decide_False].
Qed.

Lemma GetNamespace_filter h c :
  GetNamespace h c =
  match find_namespace (Param c "namespace") (cat_Namespaces (snapshot_of h)) with
  | None => not_found "namespace not found"
  | Some found =>
      respond (snapshot_of h) (DNamespace found (overlayApp (h_reach h) <$>
        filter (λ a, app_Namespace a = Param c "namespace") (cat_Applications (snapshot_of h))))
  end.
Proof.
  unfold GetNamespace. destruct (find_namespace _ _); [|done]. do 2 f_equal.
  rewrite (foldl_filter (λ a, app_Namespace a = Param c "namespace") _ (overlayApp (h_reach h))); [done|].
  intros acc a. by case_decide as E; destruct (String.eqb_spec (app_Namespace a) (Param c "namespace")).
Qed.

(** C25: one snapshot, one truth.  The applications of [GetCatalog] are those of
    an unfiltered [ListApplications]; the lists with and without documents share
    them out; [GetApplication] serves the first application of that name in the
    list of its namespace, and 404 when there is none; [GetNamespace] serves the
    first namespace of that name in [ListNamespaces] with the very list of that
    namespace, and 404 when there is none. *)
Theorem views_agree (U : GoUnicode) (h : CatalogHandler) (c : request) :
  let cat := snapshot_of h in
  let apps q := listed h (ask q) in
  let ns := Param c "namespace" in
  (∀ q, ListApplications h (ask q) = respond cat (DApplications (apps q))) ∧
  (∃ view, GetCatalog h c = respond cat (DCatalog view) ∧ cat_Applications view = apps None ∧
     cat_Namespaces view = cat_Namespaces cat ∧ cat_Dependencies view = cat_Dependencies cat ∧
     cat_Stats view = cat_Stats cat) ∧
  apps None ≡ₚ apps (Some ("hasDocs", "true")) ++ apps (Some ("hasDocs", "false")) ∧
  (∃ nss, ListNamespaces h (ask None) = respond cat (DNamespaces nss) ∧
    (ns ≠ EmptyString →
      GetApplication h c =
        (match head (filter (λ a, app_Name a = Param c "name") (apps (Some ("namespace", ns)))) with
         | Some app => respond cat (DApplication app)
         | None => not_found "application not found"
         end) ∧
      GetNamespace h c =
        (match head (filter (λ n, nse_Name n = ns) nss) with
         | Some found => respond cat (DNamespace found (apps (Some ("namespace", ns))))
         | None => not_found "namespace not found"
         end))).
Proof.
  cbn zeta. split; [intros q; apply ListApplications_listed|].
  unfold listed. set (cat := snapshot_of h). split_and!.
  - exists (with_Applications cat (overlayApps (h_reach h) (cat_Applications cat))).
    split_and!; [done| |done..]. simpl. unfold overlayApps. by rewrite (filter_always _ _ selected_none).
  - rewrite (filter_always _ _ selected_none), <- fmap_app. apply fmap_Permutation.
    rewrite (list_filter_iff _ (λ a, applicationHasDocs a = true)) by (intros; apply selected_docs).
    rewrite (list_filter_iff (selected _) (λ a, applicationHasDocs a = false)) by (intros; apply selected_docs).
    induction (cat_Applications cat) as [|a l IH]; [done|]. rewrite !filter_cons.
    destruct (applicationHasDocs a).
    + rewrite decide_True, decide_False by done. simpl. by rewrite <- IH.
    + rewrite decide_False, decide_True by done. by rewrite <- Permutation_middle, <- IH.
  - exists (cat_Namespaces cat). split.
    { rewrite ListNamespaces_filter. do 2 f_equal. apply filter_always. by intros ns id. }
    intros Hns. rewrite (list_filter_iff (selected _) (λ a, app_Namespace a = Param c "namespace"))
      by (intros; by apply selected_namespace). split.
    + rewrite <- find_application_head. unfold GetApplication. fold cat. by destruct (find_application _ _ _).
    + rewrite <- find_namespace_head, GetNamespace_filter. fold cat. by destruct (find_namespace _ _).
Qed.

(** *** Dependencies *)

Definition dep_selected (c : request) (dep : DependencyEdge) : Prop :=
  (Query c "type" ≠ EmptyString → edge_Type dep = Query c "type") ∧
  (Query c "namespace" ≠ EmptyString →
     node_Namespace (edge_Source dep) = Query c "namespace" ∨
     node_Namespace (edge_Target dep) = Query c "namespace").

Lemma skip_dependency_selected c dep : skip_dependency c dep = false ↔ dep_selected c dep.
Proof.
  unfold skip_dependency, dep_selected. rewrite orb_false_iff, skip_guard. apply and_iff_compat_l.
  unfold nonempty. destruct (String.eqb_spec (Query c "namespace") EmptyString) as [|Hn]; [naive_solver|].
  destruct (String.eqb_spec (node_Namespace (edge_Source dep)) (Query c "namespace")),
    (String.eqb_spec (node_Namespace (edge_Target dep)) (Query c "namespace")); naive_solver.
Qed.

#[export] Instance dep_selected_dec c dep : Decision (dep_selected c dep).
Proof. unfold dep_selected. solve_decision. Defined.

Definition node_of (ns name : string) (n : DependencyNode) : Prop :=
  node_Namespace n = ns ∧ node_Service n = name.

#[export] Instance node_of_dec ns name n : Decision (node_of ns name n).
Proof. unfold node_of. solve_decision. Defined.

Lemma is_node_spec n ns name : is_node n ns name = bool_decide (node_of ns name n).
Proof.
  apply Bool.eq_iff_eq_true. unfold is_node. by rewrite andb_true_iff, !String.eqb_eq, bool_decide_eq_true.
Qed.

(** The edges into and out of a node, as the loop splits them. *)
Lemma split_edges ns name deps inb outb :
  foldl (λ '(inbound, outbound) dep,
    let outbound := if is_node (edge_Source dep) ns name then outbound ++ [dep] else outbound in
    let inbound := if is_node (edge_Target dep) ns name then inbound ++ [dep] else inbound in
    (inbound, outbound)) (inb, outb) deps =
  (inb ++ filter (λ d, node_of ns name (edge_Target d)) deps,
   outb ++ filter (λ d, node_of ns name (edge_Source d)) deps).
Proof.
  revert inb outb. induction deps as [|d deps IH]; intros inb outb; cbn [foldl]; [by rewrite !app_nil_r|].
  rewrite IH, !filter_cons, !is_node_spec, !decide_bool_decide.
  by destruct (bool_decide (node_of ns name (edge_Target d))),
    (bool_decide (node_of ns name (edge_Source d))); rewrite <- ?app_assoc.
Qed.

Lemma ListDependencies_filter h c :
  ListDependencies h c =
  respond (snapshot_of h) (DDependencies (filter (dep_selected c) (cat_Dependencies (snapshot_of h)))).
Proof.
  unfold ListDependencies. do 2 f_equal.
  rewrite (foldl_filter (dep_selected c) _ id); [by rewrite list_fmap_id|].
  intros acc d. case_decide as H.
  - apply skip_dependency_selected in H. by rewrite H.
  - destruct (skip_dependency c d) eqn:E; [done|]. by apply skip_dependency_selected in E.
Qed.

(** Dependencies.  The list holds, in order, exactly the edges of the type and
    with an end in the namespace asked for; an application's inbound and outbound
    edges are exactly those whose target and whose source it is (an edge to
    itself is both), and all of them are in the list of its namespace. *)
Theorem dependencies_spec (h : CatalogHandler) (c : request) :
  let deps := cat_Dependencies (snapshot_of h) in
  let ns := Param c "namespace" in
  let list c := filter (dep_selected c) deps in
  ListDependencies h c = respond (snapshot_of h) (DDependencies (list c)) ∧
  ∃ inbound outbound,
    GetApplicationDependencies h c = respond (snapshot_of h) (DAppDependencies inbound outbound) ∧
    inbound = filter (λ d, node_of ns (Param c "name") (edge_Target d)) deps ∧
    outbound = filter (λ d, node_of ns (Param c "name") (edge_Source d)) deps ∧
    ∀ d, d ∈ inbound ∨ d ∈ outbound → d ∈ list (ask (Some ("namespace", ns))).
Proof.
  cbn zeta. split.
  - apply ListDependencies_filter.
  - do 2 eexists. unfold GetApplicationDependencies. rewrite split_edges. split_and!; [done..|].
    intros d [H|H]; apply list_elem_of_filter in H as [[Hn _] Hd]; apply list_elem_of_filter;
      unfold dep_selected, Query; simpl; (split_and!; [by intros []|auto|done]).
Qed.

(** *** What a response names *)

Definition payload_apps (d : payload) : list ApplicationEntry :=
  match d with
  | DCatalog cat => cat_Applications cat
  | DApplications apps | DNamespace _ apps => apps
  | DApplication app => [app]
  | _ => []
  end.

Definition payload_entries (d : payload) : list NamespaceEntry :=
  match d with
  | DCatalog cat => cat_Namespaces cat
  | DNamespaces nss => nss
  | DNamespace ns _ => [ns]
  | _ => []
  end.

Definition payload_edges (d : payload) : list DependencyEdge :=
  match d with
  | DCatalog cat => cat_Dependencies cat
  | DDependencies deps => deps
  | DAppDependencies inbound outbound => inbound ++ outbound
  | _ => []
  end.

Definition payload_verdicts (d : payload) : list ReachabilityResult :=
  match d with DReachability results => results | _ => [] end.

Lemma find_application_elem ns name apps app : find_application ns name apps = Some app → app ∈ apps.
Proof.
  induction apps as [|a apps IH]; [done|]. simpl. destruct (_ && _).
  - intros [= ->]. by left.
  - intros H. right. by apply IH.
Qed.

Lemma find_namespace_elem name nss ns : find_namespace name nss = Some ns → ns ∈ nss.
Proof.
  induction nss as [|n nss IH]; [done|]. simpl. destruct (String.eqb _ _).
  - intros [= ->]. by left.
  - intros H. right. by apply IH.
Qed.

(** What a response holds comes from the snapshot and the store: its applications
    are overlaid ones of the snapshot, its namespaces and edges are the snapshot's
    and its verdicts the store's. *)
Record from_snapshot {rt : GoRuntime} (h : CatalogHandler) (d : payload) : Prop := {
  fs_apps app : app ∈ payload_apps d →
    ∃ a, a ∈ cat_Applications (snapshot_of h) ∧ app = overlayApp (h_reach h) a;
  fs_entries ns : ns ∈ payload_entries d → ns ∈ cat_Namespaces (snapshot_of h);
  fs_edges e : e ∈ payload_edges d → e ∈ cat_Dependencies (snapshot_of h);
  fs_verdicts v : v ∈ payload_verdicts d → ∃ reach, h_reach h = Some reach ∧ v ∈ All reach;
}.

(** Splits [from_snapshot], the parts a payload lacks being empty. *)
Ltac parts :=
  split; [|done]; split; cbn [payload_apps payload_entries payload_edges payload_verdicts];
  try (intros ? Hx; by apply elem_of_nil in Hx); auto.

Lemma handler_from_snapshot {U : GoUnicode} {rt : GoRuntime} h mw r c d m :
  r ∈ Configure h mw → rs_body (rt_handler r c) = Data d m →
  from_snapshot h d ∧ m = meta (snapshot_of h).
Proof.
  assert (∀ (Q : ApplicationEntry → Prop) (HQ : ∀ x, Decision (Q x)) app,
    app ∈ overlayApp (h_reach h) <$> filter Q (cat_Applications (snapshot_of h)) →
    ∃ a, a ∈ cat_Applications (snapshot_of h) ∧ app = overlayApp (h_reach h) a) as Hf.
  { intros Q ? app (a & -> & [_ Ha]%list_elem_of_filter)%list_elem_of_fmap. by exists a. }
  unfold Configure. intros Hr.
  repeat (apply elem_of_cons in Hr as [->|Hr]); [..|by apply elem_of_nil in Hr]; cbn [rt_handler].
  - done.
  - by unfold Readyz; destruct (h_catalog h).
  - intros [= <- <-]. parts.
    intros app (a & -> & Ha)%list_elem_of_fmap. by exists a.
  - intros [= <- <-]. parts.
  - rewrite ListApplications_listed. intros [= <- <-]. parts. apply Hf.
  - unfold GetApplication. destruct (find_application _ _ _) as [app|] eqn:E; [|done]. intros [= <- <-].
    apply find_application_elem in E. parts.
    intros a ->%list_elem_of_singleton. by exists app.
  - rewrite ListNamespaces_filter. intros [= <- <-]. parts.
    intros ns [_ Hns]%list_elem_of_filter. done.
  - rewrite GetNamespace_filter. destruct (find_namespace _ _) as [n|] eqn:E; [|done]. intros [= <- <-].
    apply find_namespace_elem in E. parts.
    + apply Hf.
    + by intros ns ->%list_elem_of_singleton.
  - rewrite ListDependencies_filter. intros [= <- <-]. parts.
    intros e [_ He]%list_elem_of_filter. done.
  - unfold GetApplicationDependencies. rewrite split_edges. intros [= <- <-]. parts.
    intros e [[_ He]%list_elem_of_filter|[_ He]%list_elem_of_filter]%elem_of_app; done.
  - intros [= <- <-]. parts. intros v.
    destruct (h_reach h) as [reach|]; [by exists reach|intros Hv; by apply elem_of_nil in Hv].
Qed.

(** *** Authentication of the routes *)

(** The routes a load balancer may call. *)
Definition public (path : string) : Prop := path = "/healthz" ∨ path = "/readyz".

Definition holds_data (r : response) : Prop := ∃ d m, rs_body r = Data d m.

(** Nothing of the catalog without authorisation.  With the verifier's
    middleware, on every route but the two health checks a request is answered by
    the handler exactly when its header is authorised, and otherwise by a 401
    that holds no data and is counted once; the health checks are answered always
    and hold no data.  No two routes have the same path. *)
Theorem Configure_auth (U : GoUnicode) (rt : GoRuntime) (h : CatalogHandler) (v : Verifier)
    (r : route) (rejections : Z) (c : request) :
  r ∈ Configure h (Some (Middleware v)) →
  let '(resp, n) := serve r (Some rejections) c in
  NoDup (rt_path <$> Configure h (Some (Middleware v))) ∧
  (public (rt_path r) ∧ resp = rt_handler r c ∧ ¬ holds_data resp ∧ n = Some rejections ∨
   ¬ public (rt_path r) ∧ authorised v (Authorization c) ∧ resp = rt_handler r c ∧ n = Some rejections ∨
   ¬ public (rt_path r) ∧ ¬ authorised v (Authorization c) ∧ rs_status resp = 401%Z ∧
     ¬ holds_data resp ∧ n = Some (rejections + 1)%Z).
Proof.
  intros Hr.
  assert (NoDup (rt_path <$> Configure h (Some (Middleware v)))) as Hnd.
  { simpl. by apply (bool_decide_unpack (NoDup _)). }
  assert (public (rt_path r) ∧ rt_mw r = None ∧ ¬ holds_data (rt_handler r c) ∨
    ¬ public (rt_path r) ∧ rt_mw r = Some (Middleware v)) as [(Hp & Hm & Hd)|[Hp Hm]].
  { unfold Configure, public, holds_data in *. clear Hnd.
    repeat (apply elem_of_cons in Hr as [->|Hr]); [..|by apply elem_of_nil in Hr]; simpl;
      try (right; split; [by intros [|]|done]); left.
    - split_and!; [by left|done|naive_solver].
    - split_and!; [by right|done|]. destruct (h_catalog h); naive_solver. }
  { unfold serve. rewrite Hm. split; [done|]. by left. }
  unfold serve. rewrite Hm.
  pose proof (Middleware_spec v (Some rejections) (Authorization c)) as Hs.
  destruct (Middleware v (Some rejections) (Authorization c)) as [[|reason] n].
  - destruct Hs as [Ha ->]. split; [done|]. right. left. done.
  - destruct Hs as [Ha ->]. split; [done|]. right. right. split_and!; [done..| |done].
    by intros (d & m & ?).
Qed.

Definition demo_handler : CatalogHandler := mkCatalogHandler None None "c1".

Definition demo_verifier : Verifier :=
  mkVerifier "https://issuer" "aud" ["Catalog.Read"] (Some (λ tok, Ok (Ok (mkClaims [tok])))).

Lemma Configure_auth_witness :
  let r := mkRoute "/api/v1/catalog" (Some (Middleware demo_verifier)) (GetCatalog demo_handler) in
  let answer header := serve r (Some 0%Z) (mkRequest (λ _, None) (λ _, EmptyString) header) in
  rs_status (answer "Bearer Catalog.Read").1 = 200%Z ∧ authorised demo_verifier "Bearer Catalog.Read" ∧
  rs_status (answer "Bearer Other").1 = 401%Z ∧ ¬ authorised demo_verifier "Bearer Other".
Proof.
  cbn zeta. set (r := mkRoute _ _ _).
  assert (r ∈ Configure (U := ascii_unicode) (rt := insertion_runtime) demo_handler (Some (Middleware demo_verifier)))
    as Hr by (do 2 right; left).
  pose proof (λ header, Configure_auth ascii_unicode insertion_runtime demo_handler demo_verifier r 0
    (mkRequest (λ _, None) (λ _, EmptyString) header) Hr) as H.
  split; [by vm_compute|]. split.
  - specialize (H "Bearer Catalog.Read"). destruct H as [_ [H|[H|H]]].
    + by destruct H as [[|] _].
    + by destruct H as (_ & H & _).
    + by destruct H as (_ & _ & H & _).
  - split; [by vm_compute|]. specialize (H "Bearer Other"). destruct H as [_ [H|[H|H]]].
    + by destruct H as [[|] _].
    + by destruct H as (_ & _ & H & _).
    + by destruct H as (_ & H & _).
Defined.
