(* ===== verification/Typing.v ===== *)
(** * The types of a catalog's values

    The Go structs hold strings where the comments of [internal/model/catalog.go]
    name a few values.  This file states which values each such field may take and
    that every component keeps to them, whatever Kubernetes, the probes and the
    telemetry answer: the snapshot, the resolver, the applications, the passes and
    the edges of a cycle, and the responses of the API. *)

From S2P Require Export Api Collector.

(** ** Values *)

Definition workload_kinds : list string := ["Deployment"; "StatefulSet"; "DaemonSet"].
Definition application_kinds : list string := workload_kinds ++ ["Service"].
Definition route_kinds : list string := ["Ingress"; "IngressRoute"].
Definition gitops_tools : list string := ["argocd"; "flux-helm"; "flux-kustomize"; EmptyString].

Definition source_typed (src : DeploymentSource) : Prop := ds_Tool src ∈ gitops_tools.

Definition doc_typed (d : APIDocInfo) : Prop := doc_ExternallyAvailable d = nonempty (doc_ExternalURL d).

(** A service whose verdicts all satisfy [V]. *)
Record service_typed (V : ReachabilityResult → Prop) (svc : ServiceRef) : Prop := {
  sv_routes : Forall (λ r, route_Kind r ∈ route_kinds) (svc_Routes svc);
  sv_docs : Forall doc_typed (svc_APIDocs svc);
  sv_verdicts : Forall V (svc_Reachability svc);
}.

Record application_typed (cluster : string) (V : ReachabilityResult → Prop) (app : ApplicationEntry) : Prop := {
  ap_cluster : app_Cluster app = cluster;
  ap_kind : app_Kind app ∈ application_kinds;
  ap_source : ∀ src, app_DeploymentSource app = Some src → source_typed src;
  ap_services : Forall (service_typed V) (app_Services app);
  ap_observed : observed_typed app;
}.

(** An edge telemetry observed, or one a network policy declares. *)
Definition edge_typed (cluster : string) (e : DependencyEdge) : Prop :=
  node_typed cluster (edge_Source e) ∧ node_typed cluster (edge_Target e) ∧
  (edge_Type e ∈ [kindService; kindDatabase; kindKafka] ∧ edge_Origin e ∈ [originServiceGraph; originMetrics] ∨
   edge_Type e = "network_policy" ∧ edge_Origin e = "network_policy" ∧
     node_External (edge_Source e) = false ∧ node_External (edge_Target e) = true).

(** No verdict: what a collected catalog holds. *)
Definition no_verdict (r : ReachabilityResult) : Prop := False.

Record catalog_typed (cluster : string) (V : ReachabilityResult → Prop) (cat : Catalog) : Prop := {
  ct_cluster : cat_Cluster cat = cluster;
  ct_apps : Forall (application_typed cluster V) (cat_Applications cat);
  ct_entries : Forall (λ n, nse_Cluster n = cluster) (cat_Namespaces cat);
  ct_edges : Forall (edge_typed cluster) (cat_Dependencies cat);
}.

(** ** The scan *)

Lemma scan_all_inv (P : K8sSnapshot → Prop) scan order s s' :
  (∀ s local, P s → P local → P (append_local s local)) → P s →
  (∀ ns local, scan ns = Ok local → P local) → scan_all scan order s = Ok s' → P s'.
Proof.
  intros Happ Hs Hscan. revert s Hs. induction order as [|ns order IH]; intros s Hs; simpl.
  - by intros [= <-].
  - intros (local & Hl & Hrest)%rbind_Ok. eapply IH; [|done]. apply Happ; [done|]. by eapply Hscan.
Qed.

Definition workloads_typed (s : K8sSnapshot) : Prop :=
  Forall (λ w, wl_Kind w ∈ workload_kinds) (snap_Workloads s).

Lemma scanNamespace_typed {U : Unstructured} rts c ns local :
  scanNamespace rts c ns = Ok local → workloads_typed local.
Proof.
  unfold scanNamespace.
  intros (pods & _ & H)%rbind_Ok. revert H. intros (svcs & _ & H)%rbind_Ok. revert H.
  intros (deps & _ & H)%rbind_Ok. revert H. intros (ssets & _ & H)%rbind_Ok. revert H.
  intros (dsets & _ & H)%rbind_Ok. revert H. intros (ings & _ & H)%rbind_Ok. revert H.
  intros (nps & _ & [= <-])%rbind_Ok.
  unfold workloads_typed. simpl. rewrite !Forall_app, !Forall_fmap.
  split_and!; apply Forall_true; intros w; [left|right; left|right; right; left].
Qed.

Lemma ListResources_typed {U : Unstructured} rts c sched s :
  ListResources rts c sched = Ok s → workloads_typed s.
Proof.
  intros (items & _ & (s' & Hs' & [= <-])%rbind_Ok)%rbind_Ok. unfold workloads_typed. simpl.
  eapply (scan_all_inv workloads_typed); [| |by intros; eapply scanNamespace_typed|exact Hs'].
  - intros a b Ha Hb. unfold workloads_typed. simpl. by apply Forall_app.
  - constructor.
Qed.

(** ** Attribution *)

Lemma applyGitSource_tool r dst ref ns : ds_Tool (applyGitSource r dst ref ns) = ds_Tool dst.
Proof. unfold applyGitSource. by repeat case_match. Qed.

Lemma resolveSource_typed r labels annotations src :
  resolveSource r labels annotations = Some src → source_typed src.
Proof.
  unfold resolveSource, source_typed, gitops_tools.
  destruct (resolveArgo r labels annotations) as [a|] eqn:Ea.
  { intros [= <-]. revert Ea. unfold resolveArgo. repeat case_match; intros [= <-]. by left. }
  destruct (resolveFluxHelm r labels) as [a|] eqn:Eh.
  { intros [= <-]. revert Eh. unfold resolveFluxHelm.
    repeat case_match; intros [= <-]; rewrite ?applyGitSource_tool; right; left. }
  destruct (resolveFluxKustomize r labels) as [a|] eqn:Ek.
  { intros [= <-]. revert Ek. unfold resolveFluxKustomize.
    repeat case_match; intros [= <-]; rewrite ?applyGitSource_tool; right; right; left. }
  unfold fallbackSource. case_match; intros [= <-]. right; right; right; left.
Qed.

(** ** The built applications *)

Lemma exposed_routes_typed s key r : r ∈ exposed_routes s key → route_Kind r ∈ route_kinds.
Proof.
  unfold exposed_routes. rewrite elem_of_app, !list_elem_of_bind.
  intros [(ing & Hr & _)|(ir & Hr & _)].
  - unfold ing_routes in Hr. case_match; [|by apply elem_of_nil in Hr].
    apply list_elem_of_fmap in Hr as (p & -> & _). by left.
  - unfold ir_exposes in Hr. apply list_elem_of_bind in Hr as (rule & Hr & _).
    apply list_elem_of_bind in Hr as (svc & Hr & _). case_decide; [|by apply elem_of_nil in Hr].
    apply list_elem_of_singleton in Hr as ->. right; left.
Qed.

Lemma serviceRefFrom_typed rts s svc : service_typed no_verdict (serviceRefFrom svc (buildIndex rts s)).
Proof.
  split; simpl; try constructor. apply Forall_forall. intros r Hr.
  set (key := service_key (si_Namespace svc) (si_Name svc)) in *.
  destruct (buildIndex_key rts s key) as [_ H].
  change (default [] (routesByService (buildIndex rts s) !! key)) with (routes_of (buildIndex rts s) key) in Hr.
  rewrite H in Hr. apply (appendRouteUnique_fold [] _ NoDup_nil_2) in Hr as [Hr|Hr].
  - by apply elem_of_nil in Hr.
  - by eapply exposed_routes_typed.
Qed.

Lemma entry_typed {rt : GoRuntime} rts cluster s caps resolver w :
  wl_Kind w ∈ workload_kinds →
  application_typed cluster no_verdict (entry_of cluster (buildIndex rts s) caps resolver s w).
Proof.
  intros Hk. unfold entry_of, workload_entry.
  destruct (Resolve resolver _ _ _) as [source repos] eqn:E. split; simpl.
  - done.
  - unfold application_kinds. apply elem_of_app. by left.
  - unfold Resolve in E. injection E as Es _. intros src ->. by eapply resolveSource_typed.
  - unfold workload_services. apply Forall_forall. intros x (svc & -> & _)%list_elem_of_fmap.
    apply serviceRefFrom_typed.
  - by split; constructor.
Qed.

Lemma orphan_typed rts cluster s caps svc :
  application_typed cluster no_verdict (orphan_of cluster (buildIndex rts s) caps svc).
Proof.
  split; simpl; [done| |done| |by split; constructor].
  - unfold application_kinds. apply elem_of_app. right; left.
  - apply Forall_singleton, serviceRefFrom_typed.
Qed.

Lemma buildApplications_typed rts rt cluster s caps resolver :
  workloads_typed s →
  Forall (application_typed cluster no_verdict) (buildApplications rts rt cluster s caps resolver).
Proof.
  intros Hw. rewrite Forall_forall. intros app.
  rewrite buildApplications_entries, elem_of_app, !list_elem_of_fmap.
  intros [(w & -> & H)|(svc & -> & H)]; [|apply orphan_typed].
  apply entry_typed. by eapply Forall_forall in Hw.
Qed.

(** ** The passes *)

(** The documents a run has gathered: none is external yet. *)
Definition results_typed (results : probe_results) : Prop :=
  map_Forall (λ _ bySvc, map_Forall (λ _ docs, Forall doc_typed docs) bySvc) results.

Lemma results_typed_docs results i bySvc k docs :
  results_typed results → results !! i = Some bySvc → bySvc !! k = Some docs → Forall doc_typed docs.
Proof. intros H Hi Hk. exact (H i bySvc Hi k docs Hk). Qed.

Lemma record_doc_typed {GU : GoUnicode} webs results j :
  results_typed results → results_typed (record_doc webs results j).
Proof.
  intros H. unfold record_doc. destruct (probeOne _ _) as [doc|] eqn:E; [|done].
  assert (doc_typed doc) as Hd.
  { revert E. unfold probeOne. repeat case_match; intros [= <-]; done. }
  intros i bySvc [[<- <-]|[_ Hi]]%lookup_insert_Some; [|by apply (H i)].
  intros k docs [[<- <-]|[_ Hk]]%lookup_insert_Some.
  - apply Forall_app. split; [|by apply Forall_singleton].
    destruct (results !! _) as [m|] eqn:Em; simpl; [|by rewrite lookup_empty; constructor].
    destruct (m !! _) as [ds|] eqn:Eds; simpl; [|constructor]. by eapply results_typed_docs.
  - destruct (results !! _) as [m|] eqn:Em; simpl in Hk; [|by rewrite lookup_empty in Hk].
    by eapply results_typed_docs.
Qed.

Lemma annotate_typed routes docs :
  Forall doc_typed docs → Forall doc_typed (annotateExternalAvailability routes docs).
Proof.
  intros H. unfold annotateExternalAvailability. rewrite Forall_fmap.
  eapply Forall_impl; [exact H|]. intros d Hd. simpl. unfold annotate_doc, externalURLForPath.
  destruct (foldl _ _ _) as [host path]. destruct (String.eqb host EmptyString); done.
Qed.

Lemma fill_service_typed cluster V i st e :
  Forall doc_typed e.2 → Forall (application_typed cluster V) st.1 →
  Forall (application_typed cluster V) (fill_service i st e).1.
Proof.
  destruct st as [apps hits], e as [k docs]. simpl. intros Hd Ha.
  apply Forall_alter; [done|]. intros app _ [? ? ? Hs ?]. split; simpl; try done.
  apply Forall_alter; [done|]. intros svc _ [? ? ?]. split; simpl; try done.
  apply annotate_typed. by rewrite (proj1 (sortDocs_perm_sorted docs)).
Qed.

Lemma Probe_typed {GU : GoUnicode} {rt : GoRuntime} cluster V webs sched apps :
  Forall (application_typed cluster V) apps →
  Forall (application_typed cluster V) (Swagger.Probe webs sched apps).1.1.
Proof.
  intros Ha. unfold Swagger.Probe. destruct (Nat.eqb _ 0); [done|].
  assert (results_typed (foldl (record_doc webs) ∅ (sched (probe_jobs apps)))) as Hr.
  { apply foldl_inv; [apply map_Forall_empty|]. intros. by apply record_doc_typed. }
  revert Hr. generalize (foldl (record_doc webs) ∅ (sched (probe_jobs apps))). intros results Hr.
  enough (Forall (application_typed cluster V) (fill_results apps results).1) as H
    by (by destruct (fill_results apps results)).
  unfold fill_results. apply (foldl_inv (λ st, Forall (application_typed cluster V) st.1)); [done|].
  intros st [i bySvc] Hi%map_range_elem_of Hst. unfold fill_app.
  apply (foldl_inv (λ st, Forall (application_typed cluster V) st.1)); [done|].
  intros st' [k docs] Hk%map_range_elem_of Hst'. apply fill_service_typed; [|done]. by eapply results_typed_docs.
Qed.

Lemma overlaid_typed cluster V a b :
  Overlay.overlaid a b → observed_typed b → application_typed cluster V a → application_typed cluster V b.
Proof.
  intros [Hid _] Ho [Hc Hk Hs Hv _].
  pose proof (f_equal app_Cluster Hid) as Ec. pose proof (f_equal app_Kind Hid) as Ek.
  pose proof (f_equal app_DeploymentSource Hid) as Es. pose proof (f_equal app_Services Hid) as Ev.
  simpl in Ec, Ek, Es, Ev. split; congruence || (rewrite <- ?Ek, <- ?Ev; try done). by rewrite <- Es.
Qed.

Lemma overlay_pass_typed {GU : GoUnicode} {rt : GoRuntime} cluster V overlayer round caches apps :
  (∀ o, overlayer = Some o → o_cluster o = cluster) → Forall (application_typed cluster V) apps →
  let out := overlay_pass overlayer round caches apps in
  Forall (application_typed cluster V) out.1.2 ∧ Forall (overlay_edge_typed cluster) out.1.1.
Proof.
  intros Hc Ha. cbn zeta. pose proof (overlay_pass_overlaid overlayer round caches apps) as Ho.
  destruct overlayer as [o|]; [|by split; [|constructor]]. specialize (Hc o eq_refl).
  assert (Forall observed_typed apps) as Hobs by (eapply Forall_impl; [exact Ha|]; by intros a []).
  destruct (Apply_typed o round caches apps Hobs) as [Ht He]. rewrite Hc in He.
  cbn [overlay_pass] in Ho |- *. split; [|exact He]. clear Hc Hobs He.
  generalize dependent (Apply o round caches apps).1.2. intros apps2 Ho Ht. revert Ha Ht.
  induction Ho as [|a b l l' Hab _ IH]; [constructor|].
  intros [Ha Has]%Forall_cons [Hb Hbs]%Forall_cons.
  constructor; [by eapply overlaid_typed|by apply IH].
Qed.

Lemma probe_pass_typed {GU : GoUnicode} {rt : GoRuntime} cluster V prober env apps :
  Forall (application_typed cluster V) apps →
  Forall (application_typed cluster V) (probe_pass prober env apps).1.
Proof.
  intros Ha. destruct prober as [p|]; [|done]. simpl. unfold counted_Probe.
  pose proof (Probe_typed cluster V (ce_webs env) (ce_sched env) apps Ha) as H.
  by destruct (Swagger.Probe _ _ _) as [[? ?] ?].
Qed.

(** *** The declared edges *)

Lemma declared_edges_typed {rt : GoRuntime} cluster s :
  Forall (edge_typed cluster) (buildNetworkPolicyEdges cluster s).
Proof.
  unfold buildNetworkPolicyEdges. destruct (Nat.eqb _ 0); [constructor|].
  apply (foldl_inv (λ st, Forall (edge_typed cluster) st.2)); [constructor|].
  intros st np _ Hst. unfold netpol_step. destruct (Nat.eqb _ 0); [done|].
  apply (foldl_inv (λ st, Forall (edge_typed cluster) st.2)); [done|].
  intros st' w _ Hst'. unfold netpol_workload_step. destruct (negb _); [done|].
  apply (foldl_inv (λ st, Forall (edge_typed cluster) st.2)); [done|].
  intros [seen edges] target _ He. unfold netpol_target_step. case_bool_decide; [done|]. simpl in *.
  apply Forall_app. split; [done|]. apply Forall_singleton. split_and!; [done..|]. by right.
Qed.

(** ** A cycle *)

Lemma Collect_typed {GU : GoUnicode} {U : Unstructured} rts rt c env mem s cat :
  (∀ o, col_overlayer c = Some o → o_cluster o = col_cluster c) →
  ce_snapshot env = Ok s → workloads_typed s → (Collect rts rt c env mem).1 = Ok cat →
  catalog_typed (col_cluster c) no_verdict cat.
Proof.
  intros Hc Hs Hw. destruct (Collect_Ok rts rt c env mem s Hs) as [-> _]. cbn [fst]. intros [= <-].
  set (apps := buildApplications _ _ _ _ _ _).
  pose proof (buildApplications_typed rts rt (col_cluster c) s _ (NewResolver (snap_GitOps s)) Hw
    : Forall _ apps) as Ha.
  apply (probe_pass_typed _ _ (mem_prober mem) env) in Ha.
  destruct (overlay_pass_typed _ _ (col_overlayer c) (ce_round env) (mem_caches mem) _ Hc Ha) as [Ho He].
  split; simpl; [done|exact Ho| |].
  - unfold buildNamespaces. rewrite sort_slice_perm, Forall_fmap. by apply Forall_true.
  - apply Forall_app. split; [|apply declared_edges_typed].
    eapply Forall_impl; [exact He|]. intros e (H1 & H2 & H3 & H4). split_and!; auto.
Qed.

(** ** Responses *)

Lemma overlayApp_typed cluster V reach app :
  (∀ s key r, reach = Some s → Reachability.Lookup s key = (r, true) → V r) →
  application_typed cluster no_verdict app → application_typed cluster V (overlayApp reach app).
Proof.
  intros HV [Hc Hk Hs Hv Ho]. rewrite overlayApp_overlaid.
  assert (∀ svc, service_typed no_verdict svc → service_typed V svc) as Hweak.
  { intros svc [? ? Hn]. split; [done..|]. eapply Forall_impl; [exact Hn|]. by intros ? []. }
  destruct reach as [reach|]; (split; simpl; [done..| |done]).
  - rewrite Forall_fmap. eapply Forall_impl; [exact Hv|]. intros svc Hsvc. simpl.
    unfold overlaid_service, with_results. destruct (host_results reach app svc) as [|r rs] eqn:E; [by apply Hweak|].
    destruct Hsvc as [? ? _]. split; simpl; [done..|]. rewrite <- E. unfold host_results.
    apply foldl_inv; [constructor|]. intros results host _ Hr.
    destruct (Reachability.Lookup reach _) as [r' []] eqn:El; [|done]. apply Forall_app. split; [done|].
    apply Forall_singleton. by eapply HV.
  - eapply Forall_impl; [exact Hv|]. apply Hweak.
Qed.
