(* ===== verification/System.v ===== *)
(** * The running service ([cmd/main.go])

    [main] loads the configuration, builds the verifier, registers the routes and
    starts the goroutines: the collecting worker, the reachability worker, the
    verifier's refresh and one per request.  They share the catalog pointer, the
    verdict store, the metrics and the context.  The service is a transition
    system: an [event] is an atomic access of one goroutine to what is shared,
    with what the outside gives it, and [exec] is executable.  A request is accepted
    while [main] serves, stays in flight and is answered in one step; [Shutdown]
    returns when none is in flight.  The process ends when [main] returns, at a
    [log.Fatal] and at a panic. *)

From S2P Require Import Metrics TelemetryClient.
From S2P Require Export Config Api Collector.
From Stdlib Require Import Ascii.

(** ** Durations *)

Definition wrap64 (z : Z) : Z := ((z + 2 ^ 63) mod 2 ^ 64 - 2 ^ 63)%Z.

Definition second_ns : Z := (10 ^ 9)%Z.
Definition minute_ns : Z := (60 * 10 ^ 9)%Z.

(** [time.Duration(n) * unit] *)
Definition duration (n unit : Z) : Z := wrap64 (n * unit).

(** [rand.Int63n(n)] for some draw; it panics when [n <= 0]. *)
Definition Int63n (draw n : Z) : option Z := if (n <=? 0)%Z then None else Some (draw mod n)%Z.

Definition jitter (interval draw : Z) : option Z := Int63n draw (Z.quot interval 10 + 1).

(** [interval + jitter], [None] when the jitter panics. *)
Definition pause (interval draw : Z) : option Z :=
  option_map (λ j, wrap64 (interval + j)) (jitter interval draw).

(** ** Metrics *)

(** The worker's call of [Publish], by what it leaves in the gauges. *)
Definition publish_stats (s : CatalogStats) : gauge_values :=
  published (stats_TotalApplications s) (stats_CapabilityOwnedApplications s) (stats_ApplicationsWithDocs s)
    (stats_ApplicationsWithDeploySource s) (stats_TotalDependencies s).

(** ** Start *)

Definition worker_options (conf : Config) : Options :=
  let k := cf_Kubernetes conf in
  mkOptions (kc_Concurrency k) (kc_NamespaceExclude k) (kc_NamespaceInclude k) (cf_GitOpsEnabled conf)
    (kc_QPS k) (kc_Burst k).

Definition worker_prober (conf : Config) : option Swagger.Prober :=
  if sc_Enabled (cf_Swagger conf)
  then Some (Swagger.NewProber (sc_Concurrency (cf_Swagger conf)) (Some 0%Z) (Some 0%Z))
  else None.

(** The query client as the overlay uses it: [newRequest], [do] and [decode] are
    the HTTP and JSON libraries; an exchange depends on the round. *)
Definition worker_tClient {F : GoParseFloat} (conf : Config) (newRequest : string → option string)
    (do : nat → QueryRequest → result QueryResponse) (decode : string → result promResponse)
    : nat → string → result (list Sample) :=
  let t := cf_Telemetry conf in
  λ round, InstantQuery newRequest (do round) decode
    (TelemetryClient.NewClient (tc_MimirURL t) (tc_BasicAuthUser t) (tc_BasicAuthToken t)).

(** [tClient] is the query client, [lookupAddr] and [lookupHost] the resolver. *)
Definition worker_overlayer (conf : Config) (tClient : nat → string → result (list Sample))
    (lookupAddr lookupHost : nat → string → list string) : option Overlayer :=
  if tc_Enabled (cf_Telemetry conf)
  then Some (NewOverlayer tClient (cf_ClusterName conf)
               (duration (tc_LookbackMinutes (cf_Telemetry conf)) minute_ns) lookupAddr lookupHost)
  else None.

(** What a new overlayer mutates: no caches yet, its counter registered. *)
Definition overlay_caches : ocaches := mkOcaches None None (Some 0%Z).

Definition worker_collector (conf : Config) (tClient : nat → string → result (list Sample))
    (lookupAddr lookupHost : nat → string → list string) : Collector * memory :=
  NewCollector (cf_ClusterName conf) (worker_prober conf)
    (worker_overlayer conf tClient lookupAddr lookupHost) overlay_caches.

Definition reach_prober (conf : Config) : Reachability.Prober :=
  Reachability.NewProber (rc_Concurrency (cf_Reachability conf))
    (mkCounters (Some 0%Z) (Some 0%Z) (Some 0%Z) (Some 0%Z)).

Definition worker_interval (conf : Config) : Z := duration (cf_WorkerInterval conf) second_ns.
Definition reach_interval (conf : Config) : Z := duration (rc_Interval (cf_Reachability conf)) second_ns.

(** How [main] starts: a panic, a fatal log, or the goroutines with the metrics and
    the verifier ([None] when OIDC is disabled). *)
Section start.
Context {P : Prometheus}.

Inductive start_outcome :=
| StartPanic (err : string)
| StartFatal (err : string)
| Started (conf : Config) (m : Metrics) (registry : Registry) (verifier : option Verifier).

Definition main_start (process : Process) (registry : Registry) (newProvider : Discovery) : start_outcome :=
  let '(conf, err) := Load process in
  match err with
  | Some e => StartPanic e
  | None =>
      match NewMetrics (cf_ClusterName conf) registry with
      | Err e => StartPanic e
      | Ok (m, registry) =>
          let o := cf_OIDC conf in
          if oc_Enabled o then
            match NewVerifier newProvider (oc_IssuerURL o) (oc_Audience o) (oc_RequiredRoles o) with
            | Err e => StartFatal e
            | Ok verifier => Started conf m registry (Some verifier)
            end
          else Started conf m registry None
      end
  end.
End start.

(** The middleware [main] gives the routes. *)
Definition authMW (verifier : option Verifier) : MiddlewareFunc :=
  match verifier with
  | Some v => Middleware v
  | None => DisabledMiddleware
  end.

(** ** State *)

Inductive worker_pc :=
| WStart                        (* before [NewClient] *)
| WFatal                        (* [log.Fatal]: the process has exited *)
| WCollect
| WPublish (catalog : Catalog)  (* between [catalogPtr.Store] and [Publish] *)
| WWait
| WReturned.

Inductive reach_pc :=
| RDisabled
| RLoad
| RProbe (cat : Catalog)        (* between the load of the pointer and [store.Store] *)
| RJitter
| RWait (d : Z)
| RReturned
| RPanicked.                    (* [rand.Int63n] panicked: the process has exited *)

(** [main] itself. *)
Inductive main_pc :=
| MServing                      (* before the end of the context *)
| MClosing                      (* in [Shutdown], which waits for the requests in flight *)
| MShutDown                     (* after it *)
| MExited.                      (* returned: the process has exited, whatever the workers are at *)

(** The observations each histogram has made. *)
Record histograms := mkHistograms { h_scrapes : Z; h_probes : Z }.

Definition observe_scrape (h : histograms) : histograms := mkHistograms (h_scrapes h + 1) (h_probes h).
Definition observe_probe (h : histograms) : histograms := mkHistograms (h_scrapes h) (h_probes h + 1).

Record Sys := mkSys {
  y_catalog : option Catalog;
  y_store : StoreT;
  y_gauges : gauge_values;
  y_scrapeErrors : Z;
  y_rejections : Z;
  y_verifier : option Verifier;
  y_done : bool;
  y_worker : worker_pc;
  y_mem : memory;
  y_reach : reach_pc;
  y_prober : Reachability.Prober;
  y_hist : histograms;
  y_main : main_pc;
  y_inflight : list (nat * request);
}.

Definition init (conf : Config) (verifier : option Verifier) : Sys :=
  mkSys None NewStore zero_gauges 0 0 verifier false WStart (mkMemory (worker_prober conf) overlay_caches)
    (if rc_Enabled (cf_Reachability conf) then RLoad else RDisabled) (reach_prober conf)
    (mkHistograms 0 0) MServing [].

(** The process is there: nothing has exited it. *)
Definition alive (st : Sys) : bool :=
  match y_worker st, y_reach st, y_main st with
  | WFatal, _, _ | _, RPanicked, _ | _, _, MExited => false
  | _, _, _ => true
  end.

Definition set_worker (st : Sys) (w : worker_pc) : Sys :=
  mkSys (y_catalog st) (y_store st) (y_gauges st) (y_scrapeErrors st) (y_rejections st) (y_verifier st)
    (y_done st) w (y_mem st) (y_reach st) (y_prober st) (y_hist st) (y_main st) (y_inflight st).

Definition set_reach (st : Sys) (r : reach_pc) : Sys :=
  mkSys (y_catalog st) (y_store st) (y_gauges st) (y_scrapeErrors st) (y_rejections st) (y_verifier st)
    (y_done st) (y_worker st) (y_mem st) r (y_prober st) (y_hist st) (y_main st) (y_inflight st).

(** ** Events *)

(** What a collection cycle meets outside: its number (the round of its telemetry
    queries), the API servers' listings and the schedule of the scan, Go's
    unspecified orders, the probes and the clock. *)
Record cycle_input := mkCycleInput {
  ci_round : nat;
  ci_clientset : ClientSet;
  ci_dynamic : option DynamicClient;
  ci_scan : list string → list string;
  ci_scan_rts : ScanRuntimes;
  ci_rts : nat → GoRuntime;
  ci_rt : GoRuntime;
  ci_webs : nat → WebEnv;
  ci_sched : list (nat * job) → list (nat * job);
  ci_started : Z;
  ci_published : Z;
  ci_finished : Z;
}.

(** What [NewClient] meets: the configurations and client-go's constructors. *)
Record client_input := mkClientInput {
  ni_inCluster : result RestConfig;
  ni_deferred : result RestConfig;
  ni_newForConfig : RestConfig → result ClientSet;
  ni_newDynamic : RestConfig → result DynamicClient;
}.

Record probe_input := mkProbeInput {
  pi_rts : nat → GoRuntime;
  pi_rt : GoRuntime;
  pi_envs : nat → ProbeEnv;
  pi_sched : list (nat * target) → list (nat * target);
}.

Inductive event :=
| EvNewClient (i : client_input)
| EvCollect (i : cycle_input)
| EvPublish
| EvWorkerTimer
| EvWorkerDone
| EvLoad
| EvProbe (i : probe_input)
| EvJitter (draw : Z)
| EvReachTimer
| EvReachDone
| EvAccept (r : nat) (c : request)
| EvRequest (rt : GoRuntime) (k : nat)
| EvRefresh (newProvider : Discovery)
| EvCancel
| EvClose
| EvShutdown
| EvExit.

Section service.
Context {GU : GoUnicode} {U : Unstructured}.
Variables (conf : Config) (coll : Collector).

(** ** The collecting worker *)

Definition scan (i : cycle_input) : result K8sSnapshot :=
  ListResources (ci_scan_rts i)
    (NewClientFromInterfaces (ci_clientset i) (ci_dynamic i) (worker_options conf)) (ci_scan i).

Definition cycle_env (i : cycle_input) : CycleEnv :=
  mkCycleEnv (ci_round i) (scan i) (ci_webs i) (ci_sched i) (ci_started i) (ci_published i) (ci_finished i).

Definition worker_begin (i : client_input) (st : Sys) : option Sys :=
  match y_worker st with
  | WStart =>
      Some (set_worker st
        (match Kubernetes.NewClient (ni_inCluster i) (ni_deferred i) (ni_newForConfig i) (ni_newDynamic i)
                 (worker_options conf) with
         | Err _ => WFatal
         | Ok _ => WCollect
         end))
  | _ => None
  end.

(** The cycle up to [catalogPtr.Store], or to the count of its error. *)
Definition worker_collect (i : cycle_input) (st : Sys) : option Sys :=
  match y_worker st with
  | WCollect =>
      let '(catalog, mem) := Collect (ci_rts i) (ci_rt i) coll (cycle_env i) (y_mem st) in
      match catalog with
      | Err _ =>
          Some (mkSys (y_catalog st) (y_store st) (y_gauges st) (y_scrapeErrors st + 1) (y_rejections st)
                  (y_verifier st) (y_done st) WWait mem (y_reach st) (y_prober st)
                  (observe_scrape (y_hist st)) (y_main st) (y_inflight st))
      | Ok catalog =>
          Some (mkSys (Some catalog) (y_store st) (y_gauges st) (y_scrapeErrors st) (y_rejections st)
                  (y_verifier st) (y_done st) (WPublish catalog) mem (y_reach st)
                  (y_prober st) (observe_scrape (y_hist st)) (y_main st) (y_inflight st))
      end
  | _ => None
  end.

Definition worker_publish (st : Sys) : option Sys :=
  match y_worker st with
  | WPublish catalog =>
      Some (mkSys (y_catalog st) (y_store st) (publish_stats (cat_Stats catalog)) (y_scrapeErrors st)
              (y_rejections st) (y_verifier st) (y_done st) WWait (y_mem st) (y_reach st) (y_prober st)
              (y_hist st) (y_main st) (y_inflight st))
  | _ => None
  end.

(** [select]: the timer, or the end of the context. *)
Definition worker_timer (st : Sys) : option Sys :=
  match y_worker st with WWait => Some (set_worker st WCollect) | _ => None end.

Definition worker_done (st : Sys) : option Sys :=
  match y_worker st, y_done st with WWait, true => Some (set_worker st WReturned) | _, _ => None end.

(** ** The reachability worker *)

Definition reach_load (st : Sys) : option Sys :=
  match y_reach st with
  | RLoad => Some (set_reach st (match y_catalog st with Some cat => RProbe cat | None => RJitter end))
  | _ => None
  end.

Definition reach_probe (i : probe_input) (st : Sys) : option Sys :=
  match y_reach st with
  | RProbe cat =>
      let results := Reachability.Probe (pi_rts i) (pi_rt i) (pi_envs i) (pi_sched i) (Some cat) in
      Some (mkSys (y_catalog st) (Store (y_store st) (Some results)) (y_gauges st) (y_scrapeErrors st)
              (y_rejections st) (y_verifier st) (y_done st) (y_worker st) (y_mem st) RJitter
              (recordMetrics (rt := pi_rt i) (y_prober st) results) (observe_probe (y_hist st)) (y_main st) (y_inflight st))
  | _ => None
  end.

Definition reach_jitter (draw : Z) (st : Sys) : option Sys :=
  match y_reach st with
  | RJitter =>
      Some (set_reach st (match pause (reach_interval conf) draw with
                          | None => RPanicked
                          | Some d => RWait d
                          end))
  | _ => None
  end.

Definition reach_timer (st : Sys) : option Sys :=
  match y_reach st with RWait _ => Some (set_reach st RLoad) | _ => None end.

Definition reach_done (st : Sys) : option Sys :=
  match y_reach st, y_done st with RWait _, true => Some (set_reach st RReturned) | _, _ => None end.

(** ** Requests, the refresh and the context *)

Definition handler_of (st : Sys) : CatalogHandler :=
  mkCatalogHandler (y_catalog st) (Some (y_store st)) (cf_ClusterName conf).

Definition routes (rt : GoRuntime) (st : Sys) : list route :=
  Configure (handler_of st) (Some (authMW (y_verifier st))).

(** The answer to a request at a route, and the rejection counter after it. *)
Definition answer (st : Sys) (r : route) (c : request) : response * Z :=
  let '(resp, n) := serve r (Some (y_rejections st)) c in (resp, default (y_rejections st) n).

(** A request arrives at the [r]-th route while the server listens. *)
Definition accept (r : nat) (c : request) (st : Sys) : option Sys :=
  match y_main st with
  | MServing =>
      Some (mkSys (y_catalog st) (y_store st) (y_gauges st) (y_scrapeErrors st) (y_rejections st)
              (y_verifier st) (y_done st) (y_worker st) (y_mem st) (y_reach st) (y_prober st)
              (y_hist st) (y_main st) (y_inflight st ++ [(r, c)]))
  | _ => None
  end.

(** The [k]-th request in flight is answered; one of no route, by the router. *)
Definition request_step (rt : GoRuntime) (k : nat) (st : Sys) : option Sys :=
  match y_inflight st !! k with
  | Some (r, c) =>
      let rejections := match routes rt st !! r with
                        | Some r => (answer st r c).2
                        | None => y_rejections st
                        end in
      Some (mkSys (y_catalog st) (y_store st) (y_gauges st) (y_scrapeErrors st) rejections
              (y_verifier st) (y_done st) (y_worker st) (y_mem st) (y_reach st) (y_prober st)
              (y_hist st) (y_main st) (delete k (y_inflight st)))
  | None => None
  end.

Definition refresh_step (newProvider : Discovery) (st : Sys) : option Sys :=
  match y_verifier st with
  | None => None
  | Some v =>
      Some (mkSys (y_catalog st) (y_store st) (y_gauges st) (y_scrapeErrors st) (y_rejections st)
              (Some (run_tick v newProvider)) (y_done st) (y_worker st) (y_mem st) (y_reach st)
              (y_prober st) (y_hist st) (y_main st) (y_inflight st))
  end.

Definition cancel (st : Sys) : Sys :=
  mkSys (y_catalog st) (y_store st) (y_gauges st) (y_scrapeErrors st) (y_rejections st) (y_verifier st)
    true (y_worker st) (y_mem st) (y_reach st) (y_prober st) (y_hist st) (y_main st) (y_inflight st).

(** ** The end of [main] *)

Definition set_main (st : Sys) (m : main_pc) : Sys :=
  mkSys (y_catalog st) (y_store st) (y_gauges st) (y_scrapeErrors st) (y_rejections st) (y_verifier st)
    (y_done st) (y_worker st) (y_mem st) (y_reach st) (y_prober st) (y_hist st) m (y_inflight st).

(** [Shutdown], once the context is done: it closes the listeners at once and
    returns when no request is in flight. *)
Definition main_close (st : Sys) : option Sys :=
  match y_main st, y_done st with MServing, true => Some (set_main st MClosing) | _, _ => None end.

Definition main_shutdown (st : Sys) : option Sys :=
  match y_main st, y_inflight st with MClosing, [] => Some (set_main st MShutDown) | _, _ => None end.

Definition main_return (st : Sys) : option Sys :=
  match y_main st with MShutDown => Some (set_main st MExited) | _ => None end.

(** One event; [None] when it cannot happen. *)
Definition exec (st : Sys) (ev : event) : option Sys :=
  if alive st then
    match ev with
    | EvNewClient i => worker_begin i st
    | EvCollect i => worker_collect i st
    | EvPublish => worker_publish st
    | EvWorkerTimer => worker_timer st
    | EvWorkerDone => worker_done st
    | EvLoad => reach_load st
    | EvProbe i => reach_probe i st
    | EvJitter draw => reach_jitter draw st
    | EvReachTimer => reach_timer st
    | EvReachDone => reach_done st
    | EvAccept r c => accept r c st
    | EvRequest rt k => request_step rt k st
    | EvRefresh newProvider => refresh_step newProvider st
    | EvCancel => Some (cancel st)
    | EvClose => main_close st
    | EvShutdown => main_shutdown st
    | EvExit => main_return st
    end
  else None.

Fixpoint exec_all (st : Sys) (evs : list event) : option Sys :=
  match evs with
  | [] => Some st
  | ev :: evs => match exec st ev with Some st => exec_all st evs | None => None end
  end.

(** ** Steps and reachable states *)

(** The API server lists by namespace, and the error groups run every scan and
    every probe. *)
Definition cycle_ok (i : cycle_input) : Prop :=
  api_scoped (ci_clientset i) ∧ (∀ l, ci_scan i l ≡ₚ l) ∧ (∀ l, ci_sched i l ≡ₚ l).

Definition probe_ok (i : probe_input) : Prop := ∀ l, pi_sched i l ≡ₚ l.

Definition outside_ok (ev : event) : Prop :=
  match ev with
  | EvCollect i => cycle_ok i
  | EvProbe i => probe_ok i
  | _ => True
  end.

Definition step (st st' : Sys) : Prop := ∃ ev, outside_ok ev ∧ exec st ev = Some st'.

Definition reachable (verifier : option Verifier) (st : Sys) : Prop := rtc step (init conf verifier) st.

(** A catalog a cycle of this configuration gives. *)
Definition collected (cat : Catalog) : Prop :=
  ∃ i mem, cycle_ok i ∧
    (Collect (ci_rts i) (ci_rt i) coll (cycle_env i) mem).1 = Ok cat.

(** What the gauges show of a catalog pointer. *)
Definition gauges_of (cat : option Catalog) : gauge_values :=
  match cat with None => zero_gauges | Some cat => publish_stats (cat_Stats cat) end.

(** The verdicts of one whole probe of one collected catalog. *)
Definition probed (m : gmap string ReachabilityResult) : Prop :=
  ∃ cat i, collected cat ∧ probe_ok i ∧
    m = Reachability.Probe (pi_rts i) (pi_rt i) (pi_envs i) (pi_sched i) (Some cat).

End service.

(** Splits [exec conf coll st ev = Some st'] into the event's cases. *)
Ltac exec_cases H :=
  unfold exec in H; cbv beta iota in H;
  match type of H with context [alive ?st] => destruct (alive st) end; [|discriminate H];
  try match type of H with context [match ?ev with _ => _ end] => destruct ev end;
  unfold worker_begin, worker_collect, worker_publish, worker_timer, worker_done, reach_load, reach_probe,
    reach_jitter, reach_timer, reach_done, accept, request_step, refresh_step, cancel, main_close, main_shutdown,
    main_return in H;
  repeat match type of H with
  | context [match ?x with _ => _ end] => let E := fresh "E" in destruct x eqn:E; try discriminate H
  end; simplify_eq.

Section invariant.
Context {GU : GoUnicode} {U : Unstructured}.
Variables (conf : Config) (coll : Collector).
Abbreviation exec := (exec conf coll).
Abbreviation collected := (collected conf coll).
Abbreviation probed := (probed conf coll).
Abbreviation reachable := (reachable conf coll).

Record sys_inv (st : Sys) : Prop := {
  inv_catalog cat : y_catalog st = Some cat → collected cat;
  inv_store : ∃ m, snapshot (y_store st) = Some m ∧ (m = ∅ ∨ probed m);
  inv_probe cat : y_reach st = RProbe cat → collected cat;
  inv_gauges : match y_worker st with
    | WPublish cat => y_catalog st = Some cat
    | _ => y_gauges st = gauges_of (y_catalog st)
    end;
  inv_empty : y_catalog st = None → snapshot (y_store st) = Some ∅ ∧ ∀ cat, y_reach st ≠ RProbe cat;
}.

Lemma sys_inv_init verifier : sys_inv (init conf verifier).
Proof.
  split; simpl; try done.
  - exists ∅. auto.
  - intros cat. by destruct (rc_Enabled _).
  - intros _. split; [done|]. intros cat. by destruct (rc_Enabled _).
Qed.

Lemma sys_inv_step st ev st' : outside_ok ev → exec st ev = Some st' → sys_inv st → sys_inv st'.
Proof.
  intros Hok He [Hc Hs Hp Hg Hn]. exec_cases He; split; simpl; intros; simplify_eq; try done.
  all: rewrite ?E in Hg; try congruence; try exact Hg; eauto.
  all: try (by rewrite E0); try (by destruct (Hn eq_refl) as [? _]; split).
  all: try (by destruct (Hn ltac:(eassumption)) as [? _]; split; [|congruence]).
  - destruct Hok. exists i, (y_mem st). by rewrite E0.
  - by rewrite Hg.
  - eexists. split; [done|]. right. exists cat, i. auto.
  - destruct (Hn ltac:(assumption)) as [_ Hr]. by destruct (Hr cat).
Qed.

Lemma reachable_inv verifier st : reachable verifier st → sys_inv st.
Proof.
  unfold reachable. revert st. apply rtc_ind_r; [apply sys_inv_init|].
  intros st st' _ (ev & Hok & He) IH. by eapply sys_inv_step.
Qed.

(** *** The verifier *)

Lemma step_verifier st ev st' :
  exec st ev = Some st' →
  y_verifier st' = y_verifier st ∨ ∃ v d, y_verifier st = Some v ∧ y_verifier st' = Some (run_tick v d).
Proof. intros He. exec_cases He; simpl; eauto 6. Qed.

(** The verifier in force is the first one after some refreshes. *)
Lemma reachable_verifier verifier st :
  reachable verifier st →
  match verifier with
  | None => y_verifier st = None
  | Some v => ∃ ticks, y_verifier st = Some (Run v ticks)
  end.
Proof.
  unfold reachable. revert st. apply rtc_ind_r.
  - destruct verifier as [v|]; [by exists []|done].
  - intros st st' _ (ev & _ & He%step_verifier) IH. destruct verifier as [v|].
    + destruct IH as [ticks IH]. destruct He as [->|(v' & d & E & ->)]; [by exists ticks|].
      rewrite IH in E. injection E as <-. exists (ticks ++ [d]). unfold Run. by rewrite foldl_app.
    + destruct He as [->|(v' & d & E & _)]; [done|congruence].
Qed.
End invariant.

(** ** Collected catalogs *)

(** The namespaces the configuration lets the scan read. *)
Definition allowed (conf : Config) (ns : string) : Prop :=
  let k := cf_Kubernetes conf in
  let named l := ns ≠ EmptyString ∧ ∃ n, n ∈ l ∧ TrimSpace n = ns in
  if hasEntries (kc_NamespaceInclude k) then named (kc_NamespaceInclude k)
  else ¬ named (kc_NamespaceExclude k).

Lemma hasEntries_exists l : hasEntries l = bool_decide (Exists (λ n, TrimSpace n ≠ EmptyString) l).
Proof.
  apply Bool.eq_iff_eq_true. unfold hasEntries. rewrite bool_decide_eq_true, existsb_elem_of, Exists_exists.
  apply exist_proper. intros x. by destruct (String.eqb_spec (TrimSpace x) EmptyString); split; intros [? ?].
Qed.

Lemma shouldScanNamespace_allowed conf cs dyn ns :
  shouldScanNamespace (NewClientFromInterfaces cs dyn (worker_options conf)) ns = true ↔ allowed conf ns.
Proof.
  rewrite shouldScanNamespace_spec. unfold allowed. cbn [worker_options opt_NamespaceInclude opt_NamespaceExclude].
  by rewrite hasEntries_exists.
Qed.

(** An internal end of an edge is of a namespace the configuration allows. *)
Definition node_allowed (conf : Config) (n : DependencyNode) : Prop :=
  node_External n = true ∨ allowed conf (node_Namespace n).

Definition edge_allowed (conf : Config) (e : DependencyEdge) : Prop :=
  node_allowed conf (edge_Source e) ∧ node_allowed conf (edge_Target e).

Lemma node_ok_allowed conf cluster apps n :
  Forall (λ a, allowed conf (app_Namespace a)) apps → node_ok cluster apps n → node_allowed conf n.
Proof.
  intros Ha. unfold node_ok, node_allowed. destruct (node_External n); [by left|].
  intros (_ & app & Hin & <- & _). right. by eapply Forall_forall in Ha.
Qed.

Lemma overlay_edges_allowed {GU : GoUnicode} {rt : GoRuntime} conf overlayer round caches apps :
  Forall (λ a, allowed conf (app_Namespace a)) apps → Forall named_app apps →
  Forall (edge_allowed conf) (overlay_pass overlayer round caches apps).1.1.
Proof.
  intros Ha Hn. destruct overlayer as [o|]; [|constructor]. simpl.
  destruct (overlay_run_edges o round caches apps Hn) as (_ & _ & H).
  eapply Forall_impl; [exact H|]. intros e (Hs & Ht & _). split; by eapply node_ok_allowed.
Qed.

(** What a catalog names, and what its statistics say. *)
Record coherent (conf : Config) (coll : Collector) (cat : Catalog) : Prop := {
  co_cluster : cat_Cluster cat = col_cluster coll;
  co_apps : Forall (λ a, allowed conf (app_Namespace a)) (cat_Applications cat);
  co_namespaces : Forall (λ n, allowed conf (nse_Name n)) (cat_Namespaces cat);
  co_edges : Forall named_app (cat_Applications cat) → Forall (edge_allowed conf) (cat_Dependencies cat);
  co_stats : ∃ duration, cat_Stats cat = computeStats cat duration;
}.

Lemma declared_namespaces (P : string → Prop) (l l' : list ApplicationEntry) :
  declared_part <$> l = declared_part <$> l' →
  Forall (λ a, P (app_Namespace a)) l' → Forall (λ a, P (app_Namespace a)) l.
Proof.
  intros Hd H. apply (f_equal (fmap app_Namespace)) in Hd. rewrite <- !list_fmap_compose in Hd.
  change (Forall (P ∘ app_Namespace) l). rewrite <- Forall_fmap.
  erewrite (Hd : app_Namespace <$> l = _). by rewrite Forall_fmap.
Qed.

Lemma collected_coherent {GU : GoUnicode} {U : Unstructured} conf coll cat :
  collected conf coll cat → coherent conf coll cat.
Proof.
  intros (i & mem & (Ha & Hs & _) & HC). destruct (scan conf i) as [s|e] eqn:E.
  2:{ exfalso. revert HC. unfold Collect. cbn [cycle_env ce_snapshot]. by rewrite E. }
  destruct (Collect_Ok (ci_rts i) (ci_rt i) coll (cycle_env conf i) mem s E) as [HC' Hd].
  rewrite HC' in HC. cbn [fst] in HC. injection HC as <-. clear HC'.
  assert (in_scope (allowed conf) s) as Hsc.
  { apply ListResources_in_scope in E; [|done..].
    destruct E. split; eapply Forall_impl; try done; intros x; simpl; apply shouldScanNamespace_allowed. }
  set (built := buildApplications _ _ _ _ _ _) in *.
  assert (Forall (λ a, allowed conf (app_Namespace a)) built) as Hb by (by apply buildApplications_namespaces).
  pose proof (erase_declared _ _ (probe_pass_erase (rt := ci_rt i) (mem_prober mem) (cycle_env conf i) built)) as Hp.
  set (probed := (probe_pass (rt := ci_rt i) (mem_prober mem) (cycle_env conf i) built).1) in *.
  split; cbn [with_stats cat_Cluster cat_Applications cat_Namespaces cat_Dependencies cat_Stats];
    [done|by eapply declared_namespaces| | |by eexists].
  - unfold buildNamespaces. rewrite sort_slice_perm, Forall_fmap. apply Hsc.
  - intros Hn. apply Forall_app. split.
    + apply (overlay_edges_allowed (rt := ci_rt i)); [by eapply declared_namespaces|].
      eapply overlaid_named; [apply (overlay_pass_overlaid (rt := ci_rt i))|exact Hn].
    + eapply Forall_impl; [apply (netpol_edges_from (rt := ci_rt i))|]. intros e (Ht & np & Hnp & En). split; [|by left].
      right. rewrite En. pose proof (is_NetPolicies _ _ Hsc) as H. by eapply Forall_forall in H.
Qed.

Definition stats_of (cat : Catalog) (duration : Z) : CatalogStats :=
  mkCatalogStats (Z.of_nat (length (cat_Applications cat)))
    (count (λ a, nonempty (app_CapabilityID a)) (cat_Applications cat))
    (count Collector.applicationHasDocs (cat_Applications cat))
    (count has_source (cat_Applications cat))
    (Z.of_nat (length (cat_Dependencies cat))) (Z.quot duration (10 ^ 6)).

Lemma computeStats_counts cat duration : computeStats cat duration = stats_of cat duration.
Proof. unfold computeStats. by rewrite stats_fold. Qed.

(** ** Runs *)

Section runs.
Context {GU : GoUnicode} {U : Unstructured}.
Variables (conf : Config) (coll : Collector).

Lemma exec_all_steps evs st st' :
  Forall outside_ok evs → exec_all conf coll st evs = Some st' → rtc (step conf coll) st st'.
Proof.
  revert st. induction evs as [|ev evs IH]; intros st.
  { intros _ [= ->]. done. }
  intros [Hok Hoks]%Forall_cons. simpl. destruct (exec conf coll st ev) as [st1|] eqn:E; [|done].
  intros H. eapply rtc_l; [by exists ev|]. by apply IH.
Qed.

Lemma exec_all_app st evs1 evs2 :
  exec_all conf coll st (evs1 ++ evs2) =
  match exec_all conf coll st evs1 with Some st' => exec_all conf coll st' evs2 | None => None end.
Proof.
  revert st. induction evs1 as [|ev evs1 IH]; intros st; [done|]. simpl.
  destruct (exec conf coll st ev); [apply IH|done].
Qed.

(** What the cycles of a run gave, in order. *)
Definition cycle_outcome (st : Sys) (ev : event) : list (result Catalog) :=
  match ev with
  | EvCollect i => [(Collect (ci_rts i) (ci_rt i) coll (cycle_env conf i) (y_mem st)).1]
  | _ => []
  end.

(** What the requests of a run were answered. *)
Definition request_answer (st : Sys) (ev : event) : list response :=
  match ev with
  | EvRequest rt k =>
      match y_inflight st !! k with
      | Some (r, c) => option_list ((λ r, (answer st r c).1) <$> (routes conf rt st !! r))
      | None => []
      end
  | _ => []
  end.

(** The probes of a run. *)
Definition probe_run (st : Sys) (ev : event) : list probe_input :=
  match ev with EvProbe i => [i] | _ => [] end.

Fixpoint trace {A} (obs : Sys → event → list A) (st : Sys) (evs : list event) : list A :=
  match evs with
  | [] => []
  | ev :: evs =>
      match exec conf coll st ev with
      | None => []
      | Some st' => obs st ev ++ trace obs st' evs
      end
  end.

Lemma trace_snoc {A} (obs : Sys → event → list A) st evs ev st1 st2 :
  exec_all conf coll st evs = Some st1 → exec conf coll st1 ev = Some st2 →
  trace obs st (evs ++ [ev]) = trace obs st evs ++ obs st1 ev.
Proof.
  revert st. induction evs as [|e evs IH]; intros st; simpl.
  - intros [= ->] ->. by rewrite app_nil_r.
  - destruct (exec conf coll st e) as [st'|]; [|done]. intros H1 H2. by rewrite (IH st'), app_assoc.
Qed.

Lemma exec_all_snoc st evs ev st2 :
  exec_all conf coll st (evs ++ [ev]) = Some st2 →
  ∃ st1, exec_all conf coll st evs = Some st1 ∧ exec conf coll st1 ev = Some st2.
Proof.
  rewrite exec_all_app. destruct (exec_all conf coll st evs) as [st1|]; [|done]. simpl.
  intros H. exists st1. by destruct (exec conf coll st1 ev).
Qed.

Definition keep_ok (acc : option Catalog) (r : result Catalog) : option Catalog :=
  match r with Ok cat => Some cat | Err _ => acc end.

(** The catalog of the last cycle that succeeded. *)
Definition last_ok (outcomes : list (result Catalog)) : option Catalog := foldl keep_ok None outcomes.

Definition failed (r : result Catalog) : bool := match r with Err _ => true | Ok _ => false end.

Definition is_unauthorized (r : response) : bool := (rs_status r =? 401)%Z.

Lemma handler_status {rt : GoRuntime} h mw r c : r ∈ Configure h mw → rs_status (rt_handler r c) ≠ 401%Z.
Proof.
  unfold Configure. intros Hr.
  repeat (apply elem_of_cons in Hr as [->|Hr]); [..|by apply elem_of_nil in Hr]; cbn [rt_handler]; try done.
  all: unfold Readyz, GetApplication, Api.GetNamespace, GetApplicationDependencies; by repeat case_match.
Qed.

Lemma answer_counts {rt : GoRuntime} st r c :
  r ∈ routes conf rt st →
  (answer st r c).2 = (y_rejections st + count is_unauthorized [(answer st r c).1])%Z.
Proof.
  intros Hr. pose proof (handler_status _ _ _ c Hr) as Hh.
  assert (rt_mw r = None ∨ rt_mw r = Some (authMW (y_verifier st))) as Hm.
  { revert Hr. unfold routes, Configure. rewrite !elem_of_cons, elem_of_nil. naive_solver. }
  assert (count is_unauthorized [rt_handler r c] = 0%Z) as H0.
  { unfold count. rewrite filter_cons_False; [done|]. unfold is_unauthorized. by rewrite Z.eqb_eq. }
  unfold answer, serve. destruct Hm as [-> | ->]; [simpl; rewrite H0; lia|].
  unfold authMW. destruct (y_verifier st) as [v|].
  - pose proof (Middleware_spec v (Some (y_rejections st)) (Authorization c)) as Hs.
    destruct (Middleware v _ _) as [[|reason] n]; destruct Hs as [_ ->]; simpl; [rewrite H0; lia|done].
  - simpl. rewrite H0. lia.
Qed.
Lemma exec_history st ev st' :
  exec conf coll st ev = Some st' →
  y_catalog st' = foldl keep_ok (y_catalog st) (cycle_outcome st ev) ∧
  y_scrapeErrors st' = (y_scrapeErrors st + count failed (cycle_outcome st ev))%Z ∧
  y_rejections st' = (y_rejections st + count is_unauthorized (request_answer st ev))%Z ∧
  h_scrapes (y_hist st') = (h_scrapes (y_hist st) + Z.of_nat (length (cycle_outcome st ev)))%Z ∧
  h_probes (y_hist st') = (h_probes (y_hist st) + Z.of_nat (length (probe_run st ev)))%Z.
Proof.
  assert (∀ {A} (p : A → bool), count p [] = 0%Z) as Hnil by done.
  intros He. exec_cases He; simpl; rewrite ?E0, ?E, ?E1, ?Hnil, ?Z.add_0_r; simpl; rewrite ?Z.add_0_r; try done.
  split_and!; [done..| |done|done]. apply (answer_counts (rt := rt)). by eapply list_elem_of_lookup_2.
Qed.

Lemma last_ok_some l : is_Some (last_ok l) ↔ Exists (λ r, failed r = false) l.
Proof.
  induction l as [|r l IH] using rev_ind; [split; [by intros []|by intros []%Exists_nil]|].
  unfold last_ok in *. rewrite foldl_app, Exists_app, Exists_cons, Exists_nil, <- IH. simpl.
  destruct r; simpl; [split; [by right; left|by eexists]|naive_solver].
Qed.
End runs.

(** ** Theorems *)

(** C4: the state of the service, however its goroutines interleave.  The catalog
    served is, whole, the result of one collection cycle; the store holds the
    verdicts of one whole probe of one such catalog, or nothing, and nothing
    before the first catalog; outside the instant between the swap and [Publish]
    the gauges show the statistics of the catalog served; and the reachability
    worker only ever works on such a catalog. *)
Theorem service_invariant (GU : GoUnicode) (U : Unstructured) (conf : Config) (coll : Collector)
    (verifier : option Verifier) (st : Sys) :
  reachable conf coll verifier st →
  (∀ cat, y_catalog st = Some cat → collected conf coll cat) ∧
  (∃ m, snapshot (y_store st) = Some m ∧ (m = ∅ ∨ probed conf coll m)) ∧
  (y_catalog st = None → snapshot (y_store st) = Some ∅) ∧
  ((∀ cat, y_worker st ≠ WPublish cat) → y_gauges st = gauges_of (y_catalog st)) ∧
  (∀ cat, y_worker st = WPublish cat → y_catalog st = Some cat) ∧
  (∀ cat, y_reach st = RProbe cat → collected conf coll cat).
Proof.
  intros [Hc Hs Hp Hg Hn]%reachable_inv. split_and!; [done|done|by intros [? _]%Hn| | |done].
  - intros Hw. destruct (y_worker st); try done. by destruct (Hw catalog).
  - intros cat E. by rewrite E in Hg.
Qed.

(** C12: the history of a run decides its state.  The catalog is that of the last
    cycle that succeeded, so a failed cycle loses nothing; each failed cycle is
    counted once, and so is each request answered 401 and no other; the histograms
    hold one observation a cycle, failed or not, and one a probe; and the service
    is ready exactly from the first successful cycle on, and for good. *)
Theorem run_history (GU : GoUnicode) (U : Unstructured) (conf : Config) (coll : Collector)
    (verifier : option Verifier) (evs : list event) (st : Sys) (c : request) :
  exec_all conf coll (init conf verifier) evs = Some st →
  let outcomes := trace conf coll (cycle_outcome conf coll) (init conf verifier) evs in
  let answers := trace conf coll (request_answer conf) (init conf verifier) evs in
  y_catalog st = last_ok outcomes ∧
  y_scrapeErrors st = count failed outcomes ∧
  y_rejections st = count is_unauthorized answers ∧
  h_scrapes (y_hist st) = Z.of_nat (length outcomes) ∧
  h_probes (y_hist st) = Z.of_nat (length (trace conf coll probe_run (init conf verifier) evs)) ∧
  rs_status (Readyz (y_catalog st) c) =
    (if bool_decide (Exists (λ r, failed r = false) outcomes) then 200 else 503)%Z.
Proof.
  cbn zeta. intros He. set (st0 := init conf verifier) in *.
  enough (y_catalog st = last_ok (trace conf coll (cycle_outcome conf coll) st0 evs) ∧
    y_scrapeErrors st = count failed (trace conf coll (cycle_outcome conf coll) st0 evs) ∧
    y_rejections st = count is_unauthorized (trace conf coll (request_answer conf) st0 evs) ∧
    h_scrapes (y_hist st) = Z.of_nat (length (trace conf coll (cycle_outcome conf coll) st0 evs)) ∧
    h_probes (y_hist st) = Z.of_nat (length (trace conf coll probe_run st0 evs)))
    as (H1 & H2 & H3 & H4 & H5).
  { split_and!; [done..|]. rewrite H1. clear. generalize (trace conf coll (cycle_outcome conf coll) st0 evs).
    intros l. pose proof (last_ok_some l) as Hi. case_bool_decide as E; destruct (last_ok l) as [cat|]; try done.
    - apply Hi in E. by destruct E.
    - destruct E. apply Hi. by eexists. }
  revert st He. induction evs as [|ev evs IH] using rev_ind; intros st; [by intros [= <-]|].
  intros (st1 & H1 & H2)%exec_all_snoc. destruct (IH _ H1) as (I1 & I2 & I3 & I4 & I5).
  rewrite !(trace_snoc _ _ _ _ _ _ _ _ H1 H2), !count_app, !length_app, !Nat2Z.inj_add, <- I2, <- I3, <- I4, <- I5.
  destruct (exec_history _ _ _ _ _ H2) as (-> & -> & -> & -> & ->). unfold last_ok in *. by rewrite foldl_app, <- I1.
Qed.

(** *** What is served *)

Lemma selected_unowned {U : GoUnicode} app :
  selected (ask (Some ("capabilityId", EmptyString))) app ↔ app_CapabilityID app = EmptyString.
Proof. unfold selected, Query. simpl. split; [naive_solver|]. intros E. split_and!; naive_solver. Qed.

Lemma ListDependencies_all h :
  ListDependencies h (ask None) = respond (snapshot_of h) (DDependencies (cat_Dependencies (snapshot_of h))).
Proof.
  unfold ListDependencies. do 2 f_equal.
  rewrite (foldl_filter (λ _, True) _ id); [by rewrite list_fmap_id, filter_always|]. done.
Qed.

Lemma count_listed {U : GoUnicode} h c (p : ApplicationEntry → bool) :
  (∀ app, selected c app ↔ p app = true) →
  Z.of_nat (length (listed h c)) = count p (cat_Applications (snapshot_of h)).
Proof. intros H. unfold listed, count. rewrite length_fmap. by rewrite (list_filter_iff _ _ _ H). Qed.

Lemma coherent_stats conf coll h :
  (∀ cat, h_catalog h = Some cat → coherent conf coll cat) →
  ∃ duration, cat_Stats (snapshot_of h) = stats_of (snapshot_of h) duration.
Proof.
  unfold snapshot_of. destruct (h_catalog h) as [cat|]; [|by exists 0%Z].
  intros H. destruct (co_stats _ _ _ (H cat eq_refl)) as [d E]. exists d. by rewrite E, computeStats_counts.
Qed.

(** C13: the statistics tell the truth.  In every reachable state, before the first
    catalog too, the block [GetStats] serves counts what the other routes list: as
    many applications as an unfiltered list, with documents and with a deployment
    source as many as that list has, owned all but those an empty capability
    selects, as many dependencies as are listed; and outside the instant of
    [Publish] the gauges show these very numbers. *)
Theorem stats_agree (GU : GoUnicode) (U : Unstructured) (conf : Config) (coll : Collector)
    (verifier : option Verifier) (st : Sys) (c : request) :
  reachable conf coll verifier st →
  let h := handler_of conf st in
  let cat := snapshot_of h in
  let n q := Z.of_nat (length (listed h (ask q))) in
  ∃ stats deps, GetStats h c = respond cat (DStats stats) ∧
    ListDependencies h (ask None) = respond cat (DDependencies deps) ∧
    stats_TotalApplications stats = n None ∧
    stats_ApplicationsWithDocs stats = n (Some ("hasDocs", "true")) ∧
    (stats_CapabilityOwnedApplications stats + n (Some ("capabilityId", EmptyString)))%Z = n None ∧
    stats_ApplicationsWithDeploySource stats = count has_source (listed h (ask None)) ∧
    stats_TotalDependencies stats = Z.of_nat (length deps) ∧
    ((∀ cat, y_worker st ≠ WPublish cat) → y_gauges st = publish_stats stats).
Proof.
  intros [Hc _ _ Hg _]%reachable_inv. cbn zeta. set (h := handler_of conf st).
  destruct (coherent_stats conf coll h) as [d Hs].
  { intros cat E. by eapply collected_coherent, Hc. }
  exists (cat_Stats (snapshot_of h)), (cat_Dependencies (snapshot_of h)).
  split; [done|]. split; [apply ListDependencies_all|]. rewrite Hs at 1 2 3 4 5.
  assert (∀ app, selected (ask None) app ↔ true = true) as Hall by (intros; split; [done|intros; apply selected_none]).
  assert (Z.of_nat (length (listed h (ask None))) = Z.of_nat (length (cat_Applications (snapshot_of h)))) as Hn.
  { unfold listed. by rewrite length_fmap, filter_always by apply selected_none. }
  rewrite Hn. unfold stats_of. cbn [stats_TotalApplications stats_ApplicationsWithDocs
    stats_CapabilityOwnedApplications stats_ApplicationsWithDeploySource stats_TotalDependencies].
  split_and!; [done| | | |done|].
  - symmetry. apply (count_listed h _ Collector.applicationHasDocs). intros app. by rewrite selected_docs.
  - rewrite (count_listed h _ (λ a, negb (nonempty (app_CapabilityID a)))); [apply count_negb|].
    intros app. rewrite selected_unowned. unfold nonempty.
    by destruct (String.eqb_spec (app_CapabilityID app) EmptyString).
  - unfold listed. rewrite filter_always by apply selected_none. symmetry. apply count_fmap.
    intros a. by rewrite overlayApp_overlaid.
  - intros Hw. assert (y_gauges st = gauges_of (y_catalog st)) as ->.
    { destruct (y_worker st); try done. by destruct (Hw catalog). }
    unfold h, snapshot_of. simpl. by destruct (y_catalog st).
Qed.

(** C6: a service that starts with OIDC enabled is closed.  The configuration
    names an issuer, an audience and at least one role; in every reachable state
    there is a verifier for them with a token verifier in force; and on every
    route but the health checks a request is answered by its handler exactly when
    that verifier authorises it, and by a counted 401 without data otherwise. *)
Theorem main_auth (GU : GoUnicode) (U : Unstructured) (P : Prometheus) (rt : GoRuntime) (process : Process)
    (registry registry' : Registry) (m : Metrics) (newProvider : Discovery) (conf : Config) (coll : Collector) (verifier : option Verifier) (st : Sys)
    (r : route) (c : request) :
  main_start process registry newProvider = Started conf m registry' verifier → oc_Enabled (cf_OIDC conf) = true →
  reachable conf coll verifier st → r ∈ routes conf rt st → ¬ public (rt_path r) →
  ∃ v, y_verifier st = Some v ∧ is_Some (v_state v) ∧
    v_issuerURL v = oc_IssuerURL (cf_OIDC conf) ∧ v_issuerURL v ≠ EmptyString ∧
    v_audience v = oc_Audience (cf_OIDC conf) ∧ v_audience v ≠ EmptyString ∧ v_requiredRoles v ≠ [] ∧
    let '(resp, n) := answer st r c in
    (authorised v (Authorization c) ∧ resp = rt_handler r c ∧ n = y_rejections st ∨
     ¬ authorised v (Authorization c) ∧ rs_status resp = 401%Z ∧ ¬ holds_data resp ∧
       n = (y_rejections st + 1)%Z).
Proof.
  intros Hm Ho Hr Hin Hp. unfold main_start in Hm.
  destruct (Load process) as [conf' err] eqn:EL. destruct err as [e|]; [done|].
  assert (required conf' ∧ oc_RequiredRoles (cf_OIDC conf') ≠ []) as [Hreq Hroles] by (by eapply Load_Ok).
  destruct (NewMetrics _ _) as [[m' registry2]|e]; [|done].
  destruct (oc_Enabled (cf_OIDC conf')) eqn:Eo; [|injection Hm as -> _ _ _; congruence].
  pose proof (Run_keeps_verifier newProvider (oc_IssuerURL (cf_OIDC conf')) (oc_Audience (cf_OIDC conf'))
    (oc_RequiredRoles (cf_OIDC conf'))) as HR.
  destruct (NewVerifier _ _ _ _) as [v0|e]; [|done]. injection Hm as -> _ _ <-.
  destruct (reachable_verifier _ _ _ _ Hr) as [ticks Ev]. destruct (HR ticks) as (Hi & Ha & Hq & H).
  destruct H as (_ & _ & _ & prov & _ & _ & _ & Hs).
  destruct Hreq as (_ & _ & [Hi' Ha']%(λ H, H Eo) & _).
  exists (Run v0 ticks). rewrite Hi, Ha, Hq. split_and!; [done|by rewrite Hs|done..|].
  unfold routes in Hin. rewrite Ev in Hin. simpl in Hin.
  pose proof (Configure_auth _ _ _ _ _ (y_rejections st) c Hin) as HC. unfold answer.
  destruct (serve r (Some (y_rejections st)) c) as [resp n].
  destruct HC as [_ [HC|[HC|HC]]]; [by destruct HC as [? _]|left|right].
  - by destruct HC as (_ & ? & ? & ->).
  - by destruct HC as (_ & ? & ? & ? & ->).
Qed.

(** *** The pause between probes *)

Lemma wrap64_id z : (- 2 ^ 63 ≤ z < 2 ^ 63)%Z → wrap64 z = z.
Proof. unfold wrap64. intros H. rewrite Z.mod_small; lia. Qed.

Lemma duration_seconds n : (Z.abs n ≤ 9 * 10 ^ 9)%Z → duration n second_ns = (n * 10 ^ 9)%Z.
Proof. unfold duration, second_ns. intros H. apply wrap64_id. lia. Qed.

Lemma pause_positive interval draw :
  (0 < interval ≤ 8 * 10 ^ 18)%Z →
  ∃ d, pause interval draw = Some d ∧ (interval ≤ d ≤ interval + interval / 10)%Z.
Proof.
  intros H. unfold pause, jitter, Int63n. rewrite Z.quot_div_nonneg by lia.
  assert (0 ≤ interval / 10 ≤ 8 * 10 ^ 17)%Z as Hq.
  { split; [apply Z.div_pos; lia|]. apply Z.div_le_upper_bound; lia. }
  destruct (Z.leb_spec (interval / 10 + 1) 0); [lia|]. simpl.
  pose proof (Z.mod_pos_bound draw (interval / 10 + 1) ltac:(lia)).
  rewrite wrap64_id by lia. eexists. split; [done|]. lia.
Qed.

Lemma pause_None interval draw : pause interval draw = None ↔ (interval ≤ -10)%Z.
Proof.
  assert (Z.quot interval 10 + 1 ≤ 0 ↔ interval ≤ -10)%Z as H by (Z.to_euclidean_division_equations; lia).
  unfold pause, jitter, Int63n. destruct (Z.leb_spec (Z.quot interval 10 + 1) 0) as [Hl|Hl]; simpl.
  - split; [intros _; by apply H|done].
  - split; [done|]. intros Hi. apply H in Hi. lia.
Qed.

Section pauses.
Context {GU : GoUnicode} {U : Unstructured}.
Variables (conf : Config) (coll : Collector).

Lemma step_panics st ev st' :
  exec conf coll st ev = Some st' → y_reach st' = RPanicked → ∃ draw, pause (reach_interval conf) draw = None.
Proof.
  intros He Hp. assert (y_reach st ≠ RPanicked) as Hn.
  { intros E. revert He. unfold exec, alive. rewrite E. by destruct (y_worker st). }
  exec_cases He; simpl in *; try done. by exists draw.
Qed.

Lemma never_panics verifier st :
  (∀ draw, is_Some (pause (reach_interval conf) draw)) → reachable conf coll verifier st →
  y_reach st ≠ RPanicked.
Proof.
  intros Hd. unfold reachable. revert st. apply rtc_ind_r.
  - simpl. by destruct (rc_Enabled _).
  - intros st st' _ (ev & _ & He) _ Hp. destruct (step_panics _ _ _ He Hp) as [draw Hn].
    destruct (Hd draw) as [? ?]. congruence.
Qed.
End pauses.

(** C27: the reachability interval.  For any setting of 1 second to 253 years the
    worker pauses between the interval and 110% of it, without overflow.  For every
    setting, the jitter of a pause panics exactly when the interval, its nanoseconds
    wrapped to 64 bits, is at most -10, whatever the draw: then the first pause takes
    the whole process down when probing is enabled, and otherwise the service never
    panics there.  Every negative setting down to -9·10^9 seconds, which the
    configuration accepts, is of the first sort; a lower one may wrap to a positive
    interval. *)
Theorem reach_interval_spec (GU : GoUnicode) (U : Unstructured) (conf : Config) (coll : Collector)
    (verifier : option Verifier) :
  let n := rc_Interval (cf_Reachability conf) in
  let interval := reach_interval conf in
  ((0 < n ≤ 8 * 10 ^ 9)%Z →
     interval = (n * 10 ^ 9)%Z ∧
     (∀ draw, ∃ d, pause interval draw = Some d ∧ (interval ≤ d ≤ interval + interval / 10)%Z)) ∧
  (∀ draw, pause interval draw = None ↔ (interval ≤ -10)%Z) ∧
  ((-10 < interval)%Z → ∀ st, reachable conf coll verifier st → y_reach st ≠ RPanicked) ∧
  ((interval ≤ -10)%Z → rc_Enabled (cf_Reachability conf) = true →
     ∀ draw, ∃ st, exec_all conf coll (init conf verifier) [EvLoad; EvJitter draw] = Some st ∧
       y_reach st = RPanicked ∧ ∀ ev, exec conf coll st ev = None) ∧
  ((- 9 * 10 ^ 9 ≤ n < 0)%Z → interval = (n * 10 ^ 9)%Z ∧ (interval ≤ -10)%Z) ∧
  ((n = - 10 ^ 10)%Z → interval = 8446744073709551616%Z).
Proof.
  cbn zeta. split_and!.
  - intros Hn. split; [apply duration_seconds; lia|]. intros draw. apply pause_positive.
    unfold reach_interval. rewrite duration_seconds; lia.
  - intros draw. apply pause_None.
  - intros Hi st. apply never_panics. intros draw.
    destruct (pause (reach_interval conf) draw) eqn:E; [by eexists|]. apply pause_None in E. lia.
  - intros Hi He draw. eexists. split; [|split].
    + unfold init. rewrite He. cbn [exec_all exec alive y_worker y_reach y_main reach_load y_catalog set_reach reach_jitter].
      by rewrite (proj2 (pause_None _ _) Hi).
    + done.
    + done.
  - intros Hn. unfold reach_interval. rewrite duration_seconds; lia.
  - intros Hn. unfold reach_interval. rewrite Hn. reflexivity.
Qed.

(** *** Progress *)

Section progress.
Context {GU : GoUnicode} {U : Unstructured}.
Variables (conf : Config) (coll : Collector).

(** What the events of one worker leave to the others. *)
Definition same_reach (st st' : Sys) : Prop :=
  alive st' = true ∧ y_done st' = y_done st ∧ y_reach st' = y_reach st.

Lemma alive_iff st :
  alive st = true ↔ y_worker st ≠ WFatal ∧ y_reach st ≠ RPanicked ∧ y_main st ≠ MExited.
Proof. unfold alive. destruct (y_worker st), (y_reach st), (y_main st); naive_solver. Qed.

(** A state of another that keeps two parts of the process there. *)
Lemma alive_as st st' :
  alive st = true → y_main st' = y_main st → y_worker st' ≠ WFatal → y_reach st' ≠ RPanicked → alive st' = true.
Proof. rewrite !alive_iff. by intros (_ & _ & ?) ->. Qed.

(** The events of the collecting worker. *)
Definition worker_event (ev : event) : Prop :=
  match ev with
  | EvNewClient _ | EvCollect _ | EvPublish | EvWorkerTimer | EvWorkerDone => True
  | _ => False
  end.

(** A cluster whose client can be built. *)
Definition some_clientset : ClientSet :=
  mkClientSet (Ok []) (λ _, Ok []) (λ _, Ok []) (λ _, Ok []) (λ _, Ok []) (λ _, Ok []) (λ _, Ok []) (λ _, Ok []).

Definition some_client : client_input :=
  mkClientInput (Ok (mkRestConfig EmptyString f64_zero 0)) (Err EmptyString) (λ _, Ok some_clientset)
    (λ _, Ok (λ _, Ok [])).

(** From wherever it is, the worker gets to its next collection. *)
Lemma worker_to_collect st :
  alive st = true → y_worker st ≠ WReturned →
  ∃ evs st', length evs ≤ 2 ∧ exec_all conf coll st evs = Some st' ∧ y_worker st' = WCollect ∧
    same_reach st st' ∧ Forall outside_ok evs ∧ Forall worker_event evs ∧ y_mem st' = y_mem st.
Proof.
  intros Ha Hw. pose proof (proj1 (alive_iff _) Ha) as (_ & Hr & _). destruct (y_worker st) eqn:E; try done.
  - exists [EvNewClient some_client], (set_worker st WCollect). split_and!; [simpl; lia| |done| |by constructor|by constructor|done].
    + simpl. unfold exec. rewrite Ha. unfold worker_begin. by rewrite E.
    + split_and!; [by apply (alive_as st)|done..].
  - exfalso. unfold alive in Ha. by rewrite E in Ha.
  - exists [], st. split_and!; [simpl; lia|done|done|done|by constructor|by constructor|done].
  - set (st1 := mkSys (y_catalog st) (y_store st) (publish_stats (cat_Stats catalog)) (y_scrapeErrors st)
      (y_rejections st) (y_verifier st) (y_done st) WWait (y_mem st) (y_reach st) (y_prober st) (y_hist st)
      (y_main st) (y_inflight st)).
    exists [EvPublish; EvWorkerTimer], (set_worker st1 WCollect).
    split_and!; [simpl; lia| |done| |by repeat constructor|by repeat constructor|done].
    + simpl. unfold exec at 1. rewrite Ha. unfold worker_publish. rewrite E. fold st1.
      unfold exec. by rewrite (alive_as st st1).
    + split_and!; [by apply (alive_as st)|done..].
  - exists [EvWorkerTimer], (set_worker st WCollect). split_and!; [simpl; lia| |done| |by constructor|by constructor|done].
    + simpl. unfold exec. rewrite Ha. unfold worker_timer. by rewrite E.
    + split_and!; [by apply (alive_as st)|done..].
Qed.

(** From a collection, a cycle ends in the wait, published when the scan succeeds. *)
Lemma worker_cycle st i :
  alive st = true → y_worker st = WCollect → outside_ok (EvCollect i) →
  ∃ evs st', length evs ≤ 2 ∧ exec_all conf coll st evs = Some st' ∧ y_worker st' = WWait ∧
    same_reach st st' ∧ Forall outside_ok evs ∧ Forall worker_event evs ∧
    (∀ s, scan conf i = Ok s → ∃ cat, y_catalog st' = Some cat ∧
       Collect (ci_rts i) (ci_rt i) coll (cycle_env conf i) (y_mem st) = (Ok cat, y_mem st') ∧
       y_gauges st' = publish_stats (cat_Stats cat)).
Proof.
  intros Ha Hw Hi. pose proof (proj1 (alive_iff _) Ha) as (_ & Hr & _).
  destruct (Collect (ci_rts i) (ci_rt i) coll (cycle_env conf i) (y_mem st)) as [[cat|e] mem] eqn:EC.
  - set (st1 := mkSys (Some cat) (y_store st) (y_gauges st) (y_scrapeErrors st) (y_rejections st)
      (y_verifier st) (y_done st) (WPublish cat) mem (y_reach st) (y_prober st)
      (observe_scrape (y_hist st)) (y_main st) (y_inflight st)).
    exists [EvCollect i; EvPublish]. eexists.
    split_and!; [simpl; lia| | | |repeat (constructor; [done|]); constructor|by repeat constructor|].
    + simpl. unfold exec at 1. rewrite Ha. unfold worker_collect. rewrite Hw, EC. fold st1.
      unfold exec. by rewrite (alive_as st st1).
    + done.
    + split_and!; [by apply (alive_as st)|done..].
    + intros s Es. exists cat. by split_and!.
  - exists [EvCollect i]. eexists.
    split_and!; [simpl; lia| | | |repeat (constructor; [done|]); constructor|by repeat constructor|].
    + simpl. unfold exec. rewrite Ha. unfold worker_collect. by rewrite Hw, EC.
    + done.
    + split_and!; [by apply (alive_as st)|done..].
    + intros s Es. exfalso. destruct (Collect_Ok (ci_rts i) (ci_rt i) coll (cycle_env conf i) (y_mem st) s Es)
        as [HC _]. rewrite EC in HC. by injection HC.
Qed.

End progress.

(** C38: progress.  From every reachable state in which the process is there and
    the worker has not returned, at most four events, all of the worker, publish the
    catalog of a cycle that can scan: what [Collect] gives of this cycle, with what
    the worker remembers now, is what is served, whole; the service is ready, the
    gauges show that catalog and the worker waits for its next cycle. *)
Theorem cycle_publishes (GU : GoUnicode) (U : Unstructured) (conf : Config) (coll : Collector)
    (verifier : option Verifier) (st : Sys) (i : cycle_input) (s : K8sSnapshot) (c : request) :
  reachable conf coll verifier st → alive st = true → y_worker st ≠ WReturned →
  outside_ok (EvCollect i) → scan conf i = Ok s →
  ∃ evs st' cat, length evs ≤ 4 ∧ Forall worker_event evs ∧ exec_all conf coll st evs = Some st' ∧
    reachable conf coll verifier st' ∧
    Collect (ci_rts i) (ci_rt i) coll (cycle_env conf i) (y_mem st) = (Ok cat, y_mem st') ∧
    y_catalog st' = Some cat ∧ cat_CollectedAt cat = ci_started i ∧
    y_gauges st' = publish_stats (cat_Stats cat) ∧ y_worker st' = WWait ∧
    rs_status (Readyz (y_catalog st') c) = 200%Z.
Proof.
  intros Hr Ha Hw Hi Hs.
  destruct (worker_to_collect conf coll st Ha Hw) as (evs1 & st1 & Hl1 & H1 & Hw1 & (Ha1 & _ & _) & Ho1 & He1 & Hm1).
  destruct (worker_cycle conf coll st1 i Ha1 Hw1 Hi) as (evs2 & st2 & Hl2 & H2 & Hw2 & _ & Ho2 & He2 & HC).
  destruct (HC s Hs) as (cat & Ec & Et & Eg). exists (evs1 ++ evs2), st2, cat.
  assert (exec_all conf coll st (evs1 ++ evs2) = Some st2) as He by (by rewrite exec_all_app, H1).
  rewrite Hm1 in Et.
  split_and!; [rewrite length_app; lia|by apply Forall_app|done| |done|done| |done|done|by rewrite Ec].
  - unfold reachable in *. etransitivity; [exact Hr|]. eapply exec_all_steps; [|exact He]. by apply Forall_app.
  - destruct (Collect_Ok (ci_rts i) (ci_rt i) coll (cycle_env conf i) (y_mem st) s Hs) as [HC' _].
    rewrite Et in HC'. by injection HC' as -> _.
Qed.







(** ** A concrete run *)

(** An environment that sets the cluster, the filters and OIDC, and leaves the
    rest to the defaults. *)
Definition demo_process (interval : Z) : Process := λ c,
  (mkConfig EmptyString (cf_LogDebug c) 0 "prod" 0 (mkKubernetesConf 0 [] ["a"; " b "] f64_zero 0)
     (mkOIDCConf (oc_Enabled (cf_OIDC c)) "https://issuer" "ssu-catalog" []) (cf_GitOpsEnabled c)
     (mkSwaggerConf false 0 0) (mkReachabilityConf true interval 0 0) (cf_Telemetry c), None).

Definition demo_discovery : Discovery := λ _, Ok (λ _ tok, Ok (Ok (mkClaims [tok]))).

Definition demo_conf (interval : Z) : Config := (Load (demo_process interval)).1.

Definition demo_start : start_outcome := main_start (demo_process 0) demo_registry demo_discovery.

Definition demo_service_verifier : option Verifier := match demo_start with Started _ _ _ v => v | _ => None end.

Lemma demo_started :
  ∃ m registry, main_start (demo_process 0) demo_registry demo_discovery =
    Started (demo_conf 0) m registry demo_service_verifier.
Proof.
  assert (is_ok (NewMetrics (cf_ClusterName (demo_conf 0)) demo_registry) = true) as H by (vm_compute; reflexivity).
  unfold demo_service_verifier, demo_start, main_start.
  change (Load (demo_process 0)) with (demo_conf 0, @None string).
  cbv beta iota zeta. destruct (NewMetrics _ _) as [[m registry]|e]; [|discriminate H].
  exists m, registry. reflexivity.
Qed.

Definition demo_collector : Collector := (worker_collector (demo_conf 0) (λ _ _, Ok []) (λ _ _, []) (λ _ _, [])).1.

Definition demo_cycle (cs : ClientSet) (started : Z) : cycle_input :=
  mkCycleInput 0 cs None (@rev string) (λ _ _ _, insertion_runtime) (λ _, insertion_runtime) insertion_runtime (λ _ _, None) (λ l, l)
    started (started + 4) (started + 5000000).

Definition broken_clientset : ClientSet :=
  mkClientSet (Err "forbidden") (λ _, Ok []) (λ _, Ok []) (λ _, Ok []) (λ _, Ok []) (λ _, Ok []) (λ _, Ok []) (λ _, Ok []).

Lemma broken_scoped : api_scoped broken_clientset.
Proof. split; intros ns l [= <-]; constructor. Qed.

Definition demo_probe : probe_input :=
  mkProbeInput (λ _, insertion_runtime) insertion_runtime (λ _, mkProbeEnv (λ _ _, None) (λ _, inl 200%Z) 7) (λ l, l).

Definition demo_request (header : string) : request := mkRequest (λ _, None) (λ _, EmptyString) header.

(** A cycle that fails, one that succeeds, a probe, and two requests, answered in the
    other order. *)
Definition demo_events : list event :=
  [EvNewClient some_client; EvLoad; EvJitter 3; EvCollect (demo_cycle broken_clientset 1); EvWorkerTimer;
   EvCollect (demo_cycle demo_clientset 10); EvPublish; EvReachTimer; EvLoad; EvProbe demo_probe;
   EvAccept 2 (demo_request "Bearer Catalog.Read"); EvAccept 2 (demo_request "Bearer Other");
   EvRequest insertion_runtime 1; EvRequest insertion_runtime 0; EvRefresh (λ _, Err "down"); EvCancel].

Definition demo_run : option Sys :=
  exec_all (GU := ascii_unicode) (U := tree_unstructured) (demo_conf 0) demo_collector
    (init (demo_conf 0) demo_service_verifier) demo_events.

Definition demo_state : Sys := default (init (demo_conf 0) None) demo_run.

Example demo_run_state :
  (app_Namespace <$> cat_Applications (snapshot_of (handler_of (demo_conf 0) demo_state)),
   nse_Name <$> cat_Namespaces (snapshot_of (handler_of (demo_conf 0) demo_state)),
   y_scrapeErrors demo_state, y_rejections demo_state, gv_ApplicationsTotal (y_gauges demo_state)) =
  (["a"; "b"], ["a"; "b"], 1%Z, 1%Z, f64_of_Z 2).
Proof. vm_compute. reflexivity. Qed.

Lemma demo_run_eq :
  exec_all (GU := ascii_unicode) (U := tree_unstructured) (demo_conf 0) demo_collector
    (init (demo_conf 0) demo_service_verifier) demo_events = Some demo_state.
Proof. unfold demo_state, demo_run. apply some_default, (bool_decide_unpack _). vm_compute. exact I. Qed.

Lemma demo_cycle_ok cs started : api_scoped cs → cycle_ok (demo_cycle cs started).
Proof. intros H. split_and!; [exact H| |done]. intros l. symmetry. apply Permutation_rev. Qed.

Lemma demo_outside : Forall outside_ok demo_events.
Proof.
  unfold demo_events. rewrite !Forall_cons, Forall_nil.
  split_and!; try exact I; [apply demo_cycle_ok, broken_scoped|apply demo_cycle_ok, demo_scoped|by intros l].
Qed.

Lemma demo_reachable :
  reachable (GU := ascii_unicode) (U := tree_unstructured) (demo_conf 0) demo_collector demo_service_verifier demo_state.
Proof. exact (exec_all_steps _ _ _ _ _ demo_outside demo_run_eq). Qed.

(** ** Witnesses *)

Lemma service_invariant_witness :
  ∃ cat m, y_catalog demo_state = Some cat ∧
    collected (GU := ascii_unicode) (U := tree_unstructured) (demo_conf 0) demo_collector cat ∧
    snapshot (y_store demo_state) = Some m ∧ y_gauges demo_state = publish_stats (cat_Stats cat).
Proof.
  destruct (service_invariant ascii_unicode tree_unstructured (demo_conf 0) demo_collector demo_service_verifier
    demo_state demo_reachable) as (Hc & (m & Hm & _) & _ & Hg & _).
  assert (is_Some (y_catalog demo_state)) as [cat Ec] by (apply (bool_decide_unpack _); vm_compute; exact I).
  exists cat, m. split_and!; [exact Ec|exact (Hc cat Ec)|exact Hm|]. rewrite Hg, Ec; [reflexivity|].
  intros c E. assert (y_worker demo_state = WWait) as E' by (vm_compute; reflexivity). congruence.
Defined.

Lemma run_history_witness :
  y_scrapeErrors demo_state = 1%Z ∧ y_rejections demo_state = 1%Z ∧
  h_scrapes (y_hist demo_state) = 2%Z ∧ h_probes (y_hist demo_state) = 1%Z ∧
  rs_status (Readyz (y_catalog demo_state) (demo_request EmptyString)) = 200%Z.
Proof.
  destruct (run_history ascii_unicode tree_unstructured (demo_conf 0) demo_collector demo_service_verifier
    demo_events demo_state (demo_request EmptyString) demo_run_eq) as (_ & H1 & H2 & H3 & H4 & H5).
  split_and!.
  - rewrite H1. vm_compute. reflexivity.
  - rewrite H2. vm_compute. reflexivity.
  - rewrite H3. vm_compute. reflexivity.
  - rewrite H4. vm_compute. reflexivity.
  - rewrite H5. vm_compute. reflexivity.
Defined.

Lemma stats_agree_witness :
  ∃ stats deps, stats_TotalApplications stats = 2%Z ∧ stats_ApplicationsWithDocs stats = 0%Z ∧
    stats_TotalDependencies stats = Z.of_nat (length deps) ∧
    ListDependencies (handler_of (demo_conf 0) demo_state) (ask None) =
      respond (snapshot_of (handler_of (demo_conf 0) demo_state)) (DDependencies deps).
Proof.
  destruct (stats_agree ascii_unicode tree_unstructured (demo_conf 0) demo_collector demo_service_verifier
    demo_state (demo_request EmptyString) demo_reachable) as (stats & deps & _ & H1 & H2 & H3 & _ & _ & H4 & _).
  exists stats, deps. split_and!; [|..|exact H4|exact H1].
  - rewrite H2. vm_compute. reflexivity.
  - rewrite H3. vm_compute. reflexivity.
Defined.

Definition demo_route (st : Sys) : route :=
  mkRoute "/api/v1/applications" (Some (authMW (y_verifier st)))
    (ListApplications (U := ascii_unicode) (handler_of (demo_conf 0) st)).

Lemma demo_route_in st :
  demo_route st ∈ routes (GU := ascii_unicode) (demo_conf 0) insertion_runtime st.
Proof. unfold routes, Configure, demo_route. do 4 right. left. Qed.

Lemma main_auth_witness :
  rs_status (answer demo_state (demo_route demo_state) (demo_request "Bearer Other")).1 = 401%Z ∧
  (answer demo_state (demo_route demo_state) (demo_request "Bearer Other")).2 = 2%Z.
Proof.
  destruct demo_started as (m & registry & Hm).
  destruct (main_auth ascii_unicode tree_unstructured map_prometheus insertion_runtime (demo_process 0)
    demo_registry registry m demo_discovery (demo_conf 0) demo_collector demo_service_verifier demo_state (demo_route demo_state) (demo_request "Bearer Other")
    Hm eq_refl demo_reachable (demo_route_in _)) as (v & Ev & _ & _ & _ & _ & _ & _ & H).
  { intros [E|E]; discriminate E. }
  assert ((answer demo_state (demo_route demo_state) (demo_request "Bearer Other")).2 = 2%Z) as H2
    by (vm_compute; reflexivity).
  assert (y_rejections demo_state = 1%Z) as H1 by (vm_compute; reflexivity).
  destruct (answer _ _ _) as [resp n]. cbn [fst snd] in H2 |- *. destruct H as [(_ & _ & H)|(_ & H & _)]; [lia|by split].
Defined.

Lemma reach_interval_spec_witness :
  (∃ d, pause (reach_interval (demo_conf 0)) 42 = Some d ∧
     (300 * 10 ^ 9 ≤ d ≤ 300 * 10 ^ 9 + 300 * 10 ^ 9 / 10)%Z) ∧
  (Load (demo_process (-1))).2 = None ∧
  ∃ st, exec_all (GU := ascii_unicode) (U := tree_unstructured) (demo_conf (-1)) demo_collector
    (init (demo_conf (-1)) None) [EvLoad; EvJitter 42] = Some st ∧ y_reach st = RPanicked.
Proof.
  split; [|split].
  - destruct (reach_interval_spec ascii_unicode tree_unstructured (demo_conf 0) demo_collector None) as [H _].
    destruct H as (_ & H); [split; vm_compute; congruence|]. exact (H 42%Z).
  - reflexivity.
  - destruct (reach_interval_spec ascii_unicode tree_unstructured (demo_conf (-1)) demo_collector None)
      as (_ & _ & _ & H & Hn & _).
    destruct (Hn ltac:(split; vm_compute; congruence)) as [_ Hi].
    destruct (H Hi eq_refl 42%Z) as (st & E & Ep & _). by exists st.
Defined.

Lemma cycle_publishes_witness :
  ∃ evs st cat, length evs ≤ 4 ∧ y_catalog st = Some cat ∧ cat_CollectedAt cat = 99%Z ∧
    exec_all (GU := ascii_unicode) (U := tree_unstructured) (demo_conf 0) demo_collector demo_state evs = Some st ∧
    app_Namespace <$> cat_Applications cat = ["a"; "b"].
Proof.
  destruct (scan (U := tree_unstructured) (demo_conf 0) (demo_cycle demo_clientset 99)) as [s|e] eqn:Es.
  - destruct (cycle_publishes ascii_unicode tree_unstructured (demo_conf 0) demo_collector demo_service_verifier
      demo_state (demo_cycle demo_clientset 99) s (demo_request EmptyString) demo_reachable)
      as (evs & st & cat & H1 & _ & H2 & _ & HC & H3 & H4 & _).
    + vm_compute. reflexivity.
    + assert (y_worker demo_state = WWait) as E by (vm_compute; reflexivity). congruence.
    + apply demo_cycle_ok, demo_scoped.
    + exact Es.
    + exists evs, st, cat. split_and!; [exact H1|exact H3|exact H4|exact H2|].
      apply (f_equal fst) in HC. cbn [fst] in HC.
      assert (∀ c, (Collect (GU := ascii_unicode) (U := tree_unstructured) (λ _, insertion_runtime) insertion_runtime
        demo_collector (cycle_env (U := tree_unstructured) (demo_conf 0) (demo_cycle demo_clientset 99))
        (y_mem demo_state)).1 = Ok c → app_Namespace <$> cat_Applications c = ["a"; "b"]) as Hd.
      { vm_compute. intros c [= <-]. reflexivity. }
      exact (Hd cat HC).
  - exfalso. revert Es. vm_compute. discriminate.
Defined.

