(* ===== verification/Served.v ===== *)
(** * What the running service serves

    Theorems that compose every component, over the states [System] reaches: the
    responses keep to the configured namespaces, they are typed and name the configured cluster, every verdict served is a
    probe's of a host some collected catalog exposes, the counters are coherent and
    only grow, and an outage of the telemetry backend costs a cycle its
    observations and nothing else. *)

From Stdlib Require Import Ascii.
From S2P Require Import Metrics.
From S2P Require Export Typing System TelemetryClient.

(** ** Stored verdicts *)

Section verdicts.
Context {GU : GoUnicode}.

(** [v] is the verdict of a probe of a host that a service of the catalog exposes
    and does not opt out. *)
Definition verdict_of (cat : Catalog) (ns svc host : string) (v : ReachabilityResult) : Prop :=
  ∃ s win t env, (ns, s) ∈ catalog_services cat ∧ svc_Name s = svc ∧
    winningRoutesByHost (svc_Routes s) !! host = Some win ∧ target_of ns svc host win = Some t ∧
    v = Reachability.probeOne env t.

Lemma target_of_host ns svc host win t : target_of ns svc host win = Some t → t_host t = host.
Proof. unfold target_of. destruct (String.eqb _ _); [done|]. destruct (parseExpect _) as [[? ?] ?]. by intros [= <-]. Qed.

Lemma probeOne_host env t : reach_Host (Reachability.probeOne env t) = t_host t.
Proof. unfold Reachability.probeOne. destruct (attempt_loop _ _ _ _ _ _) as [code [e|]]; [done|by case_match]. Qed.

Lemma verdict_of_facts cat ns svc host v :
  verdict_of cat ns svc host v → has_verdict v ∧ reach_Host v = host.
Proof.
  intros (s & win & t & env & _ & _ & _ & Ht & ->). split; [apply probeOne_has_verdict|].
  rewrite probeOne_host. by eapply target_of_host.
Qed.

Lemma Probe_verdicts rts rt envs sched cat k v :
  (∀ l, sched l ≡ₚ l) → Reachability.Probe rts rt envs sched (Some cat) !! k = Some v →
  ∃ ns svc host, k = target_key ns svc host ∧ verdict_of cat ns svc host v.
Proof.
  intros Hs. unfold Reachability.Probe. intros H.
  assert (∃ i t, buildTargets rts rt (Some cat) !! i = Some t ∧ t_key t = k ∧
    v = Reachability.probeOne (envs i) t) as (i & t & Hi & Hk & ->).
  { destruct (buildTargets rts rt (Some cat)) as [|t0 ts] eqn:E; [by rewrite lookup_empty in H|].
    eapply record_sound; [|exact H]. apply Hs. }
  apply list_elem_of_lookup_2 in Hi. unfold buildTargets in Hi. rewrite sort_slice_perm in Hi.
  apply all_targets_elem in Hi as (ns & s & host & win & Hin & Hw & Ht).
  exists ns, (svc_Name s), host. split; [by rewrite <- Hk, (target_of_key _ _ _ _ _ Ht)|].
  by exists s, win, t, (envs i).
Qed.

(** The verdicts of an overlaid application come from the store. *)
Lemma overlaid_verdict reach app svc v :
  Forall (service_typed no_verdict) (app_Services app) →
  svc ∈ app_Services (overlayApp (Some reach) app) → v ∈ svc_Reachability svc →
  ∃ host, host ∈ svc_ExternalHosts svc ∧
    Reachability.Lookup reach (target_key (app_Namespace app) (svc_Name svc) host) = (v, true).
Proof.
  rewrite overlayApp_overlaid. intros Hn (s & -> & Hs)%list_elem_of_fmap. unfold overlaid_service, with_results.
  assert (svc_Reachability s = []) as E0.
  { eapply Forall_forall in Hn as [_ _ Hn]; [|exact Hs]. destruct (svc_Reachability s); [done|].
    by apply Forall_cons in Hn as [[] _]. }
  destruct (host_results reach app s) as [|r rs] eqn:E; [rewrite E0; intros Hv; by apply elem_of_nil in Hv|].
  simpl. rewrite <- E. unfold host_results.
  assert (∀ hosts, (∀ h, h ∈ hosts → h ∈ svc_ExternalHosts s) →
    Forall (λ v, ∃ host, host ∈ svc_ExternalHosts s ∧
      Reachability.Lookup reach (target_key (app_Namespace app) (svc_Name s) host) = (v, true))
      (foldl (λ results host, let '(r, ok) := Reachability.Lookup reach (lookup_key app s host) in
         if ok then results ++ [r] else results) [] hosts)) as H.
  { intros hosts Hh. apply foldl_inv; [constructor|]. intros results host Hhost Hr.
    destruct (Reachability.Lookup reach (lookup_key app s host)) as [r' []] eqn:El; [|done].
    apply Forall_app. split; [done|]. apply Forall_singleton. exists host. split; [by apply Hh|exact El]. }
  specialize (H _ (λ h Hh, Hh)). intros Hv. by eapply Forall_forall in H.
Qed.

Lemma Lookup_snapshot s m key v :
  snapshot s = Some m → Reachability.Lookup s key = (v, true) → m !! key = Some v.
Proof. intros Hs. unfold Reachability.Lookup. rewrite Hs. by destruct (m !! key); intros [= <-]. Qed.
End verdicts.

(** ** The responses *)

Section served.
Context {GU : GoUnicode} {U : Unstructured} {rt : GoRuntime}.
Variables (conf : Config) (coll : Collector).

(** The collector [main] builds: its overlayer, if any, is for its cluster. *)
Definition own_cluster : Prop :=
  col_cluster coll = cf_ClusterName conf ∧
  ∀ o, col_overlayer coll = Some o → o_cluster o = cf_ClusterName conf.

Lemma answer_data st r c d m :
  r ∈ routes conf rt st → rs_body (answer st r c).1 = Data d m →
  from_snapshot (handler_of conf st) d ∧ m = meta (snapshot_of (handler_of conf st)).
Proof.
  intros Hr H. eapply handler_from_snapshot; [exact Hr|]. revert H.
  unfold answer, serve. destruct (rt_mw r) as [mw|]; [|done].
  by destruct (mw _ _) as [[|reason] n].
Qed.

Lemma collected_typed cat :
  own_cluster → collected conf coll cat → catalog_typed (cf_ClusterName conf) no_verdict cat.
Proof.
  intros [Hc Ho] (i & mem & _ & HC). destruct (scan conf i) as [s|e] eqn:E.
  2:{ exfalso. revert HC. unfold Collect. cbn [cycle_env ce_snapshot]. by rewrite E. }
  rewrite <- Hc. apply (Collect_typed (ci_rts i) (ci_rt i) coll (cycle_env conf i) mem s cat); [|exact E| |exact HC].
  { intros o Eo. rewrite Hc. by apply Ho. }
  unfold scan in E. by apply ListResources_typed in E.
Qed.

Lemma probed_verdicts m k v :
  probed conf coll m → m !! k = Some v →
  ∃ cat ns svc host, collected conf coll cat ∧ k = target_key ns svc host ∧ verdict_of cat ns svc host v.
Proof.
  intros (cat & i & Hc & Hi & ->) (ns & svc & host & Hk & Hv)%Probe_verdicts; [|done].
  by exists cat, ns, svc, host.
Qed.

(** What the store holds in a reachable state. *)
Lemma stored_verdicts verifier st k v m :
  reachable conf coll verifier st → snapshot (y_store st) = Some m → m !! k = Some v →
  ∃ cat ns svc host, collected conf coll cat ∧ k = target_key ns svc host ∧ verdict_of cat ns svc host v.
Proof.
  intros [_ (m' & Hm' & Hp) _ _ _]%reachable_inv Hm Hk. rewrite Hm in Hm'. injection Hm' as <-.
  destruct Hp as [->|Hp]; [by rewrite lookup_empty in Hk|by eapply probed_verdicts].
Qed.

Lemma looked_up verifier st k v :
  reachable conf coll verifier st → Reachability.Lookup (y_store st) k = (v, true) →
  ∃ cat ns svc host, collected conf coll cat ∧ k = target_key ns svc host ∧ verdict_of cat ns svc host v.
Proof.
  intros Hr Hl. pose proof Hr as [_ (m & Hm & _) _ _ _]%reachable_inv.
  apply (stored_verdicts verifier st k v m Hr Hm). by apply (Lookup_snapshot (y_store st)).
Qed.

Lemma snapshot_typed verifier st :
  own_cluster → reachable conf coll verifier st →
  catalog_typed (cf_ClusterName conf) no_verdict (snapshot_of (handler_of conf st)).
Proof.
  intros Hc [Hcat _ _ _ _]%reachable_inv. unfold snapshot_of, handler_of. cbn [h_catalog h_cluster].
  destruct (y_catalog st) as [cat|]; [by apply collected_typed, Hcat|].
  split; simpl; [done|constructor..].
Qed.

Lemma verdict_allowed cat ns svc host v :
  collected conf coll cat → verdict_of cat ns svc host v → allowed conf ns.
Proof.
  intros [_ Ha _ _ _]%collected_coherent (s & win & t & env & Hin & _). revert Hin. unfold catalog_services.
  intros (app & (s' & [= -> ->] & _)%list_elem_of_fmap & Happ)%list_elem_of_bind. by eapply Forall_forall in Ha.
Qed.

Lemma snapshot_scope verifier st :
  reachable conf coll verifier st →
  let cat := snapshot_of (handler_of conf st) in
  Forall (λ a, allowed conf (app_Namespace a)) (cat_Applications cat) ∧
  Forall (λ n, allowed conf (nse_Name n)) (cat_Namespaces cat) ∧
  (Forall named_app (cat_Applications cat) → Forall (edge_allowed conf) (cat_Dependencies cat)).
Proof.
  intros [Hcat _ _ _ _]%reachable_inv. unfold snapshot_of, handler_of. cbn [h_catalog].
  destruct (y_catalog st) as [cat|]; [|by split_and!; try constructor].
  by destruct (collected_coherent conf coll cat (Hcat cat eq_refl)).
Qed.

Lemma All_stored s v : v ∈ All s → ∃ m k, snapshot s = Some m ∧ m !! k = Some v.
Proof.
  unfold All. destruct (snapshot s) as [m|]; [|intros Hv; by apply elem_of_nil in Hv].
  rewrite sort_slice_perm, map_range_perm. intros ([k r] & -> & Hk%elem_of_map_to_list)%list_elem_of_fmap.
  by exists m, k.
Qed.
End served.

(** C5: nothing out of scope is served.  Whatever the interleaving and whatever the
    API server lists (as long as it lists by namespace), in every response of every
    route each application is of a namespace the configuration lets the service
    scan; so is each namespace entry; so is, when no name of the catalog holds a
    slash, each end of a dependency edge that is not external; and each verdict, in
    the listing or on a Service, is a probe's of a host that a Service of such a
    namespace exposes. *)
Theorem scope_served (GU : GoUnicode) (U : Unstructured) (rt : GoRuntime) (conf : Config) (coll : Collector)
    (verifier : option Verifier) (st : Sys) (r : route) (c : request) (d : payload) (m : envelope) :
  reachable conf coll verifier st → r ∈ routes conf rt st → rs_body (answer st r c).1 = Data d m →
  Forall (λ a, allowed conf (app_Namespace a)) (payload_apps d) ∧
  Forall (λ n, allowed conf (nse_Name n)) (payload_entries d) ∧
  (Forall named_app (cat_Applications (snapshot_of (handler_of conf st))) →
   Forall (edge_allowed conf) (payload_edges d)) ∧
  (∀ v, v ∈ payload_verdicts d ∨
      (own_cluster conf coll ∧ ∃ app svc, app ∈ payload_apps d ∧ svc ∈ app_Services app ∧ v ∈ svc_Reachability svc) →
     ∃ cat ns svc host, collected conf coll cat ∧ verdict_of cat ns svc host v ∧ allowed conf ns).
Proof.
  intros Hr Hin Hd. destruct (answer_data conf st r c d m Hin Hd) as [[Hfa Hfn Hfe Hfv] _].
  destruct (snapshot_scope conf coll verifier st Hr) as (Ha & Hn & He). rewrite Forall_forall in Ha. rewrite Forall_forall in Hn.
  rewrite !Forall_forall. split_and!.
  - intros app (a & Hx & ->)%Hfa. rewrite overlayApp_overlaid. by apply (Ha a).
  - intros n Hx%Hfn. by apply Hn.
  - intros Hnamed e Hx%Hfe. by eapply Forall_forall in Hx; [|apply He, Forall_forall].
  - intros v [Hv|(Hc & app & svc & Happ & Hsvc & Hv)].
    + apply Hfv in Hv as (s & [= <-] & (m' & k & Hm' & Hk)%All_stored).
      destruct (stored_verdicts conf coll verifier st k v m' Hr Hm' Hk) as (cat & ns & svc & host & HC & _ & Hvo).
      exists cat, ns, svc, host. split_and!; [done..|by eapply verdict_allowed].
    + apply Hfa in Happ as (a & Hx & ->).
      destruct (snapshot_typed conf coll verifier st Hc Hr) as [_ Ht _ _]. rewrite Forall_forall in Ht.
      destruct (overlaid_verdict (y_store st) a svc v) as (host & Hh & Hl); [by apply Ht|done..|].
      destruct (looked_up conf coll verifier st _ v Hr Hl) as (cat & ns & svc' & host' & HC & _ & Hvo).
      exists cat, ns, svc', host'. split_and!; [done..|by eapply verdict_allowed].
Qed.

(** C7: the service serves typed values.  In every reachable state, whatever
    Kubernetes, the probes and telemetry answered, every response names the
    configured cluster; its applications and namespaces are of that cluster, with a
    workload, route and GitOps kind of the model, documents external exactly when
    they have a URL, and topics and databases of a known origin; its edges are
    overlay edges or policy edges between nodes that are external, without cluster
    and namespace, or of the cluster; and every verdict is reachable, unreachable or
    unknown. *)
Theorem served_typed (GU : GoUnicode) (U : Unstructured) (rt : GoRuntime) (conf : Config)
    (coll : Collector) (verifier : option Verifier) (st : Sys) (r : route) (c : request)
    (d : payload) (m : envelope) :
  own_cluster conf coll → reachable conf coll verifier st → r ∈ routes conf rt st →
  rs_body (answer st r c).1 = Data d m →
  en_cluster m = cf_ClusterName conf ∧
  Forall (application_typed (cf_ClusterName conf) has_verdict) (payload_apps d) ∧
  Forall (λ n, nse_Cluster n = cf_ClusterName conf) (payload_entries d) ∧
  Forall (edge_typed (cf_ClusterName conf)) (payload_edges d) ∧
  Forall has_verdict (payload_verdicts d).
Proof.
  intros Hc Hr Hin Hd. destruct (answer_data conf st r c d m Hin Hd) as [[Hfa Hfn Hfe Hfv] ->].
  destruct (snapshot_typed conf coll verifier st Hc Hr) as [Hcl Ha Hn He].
  rewrite Forall_forall in Ha. rewrite Forall_forall in Hn. rewrite Forall_forall in He. rewrite !Forall_forall.
  split_and!; [done| |intros n Hx; by apply Hn, Hfn|intros e Hx; by apply He, Hfe|].
  - intros app (a & Hx & ->)%Hfa. apply overlayApp_typed; [|by apply Ha].
    intros s key v [= <-] Hl.
    destruct (looked_up conf coll verifier st key v Hr Hl) as (cat & ns & svc & host & _ & _ & Hv).
    by eapply verdict_of_facts.
  - intros v (s & [= <-] & Hv)%Hfv. apply All_stored in Hv as (m' & k & Hm' & Hk).
    destruct (stored_verdicts conf coll verifier st k v m' Hr Hm' Hk) as (cat & ns & svc & host & _ & _ & Hv).
    by eapply verdict_of_facts.
Qed.

(** C8: verdicts are served where they belong.  Every verdict a served service
    carries is filed under the key of that service and of a host it exposes, and is
    what probing a host found that a service of some collected catalog exposed and
    did not opt out; when no name holds a slash it is that service, that namespace
    and that host.  Every verdict the store's listing shows is such a probe's. *)
Theorem verdicts_served (GU : GoUnicode) (U : Unstructured) (rt : GoRuntime) (conf : Config)
    (coll : Collector) (verifier : option Verifier) (st : Sys) (r : route) (c : request)
    (d : payload) (m : envelope) :
  own_cluster conf coll → reachable conf coll verifier st → r ∈ routes conf rt st →
  rs_body (answer st r c).1 = Data d m →
  (∀ app svc v, app ∈ payload_apps d → svc ∈ app_Services app → v ∈ svc_Reachability svc →
     ∃ host cat ns' svc' host', host ∈ svc_ExternalHosts svc ∧ collected conf coll cat ∧
       verdict_of cat ns' svc' host' v ∧
       target_key (app_Namespace app) (svc_Name svc) host = target_key ns' svc' host' ∧
       (Forall (λ x, lacks "/"%char x = true) [app_Namespace app; svc_Name svc; ns'; svc'] →
        ns' = app_Namespace app ∧ svc' = svc_Name svc ∧ host' = host ∧ reach_Host v = host)) ∧
  (∀ v, v ∈ payload_verdicts d →
     ∃ cat ns svc host, collected conf coll cat ∧ verdict_of cat ns svc host v ∧ reach_Host v = host).
Proof.
  intros Hc Hr Hin Hd. destruct (answer_data conf st r c d m Hin Hd) as [[Hfa _ _ Hfv] ->].
  destruct (snapshot_typed conf coll verifier st Hc Hr) as [_ Ha _ _]. rewrite Forall_forall in Ha. split.
  - intros app svc v (a & Hx & ->)%Hfa Hsvc Hv.
    destruct (overlaid_verdict (y_store st) a svc v) as (host & Hh & Hl); [by apply Ha|done..|].
    destruct (looked_up conf coll verifier st _ v Hr Hl) as (cat & ns' & svc' & host' & HC & Hk & Hvo).
    assert (app_Namespace (overlayApp (h_reach (handler_of conf st)) a) = app_Namespace a) as -> by apply overlayApp_same.
    exists host, cat, ns', svc', host'. split_and!; [done..|].
    intros Hs. rewrite !Forall_cons in Hs. destruct Hs as (H1 & H2 & H3 & H4 & _).
    apply target_key_inj in Hk as (-> & -> & ->); [|done..]. split_and!; [done..|]. by eapply verdict_of_facts.
  - intros v (s & [= <-] & Hv)%Hfv. apply All_stored in Hv as (m' & k & Hm' & Hk).
    destruct (stored_verdicts conf coll verifier st k v m' Hr Hm' Hk) as (cat & ns & svc & host & HC & _ & Hvo).
    exists cat, ns, svc, host. split_and!; [done..|]. by eapply verdict_of_facts.
Qed.

Lemma worker_own_cluster (conf : Config) (tClient : nat → string → result (list Sample))
    (lookupAddr lookupHost : nat → string → list string) :
  own_cluster conf (worker_collector conf tClient lookupAddr lookupHost).1.
Proof.
  split; [done|]. intros o. simpl. unfold worker_overlayer. by destruct (tc_Enabled _); intros [= <-].
Qed.

(** ** Counters *)

Definition swagger_counter (f : Swagger.Prober → option Z) (mem : memory) : Z :=
  match mem_prober mem with Some p => default 0%Z (f p) | None => 0%Z end.

(** What the nine counters show, in the order of their registration, then how many
    observations the two histograms hold. *)
Definition counter_values (st : Sys) : list Z :=
  [ y_scrapeErrors st; swagger_counter sp_probes (y_mem st); swagger_counter sp_hits (y_mem st);
    default 0%Z (pr_probes (y_prober st)); default 0%Z (pr_reachable (y_prober st));
    default 0%Z (pr_unreachable (y_prober st)); default 0%Z (pr_unknown (y_prober st));
    default 0%Z (oc_errors (mem_caches (y_mem st))); y_rejections st;
    h_scrapes (y_hist st); h_probes (y_hist st) ].

Lemma Probe_counts {GU : GoUnicode} {rt : GoRuntime} webs sched apps :
  (∀ l, sched l ≡ₚ l) → let '(_, jobs, hits) := Swagger.Probe webs sched apps in hits ≤ jobs.
Proof.
  intros Hs. unfold Swagger.Probe. destruct (Nat.eqb _ 0); [done|].
  rewrite fill_recorded by apply Hs. unfold all_hits.
  generalize (λ j : nat * job, probeOne (webs j.1) j.2). intros f.
  induction (probe_jobs apps) as [|j jobs IH]; [done|]. cbn. destruct (f j); cbn in *; lia.
Qed.

(** Growth of a prober's counters. *)
Definition swagger_grows (p p' : option Swagger.Prober) : Prop :=
  match p, p' with
  | None, None => True
  | Some p, Some p' =>
      ∃ jobs hits, hits ≤ jobs ∧
        sp_probes p' = (λ v, v + Z.of_nat jobs)%Z <$> sp_probes p ∧
        sp_hits p' = (λ v, v + Z.of_nat hits)%Z <$> sp_hits p
  | _, _ => False
  end.

Lemma add_counter_grows c n : add_counter c n = (λ v, v + Z.of_nat n)%Z <$> c.
Proof. destruct c as [v|]; [|done]. simpl. destruct n; simpl; f_equal; lia. Qed.

Lemma swagger_grows_refl p : swagger_grows p p.
Proof.
  destruct p as [p|]; [|done]. exists 0, 0. split_and!; [done|..].
  - destruct (sp_probes p); simpl; [f_equal; lia|done].
  - destruct (sp_hits p); simpl; [f_equal; lia|done].
Qed.

Lemma probe_pass_grows {GU : GoUnicode} {rt : GoRuntime} prober env apps :
  (∀ l, ce_sched env l ≡ₚ l) → swagger_grows prober (probe_pass prober env apps).2.
Proof.
  intros Hs. destruct prober as [p|]; [|done]. simpl. unfold counted_Probe.
  pose proof (Probe_counts (ce_webs env) (ce_sched env) apps Hs) as H.
  destruct (Swagger.Probe _ _ _) as [[apps' jobs] hits]. simpl.
  exists jobs, hits. split_and!; [done|..]; apply add_counter_grows.
Qed.

Lemma overlay_pass_errors {GU : GoUnicode} {rt : GoRuntime} overlayer round caches apps :
  ∃ n, (0 ≤ n ≤ 6)%Z ∧ oc_errors (overlay_pass overlayer round caches apps).2 = count_errors n (oc_errors caches).
Proof.
  destruct overlayer as [o|].
  - exists (failed_queries o round). split; [|apply overlay_run_errors].
    unfold failed_queries, overlay_queries. simpl.
    assert (∀ q, 0 ≤ failures (o_client o round q) ≤ 1)%Z as H by (intros q; destruct (o_client o round q); simpl; lia).
    repeat match goal with |- context [failures ?r] =>
      lazymatch r with o_client o round ?q => pose proof (H q); generalize dependent (failures r); intros end end. lia.
  - exists 0%Z. split; [lia|]. simpl. destruct (oc_errors caches); simpl; [f_equal; lia|done].
Qed.

Lemma Collect_grows {GU : GoUnicode} {U : Unstructured} rts rt c env mem :
  (∀ l, ce_sched env l ≡ₚ l) →
  let mem' := (Collect rts rt c env mem).2 in
  swagger_grows (mem_prober mem) (mem_prober mem') ∧
  ∃ n, (0 ≤ n ≤ 6)%Z ∧ oc_errors (mem_caches mem') = count_errors n (oc_errors (mem_caches mem)).
Proof.
  intros Hs. cbn zeta. destruct (ce_snapshot env) as [s|e] eqn:E.
  - destruct (Collect_Ok rts rt c env mem s E) as [-> _]. simpl.
    split; [by apply probe_pass_grows|apply overlay_pass_errors].
  - unfold Collect. rewrite E. simpl. split; [apply swagger_grows_refl|]. exists 0%Z. split; [lia|].
    destruct (oc_errors _); simpl; [f_equal; lia|done].
Qed.

(** *** Their invariant *)

(** Two numbers of a registered counter, the second not above the first. *)
Definition both_counted (a b : option Z) : Prop := ∃ x y, a = Some x ∧ b = Some y ∧ (0 ≤ y ≤ x)%Z.

Record counters_ok (st : Sys) : Prop := {
  cn_errors : (0 ≤ y_scrapeErrors st)%Z;
  cn_rejections : (0 ≤ y_rejections st)%Z;
  cn_scrapes : (y_scrapeErrors st ≤ h_scrapes (y_hist st))%Z;
  cn_probes : (0 ≤ h_probes (y_hist st))%Z;
  cn_swagger p : mem_prober (y_mem st) = Some p → both_counted (sp_probes p) (sp_hits p);
  cn_queries : ∃ n, oc_errors (mem_caches (y_mem st)) = Some n ∧ (0 ≤ n)%Z;
  cn_reach : ∃ x y z, pr_probes (y_prober st) = Some (x + y + z)%Z ∧ pr_reachable (y_prober st) = Some x ∧
    pr_unreachable (y_prober st) = Some y ∧ pr_unknown (y_prober st) = Some z ∧ (0 ≤ x ∧ 0 ≤ y ∧ 0 ≤ z)%Z;
}.

Section counters.
Context {GU : GoUnicode} {U : Unstructured}.
Variables (conf : Config) (coll : Collector).

Lemma counters_ok_init verifier : counters_ok (init conf verifier).
Proof.
  split; simpl; try done.
  - intros p. unfold worker_prober. destruct (sc_Enabled _); [|done]. intros [= <-]. by exists 0%Z, 0%Z.
  - by exists 0%Z.
  - by exists 0%Z, 0%Z, 0%Z.
Qed.

(** Rejections, probes and cycles, and the failed ones among them. *)
Definition tallies_grow (st st' : Sys) : Prop :=
  (y_rejections st ≤ y_rejections st' ∧ h_probes (y_hist st) ≤ h_probes (y_hist st') ∧
   0 ≤ y_scrapeErrors st' - y_scrapeErrors st ≤ h_scrapes (y_hist st') - h_scrapes (y_hist st))%Z.

Lemma count_length {A} (p : A → bool) l : (0 ≤ count p l ≤ Z.of_nat (length l))%Z.
Proof. unfold count. pose proof (length_filter (λ x, p x = true) l). lia. Qed.

Lemma exec_tallies st ev st' : exec conf coll st ev = Some st' → tallies_grow st st'.
Proof.
  intros (_ & Herr & Hrej & Hs & Hp)%exec_history. unfold tallies_grow.
  pose proof (count_length failed (cycle_outcome conf coll st ev)).
  pose proof (count_length is_unauthorized (request_answer conf st ev)). lia.
Qed.

(** What one event does to the counters: those of the swagger prober and of the
    overlay grow in a cycle, those of the reachability prober in a probe. *)
Definition counters_grow (st st' : Sys) : Prop :=
  tallies_grow st st' ∧ swagger_grows (mem_prober (y_mem st)) (mem_prober (y_mem st')) ∧
  (∃ n, (0 ≤ n ≤ 6)%Z ∧ oc_errors (mem_caches (y_mem st')) = count_errors n (oc_errors (mem_caches (y_mem st)))) ∧
  (y_prober st' = y_prober st ∨
   ∃ rt m, map_Forall (λ _ v, has_verdict v) m ∧ y_prober st' = recordMetrics (rt := rt) (y_prober st) m).

Lemma counters_grow_same st st' :
  tallies_grow st st' → y_mem st' = y_mem st → y_prober st' = y_prober st → counters_grow st st'.
Proof.
  unfold counters_grow. intros H -> ->. split_and!; [done|apply swagger_grows_refl| |by left].
  exists 0%Z. split; [lia|by rewrite count_errors_0].
Qed.

Lemma exec_grows st ev st' :
  outside_ok ev → exec conf coll st ev = Some st' → counters_grow st st'.
Proof.
  intros Hok He. pose proof (exec_tallies st ev st' He) as Ht.
  destruct ev; try (apply counters_grow_same; [done|..]; by exec_cases He).
  - destruct Hok as (_ & _ & Hs).
    assert (y_mem st' = (Collect (ci_rts i) (ci_rt i) coll (cycle_env conf i) (y_mem st)).2 ∧
      y_prober st' = y_prober st) as [Em Ep] by (by exec_cases He).
    destruct (Collect_grows (ci_rts i) (ci_rt i) coll (cycle_env conf i) (y_mem st) Hs) as [Hg Hn].
    rewrite <- Em in Hg, Hn. split_and!; [done..|by left].
  - assert (y_mem st' = y_mem st) as Em by (by exec_cases He).
    split_and!; [done|rewrite Em; apply swagger_grows_refl| |].
    { exists 0%Z. rewrite Em. split; [lia|by rewrite count_errors_0]. }
    right. clear Ht. exec_cases He. exists (pi_rt i). eexists. split; [|reflexivity].
    intros k v (ns & svc & host & _ & Hv)%Probe_verdicts; [|done]. by eapply verdict_of_facts.
Qed.

Lemma counters_ok_step st st' : counters_grow st st' → counters_ok st → counters_ok st'.
Proof.
  intros ((H1 & H2 & H3) & Hs & (n & Hn & En) & Hp)
    [He Hr Hcs Hpb Hsw (q & Eq & Hq) (x & y & z & Ea & Eb & Ec & Ed & Hx)].
  split; [lia|lia|lia|lia| | |].
  - intros p' E'. rewrite E' in Hs. destruct (mem_prober (y_mem st)) as [p|]; [|done].
    destruct Hs as (jobs & hits & Hle & -> & ->). destruct (Hsw p eq_refl) as (a & b & -> & -> & Hab).
    exists (a + Z.of_nat jobs)%Z, (b + Z.of_nat hits)%Z. split_and!; [done|done|lia|lia].
  - rewrite En, Eq. simpl. eexists. split; [done|lia].
  - destruct Hp as [->|(rt & m & Hm & ->)]; [by exists x, y, z|].
    destruct (recordMetrics_spec rt (y_prober st) m (x + y + z) x y z Hm Ea Eb Ec Ed)
      as (a & b & c & Ha & Hb & Hc & _ & ->). simpl.
    exists (x + a)%Z, (y + b)%Z, (z + c)%Z. split_and!; [f_equal; lia|done|done|done|lia..].
Qed.

Lemma reachable_counters verifier st : reachable conf coll verifier st → counters_ok st.
Proof.
  unfold reachable. revert st. apply rtc_ind_r; [apply counters_ok_init|].
  intros st st' _ (ev & Hok & He) IH. by eapply counters_ok_step, IH; eapply exec_grows.
Qed.

(** In terms of what the counters show. *)
Lemma counters_facts st :
  counters_ok st →
  Forall (Z.le 0) (counter_values st) ∧
  (swagger_counter sp_hits (y_mem st) ≤ swagger_counter sp_probes (y_mem st))%Z ∧
  (y_scrapeErrors st ≤ h_scrapes (y_hist st))%Z ∧
  (∃ x y z, pr_reachable (y_prober st) = Some x ∧ pr_unreachable (y_prober st) = Some y ∧
     pr_unknown (y_prober st) = Some z ∧ pr_probes (y_prober st) = Some (x + y + z)%Z).
Proof.
  intros [He Hr Hcs Hpb Hsw (q & Eq & Hq) (x & y & z & Ea & Eb & Ec & Ed & Hx)].
  assert (0 ≤ swagger_counter sp_hits (y_mem st) ≤ swagger_counter sp_probes (y_mem st))%Z as Hs.
  { unfold swagger_counter. destruct (mem_prober (y_mem st)) as [p|]; [|done].
    destruct (Hsw p eq_refl) as (a & b & -> & -> & ?). done. }
  unfold counter_values. rewrite Ea, Eb, Ec, Ed, Eq. simpl.
  split_and!; [repeat constructor; lia|lia|lia|by exists x, y, z].
Qed.

Lemma counters_le st st' :
  counters_ok st → counters_grow st st' → Forall2 Z.le (counter_values st) (counter_values st').
Proof.
  intros [_ _ _ _ Hsw (q & Eq & _) (x & y & z & Ea & Eb & Ec & Ed & Hx)] ((H1 & H2 & H3) & Hs & (n & Hn & En) & Hp).
  assert (swagger_counter sp_probes (y_mem st) ≤ swagger_counter sp_probes (y_mem st') ∧
    swagger_counter sp_hits (y_mem st) ≤ swagger_counter sp_hits (y_mem st'))%Z as [Hs1 Hs2].
  { unfold swagger_counter. destruct (mem_prober (y_mem st)) as [p|], (mem_prober (y_mem st')) as [p'|]; try done.
    destruct Hs as (jobs & hits & _ & -> & ->). destruct (Hsw p eq_refl) as (a & b & -> & -> & _). simpl. lia. }
  assert (∃ a b c, pr_probes (y_prober st') = Some (x + y + z + (a + b + c))%Z ∧ pr_reachable (y_prober st') = Some (x + a)%Z ∧
    pr_unreachable (y_prober st') = Some (y + b)%Z ∧ pr_unknown (y_prober st') = Some (z + c)%Z ∧
    (0 ≤ a ∧ 0 ≤ b ∧ 0 ≤ c)%Z) as (a & b & c & Ea' & Eb' & Ec' & Ed' & Ha).
  { destruct Hp as [->|(rt & m & Hm & ->)].
    - exists 0%Z, 0%Z, 0%Z. rewrite Ea, Eb, Ec, Ed. by rewrite !Z.add_0_r.
    - destruct (recordMetrics_spec rt (y_prober st) m (x + y + z) x y z Hm Ea Eb Ec Ed)
        as (a & b & c & Ha & Hb & Hc & _ & ->). by exists a, b, c. }
  unfold counter_values. rewrite Ea, Eb, Ec, Ed, Ea', Eb', Ec', Ed', En, Eq. simpl. repeat constructor; lia.
Qed.
End counters.

(** C14: the counters tell the truth.  In every reachable state no counter is
    negative, an OpenAPI probe counts at most one hit, failed cycles are among those
    timed, and the verdict counters of the reachability prober add up to its probes;
    and no event, whatever the outside answers, makes any of the nine counters or the
    histograms' counts decrease. *)
Theorem counters_spec (GU : GoUnicode) (U : Unstructured) (conf : Config) (coll : Collector)
    (verifier : option Verifier) (st : Sys) :
  reachable conf coll verifier st →
  Forall (Z.le 0) (counter_values st) ∧
  (swagger_counter sp_hits (y_mem st) ≤ swagger_counter sp_probes (y_mem st))%Z ∧
  (y_scrapeErrors st ≤ h_scrapes (y_hist st))%Z ∧
  (∃ x y z, pr_reachable (y_prober st) = Some x ∧ pr_unreachable (y_prober st) = Some y ∧
     pr_unknown (y_prober st) = Some z ∧ pr_probes (y_prober st) = Some (x + y + z)%Z) ∧
  (∀ ev st', outside_ok ev → exec conf coll st ev = Some st' →
     Forall2 Z.le (counter_values st) (counter_values st')).
Proof.
  intros Hr%reachable_counters. pose proof (counters_facts st Hr) as (H1 & H2 & H3 & H4).
  split_and!; [done..|]. intros ev st' Hok He. eapply counters_le; [done|by eapply exec_grows].
Qed.

(** ** An outage of the telemetry backend *)

(** The exchange of a query gives no answer: the request cannot be built or sent,
    or the answer has another status, cannot be decoded or reports a failure. *)
Definition unanswered (newRequest : string → option string) (do : QueryRequest → result QueryResponse)
    (decode : string → result promResponse) (req : QueryRequest) : Prop :=
  (∃ e, newRequest (qr_URL req) = Some e) ∨ (∃ e, do req = Err e) ∨
  ∃ resp, do req = Ok resp ∧
    (qs_StatusCode resp ≠ 200%Z ∨ (∃ e, decode (qs_Body resp) = Err e) ∨
     ∃ pr, decode (qs_Body resp) = Ok pr ∧ pr_Status pr ≠ "success").

Lemma unanswered_query {F : GoParseFloat} newRequest do decode c q :
  unanswered newRequest do decode (query_request c q) → ∃ e, InstantQuery newRequest do decode c q = Err e.
Proof.
  unfold unanswered, InstantQuery. destruct (newRequest _); [by eexists|].
  intros [(? & [=])|[(? & ->)|(resp & -> & H)]]; [by eexists|].
  destruct (Z.eqb_spec (qs_StatusCode resp) 200); cbn [negb]; [|by eexists].
  destruct H as [?|[(? & ->)|(pr & -> & Hs)]]; [done|by eexists|].
  rewrite (proj2 (String.eqb_neq _ _) Hs). by eexists.
Qed.

Lemma Apply_outage {GU : GoUnicode} {rt : GoRuntime} o n c apps :
  (∀ q, ∃ e, o_client o n q = Err e) →
  Apply o n c apps = ([], apps, mkOcaches (oc_ptr c) (oc_host c) (count_errors 6 (oc_errors c))).
Proof.
  intros H. pose proof (overlay_run_errors o n c apps) as He.
  assert (failed_queries o n = 6%Z) as Hf.
  { unfold failed_queries, overlay_queries. simpl.
    assert (∀ q, failures (o_client o n q) = 1%Z) as Hq by (intros q; by destruct (H q) as [e ->]). by rewrite !Hq. }
  rewrite Hf in He. unfold Apply. rewrite He. clear He Hf.
  assert (∀ {A} q (st : A) k, match o_client o n q with Ok l => k l | Err _ => st end = st) as Hq.
  { intros A q st k. by destruct (H q) as [e ->]. }
  unfold overlay_run, applyTrafficMetrics, applyRuntimeMetrics, applyMessagingMetrics, applyDatabaseMetrics,
    applyHTTPClient, applyServiceGraph. by rewrite !Hq.
Qed.

(** C15: an outage of the telemetry backend.  When no exchange of a cycle's queries
    gives an answer, whichever way each fails, a cycle gives the very catalog it
    gives without an overlay, probes included; it keeps the DNS caches, and counts
    six failed queries when the overlay is enabled and the scan succeeded, none
    otherwise. *)
Theorem telemetry_outage (GU : GoUnicode) (U : Unstructured) (F : GoParseFloat) (rts : nat → GoRuntime)
    (rt : GoRuntime) (conf : Config) (newRequest : string → option string)
    (do : nat → QueryRequest → result QueryResponse) (decode : string → result promResponse)
    (lookupAddr lookupHost : nat → string → list string) (env : CycleEnv) (mem : memory) :
  (∀ req, unanswered newRequest (do (ce_round env)) decode req) →
  let c := (worker_collector conf (worker_tClient conf newRequest do decode) lookupAddr lookupHost).1 in
  let failed := if tc_Enabled (cf_Telemetry conf) && is_ok (ce_snapshot env) then 6%Z else 0%Z in
  let caches := mem_caches mem in
  let '(catalog, mem0) := Collect rts rt (mkCollector (cf_ClusterName conf) None) env mem in
  Collect rts rt c env mem =
    (catalog, mkMemory (mem_prober mem0)
                (mkOcaches (oc_ptr caches) (oc_host caches) (count_errors failed (oc_errors caches)))).
Proof.
  intros Hout. cbn zeta.
  assert (∀ c : ocaches, mkOcaches (oc_ptr c) (oc_host c) (count_errors 0 (oc_errors c)) = c) as H0.
  { intros [? ? e]. simpl. by rewrite count_errors_0. }
  destruct (ce_snapshot env) as [s|e] eqn:E.
  2:{ unfold Collect. rewrite E, andb_false_r, H0. by destruct mem. }
  destruct (Collect_Ok rts rt (mkCollector (cf_ClusterName conf) None) env mem s E) as [-> _].
  destruct (Collect_Ok rts rt (worker_collector conf (worker_tClient conf newRequest do decode)
    lookupAddr lookupHost).1 env mem s E) as [-> _].
  cbn [worker_collector NewCollector fst col_cluster col_overlayer mem_prober is_ok].
  unfold worker_overlayer. destruct (tc_Enabled _); cbn [andb overlay_pass].
  - rewrite Apply_outage; [done|]. intros q. by apply unanswered_query.
  - by rewrite H0.
Qed.

(** ** A concrete service *)

(** Two namespaces with a routed service each; telemetry is enabled and its backend
    refuses every connection; the second cycle's OpenAPI documents answer. *)
Definition live_conf : Config :=
  mkConfig "info" false 30 "prod" 8080 (mkKubernetesConf 4 [] ["shop"; "kube"] f64_zero 0)
    (mkOIDCConf false EmptyString EmptyString []) false (mkSwaggerConf true 500 2)
    (mkReachabilityConf true 60 500 2) (mkTelemetryConf true "http://mimir/" EmptyString EmptyString 60 500).

Definition live_clientset : ClientSet := mkClientSet
  (Ok [mkNamespace "shop" None; mkNamespace "kube" None; mkNamespace "other" None])
  (λ ns, Ok [])
  (λ ns, Ok [mkKService (mkObjectMeta ns "svc" None None) "ClusterIP" "10.0.0.1"
               (Some {[ "app" := "x" ]}) [mkKServicePort "http" 80 "8080" "TCP"]])
  (λ ns, Ok [mkReplicated (mkObjectMeta ns "web" None None) (Some 2%Z) None (Some {[ "app" := "x" ]}) [] 1])
  (λ ns, Ok []) (λ ns, Ok [])
  (λ ns, Ok [mkIngress (mkObjectMeta ns "in" None None)
               [mkIngressRule (ns +:+ ".example") (Some [mkHTTPIngressPath "/api" (Some "svc")])]])
  (λ ns, Ok [mkNetworkPolicy (mkObjectMeta ns "egress" None None) (mkLabelSelector (Some {[ "app" := "x" ]}) [])
               [[mkPeer (Some "203.0.113.0/24") None None]]]).

Definition refused (req : QueryRequest) : result QueryResponse := Err "connection refused".

Definition live_service : Collector * memory :=
  worker_collector live_conf (worker_tClient (F := no_exotic) live_conf (λ _, None) (λ _, refused) (λ _, Err EmptyString))
    (λ _ _, []) (λ _ _, []).

Definition live_web : WebEnv := λ _, Some (mkResponse 200 "application/json"
  (Some (print_json (JObj [("openapi", JStr "3.0.1")])))).

Definition live_cycle (webs : nat → WebEnv) : cycle_input :=
  mkCycleInput 0 live_clientset None (@rev string) (λ _ _ _, insertion_runtime) (λ _, insertion_runtime) insertion_runtime webs (@rev (nat * job)) 1 5 5000001.

Definition live_events : list event :=
  [EvNewClient some_client; EvCollect (live_cycle (λ _ _, None)); EvPublish; EvLoad; EvProbe demo_probe;
   EvWorkerTimer; EvCollect (live_cycle (λ _, live_web)); EvPublish].

Definition live_run : option Sys :=
  exec_all (GU := ascii_unicode) (U := tree_unstructured) live_conf live_service.1
    (init live_conf None) live_events.

Definition live_state : Sys := default (init live_conf None) live_run.

Lemma live_run_eq :
  exec_all (GU := ascii_unicode) (U := tree_unstructured) live_conf live_service.1
    (init live_conf None) live_events = Some live_state.
Proof. unfold live_state, live_run. apply some_default, (bool_decide_unpack _). vm_compute. exact I. Qed.

Lemma live_cycle_ok webs : cycle_ok (live_cycle webs).
Proof.
  split_and!; [|intros l; symmetry; apply Permutation_rev..].
  split; intros ns l [= <-]; repeat constructor.
Qed.

Lemma live_reachable :
  reachable (GU := ascii_unicode) (U := tree_unstructured) live_conf live_service.1 None live_state.
Proof.
  refine (exec_all_steps _ _ _ _ _ _ live_run_eq).
  unfold live_events. rewrite !Forall_cons, Forall_nil. split_and!; try exact I; try apply live_cycle_ok.
  intros l. reflexivity.
Qed.

(** What [GET /api/v1/applications] answers there. *)
Definition live_route : route :=
  mkRoute "/api/v1/applications" (Some (authMW (y_verifier live_state)))
    (ListApplications (U := ascii_unicode) (handler_of live_conf live_state)).

Lemma live_route_in : live_route ∈ routes (GU := ascii_unicode) live_conf insertion_runtime live_state.
Proof. unfold routes, Configure, live_route. do 4 right. left. Qed.

Definition live_data : payload * envelope :=
  match rs_body (answer live_state live_route (demo_request EmptyString)).1 with
  | Data d m => (d, m)
  | _ => (DApplications [], meta (snapshot_of (handler_of live_conf live_state)))
  end.

Lemma live_data_eq :
  rs_body (answer live_state live_route (demo_request EmptyString)).1 = Data live_data.1 live_data.2.
Proof.
  assert (match rs_body (answer live_state live_route (demo_request EmptyString)).1 with
    | Data _ _ => true | _ => false end = true) as H by (vm_compute; reflexivity).
  unfold live_data. by destruct (rs_body _).
Qed.

Example live_hosts :
  (λ a, (λ s, (svc_ExternalHosts s, reach_Host <$> svc_Reachability s)) <$> app_Services a) <$> payload_apps live_data.1 =
  [[(["kube.example"], ["kube.example"])]; [(["shop.example"], ["shop.example"])]].
Proof. vm_compute. reflexivity. Qed.

Lemma live_own_cluster : own_cluster live_conf live_service.1.
Proof. apply worker_own_cluster. Qed.

(** What [GET /api/v1/catalog] answers there. *)
Definition live_catalog_route : route :=
  mkRoute "/api/v1/catalog" (Some (authMW (y_verifier live_state))) (GetCatalog (handler_of live_conf live_state)).

Lemma live_catalog_in : live_catalog_route ∈ routes (GU := ascii_unicode) live_conf insertion_runtime live_state.
Proof. unfold routes, Configure, live_catalog_route. do 2 right. left. Qed.

Definition live_catalog : Catalog := snapshot_of (handler_of live_conf live_state).

Definition catalog_view (h : CatalogHandler) : Catalog :=
  with_Applications (snapshot_of h) (overlayApps (h_reach h) (cat_Applications (snapshot_of h))).

Lemma open_catalog conf st path c :
  y_verifier st = None →
  rs_body (answer st (mkRoute path (Some (authMW (y_verifier st))) (GetCatalog (handler_of conf st))) c).1 =
    Data (DCatalog (catalog_view (handler_of conf st))) (meta (snapshot_of (handler_of conf st))).
Proof. intros E. unfold answer, serve. cbn [rt_mw]. rewrite E. reflexivity. Qed.

Definition live_view : Catalog := catalog_view (handler_of live_conf live_state).

Lemma live_catalog_eq :
  rs_body (answer live_state live_catalog_route (demo_request EmptyString)).1 =
    Data (DCatalog live_view) (meta live_catalog).
Proof. apply open_catalog. vm_compute. reflexivity. Qed.

Lemma live_named : Forall named_app (cat_Applications live_catalog).
Proof.
  assert (bool_decide (Forall named_app (cat_Applications live_catalog)) = true) as H by (vm_compute; reflexivity).
  exact (proj1 (bool_decide_eq_true _) H).
Qed.

Lemma scope_served_witness :
  app_Namespace <$> payload_apps (DCatalog live_view) = ["kube"; "shop"] ∧
  (λ e, (node_Namespace (edge_Source e), node_Service (edge_Target e))) <$> payload_edges (DCatalog live_view) =
    [("kube", "ipblock:203.0.113.0/24"); ("shop", "ipblock:203.0.113.0/24")] ∧
  Forall (λ a, allowed live_conf (app_Namespace a)) (payload_apps (DCatalog live_view)) ∧
  Forall (edge_allowed live_conf) (payload_edges (DCatalog live_view)).
Proof.
  destruct (scope_served ascii_unicode tree_unstructured insertion_runtime live_conf live_service.1 None live_state
    live_catalog_route (demo_request EmptyString) (DCatalog live_view) (meta live_catalog) live_reachable
    live_catalog_in live_catalog_eq) as (H1 & _ & H2 & _).
  split; [vm_compute; reflexivity|]. split; [vm_compute; reflexivity|]. split; [exact H1|exact (H2 live_named)].
Defined.

Lemma served_typed_witness :
  en_cluster live_data.2 = "prod" ∧ length (payload_apps live_data.1) = 2 ∧
  Forall (application_typed "prod" has_verdict) (payload_apps live_data.1).
Proof.
  destruct (served_typed ascii_unicode tree_unstructured insertion_runtime live_conf live_service.1 None live_state
    live_route (demo_request EmptyString) live_data.1 live_data.2 live_own_cluster live_reachable live_route_in
    live_data_eq) as (H1 & H2 & _).
  split; [exact H1|]. split; [vm_compute; reflexivity|exact H2].
Defined.

Lemma verdicts_served_witness :
  ∃ app svc v host cat, app ∈ payload_apps live_data.1 ∧ svc ∈ app_Services app ∧ v ∈ svc_Reachability svc ∧
    host ∈ svc_ExternalHosts svc ∧
    collected (GU := ascii_unicode) (U := tree_unstructured) live_conf live_service.1 cat ∧
    ∃ ns' svc' host', verdict_of (GU := ascii_unicode) cat ns' svc' host' v.
Proof.
  destruct (verdicts_served ascii_unicode tree_unstructured insertion_runtime live_conf live_service.1 None live_state
    live_route (demo_request EmptyString) live_data.1 live_data.2 live_own_cluster live_reachable live_route_in
    live_data_eq) as [H _].
  pose proof live_hosts as Hh. destruct (payload_apps live_data.1) as [|app apps]; [discriminate Hh|].
  destruct (app_Services app) as [|svc svcs] eqn:Es; [rewrite fmap_cons, Es in Hh; discriminate Hh|].
  destruct (svc_Reachability svc) as [|v vs] eqn:Ev;
    [rewrite fmap_cons, Es, fmap_cons, Ev in Hh; discriminate Hh|].
  assert (svc ∈ app_Services app) as Hs by (rewrite Es; left).
  assert (v ∈ svc_Reachability svc) as Hv by (rewrite Ev; left).
  destruct (H app svc v ltac:(left) Hs Hv) as (host & cat & ns' & svc' & host' & H1 & H2 & H3 & _).
  exists app, svc, v, host, cat. split; [left|]. split; [exact Hs|]. split; [exact Hv|]. split; [exact H1|].
  split; [exact H2|]. exists ns', svc', host'. exact H3.
Defined.

Lemma counters_spec_witness :
  counter_values live_state = [0; 36; 18; 2; 2; 0; 0; 12; 0; 2; 1]%Z ∧ Forall (Z.le 0) (counter_values live_state) ∧
  ∀ st', exec (GU := ascii_unicode) (U := tree_unstructured) live_conf live_service.1 live_state
           (EvAccept 2 (demo_request EmptyString)) = Some st' →
    Forall2 Z.le (counter_values live_state) (counter_values st').
Proof.
  destruct (counters_spec ascii_unicode tree_unstructured live_conf live_service.1 None live_state live_reachable)
    as (H1 & _ & _ & _ & H).
  split; [vm_compute; reflexivity|]. split; [exact H1|]. intros st'. exact (H (EvAccept 2 (demo_request EmptyString)) st' I).
Defined.

Lemma telemetry_outage_witness :
  let env := cycle_env (U := tree_unstructured) live_conf (live_cycle (λ _ _, None)) in
  oc_errors (mem_caches (Collect (GU := ascii_unicode) (U := tree_unstructured) (λ _, insertion_runtime)
    insertion_runtime live_service.1 env live_service.2).2) = Some 6%Z.
Proof.
  cbn zeta. set (env := cycle_env _ _).
  assert (is_ok (ce_snapshot env) = true) as E by (vm_compute; reflexivity).
  pose proof (telemetry_outage ascii_unicode tree_unstructured no_exotic (λ _, insertion_runtime) insertion_runtime
    live_conf (λ _, None) (λ _, refused) (λ _, Err EmptyString) (λ _ _, []) (λ _ _, []) env live_service.2
    (λ req, or_intror (or_introl (ex_intro _ "connection refused" eq_refl)))) as H.
  cbn zeta in H. rewrite E in H. destruct (Collect _ _ (mkCollector _ None) _ _) as [catalog mem0].
  unfold live_service at 1. rewrite H. reflexivity.
Defined.
